(* ===== verification/_CoqProject ===== *)
-Q . S2P
Prelude.v
Numerals.v
Sys.v
Progress.v
Total.v
Epoll.v
Socket.v
TimerFd.v
Request.v
Response.v
Router.v
StaticFiles.v
Stats.v
StatsThreads.v
Parser.v
ParserInv.v
ParserStream.v
ParserWire.v
ParserTheorems.v
Conn.v
ConnFlow.v
Redis.v
Pool.v
PoolThreads.v
Tasks.v
Handler.v
HandlerTheorems.v
HandlerTexts.v
React.v
ReactConn.v
ReactInv.v
ReactLoop.v
ReactTheorems.v
ReactAges.v
Main.v
Shutdown.v
Backends.v
Ring.v
Counts.v
Health.v
HealthLog.v
LbText.v
Balancer.v
BalancerInv.v
BalancerTraffic.v
BalancerProgress.v
BalancerStop.v
BalancerTheorems.v
