(* ===== verification/Prelude.v ===== *)
(** * AORTA, verified

    AORTA is two programs on one network layer: an event-driven HTTP/1.1 server
    whose task API keeps its data in Redis, and a layer-4 load balancer in front
    of such servers.  This library is a shallow embedding of their C++ code, in
    Rocq functions that run, with the theorems that make the parts correct.
    Paths below are relative to the repository's [src/] and [include/] folders.

    ** The program and its parts

    - The server: [Server] starts one thread per [Reactor] and a [WorkerPool].  A
      reactor accepts clients into its tables of [Connection]s, feeds what they
      send to their [HttpParser], gives each complete [HttpRequest] to
      [HttpHandler], and queues the [HttpResponse] on the connection.  Requests
      for tasks are deferred: [TaskManager] submits a job to the pool, a worker
      runs it against its [RedisClient], and its completion comes back to the
      reactor through a channel announced on an eventfd.  All threads share one
      [Metrics].
    - The balancer: each thread runs a [LoadBalancer] with its own [BackendPool],
      [ConsistentHash] ring and [HealthChecker]; it pairs clients with backends,
      moves bytes both ways and fails over.

    ** How the code is translated

    A member function is a [Prog S A] ([Sys]): it takes its object's state and the
    history of calls made so far, and returns a result, the new state and the
    longer history, or [None] when its fuel has run out or a reference dangles.
    The operating system is a type class [Kernel], any function from histories and
    calls to answers; system calls, the environment, the clock, the file system,
    signals and the hiredis library are calls.  Assignments are record updates
    [r <| f := v |>], early returns are branches, [while] and recursion are
    fixpoints on fuel, exceptions are [None] or a result, [std::unordered_map] is a
    [gmap] whose traversal order is unknown (the class [Traversal]), a
    [std::vector] or [std::deque] is a list, bytes are [ascii], and machine
    integers are [Z] with the wrap-around written out ([add64], [sub64], [to_int])
    wherever the code does not exclude it.  A callback that is run later is its
    captured variables as a record, or a function of the result it is given.

    ** The files

    Foundations:
    - [Prelude]: record update, bytes, characters, searching and cutting text;
    - [Numerals]: [std::to_string], [std::stoi], [std::stoull];
    - [Sys]: calls, kernels, programs, which descriptors a history leaves open;
      [wp] for partial correctness;
    - [Progress], [Total]: programs that return; [runs], total correctness with
      one rule per construct; [makes] and [leaves], which calls a program makes
      and what it leaves alone.
    The network layer: [Epoll], [Socket], [TimerFd] for [net/*.cpp].
    The HTTP server:
    - [Request], [Response], [Router], [StaticFiles]: [http/HttpRequest.cpp],
      [HttpResponse.cpp], [HttpRouter.cpp], [StaticFileHandler.cpp];
    - [Parser]: [http/HttpParser.cpp], one definition per arm of the state machine;
      [ParserInv] its invariant, [ParserStream] its behaviour on a growing buffer,
      [ParserWire] the text a client sends, [ParserTheorems] the results;
    - [Conn]: [net/Connection.cpp]; [ConnFlow] its refinement of a queue;
    - [Stats]: [server/Metrics.cpp]; [StatsThreads] its atomic steps interleaved;
    - [Redis], [Tasks]: [redis/RedisClient.cpp], [task/TaskManager.cpp];
    - [Pool]: [worker/WorkerPool.cpp]; [PoolThreads] its threads as steps;
    - [Handler]: [http/HttpHandler.cpp]; [HandlerTheorems] that it answers,
      [HandlerTexts] that its texts can be read back;
    - [React]: [server/Reactor.cpp]; [ReactConn] the operations of a connection as
      the reactor relies on them, [ReactInv] the invariant, [ReactLoop] that every
      handler keeps it, [ReactTheorems] the results, [ReactAges] the generations;
    - [Main]: [server/Server.cpp] up to its threads, and [apps/*/main.cpp];
    - [Shutdown]: the threads of [Server::start], reactors, workers and the main
      thread, as interleaved steps.
    The load balancer:
    - [Backends]: [lb/BackendPool.cpp], [lb/BackendConfig.cpp];
    - [Ring]: [lb/ConsistentHash.cpp]; [Health]: [lb/HealthChecker.cpp], and
      [HealthLog] the checker against the log of its probes' outcomes;
    - [Counts]: counting in maps; [LbText]: [lb/LbMetrics.cpp];
    - [Balancer]: [lb/LoadBalancer.cpp]; [BalancerInv] its invariant,
      [BalancerTraffic] the bytes in its buffers, [BalancerProgress] that its loop
      never hangs, [BalancerStop] that it stops, [BalancerTheorems] the results.

    ** What the theorems show

    - Parsing: [parse] terminates, does not depend on how the input is cut into
      reads, accepts only well-formed requests, leaves pipelined bytes alone, and
      reads back what a client writes, with a plain or a chunked body.
    - Responses: what [serialize] writes can be read back with nothing lost or
      left over; static files stay below their directory; task lists can be read
      back by a strict JSON reader unless a title holds what [escapeJson] leaves raw;
      forms and task numbers are read exactly.
    - A request's way through the server: [request_handed_over] (answered at once,
      or one job and a connection that awaits exactly its completion),
      [handle_answers] (every job answers), [pool_is_fifo] and [pool_drains] (jobs
      run once and in order under every interleaving, completions are delivered in
      order), [completion_delivery] (the response reaches that connection only, at
      most once and in its turn), [late_completion_ignored] (and never a later
      client with the same descriptor), [connection_refines_fifo] (bytes leave a
      connection in order, each once).
    - The event loops: every event is handled to its end and keeps the tables, the
      counts, epoll's registrations and the open descriptors consistent; a run
      of either program's loop that is told to stop returns and closes everything;
      start-up gives every reactor its own descriptors and channel; the server's
      threads shut down in order ([shutdown_completes]).
    - Balancing: selection is fair or consistent, goes to healthy backends only,
      moves few clients when health changes; a backend is unhealthy exactly when
      its last two probes failed ([health_follows_probes]); traffic is appended and
      sent exactly; failover keeps the client's bytes or closes.
    - Metrics: interleaved updates count exactly; percentiles are exact ranks of
      the histogram.
    - Flaws that modelling found are stated as theorems where that is possible:
      [limit_line_split_refused], [relative_target_leaves_root],
      [partial_metrics_request_spins], [head_request_sends_file].

    ** Fuel and what is assumed of the kernel

    Loops that the source leaves unbounded take fuel.  Theorems say that there is
    an amount from which on the function returns, always with the same result.
    What makes that true is stated as classes, each a documented or unavoidable
    property of the outside: descriptors that are opened are new ([FreshFds]) and
    fit an [int] ([IntFds]); no call transfers more than it was offered
    ([Honest]); no call is interrupted for ever ([Patient n]); between two waits
    only so much data and so many clients arrive ([Paced m], [Backlog m]); a
    SIGTERM comes at some time ([Terminated t]).  Other threads may do anything to
    what a reactor shares with them, but count their own connections only
    ([tolerant]).  Every class has an instance in the witnesses.

    ** Not modelled

    - Output to the console, and memory: allocation never fails, reserved
      capacities are left out where no value can make [reserve] throw.
    - hiredis and the Redis server: replies are the kernel's, whatever they are;
      the Lua scripts are arguments of a command.
    - Threads as such: the metrics, the pool and the server's shutdown are
      interleaved step by step ([StatsThreads], [PoolThreads], [Shutdown]); a
      reactor sees other threads' effects when it waits.  The balancer's threads
      share nothing but the shutdown flag; their joining is left out.
    - The order in which an [unordered_map] is traversed: it is arbitrary.  A
      [double] in the metrics' text is an IEEE binary64 number. *)

From stdpp Require Export base option list numbers gmap strings.
From Stdlib Require Export ZArith Ascii Lia.

#[global] Open Scope Z_scope.
#[global] Set Default Goal Selector "1".

(** ** Record update

    [r <| f := v |>] is the record [r] with the field [f] replaced by [v]; it
    is the functional reading of an assignment [this->f = v].  A record type
    opts in by declaring its eta-expansion as an [Eta] instance. *)
Class Eta (R : Type) := eta : R → R.

Class Setter {R T : Type} (f : R → T) := set_with : (T → T) → R → R.

Ltac build_setter f :=
  lazymatch type of f with
  | ?R → ?T =>
      let body := eval hnf in (@eta R _) in
      lazymatch eval pattern f in body with
      | ?g _ =>
          let setter := eval cbv beta in
            (fun (h : T → T) (r : R) => g (fun r' : R => h (f r')) r) in
          exact setter
      end
  end.

#[export] Hint Extern 1 (@Setter _ _ ?f) => build_setter f : typeclass_instances.

Declare Scope aorta_scope.
Delimit Scope aorta_scope with aorta.
#[global] Open Scope aorta_scope.

Notation "r <| f := v |>" := (@set_with _ _ f _ (λ _, v) r)
  (at level 12, f at next level, left associativity) : aorta_scope.

(** ** Bytes

    A [std::string] is a list of bytes, a [std::size_t] a mathematical integer.
    Subtraction of sizes is written with its wrap-around ([sub64]), and so is
    counting ([add64]); additions of lengths are not, each component's bounds
    theorem shows they stay below 2^64. *)
Abbreviation bytes := (list ascii).

Definition U64 : Z := 2 ^ 64.

Definition sub64 (a b : Z) : Z := (a - b) mod U64.

(** An addition whose result may reach 2^64, as in a counter that only grows. *)
Definition add64 (a b : Z) : Z := (a + b) mod U64.

Definition len {A} (l : list A) : Z := Z.of_nat (length l).

Definition lit (s : string) : bytes := String.list_ascii_of_string s.

Definition code (c : ascii) : Z := Z.of_N (N_of_ascii c).

Definition chr (z : Z) : ascii := ascii_of_N (Z.to_N z).

Definition CR : ascii := "013".
Definition LF : ascii := "010".
Definition SP : ascii := " ".
Definition HT : ascii := "009".
Definition QUOTE : ascii := "034".
Definition CRLF : bytes := [CR; LF].
#[global] Arguments CRLF : simpl never.

(** The character classes of [<cctype>] in the C locale. *)
Definition between (lo : Z) (c : ascii) (hi : Z) : bool :=
  (lo <=? code c) && (code c <=? hi).

Definition isdigit (c : ascii) : bool := between 48 c 57.
Definition isupper (c : ascii) : bool := between 65 c 90.
Definition islower (c : ascii) : bool := between 97 c 122.
Definition isalnum (c : ascii) : bool := isdigit c || isupper c || islower c.
Definition isxdigit (c : ascii) : bool :=
  isdigit c || between 65 c 70 || between 97 c 102.
Definition isspace (c : ascii) : bool := (code c =? 32) || between 9 c 13.
Definition tolower (c : ascii) : ascii := if isupper c then chr (code c + 32) else c.

Definition ceq (a b : ascii) : bool := bool_decide (a = b).
Definition beq (a b : bytes) : bool := bool_decide (a = b).

(** ** [std::string] operations *)

(** [l.starts_with(pat)]. *)
Fixpoint starts_with (pat l : bytes) : bool :=
  match pat, l with
  | [], _ => true
  | _ :: _, [] => false
  | c :: pat', d :: l' => ceq c d && starts_with pat' l'
  end.

Fixpoint find_at (pat l : bytes) (i : Z) : option Z :=
  if starts_with pat l then Some i
  else match l with
       | [] => None
       | _ :: l' => find_at pat l' (i + 1)
       end.

(** [l.find(pat, pos)]; [npos] is [None]. *)
Definition find (l pat : bytes) (pos : Z) : option Z :=
  if len l <? pos then None else find_at pat (drop (Z.to_nat pos) l) pos.

Definition find_char (l : bytes) (c : ascii) (pos : Z) : option Z := find l [c] pos.

(** [l.substr(pos, n)] and [l.substr(pos)], for [pos <= l.size()]. *)
Definition substr (l : bytes) (pos n : Z) : bytes :=
  take (Z.to_nat n) (drop (Z.to_nat pos) l).

Definition substr_from (l : bytes) (pos : Z) : bytes := drop (Z.to_nat pos) l.

(** [l.ends_with(suf)]. *)
Definition ends_with (suf l : bytes) : bool :=
  if len l <? len suf then false
  else beq (substr_from l (len l - len suf)) suf.

(** [std::to_string] of an unsigned value, by repeated division; the fuel is
    the number of decimal digits of 2^64. *)
Fixpoint digits (fuel : nat) (n : Z) (acc : bytes) : bytes :=
  match fuel with
  | O => acc
  | S fuel' =>
      let acc' := chr (48 + n mod 10) :: acc in
      if n <? 10 then acc' else digits fuel' (n / 10) acc'
  end.

Definition to_string (n : Z) : bytes := digits 20 n [].

(** The loop that compares two strings of equal length ignoring case. *)
Fixpoint same_lower (left right : bytes) : bool :=
  match left, right with
  | a :: l, b :: r => if ceq (tolower a) (tolower b) then same_lower l r else false
  | _, _ => true
  end.

(** Skipping a leading run of bytes satisfying [f]. *)
Fixpoint skip_while (f : ascii → bool) (l : bytes) : bytes :=
  match l with
  | c :: l' => if f c then skip_while f l' else l
  | [] => []
  end.

(** The pieces of a text between the occurrences of a separator. *)
Fixpoint split_on (sep : ascii) (l : bytes) : list bytes :=
  match l with
  | [] => [[]]
  | c :: l' =>
      if ceq c sep then [] :: split_on sep l'
      else match split_on sep l' with
           | e :: es => (c :: e) :: es
           | [] => [[c]]
           end
  end.

(** The byte [c] does not occur. *)
Definition no_char (c : ascii) (l : bytes) : bool := forallb (λ d, negb (ceq c d)) l.

Definition is_blank (c : ascii) : bool := ceq c SP || ceq c HT.

(** ** Automation *)

Create HintDb aorta discriminated.
Create Rewrite HintDb len.
#[export] Hint Constants Opaque : aorta.

#[export] Hint Rewrite @length_app @length_drop @length_take @length_cons @length_nil
  @length_replicate @length_insert @length_map @length_rev : len.

(** Linear arithmetic over lengths of lists. *)
Ltac len_lia := unfold len in *; autorewrite with len in *; cbn [length] in *; lia.

(** Linear arithmetic with division and remainder by constants. *)
Ltac div_lia := Z.div_mod_to_equations; lia.

(** Splits a conjunction and closes the parts with linear arithmetic. *)
Ltac split_lia := repeat split; try len_lia.

(** Case analysis on the next [if] or [match] of a hypothesis or the goal,
    discarding contradictory branches. *)
Ltac break_match_in H :=
  lazymatch type of H with
  | context [match ?x with _ => _ end] => destruct x eqn:?
  end.

Ltac break_match :=
  match goal with
  | |- context [match ?x with _ => _ end] => destruct x eqn:?
  end.

(** Turns boolean tests into propositions. *)
Ltac bool_prop :=
  repeat match goal with
  | H : _ && _ = true |- _ => apply andb_true_iff in H as [? ?]
  | H : _ || _ = false |- _ => apply orb_false_iff in H as [? ?]
  | H : negb _ = true |- _ => apply negb_true_iff in H
  | H : negb _ = false |- _ => apply negb_false_iff in H
  | H : (_ <? _) = true |- _ => apply Z.ltb_lt in H
  | H : (_ <? _) = false |- _ => apply Z.ltb_ge in H
  | H : (_ <=? _) = true |- _ => apply Z.leb_le in H
  | H : (_ <=? _) = false |- _ => apply Z.leb_gt in H
  | H : (_ >? _) = true |- _ => rewrite Z.gtb_ltb in H; apply Z.ltb_lt in H
  | H : (_ >? _) = false |- _ => rewrite Z.gtb_ltb in H; apply Z.ltb_ge in H
  | H : (_ >=? _) = true |- _ => rewrite Z.geb_leb in H; apply Z.leb_le in H
  | H : (_ >=? _) = false |- _ => rewrite Z.geb_leb in H; apply Z.leb_gt in H
  | H : (_ =? _) = true |- _ => apply Z.eqb_eq in H
  | H : (_ =? _) = false |- _ => apply Z.eqb_neq in H
  | H : beq _ _ = true |- _ => apply bool_decide_eq_true in H
  | H : beq _ _ = false |- _ => apply bool_decide_eq_false in H
  | H : ceq _ _ = true |- _ => apply bool_decide_eq_true in H
  | H : ceq _ _ = false |- _ => apply bool_decide_eq_false in H
  end.

(** ** Lengths and wrap-around *)

Lemma len_nonneg {A} (l : list A) : 0 ≤ len l.
Proof. len_lia. Qed.

Lemma len_app {A} (l k : list A) : len (l ++ k) = len l + len k.
Proof. len_lia. Qed.

Lemma len_cons {A} (x : A) l : len (x :: l) = 1 + len l.
Proof. len_lia. Qed.

Lemma len_nil {A} : len (@nil A) = 0.
Proof. reflexivity. Qed.

Lemma len_0 {A} (l : list A) : len l = 0 → l = [].
Proof. destruct l; [done | len_lia]. Qed.

Lemma len_drop {A} (l : list A) n : 0 ≤ n ≤ len l → len (drop (Z.to_nat n) l) = len l - n.
Proof. len_lia. Qed.

Lemma len_take {A} (l : list A) n : 0 ≤ n ≤ len l → len (take (Z.to_nat n) l) = n.
Proof. len_lia. Qed.

Lemma len_to_nat {A} (l : list A) : Z.to_nat (len l) = length l.
Proof. len_lia. Qed.

Lemma sub64_small a b : 0 ≤ b ≤ a → a < U64 → sub64 a b = a - b.
Proof. intros. unfold sub64. apply Z.mod_small. lia. Qed.

(** The idiom [if(n > limit) n = limit;]. *)
Lemma cap_min a b : (if a >? b then b else a) = Z.min a b.
Proof. destruct (Z.gtb_spec a b); lia. Qed.

#[export] Hint Resolve len_nonneg : aorta.

Lemma code_range c : 0 ≤ code c < 256.
Proof. destruct c as [[] [] [] [] [] [] [] []]; vm_compute; by split. Qed.

Lemma chr_code z : 0 ≤ z < 256 → code (chr z) = z.
Proof. intros. unfold code, chr. rewrite N_ascii_embedding; lia. Qed.

Lemma code_chr c : chr (code c) = c.
Proof. unfold code, chr. rewrite N2Z.id. apply ascii_N_embedding. Qed.

(** ** Searching *)

Lemma starts_with_app pat l k : starts_with pat l = true → starts_with pat (l ++ k) = true.
Proof.
  revert l. induction pat as [|c pat IH]; intros [|d l]; simpl; try done.
  intros H. bool_prop. subst. rewrite (IH l) by done. unfold ceq. by rewrite bool_decide_true.
Qed.

Lemma starts_with_self pat k : starts_with pat (pat ++ k) = true.
Proof.
  induction pat as [|c pat IH]; simpl; [done|].
  unfold ceq. rewrite bool_decide_true by done. exact IH.
Qed.

Lemma starts_with_split pat l : starts_with pat l = true → ∃ k, l = pat ++ k.
Proof.
  revert l. induction pat as [|c pat IH]; intros [|d l]; simpl; try (by eauto).
  intros H. bool_prop. subst. destruct (IH l) as [k ->]; [done|]. by exists k.
Qed.

Lemma starts_with_iff pat l : starts_with pat l = true ↔ ∃ k, l = pat ++ k.
Proof.
  split; [apply starts_with_split|]. intros [k ->]. apply starts_with_self.
Qed.

Lemma find_at_shift pat l i k :
  find_at pat l (k + i) = Z.add k <$> find_at pat l i.
Proof.
  revert i. induction l as [|c l IH]; intros i; simpl; destruct (starts_with _ _); try done.
  rewrite <- IH. f_equal. lia.
Qed.

Lemma starts_with_long pat l k :
  starts_with pat (l ++ k) = true → len pat ≤ len l → starts_with pat l = true.
Proof.
  revert l. induction pat as [|c pat IH]; intros [|d l]; simpl; try done.
  intros H Hl. bool_prop. subst. unfold ceq. rewrite bool_decide_true by done. simpl.
  apply IH; [done|len_lia].
Qed.

Lemma starts_with_len pat l : starts_with pat l = true → len pat ≤ len l.
Proof. intros [k ->]%starts_with_split. len_lia. Qed.

Lemma find_at_bounds pat l i j :
  find_at pat l i = Some j → i ≤ j ∧ (j - i) + len pat ≤ len l.
Proof.
  revert i. induction l as [|c l IH]; intros i H; simpl in H.
  - destruct (starts_with pat []) eqn:E; [|done]. simplify_eq.
    apply starts_with_len in E. lia.
  - destruct (starts_with pat (c :: l)) eqn:E.
    + simplify_eq. apply starts_with_len in E. lia.
    + apply IH in H. len_lia.
Qed.

(** A match found in a prefix of the data is still the first match when more
    data arrives. *)
Lemma find_at_app pat l k i j :
  find_at pat l i = Some j → find_at pat (l ++ k) i = Some j.
Proof.
  revert i. induction l as [|c l IH]; intros i H.
  - simpl in H. destruct (starts_with pat []) eqn:E; [|done].
    destruct pat; [|done]. destruct k; done.
  - pose proof (find_at_bounds _ _ _ _ H) as Hb. simpl in *.
    destruct (starts_with pat (c :: l)) eqn:E.
    + apply (starts_with_app _ _ k) in E. simpl in E. by rewrite E.
    + destruct (starts_with pat (c :: l ++ k)) eqn:E'; [|by apply IH].
      apply (starts_with_long _ (c :: l) k) in E'; [congruence|]. lia.
Qed.

Lemma find_at_match pat l i j :
  find_at pat l i = Some j → starts_with pat (drop (Z.to_nat (j - i)) l) = true.
Proof.
  revert i. induction l as [|c l IH]; intros i H; simpl in H.
  - destruct (starts_with pat []) eqn:E; [|done]. simplify_eq. by rewrite drop_nil.
  - destruct (starts_with pat (c :: l)) eqn:E.
    + simplify_eq. by rewrite Z.sub_diag.
    + pose proof (find_at_bounds _ _ _ _ H) as [? _]. apply IH in H.
      by replace (Z.to_nat (j - i)) with (S (Z.to_nat (j - (i + 1)))) by lia.
Qed.

Lemma find_at_before pat l i j n :
  find_at pat l i = Some j → 0 ≤ n < j - i → starts_with pat (drop (Z.to_nat n) l) = false.
Proof.
  revert i n. induction l as [|c l IH]; intros i n H Hn; simpl in H;
    destruct (starts_with _ _) eqn:E; simplify_eq; try lia.
  destruct (decide (n = 0)) as [->|]; [done|].
  replace (Z.to_nat n) with (S (Z.to_nat (n - 1))) by lia. simpl.
  apply (IH (i + 1)); [done|lia].
Qed.

Lemma find_at_none pat l i n :
  find_at pat l i = None → starts_with pat (drop n l) = false.
Proof.
  revert i n. induction l as [|c l IH]; intros i n H; simpl in H;
    destruct (starts_with _ _) eqn:E; simplify_eq.
  - by rewrite drop_nil.
  - destruct n; [done|]. simpl. by apply (IH (i + 1)).
Qed.

Lemma find_bounds l pat pos i :
  0 ≤ pos → find l pat pos = Some i → pos ≤ i ∧ i + len pat ≤ len l.
Proof.
  unfold find. intros Hp H. destruct (len l <? pos) eqn:E; [done|]. bool_prop.
  apply find_at_bounds in H. rewrite len_drop in H; lia.
Qed.

Lemma find_app l k pat pos i :
  0 ≤ pos → find l pat pos = Some i → find (l ++ k) pat pos = Some i.
Proof.
  intros Hp H. unfold find in *. destruct (len l <? pos) eqn:E; [done|]. bool_prop.
  rewrite (proj2 (Z.ltb_ge _ _)) by (rewrite len_app; pose proof (len_nonneg k); lia).
  rewrite drop_app_le by len_lia. by apply find_at_app.
Qed.

(** Dropping [n] consumed bytes shifts every position by [n]. *)
Lemma find_drop l pat n pos :
  0 ≤ n ≤ len l → 0 ≤ pos → find l pat (n + pos) = Z.add n <$> find (drop (Z.to_nat n) l) pat pos.
Proof.
  intros Hn Hp. unfold find. rewrite len_drop by done.
  destruct (len l <? n + pos) eqn:E; destruct (len l - n <? pos) eqn:E'; bool_prop; try lia;
    [done|].
  rewrite drop_drop, find_at_shift. do 2 f_equal. f_equal. lia.
Qed.

(** The first match splits the text around it. *)
Lemma find_split l pat i :
  find l pat 0 = Some i → l = substr l 0 i ++ pat ++ substr_from l (i + len pat).
Proof.
  unfold find. intros H. destruct (len l <? 0) eqn:E; [done|].
  pose proof (find_at_bounds _ _ _ _ H) as Hb. apply find_at_match in H.
  rewrite drop_drop in H. unfold substr, substr_from. rewrite drop_0.
  replace (Z.to_nat 0 + Z.to_nat (i - 0))%nat with (Z.to_nat i) in H by lia.
  apply starts_with_split in H as [k Hk].
  rewrite <- (take_drop (Z.to_nat i) l) at 1. f_equal. rewrite Hk. f_equal.
  replace (Z.to_nat (i + len pat)) with (Z.to_nat i + Z.to_nat (len pat))%nat
    by (pose proof (len_nonneg pat); lia).
  by rewrite <- drop_drop, Hk, len_to_nat, drop_app_length.
Qed.

(** A separator is found exactly after a prefix in which it does not occur. *)
Lemma find_sep pre pat post :
  pat ≠ [] →
  (∀ n, (n < length pre)%nat → starts_with pat (drop n pre ++ pat ++ post) = false) →
  find (pre ++ pat ++ post) pat 0 = Some (len pre).
Proof.
  intros Hp Hpre. unfold find. rewrite (proj2 (Z.ltb_ge _ _)) by apply len_nonneg.
  rewrite drop_0. replace (len pre) with (len pre + 0) by lia.
  generalize 0 as i. induction pre as [|c pre IH]; intros i; simpl.
  - destruct pat as [|c pat]; [done|]. pose proof (starts_with_self (c :: pat) post) as Hs.
    simpl in *. by rewrite Hs.
  - pose proof (Hpre 0%nat ltac:(simpl; lia)) as H0. simpl in H0. rewrite H0.
    rewrite IH; [f_equal; len_lia|]. intros n Hn. apply (Hpre (S n)). simpl. lia.
Qed.

(** ** Substrings *)

Lemma len_substr l pos n : 0 ≤ pos → 0 ≤ n → pos + n ≤ len l → len (substr l pos n) = n.
Proof. unfold substr. len_lia. Qed.

Lemma substr_app l k pos n :
  0 ≤ pos → 0 ≤ n → pos + n ≤ len l → substr (l ++ k) pos n = substr l pos n.
Proof.
  intros. unfold substr. rewrite drop_app_le by len_lia. apply take_app_le. len_lia.
Qed.

Lemma substr_drop l c pos n :
  0 ≤ c → 0 ≤ pos → substr (drop (Z.to_nat c) l) pos n = substr l (c + pos) n.
Proof. intros. unfold substr. rewrite drop_drop. do 2 f_equal. lia. Qed.

Lemma substr_middle pre mid post :
  substr (pre ++ mid ++ post) (len pre) (len mid) = mid.
Proof. unfold substr. by rewrite !len_to_nat, drop_app_length, take_app_length. Qed.

(** ** Boolean equality, case folding *)

Lemma ceq_refl c : ceq c c = true.
Proof. by apply bool_decide_eq_true. Qed.

Lemma ceq_sym c d : ceq c d = ceq d c.
Proof. apply bool_decide_ext. by split. Qed.

Lemma beq_refl l : beq l l = true.
Proof. by apply bool_decide_eq_true. Qed.

Lemma same_lower_refl l : same_lower l l = true.
Proof. induction l; simpl; by rewrite ?ceq_refl. Qed.

Lemma same_lower_spec l r :
  len l = len r → same_lower l r = true ↔ tolower <$> l = tolower <$> r.
Proof.
  revert r. induction l as [|a l IH]; intros [|b r] Hl; try done.
  rewrite !fmap_cons. cbn [same_lower]. unfold ceq. case_bool_decide as E.
  - rewrite IH by len_lia. rewrite E. split; [by intros ->|by intros [= ->]].
  - split; [done|]. by intros [=].
Qed.

Lemma skip_while_suffix f l : ∃ pre, l = pre ++ skip_while f l ∧ forallb f pre = true.
Proof.
  induction l as [|c l IH]; simpl; [by exists []|]. destruct (f c) eqn:E.
  - destruct IH as (pre & Hp & Hf). exists (c :: pre). simpl. rewrite E, <- Hp. done.
  - by exists [].
Qed.

(** ** Lines and separators *)

Lemma no_char_app c l k : no_char c (l ++ k) = no_char c l && no_char c k.
Proof. apply forallb_app. Qed.

Lemma forallb_no_char f c l : f c = false → forallb f l = true → no_char c l = true.
Proof.
  intros Hc. unfold no_char. induction l as [|d l IH]; [done|]. cbn. intros [Hd Hl]%andb_true_iff.
  rewrite IH by done. unfold ceq. rewrite bool_decide_false by congruence. done.
Qed.

Lemma starts_with_no_char c pat l k :
  no_char c l = true → ∀ n, (n < length l)%nat → starts_with (c :: pat) (drop n l ++ k) = false.
Proof.
  intros H n. revert l H. induction n as [|n IH]; intros [|d l] H Hn; cbn in *; try lia;
    apply andb_true_iff in H as [Hd Hl].
  - by apply negb_true_iff in Hd as ->.
  - apply IH; [done|lia].
Qed.

Lemma find_cursor b c line pat post :
  0 ≤ c ≤ len b → pat ≠ [] →
  drop (Z.to_nat c) b = line ++ pat ++ post →
  (∀ n, (n < length line)%nat → starts_with pat (drop n line ++ pat ++ post) = false) →
  find b pat c = Some (c + len line).
Proof.
  intros Hc Hp Hd Hn. rewrite <- (Z.add_0_r c) at 1.
  rewrite find_drop by lia. by rewrite Hd, find_sep.
Qed.

(** A line without [CR] is found and read in full. *)
Lemma find_line b c line post :
  0 ≤ c ≤ len b → drop (Z.to_nat c) b = line ++ CRLF ++ post → no_char CR line = true →
  find b CRLF c = Some (c + len line) ∧ substr b c (len line) = line ∧
  c + len line + 2 ≤ len b ∧ drop (Z.to_nat (c + len line + 2)) b = post.
Proof.
  intros Hc Hd Hl. split_and!.
  - apply (find_cursor b c line CRLF post); try done. by apply starts_with_no_char.
  - unfold substr. by rewrite Hd, len_to_nat, take_app_length.
  - pose proof (f_equal len Hd) as E. rewrite len_drop, !len_app in E by lia.
    pose proof (len_nonneg post). change (len CRLF) with 2 in E. lia.
  - pose proof (len_nonneg line).
    replace (Z.to_nat (c + len line + 2)) with (Z.to_nat c + (length line + 2))%nat by len_lia.
    rewrite <- drop_drop, Hd, app_assoc, drop_app_length' by (rewrite length_app; change (length CRLF) with 2%nat; lia). done.
Qed.

Lemma find_char_at pre c post :
  no_char c pre = true → find_char (pre ++ [c] ++ post) c 0 = Some (len pre).
Proof. intros. apply find_sep; [done|]. by apply starts_with_no_char. Qed.

Lemma find_char_after pre mid c post :
  no_char c mid = true →
  find_char (pre ++ mid ++ [c] ++ post) c (len pre) = Some (len pre + len mid).
Proof.
  intros. apply (find_cursor _ _ mid [c] post); [|done| |by apply starts_with_no_char].
  - rewrite len_app. pose proof (len_nonneg pre). pose proof (len_nonneg (mid ++ [c] ++ post)). lia.
  - by rewrite len_to_nat, drop_app_length.
Qed.

Lemma find_char_none pre l c : no_char c l = true → find_char (pre ++ l) c (len pre) = None.
Proof.
  intros H. unfold find_char, find. rewrite len_app.
  rewrite (proj2 (Z.ltb_ge _ _)) by (pose proof (len_nonneg l); lia).
  rewrite len_to_nat, drop_app_length. generalize (len pre). revert H.
  induction l as [|d l IH]; cbn; [done|]. intros [Hd Hl]%andb_true_iff z.
  apply negb_true_iff in Hd as ->. by apply IH.
Qed.

(** A piece between separators is part of the text. *)
Lemma split_on_piece sep l e :
  e ∈ split_on sep l → ∃ a b, l = a ++ e ++ b.
Proof.
  assert (∀ e es, split_on sep l = e :: es →
    (∃ b, l = e ++ b) ∧ ∀ d, d ∈ es → ∃ a b, l = a ++ d ++ b) as H.
  { clear e. induction l as [|c l IH]; intros e es; cbn.
    - intros [= <- <-]. split; [by exists []|]. by intros d ?%elem_of_nil.
    - destruct (ceq c sep) eqn:E.
      + intros [= <- <-]. split; [by exists (c :: l)|]. intros d Hd.
        destruct (split_on sep l) as [|e' es'] eqn:Es; [by apply elem_of_nil in Hd|].
        destruct (IH _ _ eq_refl) as [[b Hb] Hr]. apply elem_of_cons in Hd as [->|Hd].
        * exists [c], b. by rewrite Hb at 1.
        * destruct (Hr d Hd) as (a & b' & ->). by exists (c :: a), b'.
      + destruct (split_on sep l) as [|e' es'] eqn:Es.
        { intros [= <- <-]. split; [by exists l|]. by intros d ?%elem_of_nil. }
        intros [= <- <-]. destruct (IH _ _ eq_refl) as [[b Hb] Hr]. split.
        * exists b. by rewrite Hb at 1.
        * intros d Hd. destruct (Hr d Hd) as (a & b' & ->). by exists (c :: a), b'. }
  destruct (split_on sep l) as [|e' es'] eqn:Es; [by intros ?%elem_of_nil|].
  destruct (H _ _ eq_refl) as [[b Hb] Hr]. intros [->|Hd]%elem_of_cons; [by exists [], b|by apply Hr].
Qed.
