(* ===== verification/Numerals.v ===== *)
(** * Decimal numerals

    The conversions of [<string>] between integers and text: [std::to_string],
    [std::stoi], [std::stoull]; and the round trips between them. *)

From S2P Require Import Prelude.

(** ** Definitions *)

#[global] Arguments to_string : simpl never.

(** [std::to_string(int)]. *)
Definition int_to_string (n : Z) : bytes :=
  if n <? 0 then "-"%char :: to_string (- n) else to_string n.

Definition decimal_from (acc : Z) (l : bytes) : Z :=
  fold_left (λ n c, n * 10 + (code c - 48)) l acc.

Definition decimal (l : bytes) : Z := decimal_from 0 l.

(** The leading decimal digits of a text. *)
Fixpoint digit_run (l : bytes) : bytes :=
  match l with
  | c :: l' => if isdigit c then c :: digit_run l' else []
  | [] => []
  end.

(** What the C conversions read, in base 10: blanks, an optional sign and the
    longest run of digits, anything behind it ignored; sign and magnitude. *)
Definition strto (l : bytes) : option (bool * Z) :=
  let l := skip_while isspace l in
  let '(negative, l) :=
    match l with
    | c :: l' => if ceq c "-" then (true, l') else if ceq c "+" then (false, l') else (false, l)
    | [] => (false, l)
    end in
  if len (digit_run l) =? 0 then None else Some (negative, decimal (digit_run l)).

(** [std::stoi]; [None] is an exception. *)
Definition stoi (l : bytes) : option Z :=
  match strto l with
  | None => None
  | Some (negative, m) =>
      let n := if negative then - m else m in
      if (n <? - 2 ^ 31) || (2 ^ 31 - 1 <? n) then None else Some n
  end.

(** [std::stoull]; a sign negates modulo 2^64. *)
Definition stoull (l : bytes) : option Z :=
  match strto l with
  | None => None
  | Some (negative, m) =>
      if U64 <=? m then None else Some (if negative then (- m) mod U64 else m)
  end.

Lemma digit_run_digits l : forallb isdigit (digit_run l) = true.
Proof. induction l as [|c l IH]; cbn; [done|]. destruct (isdigit c) eqn:E; [|done]. cbn. by rewrite E. Qed.

(** ** Printing *)

Lemma decimal_from_app acc l k : decimal_from acc (l ++ k) = decimal_from (decimal_from acc l) k.
Proof. apply fold_left_app. Qed.

Lemma isdigit_digit d : 0 ≤ d < 10 → isdigit (chr (48 + d)) = true.
Proof.
  intros. unfold isdigit, between. rewrite chr_code by lia.
  apply andb_true_iff. split; apply Z.leb_le; lia.
Qed.

(** [digits] writes a numeral in front of [acc] that spells its argument. *)
Lemma digits_spec fuel n acc :
  0 ≤ n < 10 ^ Z.of_nat fuel → (0 < fuel)%nat →
  ∃ l, digits fuel n acc = l ++ acc ∧ l ≠ [] ∧ forallb isdigit l = true ∧ decimal l = n.
Proof.
  revert n acc. induction fuel as [|fuel IH]; intros n acc Hn Hf; [lia|]. cbn [digits].
  pose proof (Z.mod_pos_bound n 10 ltac:(lia)) as Hm.
  destruct (Z.ltb_spec n 10) as [H10|H10].
  - exists [chr (48 + n mod 10)]. split_and!; [done|done| |].
    + cbn. by rewrite isdigit_digit.
    + unfold decimal, decimal_from. cbn. rewrite chr_code by lia. rewrite Z.mod_small; lia.
  - assert (0 ≤ n / 10 < 10 ^ Z.of_nat fuel) as Hq.
    { rewrite Nat2Z.inj_succ, Z.pow_succ_r in Hn by lia. div_lia. }
    assert (0 < fuel)%nat by (destruct fuel; [|lia]; cbn in Hq; div_lia).
    destruct (IH (n / 10) (chr (48 + n mod 10) :: acc)) as (l & E & _ & Hd & Hv); [done..|].
    exists (l ++ [chr (48 + n mod 10)]). rewrite E. split_and!.
    + by rewrite <- app_assoc.
    + by destruct l.
    + rewrite forallb_app, Hd. cbn. by rewrite isdigit_digit.
    + unfold decimal in *. rewrite decimal_from_app, Hv. unfold decimal_from. cbn.
      rewrite chr_code by lia. div_lia.
Qed.

Lemma to_string_spec n :
  0 ≤ n < U64 → to_string n ≠ [] ∧ forallb isdigit (to_string n) = true ∧ decimal (to_string n) = n.
Proof.
  intros Hn. unfold to_string. destruct (digits_spec 20 n []) as (l & -> & H); [|lia|].
  - unfold U64 in Hn. cbn. lia.
  - by rewrite app_nil_r.
Qed.

(** ** Reading back *)

Lemma digit_run_app l k :
  forallb isdigit l = true → match k with c :: _ => isdigit c | [] => false end = false →
  digit_run (l ++ k) = l.
Proof.
  intros Hl Hk. induction l as [|c l IH]; cbn.
  - destruct k as [|c k]; [done|]. cbn. by rewrite Hk.
  - cbn in Hl. apply andb_true_iff in Hl as [-> Hl]. by rewrite IH.
Qed.

Lemma isdigit_plain c : isdigit c = true → isspace c = false ∧ ceq c "-" = false ∧ ceq c "+" = false.
Proof. destruct c as [[] [] [] [] [] [] [] []]; vm_compute; try done. Qed.

Lemma strto_to_string n k :
  0 ≤ n < U64 → match k with c :: _ => isdigit c | [] => false end = false →
  strto (to_string n ++ k) = Some (false, n).
Proof.
  intros Hn Hk. destruct (to_string_spec n Hn) as (Hne & Hd & Hv). unfold strto.
  destruct (to_string n) as [|c l] eqn:E; [done|].
  pose proof Hd as Hc. cbn in Hc. apply andb_true_iff in Hc as [Hc _].
  destruct (isdigit_plain c Hc) as (Hs & Hm & Hp).
  cbn [app skip_while]. rewrite Hs, Hm, Hp. change (c :: l ++ k) with ((c :: l) ++ k).
  rewrite digit_run_app by done. rewrite len_cons. pose proof (len_nonneg l).
  rewrite (proj2 (Z.eqb_neq _ _)) by lia. by rewrite Hv.
Qed.

Lemma stoi_to_string n k :
  0 ≤ n < 2 ^ 31 → match k with c :: _ => isdigit c | [] => false end = false →
  stoi (to_string n ++ k) = Some n.
Proof.
  intros Hn Hk. unfold stoi. rewrite strto_to_string by (done || unfold U64; lia).
  rewrite !(proj2 (Z.ltb_ge _ _)) by lia. done.
Qed.

Lemma stoi_range l n : stoi l = Some n → - 2 ^ 31 ≤ n < 2 ^ 31.
Proof.
  unfold stoi. destruct (strto l) as [[neg m]|]; [|done]. cbv zeta.
  destruct (_ || _) eqn:E; [done|]. intros [= <-]. bool_prop. lia.
Qed.

(** ** Digits contain no other character *)

Lemma to_string_no_char n c : 0 ≤ n < U64 → isdigit c = false → c ∉ to_string n.
Proof.
  intros Hn Hc Hin. destruct (to_string_spec n Hn) as (_ & Hd & _).
  rewrite forallb_forall in Hd. apply list_elem_of_In, Hd in Hin. congruence.
Qed.

(** Two numerals without leading zeros are equal when their values are. *)
Lemma to_string_inj n m : 0 ≤ n < U64 → 0 ≤ m < U64 → to_string n = to_string m → n = m.
Proof.
  intros Hn Hm E. destruct (to_string_spec n Hn) as (_ & _ & <-).
  destruct (to_string_spec m Hm) as (_ & _ & <-). by rewrite E.
Qed.
