(* ===== verification/Sys.v ===== *)
(** * The operating system

    The program's interface to the kernel and the C library: system calls as
    data, a kernel that answers them, programs that change an object's state and
    make calls, and the reasoning principles for them.  The hiredis library, which the program
    only calls, is part of the same interface.  The kernel itself is not
    modelled: it is a parameter, restricted by documented laws where a theorem
    needs them.  [sys_signals] stands for the moment a program looks at what a
    signal handler may have changed: it answers with the signals delivered since
    the last look. *)

From S2P Require Import Prelude.

(** ** Calls and answers *)

Inductive call :=
| sys_socket
| sys_accept (fd : Z)
| sys_open (path : bytes)
| sys_close (fd : Z)
| sys_connect (fd : Z) (address : bytes)
| sys_getaddrinfo (host port : bytes)
| sys_setsockopt (fd option : Z)
| sys_getsockopt_error (fd : Z)
| sys_fcntl (fd flags : Z)
| sys_bind (fd port : Z)
| sys_listen (fd backlog : Z)
| sys_send (fd : Z) (data : bytes)
| sys_sendfile (fd file offset count : Z)
| sys_recv (fd count : Z) (peek : bool)
| sys_read (fd count : Z)
| sys_shutdown (fd : Z)
| sys_epoll_create
| sys_epoll_ctl (op fd events : Z)
| sys_epoll_wait (max_events timeout : Z)
| sys_timerfd_create
| sys_timerfd_settime (fd seconds : Z)
| sys_signals
| sys_now
| sys_getenv (name : bytes)
| sys_stat (path : bytes)
| sys_eventfd
| sys_write (fd value : Z)
| redis_connect (host : bytes) (port microseconds : Z)
| redis_set_timeout (context seconds : Z)
| redis_error (context : Z)
| redis_command (context : Z) (arguments : list bytes)
| redis_free_reply (reply : Z)
| redis_free (context : Z).

(** A reply of the Redis server as hiredis presents it, through a pointer that
    may be null. *)
#[warnings="-register-all"]
Inductive redisReply :=
| nullptr
| REDIS_REPLY_STRING (str : bytes)
| REDIS_REPLY_ARRAY (element : list redisReply)
| REDIS_REPLY_INTEGER (integer : Z)
| REDIS_REPLY_NIL
| REDIS_REPLY_STATUS (str : bytes)
| REDIS_REPLY_ERROR (str : bytes)
| REDIS_REPLY_OTHER (type : Z).

(** What a call returns: its value (a pointer for hiredis, 0 for null), [errno],
    the integer or the bytes stored through the caller's pointer, for calls that
    fill an array its entries, for [stat] whether the file is a regular one and
    for a Redis command what the reply holds. *)
Record answer := MkAnswer {
  ret : Z;
  errno : Z;
  value : Z;
  data : bytes;
  addresses : list bytes;
  ready : list (Z * Z);
  regular : bool;
  reply : redisReply
}.

(** The answer of a call that stores no file attributes and no reply. *)
Definition Answer (ret errno value : Z) (data : bytes) (addresses : list bytes)
    (ready : list (Z * Z)) : answer :=
  MkAnswer ret errno value data addresses ready false nullptr.

(** A past call with its answer; histories are kept newest first. *)
Definition event : Type := call * answer.
Abbreviation history := (list event).

(** The kernel's answer may depend on everything that happened before. *)
Class Kernel := respond : history → call → answer.

Definition EINTR : Z := 4.
Definition EAGAIN : Z := 11.
Definition EWOULDBLOCK : Z := 11.
Definition EINPROGRESS : Z := 115.

Definition SIGINT : Z := 2.
Definition SIGTERM : Z := 15.

Definition EPOLLIN : Z := 1.
Definition EPOLLOUT : Z := 4.
Definition EPOLLERR : Z := 8.
Definition EPOLLHUP : Z := 16.
Definition EPOLLRDHUP : Z := 8192.

Definition EPOLL_CTL_ADD : Z := 1.
Definition EPOLL_CTL_DEL : Z := 2.
Definition EPOLL_CTL_MOD : Z := 3.

Definition SO_REUSEADDR : Z := 2.
Definition SO_REUSEPORT : Z := 15.
Definition TCP_NODELAY : Z := 1.
Definition O_NONBLOCK : Z := 2048.

(** What a call sees of a [std::string] passed with [c_str()]: the bytes before the
    first NUL. *)
Fixpoint c_str (l : bytes) : bytes :=
  match l with
  | c :: l' => if ceq c "000" then [] else c :: c_str l'
  | [] => []
  end.

Lemma c_str_id l : no_char "000" l = true → c_str l = l.
Proof.
  induction l as [|c l IH]; [done|]. cbn. intros [Hc Hl]%andb_true_iff.
  rewrite IH by done. unfold ceq in *. repeat case_bool_decide; done.
Qed.

(** [events & flags] as a condition. *)
Definition has (events flags : Z) : bool := negb (Z.land events flags =? 0).

(** ** Programs

    A member function that may change its object's state, of type [S], and make
    calls; [None] means that the fuel of a loop has run out. *)
Definition Prog (S A : Type) : Type := S → history → option (A * S * history).

#[global] Instance Prog_ret S : MRet (Prog S) := λ A a s w, Some (a, s, w).

Definition bind {S A B} (m : Prog S A) (f : A → Prog S B) : Prog S B := λ s w,
  match m s w with
  | Some (a, s', w') => f a s' w'
  | None => None
  end.

Notation "x ← m ; k" := (bind m (λ x, k))
  (at level 20, m at level 100, k at level 200, only parsing) : aorta_scope.
Notation "m ;; k" := (bind m (λ _, k)) : aorta_scope.

Definition gets {S A} (f : S → A) : Prog S A := λ s w, Some (f s, s, w).
Definition modify {S} (f : S → S) : Prog S () := λ s w, Some ((), f s, w).
Definition exhausted {S A} : Prog S A := λ s w, None.

Definition sys {K : Kernel} {S} (c : call) : Prog S answer := λ s w,
  let a := respond w c in Some (a, s, (c, a) :: w).

(** A member function of a part [T] of the object, run inside it. *)
Definition zoom {S T A} (get : S → T) (set : T → S → S) (m : Prog T A) : Prog S A := λ s w,
  match m (get s) w with
  | Some (a, t, w') => Some (a, set t s, w')
  | None => None
  end.

(** A range-based [for] loop. *)
Fixpoint for_each {S X} (l : list X) (body : X → Prog S ()) : Prog S () :=
  match l with
  | [] => mret ()
  | x :: l' => body x ;; for_each l' body
  end.

(** A [for] loop with [break]: the body says whether to leave the loop, and with
    which result. *)
Fixpoint for_until {S X R} (l : list X) (body : X → Prog S (option R)) : Prog S (option R) :=
  match l with
  | [] => mret None
  | x :: l' =>
      r ← body x;
      match r with
      | Some v => mret (Some v)
      | None => for_until l' body
      end
  end.

(** The traversal order of a [std::unordered_map] is unspecified: some order, in
    which every entry occurs once. *)
Class Traversal (A : Type) := {
  traverse : gmap Z A → list (Z * A);
  traverse_perm m : traverse m ≡ₚ map_to_list m
}.

(** ** Weakest preconditions *)

Definition wp {S A} (m : Prog S A) (Q : A → S → history → Prop) (s : S) (w : history) : Prop :=
  match m s w with
  | Some (a, s', w') => Q a s' w'
  | None => True
  end.

(** The program runs to its end. *)
Definition returns {S A} (m : Prog S A) (s : S) (w : history) : Prop := is_Some (m s w).

(** ** Descriptors *)

(** The descriptor a call hands out, if any. *)
Definition opened (e : event) : option Z :=
  match e.1 with
  | sys_socket | sys_accept _ | sys_open _ | sys_epoll_create | sys_timerfd_create | sys_eventfd =>
      if ret e.2 =? -1 then None else Some (ret e.2)
  | _ => None
  end.

(** The descriptors the program holds after a history. *)
Fixpoint open_fds (w : history) : gset Z :=
  match w with
  | [] => ∅
  | e :: w' =>
      match opened e with
      | Some fd => {[ fd ]} ∪ open_fds w'
      | None => match e.1 with
                | sys_close fd => open_fds w' ∖ {[ fd ]}
                | _ => open_fds w'
                end
      end
  end.

(** Every [close] was of a descriptor that was open at the time. *)
Fixpoint closes_once (w : history) : Prop :=
  match w with
  | [] => True
  | e :: w' =>
      closes_once w' ∧
      match e.1 with
      | sys_close fd => fd ∈ open_fds w'
      | _ => True
      end
  end.

(** The kernel hands out a descriptor that is not in use. *)
Class FreshFds (K : Kernel) : Prop :=
  fresh_fd w c fd : opened (c, respond w c) = Some fd → 0 ≤ fd ∧ fd ∉ open_fds w.

(** The kernel transfers no more bytes than it was offered or asked for, and
    reports an error by [-1]. *)
Definition transfer_ok (c : call) (a : answer) : Prop :=
  match c with
  | sys_send _ d => -1 ≤ ret a ∧ ret a ≤ len d
  | sys_sendfile _ _ _ n => -1 ≤ ret a ∧ ret a ≤ Z.max 0 n
  | sys_recv _ n _ => -1 ≤ ret a ∧ ret a ≤ Z.max 0 n ∧ (0 < ret a → len (data a) = ret a)
  | _ => True
  end.

Class Honest (K : Kernel) : Prop := honest w c : transfer_ok c (respond w c).

(** A call is not interrupted more than [n] times in a row. *)
Definition interrupted (a : answer) : bool := (ret a =? -1) && (errno a =? EINTR).

Fixpoint interruptions (w : history) : nat :=
  match w with
  | (_, a) :: w' => if interrupted a then S (interruptions w') else 0
  | [] => 0
  end.

Class Patient (K : Kernel) (n : nat) : Prop :=
  patient w c : (n ≤ interruptions w)%nat → interrupted (respond w c) = false.

(** The clients accepted since the program last waited for events; no more than
    [m] are delivered between two waits. *)
Fixpoint accepted (w : history) : nat :=
  match w with
  | [] => 0
  | (c, a) :: w' =>
      match c with
      | sys_epoll_wait _ _ => 0
      | sys_accept _ => if ret a =? -1 then accepted w' else S (accepted w')
      | _ => accepted w'
      end
  end.

Class Backlog (K : Kernel) (m : nat) : Prop :=
  backlog w fd : (m ≤ accepted w)%nat → ret (respond w (sys_accept fd)) = -1.

(** How often the program has looked for signals; from the [t]-th look on there is
    a SIGTERM. *)
Fixpoint polls (w : history) : nat :=
  match w with
  | [] => 0
  | (c, _) :: w' => match c with sys_signals => S (polls w') | _ => polls w' end
  end.

Class Terminated (K : Kernel) (t : nat) : Prop :=
  terminated w : (t ≤ polls w)%nat → (SIGTERM, 0) ∈ ready (respond w sys_signals).

Lemma polls_app l w : (polls w ≤ polls (l ++ w))%nat.
Proof. induction l as [|[c a] l IH]; [done|]. cbn. destruct c; lia. Qed.

(** ** Rules *)

Section Rules.
Context {S : Type}.
Implicit Types (s : S) (w : history).

Lemma wp_ret {A} (a : A) Q s w : wp (mret a) Q s w ↔ Q a s w.
Proof. done. Qed.

Lemma wp_bind {A B} (m : Prog S A) (f : A → Prog S B) Q s w :
  wp (bind m f) Q s w ↔ wp m (λ a, wp (f a) Q) s w.
Proof. unfold wp, bind. by destruct (m s w) as [[[a s'] w']|]. Qed.

Lemma wp_gets {A} (f : S → A) Q s w : wp (gets f) Q s w ↔ Q (f s) s w.
Proof. done. Qed.

Lemma wp_modify f Q s w : wp (modify f) Q s w ↔ Q () (f s) w.
Proof. done. Qed.

Lemma wp_sys {K : Kernel} c (Q : answer → S → history → Prop) s w :
  wp (sys c) Q s w ↔ Q (respond w c) s ((c, respond w c) :: w).
Proof. done. Qed.

Lemma wp_exhausted {A} (Q : A → S → history → Prop) s w : wp exhausted Q s w.
Proof. done. Qed.

Lemma wp_mono {A} (m : Prog S A) (Q R : A → S → history → Prop) s w :
  (∀ a s' w', Q a s' w' → R a s' w') → wp m Q s w → wp m R s w.
Proof. unfold wp. destruct (m s w) as [[[a s'] w']|]; auto. Qed.

Lemma wp_zoom {T A} (get : S → T) set (m : Prog T A) Q s w :
  wp (zoom get set m) Q s w ↔ wp m (λ a t w', Q a (set t s) w') (get s) w.
Proof. unfold wp, zoom. by destruct (m (get s) w) as [[[a t] w']|]. Qed.

Lemma wp_for_each {X} (I : S → history → Prop) (l : list X) body s w :
  (∀ x s w, x ∈ l → I s w → wp (body x) (λ _, I) s w) → I s w → wp (for_each l body) (λ _, I) s w.
Proof.
  revert s w. induction l as [|x l IH]; intros s w Hb HI; cbn; [done|].
  apply wp_bind. eapply wp_mono; [|apply Hb; [by left|done]].
  intros [] s' w' HI'. apply IH; [|done]. intros y s0 w0 Hy. apply Hb. by right.
Qed.

Lemma wp_for_until {X R} (I : S → history → Prop) (Q : option R → S → history → Prop)
    (l : list X) (body : X → Prog S (option R)) s w :
  (∀ x s w, x ∈ l → I s w →
    wp (body x) (λ r s' w', match r with None => I s' w' | Some v => Q (Some v) s' w' end) s w) →
  (∀ s w, I s w → Q None s w) → I s w → wp (for_until l body) Q s w.
Proof.
  intros Hb Hend. revert s w. induction l as [|x l IH]; intros s w HI; cbn; [by apply Hend|].
  apply wp_bind. eapply wp_mono; [|apply Hb; [by left|done]]. intros [v|] s' w' HI'; [done|].
  apply IH; [|done]. intros y s0 w0 Hy. apply Hb. by right.
Qed.

Lemma returns_bind {A B} (m : Prog S A) (f : A → Prog S B) s w :
  returns m s w → wp m (λ a s' w', returns (f a) s' w') s w → returns (bind m f) s w.
Proof.
  unfold returns, wp, bind. intros [[[a s'] w'] ->]. done.
Qed.

Lemma returns_ret {A} (a : A) s w : returns (mret (M := Prog S) a) s w.
Proof. by eexists. Qed.

Lemma returns_wp {A} (m : Prog S A) Q s w :
  returns m s w → wp m Q s w → ∃ a s' w', m s w = Some (a, s', w') ∧ Q a s' w'.
Proof. unfold returns, wp. intros [[[a s'] w'] ->] H. by exists a, s', w'. Qed.

End Rules.

(** Evaluates the straight-line part of a program. *)
Ltac wp_step :=
  lazymatch goal with
  | |- wp (bind _ _) _ _ _ => apply wp_bind
  | |- wp (mret _) _ _ _ => apply wp_ret
  | |- wp (gets _) _ _ _ => apply wp_gets
  | |- wp (modify _) _ _ _ => apply wp_modify
  | |- wp (sys _) _ _ _ => apply wp_sys
  | |- wp exhausted _ _ _ => apply wp_exhausted
  | |- wp (zoom _ _ _) _ _ _ => apply wp_zoom
  | |- wp (if ?b then _ else _) _ _ _ => destruct b eqn:?
  | |- wp (match ?x with _ => _ end) _ _ _ => destruct x eqn:?
  end.
Ltac wp_run := repeat (wp_step; cbv beta zeta).

(** ** Descriptors after a call *)

(** Calls that neither hand out nor release a descriptor. *)
Definition neutral (c : call) : bool :=
  match c with
  | sys_socket | sys_accept _ | sys_open _ | sys_epoll_create | sys_timerfd_create | sys_eventfd
  | sys_close _ => false
  | _ => true
  end.

Lemma open_fds_neutral c a w : neutral c = true → open_fds ((c, a) :: w) = open_fds w.
Proof. by destruct c. Qed.

Lemma closes_once_neutral c a w : neutral c = true → closes_once ((c, a) :: w) ↔ closes_once w.
Proof. destruct c; cbn; intuition done. Qed.

Lemma open_fds_close fd a w : open_fds ((sys_close fd, a) :: w) = open_fds w ∖ {[ fd ]}.
Proof. done. Qed.

(** The descriptors [F] are exactly the open ones, and none was closed twice. *)
Definition holds_fds (F : gset Z) (w : history) : Prop := open_fds w = F ∧ closes_once w.

Lemma holds_neutral F c a w : neutral c = true → holds_fds F w → holds_fds F ((c, a) :: w).
Proof.
  intros Hc [H1 H2]. split; [by rewrite open_fds_neutral|by apply closes_once_neutral].
Qed.

Lemma holds_close F fd a w : fd ∈ F → holds_fds F w → holds_fds (F ∖ {[ fd ]}) ((sys_close fd, a) :: w).
Proof. intros Hfd [<- H2]. split; [done|]. by split. Qed.

Lemma holds_open F c a w fd :
  opened (c, a) = Some fd → holds_fds F w → holds_fds ({[ fd ]} ∪ F) ((c, a) :: w).
Proof.
  intros Ho [<- H2]. split; [cbn [open_fds]; by rewrite Ho|]. split; [done|]. by destruct c.
Qed.

Lemma holds_open_failed F c a w :
  opened (c, a) = None → (∀ fd, c ≠ sys_close fd) → holds_fds F w → holds_fds F ((c, a) :: w).
Proof.
  intros Ho Hc [<- H2]. split.
  - cbn [open_fds]. rewrite Ho. destruct c; try done. by destruct (Hc fd).
  - split; [done|]. destruct c; try done. by destruct (Hc fd).
Qed.

(** A history extended by neutral calls only. *)
Definition quiet (w w' : history) : Prop := ∃ l, w' = l ++ w ∧ Forall (λ e, neutral e.1 = true) l.

#[global] Instance quiet_preorder : PreOrder quiet.
Proof.
  split.
  - intros w. by exists [].
  - intros w1 w2 w3 (l & -> & Hl) (k & -> & Hk). exists (k ++ l). split; [by rewrite app_assoc|].
    by apply Forall_app.
Qed.

Lemma quiet_call w c a w' : quiet w w' → neutral c = true → quiet w ((c, a) :: w').
Proof. intros (l & -> & Hl) Hc. exists ((c, a) :: l). split; [done|]. by constructor. Qed.

Lemma holds_quiet F w w' : quiet w w' → holds_fds F w → holds_fds F w'.
Proof.
  intros (l & -> & Hl) Hw. induction Hl as [|[c a] l Hc _ IH]; [done|].
  by apply holds_neutral.
Qed.

(** [remove(fd); close(fd)] on an epoll instance and a descriptor. *)
Definition released {K : Kernel} (fd : Z) (w : history) : history :=
  let c := sys_epoll_ctl EPOLL_CTL_DEL fd 0 in
  let w' := (c, respond w c) :: w in
  (sys_close fd, respond w' (sys_close fd)) :: w'.

Lemma holds_released {K : Kernel} F fd w :
  fd ∈ F → holds_fds F w → holds_fds (F ∖ {[ fd ]}) (released fd w).
Proof. intros Hfd Hw. apply holds_close; [done|]. by apply holds_neutral. Qed.

(** A loop that closes the descriptors of a list's elements. *)
Lemma wp_close_each {S X} (key : X → Z) (I : S → Prop) (F : gset Z) (l : list X) body s w :
  NoDup (key <$> l) → F ## list_to_set (key <$> l) →
  (∀ x G s w, x ∈ l → key x ∈ G → I s → holds_fds G w →
     wp (body x) (λ _ s' w', I s' ∧ holds_fds (G ∖ {[ key x ]}) w') s w) →
  I s → holds_fds (F ∪ list_to_set (key <$> l)) w →
  wp (for_each l body) (λ _ s' w', I s' ∧ holds_fds F w') s w.
Proof.
  revert s w. induction l as [|x l IH]; intros s w Hnd HF Hb HI Hw; cbn [for_each].
  { apply wp_ret. split; [done|]. cbn in Hw. by rewrite union_empty_r_L in Hw. }
  rewrite fmap_cons in *. cbn [list_to_set] in *. apply NoDup_cons in Hnd as [Hx Hnd].
  remember (F ∪ ({[key x]} ∪ list_to_set (key <$> l))) as G eqn:HG.
  assert (key x ∈ G) as HxG by (subst G; by apply elem_of_union_r, elem_of_union_l, elem_of_singleton).
  apply wp_bind. eapply wp_mono; [|apply (Hb x G); [by left|exact HxG|done|exact Hw]].
  intros [] s' w' [HI' Hw']. apply IH; [done|set_solver| |done|].
  - intros y G' s0 w0 Hy. apply Hb. by right.
  - assert (key x ∉ F) as HxF by set_solver.
    assert (key x ∉ (list_to_set (key <$> l) : gset Z)) as Hxl by by rewrite elem_of_list_to_set.
    replace (F ∪ list_to_set (key <$> l)) with (G ∖ {[key x]}); [done|].
    subst G. generalize dependent (list_to_set (C := gset Z) (key <$> l)). clear.
    intros. set_solver.
Qed.

Lemma traverse_keys {A} {T : Traversal A} (m : gmap Z A) :
  NoDup (fst <$> traverse m) ∧ (list_to_set (fst <$> traverse m) : gset Z) = dom m.
Proof.
  pose proof (traverse_perm m) as Hp. split.
  - rewrite (Permutation_map fst Hp). apply NoDup_fst_map_to_list.
  - apply set_eq. intros k. rewrite elem_of_list_to_set, elem_of_dom, list_elem_of_fmap.
    setoid_rewrite Hp. split.
    + intros ([k' x] & -> & Hx%elem_of_map_to_list). by exists x.
    + intros [x Hx]. exists (k, x). split; [done|by apply elem_of_map_to_list].
Qed.

Lemma traverse_lookup {A} {T : Traversal A} (m : gmap Z A) k x : (k, x) ∈ traverse m ↔ m !! k = Some x.
Proof. rewrite (traverse_perm m). apply elem_of_map_to_list. Qed.

(** A counting loop, with an invariant that knows the counter. *)
Lemma wp_for_seq {S} (J : nat → S → history → Prop) (body : nat → Prog S ()) m n s w :
  (∀ i s w, (m ≤ i < m + n)%nat → J i s w → wp (body i) (λ _, J (Datatypes.S i)) s w) →
  J m s w → wp (for_each (seq m n) body) (λ _, J (m + n)%nat) s w.
Proof.
  revert m s w. induction n as [|n IH]; intros m s w Hb HJ; cbn [seq for_each].
  { by rewrite Nat.add_0_r. }
  apply wp_bind. eapply wp_mono; [|apply Hb; [lia|done]]. intros [] s' w' HJ'.
  rewrite Nat.add_succ_r. change (Datatypes.S (m + n)) with (Datatypes.S m + n)%nat.
  apply IH; [|done]. intros i s0 w0 Hi. apply Hb. lia.
Qed.

(** ** Termination *)

Lemma returns_sys {K : Kernel} {S A} c (f : answer → Prog S A) s w :
  returns (f (respond w c)) s ((c, respond w c) :: w) → returns (bind (sys c) f) s w.
Proof. done. Qed.

Lemma returns_gets {S A B} (f : S → B) (g : B → Prog S A) s w :
  returns (g (f s)) s w → returns (bind (gets f) g) s w.
Proof. done. Qed.

Lemma returns_modify {S A} (f : S → S) (m : Prog S A) s w :
  returns m (f s) w → returns (bind (modify f) (λ _, m)) s w.
Proof. done. Qed.

(** How often the next calls may still be interrupted. *)
Definition budget (n : nat) (w : history) : nat := n - interruptions w.

Lemma budget_interrupted {K : Kernel} n {P : Patient K n} w c :
  interrupted (respond w c) = true → (budget n ((c, respond w c) :: w) < budget n w)%nat.
Proof.
  intros Hi. unfold budget. cbn. rewrite Hi.
  destruct (decide (n ≤ interruptions w)%nat) as [Hn|Hn]; [|lia].
  by rewrite (P w c Hn) in Hi.
Qed.

Lemma budget_le n w : (budget n w ≤ n)%nat.
Proof. unfold budget. lia. Qed.

(** ** A kernel to run examples on

    Every call succeeds at once; [recv] always delivers the start of [text]. *)
Definition demo_kernel (text : bytes) : Kernel := λ w c,
  let ok n := Answer n 0 0 [] [] [] in
  match c with
  | sys_socket | sys_accept _ | sys_open _ | sys_epoll_create | sys_timerfd_create | sys_eventfd =>
      ok (Z.of_nat (fresh (set_map Z.to_nat (open_fds w) : gset nat)))
  | sys_send _ d => ok (len d)
  | sys_sendfile _ _ _ n => ok (Z.max 0 n)
  | sys_recv _ n _ =>
      let d := take (Z.to_nat n) text in Answer (len d) 0 0 d [] []
  | sys_getaddrinfo host _ => Answer 0 0 0 [] [host] []
  | _ => ok 0
  end.

#[global] Instance demo_fresh text : FreshFds (demo_kernel text).
Proof.
  intros w c fd Ho. pose proof (is_fresh (set_map Z.to_nat (open_fds w) : gset nat)) as Hf.
  assert (fd = Z.of_nat (fresh (set_map Z.to_nat (open_fds w) : gset nat))) as ->.
  { destruct c; try done; unfold opened, respond in Ho; cbn [fst snd] in Ho;
      revert Ho; cbn; case_match; congruence. }
  split; [lia|]. intros Hin. apply Hf. apply elem_of_map. eexists. split; [|exact Hin]. lia.
Qed.

#[global] Instance demo_honest text : Honest (demo_kernel text).
Proof.
  intros w c. destruct c; try done; cbn.
  - pose proof (len_nonneg data0). lia.
  - lia.
  - split_and!; [pose proof (len_nonneg (take (Z.to_nat count) text)); lia|len_lia|done].
Qed.

#[global] Instance demo_patient text : Patient (demo_kernel text) 0.
Proof.
  intros w c _. unfold interrupted, respond, demo_kernel. apply andb_false_iff. right.
  by destruct c.
Qed.

(** The traversal in the order of [map_to_list]. *)
#[global] Instance sorted_traversal A : Traversal A := {| traverse := map_to_list; traverse_perm m := reflexivity _ |}.
