(* ===== verification/Progress.v ===== *)
(** * Progress

    Programs that reach their end: those that always do, and those whose loops
    need fuel but settle on one result once there is enough of it. *)

From S2P Require Import Prelude Sys.

(** Returns from every state. *)
Definition total {S A} (m : Prog S A) : Prop := ∀ s w, returns m s w.

(** From some amount of fuel on the program returns, always with the same
    result. *)
Definition settles {S A} (m : nat → Prog S A) (s : S) (w : history) : Prop :=
  ∃ N r, ∀ fuel, (N ≤ fuel)%nat → m fuel s w = Some r.

(** More fuel does not change a result. *)
Definition monotone {S A} (m : nat → Prog S A) : Prop :=
  ∀ fuel s w r, m fuel s w = Some r → m (Datatypes.S fuel) s w = Some r.

Section Progress.
Context {S : Type}.
Implicit Types (s : S) (w : history).

Lemma total_ret {A} (a : A) : total (mret (M := Prog S) a).
Proof. by eexists. Qed.

Lemma total_bind {A B} (m : Prog S A) (f : A → Prog S B) :
  total m → (∀ a, total (f a)) → total (bind m f).
Proof. intros Hm Hf s w. unfold returns, bind. destruct (Hm s w) as [[[a s'] w'] ->]. apply Hf. Qed.

Lemma total_gets {A} (f : S → A) : total (gets f).
Proof. by eexists. Qed.

Lemma total_modify (f : S → S) : total (modify f).
Proof. by eexists. Qed.

Lemma total_sys {K : Kernel} c : total (S := S) (sys c).
Proof. by eexists. Qed.

Lemma total_zoom {T A} get set (m : Prog T A) : total m → total (S := S) (zoom get set m).
Proof. intros Hm s w. unfold returns, zoom. destruct (Hm (get s) w) as [[[a t] w'] ->]. by eexists. Qed.

Lemma total_for_each {X} (l : list X) (body : X → Prog S ()) :
  (∀ x, total (body x)) → total (for_each l body).
Proof.
  intros Hb. induction l as [|x l IH]; cbn; [apply total_ret|]. apply total_bind; [done|]. by intros [].
Qed.

Lemma total_for_until {X R} (l : list X) (body : X → Prog S (option R)) :
  (∀ x, total (body x)) → total (for_until l body).
Proof.
  intros Hb. induction l as [|x l IH]; cbn; [apply total_ret|].
  apply total_bind; [done|]. intros [v|]; [apply total_ret|done].
Qed.

Lemma settles_total {A} (m : Prog S A) s w : returns m s w → settles (λ _, m) s w.
Proof. intros [r Hr]. by exists 0%nat, r. Qed.

Lemma settles_at {A} (m : nat → Prog S A) fuel s w :
  monotone m → returns (m fuel) s w → settles m s w.
Proof.
  intros Hm [r Hr]. exists fuel, r. intros fuel' Hle. induction Hle; [done|by apply Hm].
Qed.

Lemma monotone_bind {A B} (m : nat → Prog S A) (f : nat → A → Prog S B) :
  monotone m → (∀ a, monotone (λ fuel, f fuel a)) → monotone (λ fuel, bind (m fuel) (f fuel)).
Proof.
  intros Hm Hf fuel s w r. unfold bind. destruct (m fuel s w) as [[[a s'] w']|] eqn:E; [|done].
  rewrite (Hm _ _ _ _ E). apply Hf.
Qed.

Lemma monotone_const {A} (m : Prog S A) : monotone (λ _, m).
Proof. by intros fuel s w r. Qed.

Lemma settles_bind {A B} (m : nat → Prog S A) (f : nat → A → Prog S B)
    (Q : A → S → history → Prop) s w :
  settles m s w → (∀ fuel, wp (m fuel) Q s w) →
  (∀ a s' w', Q a s' w' → settles (λ fuel, f fuel a) s' w') →
  settles (λ fuel, bind (m fuel) (f fuel)) s w.
Proof.
  intros (N & [[a s'] w'] & Hm) Hwp Hf. specialize (Hwp N). unfold wp in Hwp. rewrite (Hm N (le_n N)) in Hwp.
  destruct (Hf _ _ _ Hwp) as (N' & r & Hr). exists (N `max` N')%nat, r. intros fuel Hfuel.
  unfold bind. rewrite Hm, Hr by lia. done.
Qed.

Lemma settles_for_each {X} (I : S → history → Prop) (l : list X) (body : nat → X → Prog S ()) s w :
  (∀ x s w, I s w → settles (λ fuel, body fuel x) s w ∧ ∀ fuel, wp (body fuel x) (λ _, I) s w) →
  I s w → settles (λ fuel, for_each l (body fuel)) s w.
Proof.
  intros Hb. revert s w. induction l as [|x l IH]; intros s w HI; cbn [for_each].
  { apply settles_total. by eexists. }
  apply (settles_bind (λ fuel, body fuel x) (λ fuel _, for_each l (body fuel)) (λ _, I)); [by apply Hb..|].
  intros [] s' w' HI'. by apply IH.
Qed.

Lemma settles_zoom {T A} get set (m : nat → Prog T A) s w :
  settles m (get s) w → settles (S := S) (λ fuel, zoom get set (m fuel)) s w.
Proof.
  intros (N & [[a t] w'] & Hm). exists N, (a, set t s, w'). intros fuel Hf. unfold zoom. by rewrite Hm.
Qed.

Lemma settles_wp {A} (m : nat → Prog S A) Q s w :
  settles m s w → (∀ fuel, wp (m fuel) Q s w) →
  ∃ N a s' w', Q a s' w' ∧ ∀ fuel, (N ≤ fuel)%nat → m fuel s w = Some (a, s', w').
Proof.
  intros (N & [[a s'] w'] & Hm) Hwp. exists N, a, s', w'. split; [|done].
  specialize (Hwp N). unfold wp in Hwp. by rewrite (Hm N (le_n N)) in Hwp.
Qed.

End Progress.

Create HintDb total.
#[export] Hint Resolve total_ret total_gets total_modify total_sys : total.

(** Decomposes a program without fuel into its calls. *)
Ltac total_step :=
  lazymatch goal with
  | |- total (bind _ _) => apply total_bind; [|intros ?]
  | |- total (zoom _ _ _) => apply total_zoom
  | |- total (for_each _ _) => apply total_for_each; intros ?
  | |- total (for_until _ _) => apply total_for_until; intros ?
  | |- total (if ?b then _ else _) => destruct b
  | |- total (match ?x with _ => _ end) => destruct x
  end.
Ltac total_run := repeat (cbv beta zeta; total_step); cbv beta; auto with total.

Ltac monotone_step :=
  lazymatch goal with
  | |- monotone (λ fuel, bind (@?m fuel) (@?f fuel)) => apply (monotone_bind m f); [|intros ?]
  | |- monotone (λ _, ?m) => apply monotone_const
  | |- monotone (λ fuel, if ?b then _ else _) => destruct b
  end; cbv beta.

(** The first step of a program with fuel, with what it establishes. *)
Ltac settles_step Q :=
  lazymatch goal with
  | |- settles (λ fuel, bind (@?m fuel) (@?f fuel)) _ _ => apply (settles_bind m f Q); cbv beta
  end.
