(* ===== verification/Total.v ===== *)
(** * Total correctness

    [runs m Q s w]: with enough fuel the program [m] returns, always with the same
    result, and the result satisfies [Q].  One judgement for termination and for
    what has been achieved, with a rule per construct. *)

From S2P Require Import Prelude.
From S2P Require Import Sys.
From S2P Require Import Progress.

Definition runs {S A} (m : nat → Prog S A) (Q : A → S → history → Prop) (s : S) (w : history) : Prop :=
  ∃ N a s' w', (∀ fuel, (N ≤ fuel)%nat → m fuel s w = Some (a, s', w')) ∧ Q a s' w'.

Section Rules.
Context {S : Type}.
Implicit Types (s : S) (w : history).

Lemma runs_exact {A} (m : nat → Prog S A) Q s w a s' w' :
  (∀ fuel, m fuel s w = Some (a, s', w')) → Q a s' w' → runs m Q s w.
Proof. intros Hm HQ. exists 0%nat, a, s', w'. split; [by intros fuel _|done]. Qed.

Lemma runs_ret {A} (a : A) (Q : A → S → history → Prop) s w : Q a s w → runs (λ _, mret a) Q s w.
Proof. by apply runs_exact. Qed.

Lemma runs_gets {A} (f : S → A) (Q : A → S → history → Prop) s w :
  Q (f s) s w → runs (λ _, gets f) Q s w.
Proof. by apply runs_exact. Qed.

Lemma runs_modify f (Q : () → S → history → Prop) s w : Q () (f s) w → runs (λ _, modify f) Q s w.
Proof. by apply runs_exact. Qed.

Lemma runs_sys {K : Kernel} c (Q : answer → S → history → Prop) s w :
  Q (respond w c) s ((c, respond w c) :: w) → runs (λ _, sys c) Q s w.
Proof. by apply runs_exact. Qed.

Lemma runs_bind {A B} (m : nat → Prog S A) (f : nat → A → Prog S B) Q s w :
  runs m (λ a, runs (λ fuel, f fuel a) Q) s w → runs (λ fuel, bind (m fuel) (f fuel)) Q s w.
Proof.
  intros (N & a & s1 & w1 & Hm & N' & b & s2 & w2 & Hf & HQ).
  exists (N `max` N')%nat, b, s2, w2. split; [|done]. intros fuel Hfuel.
  unfold bind. rewrite Hm by lia. apply Hf. lia.
Qed.

Lemma runs_mono {A} (m : nat → Prog S A) (Q R : A → S → history → Prop) s w :
  (∀ a s' w', Q a s' w' → R a s' w') → runs m Q s w → runs m R s w.
Proof. intros H (N & a & s' & w' & Hm & HQ). exists N, a, s', w'. auto. Qed.

(** A function with fuel that does one turn and then calls itself. *)
Lemma runs_turn {A} (m : nat → Prog S A) Q s w : runs (λ fuel, m (Datatypes.S fuel)) Q s w → runs m Q s w.
Proof.
  intros (N & a & s' & w' & Hm & HQ). exists (Datatypes.S N), a, s', w'. split; [|done].
  intros [|fuel] Hfuel; [lia|]. apply Hm. lia.
Qed.

Lemma runs_zoom {T A} get set (m : nat → Prog T A) Q s w :
  runs m (λ a t w', Q a (set t s) w') (get s) w → runs (λ fuel, zoom get set (m fuel)) Q s w.
Proof.
  intros (N & a & t & w' & Hm & HQ). exists N, a, (set t s), w'. split; [|done].
  intros fuel Hf. unfold zoom. by rewrite Hm.
Qed.

Lemma runs_for_each {X} (I : S → history → Prop) (l : list X) (body : nat → X → Prog S ()) s w :
  (∀ x s w, x ∈ l → I s w → runs (λ fuel, body fuel x) (λ _, I) s w) → I s w →
  runs (λ fuel, for_each l (body fuel)) (λ _, I) s w.
Proof.
  revert s w. induction l as [|x l IH]; intros s w Hb HI; cbn [for_each]; [by apply runs_ret|].
  apply (runs_bind (λ fuel, body fuel x)). eapply runs_mono; [|apply Hb; [by left|done]].
  intros [] s' w' HI'. apply IH; [|done]. intros y s0 w0 Hy. apply Hb. by right.
Qed.

(** A program without fuel that always returns. *)
Lemma runs_total {A} (m : Prog S A) Q s w : returns m s w → wp m Q s w → runs (λ _, m) Q s w.
Proof.
  intros Hm HQ. destruct (returns_wp m Q s w Hm HQ) as (a & s' & w' & E & H).
  by apply (runs_exact _ _ _ _ a s' w').
Qed.

Lemma runs_wp {A} (m : nat → Prog S A) (Q R : A → S → history → Prop) s w :
  runs m Q s w → (∀ fuel, wp (m fuel) R s w) → runs m (λ a s' w', Q a s' w' ∧ R a s' w') s w.
Proof.
  intros (N & a & s' & w' & Hm & HQ) HR. exists N, a, s', w'. split; [done|]. split; [done|].
  specialize (HR N). unfold wp in HR. by rewrite Hm in HR.
Qed.

End Rules.

(** One construct at a time; calls of other functions are left to the user. *)
Ltac runs_step :=
  lazymatch goal with
  | |- runs (λ fuel, bind (@?m fuel) (@?f fuel)) _ _ _ => apply (runs_bind m f)
  | |- runs (λ _, mret _) _ _ _ => apply runs_ret
  | |- runs (λ _, gets _) _ _ _ => apply runs_gets
  | |- runs (λ _, modify _) _ _ _ => apply runs_modify
  | |- runs (λ _, sys _) _ _ _ => apply runs_sys
  | |- runs (λ fuel, zoom _ _ (@?m fuel)) _ _ _ => apply (runs_zoom _ _ m)
  | |- runs (λ _, if ?b then _ else _) _ _ _ => destruct b eqn:?
  end; cbv beta zeta.
Ltac runs_run := cbv beta zeta; repeat runs_step.

(** ** Calls *)

(** Every call that the program makes is of a certain kind. *)
Definition makes {S A} (P : call → Prop) (m : Prog S A) : Prop :=
  ∀ s w a s' w', m s w = Some (a, s', w') → ∃ l, w' = l ++ w ∧ Forall (λ e, P e.1) l.

Section Calls.
Context {S : Type} (P : call → Prop).

Lemma makes_ret {A} (a : A) : makes P (mret (M := Prog S) a).
Proof. intros s w b s' w' [= <- <- <-]. by exists []. Qed.

Lemma makes_gets {A} (f : S → A) : makes P (gets f).
Proof. intros s w b s' w' [= <- <- <-]. by exists []. Qed.

Lemma makes_modify (f : S → S) : makes P (modify f).
Proof. intros s w b s' w' [= <- <- <-]. by exists []. Qed.

Lemma makes_exhausted {A} : makes P (@exhausted S A).
Proof. by intros s w b s' w'. Qed.

Lemma makes_sys {K : Kernel} c : P c → makes P (S := S) (sys c).
Proof. intros Hc s w b s' w' [= <- <- <-]. eexists [_]. split; [done|]. by constructor. Qed.

Lemma makes_bind {A B} (m : Prog S A) (f : A → Prog S B) :
  makes P m → (∀ a, makes P (f a)) → makes P (bind m f).
Proof.
  intros Hm Hf s w b s2 w2. unfold bind. destruct (m s w) as [[[a s1] w1]|] eqn:E; [|done].
  intros Hb. destruct (Hm _ _ _ _ _ E) as (l & -> & Hl). destruct (Hf _ _ _ _ _ _ Hb) as (k & -> & Hk).
  exists (k ++ l). split; [by rewrite app_assoc|]. by apply Forall_app.
Qed.

Lemma makes_for_each {X} (l : list X) (body : X → Prog S ()) :
  (∀ x, makes P (body x)) → makes P (for_each l body).
Proof.
  intros Hb. induction l as [|x l IH]; cbn; [apply makes_ret|]. apply makes_bind; [done|]. by intros [].
Qed.

Lemma makes_for_until {X R} (l : list X) (body : X → Prog S (option R)) :
  (∀ x, makes P (body x)) → makes P (for_until l body).
Proof.
  intros Hb. induction l as [|x l IH]; cbn; [apply makes_ret|]. apply makes_bind; [done|].
  intros [v|]; [apply makes_ret|done].
Qed.

Lemma makes_zoom {T A} get set (m : Prog T A) : makes P m → makes P (S := S) (zoom get set m).
Proof.
  intros Hm s w b s' w'. unfold zoom. destruct (m (get s) w) as [[[a t] w1]|] eqn:E; [|done].
  intros [= <- <- <-]. by apply (Hm _ _ _ _ _ E).
Qed.

End Calls.

Create HintDb makes.
#[export] Hint Resolve makes_ret makes_gets makes_modify makes_exhausted : makes.

Ltac makes_step :=
  lazymatch goal with
  | |- makes _ (bind _ _) => apply makes_bind; [|intros ?]
  | |- makes _ (sys _) => apply makes_sys
  | |- makes _ (zoom _ _ _) => apply makes_zoom
  | |- makes _ (for_each _ _) => apply makes_for_each; intros ?
  | |- makes _ (for_until _ _) => apply makes_for_until; intros ?
  | |- makes _ (if ?b then _ else _) => destruct b
  | |- makes _ (match ?x with _ => _ end) => destruct x
  end.
Ltac makes_run := repeat (cbv beta zeta; makes_step); cbv beta; auto with makes.

(** Whatever the calls are, they are added to the history. *)
Abbreviation grows := (makes (λ _ : call, True)).

Lemma makes_grows {S A} P (m : Prog S A) : makes P m → grows m.
Proof.
  intros Hm s w a s' w' E. destruct (Hm _ _ _ _ _ E) as (l & -> & Hl). exists l. split; [done|].
  by eapply Forall_impl.
Qed.

Lemma grows_polls {S A} (m : Prog S A) Q s w :
  grows m → wp m Q s w → wp m (λ a s' w', Q a s' w' ∧ (polls w ≤ polls w')%nat) s w.
Proof.
  intros Hm. unfold wp. destruct (m s w) as [[[a s'] w']|] eqn:E; [|done]. intros HQ. split; [done|].
  destruct (Hm _ _ _ _ _ E) as (l & -> & _). apply polls_app.
Qed.

(** ** What stays the same *)

(** The program leaves a part of the state alone. *)
Definition leaves {S A X} (f : S → X) (m : Prog S A) : Prop :=
  ∀ s w a s' w', m s w = Some (a, s', w') → f s' = f s.

Section Keeping.
Context {S X : Type} (f : S → X).

Lemma leaves_ret {A} (a : A) : leaves f (mret (M := Prog S) a).
Proof. by intros s w b s' w' [= <- <- <-]. Qed.

Lemma leaves_gets {A} (g : S → A) : leaves f (gets g).
Proof. by intros s w b s' w' [= <- <- <-]. Qed.

Lemma leaves_sys {K : Kernel} c : leaves f (sys c).
Proof. by intros s w b s' w' [= <- <- <-]. Qed.

Lemma leaves_exhausted {A} : leaves f (@exhausted S A).
Proof. by intros s w b s' w'. Qed.

Lemma leaves_modify g : (∀ s, f (g s) = f s) → leaves f (modify g).
Proof. by intros Hg s w b s' w' [= <- <- <-]. Qed.

Lemma leaves_bind {A B} (m : Prog S A) (g : A → Prog S B) :
  leaves f m → (∀ a, leaves f (g a)) → leaves f (bind m g).
Proof.
  intros Hm Hg s w b s2 w2. unfold bind. destruct (m s w) as [[[a s1] w1]|] eqn:E; [|done].
  intros Hb. etransitivity; [by eapply Hg|by eapply Hm].
Qed.

Lemma leaves_for_each {Y} (l : list Y) (body : Y → Prog S ()) :
  (∀ x, leaves f (body x)) → leaves f (for_each l body).
Proof.
  intros Hb. induction l as [|x l IH]; cbn; [apply leaves_ret|]. apply leaves_bind; [done|]. by intros [].
Qed.

Lemma leaves_zoom {T A} get set (m : Prog T A) : (∀ t s, f (set t s) = f s) → leaves f (zoom get set m).
Proof.
  intros Hs s w b s' w'. unfold zoom. destruct (m (get s) w) as [[[a t] w1]|] eqn:E; [|done].
  intros [= <- <- <-]. apply Hs.
Qed.

End Keeping.

Create HintDb leaves.
#[export] Hint Resolve leaves_ret leaves_gets leaves_sys leaves_exhausted : leaves.

Ltac leaves_step :=
  lazymatch goal with
  | |- leaves _ (bind _ _) => apply leaves_bind; [|intros ?]
  | |- leaves _ (modify _) => apply leaves_modify; reflexivity
  | |- leaves _ (zoom _ _ _) => apply leaves_zoom; reflexivity
  | |- leaves _ (for_each _ _) => apply leaves_for_each; intros ?
  | |- leaves _ (if ?b then _ else _) => destruct b
  | |- leaves _ (match ?x with _ => _ end) => destruct x
  end.
Ltac leaves_run := repeat (cbv beta zeta; leaves_step); cbv beta; auto with leaves.

(** What holds with enough fuel, together with what stays the same. *)
Lemma runs_leaves {S A X} (f : S → X) (m : nat → Prog S A) (Q : A → S → history → Prop) s w :
  (∀ fuel, leaves f (m fuel)) → runs m Q s w → runs m (λ a s' w', Q a s' w' ∧ f s' = f s) s w.
Proof.
  intros Hk (N & a & s' & w' & Hm & HQ). exists N, a, s', w'. split_and!; [done..|].
  by apply (Hk N s w a s' w'), Hm.
Qed.
