(* ===== verification/Epoll.v ===== *)
(** * The epoll instance

    [src/net/Epoll.cpp]: a class that owns an epoll descriptor.  An [Epoll] object
    is used by other components, so [add], [modify] and [remove], which only make
    a call, run in any object's state. *)

From S2P Require Import Prelude Sys Total.

Module Epoll.
Section Epoll.
Context {K : Kernel}.

Definition construct : Prog Z () :=
  a ← sys sys_epoll_create;
  modify (λ _, ret a).

Definition destruct : Prog Z () :=
  epoll_fd ← gets id;
  if negb (epoll_fd =? -1) then sys (sys_close epoll_fd) ;; mret () else mret ().

Context {S : Type}.

Definition add (fd events : Z) : Prog S bool :=
  a ← sys (sys_epoll_ctl EPOLL_CTL_ADD fd events);
  mret (negb (ret a =? -1)).

Definition modify (fd events : Z) : Prog S bool :=
  a ← sys (sys_epoll_ctl EPOLL_CTL_MOD fd events);
  mret (negb (ret a =? -1)).

Definition remove (fd : Z) : Prog S bool :=
  a ← sys (sys_epoll_ctl EPOLL_CTL_DEL fd 0);
  mret (negb (ret a =? -1)).

(** The number of events and the events with their descriptors. *)
Definition wait (max_events timeout : Z) : Prog S answer :=
  sys (sys_epoll_wait max_events timeout).

End Epoll.
End Epoll.

Section Calls.
Context {K : Kernel} {S : Type}.

Lemma grows_add fd events : grows (Epoll.add (S := S) fd events).
Proof. unfold Epoll.add. makes_run. Qed.

Lemma grows_remove fd : grows (Epoll.remove (S := S) fd).
Proof. unfold Epoll.remove. makes_run. Qed.

Lemma grows_modify fd events : grows (Epoll.modify (S := S) fd events).
Proof. unfold Epoll.modify. makes_run. Qed.

End Calls.
#[export] Hint Resolve grows_add grows_remove grows_modify : makes.
