(* ===== verification/Socket.v ===== *)
(** * The listening socket

    [src/net/Socket.cpp]: a class that owns a TCP socket. *)

From S2P Require Import Prelude Sys Total.

Module Socket.
Section Socket.
Context {K : Kernel}.

Definition setNonBlocking {S} (fd : Z) : Prog S bool :=
  a ← sys (sys_fcntl fd 0);
  let flags := ret a in
  if flags =? -1 then mret false
  else
    b ← sys (sys_fcntl fd (Z.lor flags O_NONBLOCK));
    mret (negb (ret b =? -1)).

Definition setNoDelay {S} (fd : Z) : Prog S bool :=
  a ← sys (sys_setsockopt fd TCP_NODELAY);
  mret (negb (ret a =? -1)).

Definition construct : Prog Z () :=
  a ← sys sys_socket;
  let fd := ret a in
  modify (λ _, fd) ;;
  if fd =? -1 then mret ()
  else
    b ← sys (sys_setsockopt fd SO_REUSEADDR);
    if ret b =? -1 then sys (sys_close fd) ;; modify (λ _, -1)
    else
      c ← sys (sys_setsockopt fd SO_REUSEPORT);
      if ret c =? -1 then sys (sys_close fd) ;; modify (λ _, -1)
      else
        nonblocking ← setNonBlocking fd;
        if negb nonblocking then sys (sys_close fd) ;; modify (λ _, -1)
        else mret ().

Definition destruct : Prog Z () :=
  fd ← gets id;
  if negb (fd =? -1) then sys (sys_close fd) ;; mret () else mret ().

Definition bindAndListen (port : Z) : Prog Z bool :=
  fd ← gets id;
  if fd =? -1 then mret false
  else
    a ← sys (sys_bind fd port);
    if ret a =? -1 then mret false
    else
      b ← sys (sys_listen fd 128);
      mret (negb (ret b =? -1)).

End Socket.
End Socket.

Section Calls.
Context {K : Kernel} {S : Type}.

Lemma grows_setNonBlocking fd : grows (Socket.setNonBlocking (S := S) fd).
Proof. unfold Socket.setNonBlocking. makes_run. Qed.

Lemma grows_setNoDelay fd : grows (Socket.setNoDelay (S := S) fd).
Proof. unfold Socket.setNoDelay. makes_run. Qed.

End Calls.
#[export] Hint Resolve grows_setNonBlocking grows_setNoDelay : makes.
