(* ===== verification/TimerFd.v ===== *)
(** * The periodic timer

    [src/net/TimerFd.cpp]: a class that owns a timer descriptor. *)

From S2P Require Import Prelude Sys.

Module TimerFd.
Section TimerFd.
Context {K : Kernel}.

Definition construct : Prog Z () :=
  a ← sys sys_timerfd_create;
  modify (λ _, ret a).

Definition destruct : Prog Z () :=
  fd ← gets id;
  if negb (fd =? -1) then sys (sys_close fd) ;; mret () else mret ().

Definition start (interval_seconds : Z) : Prog Z bool :=
  fd ← gets id;
  if (fd =? -1) || (interval_seconds <=? 0) then mret false
  else
    a ← sys (sys_timerfd_settime fd interval_seconds);
    mret (negb (ret a =? -1)).

Definition consume : Prog Z () :=
  fd ← gets id;
  if fd =? -1 then mret ()
  else sys (sys_read fd 8) ;; mret ().

End TimerFd.
End TimerFd.
