(* ===== verification/Request.v ===== *)
(** * Requests

    The parsed request of [include/http/HttpRequest.hpp] and the header queries
    of [src/http/HttpRequest.cpp]. *)

From S2P Require Import Prelude.

Module HttpRequest.

Record HttpRequest := mk {
  method : bytes;
  target : bytes;
  version : bytes;
  headers : list (bytes * bytes);
  body : bytes
}.

#[global] Instance eta_HttpRequest : Eta HttpRequest :=
  fun r => mk (method r) (target r) (version r) (headers r) (body r).

#[global] Instance HttpRequest_eq_dec : EqDecision HttpRequest.
Proof. solve_decision. Defined.

Definition empty : HttpRequest := mk [] [] [] [] [].

Definition equalsIgnoreCase (left right : bytes) : bool :=
  if negb (len left =? len right) then false else same_lower left right.

Definition trim (value : bytes) : bytes :=
  rev (skip_while is_blank (rev (skip_while is_blank value))).

(** The first header whose name matches, or the empty string. *)
Fixpoint lookup_header (headers : list (bytes * bytes)) (name : bytes) : bytes :=
  match headers with
  | [] => []
  | (n, v) :: rest =>
      if negb (len n =? len name) then lookup_header rest name
      else if same_lower n name then v
      else lookup_header rest name
  end.

Definition getHeader (r : HttpRequest) (name : bytes) : bytes :=
  lookup_header (headers r) name.

(** The inner [while] of [hasHeaderToken]; [fuel] bounds its turns and the
    header's length plus one is always enough ([token_loop_spec]). *)
Fixpoint token_loop (fuel : nat) (value token : bytes) (start : Z) : bool :=
  match fuel with
  | O => false
  | S fuel' =>
      if start <? len value then
        let comma := find_char value "," start in
        let end_ := match comma with Some c => c | None => len value end in
        let current_token := trim (substr value start (sub64 end_ start)) in
        if equalsIgnoreCase current_token token then true
        else match comma with
             | None => false
             | Some c => token_loop fuel' value token (c + 1)
             end
      else false
  end.

Fixpoint token_in_headers (headers : list (bytes * bytes)) (name token : bytes) : bool :=
  match headers with
  | [] => false
  | (n, v) :: rest =>
      if negb (equalsIgnoreCase n name) then token_in_headers rest name token
      else if token_loop (S (length v)) v token 0 then true
      else token_in_headers rest name token
  end.

Definition hasHeaderToken (r : HttpRequest) (name token : bytes) : bool :=
  token_in_headers (headers r) name token.

End HttpRequest.

(** * Header tokens *)

(** The comma-separated elements of a field value. *)
Fixpoint elements (l : bytes) : list bytes :=
  match l with
  | [] => [[]]
  | c :: l' =>
      if ceq c "," then [] :: elements l'
      else match elements l' with
           | e :: es => (c :: e) :: es
           | [] => [[c]]
           end
  end.

Section Tokens.
Import HttpRequest.

Lemma elements_find l :
  elements l = match find_char l "," 0 with
               | Some i => take (Z.to_nat i) l :: elements (drop (Z.to_nat (i + 1)) l)
               | None => [l]
               end.
Proof.
  unfold find_char, find. rewrite (proj2 (Z.ltb_ge _ _)) by apply len_nonneg. rewrite drop_0.
  induction l as [|c l IH]; [done|]. cbn. rewrite andb_true_r.
  replace (ceq "," c) with (ceq c ",") by (unfold ceq; repeat case_bool_decide; congruence).
  destruct (ceq c ","); [done|].
  rewrite (Z.add_comm 0 1), find_at_shift, IH. destruct (find_at _ l 0) as [i|] eqn:E; [|done].
  cbn. apply find_at_bounds in E. replace (Z.to_nat (1 + i)) with (S (Z.to_nat i)) by lia. cbn.
  replace (Z.to_nat (1 + i + 1)) with (S (Z.to_nat (i + 1))) by lia. done.
Qed.

Lemma trim_nil : trim [] = [].
Proof. done. Qed.

(** The loop looks at every element: one turn per byte is enough. *)
Lemma token_loop_spec fuel v token start :
  token ≠ [] → 0 ≤ start ≤ len v → len v < U64 → len v - start < Z.of_nat fuel →
  token_loop fuel v token start =
  existsb (λ e, equalsIgnoreCase (trim e) token) (elements (drop (Z.to_nat start) v)).
Proof.
  intros Ht. revert start. induction fuel as [|fuel IH]; intros start Hs Hv Hf; [lia|]. cbn [token_loop].
  assert (equalsIgnoreCase (trim []) token = false) as Hnil.
  { unfold equalsIgnoreCase. rewrite trim_nil, len_nil.
    destruct (Z.eqb_spec 0 (len token)) as [E|E]; [|done]. by apply eq_sym, len_0 in E. }
  destruct (Z.ltb_spec start (len v)).
  2:{ rewrite drop_ge by len_lia. cbn [elements existsb]. by rewrite Hnil. }
  pose proof (find_drop v [","%char] start 0 ltac:(lia) ltac:(lia)) as F. rewrite Z.add_0_r in F.
  cbv zeta. unfold find_char. rewrite F, (elements_find (drop _ v)). unfold find_char.
  destruct (find (drop (Z.to_nat start) v) [","%char] 0) as [i|] eqn:E; cbn [fmap option_fmap option_map].
  - apply find_bounds in E; [|lia]. rewrite len_drop in E by lia. change (len [","%char]) with 1 in E.
    cbn [existsb]. rewrite sub64_small by lia. replace (start + i - start) with i by lia.
    rewrite IH, drop_drop by lia. unfold substr.
    replace (Z.to_nat start + Z.to_nat (i + 1))%nat with (Z.to_nat (start + i + 1)) by lia.
    by destruct (equalsIgnoreCase _ token).
  - cbn [existsb]. rewrite orb_false_r, sub64_small by lia. unfold substr.
    rewrite take_ge by len_lia. by destruct (equalsIgnoreCase (trim (drop _ _)) token).
Qed.

(** [hasHeaderToken] holds exactly when some field with that name, in any
    case, has the token, blanks around it removed and in any case, among its
    comma-separated elements; the search loop always runs to the end of the
    value. *)
Theorem hasHeaderToken_spec r name token :
  token ≠ [] → Forall (λ h, len h.2 < U64) (headers r) →
  hasHeaderToken r name token = true ↔
  ∃ n v e, (n, v) ∈ headers r ∧ equalsIgnoreCase n name = true ∧
    e ∈ elements v ∧ equalsIgnoreCase (trim e) token = true.
Proof.
  intros Ht. unfold hasHeaderToken. induction (headers r) as [|[n v] hs IH]; intros Hh.
  { split; [done|]. by intros (? & ? & ? & ?%elem_of_nil & _). }
  apply Forall_cons in Hh as [Hv Hhs]. cbn [token_in_headers]. cbn in Hv.
  rewrite token_loop_spec, drop_0 by (done || (pose proof (len_nonneg v); len_lia)).
  setoid_rewrite elem_of_cons. destruct (equalsIgnoreCase n name) eqn:En; cbn [negb].
  - destruct (existsb _ _) eqn:Ee.
    + split; [|done]. intros _. apply existsb_exists in Ee as (e & He & Hq).
      exists n, v, e. apply list_elem_of_In in He. split_and!; try done. by left.
    + rewrite IH by done. split.
      { intros (n' & v' & e & Hin & Hq). exists n', v', e. split; [by right|done]. }
      intros (n' & v' & e & [[= -> ->]|Hin] & Hn & He & Hq); [|by exists n', v', e].
      assert (existsb (λ e, equalsIgnoreCase (trim e) token) (elements v) = true) as Hx; [|congruence].
      apply existsb_exists. exists e. by rewrite <- list_elem_of_In.
  - rewrite IH by done. split.
    { intros (n' & v' & e & Hin & Hq). exists n', v', e. split; [by right|done]. }
    intros (n' & v' & e & [[= -> ->]|Hin] & Hn & He & Hq); [congruence|by exists n', v', e].
Qed.

Lemma hasHeaderToken_spec_witness :
  let r := mk [] [] [] [(lit "connection", lit "keep-alive , Upgrade,")] [] in
  hasHeaderToken r (lit "Connection") (lit "upgrade") = true.
Proof.
  cbv zeta. apply hasHeaderToken_spec; [done|by repeat constructor|].
  exists (lit "connection"), (lit "keep-alive , Upgrade,"), (lit " Upgrade").
  split_and!; [by left|done| |done]. by right; left.
Defined.

End Tokens.
