(* ===== verification/Response.v ===== *)
(** * Responses

    The response under construction of [include/http/HttpResponse.hpp] and the
    member functions of [src/http/HttpResponse.cpp], with the reader a client
    applies to what [serialize] produces. *)

From S2P Require Import Prelude.
From S2P Require Import Numerals.
From S2P Require Import Request.

Module HttpResponse.

Record HttpResponse := mk {
  version : bytes;
  status_code : Z;
  reason : bytes;
  headers : list (bytes * bytes);
  body : bytes;
  send_body : bool;
  send_file : bool;
  file_path : bytes;
  file_size : Z
}.

#[global] Instance eta_HttpResponse : Eta HttpResponse :=
  fun r => mk (version r) (status_code r) (reason r) (headers r) (body r) (send_body r)
    (send_file r) (file_path r) (file_size r).

#[global] Instance HttpResponse_eq_dec : EqDecision HttpResponse.
Proof. solve_decision. Defined.

(** The default member initialisers. *)
Definition construct : HttpResponse :=
  mk (lit "HTTP/1.1") 200 (lit "OK") [] [] true false [] 0.

Definition setStatus (code : Z) (reason_phrase : bytes) (r : HttpResponse) : HttpResponse :=
  r <| status_code := code |> <| reason := reason_phrase |>.

Definition setBody (response_body : bytes) (r : HttpResponse) : HttpResponse :=
  r <| body := response_body |> <| send_file := false |> <| file_path := [] |> <| file_size := 0 |>.

Definition setFile (path : bytes) (size : Z) (r : HttpResponse) : HttpResponse :=
  r <| file_path := path |> <| file_size := size |> <| send_file := true |> <| body := [] |>.

Definition addHeader (name value : bytes) (r : HttpResponse) : HttpResponse :=
  r <| headers := headers r ++ [(name, value)] |>.

(** The loop of [setHeader]: the first header of that name gets the value, or a
    new one is appended. *)
Fixpoint replace_header (name value : bytes) (hs : list (bytes * bytes)) : list (bytes * bytes) :=
  match hs with
  | [] => [(name, value)]
  | (n, v) :: rest =>
      if negb (len n =? len name) then (n, v) :: replace_header name value rest
      else if same_lower n name then (n, value) :: rest
      else (n, v) :: replace_header name value rest
  end.

Definition setHeader (name value : bytes) (r : HttpResponse) : HttpResponse :=
  r <| headers := replace_header name value (headers r) |>.

Definition setContentType (content_type : bytes) : HttpResponse → HttpResponse :=
  setHeader (lit "Content-Type") content_type.

(** [setContentLength(length)]. *)
Definition setContentLengthTo (length : Z) : HttpResponse → HttpResponse :=
  setHeader (lit "Content-Length") (to_string length).

Definition setContentLength (r : HttpResponse) : HttpResponse :=
  if send_file r then setContentLengthTo (file_size r) r
  else setContentLengthTo (len (body r)) r.

Definition setConnection (connection : bytes) : HttpResponse → HttpResponse :=
  setHeader (lit "Connection") connection.

Definition setSendBody (value : bool) (r : HttpResponse) : HttpResponse :=
  r <| send_body := value |>.

Definition hasFile (r : HttpResponse) : bool := send_file r && negb (len (file_path r) =? 0).

Definition getFilePath (r : HttpResponse) : bytes := file_path r.

Definition getFileSize (r : HttpResponse) : Z := file_size r.

(** The reserved capacity is left out. *)
Definition serialize (r : HttpResponse) : bytes :=
  version r ++ lit " " ++ int_to_string (status_code r) ++ lit " " ++ reason r ++ CRLF ++
  concat ((λ h, h.1 ++ lit ": " ++ h.2 ++ CRLF) <$> headers r) ++ CRLF ++
  (if send_body r && negb (send_file r) then body r else []).

End HttpResponse.
Import HttpResponse.

Implicit Types r : HttpResponse.

(** ** The client's reader *)

(** The bytes before the next CRLF and those behind it. *)
Definition cut_line (l : bytes) : option (bytes * bytes) :=
  match find l CRLF 0 with
  | Some i => Some (substr l 0 i, substr_from l (i + 2))
  | None => None
  end.

(** Splits at the first occurrence of a separator. *)
Definition cut_at (sep l : bytes) : option (bytes * bytes) :=
  match find l sep 0 with
  | Some i => Some (substr l 0 i, substr_from l (i + len sep))
  | None => None
  end.

(** Header lines up to the empty one; every turn consumes a line. *)
Fixpoint read_headers (fuel : nat) (l : bytes) : option (list (bytes * bytes) * bytes) :=
  match fuel with
  | O => None
  | S fuel' =>
      match cut_line l with
      | Some ([], rest) => Some ([], rest)
      | Some (line, rest) =>
          match cut_at (lit ": ") line, read_headers fuel' rest with
          | Some h, Some (hs, rest') => Some (h :: hs, rest')
          | _, _ => None
          end
      | None => None
      end
  end.

Record Message := {
  m_status : Z;
  m_reason : bytes;
  m_headers : list (bytes * bytes);
  m_body : bytes
}.

(** Reads one response off a byte stream: the status line, the headers and,
    unless the request was HEAD, as many bytes as Content-Length declares. *)
Definition read_response (bodyless : bool) (l : bytes) : option (Message * bytes) :=
  match cut_line l with
  | Some (line, rest) =>
      match cut_at (lit " ") line with
      | Some (_, rest1) =>
          match cut_at (lit " ") rest1, read_headers (S (length rest)) rest with
          | Some (code, why), Some (hs, payload) =>
              match stoull code, stoull (HttpRequest.lookup_header hs (lit "Content-Length")) with
              | Some status, Some n =>
                  let n := if bodyless then 0 else n in
                  if len payload <? n then None
                  else Some ({| m_status := status; m_reason := why; m_headers := hs;
                                m_body := substr payload 0 n |}, substr_from payload n)
              | _, _ => None
              end
          | _, _ => None
          end
      | None => None
      end
  | None => None
  end.

(** ** Well-formed responses *)

Definition clean_header (h : bytes * bytes) : Prop :=
  no_char ":" h.1 = true ∧ no_char CR h.1 = true ∧ no_char CR h.2 = true.

(** Nothing in the head can be mistaken for the end of a line or of a name. *)
Record clean r : Prop := {
  clean_version : no_char SP (version r) = true ∧ no_char CR (version r) = true;
  clean_status : 0 ≤ status_code r < U64;
  clean_reason : no_char CR (reason r) = true;
  clean_headers : Forall clean_header (headers r)
}.

(** The length of what follows the head, for a request that is not HEAD. *)
Definition payload_len r : Z := if send_file r then file_size r else len (body r).

(** The declared length is the payload's. *)
Record framed r : Prop := {
  framed_size : 0 ≤ payload_len r < U64;
  framed_length :
    HttpRequest.lookup_header (headers r) (lit "Content-Length") = to_string (payload_len r)
}.

(** ** Header updates *)

Lemma equalsIgnoreCase_spec l k :
  HttpRequest.equalsIgnoreCase l k = true ↔ tolower <$> l = tolower <$> k.
Proof.
  unfold HttpRequest.equalsIgnoreCase. destruct (Z.eqb_spec (len l) (len k)) as [E|E]; cbn [negb].
  - by apply same_lower_spec.
  - split; [done|]. intros H%(f_equal len). unfold len in *. rewrite !length_fmap in H. done.
Qed.

Lemma equalsIgnoreCase_trans l k m :
  HttpRequest.equalsIgnoreCase l k = true →
  HttpRequest.equalsIgnoreCase l m = HttpRequest.equalsIgnoreCase k m.
Proof.
  intros H%equalsIgnoreCase_spec. apply Bool.eq_iff_eq_true. by rewrite !equalsIgnoreCase_spec, H.
Qed.

Lemma lookup_header_cons n v hs m :
  HttpRequest.lookup_header ((n, v) :: hs) m =
  if HttpRequest.equalsIgnoreCase n m then v else HttpRequest.lookup_header hs m.
Proof.
  cbn. unfold HttpRequest.equalsIgnoreCase. by destruct (len n =? len m).
Qed.

Lemma replace_header_cons n v k u hs :
  replace_header n v ((k, u) :: hs) =
  if HttpRequest.equalsIgnoreCase k n then (k, v) :: hs else (k, u) :: replace_header n v hs.
Proof.
  cbn. unfold HttpRequest.equalsIgnoreCase. by destruct (len k =? len n).
Qed.

(** Reading a header back after [setHeader]. *)
Lemma lookup_replace_header hs n v m :
  HttpRequest.lookup_header (replace_header n v hs) m =
  if HttpRequest.equalsIgnoreCase n m then v else HttpRequest.lookup_header hs m.
Proof.
  induction hs as [|[k u] hs IH]; [by cbn [replace_header]; rewrite lookup_header_cons|].
  rewrite replace_header_cons. destruct (HttpRequest.equalsIgnoreCase k n) eqn:E.
  - rewrite !lookup_header_cons, (equalsIgnoreCase_trans _ _ _ E).
    by destruct (HttpRequest.equalsIgnoreCase n m).
  - rewrite !lookup_header_cons, IH. destruct (HttpRequest.equalsIgnoreCase k m) eqn:E'; [|done].
    destruct (HttpRequest.equalsIgnoreCase n m) eqn:E''; [|done].
    rewrite equalsIgnoreCase_spec in E', E''. apply not_true_iff_false in E.
    rewrite equalsIgnoreCase_spec in E. congruence.
Qed.

(** The declared length after the header operations the handlers use. *)
Lemma length_setHeader name value r :
  HttpRequest.equalsIgnoreCase name (lit "Content-Length") = false →
  HttpRequest.lookup_header (headers (setHeader name value r)) (lit "Content-Length") =
  HttpRequest.lookup_header (headers r) (lit "Content-Length").
Proof.
  intros H. change (headers (setHeader name value r)) with (replace_header name value (headers r)).
  by rewrite lookup_replace_header, H.
Qed.

Lemma setContentLength_framed r : 0 ≤ payload_len r < U64 → framed (setContentLength r).
Proof.
  intros H. unfold setContentLength, setContentLengthTo, setHeader, payload_len in *.
  destruct (send_file r) eqn:E; split; unfold payload_len; cbn -[lit]; rewrite E; try done;
    by rewrite lookup_replace_header.
Qed.

Lemma setHeader_framed name value r :
  HttpRequest.equalsIgnoreCase name (lit "Content-Length") = false →
  framed r → framed (setHeader name value r).
Proof. intros Hn [Hs Hl]. split; [done|]. by rewrite length_setHeader. Qed.

Lemma setConnection_framed v r : framed r → framed (setConnection v r).
Proof. by apply setHeader_framed. Qed.

Lemma setContentType_framed v r : framed r → framed (setContentType v r).
Proof. by apply setHeader_framed. Qed.

Lemma setStatus_framed code why r : framed r → framed (setStatus code why r).
Proof. by intros []. Qed.

Lemma setSendBody_framed b r : framed r → framed (setSendBody b r).
Proof. by intros []. Qed.

Lemma clean_replace name value hs :
  clean_header (name, value) → Forall clean_header hs →
  Forall clean_header (replace_header name value hs).
Proof.
  intros Hh. induction 1 as [|[n v] hs (Hn & Hr & Hv) Hhs IH].
  { by apply Forall_singleton. }
  rewrite replace_header_cons. destruct (HttpRequest.equalsIgnoreCase n name); constructor; try done.
  by destruct Hh as (_ & _ & ?).
Qed.

Lemma setHeader_clean name value r :
  clean_header (name, value) → clean r → clean (setHeader name value r).
Proof. intros Hh [? ? ? ?]. split; try done. by apply clean_replace. Qed.

Lemma to_string_clean n c : 0 ≤ n < U64 → isdigit c = false → no_char c (to_string n) = true.
Proof.
  intros Hn Hc. destruct (to_string_spec n Hn) as (_ & Hd & _). by eapply forallb_no_char.
Qed.

Lemma setContentLength_clean r : 0 ≤ payload_len r < U64 → clean r → clean (setContentLength r).
Proof.
  unfold payload_len, setContentLength, setContentLengthTo. intros H Hr. destruct (send_file r);
    apply setHeader_clean; try done; repeat split; by apply to_string_clean.
Qed.

Lemma setContentType_clean v r : no_char CR v = true → clean r → clean (setContentType v r).
Proof. intros. by apply setHeader_clean. Qed.

Lemma setConnection_clean v r : no_char CR v = true → clean r → clean (setConnection v r).
Proof. intros. by apply setHeader_clean. Qed.

Lemma construct_clean : clean construct.
Proof. by split; try constructor. Qed.

Lemma setStatus_clean code why r :
  0 ≤ code < U64 → no_char CR why = true → clean r → clean (setStatus code why r).
Proof. by intros ? ? [? _ _ ?]. Qed.

Lemma setBody_clean b r : clean r → clean (setBody b r).
Proof. by intros []. Qed.

Lemma setFile_clean p n r : clean r → clean (setFile p n r).
Proof. by intros []. Qed.

Lemma setSendBody_clean b r : clean r → clean (setSendBody b r).
Proof. by intros []. Qed.

#[export] Hint Resolve setContentLength_framed setConnection_framed setContentType_framed
  setStatus_framed setSendBody_framed setContentLength_clean setContentType_clean
  setConnection_clean construct_clean setStatus_clean setBody_clean setFile_clean
  setSendBody_clean : aorta.

(** Literal phrases and codes are checked by evaluation. *)
#[export] Hint Extern 1 (no_char _ _ = true) => vm_compute; reflexivity : aorta.
#[export] Hint Extern 1 (len (lit _) < U64) => by vm_compute : aorta.
#[export] Hint Extern 1 (0 ≤ Zpos _ < U64) => by vm_compute : aorta.

(** ** Reading back what was sent *)

Lemma cut_line_app line post : no_char CR line = true → cut_line (line ++ CRLF ++ post) = Some (line, post).
Proof.
  intros H. unfold cut_line.
  destruct (find_line (line ++ CRLF ++ post) 0 line post) as (-> & E & _ & D); try done.
  { pose proof (len_nonneg (line ++ CRLF ++ post)). lia. }
  rewrite Z.add_0_l. rewrite E. unfold substr_from. by rewrite Z.add_0_l in D; rewrite D.
Qed.

Lemma cut_at_app c sep l k :
  no_char c l = true → cut_at (c :: sep) (l ++ (c :: sep) ++ k) = Some (l, k).
Proof.
  intros H. unfold cut_at. rewrite find_sep; [|done|by apply starts_with_no_char].
  rewrite (substr_middle [] l _ : substr (l ++ _) 0 (len l) = l). unfold substr_from. rewrite app_assoc, <- len_app.
  by rewrite len_to_nat, drop_app_length.
Qed.

Lemma cut_header n v : no_char ":" n = true → cut_at (lit ": ") (n ++ lit ": " ++ v) = Some (n, v).
Proof. exact (cut_at_app ":" [SP] n v). Qed.

Lemma cut_space l k : no_char SP l = true → cut_at (lit " ") (l ++ lit " " ++ k) = Some (l, k).
Proof. exact (cut_at_app SP [] l k). Qed.

Definition render_header (h : bytes * bytes) : bytes := h.1 ++ lit ": " ++ h.2 ++ CRLF.

Lemma read_headers_render hs k fuel :
  Forall clean_header hs → (length hs < fuel)%nat →
  read_headers fuel (concat (render_header <$> hs) ++ CRLF ++ k) = Some (hs, k).
Proof.
  intros Hhs. revert fuel. induction Hhs as [|[n v] hs (Hn & Hr & Hv) Hhs IH]; intros fuel Hf;
    (destruct fuel as [|fuel]; [cbn in Hf; lia|]); cbn [read_headers fmap list_fmap concat].
  { by rewrite (cut_line_app []). }
  unfold render_header at 1. cbn [fst snd] in *.
  assert (((n ++ lit ": " ++ v ++ CRLF) ++ concat (render_header <$> hs)) ++ CRLF ++ k =
    (n ++ lit ": " ++ v) ++ CRLF ++ concat (render_header <$> hs) ++ CRLF ++ k) as ->
    by (by rewrite <- !app_assoc).
  rewrite cut_line_app by (by rewrite !no_char_app, Hr, Hv).
  rewrite IH, cut_header by (done || (cbn in Hf; lia)). by destruct n.
Qed.

Lemma length_render hs k : (length hs < S (length (concat (render_header <$> hs) ++ k)))%nat.
Proof.
  rewrite length_app. enough (length hs ≤ length (concat (render_header <$> hs)))%nat by lia.
  induction hs as [|h hs IH]; [done|]. rewrite fmap_cons. cbn [concat length].
  unfold render_header at 1. rewrite !length_app. change (length CRLF) with 2%nat. lia.
Qed.

(** The reader recovers the head of a clean response. *)
Lemma read_head r k :
  clean r → framed r →
  let hs := headers r in
  let payload := (if send_body r && negb (send_file r) then body r else []) ++ k in
  ∀ bodyless : bool, let n := if bodyless then 0 else payload_len r in
  n ≤ len payload →
  read_response bodyless (serialize r ++ k) =
  Some ({| m_status := status_code r; m_reason := reason r; m_headers := hs;
           m_body := substr payload 0 n |}, substr_from payload n).
Proof.
  intros [[Hv1 Hv2] Hs Hw Hh] [Hp Hl]. cbv zeta. intros bodyless Hn.
  unfold read_response, serialize.
  replace (int_to_string (status_code r)) with (to_string (status_code r)).
  2:{ unfold int_to_string. by rewrite (proj2 (Z.ltb_ge _ _)) by lia. }
  rewrite <- !app_assoc.
  set (payload := (if send_body r && negb (send_file r) then body r else []) ++ k) in *.
  set (rest := concat _ ++ CRLF ++ payload).
  replace (version r ++ lit " " ++ to_string (status_code r) ++ lit " " ++ reason r ++ CRLF ++ rest)
    with ((version r ++ lit " " ++ to_string (status_code r) ++ lit " " ++ reason r) ++ CRLF ++ rest)
    by (by rewrite <- !app_assoc).
  rewrite cut_line_app.
  2:{ rewrite !no_char_app, Hv2, Hw, to_string_clean by done. done. }
  rewrite cut_space by done. rewrite cut_space by (by apply to_string_clean).
  unfold rest at 2. rewrite read_headers_render; [|done|apply length_render].
  rewrite Hl. unfold stoull.
  rewrite <- (app_nil_r (to_string (status_code r))), <- (app_nil_r (to_string (payload_len r))).
  rewrite !strto_to_string by done. rewrite !(proj2 (Z.leb_gt _ _)) by lia.
  rewrite (proj2 (Z.ltb_ge _ _)) by done. done.
Qed.

Definition message r (payload : bytes) : Message :=
  {| m_status := status_code r; m_reason := reason r; m_headers := headers r; m_body := payload |}.

Lemma substr_prefix l k : substr (l ++ k) 0 (len l) = l ∧ substr_from (l ++ k) (len l) = k.
Proof.
  unfold substr, substr_from. rewrite len_to_nat. change (Z.to_nat 0) with 0%nat.
  by rewrite drop_0, take_app_length, drop_app_length.
Qed.

(** C14: A client that reads a clean response whose Content-Length was set from
    its payload gets back the status, the reason, every header in order and
    exactly the payload (the body, or the file's content sent behind the head),
    and is left with exactly the bytes of whatever follows on the connection;
    the same response with the body suppressed is read as the answer to HEAD,
    with the same head and no payload. *)
Theorem read_serialize r content k :
  clean r → framed r → send_body r = true → (send_file r = true → len content = file_size r) →
  let payload := if send_file r then content else body r in
  read_response false (serialize r ++ (if send_file r then content else []) ++ k) =
    Some (message r payload, k) ∧
  read_response true (serialize (setSendBody false r) ++ k) = Some (message r [], k).
Proof.
  intros Hc Hf Hb Hfile. cbv zeta. split.
  - pose proof (read_head r ((if send_file r then content else []) ++ k) Hc Hf) as H.
    cbv zeta in H. specialize (H false). revert H Hfile. rewrite Hb. unfold payload_len, message.
    destruct (send_file r); cbn [andb negb app]; intros H Hfile.
    + rewrite <- Hfile in H by done. destruct (substr_prefix content k) as [E1 E2].
      rewrite E1, E2 in H. apply H. rewrite len_app. pose proof (len_nonneg k). lia.
    + destruct (substr_prefix (body r) k) as [E1 E2].
      rewrite E1, E2 in H. apply H. rewrite len_app. pose proof (len_nonneg k). lia.
  - pose proof (read_head (setSendBody false r) k ltac:(auto with aorta) ltac:(auto with aorta) true) as H.
    exact (H (len_nonneg k)).
Qed.

Lemma read_serialize_witness :
  let r := setContentLength (setHeader (lit "content-type") (lit "text/html")
             (setContentType (lit "text/plain") (setBody (lit "hello") construct))) in
  read_response false (serialize r ++ [] ++ lit "HTTP") =
    Some (message r (lit "hello"), lit "HTTP") ∧
  headers r = [(lit "Content-Type", lit "text/html"); (lit "Content-Length", lit "5")].
Proof.
  intros r. split; [|by vm_compute].
  assert (0 ≤ payload_len r < U64) as Hsize by by vm_compute.
  assert (clean r) as Hc.
  { apply setContentLength_clean; [done|]. apply setHeader_clean; [by vm_compute|].
    apply setContentType_clean; [by vm_compute|]. auto with aorta. }
  assert (framed r) as Hf by (by apply setContentLength_framed).
  assert (send_file r = false) as Hn by by vm_compute.
  assert (body r = lit "hello") as <- by by vm_compute.
  pose proof (read_serialize r [] (lit "HTTP") Hc Hf ltac:(by vm_compute) ltac:(by rewrite Hn)) as [H _].
  by rewrite Hn in H.
Defined.
