(* ===== verification/Router.v ===== *)
(** * The router

    [src/http/HttpRouter.cpp]: routes are tried in the order in which they were
    registered.  A handler is any program that completes a response. *)

From S2P Require Import Prelude.
From S2P Require Import Sys.
From S2P Require Import Request.
From S2P Require Import Response.
Import HttpRequest (HttpRequest).
Import HttpResponse (HttpResponse, setStatus, setBody, setContentType, setHeader, setConnection,
  setContentLength).

Module HttpRouter.
Section HttpRouter.
Context {S : Type}.

Definition handler_type : Type := HttpRequest → HttpResponse → Prog S HttpResponse.

Record Route := {
  method : bytes;
  path : bytes;
  handler : handler_type
}.

Definition routes : Type := list Route.

Definition methodMatches (route_method request_method : bytes) : bool :=
  beq route_method request_method.

Definition pathMatches (route_path request_path : bytes) : bool := beq route_path request_path.

Definition register (m p : bytes) (h : handler_type) (rs : routes) : routes :=
  rs ++ [{| method := m; path := p; handler := h |}].

Definition get : bytes → handler_type → routes → routes := register (lit "GET").
Definition post : bytes → handler_type → routes → routes := register (lit "POST").
Definition put : bytes → handler_type → routes → routes := register (lit "PUT").
Definition del : bytes → handler_type → routes → routes := register (lit "DELETE").
Definition options : bytes → handler_type → routes → routes := register (lit "OPTIONS").

(** The loop over the routes; [path_found] is its local variable. *)
Fixpoint search (rs : routes) (path_found : bool) (request : HttpRequest) (response : HttpResponse) :
    Prog S (bool * bool * HttpResponse) :=
  match rs with
  | [] => mret (false, path_found, response)
  | r :: rest =>
      if negb (pathMatches (path r) (HttpRequest.target request))
      then search rest path_found request response
      else if negb (methodMatches (method r) (HttpRequest.method request))
      then search rest true request response
      else
        response ← handler r request response;
        mret (true, true, response)
  end.

Definition not_allowed (response : HttpResponse) : HttpResponse :=
  setContentLength (setConnection (lit "keep-alive")
    (setHeader (lit "Allow") (lit "GET, HEAD, POST, PUT, DELETE, OPTIONS")
      (setContentType (lit "text/plain") (setBody (lit "Method Not Allowed")
        (setStatus 405 (lit "Method Not Allowed") response))))).

Definition not_found (response : HttpResponse) : HttpResponse :=
  setContentLength (setConnection (lit "keep-alive")
    (setContentType (lit "text/plain") (setBody (lit "Not Found")
      (setStatus 404 (lit "Not Found") response)))).

Definition route (rs : routes) (request : HttpRequest) (response : HttpResponse) :
    Prog S (bool * HttpResponse) :=
  found ← search rs false request response;
  let '(handled, path_found, response) := found in
  if handled then mret (true, response)
  else if path_found then mret (false, not_allowed response)
  else mret (false, not_found response).

End HttpRouter.
End HttpRouter.
Import HttpRouter.

(** ** Dispatch *)

Section Dispatch.
Context {S : Type}.
Implicit Types (rs : @routes S) (req : HttpRequest) (resp : HttpResponse).

Definition matches req (r : @Route S) : bool :=
  beq (path r) (HttpRequest.target req) && beq (method r) (HttpRequest.method req).

(** The first route for the method and the path answers; without one, nothing is
    called and the response is 405 or 404 depending on whether some route has
    the path. *)
Lemma route_first rs req resp s w :
  route rs req resp s w =
  match List.find (matches req) rs with
  | Some r => (resp' ← handler r req resp; mret (true, resp')) s w
  | None =>
      if existsb (λ r, beq (path r) (HttpRequest.target req)) rs
      then Some (false, not_allowed resp, s, w) else Some (false, not_found resp, s, w)
  end.
Proof.
  unfold route. assert (∀ found, bind (search rs found req resp)
      (λ x, let '(handled, path_found, response) := x in
        if handled then mret (true, response)
        else if path_found then mret (false, not_allowed response)
        else mret (M := Prog S) (false, not_found response)) s w =
    match List.find (matches req) rs with
    | Some r => (resp' ← handler r req resp; mret (true, resp')) s w
    | None =>
        if found || existsb (λ r, beq (path r) (HttpRequest.target req)) rs
        then Some (false, not_allowed resp, s, w) else Some (false, not_found resp, s, w)
    end) as H; [|apply (H false)].
  induction rs as [|r rs IH]; intros found; cbn [search List.find existsb].
  - rewrite orb_false_r. by destruct found.
  - unfold matches at 1, pathMatches, methodMatches.
    destruct (beq (path r) _); cbn [negb andb orb].
    + destruct (beq (method r) _); cbn [negb].
      * unfold bind. by destruct (handler r req resp s w) as [[[a s'] w']|].
      * rewrite IH. by rewrite orb_true_r.
    + by rewrite IH.
Qed.

End Dispatch.
