(* ===== verification/StaticFiles.v ===== *)
(** * Static files

    [src/http/StaticFileHandler.cpp]: which file a target names and how the
    response announces it.  The file system is the kernel's [stat]. *)

From S2P Require Import Prelude.
From S2P Require Import Sys.
From S2P Require Import Request.
From S2P Require Import Response.
Import HttpRequest (HttpRequest, method, target).
Import HttpResponse (HttpResponse, setStatus, setBody, setFile, setContentType, setHeader,
  setConnection, setContentLength, setSendBody, hasFile, file_path, file_size).

Module StaticFileHandler.
Section StaticFileHandler.
Context {K : Kernel} {S : Type}.

Definition MAX_FILE_SIZE : Z := 16 * 1024 * 1024.

Definition isSafePath (target : bytes) : bool :=
  if len target =? 0 then false
  else if bool_decide (is_Some (find target (lit "..") 0)) then false
  else if bool_decide (is_Some (find_char target "\" 0)) then false
  else true.

Definition getFilePath (public_directory target : bytes) : bytes :=
  if beq target (lit "/") then public_directory ++ lit "/index.html"
  else public_directory ++ target.

Definition getContentType (path : bytes) : bytes :=
  if ends_with (lit ".html") path then lit "text/html"
  else if ends_with (lit ".css") path then lit "text/css"
  else if ends_with (lit ".js") path then lit "application/javascript"
  else if ends_with (lit ".json") path then lit "application/json"
  else if ends_with (lit ".png") path then lit "image/png"
  else if ends_with (lit ".jpg") path || ends_with (lit ".jpeg") path then lit "image/jpeg"
  else if ends_with (lit ".svg") path then lit "image/svg+xml"
  else if ends_with (lit ".txt") path then lit "text/plain"
  else lit "application/octet-stream".

(** The five lines with which every refusal is composed. *)
Definition refuse (code : Z) (phrase : bytes) (response : HttpResponse) : HttpResponse :=
  setContentLength (setConnection (lit "keep-alive") (setContentType (lit "text/plain")
    (setBody phrase (setStatus code phrase response)))).

Definition serve (file_path : bytes) (size : Z) (request : HttpRequest) (response : HttpResponse) :
    HttpResponse :=
  let response :=
    setContentLength (setConnection (lit "keep-alive")
      (setContentType (getContentType file_path)
        (setFile file_path size (setStatus 200 (lit "OK") response)))) in
  if beq (method request) (lit "HEAD") then setSendBody false response else response.

Definition handle (public_directory : bytes) (request : HttpRequest) (response : HttpResponse) :
    Prog S (bool * HttpResponse) :=
  if negb (beq (method request) (lit "GET")) && negb (beq (method request) (lit "HEAD"))
  then mret (false, response)
  else if negb (isSafePath (target request)) then mret (true, refuse 403 (lit "Forbidden") response)
  else
    let path := getFilePath public_directory (target request) in
    a ← sys (sys_stat (c_str path));
    if ret a =? -1 then mret (true, refuse 404 (lit "Not Found") response)
    else if negb (regular a) then mret (true, refuse 404 (lit "Not Found") response)
    else
      let size := value a mod U64 in
      if size >? MAX_FILE_SIZE
      then mret (true, refuse 413 (lit "Content Too Large") response)
      else mret (true, serve path size request response).

End StaticFileHandler.
End StaticFileHandler.
Import StaticFileHandler.

(** ** Paths *)

(** Following the components of a path from a directory, lexically: an empty
    component and [.] stay, [..] goes to the parent. *)
Fixpoint resolve (dir : list bytes) (components : list bytes) : list bytes :=
  match components with
  | [] => dir
  | c :: rest =>
      if beq c [] || beq c (lit ".") then resolve dir rest
      else if beq c (lit "..") then resolve (removelast dir) rest
      else resolve (dir ++ [c]) rest
  end.

Definition components (path : bytes) : list bytes := split_on "/" path.

(** The path continues below the directory, wherever that is. *)
Definition below (public_directory path : bytes) : Prop :=
  ∃ rest, path = public_directory ++ rest ∧ starts_with (lit "/") rest = true ∧
    ∀ dir, dir `prefix_of` resolve dir (components rest).

Lemma find_none_sub l pat a b : find l pat 0 = None → l ≠ a ++ pat ++ b.
Proof.
  unfold find. rewrite (proj2 (Z.ltb_ge _ _)) by apply len_nonneg. rewrite drop_0.
  intros H ->. apply (find_at_none _ _ _ (length a)) in H.
  by rewrite drop_app_length, starts_with_self in H.
Qed.

Lemma resolve_prefix comps dir : lit ".." ∉ comps → dir `prefix_of` resolve dir comps.
Proof.
  revert dir. induction comps as [|c comps IH]; intros dir Hc; cbn [resolve]; [done|].
  apply not_elem_of_cons in Hc as [Hc Hcs]. unfold beq.
  rewrite (bool_decide_false (c = lit "..")) by done.
  destruct (_ || _); [by apply IH|]. etransitivity; [by apply prefix_app_r|by apply IH].
Qed.

(** A path without [..] never climbs. *)
Lemma no_dots_below public_directory rest :
  find rest (lit "..") 0 = None → starts_with (lit "/") rest = true →
  below public_directory (public_directory ++ rest).
Proof.
  intros Hd Hs. exists rest. split_and!; [done|done|]. intros dir. apply resolve_prefix.
  intros (a & b & E)%split_on_piece. by eapply find_none_sub in Hd.
Qed.

Lemma resolve_app dir c1 c2 : resolve dir (c1 ++ c2) = resolve (resolve dir c1) c2.
Proof.
  revert dir. induction c1 as [|c c1 IH]; intros dir; cbn [app resolve]; [done|]. by repeat case_match.
Qed.

Lemma split_on_head sep l : ∃ e es, split_on sep l = e :: es.
Proof.
  destruct l as [|c l]; cbn; [by eexists _, _|]. destruct (ceq c sep); [by eexists _, _|].
  destruct (split_on sep l); by eexists _, _.
Qed.

Lemma split_on_seps sep a b : split_on sep (a ++ sep :: b) = split_on sep a ++ split_on sep b.
Proof.
  induction a as [|c a IH]; cbn [app split_on]; [by rewrite ceq_refl|].
  rewrite IH. destruct (ceq c sep); [done|]. by destruct (split_on_head sep a) as (e & es & ->).
Qed.

Lemma split_on_cons sep a b :
  no_char sep a = true → ∃ e es, split_on sep b = e :: es ∧ split_on sep (a ++ b) = (a ++ e) :: es.
Proof.
  destruct (split_on_head sep b) as (e & es & Eb). intros Ha. exists e, es. split; [done|]. induction a as [|c a IH]; [done|].
  cbn in Ha. apply andb_true_iff in Ha as [Hc Ha]. cbn [app split_on]. rewrite IH by done.
  rewrite ceq_sym. by destruct (ceq sep c).
Qed.

(** A file whose name merely begins with that of a directory is not in it. *)
Lemma neighbour_outside parent name t from :
  no_char "/" name = true → name ∉ [[]; lit "."; lit ".."] → t ≠ [] → starts_with (lit "/") t = false →
  find t (lit "..") 0 = None →
  ¬ resolve from (components (parent ++ lit "/" ++ name)) `prefix_of`
    resolve from (components (parent ++ lit "/" ++ name ++ t)).
Proof.
  intros Hname Hn Ht Hrel Hdots. unfold components.
  change (lit "/" ++ name) with ("/"%char :: name). change (lit "/" ++ name ++ t) with ("/"%char :: name ++ t).
  destruct (split_on_cons "/" name t Hname) as (e & es & Et & En).
  destruct (split_on_cons "/" name [] Hname) as (e0 & es0 & E0 & En0).
  injection E0 as <- <-. rewrite !app_nil_r in En0.
  rewrite !split_on_seps, !resolve_app, En, En0. generalize (resolve from (split_on "/" parent)) as D. intros D.
  assert (e ≠ []) as He.
  { intros ->. destruct t as [|c t]; [done|]. cbn in Et, Hrel. unfold starts_with in Hrel. cbn in Hrel.
    rewrite ceq_sym in Hrel. destruct (ceq c "/"); [done|]. by destruct (split_on "/" t). }
  apply not_elem_of_cons in Hn as [N1 Hn]. apply not_elem_of_cons in Hn as [N2 Hn].
  apply not_elem_of_cons in Hn as [N3 _].
  assert (∀ x, x ≠ [] → x ≠ lit "." → x ≠ lit ".." → ∀ D cs, resolve D (x :: cs) = resolve (D ++ [x]) cs) as Hstep.
  { intros x X1 X2 X3 D' cs. cbn [resolve]. unfold beq. by rewrite !bool_decide_false. }
  assert (name ++ e ≠ [] ∧ name ++ e ≠ lit "." ∧ name ++ e ≠ lit "..") as (M1 & M2 & M3).
  { destruct name as [|x name]; [done|]. destruct e as [|y e]; [done|].
    split_and!; [done| |]; intros E; injection E as -> E.
    - by destruct name.
    - destruct name as [|z name]; [done|]. injection E as -> E. by destruct name. }
  rewrite !Hstep by done. cbn [resolve]. intros Hpre.
  assert (D ++ [name ++ e] `prefix_of` resolve (D ++ [name ++ e]) es) as Hpre'.
  { apply resolve_prefix. intros Hin. assert (lit ".." ∈ split_on "/" t) as Hin' by (rewrite Et; by right).
    apply split_on_piece in Hin' as (x & y & E). by eapply find_none_sub in Hdots. }
  assert (∀ x, (D ++ [x]) !! length D = Some x) as Hat by (intros x; by rewrite list_lookup_middle).
  pose proof (prefix_lookup_Some _ _ _ _ (Hat name) Hpre) as H1.
  pose proof (prefix_lookup_Some _ _ _ _ (Hat (name ++ e)) Hpre') as H2.
  rewrite H1 in H2. injection H2 as H2. apply He. rewrite <- (app_nil_r name) in H2 at 1.
  by apply app_inv_head in H2 as <-.
Qed.

Lemma safe_target t :
  isSafePath t = true → t ≠ [] ∧ find t (lit "..") 0 = None ∧ find_char t "\" 0 = None.
Proof.
  unfold isSafePath. destruct (Z.eqb_spec (len t) 0) as [|Hl]; [done|].
  destruct (find t _ 0); [by rewrite bool_decide_true by done|].
  destruct (find_char t _ 0); [by rewrite (bool_decide_true (is_Some (Some z))) by done|].
  intros _. split_and!; [by intros ->|done|done].
Qed.

Lemma file_path_below public_directory t :
  isSafePath t = true → starts_with (lit "/") t = true →
  below public_directory (getFilePath public_directory t).
Proof.
  intros (Hne & Hd & _)%safe_target Hs. unfold getFilePath, beq. case_bool_decide.
  - by apply no_dots_below.
  - by apply no_dots_below.
Qed.

(** ** The response *)

Lemma refuse_framed code why r : len why < U64 → framed (refuse code why r).
Proof.
  intros H. unfold refuse. apply setContentLength_framed. unfold payload_len. cbn.
  pose proof (len_nonneg why). lia.
Qed.

Lemma refuse_clean code why r :
  0 ≤ code < U64 → no_char CR why = true → len why < U64 → clean r → clean (refuse code why r).
Proof.
  intros Hc Hw Hl Hr. unfold refuse. apply setContentLength_clean; [|by auto 10 with aorta].
  unfold payload_len. cbn. pose proof (len_nonneg why). lia.
Qed.

Lemma content_type_clean p : no_char CR (getContentType p) = true.
Proof. unfold getContentType. by repeat case_match. Qed.

Lemma serve_well_formed p n req r :
  0 ≤ n < U64 → clean r →
  let r' := serve p n req r in
  clean r' ∧ framed r' ∧ file_path r' = p ∧ file_size r' = n ∧ HttpResponse.send_file r' = true ∧
  HttpResponse.send_body r' =
    (if beq (method req) (lit "HEAD") then false else HttpResponse.send_body r).
Proof.
  intros Hn Hr. unfold serve. set (r1 := setContentLength _).
  assert (clean r1 ∧ framed r1) as [Hc Hf].
  { split; [apply setContentLength_clean; [done|]|by apply setContentLength_framed].
    auto 10 using content_type_clean with aorta. }
  destruct (beq _ _); split_and!; auto with aorta.
Qed.

Section Handling.
Context {K : Kernel} {S : Type}.
Implicit Types (s : S) (w : history) (req : HttpRequest) (r : HttpResponse).

(** [handle] always answers; each outcome with its cause. *)
Lemma handle_outcome dir req r s w :
  let path := getFilePath dir (target req) in
  let a := respond w (sys_stat (c_str path)) in
  let w' := (sys_stat (c_str path), a) :: w in
  handle dir req r s w =
  if negb (beq (method req) (lit "GET")) && negb (beq (method req) (lit "HEAD"))
  then Some (false, r, s, w)
  else if negb (isSafePath (target req)) then Some (true, refuse 403 (lit "Forbidden") r, s, w)
  else if (ret a =? -1) || negb (regular a) then Some (true, refuse 404 (lit "Not Found") r, s, w')
  else if value a mod U64 >? MAX_FILE_SIZE
  then Some (true, refuse 413 (lit "Content Too Large") r, s, w')
  else Some (true, serve path (value a mod U64) req r, s, w').
Proof.
  cbv zeta. unfold handle, bind, sys. destruct (negb _ && _); [done|].
  destruct (negb (isSafePath _)); [done|]. cbn [orb].
  destruct (ret _ =? -1); [done|]. cbn [orb]. destruct (negb (regular _)); [done|].
  by destruct (_ >? _).
Qed.

(** C13: For a target that starts with a slash, the static handler looks only at
    paths below its directory, whatever the components of the target are; it
    answers exactly GET and HEAD, every answer is well-formed, and the file it
    announces is below the directory, was found to be a regular file of the
    announced size and is no larger than the limit. *)
Theorem static_confined dir req s w :
  starts_with (lit "/") (target req) = true → no_char "000" dir = true →
  no_char "000" (target req) = true →
  ∃ handled r l, handle dir req HttpResponse.construct s w = Some (handled, r, s, l ++ w) ∧
  (handled = true ↔ method req = lit "GET" ∨ method req = lit "HEAD") ∧
  Forall (λ e, ∃ path, e.1 = sys_stat path ∧ below dir path) l ∧
  (handled = true → clean r ∧ framed r) ∧
  (hasFile r = true → below dir (file_path r) ∧ 0 ≤ file_size r ≤ MAX_FILE_SIZE ∧
    ∃ a, l = [(sys_stat (file_path r), a)] ∧ ret a ≠ -1 ∧ regular a = true ∧
      value a mod U64 = file_size r).
Proof.
  intros Hs Hd Ht. rewrite handle_outcome.
  set (path := getFilePath dir (target req)). cbv zeta. set (a := respond w _).
  assert (no_char "000" path = true) as Hpath.
  { unfold path, getFilePath. destruct (beq _ _); rewrite no_char_app, Hd; done. }
  destruct (negb _ && _) eqn:Em.
  { exists false, HttpResponse.construct, []. split; [done|]. bool_prop. split_and!; try done.
    split; [done|]. intros [E|E]; congruence. }
  assert (true = true ↔ method req = lit "GET" ∨ method req = lit "HEAD") as Hm.
  { split; [|done]. intros _.
    apply andb_false_iff in Em as [E|E]; bool_prop; [by left|by right]. }
  destruct (isSafePath (target req)) eqn:Es; cbn [negb].
  2:{ eexists true, _, []. split; [done|]. split_and!; try done. intros _.
      split; [apply refuse_clean; auto with aorta|by apply refuse_framed]. }
  pose proof (file_path_below dir _ Es Hs) as Hb. fold path in Hb.
  assert (Forall (λ e : event, ∃ p, e.1 = sys_stat p ∧ below dir p) [(sys_stat (c_str path), a)]) as Hl.
  { apply Forall_singleton. exists path. rewrite c_str_id by done. done. }
  destruct (_ || _) eqn:Ea; [|destruct (_ >? _) eqn:Ev].
  1,2: eexists true, _, [_]; split; [done|]; split_and!; try done; intros _;
    (split; [apply refuse_clean; auto with aorta|by apply refuse_framed]).
  bool_prop. assert (0 ≤ value a mod U64 < U64) as Hn by (apply Z.mod_pos_bound; done).
  destruct (serve_well_formed path _ req _ Hn construct_clean) as (Hc & Hf & Hp & Hz & _).
  eexists true, _, [_]. split; [done|]. split_and!; try done. intros _. rewrite Hp, Hz.
  split_and!; [done|lia|done|]. exists a. rewrite c_str_id by done. done.
Qed.

End Handling.

(** A file system in which every path names a regular file of 100 bytes. *)
Definition all_files : Kernel := λ _ _, MkAnswer 0 0 100 [] [] [] true nullptr.

Definition get_request (t : bytes) : HttpRequest :=
  HttpRequest.mk (lit "GET") t (lit "HTTP/1.1") [] [].

Lemma static_confined_witness :
  ∃ handled r l,
  handle (K := all_files) (lit "./public") (get_request (lit "/a/./b.css")) HttpResponse.construct () [] =
    Some (handled, r, (), l) ∧ handled = true ∧ hasFile r = true ∧
    below (lit "./public") (file_path r) ∧ file_path r = lit "./public/a/./b.css".
Proof.
  destruct (static_confined (K := all_files) (lit "./public") (get_request (lit "/a/./b.css")) () [])
    as (handled & r & l & E & Hm & _ & _ & Hf); [by vm_compute..|].
  exists handled, r, l. rewrite app_nil_r in E. pose proof E as E'. vm_compute in E'. injection E' as <- <- <-.
  split; [exact E|]. split; [done|]. split; [done|]. split; [|by vm_compute]. by apply Hf.
Defined.

(** C39: A target that does not start with a slash passes the path check, and what
    the handler then serves lies outside its directory: any regular file, small
    enough, whose path has the directory's name as a mere prefix, such as
    [./public-old/notes.txt] for the target [-old/notes.txt].  Followed from
    wherever it starts, its path does not lead through the directory. *)
Theorem relative_target_leaves_root {K : Kernel} {S} parent name req (s : S) w :
  let dir := parent ++ lit "/" ++ name in
  no_char "/" name = true → name ∉ [[]; lit "."; lit ".."] →
  method req = lit "GET" → target req ≠ [] → starts_with (lit "/") (target req) = false →
  find (target req) (lit "..") 0 = None → find_char (target req) "\" 0 = None →
  let a := respond w (sys_stat (c_str (dir ++ target req))) in
  ret a = 0 → regular a = true → 0 < value a ≤ MAX_FILE_SIZE →
  isSafePath (target req) = true ∧
  ∃ r, handle dir req HttpResponse.construct s w =
    Some (true, r, s, (sys_stat (c_str (dir ++ target req)), a) :: w) ∧
  hasFile r = true ∧ file_path r = dir ++ target req ∧
  ∀ from, ¬ resolve from (components dir) `prefix_of` resolve from (components (file_path r)).
Proof.
  intros dir Hname Hordinary Hm Hne Hrel Hdots Hback. cbv zeta.
  assert (isSafePath (target req) = true) as Hs.
  { unfold isSafePath. rewrite Hdots, Hback, !bool_decide_false by by intros [? ?].
    by destruct (Z.eqb_spec (len (target req)) 0) as [?%len_0|]. }
  rewrite handle_outcome.
  assert (getFilePath dir (target req) = dir ++ target req) as ->.
  { unfold getFilePath. destruct (beq _ _) eqn:E; [|done]. bool_prop. by rewrite E in Hrel. }
  set (a := respond w _). intros Hr Hreg Hv. split; [done|]. cbv zeta.
  assert (value a mod U64 = value a) as Hmod.
  { apply Z.mod_small. unfold MAX_FILE_SIZE, U64 in *. lia. }
  rewrite Hm, Hs, Hr, Hreg, Hmod. cbn [negb andb orb Z.eqb].
  rewrite Z.gtb_ltb, (proj2 (Z.ltb_ge _ _)) by lia.
  eexists. split; [done|].
  destruct (serve_well_formed (dir ++ target req) (value a) req HttpResponse.construct)
    as (_ & _ & Hp & _ & Hf & _); [unfold MAX_FILE_SIZE, U64 in *; lia|apply construct_clean|].
  rewrite Hp. split_and!; [|done|].
  - unfold hasFile. rewrite Hf, Hp. destruct (target req) as [|c t]; [done|].
    rewrite len_app, len_cons. pose proof (len_nonneg dir). pose proof (len_nonneg t).
    by rewrite (proj2 (Z.eqb_neq _ _)) by lia.
  - intros from. unfold dir. rewrite <- !app_assoc. by apply neighbour_outside.
Qed.

Lemma relative_target_leaves_root_witness :
  isSafePath (lit "-old/notes.txt") = true ∧
  ∃ r, handle (K := all_files) (lit "./public") (get_request (lit "-old/notes.txt"))
         HttpResponse.construct () [] =
       Some (true, r, (), [(sys_stat (lit "./public-old/notes.txt"), all_files [] sys_now)]) ∧
    hasFile r = true ∧ file_path r = lit "./public-old/notes.txt" ∧
    ∀ from, ¬ resolve from (components (lit "./public")) `prefix_of` resolve from (components (file_path r)).
Proof.
  apply (relative_target_leaves_root (K := all_files) (lit ".") (lit "public") (get_request (lit "-old/notes.txt")) () []);
    try by vm_compute. by apply (bool_decide_unpack _).
Defined.
