(* ===== verification/Stats.v ===== *)
(** * Server metrics

    [src/server/Metrics.cpp]: the counters and the latency histogram.  The
    definitions here are the member functions run without interference; what
    happens when threads interleave is in [StatsThreads]. *)

From stdpp Require Import sorting.
From Stdlib Require Import Floats.SpecFloat.
From S2P Require Import Prelude.
From S2P Require Import Numerals.

Module Metrics.

Definition LATENCY_BUCKET_COUNT : nat := 14.

Definition LATENCY_BUCKETS_US : list Z :=
  [100; 250; 500; 1000; 2000; 5000; 10000; 25000; 50000; 100000; 250000; 500000; 1000000; 5000000].

Record Metrics := mk {
  requests_total : Z;
  responses_total : Z;
  active_connections : Z;
  errors_total : Z;
  bytes_received : Z;
  bytes_sent : Z;
  latency_count : Z;
  latency_total_us : Z;
  latency_max_us : Z;
  latency_buckets : list Z
}.

#[global] Instance eta_Metrics : Eta Metrics :=
  fun m => mk (requests_total m) (responses_total m) (active_connections m) (errors_total m)
    (bytes_received m) (bytes_sent m) (latency_count m) (latency_total_us m) (latency_max_us m)
    (latency_buckets m).

#[global] Instance Metrics_eq_dec : EqDecision Metrics.
Proof. solve_decision. Defined.

Definition construct : Metrics := mk 0 0 0 0 0 0 0 0 0 (replicate LATENCY_BUCKET_COUNT 0).

Definition incrementRequests (m : Metrics) : Metrics :=
  m <| requests_total := add64 (requests_total m) 1 |>.

Definition incrementResponses (m : Metrics) : Metrics :=
  m <| responses_total := add64 (responses_total m) 1 |>.

Definition incrementActiveConnections (m : Metrics) : Metrics :=
  m <| active_connections := add64 (active_connections m) 1 |>.

(** Without interference the exchange succeeds on the value just loaded. *)
Definition decrementActiveConnections (m : Metrics) : Metrics :=
  let current := active_connections m in
  if current >? 0 then m <| active_connections := current - 1 |> else m.

Definition incrementErrors (m : Metrics) : Metrics :=
  m <| errors_total := add64 (errors_total m) 1 |>.

Definition addBytesReceived (n : Z) (m : Metrics) : Metrics :=
  m <| bytes_received := add64 (bytes_received m) n |>.

Definition addBytesSent (n : Z) (m : Metrics) : Metrics :=
  m <| bytes_sent := add64 (bytes_sent m) n |>.

(** The loop that looks for the bucket; past the last bound the last bucket is
    used. *)
Fixpoint bucket_from (bounds : list Z) (i : nat) (microseconds : Z) : nat :=
  match bounds with
  | [] => LATENCY_BUCKET_COUNT - 1
  | b :: rest => if microseconds <=? b then i else bucket_from rest (S i) microseconds
  end.

Definition bucket (microseconds : Z) : nat := bucket_from LATENCY_BUCKETS_US 0 microseconds.

Definition add_to_bucket (i : nat) (m : Metrics) : Metrics :=
  m <| latency_buckets := alter (λ n, add64 n 1) i (latency_buckets m) |>.

Definition recordLatency (microseconds : Z) (m : Metrics) : Metrics :=
  let m := m <| latency_count := add64 (latency_count m) 1 |> in
  let m := m <| latency_total_us := add64 (latency_total_us m) microseconds |> in
  let current_max := latency_max_us m in
  let m := if current_max <? microseconds then m <| latency_max_us := microseconds |> else m in
  add_to_bucket (bucket microseconds) m.

Definition getRequests (m : Metrics) : Z := requests_total m.
Definition getResponses (m : Metrics) : Z := responses_total m.
Definition getActiveConnections (m : Metrics) : Z := active_connections m.
Definition getErrors (m : Metrics) : Z := errors_total m.
Definition getBytesReceived (m : Metrics) : Z := bytes_received m.
Definition getBytesSent (m : Metrics) : Z := bytes_sent m.
Definition getLatencyCount (m : Metrics) : Z := latency_count m.
Definition getMaxLatencyUs (m : Metrics) : Z := latency_max_us m.

(** The loop of the three percentile functions. *)
Fixpoint reach (buckets bounds : list Z) (cumulative target : Z) : Z :=
  match buckets, bounds with
  | n :: buckets', b :: bounds' =>
      let cumulative := add64 cumulative n in
      if cumulative >=? target then b else reach buckets' bounds' cumulative target
  | _, _ => nth (LATENCY_BUCKET_COUNT - 1) LATENCY_BUCKETS_US 0
  end.

Definition getP50LatencyUs (m : Metrics) : Z :=
  let count := latency_count m in
  if count =? 0 then 0
  else
    let target := add64 count 1 / 2 in
    reach (latency_buckets m) LATENCY_BUCKETS_US 0 target.

Definition getP95LatencyUs (m : Metrics) : Z :=
  let count := latency_count m in
  if count =? 0 then 0
  else
    let target := add64 ((count * 95) mod U64) 99 / 100 in
    reach (latency_buckets m) LATENCY_BUCKETS_US 0 target.

Definition getP99LatencyUs (m : Metrics) : Z :=
  let count := latency_count m in
  if count =? 0 then 0
  else
    let target := add64 ((count * 99) mod U64) 99 / 100 in
    reach (latency_buckets m) LATENCY_BUCKETS_US 0 target.

(** ** Doubles

    [double] is IEEE binary64; the conversions and divisions round to nearest
    even. *)
Definition double (n : Z) : spec_float := binary_normalize 53 1024 n 0 false.

Definition divide (a b : spec_float) : spec_float := SFdiv 53 1024 a b.

(** [operator<<] of a non-negative double in the default format: six significant
    digits, correctly rounded, trailing zeros removed, with an exponent below
    10^-4 and from 10^6 on. *)
Definition round_half_even (n d : Z) : Z :=
  let q := n / d in
  let r := n mod d in
  if (2 * r <? d) || ((2 * r =? d) && Z.even q) then q else q + 1.

(** The exponent [x] with [10^x <= n/d < 10^(x+1)], searched upwards from [x]. *)
Fixpoint decimal_exponent (fuel : nat) (n d x : Z) : Z :=
  match fuel with
  | O => x
  | S fuel' => if n * 10 ^ Z.max 0 (- (x + 1)) <? d * 10 ^ Z.max 0 (x + 1) then x
               else decimal_exponent fuel' n d (x + 1)
  end.

Fixpoint strip_zeros (l : bytes) : bytes :=
  match l with
  | c :: l' => if ceq c "0" then strip_zeros l' else l
  | [] => []
  end.

(** [digits] with a point after the first [k], without trailing zeros. *)
Definition with_point (k : nat) (l : bytes) : bytes :=
  let fraction := rev (strip_zeros (rev (drop k l))) in
  take k l ++ (if len fraction =? 0 then [] else "."%char :: fraction).

Definition two_digits (n : Z) : bytes := if n <? 10 then "0"%char :: to_string n else to_string n.

Definition print_rational (n d : Z) : bytes :=
  let x := decimal_exponent 700 n d (-330) in
  let scaled := round_half_even (n * 10 ^ Z.max 0 (5 - x)) (d * 10 ^ Z.max 0 (x - 5)) in
  let '(scaled, x) := if scaled =? 1000000 then (100000, x + 1) else (scaled, x) in
  let six := to_string scaled in
  if (x <? -4) || (5 <? x) then
    with_point 1 six ++ lit "e" ++ (if x <? 0 then lit "-" ++ two_digits (- x) else lit "+" ++ two_digits x)
  else if x <? 0 then
    with_point 1 (lit "0" ++ replicate (Z.to_nat (- x - 1)) "0"%char ++ six)
  else with_point (Z.to_nat (x + 1)) six.

Definition print_double (f : spec_float) : bytes :=
  match f with
  | S754_zero _ => lit "0"
  | S754_finite _ m e => print_rational (Zpos m * 2 ^ Z.max 0 e) (2 ^ Z.max 0 (- e))
  | S754_infinity _ => lit "inf"
  | S754_nan => lit "nan"
  end.

Definition getAverageLatencyMs (m : Metrics) : spec_float :=
  let count := latency_count m in
  if count =? 0 then double 0
  else divide (divide (double (latency_total_us m)) (double count)) (double 1000).

(** The bucket lines, with the running total. *)
Fixpoint bucket_lines (buckets bounds : list Z) (cumulative : Z) : bytes :=
  match buckets, bounds with
  | n :: buckets', b :: bounds' =>
      let cumulative := add64 cumulative n in
      lit "aorta_latency_bucket{le=" ++ [QUOTE] ++ to_string b ++ lit "us" ++ [QUOTE] ++ lit "} " ++
      to_string cumulative ++ [LF] ++ bucket_lines buckets' bounds' cumulative
  | _, _ => []
  end.

Definition line (name : string) (value : bytes) : bytes := lit name ++ lit " " ++ value ++ [LF].

Definition serialize (m : Metrics) : bytes :=
  line "aorta_requests_total" (to_string (requests_total m)) ++
  line "aorta_responses_total" (to_string (responses_total m)) ++
  line "aorta_active_connections" (to_string (active_connections m)) ++
  line "aorta_errors_total" (to_string (errors_total m)) ++
  line "aorta_bytes_received_total" (to_string (bytes_received m)) ++
  line "aorta_bytes_sent_total" (to_string (bytes_sent m)) ++
  line "aorta_latency_samples_total" (to_string (latency_count m)) ++
  line "aorta_latency_sum_seconds" (print_double (divide (double (latency_total_us m)) (double 1000000))) ++
  line "aorta_latency_avg_ms" (print_double (getAverageLatencyMs m)) ++
  line "aorta_latency_p50_ms" (print_double (divide (double (getP50LatencyUs m)) (double 1000))) ++
  line "aorta_latency_p95_ms" (print_double (divide (double (getP95LatencyUs m)) (double 1000))) ++
  line "aorta_latency_p99_ms" (print_double (divide (double (getP99LatencyUs m)) (double 1000))) ++
  line "aorta_latency_max_ms" (print_double (divide (double (getMaxLatencyUs m)) (double 1000))) ++
  bucket_lines (latency_buckets m) LATENCY_BUCKETS_US 0.

End Metrics.
Import Metrics.

(** ** The histogram *)

Definition record_all (xs : list Z) : Metrics := fold_left (λ m x, recordLatency x m) xs construct.

(** The number of samples whose bucket satisfies [p]. *)
Definition samples (p : nat → bool) (xs : list Z) : nat := length (List.filter (λ x, p (bucket x)) xs).

#[global] Arguments bucket : simpl never.

Lemma samples_cons p x xs : samples p (x :: xs) = ((if p (bucket x) then 1 else 0) + samples p xs)%nat.
Proof. unfold samples. cbn. by destruct (p (bucket x)). Qed.

Lemma bucket_bound us : (bucket us < LATENCY_BUCKET_COUNT)%nat.
Proof.
  unfold bucket. assert (∀ bounds i, (i + length bounds = 14)%nat → (bucket_from bounds i us < 14)%nat) as H.
  { induction bounds as [|b bounds IH]; intros i Hi; cbn in *; [unfold LATENCY_BUCKET_COUNT; lia|].
    destruct (us <=? b); [lia|]. apply IH. lia. }
  by apply H.
Qed.

Lemma bucket_mono a b : a ≤ b → (bucket a ≤ bucket b)%nat.
Proof.
  intros Hab. unfold bucket.
  assert (∀ bounds i, (i + length bounds = 14)%nat →
    (i `min` 13 ≤ bucket_from bounds i b)%nat) as Hlow.
  { induction bounds as [|c bounds IH]; intros i Hi; cbn in *; [unfold LATENCY_BUCKET_COUNT; lia|].
    destruct (b <=? c); [lia|]. specialize (IH (S i) ltac:(lia)). lia. }
  enough (∀ bounds i, (i + length bounds = 14)%nat →
    (bucket_from bounds i a ≤ bucket_from bounds i b)%nat) as H by by apply H.
  induction bounds as [|c bounds IH]; intros i Hi; [done|]. pose proof (Hlow (c :: bounds) i Hi) as Hl.
  cbn in *. destruct (Z.leb_spec a c), (Z.leb_spec b c); try lia. apply IH. lia.
Qed.

Lemma fold_record xs m :
  len (latency_buckets m) = 14 → (∀ i n, latency_buckets m !! i = Some n → 0 ≤ n < U64) →
  0 ≤ latency_count m < U64 →
  let m' := fold_left (λ m x, recordLatency x m) xs m in
  latency_count m' = (latency_count m + len xs) mod U64 ∧
  ∀ i, latency_buckets m' !! i =
    (λ n, (n + Z.of_nat (samples (Nat.eqb i) xs)) mod U64) <$> latency_buckets m !! i.
Proof.
  cbv zeta. revert m. induction xs as [|x xs IH]; intros m Hl Hb Hc; cbn [fold_left].
  { rewrite len_nil, Z.add_0_r, Z.mod_small by done. split; [done|]. intros i.
    destruct (latency_buckets m !! i) as [n|] eqn:E; [|done]. cbn. rewrite Z.add_0_r, Z.mod_small; [done|eauto]. }
  assert (latency_count (recordLatency x m) = add64 (latency_count m) 1) as Ec.
  { unfold recordLatency. by case_match. }
  assert (latency_buckets (recordLatency x m) = alter (λ n, add64 n 1) (bucket x) (latency_buckets m)) as Eb.
  { unfold recordLatency. by case_match. }
  destruct (IH (recordLatency x m)) as [H1 H2].
  - rewrite Eb. unfold len in *. by rewrite length_alter.
  - rewrite Eb. intros i n. rewrite list_lookup_alter. case_decide.
    + intros (k & _ & ->)%fmap_Some. apply Z.mod_pos_bound. done.
    + eauto.
  - rewrite Ec. by apply Z.mod_pos_bound.
  - rewrite H1, Ec. split.
    + unfold add64. rewrite Zplus_mod_idemp_l, len_cons. f_equal. lia.
    + intros i. rewrite H2, Eb, list_lookup_alter, samples_cons.
      destruct (decide (bucket x = i)) as [<-|Hi].
      * rewrite Nat.eqb_refl, <- option_fmap_compose. apply option_fmap_ext.
        intros n. cbn. unfold add64. rewrite Zplus_mod_idemp_l. f_equal. lia.
      * by rewrite (proj2 (Nat.eqb_neq _ _)) by congruence.
Qed.

Lemma record_all_spec xs :
  len xs < U64 →
  latency_count (record_all xs) = len xs ∧
  ∀ i, (i < 14)%nat → latency_buckets (record_all xs) !! i = Some (Z.of_nat (samples (Nat.eqb i) xs)).
Proof.
  intros Hx. destruct (fold_record xs construct) as [H1 H2].
  - done.
  - intros i n. change (latency_buckets construct) with (replicate 14 0).
    intros [-> _]%lookup_replicate. done.
  - done.
  - fold (record_all xs) in H1, H2. rewrite H1, Z.add_0_l, Z.mod_small by (pose proof (len_nonneg xs); lia).
    split; [done|]. intros i Hi. rewrite H2. change (latency_buckets construct) with (replicate 14 0).
    rewrite lookup_replicate_2 by done. cbn. rewrite Z.mod_small; [done|].
    assert (samples (Nat.eqb i) xs ≤ length xs)%nat by apply filter_length_le. len_lia.
Qed.

(** ** Percentiles *)

Definition below (i : nat) (xs : list Z) : nat := samples (λ k, k <? i)%nat xs.

Lemma below_S i xs : below (S i) xs = (below i xs + samples (Nat.eqb i) xs)%nat.
Proof.
  unfold below. induction xs as [|x xs IH]; [done|]. rewrite !samples_cons, IH.
  destruct (Nat.ltb_spec (bucket x) (S i)), (Nat.ltb_spec (bucket x) i), (Nat.eqb_spec i (bucket x)); lia.
Qed.

Lemma below_le i xs : (below i xs ≤ length xs)%nat.
Proof. apply filter_length_le. Qed.

Lemma below_app i xs ys : below i (xs ++ ys) = (below i xs + below i ys)%nat.
Proof. unfold below, samples. by rewrite List.filter_app, length_app. Qed.

Lemma below_perm i xs ys : xs ≡ₚ ys → below i xs = below i ys.
Proof.
  intros H. induction H; [done| | |congruence].
  - unfold below in *. by rewrite !samples_cons, IHPermutation.
  - unfold below. rewrite !samples_cons. lia.
Qed.

(** The loop stops at the bucket in which the running total reaches the target. *)
Lemma reach_at xs bs target b j :
  length bs = 14%nat → (∀ i, (i < 14)%nat → bs !! i = Some (Z.of_nat (samples (Nat.eqb i) xs))) →
  len xs < U64 → (b < 14)%nat → (j ≤ b)%nat →
  Z.of_nat (below b xs) < target ≤ Z.of_nat (below (S b) xs) →
  reach (drop j bs) (drop j LATENCY_BUCKETS_US) (Z.of_nat (below j xs)) target =
  nth b LATENCY_BUCKETS_US 0.
Proof.
  intros Hlen Hbs Hxs Hb Hj [Hlo Hhi]. remember (b - j)%nat as d eqn:Hd. revert j Hj Hd.
  induction d as [|d IH]; intros j Hj Hd;
    (rewrite (drop_S bs _ j (Hbs j ltac:(lia))));
    (destruct (lookup_lt_is_Some_2 LATENCY_BUCKETS_US j) as [c Hc]; [by cbn; lia|]);
    rewrite (drop_S _ _ _ Hc); cbn [reach];
    (assert (add64 (Z.of_nat (below j xs)) (Z.of_nat (samples (Nat.eqb j) xs)) = Z.of_nat (below (S j) xs)) as ->;
      [unfold add64; rewrite Z.mod_small, below_S; [lia|];
       pose proof (below_le (S j) xs) as Hle; rewrite below_S in Hle; unfold len in Hxs; lia|]);
    rewrite Z.geb_leb.
  - assert (j = b) as -> by lia. rewrite (proj2 (Z.leb_le _ _)) by lia.
    symmetry. by apply nth_lookup_Some.
  - assert (below (S j) xs ≤ below b xs)%nat as Hle.
    { clear - Hd. assert (S j ≤ b)%nat as H by lia. clear Hd. induction H as [|m _ IHm]; [done|]. rewrite (below_S m). lia. }
    rewrite (proj2 (Z.leb_gt _ _)) by lia. apply IH; lia.
Qed.

(** The samples in increasing order. *)
Definition sorted (xs : list Z) : list Z := merge_sort Z.le xs.

(** The [k]-th smallest sample decides. *)
Lemma below_rank xs k y :
  (0 < k)%nat → sorted xs !! (k - 1)%nat = Some y →
  (below (bucket y) xs < k)%nat ∧ (k ≤ below (S (bucket y)) xs)%nat.
Proof.
  intros Hk Hy. assert (sorted xs ≡ₚ xs) as Hp by apply merge_sort_Permutation.
  assert (StronglySorted Z.le (sorted xs)) as Hs.
  { apply StronglySorted_merge_sort; [apply _|]. intros a b. lia. }
  rewrite <- !(below_perm _ _ _ Hp). set (ys := sorted xs) in *. clearbody ys.
  rewrite <- (take_drop_middle _ _ _ Hy) in Hs |- *.
  apply StronglySorted_app in Hs as (Hlow & _ & H2).
  apply StronglySorted_inv in H2 as [_ H2]. rewrite !below_app. unfold below at 2 4. rewrite !samples_cons.
  assert (length (take (k - 1) ys) = k - 1)%nat as Hl.
  { apply length_take_le. apply lookup_lt_Some in Hy. lia. }
  split.
  - rewrite Nat.ltb_irrefl. pose proof (below_le (bucket y) (take (k - 1) ys)).
    enough (samples (λ j, j <? bucket y)%nat (drop (S (k - 1)) ys) = 0)%nat by lia.
    clear - H2. induction H2 as [|z l Hz _ IH]; [done|]. rewrite samples_cons, IH.
    apply bucket_mono in Hz. by rewrite (proj2 (Nat.ltb_ge _ _)).
  - rewrite (proj2 (Nat.ltb_lt _ _)) by lia.
    enough (below (S (bucket y)) (take (k - 1) ys) = k - 1)%nat by lia. rewrite <- Hl at 2.
    assert (Forall (λ z, z ≤ y) (take (k - 1) ys)) as Hf.
    { apply Forall_forall. intros z Hz. apply Hlow; [done|by left]. }
    unfold below. clear - Hf. induction Hf as [|z l Hz _ IH]; [done|]. rewrite samples_cons, IH.
    apply bucket_mono in Hz. rewrite (proj2 (Nat.ltb_lt _ _)) by lia. done.
Qed.

(** Every percentile function is the loop with the target [ceil(n * q / 100)]. *)
Lemma percentile_at xs k :
  len xs < U64 → (0 < k ≤ length xs)%nat →
  reach (latency_buckets (record_all xs)) LATENCY_BUCKETS_US 0 (Z.of_nat k) =
  nth (bucket (nth (k - 1) (sorted xs) 0)) LATENCY_BUCKETS_US 0.
Proof.
  intros Hx Hk. destruct (record_all_spec xs Hx) as [_ Hb].
  assert (length (sorted xs) = length xs) as Hl by apply Permutation_length, merge_sort_Permutation.
  destruct (lookup_lt_is_Some_2 (sorted xs) (k - 1)) as [y Hy]; [lia|].
  pose proof (below_rank xs k y ltac:(lia) Hy) as [Hlo Hhi].
  rewrite (nth_lookup_Some _ _ 0 _ Hy).
  pose proof (reach_at xs (latency_buckets (record_all xs)) (Z.of_nat k) (bucket y) 0) as H.
  assert (below 0 xs = 0%nat) as H0.
  { unfold below. clear. induction xs as [|x xs IH]; [done|]. by rewrite samples_cons, IH. }
  rewrite !drop_0, H0 in H. apply H; [|done|done|apply bucket_bound|lia|lia].
  assert (length (latency_buckets (record_all xs)) = 14%nat) as E; [|done].
  unfold record_all. clear. generalize (eq_refl : length (latency_buckets construct) = 14%nat).
  generalize construct. induction xs as [|x xs IH]; intros m Hm; [done|]. cbn [fold_left]. apply IH.
  unfold recordLatency, add_to_bucket. case_match; cbn; by rewrite length_alter.
Qed.

(** C25: After any sequence of fewer than 2^57 recorded latencies, each
    percentile is the upper bound of the bucket that holds the sample of rank
    [ceil(n * q / 100)] in increasing order (so it never understates that sample,
    unless the sample exceeds the last bound, which then is reported); with no
    samples it is 0. *)
Theorem percentiles_exact xs :
  len xs < 2 ^ 57 →
  let rank q := Z.to_nat ((len xs * q + 99) / 100) in
  let at_rank q := nth (rank q - 1) (sorted xs) 0 in
  let m := record_all xs in
  (xs = [] → getP50LatencyUs m = 0 ∧ getP95LatencyUs m = 0 ∧ getP99LatencyUs m = 0) ∧
  (xs ≠ [] →
    getP50LatencyUs m = nth (bucket (at_rank 50)) LATENCY_BUCKETS_US 0 ∧
    getP95LatencyUs m = nth (bucket (at_rank 95)) LATENCY_BUCKETS_US 0 ∧
    getP99LatencyUs m = nth (bucket (at_rank 99)) LATENCY_BUCKETS_US 0).
Proof.
  intros Hx. cbv zeta. destruct (record_all_spec xs ltac:(unfold U64; lia)) as [Hc _].
  split; [by intros ->|]. intros Hne.
  assert (0 < len xs) as Hpos by (destruct xs; [done|len_lia]).
  assert (∀ q, 0 < q ≤ 99 → 0 < (len xs * q + 99) / 100 ≤ len xs) as Hq.
  { intros q Hq. split; [apply Z.div_str_pos; nia|]. apply Z.lt_succ_r, Z.div_lt_upper_bound; nia. }
  assert (∀ q t, 0 < q ≤ 99 → t = (len xs * q + 99) / 100 →
    reach (latency_buckets (record_all xs)) LATENCY_BUCKETS_US 0 t =
    nth (bucket (nth (Z.to_nat ((len xs * q + 99) / 100) - 1) (sorted xs) 0)) LATENCY_BUCKETS_US 0) as H.
  { intros q t Hq1 ->. pose proof (Hq q Hq1).
    rewrite <- percentile_at by (unfold U64; len_lia). f_equal. lia. }
  unfold getP50LatencyUs, getP95LatencyUs, getP99LatencyUs. rewrite Hc, (proj2 (Z.eqb_neq _ _)) by lia.
  assert (2 ^ 57 * 100 < U64) as Hmax by by vm_compute.
  unfold add64. rewrite !(Z.mod_small (len xs * _)), !Z.mod_small by lia.
  split_and!; apply H; try lia. div_lia.
Qed.

Lemma percentiles_exact_witness :
  let m := record_all [700; 90; 6000000; 80; 1500] in
  getP50LatencyUs m = 1000 ∧ getP95LatencyUs m = 5000000 ∧ sorted [700; 90; 6000000; 80; 1500] = [80; 90; 700; 1500; 6000000].
Proof.
  destruct (percentiles_exact [700; 90; 6000000; 80; 1500]) as [_ H]; [by vm_compute|].
  destruct H as (E1 & E2 & _); [done|]. cbv zeta. rewrite E1, E2. by vm_compute.
Defined.
