(* ===== verification/StatsThreads.v ===== *)
(** * Metrics under interference

    The reactors share one [Metrics] object.  Each member function is a sequence
    of atomic operations; threads interleave between any two of them.  The
    compare-and-exchange loops of [src/server/Metrics.cpp] are run one attempt at
    a time, and an attempt may fail spuriously. *)

From S2P Require Import Prelude.
From S2P Require Import Stats.
Import Metrics.

(** ** Threads *)

Inductive Call :=
| IncRequests | IncResponses | IncActive | DecActive | IncErrors
| AddReceived (n : Z) | AddSent (n : Z) | Record_ (us : Z).

(** Where a thread is inside a member function: at the loop of
    [decrementActiveConnections] with its local [current], or in
    [recordLatency] before adding to the total, before loading the maximum, at
    the loop with its local [current_max], before adding to the bucket. *)
Inductive Pc :=
| Idle
| DecLoop (current : Z)
| RecTotal (us : Z) | RecLoad (us : Z) | RecLoop (us current_max : Z) | RecBucket (us : Z).

Record Thread := { pc : Pc; script : list Call }.

(** The first atomic operation of a call. *)
Definition enter (c : Call) (m : Metrics) : Pc * Metrics :=
  match c with
  | IncRequests => (Idle, incrementRequests m)
  | IncResponses => (Idle, incrementResponses m)
  | IncActive => (Idle, incrementActiveConnections m)
  | DecActive => (DecLoop (active_connections m), m)
  | IncErrors => (Idle, incrementErrors m)
  | AddReceived n => (Idle, addBytesReceived n m)
  | AddSent n => (Idle, addBytesSent n m)
  | Record_ us => (RecTotal us, m <| latency_count := add64 (latency_count m) 1 |>)
  end.

(** The next atomic operation inside a call. *)
Inductive atomic (m : Metrics) : Pc → Pc → Metrics → Prop :=
| dec_empty current : current ≤ 0 → atomic m (DecLoop current) Idle m
| dec_exchanged current :
    0 < current → active_connections m = current →
    atomic m (DecLoop current) Idle (m <| active_connections := current - 1 |>)
| dec_failed current :
    0 < current → atomic m (DecLoop current) (DecLoop (active_connections m)) m
| rec_total us :
    atomic m (RecTotal us) (RecLoad us) (m <| latency_total_us := add64 (latency_total_us m) us |>)
| rec_load us : atomic m (RecLoad us) (RecLoop us (latency_max_us m)) m
| rec_no_max us current_max : us ≤ current_max → atomic m (RecLoop us current_max) (RecBucket us) m
| rec_exchanged us current_max :
    current_max < us → latency_max_us m = current_max →
    atomic m (RecLoop us current_max) (RecBucket us) (m <| latency_max_us := us |>)
| rec_failed us current_max :
    current_max < us → atomic m (RecLoop us current_max) (RecLoop us (latency_max_us m)) m
| rec_bucket us : atomic m (RecBucket us) Idle (add_to_bucket (bucket us) m).

Inductive step : Metrics * list Thread → Metrics * list Thread → Prop :=
| step_call m ts1 c cs ts2 :
    step (m, ts1 ++ {| pc := Idle; script := c :: cs |} :: ts2)
         ((enter c m).2, ts1 ++ {| pc := (enter c m).1; script := cs |} :: ts2)
| step_inside m ts1 p cs ts2 p' m' :
    atomic m p p' m' →
    step (m, ts1 ++ {| pc := p; script := cs |} :: ts2) (m', ts1 ++ {| pc := p'; script := cs |} :: ts2).

(** One call after the other, without interference. *)
Definition run_call (m : Metrics) (c : Call) : Metrics :=
  match c with
  | IncRequests => incrementRequests m
  | IncResponses => incrementResponses m
  | IncActive => incrementActiveConnections m
  | DecActive => decrementActiveConnections m
  | IncErrors => incrementErrors m
  | AddReceived n => addBytesReceived n m
  | AddSent n => addBytesSent n m
  | Record_ us => recordLatency us m
  end.

(** ** What is still to come *)

Inductive Counter := Requests | Responses | Active | Errors | Received | SentBytes | Count | Total
| Bucket (i : nat).

#[global] Instance Counter_eq_dec : EqDecision Counter.
Proof. solve_decision. Defined.

Definition get (c : Counter) (m : Metrics) : Z :=
  match c with
  | Requests => requests_total m
  | Responses => responses_total m
  | Active => active_connections m
  | Errors => errors_total m
  | Received => bytes_received m
  | SentBytes => bytes_sent m
  | Count => latency_count m
  | Total => latency_total_us m
  | Bucket i => nth i (latency_buckets m) 0
  end.

Definition unit_if (b : bool) : Z := if b then 1 else 0.

(** What a call contributes to a counter, and what a thread inside one still
    has to contribute. *)
Definition call_due (c : Counter) (k : Call) : Z :=
  match c, k with
  | Requests, IncRequests | Responses, IncResponses | Active, IncActive | Errors, IncErrors
  | Count, Record_ _ => 1
  | Active, DecActive => -1
  | Received, AddReceived n => n
  | SentBytes, AddSent n => n
  | Total, Record_ us => us
  | Bucket i, Record_ us => unit_if (Nat.eqb i (bucket us))
  | _, _ => 0
  end.

Definition pc_due (c : Counter) (p : Pc) : Z :=
  match c, p with
  | Active, DecLoop _ => -1
  | Total, RecTotal us => us
  | Bucket i, (RecTotal us | RecLoad us | RecLoop us _ | RecBucket us) =>
      unit_if (Nat.eqb i (bucket us))
  | _, _ => 0
  end.

Definition call_max (k : Call) : Z := match k with Record_ us => us | _ => 0 end.

Definition pc_max (p : Pc) : Z :=
  match p with RecTotal us | RecLoad us | RecLoop us _ => us | _ => 0 end.

Definition sum (l : list Z) : Z := foldr Z.add 0 l.
Definition maximum (l : list Z) : Z := foldr Z.max 0 l.

Definition script_due (c : Counter) (s : list Call) : Z := sum (call_due c <$> s).

Definition due (c : Counter) (t : Thread) : Z := pc_due c (pc t) + script_due c (script t).

Definition due_max (t : Thread) : Z := Z.max (pc_max (pc t)) (maximum (call_max <$> script t)).

(** A thread never closes more connections than it has opened: [balance] is the
    number it has open. *)
Fixpoint balanced (balance : Z) (s : list Call) : Prop :=
  match s with
  | [] => 0 ≤ balance
  | IncActive :: s' => balanced (balance + 1) s'
  | DecActive :: s' => 0 < balance ∧ balanced (balance - 1) s'
  | _ :: s' => balanced balance s'
  end.

Definition opens (s : list Call) : Z := len (List.filter (λ k, match k with IncActive => true | _ => false end) s).

Definition calls_of (ts : list Thread) : list Call := concat (script <$> ts).

(** The state of a thread that has [b] connections open, given the maximum so
    far. *)
Definition thread_ok (max : Z) (t : Thread) (b : Z) : Prop :=
  0 ≤ b ∧
  match pc t with
  | DecLoop current => 0 < b ∧ 0 < current ∧ balanced (b - 1) (script t)
  | RecLoop us current_max => current_max ≤ max ∧ balanced b (script t)
  | _ => balanced b (script t)
  end.

Definition valid_counter (c : Counter) : Prop := match c with Bucket i => (i < 14)%nat | _ => True end.

Record consistent (total : Counter → Z) (top limit : Z) (m : Metrics) (ts : list Thread) (bs : list Z) : Prop := {
  co_counters c : valid_counter c → get c m = (total c - sum (due c <$> ts)) mod U64;
  co_max : Z.max (latency_max_us m) (maximum (due_max <$> ts)) = top;
  co_max_nonneg : 0 ≤ latency_max_us m;
  co_threads : Forall2 (thread_ok (latency_max_us m)) ts bs;
  co_active : active_connections m = sum bs;
  co_bound : sum bs + opens (calls_of ts) ≤ limit;
  co_limit : limit < U64;
  co_buckets : length (latency_buckets m) = 14%nat
}.

Lemma sum_cons x l : sum (x :: l) = x + sum l.
Proof. done. Qed.

Lemma maximum_cons x l : maximum (x :: l) = Z.max x (maximum l).
Proof. done. Qed.

Lemma sum_app l k : sum (l ++ k) = sum l + sum k.
Proof. unfold sum. induction l as [|x l IH]; [done|]. cbn. rewrite IH. lia. Qed.

Lemma maximum_app l k : maximum (l ++ k) = Z.max (maximum l) (maximum k).
Proof.
  unfold maximum. induction l as [|x l IH]; cbn; [|rewrite IH; lia].
  induction k as [|y k IHk]; cbn; lia.
Qed.

Lemma maximum_nonneg l : 0 ≤ maximum l.
Proof. unfold maximum. induction l; cbn; lia. Qed.

Lemma opens_app s k : opens (s ++ k) = opens s + opens k.
Proof. unfold opens. rewrite List.filter_app. by rewrite len_app. Qed.

Lemma nth_alter i j f (l : list Z) :
  (i < length l)%nat → nth i (alter f j l) 0 = if decide (j = i) then f (nth i l 0) else nth i l 0.
Proof.
  intros [x Hx]%lookup_lt_is_Some_2. rewrite (nth_lookup_Some l i 0 x) by done.
  destruct (decide (j = i)) as [->|E]; apply nth_lookup_Some; rewrite list_lookup_alter;
    [by rewrite decide_True, Hx|by rewrite decide_False].
Qed.

Lemma bucket_due i us (l : list Z) :
  (i < length l)%nat → Forall (λ n, 0 ≤ n < U64) l →
  nth i (alter (λ n, add64 n 1) (bucket us) l) 0 = (nth i l 0 + unit_if (Nat.eqb i (bucket us))) mod U64.
Proof.
  intros Hi Hl. rewrite nth_alter by done. destruct (decide (bucket us = i)) as [<-|Hne].
  - by rewrite Nat.eqb_refl.
  - rewrite (proj2 (Nat.eqb_neq _ _)) by congruence. cbn [unit_if]. rewrite Z.add_0_r, Z.mod_small; [done|].
    rewrite Forall_forall in Hl. apply Hl. destruct (lookup_lt_is_Some_2 _ _ Hi) as [x Hx].
    rewrite (nth_lookup_Some _ _ _ _ Hx). by eapply list_elem_of_lookup_2.
Qed.

Definition in_range (m : Metrics) : Prop :=
  (∀ c, valid_counter c → 0 ≤ get c m < U64) ∧ length (latency_buckets m) = 14%nat.

Lemma in_range_buckets m : in_range m → Forall (λ n, 0 ≤ n < U64) (latency_buckets m).
Proof.
  intros [H Hl]. apply Forall_lookup_2. intros i n Hi. pose proof (lookup_lt_Some _ _ _ Hi).
  pose proof (H (Bucket i) ltac:(cbn; lia)) as Hr. cbn in Hr. by rewrite (nth_lookup_Some _ _ _ _ Hi) in Hr.
Qed.

Lemma get_construct c : valid_counter c → get c construct = 0.
Proof.
  destruct c; try done. intros Hi. apply nth_lookup_Some, lookup_replicate_2. exact Hi.
Qed.

(** The effect of the first operation of a call and of the next one inside. *)
Lemma enter_delta c m k :
  in_range m → valid_counter c →
  get c (enter k m).2 = (get c m + (call_due c k - pc_due c (enter k m).1)) mod U64.
Proof.
  intros Hm Hc. pose proof (proj1 Hm c Hc) as Hr.
  destruct k, c; cbn in *; unfold add64; f_equal; try lia; rewrite Z.mod_small; lia.
Qed.

Lemma atomic_delta c m p p' m' :
  in_range m → valid_counter c → atomic m p p' m' → (∀ current, p = DecLoop current → 0 < current) →
  get c m' = (get c m + (pc_due c p - pc_due c p')) mod U64.
Proof.
  intros Hm Hc Ha Hdec. pose proof (proj1 Hm c Hc) as Hr. pose proof (proj2 Hm) as Hl.
  destruct Ha; try specialize (Hdec _ eq_refl); try lia;
    destruct c; cbn in *; unfold add64; try (rewrite Z.mod_small; lia); try (f_equal; lia).
  rewrite bucket_due; [f_equal; lia|lia|by apply in_range_buckets].
Qed.

Lemma thread_ok_mono max max' t b : max ≤ max' → thread_ok max t b → thread_ok max' t b.
Proof. unfold thread_ok. intros Hle [H1 H2]. split; [done|]. destruct (pc t); try done. split; [lia|apply H2]. Qed.

Lemma sum_middle (l : list Z) x k : sum (l ++ x :: k) = sum l + x + sum k.
Proof. rewrite sum_app. change (sum (x :: k)) with (x + sum k). lia. Qed.

Lemma consistent_in_range total top limit m ts bs : consistent total top limit m ts bs → in_range m.
Proof.
  intros H. split; [|apply (co_buckets _ _ _ _ _ _ H)]. intros c Hc. rewrite (co_counters _ _ _ _ _ _ H) by done.
  by apply Z.mod_pos_bound.
Qed.

(** One thread moves. *)
Lemma consistent_replace total top limit m ts1 t ts2 bs1 b bs2 m' t' b' :
  consistent total top limit m (ts1 ++ t :: ts2) (bs1 ++ b :: bs2) → length ts1 = length bs1 →
  (∀ c, valid_counter c → get c m' = (get c m + (due c t - due c t')) mod U64) →
  Z.max (latency_max_us m') (due_max t') = Z.max (latency_max_us m) (due_max t) →
  latency_max_us m ≤ latency_max_us m' → thread_ok (latency_max_us m') t' b' →
  active_connections m' = active_connections m + (b' - b) →
  b' + opens (script t') ≤ b + opens (script t) → length (latency_buckets m') = 14%nat →
  consistent total top limit m' (ts1 ++ t' :: ts2) (bs1 ++ b' :: bs2).
Proof.
  intros [Hc Hmax Hnn Hts Ha Hb Hlim Hl] Hlen Hdelta Hm Hle Ht' Ha' Ho Hl'. split; try done; try lia.
  - intros c Hv. rewrite Hdelta, Hc by done. rewrite !fmap_app, !fmap_cons, !sum_middle.
    rewrite Zplus_mod_idemp_l. f_equal. lia.
  - rewrite <- Hmax, !fmap_app, !fmap_cons, !maximum_app. unfold maximum at 2 4. cbn. fold (maximum (due_max <$> ts2)).
    pose proof (maximum_nonneg (due_max <$> ts2)). lia.
  - apply Forall2_app_inv in Hts as [H1 H2]; [|done]. apply Forall2_cons in H2 as [_ H2].
    apply Forall2_app; [|constructor; [done|]]; (eapply Forall2_impl; [done|]; intros; by eapply thread_ok_mono).
  - rewrite Ha', Ha, !sum_middle. lia.
  - revert Hb. unfold calls_of. rewrite !fmap_app, !fmap_cons, !concat_app, !sum_middle. cbn [concat].
    rewrite !opens_app. lia.
Qed.

Lemma due_split c p s : due c {| pc := p; script := s |} = pc_due c p + script_due c s.
Proof. done. Qed.

Lemma script_due_cons c k s : script_due c (k :: s) = call_due c k + script_due c s.
Proof. done. Qed.

Lemma opens_cons k s : opens (k :: s) = unit_if (match k with IncActive => true | _ => false end) + opens s.
Proof. unfold opens. cbn. destruct k; cbn [unit_if]; rewrite ?len_cons; lia. Qed.

Lemma opens_nonneg s : 0 ≤ opens s.
Proof. apply len_nonneg. Qed.

Lemma sum_Forall2_nonneg max ts bs : Forall2 (thread_ok max) ts bs → 0 ≤ sum bs.
Proof. induction 1 as [|t b ts bs [H _] _ IH]; [done|]. unfold sum in *. cbn. lia. Qed.

Definition balance_after (k : Call) (b : Z) : Z := match k with IncActive => b + 1 | _ => b end.

Lemma step_consistent total top limit m ts bs m' ts' :
  consistent total top limit m ts bs → step (m, ts) (m', ts') → ∃ bs', consistent total top limit m' ts' bs'.
Proof.
  intros Hco Hstep. pose proof (consistent_in_range _ _ _ _ _ _ Hco) as Hr.
  pose proof (co_threads _ _ _ _ _ _ Hco) as Hts. pose proof (co_active _ _ _ _ _ _ Hco) as Ha.
  pose proof (co_bound _ _ _ _ _ _ Hco) as Hb. pose proof (co_limit _ _ _ _ _ _ Hco) as Hlim. pose proof (co_buckets _ _ _ _ _ _ Hco) as Hl.
  inversion Hstep as [m0 ts1 k cs ts2 Hm Hm'|m0 ts1 p cs ts2 p' m1 Hat Hm Hm']; subst; clear Hstep;
    apply Forall2_app_inv_l in Hts as (bs1 & bs2' & H1 & H2 & ->);
    apply Forall2_cons_inv_l in H2 as (b & bs2 & [Hb0 Ht] & H2 & ->);
    pose proof (Forall2_length _ _ _ H1) as Hlen;
    pose proof (sum_Forall2_nonneg _ _ _ H1); pose proof (sum_Forall2_nonneg _ _ _ H2);
    rewrite sum_middle in Ha; cbn [pc script] in Ht.
  - unfold calls_of in Hb. rewrite fmap_app, fmap_cons, concat_app, sum_middle in Hb. cbn [concat script] in Hb.
    rewrite !opens_app, opens_cons in Hb.
    pose proof (opens_nonneg cs). pose proof (opens_nonneg (concat (script <$> ts1))).
    pose proof (opens_nonneg (concat (script <$> ts2))).
    exists (bs1 ++ balance_after k b :: bs2). eapply consistent_replace; try done.
    + intros c Hc. rewrite (enter_delta c m k Hr Hc), !due_split, script_due_cons. cbn [pc_due]. f_equal.
      assert (pc_due c Idle = 0) as -> by by destruct c. lia.
    + unfold due_max. destruct k; cbn [enter fst snd pc script call_max pc_max fmap list_fmap latency_max_us set_with];
        pose proof (maximum_nonneg (call_max <$> cs)); unfold maximum in *; cbn; lia.
    + destruct k; cbn; lia.
    + destruct k; cbn in Ht |- *; split; cbn; try lia; try done. destruct Ht as [? ?]. split_and!; [lia|lia|done].
    + destruct k; cbn in *; unfold add64; try lia. rewrite Z.mod_small; lia.
    + cbn [script]. rewrite opens_cons. destruct k; cbn; lia.
    + by destruct k.
  - assert (∀ current, p = DecLoop current → 0 < current) as Hdec by (intros ? ->; apply Ht).
    exists (bs1 ++ (b + (get Active m' - get Active m)) :: bs2). eapply consistent_replace; try done.
    + intros c Hc. rewrite (atomic_delta c m p p' m' Hr Hc Hat Hdec), !due_split. f_equal. lia.
    + unfold due_max. pose proof (maximum_nonneg (call_max <$> cs)).
      unfold maximum in *. destruct Hat; cbn in *; try (destruct Ht as [Ht _]); lia.
    + destruct Hat; cbn in *; lia.
    + destruct Hat; cbn in *; try specialize (Hdec _ eq_refl); split; cbn; try lia;
        rewrite ?Z.sub_diag, ?Z.add_0_r; try done; try (by split; [lia|apply Ht]);
        try apply (proj2 Ht).
      * replace (b + (current - 1 - active_connections m)) with (b - 1) by lia. apply Ht.
      * destruct Ht as (? & ? & ?). split_and!; [lia|lia|done].
    + cbn. lia.
    + cbn [script]. destruct Hat; cbn in *; try specialize (Hdec _ eq_refl); lia.
    + destruct Hat; cbn; try done. by rewrite length_alter.
Qed.

(** ** Without interference *)

Lemma run_call_delta c m k :
  in_range m → valid_counter c → (k = DecActive → 0 < active_connections m) →
  get c (run_call m k) = (get c m + call_due c k) mod U64.
Proof.
  intros Hm Hc Hdec. pose proof (proj1 Hm c Hc) as Hr. pose proof (proj2 Hm) as Hl.
  destruct k; try specialize (Hdec eq_refl);
    try (destruct c; cbn in *; unfold add64; f_equal; try lia; rewrite Z.mod_small; lia).
  - cbn [run_call]. unfold decrementActiveConnections. rewrite Z.gtb_ltb, (proj2 (Z.ltb_lt _ _)) by done.
    destruct c; cbn in *; rewrite Z.mod_small; lia.
  - cbn [run_call]. unfold recordLatency. cbv zeta. cbn [latency_max_us set_with].
    destruct c; destruct (_ <? us); cbn in *; unfold add64; try (f_equal; lia);
      try (rewrite Z.mod_small; lia).
    all: rewrite bucket_due; [done|lia|by apply in_range_buckets].
Qed.

Lemma run_call_range m k : in_range m → (k = DecActive → 0 < active_connections m) → in_range (run_call m k).
Proof.
  intros Hm Hdec. split.
  - intros c Hc. rewrite run_call_delta by done. by apply Z.mod_pos_bound.
  - destruct Hm as [_ Hl]. destruct k; cbn; try done.
    + unfold decrementActiveConnections. by case_match.
    + unfold recordLatency. case_match; cbn; by rewrite length_alter.
Qed.

Lemma run_call_max m k :
  0 ≤ latency_max_us m → latency_max_us (run_call m k) = Z.max (latency_max_us m) (call_max k).
Proof.
  intros H. destruct k; cbn [run_call call_max]; try (cbn; lia).
  - unfold decrementActiveConnections. case_match; cbn; lia.
  - unfold recordLatency. cbv zeta. cbn [latency_max_us set_with].
    destruct (Z.ltb_spec (latency_max_us m) us); cbn; lia.
Qed.

Record runs_to (s : list Call) (m m' : Metrics) : Prop := {
  rt_range : in_range m';
  rt_counters c : valid_counter c → get c m' = (get c m + script_due c s) mod U64;
  rt_max : latency_max_us m' = Z.max (latency_max_us m) (maximum (call_max <$> s));
  rt_active : active_connections m' ≤ active_connections m + opens s
}.

Lemma run_script s m b :
  in_range m → 0 ≤ latency_max_us m → balanced b s → 0 ≤ b ≤ active_connections m →
  active_connections m + opens s < U64 → runs_to s m (fold_left run_call s m).
Proof.
  revert m b. induction s as [|k s IH]; intros m b Hm Hmax Hbal Hb Ho.
  { split; cbn; try done; [|lia|change (opens []) with 0; lia]. intros c Hc. unfold script_due. cbn.
    rewrite Z.add_0_r, Z.mod_small; [done|by apply Hm]. }
  assert (k = DecActive → 0 < active_connections m) as Hdec by (intros ->; cbn in Hbal; lia).
  rewrite opens_cons in Ho. pose proof (opens_nonneg s).
  pose proof (run_call_delta Active m k Hm I Hdec) as Ha. cbn [get] in Ha.
  assert (active_connections (run_call m k) = active_connections m + call_due Active k) as Ha'.
  { rewrite Ha. apply Z.mod_small. destruct k; cbn in *; lia. }
  destruct (IH (run_call m k) (b + call_due Active k)) as [R C M A].
  - by apply run_call_range.
  - rewrite run_call_max by done. lia.
  - destruct k; cbn in *; rewrite ?Z.add_0_r; try done. replace (b + -1) with (b - 1) by lia. apply Hbal.
  - destruct k; cbn in *; lia.
  - destruct k; cbn in *; lia.
  - cbn [fold_left]. split; [done| | |].
    + intros c Hc. rewrite C, run_call_delta, script_due_cons by done. rewrite Zplus_mod_idemp_l. f_equal. lia.
    + rewrite M, run_call_max by done.
      rewrite fmap_cons, maximum_cons. lia.
    + rewrite opens_cons. destruct k; cbn in *; lia.
Qed.

Lemma runs_to_trans s k m m1 m2 : runs_to s m m1 → runs_to k m1 m2 → runs_to (s ++ k) m m2.
Proof.
  intros [R1 C1 M1 A1] [R2 C2 M2 A2]. split; [done| | |].
  - intros c Hc. rewrite C2, C1 by done. unfold script_due. rewrite fmap_app, sum_app, Zplus_mod_idemp_l.
    f_equal. lia.
  - rewrite M2, M1, fmap_app, maximum_app. lia.
  - rewrite opens_app. lia.
Qed.

Lemma run_scripts ts m :
  in_range m → 0 ≤ latency_max_us m → Forall (λ t, balanced 0 (script t)) ts →
  active_connections m + opens (calls_of ts) < U64 →
  runs_to (calls_of ts) m (fold_left run_call (calls_of ts) m).
Proof.
  intros Hm Hmax Hts. revert m Hm Hmax. induction Hts as [|t ts Ht _ IH]; intros m Hm Hmax Ho.
  { split; cbn; try done; [|lia|change (opens []) with 0; lia]. intros c Hc. unfold script_due. cbn.
    rewrite Z.add_0_r, Z.mod_small; [done|by apply Hm]. }
  change (calls_of (t :: ts)) with (script t ++ calls_of ts) in *. rewrite opens_app in Ho.
  pose proof (opens_nonneg (calls_of ts)). pose proof (proj1 Hm Active I) as Ha. cbn in Ha.
  pose proof (run_script (script t) m 0 Hm Hmax Ht ltac:(lia) ltac:(lia)) as Hr.
  rewrite fold_left_app. eapply runs_to_trans; [done|]. destruct Hr as [R C M A]. apply IH; [done| |lia].
  rewrite M. lia.
Qed.

Lemma metrics_ext m m' :
  (∀ c, valid_counter c → get c m = get c m') → latency_max_us m = latency_max_us m' →
  length (latency_buckets m) = 14%nat → length (latency_buckets m') = 14%nat → m = m'.
Proof.
  intros Hc Hmax Hl Hl'. destruct m as [a b c d e f g h x bs], m' as [a' b' c' d' e' f' g' h' x' bs'].
  pose proof (Hc Requests I). pose proof (Hc Responses I). pose proof (Hc Active I). pose proof (Hc Errors I).
  pose proof (Hc Received I). pose proof (Hc SentBytes I). pose proof (Hc Count I). pose proof (Hc Total I).
  cbn in *. assert (bs = bs') as ->; [|by subst].
  apply nth_ext with 0 0; [lia|]. intros i Hi. apply (Hc (Bucket i)). cbn. lia.
Qed.

(** ** Interleavings *)

Definition starting (t : Thread) : Prop := pc t = Idle ∧ balanced 0 (script t).
Definition finished (t : Thread) : Prop := pc t = Idle ∧ script t = [].

Lemma due_starting c ts : Forall starting ts → sum (due c <$> ts) = script_due c (calls_of ts).
Proof.
  induction 1 as [|t ts [Hp _] _ IH]; [by destruct c|].
  change (calls_of (t :: ts)) with (script t ++ calls_of ts). unfold script_due in *.
  rewrite !fmap_app, !fmap_cons, sum_app, <- IH. unfold due at 1. rewrite Hp.
  rewrite sum_cons.
  assert (pc_due c Idle = 0) as -> by by destruct c. unfold script_due. lia.
Qed.

Lemma due_max_starting ts : Forall starting ts → maximum (due_max <$> ts) = maximum (call_max <$> calls_of ts).
Proof.
  induction 1 as [|t ts [Hp _] _ IH]; [done|].
  change (calls_of (t :: ts)) with (script t ++ calls_of ts).
  rewrite fmap_app, fmap_cons, maximum_app, <- IH. unfold due_max at 1. rewrite Hp.
  pose proof (maximum_nonneg (call_max <$> script t)). rewrite maximum_cons. cbn [pc_max]. lia.
Qed.

Lemma starting_consistent ts :
  Forall starting ts → opens (calls_of ts) < U64 →
  consistent (λ c, script_due c (calls_of ts)) (maximum (call_max <$> calls_of ts)) (opens (calls_of ts)) construct ts
    (replicate (length ts) 0).
Proof.
  intros Hts Ho. assert (sum (replicate (length ts) 0) = 0) as Hz.
  { clear. induction ts; [done|]. cbn in *. unfold sum in *. cbn. lia. }
  split; rewrite ?Hz; try done.
  - intros c Hc. rewrite due_starting, Z.sub_diag by done. by apply get_construct.
  - rewrite due_max_starting by done. pose proof (maximum_nonneg (call_max <$> calls_of ts)). cbn. lia.
  - clear Ho Hz. induction Hts as [|t ts [Hp Hb] _ IH]; [constructor|]. constructor; [|done].
    unfold thread_ok. by rewrite Hp.
Qed.

(** C24: When the reactors share one Metrics object and their threads interleave
    between any two atomic operations, with compare-and-exchange attempts failing
    for any reason, then once all calls have returned the counters, the maximum
    and every bucket of the histogram are exactly what running the calls one
    after the other would have left: nothing is lost or counted twice; and at
    every moment before, the number of active connections has not wrapped
    around, provided each thread closes only connections it has opened. *)
Theorem interleavings_exact ts m ts' :
  Forall starting ts → opens (calls_of ts) < U64 → rtc step (construct, ts) (m, ts') →
  0 ≤ active_connections m ≤ opens (calls_of ts) ∧
  (Forall finished ts' → m = fold_left run_call (calls_of ts) construct).
Proof.
  intros Hts Ho Hsteps.
  assert (∃ bs, consistent (λ c, script_due c (calls_of ts)) (maximum (call_max <$> calls_of ts))
    (opens (calls_of ts)) m ts' bs) as (bs & Hco).
  { pose proof (starting_consistent ts Hts Ho) as H0. revert H0.
    generalize (replicate (length ts) 0). clear Hts Ho. remember (construct, ts) as x eqn:Hx.
    remember (m, ts') as y eqn:Hy. 
    generalize (λ c, script_due c (calls_of ts)), (maximum (call_max <$> calls_of ts)), (opens (calls_of ts)).
    intros total top limit. revert Hx. generalize construct, ts. clear ts.
    induction Hsteps as [x|x [m1 ts1] y Hs _ IH]; intros m0 ts0 -> bs H0; simplify_eq; [by exists bs|].
    destruct (step_consistent _ _ _ _ _ _ _ _ H0 Hs) as [bs' H1]. by eapply IH. }
  split.
  - pose proof (co_active _ _ _ _ _ _ Hco). pose proof (co_bound _ _ _ _ _ _ Hco).
    pose proof (sum_Forall2_nonneg _ _ _ (co_threads _ _ _ _ _ _ Hco)).
    pose proof (opens_nonneg (calls_of ts')). lia.
  - intros Hfin.
    assert (Forall (λ t, balanced 0 (script t)) ts) as Hbal by (eapply Forall_impl; [done|]; by intros t []).
    destruct (run_scripts ts construct) as [R C M A]; [|done|done|done|].
    { split; [|done]. intros c Hc. by rewrite get_construct. }
    assert (∀ c, sum (due c <$> ts') = 0) as Hdue.
    { intros c. clear - Hfin. induction Hfin as [|t ts [Hp Hs] _ IH]; [done|]. rewrite fmap_cons, sum_cons, IH.
      unfold due. rewrite Hp, Hs. by destruct c. }
    assert (maximum (due_max <$> ts') = 0) as Hmax.
    { clear - Hfin. induction Hfin as [|t ts [Hp Hs] _ IH]; [done|]. rewrite fmap_cons, maximum_cons, IH. unfold due_max. by rewrite Hp, Hs. }
    apply metrics_ext; [| |apply (co_buckets _ _ _ _ _ _ Hco)|apply R].
    + intros c Hc. rewrite (co_counters _ _ _ _ _ _ Hco), Hdue, C by done. 
      by rewrite Z.sub_0_r, get_construct.
    + pose proof (co_max _ _ _ _ _ _ Hco) as Hm. rewrite Hmax in Hm. rewrite M, <- Hm.
      pose proof (co_max_nonneg _ _ _ _ _ _ Hco). cbn. lia.
Qed.

(** Two reactors: one records a latency while the other closes a connection;
    the first exchange on the maximum fails. *)
Definition two_threads : list Thread :=
  [{| pc := Idle; script := [IncActive; Record_ 300; DecActive] |}; {| pc := Idle; script := [Record_ 70] |}].

Lemma interleavings_exact_witness :
  ∃ m, rtc step (construct, two_threads)
    (m, [{| pc := Idle; script := [] |}; {| pc := Idle; script := [] |}]) ∧
  m = fold_left run_call (calls_of two_threads) construct ∧
  latency_max_us m = 300 ∧ active_connections m = 0 ∧ latency_count m = 2.
Proof.
  assert (∃ m, rtc step (construct, two_threads)
    (m, [{| pc := Idle; script := [] |}; {| pc := Idle; script := [] |}])) as [m Hm].
  { unfold two_threads. eexists.
    do 2 (eapply rtc_l; [apply (step_call _ [])|]). 
    do 2 (eapply rtc_l; [apply (step_inside _ []); constructor|]).
    eapply rtc_l; [apply (step_call _ [_] _ _ [])|].
    do 2 (eapply rtc_l; [apply (step_inside _ [_] _ _ []); constructor|]).
    eapply rtc_l; [apply (step_inside _ [_] _ _ []); by apply rec_exchanged|].
    eapply rtc_l; [apply (step_inside _ []); by apply rec_failed|].
    eapply rtc_l; [apply (step_inside _ []); by apply rec_exchanged|].
    eapply rtc_l; [apply (step_inside _ []); constructor|].
    eapply rtc_l; [apply (step_inside _ [_] _ _ []); constructor|].
    eapply rtc_l; [apply (step_call _ [])|].
    eapply rtc_l; [apply (step_inside _ []); by apply dec_exchanged|]. apply rtc_refl. }
  exists m. split; [done|].
  assert (Forall starting two_threads) as Hs by (unfold two_threads; repeat constructor; cbn; lia).
  destruct (interleavings_exact two_threads m _ Hs ltac:(done) Hm) as [_ H].
  rewrite H by (by repeat constructor). by vm_compute.
Defined.
