(* ===== verification/Parser.v ===== *)
(** * The incremental HTTP/1.1 parser

    [include/http/HttpParser.hpp] and [src/http/HttpParser.cpp]: the parser's
    state, one definition per arm of the state machine in [HttpParser::parse],
    and the loop that runs them. *)

From S2P Require Import Prelude Request.

Module HttpParser.
Import HttpRequest (HttpRequest, method, target, version, headers, body).

Inductive State :=
| RequestLine
| Headers
| Body
| ChunkSize
| ChunkData
| ChunkDataCRLF
| ChunkTrailers.

Inductive ParseResult :=
| NeedMoreData
| Complete
| BadRequest
| RequestLineTooLarge
| HeadersTooLarge
| TooManyHeaders
| BodyTooLarge
| UnsupportedTransferEncoding
| UnsupportedVersion.

#[global] Instance State_eq_dec : EqDecision State.
Proof. solve_decision. Defined.

#[global] Instance ParseResult_eq_dec : EqDecision ParseResult.
Proof. solve_decision. Defined.

Definition MAX_REQUEST_LINE_SIZE : Z := 8 * 1024.
Definition MAX_HEADER_LINE_SIZE : Z := 8 * 1024.
Definition MAX_HEADERS_SIZE : Z := 32 * 1024.
Definition MAX_HEADER_COUNT : Z := 100.
Definition MAX_BODY_SIZE : Z := 1024 * 1024.

Record HttpParser := mk {
  state : State;
  request : HttpRequest;
  cursor : Z;
  content_length : Z;
  headers_size : Z;
  header_count : Z;
  host_count : Z;
  chunk_size : Z;
  chunk_bytes_read : Z;
  trailer_size : Z;
  trailer_count : Z;
  has_content_length : bool;
  has_transfer_encoding : bool;
  chunked_transfer_encoding : bool
}.

#[global] Instance eta_HttpParser : Eta HttpParser := fun p =>
  mk (state p) (request p) (cursor p) (content_length p) (headers_size p)
    (header_count p) (host_count p) (chunk_size p) (chunk_bytes_read p)
    (trailer_size p) (trailer_count p) (has_content_length p)
    (has_transfer_encoding p) (chunked_transfer_encoding p).

Definition init : HttpParser :=
  mk RequestLine HttpRequest.empty 0 0 0 0 0 0 0 0 0 false false false.

(** ** Character and token checks *)

Definition equalsIgnoreCase (left right : bytes) : bool :=
  if negb (len left =? len right) then false else same_lower left right.

(** The punctuation listed by [isValidHeaderName] and [isValidMethod]. *)
Definition token_punctuation : bytes :=
  lit "!#$%&'*+-.^_`|~".

Definition token_char (c : ascii) : bool :=
  if isalnum c then true else existsb (ceq c) token_punctuation.

Definition isValidHeaderName (name : bytes) : bool :=
  if (len name =? 0) then false else forallb token_char name.

Definition isValidMethod (method : bytes) : bool :=
  if (len method =? 0) then false else forallb token_char method.

Definition isValidTarget (target : bytes) : bool :=
  if (len target =? 0) then false
  else forallb (fun c => negb ((code c <? 32) || (code c =? 127))) target.

Definition trim (value : bytes) : bytes :=
  rev (skip_while is_blank (rev (skip_while is_blank value))).

(** The digit loop of [isValidChunkSize]. *)
Fixpoint chunk_digits (l : bytes) (size : Z) : option Z :=
  match l with
  | [] => Some size
  | c :: l' =>
      if negb (isxdigit c) then None
      else
        let digit :=
          if between 48 c 57 then code c - 48
          else if between 97 c 102 then code c - 97 + 10
          else code c - 65 + 10 in
        if size >? sub64 MAX_BODY_SIZE digit / 16 then None
        else chunk_digits l' (size * 16 + digit)
  end.

(** [None] is the result [false]; the out-parameter [size] is only read when
    the result is [true]. *)
Definition isValidChunkSize (value : bytes) : option Z :=
  let chunk_value :=
    match find_char value ";" 0 with
    | Some extension => substr value 0 extension
    | None => value
    end in
  let chunk_value := trim chunk_value in
  if len chunk_value =? 0 then None else chunk_digits chunk_value 0.

(** ** One turn of the loops in [parse] *)

(** A turn either returns from [parse] or reaches a [continue] (of the outer
    loop, or of the inner loops over header and trailer lines, whose next turn
    starts in the same state). *)
Inductive outcome :=
| Return (r : ParseResult) (p : HttpParser)
| Continue (p : HttpParser).

Definition and_then (o : outcome) (k : HttpParser → outcome) : outcome :=
  match o with
  | Return r p => Return r p
  | Continue p => k p
  end.

Notation "'let*' p := o 'in' k" := (and_then o (fun p => k))
  (at level 10, p name, o at level 100, k at level 200).

Definition step_request_line (p : HttpParser) (buffer : bytes) : outcome :=
  match find buffer CRLF (cursor p) with
  | None =>
      if sub64 (len buffer) (cursor p) >? MAX_REQUEST_LINE_SIZE
      then Return RequestLineTooLarge p
      else Return NeedMoreData p
  | Some end_ =>
      if sub64 end_ (cursor p) >? MAX_REQUEST_LINE_SIZE then Return RequestLineTooLarge p
      else
        let request_line := substr buffer (cursor p) (sub64 end_ (cursor p)) in
        match find_char request_line SP 0 with
        | None => Return BadRequest p
        | Some first_space =>
        match find_char request_line SP (first_space + 1) with
        | None => Return BadRequest p
        | Some second_space =>
        match find_char request_line SP (second_space + 1) with
        | Some _ => Return BadRequest p
        | None =>
            if (first_space =? 0) || (second_space =? first_space + 1)
               || (second_space + 1 >=? len request_line)
            then Return BadRequest p
            else
              let p := p <| request := (request p)
                <| HttpRequest.method := substr request_line 0 first_space |>
                <| HttpRequest.target :=
                     substr request_line (first_space + 1)
                       (sub64 (sub64 second_space first_space) 1) |>
                <| HttpRequest.version := substr_from request_line (second_space + 1) |> |> in
              if negb (isValidMethod (method (request p))) then Return BadRequest p
              else if negb (isValidTarget (target (request p))) then Return BadRequest p
              else if negb (beq (version (request p)) (lit "HTTP/1.1"))
              then Return UnsupportedVersion p
              else Continue (p <| cursor := end_ + 2 |> <| state := Headers |>)
        end end end
  end.

(** The empty line that ends the headers. *)
Definition end_of_headers (p : HttpParser) (end_ : Z) : outcome :=
  let p := p <| cursor := end_ + 2 |> in
  if negb (host_count p =? 1) then Return BadRequest p
  else if has_transfer_encoding p && has_content_length p then Return BadRequest p
  else if has_transfer_encoding p then
    if negb (chunked_transfer_encoding p) then Return UnsupportedTransferEncoding p
    else Continue (p <| state := ChunkSize |>)
  else Continue (p <| state := Body |>).

Definition host_header (p : HttpParser) (name value : bytes) : outcome :=
  if equalsIgnoreCase name (lit "Host") then
    let p := p <| host_count := host_count p + 1 |> in
    if host_count p >? 1 then Return BadRequest p
    else if len value =? 0 then Return BadRequest p
    else Continue p
  else Continue p.

(** The digit loop of the [Content-Length] header. *)
Fixpoint length_digits (l : bytes) (length : Z) : ParseResult + Z :=
  match l with
  | [] => inr length
  | c :: l' =>
      if negb (isdigit c) then inl BadRequest
      else
        let digit := code c - 48 in
        if length >? sub64 MAX_BODY_SIZE digit / 10 then inl BodyTooLarge
        else length_digits l' (length * 10 + digit)
  end.

Definition content_length_header (p : HttpParser) (name value : bytes) : outcome :=
  if equalsIgnoreCase name (lit "Content-Length") then
    if len value =? 0 then Return BadRequest p
    else match length_digits value 0 with
         | inl r => Return r p
         | inr length =>
             if has_content_length p && negb (content_length p =? length)
             then Return BadRequest p
             else Continue (p <| content_length := length |> <| has_content_length := true |>)
         end
  else Continue p.

Definition transfer_encoding_header (p : HttpParser) (name value : bytes) : outcome :=
  if equalsIgnoreCase name (lit "Transfer-Encoding") then
    if has_transfer_encoding p then Return BadRequest p
    else if negb (equalsIgnoreCase (trim value) (lit "chunked"))
    then Return UnsupportedTransferEncoding p
    else Continue (p <| has_transfer_encoding := true |> <| chunked_transfer_encoding := true |>)
  else Continue p.

Definition header_line (p : HttpParser) (line : bytes) (end_ : Z) : outcome :=
  match find_char line ":" 0 with
  | None => Return BadRequest p
  | Some colon =>
      if colon =? 0 then Return BadRequest p
      else
        let name := substr line 0 colon in
        if negb (isValidHeaderName name) then Return BadRequest p
        else
          let value := skip_while is_blank (substr_from line (colon + 1)) in
          let* p := host_header p name value in
          let* p := content_length_header p name value in
          let* p := transfer_encoding_header p name value in
          Continue (p <| request := (request p)
                        <| HttpRequest.headers := headers (request p) ++ [(name, value)] |> |>
                      <| cursor := end_ + 2 |>)
  end.

Definition step_headers (p : HttpParser) (buffer : bytes) : outcome :=
  if cursor p >? len buffer then Return BadRequest p
  else match find buffer CRLF (cursor p) with
  | None =>
      if sub64 (len buffer) (cursor p) >? MAX_HEADER_LINE_SIZE then Return HeadersTooLarge p
      else if headers_size p + sub64 (len buffer) (cursor p) >? MAX_HEADERS_SIZE
      then Return HeadersTooLarge p
      else Return NeedMoreData p
  | Some end_ =>
      let line_size := sub64 end_ (cursor p) in
      if line_size >? MAX_HEADER_LINE_SIZE then Return HeadersTooLarge p
      else if headers_size p + line_size + 2 >? MAX_HEADERS_SIZE then Return HeadersTooLarge p
      else
        let p := p <| headers_size := headers_size p + (line_size + 2) |> in
        if end_ =? cursor p then end_of_headers p end_
        else
          let p := p <| header_count := header_count p + 1 |> in
          if header_count p >? MAX_HEADER_COUNT then Return TooManyHeaders p
          else header_line p (substr buffer (cursor p) line_size) end_
  end.

(** [request.body.append(buffer, cursor, n)]. *)
Definition append_body (r : HttpRequest) (buffer : bytes) (pos n : Z) : HttpRequest :=
  r <| HttpRequest.body := body r ++ substr buffer pos n |>.

Definition step_body (p : HttpParser) (buffer : bytes) : outcome :=
  if negb (has_content_length p) || (content_length p =? 0) then Return Complete p
  else if content_length p >? MAX_BODY_SIZE then Return BodyTooLarge p
  else if len buffer <? cursor p then Return BadRequest p
  else
    let available_body_bytes := sub64 (len buffer) (cursor p) in
    if available_body_bytes =? 0 then Return NeedMoreData p
    else
      let remaining_body_bytes := sub64 (content_length p) (len (body (request p))) in
      let bytes_to_consume :=
        if available_body_bytes >? remaining_body_bytes
        then remaining_body_bytes else available_body_bytes in
      let p := p <| request := append_body (request p) buffer (cursor p) bytes_to_consume |>
                 <| cursor := cursor p + bytes_to_consume |> in
      if len (body (request p)) <? content_length p then Return NeedMoreData p
      else Return Complete p.

Definition step_chunk_size (p : HttpParser) (buffer : bytes) : outcome :=
  match find buffer CRLF (cursor p) with
  | None =>
      if sub64 (len buffer) (cursor p) >? MAX_HEADER_LINE_SIZE then Return HeadersTooLarge p
      else Return NeedMoreData p
  | Some end_ =>
      let line_size := sub64 end_ (cursor p) in
      if line_size >? MAX_HEADER_LINE_SIZE then Return HeadersTooLarge p
      else match isValidChunkSize (substr buffer (cursor p) line_size) with
      | None => Return BadRequest p
      | Some parsed_size =>
          let p := p <| cursor := end_ + 2 |> <| chunk_size := parsed_size |>
                     <| chunk_bytes_read := 0 |> in
          Continue (p <| state := if chunk_size p =? 0 then ChunkTrailers else ChunkData |>)
      end
  end.

Definition step_chunk_data (p : HttpParser) (buffer : bytes) : outcome :=
  if len buffer <? cursor p then Return BadRequest p
  else
    let available_body_bytes := sub64 (len buffer) (cursor p) in
    let remaining_chunk_bytes := sub64 (chunk_size p) (chunk_bytes_read p) in
    if available_body_bytes =? 0 then Return NeedMoreData p
    else
      let bytes_to_consume :=
        if available_body_bytes >? remaining_chunk_bytes
        then remaining_chunk_bytes else available_body_bytes in
      if len (body (request p)) + bytes_to_consume >? MAX_BODY_SIZE then Return BodyTooLarge p
      else
        let p := p <| request := append_body (request p) buffer (cursor p) bytes_to_consume |>
                   <| cursor := cursor p + bytes_to_consume |>
                   <| chunk_bytes_read := chunk_bytes_read p + bytes_to_consume |> in
        if chunk_bytes_read p <? chunk_size p then Return NeedMoreData p
        else Continue (p <| state := ChunkDataCRLF |>).

Definition step_chunk_crlf (p : HttpParser) (buffer : bytes) : outcome :=
  if sub64 (len buffer) (cursor p) <? 2 then Return NeedMoreData p
  else if negb (beq (substr buffer (cursor p) 2) CRLF) then Return BadRequest p
  else Continue (p <| cursor := cursor p + 2 |> <| state := ChunkSize |>).

Definition trailer_line (p : HttpParser) (line : bytes) (end_ : Z) : outcome :=
  match find_char line ":" 0 with
  | None => Return BadRequest p
  | Some colon =>
      if colon =? 0 then Return BadRequest p
      else if negb (isValidHeaderName (substr line 0 colon)) then Return BadRequest p
      else Continue (p <| cursor := end_ + 2 |>)
  end.

Definition step_trailers (p : HttpParser) (buffer : bytes) : outcome :=
  match find buffer CRLF (cursor p) with
  | None =>
      if sub64 (len buffer) (cursor p) >? MAX_HEADER_LINE_SIZE then Return HeadersTooLarge p
      else if trailer_size p + sub64 (len buffer) (cursor p) >? MAX_HEADERS_SIZE
      then Return HeadersTooLarge p
      else Return NeedMoreData p
  | Some end_ =>
      let line_size := sub64 end_ (cursor p) in
      if trailer_size p + line_size + 2 >? MAX_HEADERS_SIZE then Return HeadersTooLarge p
      else
        let p := p <| trailer_size := trailer_size p + (line_size + 2) |> in
        if end_ =? cursor p then Return Complete (p <| cursor := end_ + 2 |>)
        else
          let p := p <| trailer_count := trailer_count p + 1 |> in
          if trailer_count p >? MAX_HEADER_COUNT then Return TooManyHeaders p
          else trailer_line p (substr buffer (cursor p) line_size) end_
  end.

Definition step (p : HttpParser) (buffer : bytes) : outcome :=
  match state p with
  | RequestLine => step_request_line p buffer
  | Headers => step_headers p buffer
  | Body => step_body p buffer
  | ChunkSize => step_chunk_size p buffer
  | ChunkData => step_chunk_data p buffer
  | ChunkDataCRLF => step_chunk_crlf p buffer
  | ChunkTrailers => step_trailers p buffer
  end.

(** ** [parse] and the accessors *)

Fixpoint parse_loop (fuel : nat) (p : HttpParser) (buffer : bytes)
    : option (ParseResult * HttpParser) :=
  match fuel with
  | O => None
  | S fuel' =>
      match step p buffer with
      | Return r p' => Some (r, p')
      | Continue p' => parse_loop fuel' p' buffer
      end
  end.

(** Every [continue] consumes at least one byte, so one turn per byte and one
    more is enough ([parse_total]). *)
Definition parse (p : HttpParser) (buffer : bytes) : option (ParseResult * HttpParser) :=
  parse_loop (S (length buffer)) p buffer.

Definition getRequest (p : HttpParser) : HttpRequest := request p.
Definition getState (p : HttpParser) : State := state p.
Definition getConsumedBytes (p : HttpParser) : Z := cursor p.

Definition consumeParsedBytes (p : HttpParser) : Z * HttpParser :=
  (cursor p, p <| cursor := 0 |>).

Definition reset (p : HttpParser) : HttpParser :=
  p <| state := RequestLine |> <| request := HttpRequest.empty |> <| cursor := 0 |>
    <| content_length := 0 |> <| headers_size := 0 |> <| header_count := 0 |>
    <| host_count := 0 |> <| chunk_size := 0 |> <| chunk_bytes_read := 0 |>
    <| trailer_size := 0 |> <| trailer_count := 0 |> <| has_content_length := false |>
    <| has_transfer_encoding := false |> <| chunked_transfer_encoding := false |>.

End HttpParser.
