(* ===== verification/ParserInv.v ===== *)
(** * The parser's invariant

    What holds of an [HttpParser] between two calls of [parse], that every arm
    of the state machine preserves it, and that every [continue] makes
    progress. *)

From S2P Require Import Prelude Request Parser.
Import HttpRequest (HttpRequest, method, target, version, headers, body).
Import HttpParser.

(** ** Definitions *)

Definition is_host (h : bytes * bytes) : bool := equalsIgnoreCase h.1 (lit "Host").
Definition is_length (h : bytes * bytes) : bool := equalsIgnoreCase h.1 (lit "Content-Length").
Definition is_encoding (h : bytes * bytes) : bool :=
  equalsIgnoreCase h.1 (lit "Transfer-Encoding").

Definition count_headers (f : bytes * bytes → bool) (r : HttpRequest) : Z :=
  len (List.filter f (headers r)).

(** The request line has been accepted. *)
Definition valid_start (r : HttpRequest) : Prop :=
  isValidMethod (method r) = true ∧ isValidTarget (target r) = true ∧
  version r = lit "HTTP/1.1".

(** Every [Content-Length] field of the request has the value [n]. *)
Definition lengths_agree (r : HttpRequest) (n : Z) : Prop :=
  Forall (λ h, is_length h = true → length_digits h.2 0 = inr n) (headers r).

(** What each state of the machine knows beyond the counters. *)
Definition phase_ok (p : HttpParser) : Prop :=
  let r := request p in
  let past_headers := valid_start r ∧ host_count p = 1 in
  let chunked := past_headers ∧ has_transfer_encoding p = true ∧ has_content_length p = false in
  match state p with
  | RequestLine => headers r = [] ∧ body r = []
  | Headers => valid_start r ∧ body r = []
  | Body => past_headers ∧ has_transfer_encoding p = false ∧ len (body r) ≤ content_length p
  | ChunkSize | ChunkDataCRLF | ChunkTrailers => chunked
  | ChunkData => chunked ∧ 0 ≤ chunk_bytes_read p < chunk_size p ∧ chunk_size p ≤ MAX_BODY_SIZE
  end.

(** [wf p n]: the invariant for a receive buffer of [n] bytes. *)
Record wf (p : HttpParser) (n : Z) : Prop := {
  wf_buffer : n < U64;
  wf_cursor : 0 ≤ cursor p ≤ n;
  wf_headers_size : 0 ≤ headers_size p ≤ MAX_HEADERS_SIZE;
  wf_header_count : header_count p = len (headers (request p)) ∧ header_count p ≤ MAX_HEADER_COUNT;
  wf_host_count : host_count p = count_headers is_host (request p) ∧ host_count p ≤ 1;
  wf_content_length : 0 ≤ content_length p ≤ MAX_BODY_SIZE;
  wf_no_length : has_content_length p = false → content_length p = 0;
  wf_has_length : has_content_length p = existsb is_length (headers (request p));
  wf_has_encoding : has_transfer_encoding p = existsb is_encoding (headers (request p));
  wf_chunked : chunked_transfer_encoding p = has_transfer_encoding p;
  wf_lengths : lengths_agree (request p) (content_length p);
  wf_names : Forall (λ h, isValidHeaderName h.1 = true) (headers (request p));
  wf_body : len (body (request p)) ≤ MAX_BODY_SIZE;
  wf_trailer_size : 0 ≤ trailer_size p ≤ MAX_HEADERS_SIZE;
  wf_trailer_count : 0 ≤ trailer_count p ≤ MAX_HEADER_COUNT;
  wf_no_trailer : state p ≠ ChunkTrailers → trailer_size p = 0;
  wf_phase : phase_ok p
}.

(** What [Complete] promises on top of the invariant. *)
Definition finished (p : HttpParser) : Prop :=
  valid_start (request p) ∧ host_count p = 1 ∧
  has_content_length p && has_transfer_encoding p = false ∧
  (has_transfer_encoding p = false → len (body (request p)) = content_length p).

Definition failure (r : ParseResult) : bool :=
  match r with NeedMoreData | Complete => false | _ => true end.

#[global] Arguments is_host : simpl never.
#[global] Arguments is_length : simpl never.
#[global] Arguments is_encoding : simpl never.

(** A turn from [p] on a buffer of [n] bytes keeps the invariant and, when it
    continues, has consumed input. *)
Definition sound (p : HttpParser) (n : Z) (o : outcome) : Prop :=
  match o with
  | Continue p' => wf p' n ∧ cursor p < cursor p'
  | Return NeedMoreData p' => wf p' n ∧ cursor p ≤ cursor p'
  | Return Complete p' => wf p' n ∧ cursor p ≤ cursor p' ∧ finished p'
  | Return _ _ => True
  end.

(** ** Number parsing *)

Lemma isdigit_code c : isdigit c = true → 0 ≤ code c - 48 ≤ 9.
Proof. unfold isdigit, between. intros. bool_prop. lia. Qed.

Lemma length_digits_bounds l acc n :
  0 ≤ acc ≤ MAX_BODY_SIZE → length_digits l acc = inr n → 0 ≤ n ≤ MAX_BODY_SIZE.
Proof.
  revert acc. induction l as [|c l IH]; intros acc Ha H; simpl in H; [by simplify_eq|].
  destruct (isdigit c) eqn:D; simpl in H; [|done]. apply isdigit_code in D.
  destruct (acc >? _) eqn:G in H; [done|]. bool_prop. apply IH in H; [done|].
  rewrite sub64_small in G by (unfold MAX_BODY_SIZE, U64; lia).
  unfold MAX_BODY_SIZE in *. div_lia.
Qed.

(** The value a hexadecimal digit contributes. *)
Lemma chunk_digits_bounds l acc n :
  0 ≤ acc ≤ MAX_BODY_SIZE → chunk_digits l acc = Some n → 0 ≤ n ≤ MAX_BODY_SIZE.
Proof.
  revert acc. induction l as [|c l IH]; intros acc Ha H; simpl in H; [by simplify_eq|].
  destruct (isxdigit c) eqn:D; simpl in H; [|done].
  set (d := if between 48 c 57 then _ else _) in H.
  assert (0 ≤ d ≤ 15) as Hd.
  { subst d. unfold isxdigit, isdigit in D. unfold between in *.
    repeat case_match; bool_prop; try lia. all: simpl in D; bool_prop; lia. }
  destruct (acc >? _) eqn:G in H; [done|]. bool_prop. apply IH in H; [done|].
  rewrite sub64_small in G by (unfold MAX_BODY_SIZE, U64; lia).
  unfold MAX_BODY_SIZE in *. div_lia.
Qed.

Lemma isValidChunkSize_bounds v n : isValidChunkSize v = Some n → 0 ≤ n ≤ MAX_BODY_SIZE.
Proof.
  unfold isValidChunkSize. intros H. destruct (len _ =? 0) in H; [done|].
  apply chunk_digits_bounds in H; [done|]. unfold MAX_BODY_SIZE. lia.
Qed.

(** ** Header checks *)

Lemma host_header_continue p name value p' :
  host_header p name value = Continue p' →
  p' = p <| host_count := host_count p + Z.b2z (is_host (name, value)) |> ∧
  (is_host (name, value) = true → host_count p ≤ 0 ∧ value ≠ []).
Proof.
  unfold host_header, is_host. simpl. destruct (equalsIgnoreCase _ _); intros H.
  - destruct (_ >? 1) eqn:G in H; [done|]. destruct (len value =? 0) eqn:V; [done|].
    simplify_eq. bool_prop. simpl in G. split; [done|]. intros _. split; [lia|].
    intros ->. by vm_compute in V.
  - simplify_eq. split; [|done]. destruct p'. unfold set_with. simpl. f_equal. lia.
Qed.

Lemma content_length_header_continue p name value p' :
  content_length_header p name value = Continue p' →
  if is_length (name, value) then
    ∃ n, length_digits value 0 = inr n ∧ (has_content_length p = true → content_length p = n) ∧
         p' = p <| content_length := n |> <| has_content_length := true |>
  else p' = p.
Proof.
  unfold content_length_header, is_length. simpl.
  destruct (equalsIgnoreCase _ _); intros H; [|by simplify_eq].
  destruct (len value =? 0); [done|]. destruct (length_digits value 0) as [r|n]; [done|].
  destruct (_ && _) eqn:E in H; [done|]. simplify_eq. exists n. split_and!; [done| |done].
  intros Hh. rewrite Hh in E. simpl in E. bool_prop. done.
Qed.

Lemma transfer_encoding_header_continue p name value p' :
  transfer_encoding_header p name value = Continue p' →
  if is_encoding (name, value) then
    has_transfer_encoding p = false ∧ equalsIgnoreCase (trim value) (lit "chunked") = true ∧
    p' = p <| has_transfer_encoding := true |> <| chunked_transfer_encoding := true |>
  else p' = p.
Proof.
  unfold transfer_encoding_header, is_encoding. simpl.
  destruct (equalsIgnoreCase name _); intros H; [|by simplify_eq].
  destruct (has_transfer_encoding p); [done|].
  destruct (negb _) eqn:E in H; [done|]. bool_prop. by simplify_eq.
Qed.

Lemma header_check_failure p name value r p' :
  host_header p name value = Return r p' ∨ content_length_header p name value = Return r p' ∨
  transfer_encoding_header p name value = Return r p' → failure r = true.
Proof.
  intros [H|[H|H]]; revert H.
  - unfold host_header. repeat case_match; intros; by simplify_eq.
  - unfold content_length_header. destruct (equalsIgnoreCase _ _); [|done].
    destruct (len value =? 0); [by intros; simplify_eq|].
    destruct (length_digits value 0) as [r'|n] eqn:L.
    + intros; simplify_eq. revert L. generalize 0. induction value as [|c l IH]; [done|].
      intros acc. simpl. destruct (negb _); [by intros; simplify_eq|].
      destruct (_ >? _); [by intros; simplify_eq|]. apply IH.
    + case_match; intros; by simplify_eq.
  - unfold transfer_encoding_header. repeat case_match; intros; by simplify_eq.
Qed.

Lemma header_line_failure p line end_ r p' :
  header_line p line end_ = Return r p' → failure r = true.
Proof.
  unfold header_line. destruct (find_char line ":" 0) as [colon|]; [|by intros [= <- <-]].
  destruct (colon =? 0); [by intros [= <- <-]|].
  destruct (negb _); [by intros [= <- <-]|].
  set (name := substr line 0 colon). set (value := skip_while _ _). clearbody name value.
  destruct (host_header p name value) as [|p1] eqn:H1; cbn;
    [intros [= -> ->]; eapply header_check_failure; eauto|].
  destruct (content_length_header p1 name value) as [|p2] eqn:H2; cbn;
    [intros [= -> ->]; eapply header_check_failure; eauto|].
  destruct (transfer_encoding_header p2 name value) as [|p3] eqn:H3; cbn;
    [intros [= -> ->]; eapply header_check_failure; eauto|done].
Qed.

(** The combined effect of an accepted header line. *)
Lemma header_line_continue p line end_ p' :
  header_line p line end_ = Continue p' →
  ∃ name value n te,
    isValidHeaderName name = true ∧
    (is_host (name, value) = true → host_count p ≤ 0) ∧
    (if is_length (name, value) then
       length_digits value 0 = inr n ∧ (has_content_length p = true → content_length p = n)
     else n = content_length p) ∧
    te = is_encoding (name, value) ∧
    (te = true → has_transfer_encoding p = false) ∧
    p' = p <| host_count := host_count p + Z.b2z (is_host (name, value)) |>
           <| content_length := n |>
           <| has_content_length := has_content_length p || is_length (name, value) |>
           <| has_transfer_encoding := has_transfer_encoding p || te |>
           <| chunked_transfer_encoding := chunked_transfer_encoding p || te |>
           <| request := (request p)
                <| HttpRequest.headers := headers (request p) ++ [(name, value)] |> |>
           <| cursor := end_ + 2 |>.
Proof.
  unfold header_line. destruct (find_char line ":" 0) as [colon|]; [|done].
  destruct (colon =? 0); [done|].
  set (name := substr line 0 colon). set (value := skip_while _ _).
  destruct (isValidHeaderName name) eqn:N; simpl; [|done].
  destruct (host_header p name value) as [|p1] eqn:H1; simpl; [done|].
  destruct (content_length_header p1 name value) as [|p2] eqn:H2; simpl; [done|].
  destruct (transfer_encoding_header p2 name value) as [|p3] eqn:H3; simpl; [done|].
  intros [= <-]. clearbody name value.
  apply host_header_continue in H1 as [-> Hh].
  apply content_length_header_continue in H2.
  apply transfer_encoding_header_continue in H3.
  exists name, value.
  destruct (is_length (name, value)); [destruct H2 as (n & Hn & Hc & ->)|subst p2];
    (destruct (is_encoding (name, value)); [destruct H3 as (Ht & _ & ->)|subst p3]);
    [exists n, true|exists n, false|exists (content_length p), true|exists (content_length p), false];
    split_and!; try done; try (by intros E; apply Hh in E as [? _]);
    destruct p; cbn -[is_host]; by rewrite ?orb_true_r, ?orb_false_r.
Qed.

(** ** Preservation, arm by arm *)

Lemma sound_failure p n r p' : failure r = true → sound p n (Return r p').
Proof. by destruct r. Qed.

#[export] Hint Resolve sound_failure : aorta.

Lemma sound_cursor p q n o : cursor p = cursor q → sound p n o → sound q n o.
Proof. intros E. unfold sound. by rewrite E. Qed.

(** Opens the invariant and the definition of a field update. *)
Ltac open_wf W :=
  destruct W as [Wn Wc Whs [Whc Whc'] [Who Who'] Wcl Wnl Whl Whe Wch Wla Wna Wb Wts Wtc Wtr Wph];
  unfold phase_ok in Wph.

(** Proves the fields of the invariant that an update leaves alone. *)
Ltac wf_split :=
  split; cbn; try done; try lia;
  try match goal with
    | S : state ?p = _, T : state ?p ≠ ChunkTrailers → _ |- _ → _ => intros _; apply T; by rewrite S
    | |- _ ≠ _ → _ => by intros []
    end.

Lemma wf_init n : 0 ≤ n < U64 → wf init n.
Proof.
  intros. split; try done; try (simpl; lia);
    unfold lengths_agree, MAX_HEADERS_SIZE, MAX_HEADER_COUNT, MAX_BODY_SIZE; simpl;
    repeat constructor; simpl; lia.
Qed.

Lemma step_request_line_sound p buffer :
  wf p (len buffer) → state p = RequestLine → sound p (len buffer) (step_request_line p buffer).
Proof.
  intros W S. unfold step_request_line. destruct (find buffer CRLF (cursor p)) as [e|] eqn:F.
  2:{ case_match; [done|]. simpl. split; [done|lia]. }
  pose proof (wf_cursor _ _ W) as Hc. apply find_bounds in F; [|lia].
  change (len CRLF) with 2 in F.
  repeat (case_match; [done|]); repeat (case_match; try done). subst.
  open_wf W. rewrite S in Wph. destruct Wph as [Hh Hb]. simpl in *. bool_prop.
  split; [|lia]. wf_split.
Qed.

Lemma end_of_headers_sound p (buffer : bytes) e :
  wf p (len buffer) → state p = Headers → cursor p ≤ e → e + 2 ≤ len buffer →
  sound p (len buffer) (end_of_headers p e).
Proof.
  intros W S He Hn. unfold end_of_headers.
  cbn. destruct (host_count p =? 1) eqn:Hh; [|done]. bool_prop. cbn.
  destruct (has_transfer_encoding p) eqn:T; cbn.
  - destruct (has_content_length p) eqn:L; [done|]. cbn.
    destruct (chunked_transfer_encoding p) eqn:C; cbn; [|done].
    open_wf W. rewrite S in Wph. destruct Wph as [Hs Hb].
    split; [|cbn; lia]. wf_split.
  - open_wf W. rewrite S in Wph. destruct Wph as [Hs Hb]. split; [|cbn; lia]. wf_split. split_and!; try done. rewrite Hb, len_nil. lia.
Qed.

(** Appending a header updates each derived count by the new header's share. *)
Lemma count_headers_snoc f (r : HttpRequest) h :
  count_headers f (r <| HttpRequest.headers := headers r ++ [h] |>)
  = count_headers f r + Z.b2z (f h).
Proof.
  unfold count_headers. cbn. rewrite List.filter_app, len_app. cbn. by destruct (f h).
Qed.

Lemma header_line_sound p (buffer : bytes) line e :
  wf p (len buffer) → state p = Headers → cursor p ≤ e → e + 2 ≤ len buffer →
  header_count p < MAX_HEADER_COUNT →
  sound p (len buffer) (header_line (p <| header_count := header_count p + 1 |>) line e).
Proof.
  intros W S He Hn Hcount.
  destruct (header_line _ line e) as [r p'|p'] eqn:L.
  { apply sound_failure. by eapply header_line_failure. }
  apply header_line_continue in L as (name & value & n & te & Hname & Hhost & Hlen & Hte & Htf & ->).
  open_wf W. rewrite S in Wph. destruct Wph as [Hs Hb]. cbn in Hhost, Hlen, Htf.
  split; [|cbn; lia]. wf_split.
  - rewrite len_app. change (len [(name, value)]) with 1. lia.
  - change (count_headers is_host _) with
      (count_headers is_host (request p <| HttpRequest.headers := headers (request p) ++ [(name, value)] |>)).
    rewrite count_headers_snoc. destruct (is_host (name, value)); cbn in *; [|lia].
    specialize (Hhost eq_refl). lia.
  - destruct (is_length (name, value)) eqn:I; [|by subst].
    destruct Hlen as [Hlen _]. apply length_digits_bounds in Hlen; [done|].
    unfold MAX_BODY_SIZE. lia.
  - intros [E1 E2]%orb_false_iff. rewrite E2 in Hlen. subst. auto.
  - rewrite existsb_app, <- Whl. cbn. by rewrite orb_false_r.
  - rewrite existsb_app, <- Whe, Hte. cbn. by rewrite orb_false_r.
  - by rewrite Wch.
  - unfold lengths_agree in *. cbn. apply Forall_app. split.
    + destruct (is_length (name, value)) eqn:I; [|by subst].
      destruct Hlen as [Hlen Heq]. destruct (has_content_length p) eqn:Hcl.
      * by rewrite <- Heq.
      * apply Forall_forall. intros h Hin Hh. exfalso. symmetry in Whl.
        rewrite <- not_true_iff_false, existsb_exists in Whl. apply Whl.
        exists h. by rewrite <- list_elem_of_In.
    + constructor; [|done]. intros I. rewrite I in Hlen. by destruct Hlen.
  - apply Forall_app. split; [done|]. by constructor.
  - unfold phase_ok. cbn. by rewrite S.
Qed.

Lemma step_headers_sound p buffer :
  wf p (len buffer) → state p = Headers → sound p (len buffer) (step_headers p buffer).
Proof.
  intros W S. unfold step_headers. case_match; [done|].
  destruct (find buffer CRLF (cursor p)) as [e|] eqn:F.
  2:{ repeat (case_match; [done|]). split; [done|cbn; lia]. }
  pose proof (wf_cursor _ _ W) as Hc. pose proof (wf_buffer _ _ W) as Hn.
  apply find_bounds in F; [|lia]. change (len CRLF) with 2 in F.
  rewrite sub64_small by lia.
  destruct (_ >? MAX_HEADER_LINE_SIZE); [done|].
  destruct (_ >? MAX_HEADERS_SIZE) eqn:G; [done|]. bool_prop.
  set (p1 := p <| headers_size := _ |>).
  assert (wf p1 (len buffer)) as W1.
  { pose proof (wf_headers_size _ _ W). open_wf W. subst p1. wf_split.
  }
  apply (sound_cursor p1); [done|].
  assert (state p1 = Headers) as S1 by done.
  assert (cursor p ≤ cursor p1 ≤ cursor p) as C1 by (cbn; lia).
  clearbody p1. destruct (e =? cursor p1).
  - apply end_of_headers_sound; [done|done|lia..].
  - cbn -[header_line]. destruct (_ >? MAX_HEADER_COUNT) eqn:G'; [done|]. bool_prop.
    apply header_line_sound; [done|done|lia..].
Qed.

Lemma step_body_sound p buffer :
  wf p (len buffer) → state p = Body → sound p (len buffer) (step_body p buffer).
Proof.
  intros W S. unfold step_body. pose proof (wf_phase _ _ W) as Wph.
  unfold phase_ok in Wph. rewrite S in Wph. destruct Wph as ([Hs Hh] & Ht & Hl).
  pose proof (len_nonneg (body (request p))) as H0.
  assert (wf_fin : len (body (request p)) = content_length p → finished p).
  { intros. split_and!; try done. by rewrite Ht, andb_false_r. }
  destruct (_ || _) eqn:Z0.
  { split_and!; [done|cbn; lia|]. apply wf_fin. apply orb_true_iff in Z0 as [Z0|Z0].
    - apply negb_true_iff in Z0. apply (wf_no_length _ _ W) in Z0. lia.
    - bool_prop. lia. }
  destruct (_ >? _); [done|]. destruct (_ <? _) eqn:G; [done|]. bool_prop.
  pose proof (wf_cursor _ _ W). pose proof (wf_buffer _ _ W). pose proof (wf_content_length _ _ W).
  rewrite !sub64_small by (unfold MAX_BODY_SIZE, U64 in *; lia).
  destruct (_ =? 0) eqn:A; [split; [done|lia]|]. bool_prop.
  rewrite cap_min. set (k := Z.min _ _).
  assert (0 ≤ k ≤ len buffer - cursor p ∧ k ≤ content_length p - len (body (request p)) ∧
    (k = len buffer - cursor p ∨ k = content_length p - len (body (request p)))) as Hk.
  { subst k. lia. }
  clearbody k.
  assert (len (body (request p) ++ substr buffer (cursor p) k) = len (body (request p)) + k) as Hlen.
  { rewrite len_app, len_substr; lia. }
  set (p' := p <| request := _ |> <| cursor := _ |>).
  assert (wf p' (len buffer)) as W'.
  { open_wf W. subst p'. wf_split. unfold phase_ok. cbn. rewrite S, Hlen.
    split_and!; try done; lia. }
  replace (len (body (request p'))) with (len (body (request p)) + k) by (rewrite <- Hlen; done).
  replace (content_length p') with (content_length p) by done.
  assert (cursor p ≤ cursor p') as Hcur by (subst p'; cbn; lia).
  destruct (_ <? _) eqn:Fin; bool_prop; [by split|].
  split_and!; [done..|]. subst p'. split_and!; cbn; [done..| |].
  - by rewrite Ht, andb_false_r.
  - intros _. rewrite Hlen. lia.
Qed.

Lemma step_chunk_size_sound p buffer :
  wf p (len buffer) → state p = ChunkSize → sound p (len buffer) (step_chunk_size p buffer).
Proof.
  intros W S. unfold step_chunk_size. destruct (find buffer CRLF (cursor p)) as [e|] eqn:F.
  2:{ case_match; [done|]. split; [done|lia]. }
  pose proof (wf_cursor _ _ W) as Hc. apply find_bounds in F; [|lia].
  change (len CRLF) with 2 in F. case_match; [done|].
  destruct (isValidChunkSize _) as [n|] eqn:V; [|done]. apply isValidChunkSize_bounds in V.
  open_wf W. rewrite S in Wph. split; [|cbn; lia].
  wf_split. unfold phase_ok. cbn. destruct (n =? 0) eqn:Z0; [done|]. bool_prop.
  split_and!; try done; lia || apply Wph.
Qed.

Lemma step_chunk_data_sound p buffer :
  wf p (len buffer) → state p = ChunkData → sound p (len buffer) (step_chunk_data p buffer).
Proof.
  intros W S. unfold step_chunk_data. pose proof (wf_phase _ _ W) as Wph.
  unfold phase_ok in Wph. rewrite S in Wph. destruct Wph as (Hp & Hr & Hm).
  destruct (_ <? _) eqn:G; [done|]. bool_prop.
  pose proof (wf_cursor _ _ W). pose proof (wf_buffer _ _ W).
  rewrite !sub64_small by (unfold MAX_BODY_SIZE, U64 in *; lia).
  destruct (_ =? 0) eqn:A; [split; [done|lia]|]. bool_prop.
  rewrite cap_min. set (k := Z.min _ _).
  assert (0 < k ≤ len buffer - cursor p ∧ k ≤ chunk_size p - chunk_bytes_read p) as Hk.
  { subst k. lia. }
  clearbody k. destruct (_ >? MAX_BODY_SIZE) eqn:M; [done|]. bool_prop.
  assert (len (body (request p) ++ substr buffer (cursor p) k) = len (body (request p)) + k) as Hlen.
  { rewrite len_app, len_substr; lia. }
  cbn. destruct (_ <? chunk_size p) eqn:Fin; bool_prop; (split; [|cbn; lia]);
    open_wf W; wf_split; unfold phase_ok; cbn; rewrite ?S; split_and!; try done; lia || apply Hp.
Qed.

Lemma step_chunk_crlf_sound p buffer :
  wf p (len buffer) → state p = ChunkDataCRLF → sound p (len buffer) (step_chunk_crlf p buffer).
Proof.
  intros W S. unfold step_chunk_crlf. pose proof (wf_cursor _ _ W). pose proof (wf_buffer _ _ W).
  rewrite sub64_small by lia. destruct (_ <? 2) eqn:G; [split; [done|lia]|]. bool_prop.
  destruct (negb _); [done|]. open_wf W. rewrite S in Wph. split; [|cbn; lia]. wf_split.
Qed.

Lemma step_trailers_sound p buffer :
  wf p (len buffer) → state p = ChunkTrailers → sound p (len buffer) (step_trailers p buffer).
Proof.
  intros W S. unfold step_trailers. destruct (find buffer CRLF (cursor p)) as [e|] eqn:F.
  2:{ repeat (case_match; [done|]). split; [done|lia]. }
  pose proof (wf_cursor _ _ W). pose proof (wf_buffer _ _ W).
  apply find_bounds in F; [|lia]. change (len CRLF) with 2 in F.
  rewrite sub64_small by lia. destruct (_ >? _) eqn:G; [done|]. bool_prop.
  pose proof (wf_trailer_size _ _ W). pose proof (wf_trailer_count _ _ W).
  destruct (e =? _) eqn:E.
  - pose proof (wf_phase _ _ W) as Wph. unfold phase_ok in Wph. rewrite S in Wph.
    destruct Wph as ((Hs & Hh) & Ht & Hl).
    split_and!; [|cbn; lia|].
    + open_wf W. wf_split.
    + split_and!; try done; cbn; rewrite ?Ht, ?Hl; done.
  - cbn. destruct (_ >? MAX_HEADER_COUNT) eqn:G'; [done|]. bool_prop.
    unfold trailer_line. repeat (case_match; try done). split; [|cbn; lia].
    open_wf W. wf_split.
Qed.

Lemma step_sound p buffer : wf p (len buffer) → sound p (len buffer) (step p buffer).
Proof.
  intros W. unfold step. destruct (state p) eqn:S.
  - by apply step_request_line_sound.
  - by apply step_headers_sound.
  - by apply step_body_sound.
  - by apply step_chunk_size_sound.
  - by apply step_chunk_data_sound.
  - by apply step_chunk_crlf_sound.
  - by apply step_trailers_sound.
Qed.
