(* ===== verification/ParserStream.v ===== *)
(** * The parser on a stream

    Totality of [parse], preservation of its invariant, and the two facts that
    make it incremental: a result other than a size limit or a request for more
    data does not depend on later bytes, and after [NeedMoreData] parsing
    resumes as if the whole data had been there from the start. *)

From S2P Require Import Prelude Request Parser ParserInv.
Import HttpRequest (HttpRequest, method, target, version, headers, body).
Import HttpParser.

(** ** Definitions *)

(** Outcomes that a caller cannot tell apart: the parser's state is only used
    again after [NeedMoreData] and [Complete]. *)
#[global] Instance outcome_equiv : Equiv outcome := λ o1 o2,
  match o1, o2 with
  | Continue p, Continue q => p = q
  | Return r p, Return s q => r = s ∧ (failure r = false → p = q)
  | _, _ => False
  end.

#[global] Instance result_equiv : Equiv (ParseResult * HttpParser) := λ x y,
  x.1 = y.1 ∧ (failure x.1 = false → x.2 = y.2).

(** The parser with its cursor moved back by [n] consumed bytes. *)
Definition rewind (n : Z) (p : HttpParser) : HttpParser := p <| cursor := cursor p - n |>.

Definition map_outcome (f : HttpParser → HttpParser) (o : outcome) : outcome :=
  match o with
  | Return r p => Return r (f p)
  | Continue p => Continue (f p)
  end.

(** How a turn on [b] relates to the same turn on [b ++ k]. *)
Definition extends (p : HttpParser) (b k : bytes) (o : outcome) (turn : HttpParser → bytes → outcome)
    : Prop :=
  match o with
  | Continue p' => turn p (b ++ k) = Continue p'
  | Return NeedMoreData p' => turn p' (b ++ k) ≡ turn p (b ++ k)
  | Return RequestLineTooLarge _ | Return HeadersTooLarge _ => True
  | Return r p' => turn p (b ++ k) = Return r p'
  end.

(** A size limit on an unfinished line depends on how much has arrived. *)
Definition line_limit (r : ParseResult) : bool :=
  match r with RequestLineTooLarge | HeadersTooLarge => true | _ => false end.

#[global] Arguments parse : simpl never.

(** Reading one request from a sequence of received fragments, the way
    [Reactor::handleClient] drives a connection: append the fragment, parse,
    and on [NeedMoreData] drop the consumed bytes. *)
Fixpoint feed (p : HttpParser) (buffer : bytes) (fragments : list bytes)
    : option (ParseResult * HttpParser * bytes) :=
  match fragments with
  | [] => Some (NeedMoreData, p, buffer)
  | f :: rest =>
      let buffer := buffer ++ f in
      match parse p buffer with
      | Some (NeedMoreData, p') =>
          let '(consumed, p'') := consumeParsedBytes p' in
          feed p'' (drop (Z.to_nat consumed) buffer) rest
      | Some (r, p') => Some (r, p', buffer ++ concat rest)
      | None => None
      end
  end.

(** ** Equivalences *)

#[global] Instance outcome_equivalence : Equivalence (≡@{outcome}).
Proof.
  split.
  - intros []; cbn; by auto.
  - intros [] []; cbn; try done. intros [-> H]. split; [done|]. intros. by rewrite H.
  - intros [] [] []; cbn; try done; [|congruence]. intros [-> H1] [-> H2]. split; [done|].
    intros. by rewrite H1, H2.
Qed.

#[global] Instance result_equivalence : Equivalence (≡@{ParseResult * HttpParser}).
Proof.
  split.
  - intros []. by split.
  - intros [] [] [H1 H2]. cbn in *. subst. split; cbn; auto. intros. symmetry. auto.
  - intros [] [] [] [H1 H2] [H3 H4]. cbn in *. subst. split; cbn; auto.
    intros. by rewrite H2, H4.
Qed.

(** ** Totality and the invariant *)

Lemma parse_loop_total fuel p b :
  wf p (len b) → len b - cursor p < Z.of_nat fuel →
  ∃ r p', parse_loop fuel p b = Some (r, p').
Proof.
  revert p. induction fuel as [|fuel IH]; intros p W Hf.
  { pose proof (wf_cursor _ _ W). lia. }
  cbn. pose proof (step_sound p b W) as Hs. destruct (step p b) as [r q|q]; [by eauto|].
  destruct Hs as [Wq Hq]. apply IH; [done|lia].
Qed.

Lemma parse_loop_mono f f' p b x :
  parse_loop f p b = Some x → (f ≤ f')%nat → parse_loop f' p b = Some x.
Proof.
  revert f' p. induction f as [|f IH]; intros [|f'] p; cbn; try done; [lia|].
  destruct (step p b); [done|]. intros H Hle. apply (IH f'); [done|lia].
Qed.

Lemma parse_loop_sound fuel p b r q :
  wf p (len b) → parse_loop fuel p b = Some (r, q) → failure r = false →
  wf q (len b) ∧ cursor p ≤ cursor q ∧ (r = Complete → finished q).
Proof.
  revert p. induction fuel as [|fuel IH]; intros p W H Hr; [done|]. cbn in H.
  pose proof (step_sound p b W) as Hs. destruct (step p b) as [s q'|q'].
  - injection H as -> ->. destruct r; cbn in *; try done.
    + by destruct Hs.
    + by destruct Hs as (? & ? & ?).
  - destruct Hs as [Wq Hq]. destruct (IH q' Wq H Hr) as (? & ? & ?). split_and!; [done|lia|done].
Qed.

Lemma parse_eq p b : parse p b = parse_loop (S (length b)) p b.
Proof. done. Qed.

Lemma parse_loop_parse fuel p b x :
  wf p (len b) → parse_loop fuel p b = Some x → parse p b = Some x.
Proof.
  intros W H. pose proof (wf_cursor _ _ W). rewrite parse_eq.
  destruct (parse_loop_total (S (length b)) p b W) as (r & q & E); [len_lia|].
  destruct (Nat.le_ge_cases fuel (S (length b))) as [L|L].
  - by apply (parse_loop_mono fuel).
  - rewrite E, <- H. symmetry. by apply (parse_loop_mono (S (length b))).
Qed.

(** [parse] is its own first turn followed by the rest. *)
Lemma parse_unfold p b :
  wf p (len b) →
  parse p b = match step p b with Return r q => Some (r, q) | Continue q => parse q b end.
Proof.
  intros W. pose proof (wf_cursor _ _ W). pose proof (step_sound p b W) as Hs.
  destruct (parse_loop_total (S (length b)) p b W) as (r & q & E); [len_lia|].
  rewrite parse_eq, E. cbn in E. destruct (step p b); [done|].
  destruct Hs as [Wq _]. symmetry. by eapply parse_loop_parse.
Qed.

(** ** More data does not change a settled turn *)

(** The four arms that work on a whole line read only that line. *)
Lemma line_arms_extend p b k e :
  wf p (len b) → find b CRLF (cursor p) = Some e → len (b ++ k) < U64 →
  step_request_line p (b ++ k) = step_request_line p b ∧
  step_headers p (b ++ k) = step_headers p b ∧
  step_chunk_size p (b ++ k) = step_chunk_size p b ∧
  step_trailers p (b ++ k) = step_trailers p b.
Proof.
  intros W F Hk. pose proof (wf_cursor _ _ W) as Hc. pose proof (wf_buffer _ _ W).
  pose proof (find_bounds _ _ _ _ (proj1 Hc) F) as Hb.
  pose proof (len_nonneg k). change (len CRLF) with 2 in Hb.
  unfold step_request_line, step_headers, step_chunk_size, step_trailers.
  rewrite (find_app _ k _ _ _ (proj1 Hc) F), F, !len_app, !sub64_small by lia.
  cbn [cursor]. rewrite !(substr_app b k (cursor p)) by lia.
  replace (cursor p >? len b + len k) with false by (symmetry; rewrite Z.gtb_ltb, Z.ltb_ge; lia).
  replace (cursor p >? len b) with false by (symmetry; rewrite Z.gtb_ltb, Z.ltb_ge; lia).
  by split_and!.
Qed.

(** A turn of an arm that leaves the buffer's tail alone once its line is
    complete, and otherwise waits or gives up. *)
Lemma extends_same turn p b k :
  turn p (b ++ k) = turn p b → (∀ q, turn p b ≠ Return NeedMoreData q) →
  extends p b k (turn p b) turn.
Proof.
  intros E N. unfold extends. destruct (turn p b) as [[] q|q] eqn:T; try done.
  by destruct (N q).
Qed.

Lemma extends_wait turn p b k : extends p b k (Return NeedMoreData p) turn.
Proof. cbn. reflexivity. Qed.

#[local] Hint Resolve extends_wait : aorta.

Lemma end_of_headers_settles p e q : end_of_headers p e ≠ Return NeedMoreData q.
Proof. unfold end_of_headers. repeat case_match; done. Qed.

Lemma header_line_settles p line e q : header_line p line e ≠ Return NeedMoreData q.
Proof. intros H. by apply header_line_failure in H. Qed.

Lemma trailer_line_settles p line e q : trailer_line p line e ≠ Return NeedMoreData q.
Proof. unfold trailer_line. repeat case_match; done. Qed.

Lemma step_request_line_extends p b k :
  wf p (len b) → len (b ++ k) < U64 → extends p b k (step_request_line p b) step_request_line.
Proof.
  intros W Hk. destruct (find b CRLF (cursor p)) as [e|] eqn:F.
  - apply extends_same; [by eapply line_arms_extend|]. intros q. unfold step_request_line.
    rewrite F. repeat case_match; done.
  - unfold step_request_line at 1. rewrite F. case_match; [done|apply extends_wait].
Qed.

Lemma step_headers_extends p b k :
  wf p (len b) → len (b ++ k) < U64 → extends p b k (step_headers p b) step_headers.
Proof.
  intros W Hk. destruct (find b CRLF (cursor p)) as [e|] eqn:F.
  - apply extends_same; [by eapply line_arms_extend|]. intros q. unfold step_headers.
    rewrite F. repeat (case_match; try done).
    + apply end_of_headers_settles.
    + apply header_line_settles.
  - unfold step_headers at 1. rewrite F. repeat (case_match; try done).
    + bool_prop. pose proof (wf_cursor _ _ W). lia.
    + apply extends_wait.
Qed.

Lemma step_chunk_size_extends p b k :
  wf p (len b) → len (b ++ k) < U64 → extends p b k (step_chunk_size p b) step_chunk_size.
Proof.
  intros W Hk. destruct (find b CRLF (cursor p)) as [e|] eqn:F.
  - apply extends_same; [by eapply line_arms_extend|]. intros q. unfold step_chunk_size.
    rewrite F. repeat case_match; done.
  - unfold step_chunk_size at 1. rewrite F. case_match; [done|apply extends_wait].
Qed.

Lemma step_trailers_extends p b k :
  wf p (len b) → len (b ++ k) < U64 → extends p b k (step_trailers p b) step_trailers.
Proof.
  intros W Hk. destruct (find b CRLF (cursor p)) as [e|] eqn:F.
  - apply extends_same; [by eapply line_arms_extend|]. intros q. unfold step_trailers.
    rewrite F. repeat (case_match; try done). apply trailer_line_settles.
  - unfold step_trailers at 1. rewrite F. repeat (case_match; [done|]). apply extends_wait.
Qed.

Lemma step_chunk_crlf_extends p b k :
  wf p (len b) → len (b ++ k) < U64 → extends p b k (step_chunk_crlf p b) step_chunk_crlf.
Proof.
  intros W Hk. pose proof (wf_cursor _ _ W). pose proof (wf_buffer _ _ W). pose proof (len_nonneg k).
  destruct (sub64 (len b) (cursor p) <? 2) eqn:G.
  - unfold step_chunk_crlf at 1. rewrite G. apply extends_wait.
  - rewrite sub64_small in G by lia. bool_prop. apply extends_same.
    + unfold step_chunk_crlf. rewrite substr_app, !sub64_small, len_app by (rewrite ?len_app in *; lia).
      by rewrite !(proj2 (Z.ltb_ge _ _)) by lia.
    + intros q. unfold step_chunk_crlf. repeat case_match; try done.
      bool_prop. rewrite sub64_small in *; lia.
Qed.

(** Consuming [n] bytes and then [m] more is consuming [n + m]. *)
Lemma append_body_app r b k pos n m :
  0 ≤ pos → 0 ≤ n → 0 ≤ m → pos + n + m ≤ len (b ++ k) → pos + n ≤ len b →
  append_body (append_body r b pos n) (b ++ k) (pos + n) m = append_body r (b ++ k) pos (n + m).
Proof.
  intros. unfold append_body, set_with. cbn. f_equal. rewrite <- app_assoc. f_equal.
  rewrite <- (substr_app b k pos n) by lia. unfold substr.
  replace (Z.to_nat (n + m)) with (Z.to_nat n + Z.to_nat m)%nat by lia.
  rewrite <- take_take_drop, drop_drop. do 4 f_equal. lia.
Qed.

(** The effect of taking [n] body bytes from the buffer. *)
Definition take_body (p : HttpParser) (b : bytes) (n : Z) : HttpParser :=
  p <| request := append_body (request p) b (cursor p) n |> <| cursor := cursor p + n |>.

Definition take_chunk (p : HttpParser) (b : bytes) (n : Z) : HttpParser :=
  take_body p b n <| chunk_bytes_read := chunk_bytes_read p + n |>.

Lemma take_body_len p b n :
  0 ≤ cursor p → 0 ≤ n → cursor p + n ≤ len b →
  len (body (request (take_body p b n))) = len (body (request p)) + n.
Proof. intros. cbn. by rewrite len_app, len_substr. Qed.

Lemma take_body_app p b k n :
  0 ≤ cursor p → 0 ≤ n → cursor p + n ≤ len b → take_body p (b ++ k) n = take_body p b n.
Proof. intros. unfold take_body, append_body. by rewrite substr_app. Qed.

Lemma take_body_twice p b k n m :
  0 ≤ cursor p → 0 ≤ n → 0 ≤ m → cursor p + n ≤ len b → cursor p + n + m ≤ len (b ++ k) →
  take_body (take_body p b n) (b ++ k) m = take_body p (b ++ k) (n + m).
Proof.
  intros. unfold take_body at 1. cbn.
  rewrite append_body_app by lia. unfold take_body, set_with. cbn. f_equal. lia.
Qed.

(** [step_body] while a declared length is outstanding. *)
Lemma step_body_eq p b :
  len b < U64 → 0 ≤ cursor p ≤ len b → has_content_length p = true →
  0 < content_length p ≤ MAX_BODY_SIZE → len (body (request p)) ≤ content_length p →
  step_body p b =
    if len b =? cursor p then Return NeedMoreData p
    else
      let n := Z.min (len b - cursor p) (content_length p - len (body (request p))) in
      if len (body (request p)) + n <? content_length p
      then Return NeedMoreData (take_body p b n) else Return Complete (take_body p b n).
Proof.
  intros Hb Hc Hh Hl Hbody. unfold step_body. rewrite Hh. cbn [negb orb].
  pose proof (len_nonneg (body (request p))).
  assert (content_length p < U64) by (unfold MAX_BODY_SIZE, U64 in *; lia).
  rewrite !sub64_small, cap_min by lia.
  rewrite (proj2 (Z.eqb_neq (content_length p) 0)), (proj2 (Z.ltb_ge _ _)) by lia.
  replace (content_length p >? MAX_BODY_SIZE) with false
    by (symmetry; rewrite Z.gtb_ltb, Z.ltb_ge; lia).
  replace (len b - cursor p =? 0) with (len b =? cursor p)
    by (destruct (Z.eqb_spec (len b) (cursor p)), (Z.eqb_spec (len b - cursor p) 0); lia).
  destruct (len b =? cursor p) eqn:E; [done|]. bool_prop. cbv zeta.
  set (n := Z.min _ _). fold (take_body p b n).
  by rewrite take_body_len by lia.
Qed.

Lemma step_body_extends p b k :
  wf p (len b) → state p = Body → len (b ++ k) < U64 → extends p b k (step_body p b) step_body.
Proof.
  intros W S Hk. pose proof (wf_cursor _ _ W). pose proof (wf_buffer _ _ W).
  pose proof (wf_content_length _ _ W). pose proof (len_nonneg k).
  pose proof (wf_phase _ _ W) as Hp. unfold phase_ok in Hp. rewrite S in Hp.
  destruct Hp as (_ & _ & Hl). pose proof (len_nonneg (body (request p))).
  destruct (negb (has_content_length p) || (content_length p =? 0)) eqn:Z0.
  { unfold extends, step_body. by rewrite Z0. }
  bool_prop. rewrite len_app in Hk. rewrite step_body_eq by (done || lia). cbv zeta.
  destruct (len b =? cursor p) eqn:A; [apply extends_wait|]. bool_prop.
  set (n := Z.min _ _). pose proof (take_body_len p b n ltac:(lia) ltac:(lia) ltac:(lia)) as Hlen.
  destruct (_ <? _) eqn:Fin; cbn [extends]; bool_prop.
  - rewrite !step_body_eq by (done || (rewrite ?len_app, ?Hlen; cbn; lia)).
    rewrite Hlen, len_app. cbn [cursor content_length take_body]. cbv zeta.
    rewrite (proj2 (Z.eqb_neq (len b + len k) (cursor p))) by lia.
    change (cursor (take_body p b n)) with (cursor p + n).
    change (content_length (take_body p b n)) with (content_length p).
    destruct (Z.eqb_spec (len b + len k) (cursor p + n)).
    + assert (k = []) as -> by (apply len_0; lia). rewrite app_nil_r, len_nil, Z.add_0_r.
      fold n. by rewrite (proj2 (Z.ltb_lt _ _)).
    + rewrite take_body_twice by (rewrite ?len_app; lia).
      replace (n + Z.min (len b + len k - (cursor p + n))
                 (content_length p - (len (body (request p)) + n)))
        with (Z.min (len b + len k - cursor p) (content_length p - len (body (request p)))) by lia.
      replace (len (body (request p)) + n + _) with
        (len (body (request p)) +
         Z.min (len b + len k - cursor p) (content_length p - len (body (request p)))) by lia.
      reflexivity.
  - rewrite step_body_eq by (done || (rewrite ?len_app; lia)). rewrite len_app. cbv zeta.
    rewrite (proj2 (Z.eqb_neq _ _)) by lia.
    replace (Z.min (len b + len k - _) _) with n by lia.
    rewrite (proj2 (Z.ltb_ge _ _)) by lia. by rewrite take_body_app by lia.
Qed.

Lemma take_chunk_twice p b k n m :
  0 ≤ cursor p → 0 ≤ n → 0 ≤ m → cursor p + n ≤ len b → cursor p + n + m ≤ len (b ++ k) →
  take_chunk (take_chunk p b n) (b ++ k) m = take_chunk p (b ++ k) (n + m).
Proof.
  intros. unfold take_chunk at 1 3. rewrite <- (take_body_twice p b k n m) by done.
  unfold take_chunk, take_body, set_with. cbn. f_equal. lia.
Qed.

Lemma step_chunk_data_eq p b :
  len b < U64 → 0 ≤ cursor p ≤ len b → 0 ≤ chunk_bytes_read p ≤ chunk_size p →
  chunk_size p ≤ MAX_BODY_SIZE →
  step_chunk_data p b =
    if len b =? cursor p then Return NeedMoreData p
    else
      let n := Z.min (len b - cursor p) (chunk_size p - chunk_bytes_read p) in
      if len (body (request p)) + n >? MAX_BODY_SIZE then Return BodyTooLarge p
      else if chunk_bytes_read p + n <? chunk_size p
      then Return NeedMoreData (take_chunk p b n)
      else Continue (take_chunk p b n <| state := ChunkDataCRLF |>).
Proof.
  intros Hb Hc Hr Hm. unfold step_chunk_data.
  assert (chunk_size p < U64) by (unfold MAX_BODY_SIZE, U64 in *; lia).
  rewrite !sub64_small, cap_min, (proj2 (Z.ltb_ge _ _)) by lia.
  replace (len b - cursor p =? 0) with (len b =? cursor p)
    by (destruct (Z.eqb_spec (len b) (cursor p)), (Z.eqb_spec (len b - cursor p) 0); lia).
  done.
Qed.

Lemma step_chunk_data_extends p b k :
  wf p (len b) → state p = ChunkData → len (b ++ k) < U64 →
  extends p b k (step_chunk_data p b) step_chunk_data.
Proof.
  intros W S Hk. pose proof (wf_cursor _ _ W). pose proof (wf_buffer _ _ W).
  pose proof (len_nonneg k). pose proof (wf_phase _ _ W) as Hp. unfold phase_ok in Hp.
  rewrite S in Hp. destruct Hp as (_ & Hr & Hm). pose proof (len_nonneg (body (request p))).
  rewrite len_app in Hk. rewrite step_chunk_data_eq by lia. cbv zeta.
  destruct (len b =? cursor p) eqn:A; [apply extends_wait|]. bool_prop.
  set (n := Z.min _ _). destruct (_ >? MAX_BODY_SIZE) eqn:M; bool_prop.
  { cbn. rewrite step_chunk_data_eq by (rewrite ?len_app; lia). rewrite len_app. cbv zeta.
    rewrite (proj2 (Z.eqb_neq _ _)) by lia. rewrite Z.gtb_ltb, (proj2 (Z.ltb_lt _ _)) by lia. done. }
  assert (len (body (request (take_chunk p b n))) = len (body (request p)) + n) as Hlen
    by (cbn; rewrite len_app, len_substr; lia).
  destruct (_ <? chunk_size p) eqn:Fin; cbn [extends]; bool_prop.
  - rewrite !step_chunk_data_eq by (rewrite ?len_app, ?Hlen; cbn; lia).
    rewrite Hlen, len_app. cbv zeta.
    change (cursor (take_chunk p b n)) with (cursor p + n).
    change (chunk_size (take_chunk p b n)) with (chunk_size p).
    change (chunk_bytes_read (take_chunk p b n)) with (chunk_bytes_read p + n).
    rewrite (proj2 (Z.eqb_neq (len b + len k) (cursor p))) by lia.
    destruct (Z.eqb_spec (len b + len k) (cursor p + n)).
    + assert (k = []) as -> by (apply len_0; lia). rewrite app_nil_r, len_nil, Z.add_0_r.
      fold n. by rewrite Z.gtb_ltb, (proj2 (Z.ltb_ge _ _)), (proj2 (Z.ltb_lt _ _)) by lia.
    + set (m := Z.min (len b + len k - (cursor p + n)) _).
      replace (Z.min (len b + len k - cursor p) (chunk_size p - chunk_bytes_read p)) with (n + m)
        by lia.
      rewrite take_chunk_twice by (rewrite ?len_app; lia). rewrite !Z.add_assoc.
      destruct (_ >? MAX_BODY_SIZE); [done|]. reflexivity.
  - rewrite step_chunk_data_eq by (rewrite ?len_app; lia). rewrite len_app. cbv zeta.
    rewrite (proj2 (Z.eqb_neq _ _)) by lia.
    replace (Z.min (len b + len k - _) _) with n by lia.
    rewrite Z.gtb_ltb, (proj2 (Z.ltb_ge _ _)), (proj2 (Z.ltb_ge _ _)) by lia.
    unfold take_chunk. by rewrite take_body_app by lia.
Qed.

Lemma step_state_wait p b q : step p b = Return NeedMoreData q → state q = state p.
Proof.
  unfold step. destruct (state p) eqn:S;
    unfold step_request_line, step_body, step_chunk_size, step_chunk_data, step_chunk_crlf.
  - repeat (case_match; try done); by intros [= <-].
  - unfold step_headers. repeat (case_match; try done); try (by intros [= <-]).
    + intros E. by apply end_of_headers_settles in E.
    + intros E. by apply header_line_settles in E.
  - repeat (case_match; try done); by intros [= <-].
  - repeat (case_match; try done); by intros [= <-].
  - repeat (case_match; try done); by intros [= <-].
  - repeat (case_match; try done); by intros [= <-].
  - unfold step_trailers. repeat (case_match; try done); try (by intros [= <-]).
    intros E. by apply trailer_line_settles in E.
Qed.

Lemma step_extends p b k :
  wf p (len b) → len (b ++ k) < U64 → extends p b k (step p b) step.
Proof.
  intros W Hk.
  assert (∀ turn, step p b = turn p b → (∀ q, state q = state p → step q = turn q) →
    extends p b k (turn p b) turn → extends p b k (step p b) step) as lift.
  { intros turn E Hs H. rewrite E. unfold extends in *.
    destruct (turn p b) as [[] q|q] eqn:T; rewrite ?(Hs p) by done; try done.
    rewrite (Hs q); [done|]. apply (step_state_wait p b). by rewrite E. }
  unfold step in lift. unfold step at 1. destruct (state p) eqn:S.
  - apply (lift step_request_line); [done|by intros q ->|by apply step_request_line_extends].
  - apply (lift step_headers); [done|by intros q ->|by apply step_headers_extends].
  - apply (lift step_body); [done|by intros q ->|by apply step_body_extends].
  - apply (lift step_chunk_size); [done|by intros q ->|by apply step_chunk_size_extends].
  - apply (lift step_chunk_data); [done|by intros q ->|by apply step_chunk_data_extends].
  - apply (lift step_chunk_crlf); [done|by intros q ->|by apply step_chunk_crlf_extends].
  - apply (lift step_trailers); [done|by intros q ->|by apply step_trailers_extends].
Qed.

(** ** Consumed bytes can be dropped *)

Lemma rewind_with_cursor c (p : HttpParser) x y :
  y = x - c → rewind c (p <| cursor := x |>) = rewind c p <| cursor := y |>.
Proof. by intros ->. Qed.

Lemma host_header_rewind c p name value :
  host_header (rewind c p) name value = map_outcome (rewind c) (host_header p name value).
Proof. unfold host_header, rewind. cbn. repeat case_match; done. Qed.

Lemma content_length_header_rewind c p name value :
  content_length_header (rewind c p) name value
  = map_outcome (rewind c) (content_length_header p name value).
Proof. unfold content_length_header, rewind. cbn. repeat case_match; done. Qed.

Lemma transfer_encoding_header_rewind c p name value :
  transfer_encoding_header (rewind c p) name value
  = map_outcome (rewind c) (transfer_encoding_header p name value).
Proof. unfold transfer_encoding_header, rewind. cbn. repeat case_match; done. Qed.

Lemma and_then_rewind c o k k' :
  (∀ p, k (rewind c p) = map_outcome (rewind c) (k' p)) →
  and_then (map_outcome (rewind c) o) k = map_outcome (rewind c) (and_then o k').
Proof. intros H. destruct o; cbn; [done|apply H]. Qed.

Lemma header_line_rewind c p line e :
  header_line (rewind c p) line e = map_outcome (rewind c) (header_line p line (c + e)).
Proof.
  unfold header_line. repeat (case_match; try done).
  rewrite host_header_rewind. apply and_then_rewind. intros p1.
  rewrite content_length_header_rewind. apply and_then_rewind. intros p2.
  rewrite transfer_encoding_header_rewind. apply and_then_rewind. intros p3.
  cbn. f_equal. unfold rewind, set_with. cbn. f_equal. lia.
Qed.

Lemma end_of_headers_rewind c p e :
  end_of_headers (rewind c p) e = map_outcome (rewind c) (end_of_headers p (c + e)).
Proof.
  unfold end_of_headers, rewind. cbn.
  repeat case_match; try done; cbn; f_equal; unfold set_with; cbn; f_equal; lia.
Qed.

Section rewind.
Context (c : Z) (p : HttpParser) (b : bytes).
Context (Hc : 0 ≤ c ≤ cursor p) (Hp : cursor p ≤ len b).

(** The view of the buffer from the cursor is the same on both sides. *)
Lemma rewind_find :
  find b CRLF (cursor p) = Z.add c <$> find (drop (Z.to_nat c) b) CRLF (cursor p - c).
Proof. rewrite <- find_drop by lia. f_equal. lia. Qed.

Lemma rewind_rest : sub64 (len (drop (Z.to_nat c) b)) (cursor p - c) = sub64 (len b) (cursor p).
Proof. rewrite len_drop by lia. unfold sub64. f_equal. lia. Qed.

Lemma rewind_line e : sub64 (c + e) (cursor p) = sub64 e (cursor p - c).
Proof. unfold sub64. f_equal. lia. Qed.

Lemma rewind_substr n : substr (drop (Z.to_nat c) b) (cursor p - c) n = substr b (cursor p) n.
Proof. rewrite substr_drop by lia. f_equal. lia. Qed.

Lemma rewind_beyond :
  (cursor p - c >? len (drop (Z.to_nat c) b)) = (cursor p >? len b) ∧
  (len (drop (Z.to_nat c) b) <? cursor p - c) = (len b <? cursor p).
Proof.
  rewrite len_drop by lia. rewrite !Z.gtb_ltb. split.
  - destruct (Z.ltb_spec (len b - c) (cursor p - c)), (Z.ltb_spec (len b) (cursor p)); lia.
  - destruct (Z.ltb_spec (len b - c) (cursor p - c)), (Z.ltb_spec (len b) (cursor p)); lia.
Qed.

Lemma rewind_end e : (e =? cursor p - c) = (c + e =? cursor p).
Proof. destruct (Z.eqb_spec e (cursor p - c)), (Z.eqb_spec (c + e) (cursor p)); lia. Qed.

Lemma step_rewind :
  step (rewind c p) (drop (Z.to_nat c) b) = map_outcome (rewind c) (step p b).
Proof.
  unfold step. change (state (rewind c p)) with (state p). destruct (state p).
  - unfold step_request_line. rewrite rewind_find. cbn.
    destruct (find (drop _ b) CRLF _) as [e|]; cbn; rewrite ?rewind_rest, ?rewind_line, ?rewind_substr.
    + repeat (case_match; try done). cbn. f_equal. unfold rewind, set_with. cbn. f_equal. lia.
    + by case_match.
  - unfold step_headers. rewrite rewind_find. cbn. rewrite (proj1 rewind_beyond).
    case_match; [done|].
    destruct (find (drop _ b) CRLF _) as [e|]; cbn; rewrite ?rewind_rest, ?rewind_line, ?rewind_substr.
    + rewrite rewind_end. repeat (case_match; try done); 
        [exact (end_of_headers_rewind c (p <| headers_size := _ |>) e)|].
      exact (header_line_rewind c (p <| headers_size := _ |> <| header_count := _ |>) _ e).
    + repeat (case_match; try done).
  - unfold step_body. cbn. rewrite (proj2 rewind_beyond), rewind_rest.
    unfold append_body. cbn. rewrite rewind_substr.
    repeat (case_match; try done); cbn; f_equal; unfold rewind, set_with; cbn; f_equal; lia.
  - unfold step_chunk_size. rewrite rewind_find. cbn.
    destruct (find (drop _ b) CRLF _) as [e|]; cbn; rewrite ?rewind_rest, ?rewind_line, ?rewind_substr.
    + repeat (case_match; try done); cbn; f_equal; unfold rewind, set_with; cbn; f_equal; lia.
    + by case_match.
  - unfold step_chunk_data. cbn. rewrite (proj2 rewind_beyond), rewind_rest.
    unfold append_body. cbn. rewrite rewind_substr.
    repeat (case_match; try done); cbn; f_equal; unfold rewind, set_with; cbn; f_equal; lia.
  - unfold step_chunk_crlf. cbn. rewrite rewind_rest, rewind_substr.
    repeat (case_match; try done); cbn; f_equal; unfold rewind, set_with; cbn; f_equal; lia.
  - unfold step_trailers. rewrite rewind_find. cbn.
    destruct (find (drop _ b) CRLF _) as [e|]; cbn; rewrite ?rewind_rest, ?rewind_line, ?rewind_substr.
    + rewrite rewind_end. repeat (case_match; try done).
      * cbn. f_equal. unfold rewind, set_with. cbn. f_equal. lia.
      * unfold trailer_line. repeat (case_match; try done). cbn. f_equal.
        unfold rewind, set_with. cbn. f_equal. lia.
    + repeat (case_match; try done).
Qed.

End rewind.

(** ** From turns to [parse] *)

Lemma wf_grow p n m : wf p n → n ≤ m → m < U64 → wf p m.
Proof. intros W Hn Hm. open_wf W. wf_split. Qed.

Lemma wf_extend p (b k : bytes) : wf p (len b) → len (b ++ k) < U64 → wf p (len (b ++ k)).
Proof. intros W Hk. pose proof (len_nonneg k). apply (wf_grow _ _ _ W); [rewrite len_app; lia|done]. Qed.

Lemma wf_rewind c p (b : bytes) :
  wf p (len b) → 0 ≤ c ≤ cursor p → wf (rewind c p) (len (drop (Z.to_nat c) b)).
Proof.
  intros W Hc. pose proof (wf_cursor _ _ W). rewrite len_drop by lia. open_wf W. wf_split.
Qed.

Lemma parse_congr p q b :
  wf p (len b) → wf q (len b) → step p b ≡ step q b → parse p b ≡ parse q b.
Proof.
  intros Wp Wq H. rewrite (parse_unfold p), (parse_unfold q) by done.
  destruct (step p b), (step q b); cbn in H; try done.
  - by constructor.
  - by rewrite H.
Qed.

Lemma parse_loop_rewind fuel c p b :
  wf p (len b) → 0 ≤ c ≤ cursor p →
  parse_loop fuel (rewind c p) (drop (Z.to_nat c) b)
  = prod_map id (rewind c) <$> parse_loop fuel p b.
Proof.
  revert p. induction fuel as [|fuel IH]; intros p W Hc; [done|]. cbn.
  pose proof (wf_cursor _ _ W). rewrite step_rewind by lia.
  pose proof (step_sound p b W) as Hs. destruct (step p b) as [r q|q]; cbn; [done|].
  destruct Hs. apply IH; [done|lia].
Qed.

Lemma parse_rewind c p b :
  wf p (len b) → 0 ≤ c ≤ cursor p →
  parse (rewind c p) (drop (Z.to_nat c) b) = prod_map id (rewind c) <$> parse p b.
Proof.
  intros W Hc. pose proof (wf_cursor _ _ W).
  destruct (parse_loop_total (S (length b)) p b W) as (r & q & E); [len_lia|].
  rewrite (parse_eq p b), E. cbn. apply (parse_loop_parse (S (length b))).
  - by apply wf_rewind.
  - by rewrite parse_loop_rewind, E.
Qed.

Lemma parse_sound p b r q :
  wf p (len b) → parse p b = Some (r, q) → failure r = false →
  wf q (len b) ∧ cursor p ≤ cursor q ∧ (r = Complete → finished q).
Proof. apply parse_loop_sound. Qed.

Lemma rewind_0 p : rewind 0 p = p.
Proof. destruct p. unfold rewind, set_with. cbn. f_equal. lia. Qed.

(** [b ++ k] seen through a parse of [b]. *)
Lemma parse_extends p b k r q :
  wf p (len b) → len (b ++ k) < U64 → parse p b = Some (r, q) →
  (r = NeedMoreData → parse q (b ++ k) ≡ parse p (b ++ k)) ∧
  (r ≠ NeedMoreData → line_limit r = false → parse p (b ++ k) = Some (r, q)).
Proof.
  intros W Hk. rewrite parse_eq. generalize (S (length b)). intros fuel. revert p W.
  induction fuel as [|fuel IH]; intros p W H; [done|]. cbn in H.
  pose proof (wf_extend _ _ _ W Hk) as W'.
  pose proof (step_extends p b k W Hk) as He. pose proof (step_sound p b W) as Hs.
  rewrite (parse_unfold p (b ++ k)) by done.
  destruct (step p b) as [s p1|p1] eqn:E; cbn in He.
  - injection H as -> ->. split.
    + intros ->. cbn in He. destruct Hs as [Wq _]. rewrite <- (parse_unfold p) by done.
      by apply parse_congr; [apply wf_extend|..].
    + intros Hn Hl. destruct r; try done; by rewrite He.
  - rewrite He. destruct Hs as [Wq _]. by apply IH.
Qed.

Lemma parse_idle p b q :
  wf p (len b) → parse p b = Some (NeedMoreData, q) → parse q b = Some (NeedMoreData, q).
Proof.
  intros W H. destruct (parse_extends p b [] NeedMoreData q W) as [He _]; [|done|].
  { rewrite app_nil_r. apply (wf_buffer _ _ W). }
  specialize (He eq_refl). rewrite app_nil_r, H in He.
  apply Some_equiv_eq in He as ([r q'] & -> & [E1 E2]). cbn in *. subst. by rewrite E2.
Qed.

(** ** Feeding fragments *)

Lemma feed_spec fragments p b r q rest :
  wf p (len b) → len (b ++ concat fragments) < U64 → parse p b = Some (NeedMoreData, p) →
  feed p b fragments = Some (r, q, rest) → line_limit r = false →
  ∃ q0, parse p (b ++ concat fragments) = Some (r, q0) ∧
    (failure r = false → ∃ c, 0 ≤ c ≤ cursor q0 ∧ q = rewind c q0 ∧
       rest = drop (Z.to_nat c) (b ++ concat fragments)).
Proof.
  revert p b. induction fragments as [|f fs IH]; intros p b W Hlen Hidle H Hl; cbn in *.
  { simplify_eq. rewrite app_nil_r in *. exists q. split; [done|]. intros _. exists 0.
    pose proof (wf_cursor _ _ W). split; [lia|]. split; [|done].
    by rewrite rewind_0. }
  rewrite app_assoc in *. set (b1 := b ++ f) in *.
  assert (len b1 < U64) as Hb1 by (pose proof (len_nonneg (concat fs)); rewrite len_app in Hlen; lia).
  pose proof (wf_extend _ _ f W Hb1) as W1. fold b1 in W1.
  destruct (parse p b1) as [[r1 p1]|] eqn:E; [|done].
  destruct (parse_extends p b1 (concat fs) _ _ W1 Hlen E) as [Hmore Hsettled].
  destruct (decide (r1 = NeedMoreData)) as [->|Hr1].
  2:{ assert (Some (r1, p1, b1 ++ concat fs) = Some (r, q, rest)) as Heq by (by destruct r1).
      simplify_eq. exists q. split; [by apply Hsettled|]. intros Hr. exists 0.
      destruct (parse_sound _ _ _ _ W1 E Hr) as (Wq & _). pose proof (wf_cursor _ _ Wq).
      split; [lia|]. by rewrite rewind_0. }
  cbn in H. specialize (Hmore eq_refl).
  destruct (parse_sound _ _ _ _ W1 E eq_refl) as (Wp1 & Hc1 & _).
  pose proof (wf_cursor _ _ Wp1) as Hc. set (c1 := cursor p1) in *.
  assert (drop (Z.to_nat c1) b1 ++ concat fs = drop (Z.to_nat c1) (b1 ++ concat fs)) as Hdrop.
  { rewrite drop_app_le; [done|len_lia]. }
  destruct (IH (rewind c1 p1) (drop (Z.to_nat c1) b1)) as (q1 & Hq1 & Hrest); try done.
  - apply wf_rewind; [done|lia].
  - rewrite Hdrop, len_drop; [lia|]. pose proof (len_nonneg (concat fs)). rewrite len_app. lia.
  - rewrite parse_rewind by (done || lia). by rewrite (parse_idle p).
  - unfold rewind. cbn. replace (cursor p1 - c1) with 0 by lia. done.
  - rewrite Hdrop in Hq1. rewrite parse_rewind in Hq1 by (apply wf_extend || lia; done).
    destruct (parse p1 (b1 ++ concat fs)) as [[r2 q2]|] eqn:E2; [|done].
    cbn in Hq1. simplify_eq. symmetry in Hmore.
    apply Some_equiv_eq in Hmore as ([r3 q3] & -> & [E3 E4]). cbn in *. subst r3.
    exists q3. split; [done|]. intros Hr. rewrite (E4 Hr).
    destruct (Hrest Hr) as (c & Hcq & -> & ->). exists (c1 + c). cbn in Hcq.
    split; [lia|]. split.
    + unfold rewind, set_with. cbn. f_equal. lia.
    + rewrite Hdrop, drop_drop. f_equal. lia.
Qed.
