(* ===== verification/ParserWire.v ===== *)
(** * Requests on the wire

    The text a client sends for a request ([render_request], and
    [render_chunked] for a chunked body), which requests can be sent that way,
    and what each turn of the parser does on such text. *)

From S2P Require Import Prelude Request Parser ParserInv ParserStream.
Import HttpRequest (HttpRequest, method, target, version, headers, body).
Import HttpParser.

(** ** Definitions *)

Definition no_leading_blank (l : bytes) : bool :=
  match l with c :: _ => negb (is_blank c) | [] => true end.

Definition start_line (r : HttpRequest) : bytes :=
  method r ++ [SP] ++ target r ++ [SP] ++ version r.

Definition header_text (h : bytes * bytes) : bytes := h.1 ++ lit ": " ++ h.2.

Definition render_headers (hs : list (bytes * bytes)) : bytes :=
  concat ((λ h, header_text h ++ CRLF) <$> hs).

Definition render_head (r : HttpRequest) : bytes :=
  start_line r ++ CRLF ++ render_headers (headers r) ++ CRLF.

(** The request with its body sent as it is. *)
Definition render_request (r : HttpRequest) : bytes := render_head r ++ body r.

(** One chunk: a size line and the data. *)
Definition render_chunk (c : bytes * bytes) : bytes := c.1 ++ CRLF ++ c.2 ++ CRLF.

(** The request with its body sent as the chunks [cs] and [last], a size line
    denoting zero, then an empty trailer. *)
Definition render_chunked (r : HttpRequest) (cs : list (bytes * bytes)) (last : bytes) : bytes :=
  render_head r ++ concat (render_chunk <$> cs) ++ last ++ CRLF ++ CRLF.

Record wire_start (r : HttpRequest) : Prop := {
  ws_valid : valid_start r;
  ws_space : no_char SP (target r) = true;
  ws_size : len (start_line r) ≤ MAX_REQUEST_LINE_SIZE
}.

Record wire_header (n : Z) (h : bytes * bytes) : Prop := {
  wh_name : isValidHeaderName h.1 = true;
  wh_value : no_char CR h.2 = true;
  wh_blank : no_leading_blank h.2 = true;
  wh_size : len (header_text h) ≤ MAX_HEADER_LINE_SIZE;
  wh_host : is_host h = true → h.2 ≠ [];
  wh_length : is_length h = true → h.2 ≠ [] ∧ length_digits h.2 0 = inr n;
  wh_encoding : is_encoding h = true → equalsIgnoreCase (trim h.2) (lit "chunked") = true
}.

(** The headers [hs] of a request whose declared length, if any, is [n]. *)
Record wire_headers (n : Z) (hs : list (bytes * bytes)) : Prop := {
  wr_each : Forall (wire_header n) hs;
  wr_host : len (List.filter is_host hs) = 1;
  wr_encoding : len (List.filter is_encoding hs) ≤ 1;
  wr_exclusive : existsb is_length hs && existsb is_encoding hs = false;
  wr_count : len hs ≤ MAX_HEADER_COUNT;
  wr_size : len (render_headers hs) + 2 ≤ MAX_HEADERS_SIZE
}.

Definition wire_chunk (c : bytes * bytes) : Prop :=
  isValidChunkSize c.1 = Some (len c.2) ∧ c.2 ≠ [] ∧ no_char CR c.1 = true ∧
  len c.1 ≤ MAX_HEADER_LINE_SIZE.

(** ** The request line *)

Lemma valid_method_no_char m c : token_char c = false → isValidMethod m = true → no_char c m = true.
Proof.
  unfold isValidMethod. intros Hc H. destruct (len m =? 0); [done|]. by eapply forallb_no_char.
Qed.

Lemma valid_name_no_char n c :
  token_char c = false → isValidHeaderName n = true → no_char c n = true.
Proof.
  unfold isValidHeaderName. intros Hc H. destruct (len n =? 0); [done|]. by eapply forallb_no_char.
Qed.

Lemma valid_target_no_CR t : isValidTarget t = true → no_char CR t = true.
Proof.
  unfold isValidTarget. intros H. destruct (len t =? 0); [done|]. by eapply forallb_no_char in H.
Qed.

Lemma start_line_no_CR r : valid_start r → no_char CR (start_line r) = true.
Proof.
  intros (Hm & Ht & Hv). unfold start_line. rewrite !no_char_app, Hv.
  by rewrite (valid_method_no_char _ CR), (valid_target_no_CR _ Ht).
Qed.

(** Where the two spaces of a request line are. *)
Lemma start_line_spaces r :
  wire_start r →
  find_char (start_line r) SP 0 = Some (len (method r)) ∧
  find_char (start_line r) SP (len (method r) + 1) = Some (len (method r) + 1 + len (target r)) ∧
  find_char (start_line r) SP (len (method r) + 1 + len (target r) + 1) = None.
Proof.
  intros [(Hm & Ht & Hv) Hs _]. unfold start_line. split_and!.
  - apply find_char_at. by apply (valid_method_no_char _ SP).
  - replace (len (method r) + 1) with (len (method r ++ [SP])) by (rewrite len_app; done).
    rewrite app_assoc. by apply find_char_after.
  - rewrite Hv, !app_assoc, <- !(app_assoc (method r)).
    replace (len (method r) + 1 + len (target r) + 1)
      with (len (method r ++ [SP] ++ target r ++ [SP])) by (rewrite !len_app; cbn; len_lia).
    rewrite !app_assoc. by apply find_char_none.
Qed.

Lemma start_line_parts r :
  let l := start_line r in
  substr l 0 (len (method r)) = method r ∧
  substr l (len (method r) + 1) (len (target r)) = target r ∧
  substr_from l (len (method r) + 1 + len (target r) + 1) = version r.
Proof.
  cbv zeta. unfold start_line. split_and!.
  - apply (substr_middle []).
  - replace (len (method r) + 1) with (len (method r ++ [SP])) by (rewrite len_app; done).
    rewrite app_assoc. apply substr_middle.
  - unfold substr_from.
    replace (len (method r) + 1 + len (target r) + 1)
      with (len (method r ++ [SP] ++ target r ++ [SP])) by (rewrite !len_app; cbn; len_lia).
    rewrite len_to_nat.
    replace (method r ++ [SP] ++ target r ++ [SP] ++ version r)
      with ((method r ++ [SP] ++ target r ++ [SP]) ++ version r) by (by rewrite <- !app_assoc).
    by rewrite drop_app_length.
Qed.

Lemma start_line_len r :
  len (start_line r) = len (method r) + 1 + len (target r) + 1 + len (version r).
Proof. unfold start_line. rewrite !len_app. cbn. len_lia. Qed.

Definition after_start (p : HttpParser) (r : HttpRequest) : HttpParser :=
  p <| request := (request p) <| HttpRequest.method := method r |>
                              <| HttpRequest.target := target r |>
                              <| HttpRequest.version := version r |> |>
    <| cursor := cursor p + len (start_line r) + 2 |> <| state := Headers |>.

Lemma step_start p b r post :
  wf p (len b) → state p = RequestLine → wire_start r →
  drop (Z.to_nat (cursor p)) b = start_line r ++ CRLF ++ post →
  step p b = Continue (after_start p r).
Proof.
  intros W S Hr Hd. pose proof (wf_cursor _ _ W). pose proof (wf_buffer _ _ W).
  destruct (find_line b (cursor p) (start_line r) post) as (F & Hsub & Hlen & _);
    [done|done|by apply start_line_no_CR, Hr|].
  destruct (start_line_spaces r Hr) as (F1 & F2 & F3).
  destruct (start_line_parts r) as (P1 & P2 & P3). pose proof (start_line_len r) as L.
  destruct Hr as [(Hm & Ht & Hv) _ Hsize].
  pose proof (len_nonneg (method r)). pose proof (len_nonneg (target r)).
  assert (len (version r) = 8) as Lv by (by rewrite Hv).
  assert (0 < len (method r)).
  { unfold isValidMethod in Hm. destruct (_ =? 0) eqn:E; [done|]. bool_prop. lia. }
  assert (0 < len (target r)).
  { unfold isValidTarget in Ht. destruct (len (target r) =? 0) eqn:E; [done|]. bool_prop. lia. }
  unfold step. rewrite S. unfold step_request_line. rewrite F, (sub64_small _ (cursor p)) by lia.
  replace (cursor p + len (start_line r) - cursor p) with (len (start_line r)) by lia.
  rewrite Z.gtb_ltb, (proj2 (Z.ltb_ge _ _)), Hsub, F1, F2, F3 by lia.
  rewrite (proj2 (Z.eqb_neq (len (method r)) 0)) by lia.
  rewrite (proj2 (Z.eqb_neq (_ + len (target r)) _)) by lia.
  rewrite Z.geb_leb, (proj2 (Z.leb_gt _ _)) by lia. cbn [orb].
  rewrite (sub64_small _ (len (method r))), (sub64_small _ 1) by lia.
  replace (len (method r) + 1 + len (target r) - len (method r) - 1) with (len (target r)) by lia.
  rewrite P1, P2, P3. cbn. rewrite Hm, Ht, Hv. cbn.
  unfold after_start. by rewrite Hv.
Qed.

(** ** Header lines *)

Lemma header_text_no_CR n h : wire_header n h → no_char CR (header_text h) = true.
Proof.
  intros [Hn Hv _ _ _ _ _]. unfold header_text. rewrite !no_char_app, Hv.
  by rewrite (valid_name_no_char _ CR).
Qed.

Lemma header_text_parts n h :
  wire_header n h →
  let l := header_text h in
  find_char l ":" 0 = Some (len h.1) ∧ substr l 0 (len h.1) = h.1 ∧
  skip_while is_blank (substr_from l (len h.1 + 1)) = h.2.
Proof.
  intros [Hn Hv Hb _ _ _ _]. cbv zeta. unfold header_text. split_and!.
  - apply (find_char_at h.1 ":" ([SP] ++ h.2)). by apply (valid_name_no_char _ ":").
  - apply (substr_middle [] h.1).
  - unfold substr_from. replace (len h.1 + 1) with (len (h.1 ++ [":"%char])) by (rewrite len_app; done).
    replace (h.1 ++ lit ": " ++ h.2) with ((h.1 ++ [":"%char]) ++ SP :: h.2) by (by rewrite <- app_assoc).
    rewrite len_to_nat, drop_app_length. cbn. destruct h.2 as [|c v]; [done|].
    cbn in *. by apply negb_true_iff in Hb as ->.
Qed.

(** The three header checks let a sendable header through. *)
Lemma header_line_accept p h e n :
  wire_header n h →
  (is_host h = true → host_count p = 0) →
  (is_encoding h = true → has_transfer_encoding p = false) →
  (is_length h = true → has_content_length p = true → content_length p = n) →
  ∃ q, header_line p (header_text h) e = Continue q ∧
    request q = (request p) <| HttpRequest.headers := headers (request p) ++ [h] |> ∧
    cursor q = e + 2 ∧ state q = state p ∧ headers_size q = headers_size p.
Proof.
  intros Hw Hhost Henc Hcl. destruct (header_text_parts n h Hw) as (P1 & P2 & P3).
  destruct Hw as [Hn Hv Hb Hs Wh Wl We]. destruct h as [name value]. cbn [fst snd] in *.
  assert (0 < len name) as Hn0.
  { unfold isValidHeaderName in Hn. destruct (len name =? 0) eqn:E; [done|].
    bool_prop. pose proof (len_nonneg name). lia. }
  assert (∀ x : bytes, x ≠ [] → (len x =? 0) = false) as Hne.
  { intros x Hx. apply Z.eqb_neq. intros E. by apply len_0 in E. }
  unfold header_line. rewrite P1, (proj2 (Z.eqb_neq _ _)), P2, Hn, P3 by lia. cbn [negb].
  assert (∃ p1, host_header p name value = Continue p1 ∧ (p1 = p <| host_count := host_count p1 |>))
    as (p1 & E1 & Q1).
  { unfold host_header. unfold is_host in *. cbn [fst] in *.
    destruct (equalsIgnoreCase name (lit "Host")).
    - cbn. rewrite Hhost, Hne by auto. by eexists.
    - exists p. split; [done|]. by destruct p. }
  assert (∃ p2, content_length_header p1 name value = Continue p2 ∧
    p2 = p1 <| content_length := content_length p2 |> <| has_content_length := has_content_length p2 |>)
    as (p2 & E2 & Q2).
  { rewrite Q1. unfold content_length_header. unfold is_length in *. cbn [fst snd] in *.
    destruct (equalsIgnoreCase name (lit "Content-Length")).
    - destruct Wl as [Wl1 Wl2]; [done|]. rewrite Hne, Wl2 by done. cbn.
      destruct (has_content_length p); [rewrite Hcl, Z.eqb_refl by done|]; by eexists.
    - eexists. split; [done|]. by destruct p1. }
  assert (∃ p3, transfer_encoding_header p2 name value = Continue p3 ∧
    p3 = p2 <| has_transfer_encoding := has_transfer_encoding p3 |>
            <| chunked_transfer_encoding := chunked_transfer_encoding p3 |>) as (p3 & E3 & Q3).
  { assert (has_transfer_encoding p2 = has_transfer_encoding p) as T by (by rewrite Q2, Q1).
    unfold transfer_encoding_header. unfold is_encoding in *. cbn [fst snd] in *.
    destruct (equalsIgnoreCase name (lit "Transfer-Encoding")).
    - rewrite T, Henc, We by done. by eexists.
    - exists p2. split; [done|]. by destruct p2. }
  rewrite E1. cbn [and_then]. rewrite E2. cbn [and_then]. rewrite E3. cbn [and_then].
  eexists. split; [done|]. cbn.
  rewrite Q3, Q2, Q1. cbn. done.
Qed.

Lemma render_headers_cons h hs : render_headers (h :: hs) = header_text h ++ CRLF ++ render_headers hs.
Proof. unfold render_headers. cbn. by rewrite <- !app_assoc. Qed.

Lemma step_header_line p b h hs tail n :
  wf p (len b) → state p = Headers → wire_header n h →
  drop (Z.to_nat (cursor p)) b = render_headers (h :: hs) ++ tail →
  headers_size p + len (render_headers (h :: hs)) ≤ MAX_HEADERS_SIZE →
  header_count p < MAX_HEADER_COUNT →
  (is_host h = true → host_count p = 0) →
  (is_encoding h = true → has_transfer_encoding p = false) →
  (is_length h = true → has_content_length p = true → content_length p = n) →
  ∃ q, step p b = Continue q ∧
    request q = (request p) <| HttpRequest.headers := headers (request p) ++ [h] |> ∧
    cursor q = cursor p + len (header_text h) + 2 ∧ state q = Headers ∧
    headers_size q = headers_size p + len (header_text h) + 2 ∧
    drop (Z.to_nat (cursor q)) b = render_headers hs ++ tail.
Proof.
  intros W S Hw Hd Hsize Hcount Hhost Henc Hcl.
  pose proof (wf_cursor _ _ W). pose proof (wf_buffer _ _ W).
  rewrite render_headers_cons, <- !app_assoc in Hd. rewrite render_headers_cons, !len_app in Hsize.
  change (len CRLF) with 2 in Hsize. pose proof (len_nonneg (render_headers hs)).
  destruct (find_line b (cursor p) (header_text h) (render_headers hs ++ tail))
    as (F & Hsub & Hlen & Hrest); [done|done|by eapply header_text_no_CR|].
  pose proof (wh_size _ _ Hw). pose proof (len_nonneg (header_text h)).
  assert (0 < len (header_text h)).
  { unfold header_text. rewrite !len_app. pose proof (len_nonneg h.1). pose proof (len_nonneg h.2).
    change (len (lit ": ")) with 2. lia. }
  set (p1 := p <| headers_size := headers_size p + (len (header_text h) + 2) |>
               <| header_count := header_count p + 1 |>).
  destruct (header_line_accept p1 h (cursor p + len (header_text h)) n Hw)
    as (q & E & Hq1 & Hq2 & Hq3 & Hq4); [done..|].
  exists q. split.
  - unfold step. rewrite S. unfold step_headers.
    rewrite Z.gtb_ltb, (proj2 (Z.ltb_ge _ _)), F, sub64_small by lia.
    replace (cursor p + len (header_text h) - cursor p) with (len (header_text h)) by lia.
    rewrite !Z.gtb_ltb, !(proj2 (Z.ltb_ge _ _)) by lia. cbn -[header_line].
    rewrite (proj2 (Z.eqb_neq _ _)) by lia. rewrite Hsub.
    rewrite (proj2 (Z.ltb_ge MAX_HEADER_COUNT _)) by lia. exact E.
  - split_and!; [done|done|by rewrite Hq3|rewrite Hq4; subst p1; cbn; lia|].
    by rewrite Hq2.
Qed.

(** ** The whole head *)

Lemma filter_len_app {A} (f : A → bool) l k :
  len (List.filter f (l ++ k)) = len (List.filter f l) + len (List.filter f k).
Proof. by rewrite List.filter_app, len_app. Qed.

Lemma filter_len_cons {A} (f : A → bool) x l :
  len (List.filter f (x :: l)) = Z.b2z (f x) + len (List.filter f l).
Proof. cbn. destruct (f x); cbn; [by rewrite len_cons|done]. Qed.

Lemma existsb_filter {A} (f : A → bool) l :
  existsb f l = true → 1 ≤ len (List.filter f l).
Proof.
  intros (x & Hx & Hf)%existsb_exists.
  assert (In x (List.filter f l)) as H by (by apply filter_In).
  destruct (List.filter f l); [done|len_lia].
Qed.

(** The next header of a sendable list passes the parser's bookkeeping. *)
Lemma wire_headers_next n p b h hs :
  wf p b → wire_headers n (headers (request p) ++ h :: hs) →
  (is_host h = true → host_count p = 0) ∧
  (is_encoding h = true → has_transfer_encoding p = false) ∧
  (is_length h = true → has_content_length p = true → content_length p = n) ∧
  header_count p < MAX_HEADER_COUNT.
Proof.
  intros W [He Hh Ht _ Hc _].
  rewrite filter_len_app, filter_len_cons in Hh, Ht.
  pose proof (len_nonneg (List.filter is_host hs)).
  pose proof (len_nonneg (List.filter is_host (headers (request p)))).
  pose proof (len_nonneg (List.filter is_encoding hs)).
  split_and!.
  - intros E. rewrite E in Hh. cbn in Hh. destruct (wf_host_count _ _ W) as [-> _].
    unfold count_headers. lia.
  - intros E. rewrite E in Ht. cbn in Ht. rewrite (wf_has_encoding _ _ W).
    destruct (existsb _ _) eqn:X; [|done]. apply existsb_filter in X. lia.
  - intros _ Hcl. rewrite (wf_has_length _ _ W) in Hcl.
    apply existsb_exists in Hcl as (x & Hx & Hl). pose proof (wf_lengths _ _ W) as HL.
    apply Forall_app in He as [He _]. apply list_elem_of_In in Hx.
    unfold lengths_agree in HL. rewrite Forall_forall in He, HL.
    specialize (HL x Hx Hl). destruct (wh_length _ _ (He x Hx) Hl) as [_ E]. congruence.
  - destruct (wf_header_count _ _ W) as [-> _]. rewrite len_app, len_cons in Hc.
    pose proof (len_nonneg hs). lia.
Qed.

Lemma step_blank_line n p b tail :
  wf p (len b) → state p = Headers → wire_headers n (headers (request p)) →
  headers_size p + 2 ≤ MAX_HEADERS_SIZE →
  drop (Z.to_nat (cursor p)) b = CRLF ++ tail →
  step p b = Continue (p <| headers_size := headers_size p + 2 |> <| cursor := cursor p + 2 |>
    <| state := if existsb is_encoding (headers (request p)) then ChunkSize else Body |>) ∧
  drop (Z.to_nat (cursor p + 2)) b = tail.
Proof.
  intros W S Hw Hs Hd. pose proof (wf_cursor _ _ W). pose proof (wf_buffer _ _ W).
  destruct (find_line b (cursor p) [] tail) as (F & _ & Hlen & Hrest); [done..|].
  change (len []) with 0 in *. rewrite Z.add_0_r in *. split; [|done].
  unfold step. rewrite S. unfold step_headers.
  rewrite Z.gtb_ltb, (proj2 (Z.ltb_ge _ _)), F, sub64_small, Z.sub_diag by lia.
  rewrite !Z.gtb_ltb, !(proj2 (Z.ltb_ge _ _)) by (unfold MAX_HEADER_LINE_SIZE; lia).
  rewrite Z.eqb_refl. unfold end_of_headers. cbn.
  destruct (wf_host_count _ _ W) as [Hh _]. unfold count_headers in Hh.
  rewrite (wr_host _ _ Hw) in Hh. rewrite Hh. cbn.
  pose proof (wr_exclusive _ _ Hw) as Hx. rewrite <- (wf_has_length _ _ W) in Hx.
  rewrite <- (wf_has_encoding _ _ W) in *. rewrite andb_comm in Hx. rewrite Hx, (wf_chunked _ _ W).
  by destruct (has_transfer_encoding p).
Qed.

Lemma parse_headers n hs p b tail :
  wf p (len b) → state p = Headers → wire_headers n (headers (request p) ++ hs) →
  headers_size p = len (render_headers (headers (request p))) →
  drop (Z.to_nat (cursor p)) b = render_headers hs ++ CRLF ++ tail →
  ∃ q, parse p b = parse q b ∧ wf q (len b) ∧
    state q = (if existsb is_encoding (headers (request q)) then ChunkSize else Body) ∧
    request q = (request p) <| HttpRequest.headers := headers (request p) ++ hs |> ∧
    cursor q = cursor p + len (render_headers hs) + 2 ∧
    drop (Z.to_nat (cursor q)) b = tail.
Proof.
  revert p. induction hs as [|h hs IH]; intros p W S Hw Hs Hd.
  - rewrite app_nil_r in Hw. pose proof (wr_size _ _ Hw).
    destruct (step_blank_line n p b tail) as [E Hrest]; [done|done|done|lia|done|].
    pose proof (step_sound p b W) as Hsound. rewrite E in Hsound. destruct Hsound as [Wq _].
    eexists. split; [rewrite parse_unfold, E by done; done|]. split_and!; [done|done| | |done].
    + rewrite app_nil_r. cbn. unfold set_with. by destruct (request p).
    + change (render_headers []) with (@nil ascii). rewrite len_nil. cbn. lia.
  - destruct (wire_headers_next n p (len b) h hs W Hw) as (C1 & C2 & C3 & C4).
    assert (wire_header n h) as Hh 
      by (apply (proj1 (Forall_forall _ _) (wr_each _ _ Hw)); set_solver).
    pose proof (wr_size _ _ Hw) as Hsize. unfold render_headers in Hsize.
    rewrite fmap_app, concat_app, len_app in Hsize.
    fold (render_headers (headers (request p))) in Hsize. fold (render_headers (h :: hs)) in Hsize.
    destruct (step_header_line p b h hs (CRLF ++ tail) n) as (q & E & Hq & Hc & Sq & Hsq & Hdq);
      [done|done|done|done|lia|done..|].
    pose proof (step_sound p b W) as Hsound. rewrite E in Hsound. destruct Hsound as [Wq _].
    destruct (IH q) as (q' & E' & Wq' & Sq' & Hq' & Hc' & Hd'); try done.
    + rewrite Hq. cbn. by rewrite <- app_assoc.
    + rewrite Hsq, Hs, Hq. unfold render_headers. cbn.
      rewrite fmap_app, concat_app, len_app. cbn. rewrite app_nil_r, len_app.
      change (len CRLF) with 2. lia.
    + exists q'. rewrite parse_unfold, E by done. split_and!; try done.
      * rewrite Hq', Hq. cbn. by rewrite <- app_assoc.
      * rewrite Hc', Hc, render_headers_cons, !len_app. change (len CRLF) with 2. lia.
Qed.

(** The head of a request takes a fresh parser to the start of its body. *)
Lemma parse_head n r tail :
  let b := render_head r ++ tail in
  wire_start r → wire_headers n (headers r) → len b < U64 →
  ∃ q, parse init b = parse q b ∧ wf q (len b) ∧
    state q = (if existsb is_encoding (headers r) then ChunkSize else Body) ∧
    request q = r <| HttpRequest.body := [] |> ∧ cursor q = len (render_head r) ∧
    drop (Z.to_nat (cursor q)) b = tail.
Proof.
  intros b Hs Hh Hb. assert (wf init (len b)) as W by (apply wf_init; pose proof (len_nonneg b); lia).
  assert (drop (Z.to_nat (cursor init)) b =
    start_line r ++ CRLF ++ render_headers (headers r) ++ CRLF ++ tail) as Hd.
  { cbn. rewrite drop_0. subst b. unfold render_head. by rewrite <- !app_assoc. }
  destruct (find_line b (cursor init) _ _ (wf_cursor _ _ W) Hd) as (_ & _ & _ & Hrest).
  { apply start_line_no_CR, Hs. }
  pose proof (step_start init b r _ W eq_refl Hs Hd) as E.
  pose proof (step_sound init b W) as Hsound. rewrite E in Hsound. destruct Hsound as [W1 _].
  destruct (parse_headers n (headers r) (after_start init r) b tail)
    as (q & Eq & Wq & Sq & Rq & Cq & Dq); try done.
  exists q. rewrite parse_unfold, E by done. split_and!; try done.
  - rewrite Rq in Sq. exact Sq.
  - rewrite Cq. unfold render_head. rewrite !len_app. change (len CRLF) with 2. cbn. lia.
Qed.

(** ** Bodies *)

Lemma render_request_app r rest :
  render_request r ++ rest = render_head r ++ body r ++ rest.
Proof. unfold render_request. by rewrite <- app_assoc. Qed.

(** The value of a request's [Content-Length] is the one its fields spell. *)
Lemma wf_declared_length p n r b :
  wf p b → headers (request p) = headers r → wire_headers n (headers r) →
  existsb is_length (headers r) = true → has_content_length p = true ∧ content_length p = n.
Proof.
  intros W Hr Hw Hl. rewrite (wf_has_length _ _ W), Hr. split; [done|].
  apply existsb_exists in Hl as (x & Hx & Hf). apply list_elem_of_In in Hx.
  pose proof (wf_lengths _ _ W) as HL. unfold lengths_agree in HL. rewrite Hr in HL.
  pose proof (wr_each _ _ Hw) as He. rewrite Forall_forall in HL, He.
  specialize (HL x Hx Hf). destruct (wh_length _ _ (He x Hx) Hf) as [_ E]. congruence.
Qed.

Lemma step_plain_body r p b rest :
  wf p (len b) → state p = Body → wire_headers (len (body r)) (headers r) →
  (existsb is_length (headers r) = false → body r = []) →
  request p = r <| HttpRequest.body := [] |> → drop (Z.to_nat (cursor p)) b = body r ++ rest →
  ∃ q, step p b = Return Complete q ∧ request q = r ∧ cursor q = cursor p + len (body r).
Proof.
  intros W S Hw Hnone Hr Hd. unfold step. rewrite S.
  assert (headers (request p) = headers r) as Hh by (by rewrite Hr).
  pose proof (wf_cursor _ _ W). pose proof (len_nonneg rest). pose proof (len_nonneg (body r)).
  destruct (existsb is_length (headers r)) eqn:L.
  - destruct (wf_declared_length p _ r _ W Hh Hw L) as [Hcl Hn].
    destruct (Z.eqb_spec (len (body r)) 0) as [E|E].
    + unfold step_body. rewrite Hn, E, orb_true_r. apply len_0 in E.
      exists p. split_and!; [done| |lia].
      rewrite Hr, <- E. by destruct r.
    + pose proof (wf_content_length _ _ W). pose proof (wf_buffer _ _ W).
      assert (body (request p) = []) as Hb by (by rewrite Hr).
      pose proof (f_equal len Hd) as Hlen. rewrite len_drop, len_app in Hlen by lia.
      rewrite step_body_eq by (done || (rewrite ?Hb, ?len_nil; lia)).
      rewrite Hb, len_nil, (proj2 (Z.eqb_neq (len b) (cursor p))) by lia. cbv zeta.
      rewrite Z.min_r, (proj2 (Z.ltb_ge _ _)) by lia.
      eexists. split; [done|]. split; [|cbn; lia]. cbn. unfold append_body.
      rewrite Hr. cbn. replace (content_length p - 0) with (len (body r)) by lia.
      unfold substr. rewrite Hd, len_to_nat, take_app_length. by destruct r.
  - specialize (Hnone eq_refl). unfold step_body.
    rewrite (wf_has_length _ _ W), Hh, L. cbn [negb orb].
    exists p. split_and!; [done| |by rewrite Hnone, len_nil, Z.add_0_r].
    rewrite Hr, <- Hnone. by destruct r.
Qed.

Lemma step_size_line p b t n tail :
  wf p (len b) → state p = ChunkSize → isValidChunkSize t = Some n → no_char CR t = true →
  len t ≤ MAX_HEADER_LINE_SIZE → drop (Z.to_nat (cursor p)) b = t ++ CRLF ++ tail →
  ∃ q, step p b = Continue q ∧ state q = (if n =? 0 then ChunkTrailers else ChunkData) ∧
    chunk_size q = n ∧ chunk_bytes_read q = 0 ∧ request q = request p ∧
    trailer_size q = trailer_size p ∧
    cursor q = cursor p + len t + 2 ∧ drop (Z.to_nat (cursor q)) b = tail.
Proof.
  intros W S Hv Hcr Hs Hd. pose proof (wf_cursor _ _ W). pose proof (wf_buffer _ _ W).
  destruct (find_line b (cursor p) t tail) as (F & Hsub & Hlen & Hrest); [done..|].
  pose proof (len_nonneg t). unfold step. rewrite S. unfold step_chunk_size.
  rewrite F, sub64_small by lia.
  replace (cursor p + len t - cursor p) with (len t) by lia.
  rewrite Z.gtb_ltb, (proj2 (Z.ltb_ge _ _)), Hsub, Hv by lia. by eexists.
Qed.

Lemma step_chunk p b d tail :
  wf p (len b) → state p = ChunkData → chunk_size p = len d → chunk_bytes_read p = 0 →
  len (body (request p)) + len d ≤ MAX_BODY_SIZE →
  drop (Z.to_nat (cursor p)) b = d ++ tail →
  ∃ q, step p b = Continue q ∧ state q = ChunkDataCRLF ∧
    request q = (request p) <| HttpRequest.body := body (request p) ++ d |> ∧
    trailer_size q = trailer_size p ∧
    cursor q = cursor p + len d ∧ drop (Z.to_nat (cursor q)) b = tail.
Proof.
  intros W S Hcs Hread Hmax Hd. pose proof (wf_cursor _ _ W). pose proof (wf_buffer _ _ W).
  pose proof (wf_phase _ _ W) as Hp. unfold phase_ok in Hp. rewrite S in Hp.
  destruct Hp as (_ & Hr & Hm). pose proof (len_nonneg tail).
  pose proof (f_equal len Hd) as Hlen. rewrite len_drop, len_app in Hlen by lia.
  unfold step. rewrite S, step_chunk_data_eq by lia.
  rewrite (proj2 (Z.eqb_neq (len b) (cursor p))) by lia. cbv zeta.
  rewrite Z.min_r, Z.gtb_ltb, !(proj2 (Z.ltb_ge _ _)) by lia.
  replace (chunk_size p - chunk_bytes_read p) with (len d) by lia.
  eexists. split; [done|]. split_and!; [done| |done|done|].
  - cbn. unfold append_body, substr. by rewrite Hd, len_to_nat, take_app_length.
  - cbn. rewrite Z2Nat.inj_add, <- drop_drop, Hd, len_to_nat by (try apply len_nonneg; lia).
    by rewrite drop_app_length.
Qed.

Lemma step_crlf p b tail :
  wf p (len b) → state p = ChunkDataCRLF → drop (Z.to_nat (cursor p)) b = CRLF ++ tail →
  ∃ q, step p b = Continue q ∧ state q = ChunkSize ∧ request q = request p ∧
    trailer_size q = trailer_size p ∧
    cursor q = cursor p + 2 ∧ drop (Z.to_nat (cursor q)) b = tail.
Proof.
  intros W S Hd. pose proof (wf_cursor _ _ W). pose proof (wf_buffer _ _ W). pose proof (len_nonneg tail).
  pose proof (f_equal len Hd) as Hlen. rewrite len_drop, len_app in Hlen by lia.
  change (len CRLF) with 2 in Hlen. unfold step. rewrite S. unfold step_chunk_crlf.
  rewrite sub64_small, (proj2 (Z.ltb_ge _ _)) by lia.
  replace (substr b (cursor p) 2) with CRLF by (unfold substr; by rewrite Hd).
  rewrite beq_refl. eexists. split; [done|]. split_and!; [done..|].
  cbn. rewrite Z2Nat.inj_add, <- drop_drop, Hd by lia. done.
Qed.

(** The chunks of a body, one after the other. *)
Lemma parse_chunks cs p b tail :
  wf p (len b) → state p = ChunkSize → Forall wire_chunk cs →
  len (body (request p)) + len (concat (snd <$> cs)) ≤ MAX_BODY_SIZE →
  drop (Z.to_nat (cursor p)) b = concat (render_chunk <$> cs) ++ tail →
  ∃ q, parse p b = parse q b ∧ wf q (len b) ∧ state q = ChunkSize ∧
    request q = (request p) <| HttpRequest.body := body (request p) ++ concat (snd <$> cs) |> ∧
    cursor q = cursor p + len (concat (render_chunk <$> cs)) ∧
    drop (Z.to_nat (cursor q)) b = tail.
Proof.
  revert p. induction cs as [|[t d] cs IH]; intros p W S Hcs Hmax Hd.
  { exists p. cbn. rewrite app_nil_r. split_and!; try done.
    - unfold set_with. by destruct (request p).
    - rewrite len_nil. lia. }
  apply Forall_cons in Hcs as [(Hv & Hne & Hcr & Hs) Hcs]. cbn [fst snd] in *.
  rewrite !fmap_cons in *. cbn [concat snd] in *.
  rewrite len_app in Hmax. pose proof (len_nonneg (concat (snd <$> cs))).
  unfold render_chunk at 1 in Hd. cbn [fst snd] in Hd. rewrite <- !app_assoc in Hd.
  destruct (step_size_line p b t (len d) _ W S Hv Hcr Hs Hd)
    as (q1 & E1 & S1 & Hcs1 & Hr1 & Hq1 & _ & C1 & D1).
  pose proof (step_sound p b W) as Hs1. rewrite E1 in Hs1. destruct Hs1 as [W1 _].
  rewrite (proj2 (Z.eqb_neq (len d) 0)) in S1 by (intros E; by apply len_0 in E).
  destruct (step_chunk q1 b d (CRLF ++ concat (render_chunk <$> cs) ++ tail) W1 S1 Hcs1 Hr1)
    as (q2 & E2 & S2 & Hq2 & _ & C2 & D2); [rewrite Hq1; lia|done|].
  pose proof (step_sound q1 b W1) as Hs2. rewrite E2 in Hs2. destruct Hs2 as [W2 _].
  destruct (step_crlf q2 b _ W2 S2 D2) as (q3 & E3 & S3 & Hq3 & _ & C3 & D3).
  pose proof (step_sound q2 b W2) as Hs3. rewrite E3 in Hs3. destruct Hs3 as [W3 _].
  destruct (IH q3 W3 S3 Hcs) as (q & E & W' & S' & Hq & C & D); [|done|].
  { rewrite Hq3, Hq2, Hq1. cbn. rewrite len_app. lia. }
  exists q. rewrite (parse_unfold p), E1, (parse_unfold q1), E2, (parse_unfold q2), E3 by done.
  split_and!; [done..| | |done].
  - rewrite Hq, Hq3, Hq2, Hq1. cbn. by rewrite <- app_assoc.
  - rewrite C, C3, C2, C1. unfold render_chunk at 2. cbn [fst snd]. rewrite !len_app.
    change (len CRLF) with 2. lia.
Qed.

Lemma step_last_line p b tail :
  wf p (len b) → state p = ChunkTrailers → trailer_size p = 0 →
  drop (Z.to_nat (cursor p)) b = CRLF ++ tail →
  ∃ q, step p b = Return Complete q ∧ request q = request p ∧ cursor q = cursor p + 2.
Proof.
  intros W S Ht Hd. pose proof (wf_cursor _ _ W). pose proof (wf_buffer _ _ W).
  destruct (find_line b (cursor p) [] tail) as (F & _ & Hlen & _); [done..|].
  change (len []) with 0 in *. rewrite Z.add_0_r in *. unfold step. rewrite S.
  unfold step_trailers. rewrite F, sub64_small, Z.sub_diag, Ht by lia. cbn.
  rewrite Z.eqb_refl. by eexists.
Qed.
