(* ===== verification/ParserTheorems.v ===== *)
(** * Correctness of the HTTP parser

    Termination, independence of the fragmentation of the input, soundness of
    accepted requests, exactness of the size fields and round trips through the
    wire format. *)

From S2P Require Import Prelude Request Parser ParserInv ParserStream ParserWire.
Import HttpRequest (HttpRequest, method, target, version, headers, body).
Import HttpParser.

(** ** Definitions *)

(** The number a list of digits spells in base [base]. *)
Definition digit_value (c : ascii) : Z :=
  if isdigit c then code c - 48
  else if between 97 c 102 then code c - 97 + 10 else code c - 65 + 10.

Definition numeral (base : Z) (l : bytes) : Z :=
  fold_left (λ n c, n * base + digit_value c) l 0.

(** The part of a chunk-size line that holds the number. *)
Definition chunk_number (line : bytes) : bytes :=
  trim (match find_char line ";" 0 with Some e => substr line 0 e | None => line end).

(** ** Numerals *)

Lemma digit_value_range c : isxdigit c = true → 0 ≤ digit_value c ≤ 15.
Proof. destruct c as [[] [] [] [] [] [] [] []]; vm_compute; try done; by split. Qed.

Lemma isdigit_xdigit c : isdigit c = true → isxdigit c = true.
Proof. unfold isxdigit. by intros ->. Qed.

Lemma numeral_from_mono base l acc :
  1 ≤ base → 0 ≤ acc → forallb isxdigit l = true →
  acc ≤ fold_left (λ n c, n * base + digit_value c) l acc.
Proof.
  intros Hb. revert acc. induction l as [|c l IH]; intros acc Ha; cbn; [lia|].
  intros [Hc Hl]%andb_true_iff. pose proof (digit_value_range c Hc).
  etransitivity; [|apply IH; [nia|done]]. nia.
Qed.

Lemma length_digits_iff l acc n :
  0 ≤ acc ≤ MAX_BODY_SIZE →
  length_digits l acc = inr n ↔
  forallb isdigit l = true ∧ fold_left (λ n c, n * 10 + digit_value c) l acc = n ∧ n ≤ MAX_BODY_SIZE.
Proof.
  revert acc. induction l as [|c l IH]; intros acc Ha; cbn [length_digits forallb fold_left].
  { split; [intros [= ->]; split_and!; [done..|lia] | by intros (_ & -> & _)]. }
  destruct (isdigit c) eqn:Hc; cbn [negb andb]; [|split; [done|by intros []]]. cbv zeta.
  pose proof (isdigit_code c Hc). unfold digit_value at 2. rewrite Hc.
  rewrite sub64_small by (unfold MAX_BODY_SIZE, U64; lia).
  destruct (Z.gtb_spec acc ((MAX_BODY_SIZE - (code c - 48)) / 10)) as [G|G].
  - split; [done|]. intros (Hl & <- & Hn). exfalso.
    assert (MAX_BODY_SIZE < acc * 10 + (code c - 48)) by div_lia.
    assert (forallb isxdigit l = true) as Hx.
    { apply forallb_forall. intros x Hx. by apply isdigit_xdigit, (proj1 (forallb_forall _ _) Hl). }
    pose proof (numeral_from_mono 10 l (acc * 10 + (code c - 48)) ltac:(lia) ltac:(lia) Hx). lia.
  - apply IH. split; [lia|]. div_lia.
Qed.

Lemma chunk_digits_iff l acc n :
  0 ≤ acc ≤ MAX_BODY_SIZE →
  chunk_digits l acc = Some n ↔
  forallb isxdigit l = true ∧ fold_left (λ n c, n * 16 + digit_value c) l acc = n ∧ n ≤ MAX_BODY_SIZE.
Proof.
  revert acc. induction l as [|c l IH]; intros acc Ha; cbn [chunk_digits forallb fold_left].
  { split; [intros [= ->]; split_and!; [done..|lia] | by intros (_ & -> & _)]. }
  destruct (isxdigit c) eqn:Hc; cbn [negb andb]; [|split; [done|by intros []]].
  pose proof (digit_value_range c Hc). change (if between 48 c 57 then _ else _) with (digit_value c).
  cbv zeta. rewrite sub64_small by (unfold MAX_BODY_SIZE, U64; lia).
  destruct (Z.gtb_spec acc ((MAX_BODY_SIZE - digit_value c) / 16)) as [G|G].
  - split; [done|]. intros (Hl & <- & Hn). exfalso.
    assert (MAX_BODY_SIZE < acc * 16 + digit_value c) by div_lia.
    pose proof (numeral_from_mono 16 l (acc * 16 + digit_value c) ltac:(lia) ltac:(lia) Hl). lia.
  - apply IH. split; [lia|]. div_lia.
Qed.

Lemma feed_total fragments p b :
  wf p (len b) → len (b ++ concat fragments) < U64 → ∃ r q rest, feed p b fragments = Some (r, q, rest).
Proof.
  revert p b. induction fragments as [|f fs IH]; intros p b W Hlen; cbn in *; [by eauto|].
  rewrite app_assoc, len_app in Hlen. pose proof (len_nonneg (concat fs)).
  assert (wf p (len (b ++ f))) as W1 by (apply wf_extend; [done|lia]).
  pose proof (wf_cursor _ _ W1).
  destruct (parse_loop_total (S (length (b ++ f))) p (b ++ f) W1) as (r & q & E); [len_lia|].
  rewrite parse_eq, E. destruct (decide (r = NeedMoreData)) as [->|Hr]; [|destruct r; by eauto].
  destruct (parse_loop_sound _ _ _ _ _ W1 E eq_refl) as (Wq & _). pose proof (wf_cursor _ _ Wq).
  apply IH.
  - pose proof (wf_rewind (cursor q) q (b ++ f) Wq ltac:(lia)) as Wr.
    unfold rewind in Wr. by rewrite Z.sub_diag in Wr.
  - rewrite len_app, len_drop by lia. lia.
Qed.

Lemma content_length_of_header p n r h :
  wf p n → request p = r → h ∈ headers r → is_length h = true → length_digits h.2 0 = inr (content_length p).
Proof.
  intros W <- Hh Hl. pose proof (wf_lengths _ _ W) as HL. unfold lengths_agree in HL.
  rewrite Forall_forall in HL. by apply HL.
Qed.

(** A carriage return at the end of the text is not yet a line end. *)
Lemma find_pending_CR line : no_char CR line = true → find (line ++ [CR]) CRLF 0 = None.
Proof.
  intros H. unfold find. rewrite (proj2 (Z.ltb_ge _ _)) by apply len_nonneg. rewrite drop_0.
  generalize 0. revert H. induction line as [|c line IH]; [done|].
  intros [Hc Hl]%andb_true_iff z. apply negb_true_iff in Hc. cbn [app find_at].
  change CRLF with [CR; LF] at 1. cbn [starts_with]. rewrite Hc. cbn. by apply IH.
Qed.

(** ** Properties *)

(** C12: [parse] terminates on every buffer: the loop's turns are bounded by the
    bytes of the buffer. It returns a result, and unless it reports an error the
    parser's invariant holds again and the cursor has not moved backwards nor
    beyond the buffer. *)
Theorem parse_total p buffer :
  wf p (len buffer) →
  ∃ r q, parse p buffer = Some (r, q) ∧
    (failure r = false → wf q (len buffer) ∧ cursor p ≤ cursor q ≤ len buffer).
Proof.
  intros W. pose proof (wf_cursor _ _ W).
  destruct (parse_loop_total (S (length buffer)) p buffer W) as (r & q & E); [len_lia|].
  exists r, q. split; [done|]. intros Hr. destruct (parse_sound _ _ _ _ W E Hr) as (Wq & ? & _).
  pose proof (wf_cursor _ _ Wq). split; [done|lia].
Qed.

(** C3: The result does not depend on how the request was cut into fragments:
    reading the fragments one after the other, dropping consumed bytes between
    them, returns what parsing the whole text at once returns, with the same
    request and the same unread bytes. The exception is a line limit
    ([RequestLineTooLarge], [HeadersTooLarge]), which looks at the unfinished
    line received so far. *)
Theorem fragmentation_independent fragments :
  len (concat fragments) < U64 →
  ∃ r q rest, feed init [] fragments = Some (r, q, rest) ∧
    (line_limit r = true ∨
     ∃ q0, parse init (concat fragments) = Some (r, q0) ∧
       (failure r = false →
          request q = request q0 ∧
          drop (Z.to_nat (cursor q)) rest = drop (Z.to_nat (cursor q0)) (concat fragments))).
Proof.
  intros Hlen. assert (wf init (len (@nil ascii))) as W by (apply wf_init; done).
  destruct (feed_total fragments init [] W) as (r & q & rest & E); [done|].
  exists r, q, rest. split; [done|]. destruct (line_limit r) eqn:L; [by left|right].
  destruct (feed_spec fragments init [] r q rest W) as (q0 & E0 & Hq0); try done.
  exists q0. split; [done|]. intros Hr. destruct (Hq0 Hr) as (c & Hc & -> & ->). split; [done|].
  rewrite drop_drop. f_equal. unfold rewind. cbn. lia.
Qed.

(** C18: A completed request is settled: bytes that arrive behind it, such as a
    pipelined request, change neither the request nor the number of bytes it
    consumed; and what it consumed lies inside the buffer. *)
Theorem pipelined_request_settled p buffer more q :
  wf p (len buffer) → len (buffer ++ more) < U64 → parse p buffer = Some (Complete, q) →
  parse p (buffer ++ more) = Some (Complete, q) ∧ cursor p ≤ getConsumedBytes q ≤ len buffer.
Proof.
  intros W Hlen E. destruct (parse_extends p buffer more _ _ W Hlen E) as [_ Hs].
  destruct (parse_sound _ _ _ _ W E eq_refl) as (Wq & ? & _). pose proof (wf_cursor _ _ Wq).
  split; [by apply Hs|unfold getConsumedBytes; lia].
Qed.

(** C17: A request the parser accepts is well formed: a valid method and target,
    version 1.1, valid header names, exactly one [Host], never both a
    [Content-Length] and a [Transfer-Encoding], at most 100 headers and 1 MiB of
    body; and a declared length is the length of the body. *)
Theorem complete_request_valid p buffer q :
  wf p (len buffer) → parse p buffer = Some (Complete, q) →
  let r := getRequest q in
  valid_start r ∧ Forall (λ h, isValidHeaderName h.1 = true) (headers r) ∧
  count_headers is_host r = 1 ∧
  existsb is_length (headers r) && existsb is_encoding (headers r) = false ∧
  len (headers r) ≤ MAX_HEADER_COUNT ∧ len (body r) ≤ MAX_BODY_SIZE ∧
  (∀ h, h ∈ headers r → is_length h = true → length_digits h.2 0 = inr (len (body r))).
Proof.
  intros W E. destruct (parse_sound _ _ _ _ W E eq_refl) as (Wq & _ & F).
  destruct (F eq_refl) as (Hstart & Hhost & Hex & Hlen). unfold getRequest. cbv zeta.
  pose proof (wf_host_count _ _ Wq) as [Hc _]. pose proof (wf_header_count _ _ Wq) as [Hh Hm].
  rewrite <- (wf_has_length _ _ Wq), <- (wf_has_encoding _ _ Wq).
  split_and!; try done; [apply (wf_names _ _ Wq)|congruence|congruence|apply (wf_body _ _ Wq)|].
  intros h Hin Hl. rewrite Hlen; [by eapply content_length_of_header|].
  apply andb_false_iff in Hex as [Hx|Hx]; [|done].
  assert (has_content_length q = true) as Ht; [|congruence].
  rewrite (wf_has_length _ _ Wq). apply existsb_exists. exists h.
  split; [by apply list_elem_of_In|done].
Qed.

(** A declared body length is read exactly: the digits are accepted iff all
    are decimal and the number they spell is at most [MAX_BODY_SIZE], and then
    the parsed value is that number; no wrap-around of [std::size_t] can
    occur. *)
Theorem content_length_exact digits n :
  length_digits digits 0 = inr n ↔
  forallb isdigit digits = true ∧ numeral 10 digits = n ∧ n ≤ MAX_BODY_SIZE.
Proof. apply length_digits_iff. unfold MAX_BODY_SIZE. lia. Qed.

(** A chunk size is read exactly: the line is accepted iff the text before
    any extension, blanks removed, is a non-empty hexadecimal numeral of at most
    [MAX_BODY_SIZE], and then the size is that number. *)
Theorem chunk_size_exact line n :
  isValidChunkSize line = Some n ↔
  chunk_number line ≠ [] ∧ forallb isxdigit (chunk_number line) = true ∧
  numeral 16 (chunk_number line) = n ∧ n ≤ MAX_BODY_SIZE.
Proof.
  unfold isValidChunkSize. cbv zeta. fold (chunk_number line).
  destruct (Z.eqb_spec (len (chunk_number line)) 0) as [E|E].
  - apply len_0 in E as ->. split; [done|by intros []].
  - rewrite chunk_digits_iff by (unfold MAX_BODY_SIZE; lia). unfold numeral.
    split; [|by intros []]. intros H. split; [|done]. by intros Hn; rewrite Hn in E.
Qed.

(** C19: Round trip: a request written out with its body is parsed back to
    itself, whatever follows it, and exactly its bytes are consumed. *)
Theorem parse_render_request r rest :
  wire_start r → wire_headers (len (body r)) (headers r) →
  existsb is_encoding (headers r) = false →
  (existsb is_length (headers r) = false → body r = []) →
  len (render_request r ++ rest) < U64 →
  ∃ q, parse init (render_request r ++ rest) = Some (Complete, q) ∧
    getRequest q = r ∧ getConsumedBytes q = len (render_request r).
Proof.
  intros Hs Hh Henc Hnone Hlen. rewrite render_request_app in *.
  destruct (parse_head (len (body r)) r (body r ++ rest) Hs Hh Hlen)
    as (p & E & W & S & Hr & Hc & Hd). rewrite Henc in S.
  destruct (step_plain_body r p _ rest W S Hh Hnone Hr Hd) as (q & E1 & Hq & Hcq).
  exists q. rewrite E, parse_unfold, E1 by done. split_and!; [done..|].
  unfold getConsumedBytes, render_request. rewrite Hcq, Hc, len_app. lia.
Qed.

(** C20: Round trip for chunked bodies: a request whose body is sent in chunks
    of any sizes, ended by a zero-size line, is parsed to the request with the
    chunks joined. *)
Theorem parse_render_chunked r cs last rest :
  wire_start r → wire_headers 0 (headers r) → existsb is_encoding (headers r) = true →
  Forall wire_chunk cs → body r = concat (snd <$> cs) → len (body r) ≤ MAX_BODY_SIZE →
  isValidChunkSize last = Some 0 → no_char CR last = true → len last ≤ MAX_HEADER_LINE_SIZE →
  len (render_chunked r cs last ++ rest) < U64 →
  ∃ q, parse init (render_chunked r cs last ++ rest) = Some (Complete, q) ∧
    getRequest q = r ∧ getConsumedBytes q = len (render_chunked r cs last).
Proof.
  intros Hs Hh Henc Hcs Hbody Hmax Hv Hcr Hl Hlen.
  unfold render_chunked in *. rewrite <- !app_assoc in *.
  destruct (parse_head 0 r _ Hs Hh Hlen) as (p & E & W & S & Hr & Hc & Hd). rewrite Henc in S.
  destruct (parse_chunks cs p _ (last ++ CRLF ++ CRLF ++ rest) W S Hcs)
    as (p1 & E1 & W1 & S1 & Hr1 & Hc1 & Hd1);
    [rewrite Hr, <- Hbody; cbn; rewrite len_nil; lia|exact Hd|].
  destruct (step_size_line p1 _ last 0 (CRLF ++ rest) W1 S1 Hv Hcr Hl Hd1)
    as (p2 & E2 & S2 & _ & _ & Hr2 & Ht2 & Hc2 & Hd2).
  match type of E2 with step _ ?b = _ => pose proof (step_sound p1 b W1) as Hs2 end.
  rewrite E2 in Hs2. destruct Hs2 as [W2 _].
  rewrite (wf_no_trailer _ _ W1) in Ht2 by congruence.
  destruct (step_last_line p2 _ rest W2 S2 Ht2 Hd2) as (q & E3 & Hr3 & Hc3).
  exists q. rewrite E, E1, (parse_unfold p1), E2, (parse_unfold p2), E3 by done. split; [done|].
  unfold getRequest, getConsumedBytes. split.
  - rewrite Hr3, Hr2, Hr1, Hr. cbn. rewrite <- Hbody. by destruct r.
  - rewrite Hc3, Hc2, Hc1, Hc, !len_app. change (len CRLF) with 2. lia.
Qed.

(** C38: The exception of the fragmentation property is real: a request line of
    exactly [MAX_REQUEST_LINE_SIZE] bytes is accepted when it arrives whole, and
    refused as too large when the read ends between its [CR] and its [LF]. *)
Theorem limit_line_split_refused r :
  wire_start r → wire_headers (len (body r)) (headers r) →
  existsb is_encoding (headers r) = false →
  (existsb is_length (headers r) = false → body r = []) →
  len (render_request r) < U64 → len (start_line r) = MAX_REQUEST_LINE_SIZE →
  let first := start_line r ++ [CR] in
  let second := LF :: render_headers (headers r) ++ CRLF ++ body r in
  (∃ q, parse init (first ++ second) = Some (Complete, q)) ∧
  feed init [] [first; second] = Some (RequestLineTooLarge, init, first ++ second).
Proof.
  intros Hs Hh Henc Hnone Hlen Hmax first second.
  assert (first ++ second = render_request r ++ []) as Hsame.
  { subst first second. unfold render_request, render_head. change CRLF with [CR; LF] at 2.
    rewrite app_nil_r, <- !app_assoc. done. }
  split.
  { rewrite Hsame. destruct (parse_render_request r [] Hs Hh Henc Hnone) as (q & E & _); [|by exists q].
    by rewrite app_nil_r. }
  cbn [feed app]. assert (parse init first = Some (RequestLineTooLarge, init)) as ->.
  { rewrite parse_eq. cbn [parse_loop]. unfold step. cbn [state init]. unfold step_request_line.
    cbn [cursor init]. subst first. rewrite find_pending_CR by (apply start_line_no_CR, Hs).
    rewrite len_app, Hmax, sub64_small by (vm_compute; done). done. }
  cbn [concat]. by rewrite app_nil_r.
Qed.

(** ** Witnesses *)

Definition example_get : HttpRequest :=
  HttpRequest.mk (lit "GET") (lit "/a") (lit "HTTP/1.1") [(lit "Host", lit "h")] [].

Definition example_post : HttpRequest :=
  HttpRequest.mk (lit "POST") (lit "/tasks") (lit "HTTP/1.1")
    [(lit "host", lit "h"); (lit "content-LENGTH", lit "3")] (lit "abc").

Definition example_chunked : HttpRequest :=
  HttpRequest.mk (lit "POST") (lit "/") (lit "HTTP/1.1")
    [(lit "Host", lit "h"); (lit "Transfer-Encoding", lit "Chunked")] (lit "hello world").

Definition example_long : HttpRequest :=
  HttpRequest.mk (lit "GET") (replicate (Z.to_nat 8179) "a"%char) (lit "HTTP/1.1") [(lit "Host", lit "h")] [].

Ltac wire_compute :=
  repeat (split || constructor); vm_compute; try done; intros; discriminate.

Lemma parse_total_witness :
  ∃ r q, parse init (lit "GET") = Some (r, q) ∧
    (failure r = false → wf q (len (lit "GET")) ∧ cursor init ≤ cursor q ≤ len (lit "GET")).
Proof. apply (parse_total init (lit "GET")). apply wf_init. by vm_compute. Defined.

Lemma fragmentation_independent_witness :
  ∃ r q rest, feed init [] [lit "GE"; lit "T /"] = Some (r, q, rest) ∧
    (line_limit r = true ∨
     ∃ q0, parse init (concat [lit "GE"; lit "T /"]) = Some (r, q0) ∧
       (failure r = false →
          request q = request q0 ∧
          drop (Z.to_nat (cursor q)) rest = drop (Z.to_nat (cursor q0)) (concat [lit "GE"; lit "T /"]))).
Proof. apply (fragmentation_independent [lit "GE"; lit "T /"]). by vm_compute. Defined.

Lemma pipelined_request_settled_witness :
  ∃ q, parse init (render_request example_get ++ lit "GET") = Some (Complete, q) ∧
    cursor init ≤ getConsumedBytes q ≤ len (render_request example_get).
Proof.
  eexists. apply (pipelined_request_settled init (render_request example_get) (lit "GET")).
  - apply wf_init. by vm_compute.
  - by vm_compute.
  - vm_compute. reflexivity.
Defined.

Lemma complete_request_valid_witness : valid_start example_post ∧ count_headers is_host example_post = 1.
Proof.
  assert (wf init (len (render_request example_post))) as W by (apply wf_init; by vm_compute).
  eassert (parse init (render_request example_post) = Some (Complete, _)) as E
    by (vm_compute; reflexivity).
  destruct (complete_request_valid init _ _ W E) as (H1 & _ & H2 & _). by split.
Defined.

Lemma parse_render_request_witness :
  ∃ q, parse init (render_request example_post ++ lit "GET /") = Some (Complete, q) ∧
    getRequest q = example_post ∧ getConsumedBytes q = len (render_request example_post).
Proof. apply (parse_render_request example_post (lit "GET /")); wire_compute. Defined.

Lemma parse_render_chunked_witness :
  let cs := [(lit "6", lit "hello "); (lit "5;ext=1", lit "world")] in
  ∃ q, parse init (render_chunked example_chunked cs (lit "0") ++ []) = Some (Complete, q) ∧
    getRequest q = example_chunked ∧
    getConsumedBytes q = len (render_chunked example_chunked cs (lit "0")).
Proof. apply parse_render_chunked; wire_compute. Defined.

Lemma limit_line_split_refused_witness :
  (∃ q, parse init ((start_line example_long ++ [CR]) ++
     LF :: render_headers (headers example_long) ++ CRLF ++ body example_long) = Some (Complete, q)).
Proof. apply (limit_line_split_refused example_long); wire_compute. Defined.
