(* ===== verification/Conn.v ===== *)
(** * Client connections

    [src/net/Connection.cpp]: the receive buffer with its parser, and the queue
    of memory and file segments waiting to be sent. *)

From S2P Require Import Prelude.
From S2P Require Import Sys.
From S2P Require Import Progress.
From S2P Require Import Request.
From S2P Require Import Parser.
Import HttpRequest (HttpRequest).

Module Connection.

Definition MAX_RECEIVE_BUFFER : Z := 64 * 1024.
Definition MAX_OUTPUT_QUEUE_SIZE : Z := 8 * 1024 * 1024.

Inductive Type_ := Memory | File.

#[global] Instance Type_eq_dec : EqDecision Type_.
Proof. solve_decision. Defined.

Record OutputBuffer := mk_output {
  type : Type_;
  data : bytes;
  offset : Z;
  file_fd : Z;
  file_size : Z
}.

#[global] Instance eta_OutputBuffer : Eta OutputBuffer :=
  fun o => mk_output (type o) (data o) (offset o) (file_fd o) (file_size o).

Record Connection := mk {
  fd : Z;
  reactor_id : Z;
  receive_buffer : bytes;
  output_queue : list OutputBuffer;
  output_queue_size : Z;
  parser : HttpParser.HttpParser;
  close_after_write : bool
}.

#[global] Instance eta_Connection : Eta Connection :=
  fun c => mk (fd c) (reactor_id c) (receive_buffer c) (output_queue c) (output_queue_size c)
    (parser c) (close_after_write c).

Inductive ReadResult := DataReceived | Disconnected | ReadError | BufferFull | ReadWouldBlock.

Inductive WriteResult := WriteComplete | WriteWouldBlock | WriteError.

#[global] Instance ReadResult_eq_dec : EqDecision ReadResult.
Proof. solve_decision. Defined.

#[global] Instance WriteResult_eq_dec : EqDecision WriteResult.
Proof. solve_decision. Defined.

Section Connection.
Context {K : Kernel}.
Abbreviation M := (Prog Connection).

Definition construct (fd reactor_id : Z) : Connection :=
  mk fd reactor_id [] [] 0 HttpParser.init false.

Definition getFd (c : Connection) : Z := fd c.

Definition getReactorId (c : Connection) : Z := reactor_id c.

(** [closeOutputFile] of an entry that is about to be removed; the entry's own
    [file_fd = -1] is not observable. *)
Definition closeOutputFile {S} (output : OutputBuffer) : Prog S () :=
  if negb (file_fd output =? -1) then sys (sys_close (file_fd output)) ;; mret ()
  else mret ().

Definition destruct : M () :=
  queue ← gets output_queue;
  for_each queue closeOutputFile ;;
  fd ← gets fd;
  if negb (fd =? -1) then sys (sys_close fd) ;; mret () else mret ().

(** Interrupted calls are repeated by recursion. *)
Fixpoint read (fuel : nat) : M ReadResult :=
  match fuel with
  | O => exhausted
  | S fuel' =>
      buffered ← gets receive_buffer;
      if len buffered >=? MAX_RECEIVE_BUFFER then mret BufferFull
      else
        let remaining := sub64 MAX_RECEIVE_BUFFER (len buffered) in
        let bytes_to_read := if remaining >? 4096 then 4096 else remaining in
        fd ← gets fd;
        a ← sys (sys_recv fd bytes_to_read false);
        if ret a >? 0 then
          modify (λ c, c <| receive_buffer := receive_buffer c ++ Sys.data a |>) ;;
          mret DataReceived
        else if ret a =? 0 then mret Disconnected
        else if errno a =? EINTR then read fuel'
        else if (errno a =? EAGAIN) || (errno a =? EWOULDBLOCK) then mret ReadWouldBlock
        else mret ReadError
  end.

(** [output_queue_size -= size; output_queue.pop_front();] *)
Definition pop_front (size : Z) : M () :=
  modify (λ c, c <| output_queue_size := sub64 (output_queue_size c) size |>
                 <| output_queue := tail (output_queue c) |>).

(** [output.offset += sent], for the entry at the front. *)
Definition advance (sent : Z) : M () :=
  modify (λ c, c <| output_queue :=
    match output_queue c with
    | output :: rest => (output <| offset := offset output + sent |>) :: rest
    | [] => []
    end |>).

Fixpoint write (fuel : nat) : M WriteResult :=
  match fuel with
  | O => exhausted
  | S fuel' =>
      queue ← gets output_queue;
      match queue with
      | [] => mret WriteComplete
      | output :: _ =>
          fd ← gets fd;
          match type output with
          | Memory =>
              if offset output >=? len (data output) then
                pop_front (len (data output)) ;; write fuel'
              else
                a ← sys (sys_send fd (substr_from (data output) (offset output)));
                if ret a >? 0 then
                  advance (ret a) ;;
                  if offset output + ret a =? len (data output) then
                    pop_front (len (data output)) ;; write fuel'
                  else write fuel'
                else if (ret a =? -1) && ((errno a =? EAGAIN) || (errno a =? EWOULDBLOCK))
                then mret WriteWouldBlock
                else if (ret a =? -1) && (errno a =? EINTR) then write fuel'
                else mret WriteError
          | File =>
              if offset output >=? file_size output then
                closeOutputFile output ;; pop_front (file_size output) ;; write fuel'
              else
                a ← sys (sys_sendfile fd (file_fd output) (offset output)
                           (sub64 (file_size output) (offset output)));
                if ret a >? 0 then
                  advance (ret a) ;;
                  if offset output + ret a =? file_size output then
                    closeOutputFile output ;; pop_front (file_size output) ;; write fuel'
                  else write fuel'
                else if ret a =? 0 then
                  closeOutputFile output ;; pop_front (file_size output) ;; write fuel'
                else if (errno a =? EAGAIN) || (errno a =? EWOULDBLOCK) then mret WriteWouldBlock
                else if errno a =? EINTR then write fuel'
                else mret WriteError
          end
      end
  end.

Definition getReceiveBuffer (c : Connection) : bytes := receive_buffer c.

Definition consumeParsedBytes : M Z :=
  p ← gets parser;
  let '(consumed, p) := HttpParser.consumeParsedBytes p in
  modify (λ c, c <| parser := p |>) ;;
  if consumed =? 0 then mret 0
  else
    buffered ← gets receive_buffer;
    if consumed >=? len buffered then
      modify (λ c, c <| receive_buffer := [] |>) ;; mret consumed
    else
      modify (λ c, c <| receive_buffer := substr_from (receive_buffer c) consumed |>) ;;
      mret consumed.

Definition parseRequest : M HttpParser.ParseResult := λ c w,
  match HttpParser.parse (parser c) (receive_buffer c) with
  | Some (r, p) => Some (r, c <| parser := p |>, w)
  | None => None
  end.

Definition getRequest (c : Connection) : HttpRequest := HttpParser.getRequest (parser c).

Definition getConsumedBytes (c : Connection) : Z := HttpParser.getConsumedBytes (parser c).

Definition resetParser : M () := modify (λ c, c <| parser := HttpParser.reset (parser c) |>).

(** [output_queue.push_back(output); output_queue_size += size;] *)
Definition push_back (output : OutputBuffer) (size : Z) : M () :=
  modify (λ c, c <| output_queue := output_queue c ++ [output] |>
                 <| output_queue_size := output_queue_size c + size |>).

Definition queueResponse (response : bytes) : M bool :=
  queued ← gets output_queue_size;
  if len response >? MAX_OUTPUT_QUEUE_SIZE then mret false
  else if queued + len response >? MAX_OUTPUT_QUEUE_SIZE then mret false
  else
    push_back (mk_output Memory response 0 (-1) 0) (len response) ;;
    mret true.

Definition queueFile (path : bytes) (size : Z) : M bool :=
  queued ← gets output_queue_size;
  if size >? MAX_OUTPUT_QUEUE_SIZE then mret false
  else if queued + size >? MAX_OUTPUT_QUEUE_SIZE then mret false
  else
    a ← sys (sys_open (c_str path));
    if ret a =? -1 then mret false
    else
      push_back (mk_output File [] 0 (ret a) size) size ;;
      mret true.

Definition hasPendingOutput (c : Connection) : bool :=
  match output_queue c with [] => false | _ => true end.

Definition getOutputQueueSize (c : Connection) : Z := output_queue_size c.

Definition setCloseAfterWrite (value : bool) : M () := modify (λ c, c <| close_after_write := value |>).

Definition shouldCloseAfterWrite (c : Connection) : bool := close_after_write c.

End Connection.
End Connection.
Import Connection.
