(* ===== verification/ConnFlow.v ===== *)
(** * What a connection sends

    The output queue as a first-in first-out stream: what [write] puts on the
    wire, in which order, when it stops, and which descriptors it releases. *)

From S2P Require Import Prelude.
From S2P Require Import Sys.
From S2P Require Import Progress.
From S2P Require Import Parser.
From S2P Require Import Conn.
Import Connection.

(** ** The stream *)

(** A byte of a memory segment, a position of an open file, or a position that
    was due but lies behind the end of the file. *)
Inductive item := Byte (c : ascii) | FileByte (file pos : Z) | Missing (file pos : Z).

Definition wanted (i : item) : item :=
  match i with Missing file pos => FileByte file pos | _ => i end.

Definition entry_items (o : OutputBuffer) : list item :=
  match type o with
  | Memory => Byte <$> substr_from (data o) (offset o)
  | File => FileByte (file_fd o) <$> seqZ (offset o) (file_size o - offset o)
  end.

Definition stream (c : Connection) : list item := concat (entry_items <$> output_queue c).

(** What a call moves to the peer on [fd]; a [sendfile] that returns 0 has
    reached the end of its file early. *)
Definition emitted (fd : Z) (e : event) : list item :=
  match e.1 with
  | sys_send fd' d =>
      if (fd' =? fd) && (0 <? ret e.2) then Byte <$> take (Z.to_nat (ret e.2)) d else []
  | sys_sendfile fd' file off n =>
      if fd' =? fd then
        if 0 <? ret e.2 then FileByte file <$> seqZ off (ret e.2)
        else if ret e.2 =? 0 then Missing file <$> seqZ off n else []
      else []
  | _ => []
  end.

Fixpoint wire (fd : Z) (w : history) : list item :=
  match w with
  | [] => []
  | e :: w' => wire fd w' ++ emitted fd e
  end.

Lemma wire_app fd l w : wire fd (l ++ w) = wire fd w ++ wire fd l.
Proof.
  induction l as [|e l IH]; cbn; [by rewrite app_nil_r|]. by rewrite IH, app_assoc.
Qed.

(** ** The specification

    A connection's output is a queue of segments of bounded total size: a segment
    is accepted whole or not at all, its room is freed when all of it is gone,
    and items leave in order. *)

Abbreviation segment := (Z * list item)%type.

Inductive emits : list segment → list item → list segment → Prop :=
| emits_nil q : emits q [] q
| emits_item n i its q out q' :
    emits ((n, its) :: q) out q' → emits ((n, i :: its) :: q) (i :: out) q'
| emits_done n q out q' : emits q out q' → emits ((n, []) :: q) out q'.

Definition reserved (q : list segment) : Z := foldr Z.add 0 (fst <$> q).

Definition items (q : list segment) : list item := concat (snd <$> q).

Inductive label := Accepted (its : list item) | TooLarge (n : Z) | NoFile
| Sent (r : WriteResult) (out : list item).

Inductive spec_step : list segment → label → list segment → Prop :=
| spec_accept q its :
    reserved q + len its ≤ MAX_OUTPUT_QUEUE_SIZE → spec_step q (Accepted its) (q ++ [(len its, its)])
| spec_too_large q n : MAX_OUTPUT_QUEUE_SIZE < reserved q + n → spec_step q (TooLarge n) q
| spec_no_file q : spec_step q NoFile q
| spec_sent q r out q' : emits q out q' → (r = WriteComplete ↔ q' = []) → spec_step q (Sent r out) q'.

Inductive spec_steps : list segment → list label → list segment → Prop :=
| spec_stay q : spec_steps q [] q
| spec_go q x q1 xs q2 : spec_step q x q1 → spec_steps q1 xs q2 → spec_steps q (x :: xs) q2.

Definition accepted (xs : list label) : list item :=
  concat ((λ x, match x with Accepted its => its | _ => [] end) <$> xs).

Definition sent (xs : list label) : list item :=
  concat ((λ x, match x with Sent _ out => out | _ => [] end) <$> xs).

Lemma emits_trans q out q1 out' q2 : emits q out q1 → emits q1 out' q2 → emits q (out ++ out') q2.
Proof. induction 1; cbn; intros; [done|constructor; auto..]. Qed.

Lemma emits_prefix n a b q : emits ((n, a ++ b) :: q) a ((n, b) :: q).
Proof. induction a; cbn; constructor. done. Qed.

Lemma emits_segment n a q : emits ((n, a) :: q) a q.
Proof. induction a; constructor; [constructor|done]. Qed.

Lemma emits_items q out q' : emits q out q' → items q = out ++ items q'.
Proof. unfold items. induction 1; cbn in *; [done| |done]. by f_equal. Qed.

Lemma items_app q k : items (q ++ k) = items q ++ items k.
Proof. unfold items. by rewrite fmap_app, concat_app. Qed.

(** First in, first out: what was accepted is what was sent, in order, followed
    by what is still waiting. *)
Lemma spec_fifo q xs q' : spec_steps q xs q' → items q ++ accepted xs = sent xs ++ items q'.
Proof.
  unfold accepted, sent. induction 1 as [q|q x q1 xs q2 Hx _ IH]; cbn; [by rewrite app_nil_r|].
  destruct Hx as [q its Hle|q n Hlt|q|q r out q' He Hr]; cbn in *; try done.
  - rewrite items_app, <- app_assoc in IH. cbn in IH. by rewrite app_nil_r in IH.
  - rewrite (emits_items _ _ _ He), <- !app_assoc. by rewrite IH.
Qed.

(** ** Well-formed connections *)

Definition entry_size (o : OutputBuffer) : Z :=
  match type o with Memory => len (data o) | File => file_size o end.

Definition entry_ok (o : OutputBuffer) : Prop :=
  0 ≤ offset o ≤ entry_size o ∧
  match type o with Memory => file_fd o = -1 | File => file_fd o ≠ -1 end.

Definition total_size (q : list OutputBuffer) : Z := foldr Z.add 0 (entry_size <$> q).

Definition entry_files (o : OutputBuffer) : list Z :=
  match type o with Memory => [] | File => [file_fd o] end.

Definition queue_files (q : list OutputBuffer) : list Z := concat (entry_files <$> q).

(** The descriptors of the files waiting to be sent. *)
Definition files (c : Connection) : gset Z := list_to_set (queue_files (output_queue c)).

Record wf (c : Connection) : Prop := {
  wf_entries : Forall entry_ok (output_queue c);
  wf_files : NoDup (queue_files (output_queue c));
  wf_total : output_queue_size c = total_size (output_queue c);
  wf_limit : output_queue_size c ≤ MAX_OUTPUT_QUEUE_SIZE;
  wf_receive : len (receive_buffer c) ≤ MAX_RECEIVE_BUFFER
}.

(** The abstraction. *)
Definition segments (c : Connection) : list segment :=
  (λ o, (entry_size o, entry_items o)) <$> output_queue c.

Lemma items_segments c : items (segments c) = stream c.
Proof. unfold items, segments, stream. by rewrite <- list_fmap_compose. Qed.

Lemma reserved_segments c : reserved (segments c) = total_size (output_queue c).
Proof. unfold reserved, segments, total_size. by rewrite <- list_fmap_compose. Qed.

Lemma entry_ok_size o : entry_ok o → 0 ≤ entry_size o.
Proof. intros [H _]. lia. Qed.

Lemma total_size_nonneg q : Forall entry_ok q → 0 ≤ total_size q.
Proof.
  induction 1 as [|o q Ho _ IH]; [done|]. cbn. apply entry_ok_size in Ho. unfold total_size in IH. lia.
Qed.

Lemma total_size_app q k : total_size (q ++ k) = total_size q + total_size k.
Proof.
  unfold total_size. induction q as [|o q IH]; [done|]. cbn. rewrite IH. lia.
Qed.

(** ** Moving a segment *)

(** [c'] is [c] with a part of its queue gone, and the calls [l] account for
    what is missing. *)
Record progress (c : Connection) (l : history) (c' : Connection) : Prop := {
  pg_emits : emits (segments c) (wanted <$> wire (fd c) l) (segments c');
  pg_rest : c' = c <| output_queue := output_queue c' |> <| output_queue_size := output_queue_size c' |>;
  pg_wf : wf c';
  pg_files : ∀ F w, F ## files c → holds_fds (F ∪ files c) w →
    F ## files c' ∧ holds_fds (F ∪ files c') (l ++ w)
}.

Lemma progress_same c l :
  wf c → wire (fd c) l = [] → Forall (λ e, neutral e.1 = true) l → progress c l c.
Proof.
  intros Hwf Hl Hn. split; [rewrite Hl; constructor|by destruct c|done|].
  intros F w HF Hw. split; [done|]. eapply holds_quiet; [|exact Hw]. by exists l.
Qed.

Lemma progress_trans c l c1 k c2 : progress c l c1 → progress c1 k c2 → progress c (k ++ l) c2.
Proof.
  intros [S1 R1 W1 F1] [S2 R2 W2 F2]. assert (fd c1 = fd c) as Hfd by by rewrite R1.
  split; [|rewrite R2, R1; by destruct c| done|].
  - rewrite wire_app, fmap_app. rewrite Hfd in S2. by eapply emits_trans.
  - intros F w HF Hw. destruct (F1 F w HF Hw) as [HF1 Hw1].
    rewrite <- app_assoc. by apply F2.
Qed.

Definition popped (size : Z) (c : Connection) : Connection :=
  c <| output_queue_size := sub64 (output_queue_size c) size |> <| output_queue := tail (output_queue c) |>.

Definition advanced (n : Z) (c : Connection) : Connection :=
  c <| output_queue :=
    match output_queue c with
    | output :: rest => (output <| offset := offset output + n |>) :: rest
    | [] => []
    end |>.

Lemma popped_advanced size n c : popped size (advanced n c) = popped size c.
Proof. unfold popped, advanced. by destruct c as [? ? ? [] ? ? ?]. Qed.

Lemma popped_wf c o rest : wf c → output_queue c = o :: rest → wf (popped (entry_size o) c).
Proof.
  intros [He Hf Ht Hl Hr] Hq. rewrite Hq in He, Hf, Ht. apply Forall_cons in He as [Ho He].
  pose proof (entry_ok_size _ Ho). pose proof (total_size_nonneg _ He).
  change (output_queue_size c = entry_size o + total_size rest) in Ht.
  assert (output_queue_size (popped (entry_size o) c) = total_size rest) as E.
  { unfold MAX_OUTPUT_QUEUE_SIZE in *. cbn. rewrite sub64_small; [lia|lia|]. unfold U64. lia. }
  split; rewrite ?E; cbn; rewrite ?Hq; try done; [|lia].
  by apply NoDup_app in Hf as (_ & _ & ?).
Qed.

(** A segment leaves the queue; a file's descriptor is closed. *)
Lemma progress_pop c o rest l k :
  wf c → output_queue c = o :: rest →
  wanted <$> wire (fd c) l = entry_items o → Forall (λ e, neutral e.1 = true) l →
  match type o with Memory => k = [] | File => ∃ a, k = [(sys_close (file_fd o), a)] end →
  progress c (k ++ l) (popped (entry_size o) c).
Proof.
  intros Hwf Hq Hl Hn Hk. pose proof (popped_wf c o rest Hwf Hq) as Hwf'.
  assert (wire (fd c) k = []) as Hwk by (destruct (type o); [by subst|by destruct Hk as [a ->]]).
  split; [|by destruct c|done|].
  - unfold segments. cbn. rewrite Hq. rewrite wire_app, Hwk, app_nil_r, Hl. apply emits_segment.
  - intros F w HF Hw. unfold files in *. cbn. rewrite Hq in *. cbn [tail].
    assert (holds_fds (F ∪ list_to_set (queue_files (o :: rest))) (l ++ w)) as Hw1.
    { eapply holds_quiet; [|exact Hw]. by exists l. }
    rewrite <- app_assoc. pose proof (wf_files _ Hwf) as Hnd. rewrite Hq in Hnd.
    unfold queue_files in *. cbn [fmap list_fmap concat] in *. unfold entry_files at 1 in Hnd. unfold entry_files at 1 in HF. unfold entry_files at 1 in Hw1.
    destruct (type o); [by subst|]. destruct Hk as [a ->]. cbn [app list_to_set] in *.
    apply NoDup_cons in Hnd as [Hnin _].
    split; [set_solver|]. apply (holds_close _ (file_fd o) a) in Hw1; [|apply elem_of_union_r, elem_of_union_l, elem_of_singleton; done].
    cbn [app]. revert Hw1. set (G := list_to_set (concat (entry_files <$> rest)) : gset Z) in *.
    assert (file_fd o ∉ G) as HG by (unfold G; by rewrite elem_of_list_to_set).
    replace ((F ∪ ({[file_fd o]} ∪ G)) ∖ {[file_fd o]}) with (F ∪ G); [done|].
    clearbody G. clear - HF HG. set_solver.
Qed.

(** A part of the segment at the front has been sent. *)
Lemma progress_advance c o rest n e :
  wf c → output_queue c = o :: rest → 0 ≤ n → offset o + n ≤ entry_size o →
  emitted (fd c) e ++ entry_items (o <| offset := offset o + n |>) = entry_items o →
  wanted <$> emitted (fd c) e = emitted (fd c) e → neutral e.1 = true →
  progress c [e] (advanced n c).
Proof.
  intros [He Hf Ht Hl Hr] Hq Hn Hle Hitems Hwant Hneu.
  assert (output_queue (advanced n c) = (o <| offset := offset o + n |>) :: rest) as Hq'.
  { cbn. by rewrite Hq. }
  rewrite Hq in He, Hf, Ht. apply Forall_cons in He as [[Ho1 Ho2] He]. split.
  - unfold segments. rewrite Hq, Hq'. cbn [fmap list_fmap wire app]. rewrite Hwant, <- Hitems.
    apply emits_prefix.
  - by destruct c.
  - split; rewrite ?Hq'; try done. constructor; [|done]. split; [|done]. unfold entry_size in *. cbn. destruct (type o); lia.
  - intros F w HF Hw. unfold files in *. rewrite Hq', Hq in *. split; [exact HF|].
    apply (holds_quiet _ w); [|done]. exists [e]. split; [done|by constructor].
Qed.

(** ** One turn of the loop *)

Section Writing.
Context {K : Kernel} (n : nat) {P : Patient K n} {HK : Honest K}.

(** How much [write] has left to do. *)
Definition backlog_size (c : Connection) : nat := length (stream c) + length (output_queue c).

Definition work (c : Connection) (w : history) : nat := backlog_size c * (n + 1) + budget n w.

(** The last call failed: the socket is full, or it is broken. *)
Definition transmits (c : call) : Prop :=
  match c with sys_send _ _ | sys_sendfile _ _ _ _ => True | _ => False end.

Definition stopped (r : WriteResult) (e : event) : Prop :=
  transmits e.1 ∧
  match r with
  | WriteComplete => False
  | WriteWouldBlock => ret e.2 = -1 ∧ errno e.2 = EAGAIN
  | WriteError => ret e.2 ≤ 0 ∧ errno e.2 ≠ EINTR ∨ ret e.2 = 0
  end.

Inductive turn (c : Connection) (w : history) : Prop :=
| turn_on l c' :
    progress c l c' → (work c' (l ++ w) < work c w)%nat →
    (∀ fuel, write (S fuel) c w = write fuel c' (l ++ w)) → turn c w
| turn_stop r e :
    stopped r e → neutral e.1 = true → wire (fd c) [e] = [] →
    (∀ fuel, write (S fuel) c w = Some (r, c, e :: w)) → turn c w.

Lemma work_less c c' w w' :
  (backlog_size c' < backlog_size c)%nat → (work c' w' < work c w)%nat.
Proof. unfold work. pose proof (budget_le n w'). pose proof (budget_le n w). nia. Qed.

Lemma popped_less c o rest size :
  output_queue c = o :: rest → (backlog_size (popped size c) < backlog_size c)%nat.
Proof.
  intros Hq. unfold backlog_size, stream. cbn. rewrite Hq. cbn. rewrite length_app. lia.
Qed.

Lemma entry_items_length o : entry_ok o → Z.of_nat (length (entry_items o)) = entry_size o - offset o.
Proof.
  unfold entry_ok, entry_items, entry_size. intros [H _]. destruct (type o); rewrite length_fmap.
  - unfold substr_from. rewrite length_drop. len_lia.
  - rewrite length_seqZ. lia.
Qed.

Lemma advanced_less c o rest k :
  output_queue c = o :: rest → entry_ok o → 0 < k → offset o + k ≤ entry_size o →
  (backlog_size (advanced k c) < backlog_size c)%nat.
Proof.
  intros Hq Ho Hk Hle. unfold backlog_size, stream. cbn. rewrite Hq. cbn. rewrite !length_app.
  pose proof (entry_items_length _ Ho).
  set (o' := o <| offset := offset o + k |>).
  assert (entry_ok o') as Ho'.
  { destruct Ho as [? Hf]. split; [|done]. unfold entry_size in *. cbn. destruct (type o); lia. }
  pose proof (entry_items_length _ Ho') as H'.
  assert (entry_size o' = entry_size o) as E by done. rewrite E in H'. cbn in H'. lia.
Qed.

Lemma emitted_send fd' d a : emitted fd' (sys_send fd' d, a) = Byte <$> take (Z.to_nat (ret a)) d.
Proof.
  unfold emitted. cbn. rewrite Z.eqb_refl. cbn. destruct (Z.ltb_spec 0 (ret a)); [done|].
  by rewrite Z2Nat.nonpos.
Qed.

Lemma interrupted_less c w x :
  interrupted (respond w x) = true → (work c ((x, respond w x) :: w) < work c w)%nat.
Proof. intros H. unfold work. apply Nat.add_lt_mono_l. by apply budget_interrupted. Qed.

(** [offset += sent], then [pop_front] when the segment is done. *)
Lemma advance_eq k c w : advance k c w = Some ((), advanced k c, w).
Proof. done. Qed.

Lemma pop_front_eq size c w : pop_front size c w = Some ((), popped size c, w).
Proof. done. Qed.

Lemma memory_turn c w o rest :
  wf c → output_queue c = o :: rest → type o = Memory → turn c w.
Proof.
  intros Hwf Hq Ht. pose proof (wf_entries _ Hwf) as He. rewrite Hq in He.
  apply Forall_cons in He as [Ho _]. pose proof Ho as [Hoff _].
  assert (entry_size o = len (data o)) as Hsz by (unfold entry_size; by rewrite Ht).
  assert (entry_items o = Byte <$> substr_from (data o) (offset o)) as Hit
    by (unfold entry_items; by rewrite Ht).
  destruct (Z.geb_spec (offset o) (len (data o))) as [Hge|Hlt].
  { apply (turn_on _ _ [] (popped (entry_size o) c)); [|by eapply work_less, popped_less|].
    - apply (progress_pop c o rest [] []); try done; [|by rewrite Ht].
      rewrite Hit. unfold substr_from. rewrite drop_ge; [done|]. len_lia.
    - intros fuel. cbn [write]. unfold bind, gets. rewrite Hq, Ht.
      rewrite Z.geb_leb, (proj2 (Z.leb_le _ _)) by lia. by rewrite pop_front_eq, Hsz. }
  set (x := sys_send (fd c) (substr_from (data o) (offset o))). pose proof (HK w x) as [Hlow Hhigh].
  set (a := respond w x) in *. cbn in Hhigh. unfold substr_from in Hhigh. rewrite len_drop in Hhigh by lia.
  assert (∀ fuel, write (S fuel) c w =
    if ret a >? 0 then
      (advance (ret a) ;;
       if offset o + ret a =? len (data o) then pop_front (len (data o)) ;; write fuel
       else write fuel) c ((x, a) :: w)
    else if (ret a =? -1) && ((errno a =? EAGAIN) || (errno a =? EWOULDBLOCK))
    then Some (WriteWouldBlock, c, (x, a) :: w)
    else if (ret a =? -1) && (errno a =? EINTR) then write fuel c ((x, a) :: w)
    else Some (WriteError, c, (x, a) :: w)) as E.
  { intros fuel. cbn [write]. unfold bind at 1, gets at 1. rewrite Hq. unfold bind at 1, gets at 1. rewrite Ht.
    rewrite Z.geb_leb, (proj2 (Z.leb_gt _ _)) by lia. unfold bind at 1, sys. fold x a.
    by repeat case_match. }
  assert (emitted (fd c) (x, a) = Byte <$> take (Z.to_nat (ret a)) (substr_from (data o) (offset o))) as Hem
    by apply emitted_send.
  destruct (Z.gtb_spec (ret a) 0) as [Hpos|Hneg].
  - assert (emitted (fd c) (x, a) ++ entry_items (o <| offset := offset o + ret a |>) = entry_items o) as Hsplit.
    { rewrite Hem, Hit. unfold entry_items. cbn. rewrite Ht. unfold substr_from.
      rewrite <- fmap_app. f_equal.
      replace (Z.to_nat (offset o + ret a)) with (Z.to_nat (offset o) + Z.to_nat (ret a))%nat by lia.
      by rewrite <- drop_drop, take_drop. }
    assert (wanted <$> emitted (fd c) (x, a) = emitted (fd c) (x, a)) as Hw.
    { rewrite Hem. by rewrite <- list_fmap_compose. }
    destruct (Z.eqb_spec (offset o + ret a) (len (data o))) as [Hend|Hend].
    + apply (turn_on _ _ [(x, a)] (popped (entry_size o) c)); [|by eapply work_less, popped_less|].
      * apply (progress_pop c o rest [(x, a)] []); try done; [|by constructor|by rewrite Ht].
        cbn [wire app]. rewrite Hw, <- Hsplit. unfold entry_items. cbn -[emitted]. rewrite Ht.
        unfold substr_from. rewrite drop_ge by len_lia. by rewrite app_nil_r.
      * intros fuel. rewrite E. unfold bind. rewrite advance_eq, pop_front_eq, popped_advanced.
        by rewrite Hsz.
    + apply (turn_on _ _ [(x, a)] (advanced (ret a) c));
        [|eapply work_less, advanced_less; [done|done|lia|lia]|].
      * apply (progress_advance c o rest); try done; lia.
      * intros fuel. rewrite E. unfold bind. by rewrite advance_eq.
  - assert (emitted (fd c) (x, a) = []) as Hem0 by (rewrite Hem, Z2Nat.nonpos by lia; done).
    change EWOULDBLOCK with EAGAIN in E. rewrite orb_diag in E.
    destruct (Z.eqb_spec (ret a) (-1)) as [E1|E1]; cbn [andb] in E;
      [destruct (Z.eqb_spec (errno a) EAGAIN) as [E2|E2];
        [|destruct (Z.eqb_spec (errno a) EINTR) as [E3|E3]]|].
    + apply (turn_stop _ _ WriteWouldBlock (x, a)); try done; by split.
    + apply (turn_on _ _ [(x, a)] c); [apply progress_same; try done; by constructor| |exact E].
      apply interrupted_less. unfold interrupted. fold a. by rewrite E1, E3.
    + apply (turn_stop _ _ WriteError (x, a)); try done. split; [done|left]. cbn. lia.
    + apply (turn_stop _ _ WriteError (x, a)); try done. split; [done|right]. cbn. lia.
Qed.

Lemma closeOutputFile_eq o (c : Connection) w :
  file_fd o ≠ -1 →
  closeOutputFile o c w = Some ((), c, (sys_close (file_fd o), respond w (sys_close (file_fd o))) :: w).
Proof. intros H. unfold closeOutputFile. by rewrite (proj2 (Z.eqb_neq _ _)) by done. Qed.

Lemma seqZ_empty m k : k ≤ 0 → seqZ m k = [].
Proof. intros H. unfold seqZ. by rewrite Z2Nat.nonpos. Qed.

Lemma wanted_missing f (l : list Z) : wanted <$> (Missing f <$> l) = FileByte f <$> l.
Proof. by rewrite <- list_fmap_compose. Qed.

Lemma file_turn c w o rest :
  wf c → output_queue c = o :: rest → type o = File → turn c w.
Proof.
  intros Hwf Hq Ht. pose proof (wf_entries _ Hwf) as He. rewrite Hq in He.
  apply Forall_cons in He as [Ho He]. pose proof Ho as [Hoff Hfile]. rewrite Ht in Hfile.
  pose proof (total_size_nonneg _ He) as Hrest.
  assert (entry_size o = file_size o) as Hsz by (unfold entry_size; by rewrite Ht).
  assert (entry_items o = FileByte (file_fd o) <$> seqZ (offset o) (file_size o - offset o)) as Hit
    by (unfold entry_items; by rewrite Ht).
  assert (file_size o < U64) as Hmax.
  { pose proof (wf_limit _ Hwf) as Hl. rewrite (wf_total _ Hwf), Hq in Hl.
    change (entry_size o + total_size rest ≤ MAX_OUTPUT_QUEUE_SIZE) in Hl.
    unfold MAX_OUTPUT_QUEUE_SIZE, U64 in *. lia. }
  assert (∀ l, wanted <$> wire (fd c) l = entry_items o → Forall (λ e, neutral e.1 = true) l →
    (∀ fuel, write (S fuel) c w =
       (closeOutputFile o ;; pop_front (file_size o) ;; write fuel) c (l ++ w) ∨
     write (S fuel) c w =
       (advance (file_size o - offset o) ;; closeOutputFile o ;; pop_front (file_size o) ;; write fuel) c (l ++ w)) →
    turn c w) as Hpop.
  { intros l Hl Hn Hrun.
    set (e := (sys_close (file_fd o), respond (l ++ w) (sys_close (file_fd o)))).
    apply (turn_on _ _ (e :: l) (popped (entry_size o) c)); [|by eapply work_less, popped_less|].
    - apply (progress_pop c o rest l [e]); try done. rewrite Ht. by eexists.
    - intros fuel. destruct (Hrun fuel) as [-> | ->]; unfold bind; rewrite ?advance_eq,
        closeOutputFile_eq, pop_front_eq, ?popped_advanced, Hsz by done; done. }
  destruct (Z.geb_spec (offset o) (file_size o)) as [Hge|Hlt].
  { apply (Hpop []); [by rewrite Hit, seqZ_empty by lia|done|]. intros fuel. left.
    cbn [write]. unfold bind at 1, gets at 1. rewrite Hq. unfold bind at 1, gets at 1. rewrite Ht.
    by rewrite Z.geb_leb, (proj2 (Z.leb_le _ _)) by lia. }
  set (x := sys_sendfile (fd c) (file_fd o) (offset o) (sub64 (file_size o) (offset o))).
  pose proof (HK w x) as [Hlow Hhigh]. set (a := respond w x) in *.
  assert (sub64 (file_size o) (offset o) = file_size o - offset o) as Hsub by (apply sub64_small; lia).
  rewrite Hsub in Hhigh.
  assert (∀ fuel, write (S fuel) c w =
    if ret a >? 0 then
      (advance (ret a) ;;
       if offset o + ret a =? file_size o
       then closeOutputFile o ;; pop_front (file_size o) ;; write fuel
       else write fuel) c ((x, a) :: w)
    else if ret a =? 0 then
      (closeOutputFile o ;; pop_front (file_size o) ;; write fuel) c ((x, a) :: w)
    else if (errno a =? EAGAIN) || (errno a =? EWOULDBLOCK)
    then Some (WriteWouldBlock, c, (x, a) :: w)
    else if errno a =? EINTR then write fuel c ((x, a) :: w)
    else Some (WriteError, c, (x, a) :: w)) as E.
  { intros fuel. cbn [write]. unfold bind at 1, gets at 1. rewrite Hq. unfold bind at 1, gets at 1. rewrite Ht.
    rewrite Z.geb_leb, (proj2 (Z.leb_gt _ _)) by lia. unfold bind at 1, sys. fold x a.
    by repeat case_match. }
  assert (emitted (fd c) (x, a) =
    if 0 <? ret a then FileByte (file_fd o) <$> seqZ (offset o) (ret a)
    else if ret a =? 0 then Missing (file_fd o) <$> seqZ (offset o) (file_size o - offset o) else []) as Hem.
  { unfold emitted, x. cbn. by rewrite Z.eqb_refl, Hsub. }
  destruct (Z.gtb_spec (ret a) 0) as [Hpos|Hneg].
  - rewrite (proj2 (Z.ltb_lt _ _)) in Hem by done.
    assert (emitted (fd c) (x, a) ++ entry_items (o <| offset := offset o + ret a |>) = entry_items o) as Hsplit.
    { rewrite Hem, Hit. unfold entry_items. cbn. rewrite Ht, <- fmap_app. f_equal.
      rewrite <- seqZ_app by lia. f_equal. lia. }
    assert (wanted <$> emitted (fd c) (x, a) = emitted (fd c) (x, a)) as Hw.
    { rewrite Hem. by rewrite <- list_fmap_compose. }
    destruct (Z.eqb_spec (offset o + ret a) (file_size o)) as [Hend|Hend].
    + apply (Hpop [(x, a)]); [|by constructor|].
      * cbn [wire app]. rewrite Hw, <- Hsplit. unfold entry_items. cbn -[emitted]. rewrite Ht.
        rewrite seqZ_empty by lia. by rewrite app_nil_r.
      * intros fuel. right. rewrite E. by replace (file_size o - offset o) with (ret a) by lia.
    + apply (turn_on _ _ [(x, a)] (advanced (ret a) c));
        [|eapply work_less, advanced_less; [done|done|lia|lia]|].
      * apply (progress_advance c o rest); try done; lia.
      * intros fuel. rewrite E. unfold bind. by rewrite advance_eq.
  - rewrite (proj2 (Z.ltb_ge _ _)) in Hem by done.
    change EWOULDBLOCK with EAGAIN in E. rewrite orb_diag in E.
    destruct (Z.eqb_spec (ret a) 0) as [E1|E1].
    { apply (Hpop [(x, a)]); [|by constructor|by left].
      cbn [wire app]. by rewrite Hem, wanted_missing, Hit. }
    assert (ret a = -1) as E0 by lia.
    destruct (Z.eqb_spec (errno a) EAGAIN) as [E2|E2];
      [|destruct (Z.eqb_spec (errno a) EINTR) as [E3|E3]].
    + apply (turn_stop _ _ WriteWouldBlock (x, a)); try done; by split.
    + apply (turn_on _ _ [(x, a)] c); [apply progress_same; try done; by constructor| |exact E].
      apply interrupted_less. unfold interrupted. fold a. by rewrite E0, E3.
    + apply (turn_stop _ _ WriteError (x, a)); try done. split; [done|left]. cbn. lia.
Qed.

(** ** The loop *)

(** What [write] did: [l] are its calls. *)
Definition written (c : Connection) (r : WriteResult) (l : history) (c' : Connection) : Prop :=
  progress c l c' ∧ (r = WriteComplete ↔ output_queue c' = []) ∧
  match r with WriteComplete => True | _ => ∃ e l', l = e :: l' ∧ stopped r e end.

Lemma write_loop fuel c w :
  wf c → (work c w < fuel)%nat →
  ∃ r l c', (∀ fuel', (fuel ≤ fuel')%nat → write fuel' c w = Some (r, c', l ++ w)) ∧ written c r l c'.
Proof.
  revert c w. induction fuel as [|fuel IH]; intros c w Hwf Hf; [lia|].
  destruct (output_queue c) as [|o rest] eqn:Hq.
  { exists WriteComplete, [], c. split; [|split; [by apply progress_same|by rewrite Hq]].
    intros [|fuel'] Hle; [lia|]. cbn [write]. unfold bind, gets. by rewrite Hq. }
  assert (turn c w) as Hturn.
  { destruct (type o) eqn:Ht; [by eapply memory_turn|by eapply file_turn]. }
  destruct Hturn as [l c1 Hp Hw E|r e Hs Hn Hem E].
  - destruct (IH c1 (l ++ w) (pg_wf _ _ _ Hp)) as (r & k & c2 & E2 & Hp2 & Hq2 & Hstop); [lia|].
    exists r, (k ++ l), c2. split; [|split; [by eapply progress_trans|split; [done|]]].
    + intros [|fuel'] Hle; [lia|]. rewrite E, E2 by lia. by rewrite app_assoc.
    + destruct r; [done|..]; destruct Hstop as (e & l' & -> & ?); by exists e, (l' ++ l).
  - exists r, [e], c. split; [|split; [apply progress_same; try done; by constructor|]].
    + intros [|fuel'] Hle; [lia|]. apply E.
    + rewrite Hq. destruct r; [by destruct Hs|..]; (split; [done|]); by exists e, [].
Qed.

End Writing.

(** ** A connection in use *)

Inductive op := QueueResponse (response : bytes) | QueueFile (path : bytes) (size : Z) | Write.

(** The calls made between two moments, newest first. *)
Definition calls_since (w w' : history) : history := take (length w' - length w) w'.

Lemma calls_since_app l w : calls_since w (l ++ w) = l.
Proof. unfold calls_since. apply take_app_length'. rewrite length_app. lia. Qed.

(** An operation with what it did, read off its result and its calls. *)
Definition exec {K : Kernel} (fuel : nat) (o : op) : Prog Connection label := λ c w,
  match o with
  | QueueResponse b =>
      match queueResponse b c w with
      | Some (true, c', w') => Some (Accepted (Byte <$> b), c', w')
      | Some (false, c', w') => Some (TooLarge (len b), c', w')
      | None => None
      end
  | QueueFile path size =>
      match queueFile path size c w with
      | Some (true, c', (x, a) :: w') =>
          Some (Accepted (FileByte (ret a) <$> seqZ 0 size), c', (x, a) :: w')
      | Some (_, c', w') =>
          Some (if decide (calls_since w w' = []) then TooLarge size else NoFile, c', w')
      | None => None
      end
  | Write =>
      match write fuel c w with
      | Some (r, c', w') => Some (Sent r (wanted <$> wire (fd c) (calls_since w w')), c', w')
      | None => None
      end
  end.

Fixpoint run {K : Kernel} (fuel : nat) (ops : list op) : Prog Connection (list label) :=
  match ops with
  | [] => mret []
  | o :: ops' => x ← exec fuel o; xs ← run fuel ops'; mret (x :: xs)
  end.

Definition op_ok (o : op) : Prop := match o with QueueFile _ size => 0 ≤ size | _ => True end.

Section Running.
Context {K : Kernel} (n : nat) {P : Patient K n} {HK : Honest K} {HF : FreshFds K}.

(** What an operation guarantees, whatever other descriptors [F] are open. *)
Definition simulated (c : Connection) (w : history) (x : label) (l : history) (c' : Connection) : Prop :=
  spec_step (segments c) x (segments c') ∧ wf c' ∧ fd c' = fd c ∧
  match x with Sent _ out => out = wanted <$> wire (fd c) l | _ => wire (fd c) l = [] end ∧
  ∀ F, F ## files c → holds_fds (F ∪ files c) w → F ## files c' ∧ holds_fds (F ∪ files c') (l ++ w).

Definition pushed (o : OutputBuffer) (size : Z) (c : Connection) : Connection :=
  c <| output_queue := output_queue c ++ [o] |> <| output_queue_size := output_queue_size c + size |>.

Lemma pushed_wf o c :
  wf c → entry_ok o → output_queue_size c + entry_size o ≤ MAX_OUTPUT_QUEUE_SIZE →
  Forall (λ f, f ∉ files c) (entry_files o) → wf (pushed o (entry_size o) c).
Proof.
  intros [He Hf Ht Hl Hr] Ho Hle Hnew. split; cbn -[total_size queue_files]; try done.
  - by apply Forall_app_2, Forall_singleton.
  - unfold queue_files. rewrite fmap_app, concat_app. cbn. rewrite app_nil_r. unfold entry_files in *.
    apply NoDup_app. split_and!; [done| |destruct (type o); [constructor|apply NoDup_singleton]].
    intros f Hin. destruct (type o); [by intros ?%elem_of_nil|]. intros ->%list_elem_of_singleton.
    rewrite Forall_singleton in Hnew. apply Hnew. unfold files. by rewrite elem_of_list_to_set.
  - rewrite total_size_app, Ht. unfold total_size. cbn. lia.
Qed.

Lemma pushed_segments o size c : segments (pushed o size c) = segments c ++ [(entry_size o, entry_items o)].
Proof. unfold segments. cbn. by rewrite fmap_app. Qed.

Lemma pushed_files o size c : files (pushed o size c) = files c ∪ list_to_set (entry_files o).
Proof.
  unfold files, queue_files. cbn. rewrite fmap_app, concat_app. cbn. rewrite app_nil_r.
  apply list_to_set_app_L.
Qed.

Lemma exec_response fuel b c w :
  wf c → ∃ x c', exec fuel (QueueResponse b) c w = Some (x, c', w) ∧ simulated c w x [] c'.
Proof.
  intros Hwf. cbn [exec]. unfold queueResponse, bind, gets.
  rewrite !Z.gtb_ltb. pose proof (total_size_nonneg _ (wf_entries _ Hwf)) as H0.
  rewrite <- (wf_total _ Hwf) in H0. pose proof (reserved_segments c) as Hres.
  rewrite <- (wf_total _ Hwf) in Hres.
  assert (MAX_OUTPUT_QUEUE_SIZE < output_queue_size c + len b →
    simulated c w (TooLarge (len b)) [] c) as Hlarge.
  { intros H. split_and!; [apply spec_too_large; by rewrite Hres|done..]. }
  destruct (Z.ltb_spec MAX_OUTPUT_QUEUE_SIZE (len b)) as [H1|H1].
  { eexists _, _. split; [done|]. apply Hlarge. lia. }
  destruct (Z.ltb_spec MAX_OUTPUT_QUEUE_SIZE (output_queue_size c + len b)) as [H2|H2].
  { eexists _, _. split; [done|]. by apply Hlarge. }
  set (o := mk_output Memory b 0 (-1) 0). eexists _, _. split; [done|].
  change (simulated c w (Accepted (Byte <$> b)) [] (pushed o (len b) c)). split_and!.
  - rewrite pushed_segments. change (entry_items o) with (Byte <$> b).
    assert (entry_size o = len (Byte <$> b)) as -> by (cbn; len_lia).
    apply spec_accept. rewrite Hres. unfold len in *. by rewrite length_fmap.
  - apply (pushed_wf o); [done|split; [cbn; pose proof (len_nonneg b); lia|done]|done|by constructor].
  - done.
  - done.
  - intros F HFd Hw. rewrite pushed_files. cbn [list_to_set entry_files o type]. by rewrite union_empty_r_L.
Qed.

Lemma len_seqZ k : 0 ≤ k → len (seqZ 0 k) = k.
Proof. intros. unfold len. rewrite length_seqZ. lia. Qed.

Lemma exec_file fuel path size c w :
  wf c → 0 ≤ size →
  ∃ x c' l, exec fuel (QueueFile path size) c w = Some (x, c', l ++ w) ∧
    ∀ F0, F0 ## files c → holds_fds (F0 ∪ files c) w → simulated c w x l c'.
Proof.
  intros Hwf Hsize. cbn [exec]. unfold queueFile, bind, gets.
  rewrite !Z.gtb_ltb. pose proof (total_size_nonneg _ (wf_entries _ Hwf)) as H0.
  rewrite <- (wf_total _ Hwf) in H0. pose proof (reserved_segments c) as Hres.
  rewrite <- (wf_total _ Hwf) in Hres.
  assert (MAX_OUTPUT_QUEUE_SIZE < output_queue_size c + size → ∀ F0 : gset Z,
    F0 ## files c → holds_fds (F0 ∪ files c) w → simulated c w (TooLarge size) [] c) as Hlarge.
  { intros H F0 _ _. split_and!; [apply spec_too_large; by rewrite Hres|done..]. }
  assert (calls_since w w = []) as Hnone by apply (calls_since_app []).
  destruct (Z.ltb_spec MAX_OUTPUT_QUEUE_SIZE size) as [H1|H1].
  { eexists _, _, []. unfold mret, Prog_ret. rewrite decide_True by done. split; [done|]. apply Hlarge. lia. }
  destruct (Z.ltb_spec MAX_OUTPUT_QUEUE_SIZE (output_queue_size c + size)) as [H2|H2].
  { eexists _, _, []. unfold mret, Prog_ret. rewrite decide_True by done. split; [done|]. by apply Hlarge. }
  unfold sys. set (x := sys_open _). pose proof (HF w x) as Hfresh. set (a := respond w x) in *.
  destruct (Z.eqb_spec (ret a) (-1)) as [Ha|Ha].
  { eexists _, _, [(x, a)]. unfold mret, Prog_ret.
    rewrite (calls_since_app [(x, a)]), decide_False by done. split; [done|]. intros F0 HF0 Hw.
    split_and!; [apply spec_no_file|done..|]. intros F HFd Hw'. split; [done|].
    apply holds_open_failed; [|done|done]. cbn. by rewrite Ha. }
  assert (opened (x, a) = Some (ret a)) as Hop.
  { cbn. by rewrite (proj2 (Z.eqb_neq _ _)). }
  destruct (Hfresh _ Hop) as [_ Hnew].
  set (o := mk_output File [] 0 (ret a) size). eexists _, _, [(x, a)]. split; [done|].
  intros F0 HF0 Hw0. change (simulated c w (Accepted (FileByte (ret a) <$> seqZ 0 size)) [(x, a)] (pushed o size c)).
  assert (ret a ∉ files c) as Hnf.
  { intros Hin. apply Hnew. destruct Hw0 as [-> _]. by apply elem_of_union_r. }
  split_and!.
  - rewrite pushed_segments.
    assert (entry_items o = FileByte (ret a) <$> seqZ 0 size) as -> by (unfold entry_items; cbn; by rewrite Z.sub_0_r).
    assert (len (FileByte (ret a) <$> seqZ 0 size) = size) as Hlen.
    { unfold len. rewrite length_fmap. by apply len_seqZ. }
    change (entry_size o) with size. rewrite <- Hlen at 2. apply spec_accept. by rewrite Hres, Hlen.
  - apply (pushed_wf o); [done|split; [cbn; lia|done]|done|by apply Forall_singleton].
  - done.
  - done.
  - intros F HFd Hw. rewrite pushed_files. cbn [list_to_set entry_files o type].
    assert (ret a ∉ F) as HaF.
    { intros Hin. apply Hnew. destruct Hw as [-> _]. by apply elem_of_union_l. }
    split; [clear - HFd HaF; set_solver|].
    replace (F ∪ (files c ∪ ({[ret a]} ∪ ∅))) with ({[ret a]} ∪ (F ∪ files c)) by (clear; set_solver).
    by apply holds_open.
Qed.

Lemma exec_write c w :
  wf c → ∃ N x c' l, (∀ fuel, (N ≤ fuel)%nat → exec fuel Write c w = Some (x, c', l ++ w)) ∧
    simulated c w x l c'.
Proof.
  intros Hwf. destruct (write_loop n (S (work n c w)) c w Hwf) as (r & l & c' & E & Hp & Hq & _); [lia|].
  eexists (S (work n c w)), _, c', l. split.
  - intros fuel Hle. cbn [exec]. rewrite E by done. rewrite calls_since_app. done.
  - destruct Hp as [He Hr Hwf' Hf]. split_and!; [|done|by rewrite Hr|done|intros F; apply Hf].
    apply spec_sent; [done|]. rewrite Hq. unfold segments. split; [by intros ->|].
    by intros ?%fmap_nil_inv.
Qed.

Lemma exec_simulated o c w F :
  wf c → op_ok o → F ## files c → holds_fds (F ∪ files c) w →
  ∃ N x c' l, (∀ fuel, (N ≤ fuel)%nat → exec fuel o c w = Some (x, c', l ++ w)) ∧ simulated c w x l c'.
Proof.
  intros Hwf Ho HFd Hw. destruct o as [b|path size|].
  - destruct (exec_response 0 b c w Hwf) as (x & c' & E & Hs). by exists 0%nat, x, c', [].
  - destruct (exec_file 0 path size c w Hwf Ho) as (x & c' & l & E & Hs).
    exists 0%nat, x, c', l. split; [done|]. by apply (Hs F).
  - by apply exec_write.
Qed.

(** C7: A connection refines a bounded first-in first-out queue of segments.
    Whatever sequence of responses and files is queued and whenever the socket is
    written to, with any pattern of partial writes, full sockets and
    interruptions, every operation returns and is a step of that queue: a segment
    is refused exactly when the reserved sizes would exceed
    MAX_OUTPUT_QUEUE_SIZE (or its file cannot be opened), and [write] reports
    completion exactly when nothing is left.  Hence the bytes put on the wire
    followed by those still queued are the accepted ones in order, each exactly
    once (a position behind the end of a file that has shrunk counts as passed);
    and the descriptors of files are open exactly while they are queued. *)
Theorem connection_refines_fifo ops c w F :
  wf c → Forall op_ok ops → F ## files c → holds_fds (F ∪ files c) w →
  ∃ N xs c' l, (∀ fuel, (N ≤ fuel)%nat → run fuel ops c w = Some (xs, c', l ++ w)) ∧
    spec_steps (segments c) xs (segments c') ∧ wf c' ∧
    stream c ++ accepted xs = (wanted <$> wire (fd c) l) ++ stream c' ∧
    F ## files c' ∧ holds_fds (F ∪ files c') (l ++ w).
Proof.
  intros Hwf Hops HFd Hw.
  enough (∃ N xs c' l, (∀ fuel, (N ≤ fuel)%nat → run fuel ops c w = Some (xs, c', l ++ w)) ∧
    spec_steps (segments c) xs (segments c') ∧ wf c' ∧ sent xs = wanted <$> wire (fd c) l ∧
    F ## files c' ∧ holds_fds (F ∪ files c') (l ++ w))
    as (N & xs & c' & l & E & Hs & Hwf' & Hsent & Hf).
  { exists N, xs, c', l. split_and!; try done; [|by apply Hf..].
    rewrite <- Hsent, <- !items_segments. by apply spec_fifo. }
  revert c w Hwf HFd Hw. induction Hops as [|o ops Ho _ IH]; intros c w Hwf HFd Hw.
  { exists 0%nat, [], c, []. split_and!; try done. constructor. }
  destruct (exec_simulated o c w F Hwf Ho HFd Hw) as (N1 & x & c1 & l1 & E1 & Hst & Hwf1 & Hfd & Hx & Hf).
  destruct (Hf F HFd Hw) as [HFd1 Hw1].
  destruct (IH c1 (l1 ++ w) Hwf1 HFd1 Hw1) as (N2 & xs & c2 & l2 & E2 & Hsts & Hwf2 & Hsent & HFd2 & Hw2).
  exists (N1 `max` N2)%nat, (x :: xs), c2, (l2 ++ l1). rewrite <- app_assoc. split_and!; try done.
  - intros fuel Hle. cbn [run]. unfold bind. rewrite E1, E2 by lia. done.
  - by econstructor.
  - rewrite wire_app, fmap_app, <- Hfd, <- Hsent. unfold sent at 1. cbn.
    destruct x; rewrite ?Hx, Hfd; try done; by rewrite ?Hx.
Qed.

End Running.

Definition accepted_7 : history := [(sys_accept 4, Answer 7 0 0 [] [] [])].

(** With a kernel that sends everything at once. *)
Lemma connection_refines_fifo_witness :
  let K := demo_kernel [] in
  let ops := [QueueResponse (lit "ab"); QueueFile (lit "f") 3; Write] in
  (∃ N xs c' l, (∀ fuel, (N ≤ fuel)%nat →
    run (K := K) fuel ops (construct 7 0) accepted_7 = Some (xs, c', l ++ accepted_7)) ∧
    accepted xs = (wanted <$> wire 7 l) ++ stream c') ∧
  match run (K := K) 10 ops (construct 7 0) accepted_7 with
  | Some (xs, c', w) => stream c' = [] ∧
      wire 7 w = [Byte "a"; Byte "b"; FileByte 8 0; FileByte 8 1; FileByte 8 2]
  | None => False
  end.
Proof.
  intros K ops. split; [|by vm_compute].
  destruct (connection_refines_fifo (K := K) 0 ops (construct 7 0) accepted_7 {[7]})
    as (N & xs & c' & l & E & _ & _ & Hs & _).
  - by split; cbn; try constructor.
  - by repeat constructor.
  - set_solver.
  - by split; [reflexivity|].
  - by exists N, xs, c', l.
Defined.
