(* ===== verification/Redis.v ===== *)
(** * The Redis client

    [src/redis/RedisClient.cpp]: one synchronous connection, reopened when it is
    broken, and the commands with the decoding of their replies.  hiredis and the
    server behind it are calls of [Sys]; a command is given by its arguments, in
    the order of its format string. *)

From S2P Require Import Prelude.
From S2P Require Import Numerals.
From S2P Require Import Sys.
From S2P Require Import Progress.

Module RedisTask.

Record RedisTask := mk { id : Z; title : bytes; completed : bool }.

#[global] Instance RedisTask_eq_dec : EqDecision RedisTask.
Proof. solve_decision. Defined.

End RedisTask.
Import RedisTask (RedisTask).

Module RedisClient.

Record RedisClient := mk { host : bytes; port : Z; context : Z }.

#[global] Instance eta_RedisClient : Eta RedisClient := fun c => mk (host c) (port c) (context c).

Definition construct (redis_host : bytes) (redis_port : Z) : RedisClient := mk redis_host redis_port 0.

Definition REDIS_OK : Z := 0.

(** [std::string(reply->str, reply->len)]. *)
Definition str (r : redisReply) : bytes :=
  match r with
  | REDIS_REPLY_STRING s | REDIS_REPLY_STATUS s | REDIS_REPLY_ERROR s => s
  | _ => []
  end.

Definition is_string (r : redisReply) : bool :=
  match r with REDIS_REPLY_STRING _ => true | _ => false end.

Definition is_integer (r : redisReply) : bool :=
  match r with REDIS_REPLY_INTEGER _ => true | _ => false end.

Section RedisClient.
Context {K : Kernel}.
Abbreviation M := (Prog RedisClient).

(** [redisFree(context); context = nullptr;] *)
Definition drop_context : M () :=
  c ← gets context;
  sys (redis_free c) ;;
  modify (λ r, r <| context := 0 |>).

Definition destruct : M () :=
  c ← gets context;
  if negb (c =? 0) then drop_context else mret ().

Definition connect : M bool :=
  c ← gets context;
  if negb (c =? 0) then mret true
  else
    host ← gets host;
    port ← gets port;
    a ← sys (redis_connect (c_str host) port 500000);
    let c := ret a in
    modify (λ r, r <| context := c |>) ;;
    if c =? 0 then mret false
    else
      e ← sys (redis_error c);
      if negb (ret e =? 0) then drop_context ;; mret false
      else
        t ← sys (redis_set_timeout c 1);
        if negb (ret t =? REDIS_OK) then drop_context ;; mret false
        else mret true.

Definition ensureConnected : M bool :=
  c ← gets context;
  if negb (c =? 0) then
    e ← sys (redis_error c);
    if ret e =? 0 then mret true
    else drop_context ;; connect
  else connect.

(** The frame of every command: it fails without a connection or a reply; the
    reply is read, freed and forgotten. *)
Definition request {A} (arguments : list bytes) (fail : A) (read : redisReply → A) : M A :=
  connected ← ensureConnected;
  if negb connected then mret fail
  else
    c ← gets context;
    a ← sys (redis_command c arguments);
    if ret a =? 0 then mret fail
    else
      sys (redis_free_reply (ret a)) ;;
      mret (read (reply a)).

Definition set (key value : bytes) : M bool :=
  request [lit "SET"; key; value] false (λ r,
    match r with REDIS_REPLY_STATUS s => beq s (lit "OK") | _ => false end).

(** The functions below take the caller's variables and return their new
    values. *)
Definition get (key value : bytes) : M (bool * bytes) :=
  request [lit "GET"; key] (false, value) (λ r, if is_string r then (true, str r) else (false, value)).

Definition exists_ (key : bytes) : M bool :=
  request [lit "EXISTS"; key] false (λ r,
    match r with REDIS_REPLY_INTEGER n => n =? 1 | _ => false end).

Definition del (key : bytes) : M bool := request [lit "DEL"; key] false is_integer.

Definition incr (key : bytes) (value : Z) : M (bool * Z) :=
  request [lit "INCR"; key] (false, value) (λ r,
    match r with REDIS_REPLY_INTEGER n => (true, n mod U64) | _ => (false, value) end).

Definition hset (key field value : bytes) : M bool :=
  request [lit "HSET"; key; field; value] false is_integer.

(** What the loop of [hgetall] has found. *)
Record Found := { f_title : bytes; f_completed : bool; found_title : bool; found_completed : bool }.

#[global] Instance eta_Found : Eta Found :=
  fun f => Build_Found (f_title f) (f_completed f) (found_title f) (found_completed f).

Definition hgetall_field (field value : redisReply) (f : Found) : Found :=
  if negb (is_string field && is_string value) then f
  else
    let field_name := str field in
    let f := if beq field_name (lit "title")
             then f <| f_title := str value |> <| found_title := true |> else f in
    if beq field_name (lit "completed")
    then f <| f_completed := beq (str value) (lit "1") |> <| found_completed := true |> else f.

Fixpoint hgetall_loop (element : list redisReply) (f : Found) : Found :=
  match element with
  | field :: value :: rest => hgetall_loop rest (hgetall_field field value f)
  | _ => f
  end.

Definition hgetall (key title : bytes) (completed : bool) : M (bool * bytes * bool) :=
  request [lit "HGETALL"; key] (false, title, completed) (λ r,
    match r with
    | REDIS_REPLY_ARRAY element =>
        if negb (len element mod 2 =? 0) then (false, title, completed)
        else
          let f := hgetall_loop element (Build_Found title completed false false) in
          (found_title f && found_completed f, f_title f, f_completed f)
    | _ => (false, title, completed)
    end).

Definition sadd (key value : bytes) : M bool := request [lit "SADD"; key; value] false is_integer.

Definition srem (key value : bytes) : M bool := request [lit "SREM"; key; value] false is_integer.

Fixpoint strings (element : list redisReply) : list bytes :=
  match element with
  | [] => []
  | r :: rest => if is_string r then str r :: strings rest else strings rest
  end.

Definition smembers (key : bytes) (values : list bytes) : M (bool * list bytes) :=
  request [lit "SMEMBERS"; key] (false, values) (λ r,
    match r with
    | REDIS_REPLY_ARRAY element => (true, strings element)
    | _ => (false, values)
    end).

(** One turn of the loop of [getAllTasks]; [None] is a [continue]. *)
Definition decode_task (id_reply title_reply completed_reply : redisReply) : option RedisTask :=
  if negb (is_string id_reply && is_string title_reply && is_string completed_reply) then None
  else
    match stoull (str id_reply) with
    | None => None
    | Some id => Some (RedisTask.mk id (str title_reply) (beq (str completed_reply) (lit "1")))
    end.

Fixpoint decode_tasks (element : list redisReply) : list RedisTask :=
  match element with
  | a :: b :: c :: rest =>
      match decode_task a b c with
      | Some task => task :: decode_tasks rest
      | None => decode_tasks rest
      end
  | _ => []
  end.

Definition getAllTasks (task_set_key : bytes) (tasks : list RedisTask) : M (bool * list RedisTask) :=
  request [lit "SORT"; task_set_key; lit "BY"; lit "nosort"; lit "GET"; lit "#";
           lit "GET"; lit "task:*->title"; lit "GET"; lit "task:*->completed"] (false, tasks) (λ r,
    match r with
    | REDIS_REPLY_ARRAY element =>
        if negb (len element mod 3 =? 0) then (false, tasks) else (true, decode_tasks element)
    | _ => (false, tasks)
    end).

(** The three Lua scripts, line by line. *)
Definition text (ls : list string) : bytes := concat ((λ l, LF :: lit l) <$> ls) ++ [LF].

Definition CREATE_SCRIPT : bytes := text [
  "local id = redis.call('INCR', KEYS[1])"; "local task_key = 'task:' .. id"; "";
  "redis.call("; "    'HSET',"; "    task_key,"; "    'title',"; "    ARGV[1],"; "    'completed',";
  "    '0'"; ")"; "";
  "redis.call("; "    'SADD',"; "    KEYS[2],"; "    tostring(id)"; ")"; "";
  "return id"]%string.

Definition UPDATE_SCRIPT : bytes := text [
  "if redis.call('EXISTS', KEYS[1]) == 0 then"; "    return {0}"; "end"; "";
  "local current_title ="; "    redis.call('HGET', KEYS[1], 'title')"; "";
  "if ARGV[1] ~= '' then"; "    current_title = ARGV[1]"; "end"; "";
  "redis.call("; "    'HSET',"; "    KEYS[1],"; "    'title',"; "    current_title,";
  "    'completed',"; "    ARGV[2]"; ")"; "";
  "return {1, current_title}"]%string.

Definition REMOVE_SCRIPT : bytes := text [
  "if redis.call('EXISTS', KEYS[1]) == 0 then"; "    return 0"; "end"; "";
  "redis.call('DEL', KEYS[1])"; "redis.call('SREM', KEYS[2], ARGV[1])"; "";
  "return 1"]%string.

Definition createTask (next_id_key task_set_key title : bytes) (id : Z) : M (bool * Z) :=
  request [lit "EVAL"; CREATE_SCRIPT; lit "2"; next_id_key; task_set_key; title] (false, id) (λ r,
    match r with REDIS_REPLY_INTEGER n => (true, n mod U64) | _ => (false, id) end).

Definition updateTask (task_key title : bytes) (completed : bool) (updated_title : bytes) :
    M (bool * bytes) :=
  request [lit "EVAL"; UPDATE_SCRIPT; lit "1"; task_key; title; lit (if completed then "1" else "0")]
    (false, updated_title) (λ r,
    match r with
    | REDIS_REPLY_ARRAY [status; result_title] =>
        match status with
        | REDIS_REPLY_INTEGER n =>
            if negb (n =? 1) then (false, updated_title)
            else if is_string result_title then (true, str result_title)
            else (false, updated_title)
        | _ => (false, updated_title)
        end
    | _ => (false, updated_title)
    end).

Definition removeTask (task_key task_set_key id : bytes) (removed : bool) : M (bool * bool) :=
  request [lit "EVAL"; REMOVE_SCRIPT; lit "2"; task_key; task_set_key; id] (false, removed) (λ r,
    match r with
    | REDIS_REPLY_INTEGER n => (true, n =? 1)
    | _ => (false, removed)
    end).

End RedisClient.
End RedisClient.
Import RedisClient.
