(* ===== verification/Pool.v ===== *)
(** * The worker pool

    [src/worker/WorkerPool.cpp]: reactors submit jobs, worker threads run them
    against their own Redis connection and hand the completions back through one
    channel per reactor, announced on an eventfd.  [Completion] is what a job
    returns; a null completion, and a job that throws, are [None].  The steps of
    the threads are in [PoolThreads]. *)

From S2P Require Import Prelude.
From S2P Require Import Numerals.
From S2P Require Import Sys.
From S2P Require Import Progress.
From S2P Require Import Redis.

Module WorkerPool.
Section WorkerPool.
Context {K : Kernel} {Completion : Type}.

Definition Work : Type := Prog RedisClient.RedisClient (option Completion).

Record Job := mk_job { reactor_id : Z; work : Work }.

Record CompletionChannel := mk_channel { event_fd : Z; completions : list Completion }.

#[global] Instance eta_CompletionChannel : Eta CompletionChannel :=
  fun c => mk_channel (event_fd c) (completions c).

Definition MAX_QUEUED_JOBS : Z := 4096.

(** [workers] counts the threads that have been started and not joined. *)
Record WorkerPool := mk {
  jobs : list Job;
  workers : Z;
  channels : list CompletionChannel;
  stopping : bool
}.

#[global] Instance eta_WorkerPool : Eta WorkerPool :=
  fun p => mk (jobs p) (workers p) (channels p) (stopping p).

Abbreviation M := (Prog WorkerPool).

Definition close_channel (c : CompletionChannel) : M () :=
  if negb (event_fd c =? -1) then sys (sys_close (event_fd c)) ;; mret () else mret ().

(** The loop that opens a channel per reactor; [false] when an eventfd cannot be
    had, with everything opened so far closed again. *)
Fixpoint open_channels (count : nat) : M bool :=
  match count with
  | O => mret true
  | S count' =>
      a ← sys sys_eventfd;
      if ret a =? -1 then
        existing ← gets channels;
        for_each existing close_channel ;;
        modify (λ p, p <| channels := [] |>) ;;
        mret false
      else
        modify (λ p, p <| channels := channels p ++ [mk_channel (ret a) []] |>) ;;
        open_channels count'
  end.

(** The number of elements of eight bytes that a [std::vector] can hold; asked
    for more, [reserve] throws [std::length_error]. *)
Definition vector_max_size : Z := 2 ^ 60 - 1.

(** The constructor; [hardware] is [std::thread::hardware_concurrency()], and
    [false] stands for the exception. *)
Definition construct (hardware reactor_count worker_count : Z) : M bool :=
  let worker_count :=
    if worker_count =? 0 then if hardware =? 0 then 1 else Z.max 1 (hardware / 2)
    else worker_count in
  if reactor_count >? vector_max_size then mret false
  else
    opened ← open_channels (Z.to_nat reactor_count);
    if negb opened then mret true
    else if worker_count >? vector_max_size then mret false
    else
      modify (λ p, p <| workers := worker_count |>) ;;
      mret true.

Definition empty : WorkerPool := mk [] 0 [] false.

(** Reactors are indexed by [std::size_t]. *)
Definition channel (p : WorkerPool) (reactor_id : Z) : option CompletionChannel :=
  if reactor_id >=? len (channels p) then None else channels p !! Z.to_nat reactor_id.

Definition submit (reactor_id : Z) (work : option Work) : M bool :=
  match work with
  | None => mret false
  | Some work =>
      p ← gets id;
      if reactor_id >=? len (channels p) then mret false
      else if stopping p || (workers p =? 0) || (len (jobs p) >=? MAX_QUEUED_JOBS) then mret false
      else
        modify (λ p, p <| jobs := jobs p ++ [mk_job reactor_id work] |>) ;;
        mret true
  end.

Definition getCompletionFd (reactor_id : Z) (p : WorkerPool) : Z :=
  match channel p reactor_id with None => -1 | Some c => event_fd c end.

(** The loop of [consumeCompletionEvent]: reads until the eventfd is empty. *)
Fixpoint drain_event (fuel : nat) (fd : Z) : M () :=
  match fuel with
  | O => exhausted
  | S fuel' =>
      a ← sys (sys_read fd 8);
      if ret a =? 8 then drain_event fuel' fd
      else if (ret a =? -1) && ((errno a =? EAGAIN) || (errno a =? EWOULDBLOCK)) then mret ()
      else if (ret a =? -1) && (errno a =? EINTR) then drain_event fuel' fd
      else mret ()
  end.

Definition consumeCompletionEvent (fuel : nat) (reactor_id : Z) : M () :=
  c ← gets (λ p, channel p reactor_id);
  match c with
  | None => mret ()
  | Some c => if event_fd c =? -1 then mret () else drain_event fuel (event_fd c)
  end.

Definition on_channel (reactor_id : Z) (f : CompletionChannel → CompletionChannel) : M () :=
  modify (λ p, p <| channels := alter f (Z.to_nat reactor_id) (channels p) |>).

(** The popped completion, if any. *)
Definition popCompletion (reactor_id : Z) : M (option Completion) :=
  c ← gets (λ p, channel p reactor_id);
  match c with
  | None => mret None
  | Some c =>
      match completions c with
      | [] => mret None
      | completion :: rest =>
          on_channel reactor_id (λ c, c <| completions := rest |>) ;;
          mret (Some completion)
      end
  end.

Definition getWorkerCount (p : WorkerPool) : Z := workers p.

(** The loop that announces a completion. *)
Fixpoint announce (fuel : nat) (fd : Z) : M () :=
  match fuel with
  | O => exhausted
  | S fuel' =>
      a ← sys (sys_write fd 1);
      if ret a =? 8 then mret ()
      else if (ret a =? -1) && (errno a =? EINTR) then announce fuel' fd
      else mret ()
  end.

Definition publishCompletion (fuel : nat) (reactor_id : Z) (completion : option Completion) : M () :=
  c ← gets (λ p, channel p reactor_id);
  match c, completion with
  | Some c, Some completion =>
      on_channel reactor_id (λ c, c <| completions := completions c ++ [completion] |>) ;;
      announce fuel (event_fd c)
  | _, _ => mret ()
  end.

(** [stop]: before the workers are told, and after they have been joined. *)
Definition stop_begin : M bool :=
  p ← gets id;
  if stopping p then mret false
  else modify (λ p, p <| stopping := true |>) ;; mret true.

Definition stop_end : M () :=
  modify (λ p, p <| workers := 0 |> <| jobs := [] |>
                 <| channels := (λ c, c <| completions := [] |>) <$> channels p |>).

Definition destruct_channels : M () :=
  cs ← gets channels;
  for_each cs close_channel ;;
  modify (λ p, p <| channels := (λ c, c <| event_fd := -1 |>) <$> channels p |>).

(** ** A worker *)

(** The address of the Redis server, from the environment. *)
Definition redis_address {S} : Prog S (bytes * Z) :=
  h ← sys (sys_getenv (lit "AORTA_REDIS_HOST"));
  p ← sys (sys_getenv (lit "AORTA_REDIS_PORT"));
  let redis_host := if ret h =? -1 then lit "redis" else data h in
  let redis_port :=
    if ret p =? -1 then 6379
    else match stoi (data p) with Some n => n | None => 6379 end in
  let redis_port := if (redis_port <=? 0) || (redis_port >? 65535) then 6379 else redis_port in
  mret (redis_host, redis_port).

Definition worker_client {S} : Prog S RedisClient.RedisClient :=
  address ← redis_address;
  mret (RedisClient.construct address.1 address.2).

(** What a worker that holds the lock finds: the condition of [wait] does not
    hold, the pool has been stopped and emptied, or there is a job. *)
Inductive turn := Sleep | Exit | Take (job : Job) (p : WorkerPool).

Definition next_job (p : WorkerPool) : turn :=
  if stopping p || negb (len (jobs p) =? 0) then
    match jobs p with
    | [] => Exit
    | job :: rest => Take job (p <| jobs := rest |>)
    end
  else Sleep.

End WorkerPool.
#[global] Arguments Work : clear implicits.
#[global] Arguments Job : clear implicits.
#[global] Arguments CompletionChannel : clear implicits.
#[global] Arguments WorkerPool : clear implicits.
#[global] Arguments turn : clear implicits.
End WorkerPool.
Import WorkerPool.
