(* ===== verification/PoolThreads.v ===== *)
(** * The worker pool's threads

    Reactor threads that submit jobs and collect completions, worker threads, and
    the thread that stops the pool, as interleaved steps.  A step is what happens
    between two moments at which another thread can intervene: a critical section
    of [jobs_mutex] (a wait that releases the mutex ends one), the run of a job,
    or the hand-over of its completion. *)

From S2P Require Import Prelude.
From S2P Require Import Sys.
From S2P Require Import Progress.
From S2P Require Import Redis.
From S2P Require Import Pool.
Import WorkerPool.

Section Threads.
Context {K : Kernel} {C : Type}.

(** A worker is about to lock the mutex and test the condition, waits on the
    condition variable, runs a job, has a result to publish, or has returned from
    [workerLoop]. *)
Inductive Phase :=
| Ready | Waiting | Busy (job : Job C) | Done (reactor : Z) (completion : option C) | Exited.

Record Thread := mk_thread { phase : Phase; redis : RedisClient.RedisClient }.

(** The progress of [stop]: not called, [stopping] set, [notify_all] done, the
    workers joined and the queues cleared. *)
Inductive Stop := NotCalled | Flagged | Notified | Joined.

Record State := mk_state {
  pool : WorkerPool C;
  threads : list Thread;
  stopper : Stop;
  log : history
}.

(** What a step shows: a job accepted, a job begun, a completion put into a
    channel, a completion taken out of one; anything else is silent. *)
Inductive label := Accept (j : Job C) | Begin (j : Job C) | Deliver (r : Z) (c : C) | Collect (r : Z) (c : C)
| Silent.

(** [notify_one] wakes a waiting worker if there is one. *)
Inductive notify_one : list Thread → list Thread → Prop :=
| notify_some ts1 r ts2 :
    notify_one (ts1 ++ mk_thread Waiting r :: ts2) (ts1 ++ mk_thread Ready r :: ts2)
| notify_none ts : Forall (λ t, phase t ≠ Waiting) ts → notify_one ts ts.

Definition wake (t : Thread) : Thread :=
  match phase t with Waiting => mk_thread Ready (redis t) | _ => t end.

(** The next step of a worker, alone. *)
Inductive worker_step (p : WorkerPool C) (w : history) :
    Thread → label → Thread → WorkerPool C → history → Prop :=
| worker_sleeps r : next_job p = Sleep → worker_step p w (mk_thread Ready r) Silent (mk_thread Waiting r) p w
| worker_exits r : next_job p = Exit → worker_step p w (mk_thread Ready r) Silent (mk_thread Exited r) p w
| worker_takes r job p' :
    next_job p = Take job p' → worker_step p w (mk_thread Ready r) (Begin job) (mk_thread (Busy job) r) p' w
| worker_runs r job completion r' w' :
    work job r w = Some (completion, r', w') →
    worker_step p w (mk_thread (Busy job) r) Silent (mk_thread (Done (reactor_id job) completion) r') p w'
| worker_publishes r reactor completion fuel p' w' :
    publishCompletion fuel reactor completion p w = Some ((), p', w') →
    worker_step p w (mk_thread (Done reactor completion) r)
      (match completion, channel p reactor with Some c, Some _ => Deliver reactor c | _, _ => Silent end)
      (mk_thread Ready r) p' w'.

Inductive step : State → label → State → Prop :=
| step_submit p ts st w reactor k p' ts' :
    submit reactor (Some k) p w = Some (true, p', w) → notify_one ts ts' →
    step (mk_state p ts st w) (Accept (mk_job reactor k)) (mk_state p' ts' st w)
| step_refuse p ts st w reactor k p' :
    submit reactor k p w = Some (false, p', w) →
    step (mk_state p ts st w) Silent (mk_state p' ts st w)
| step_collect p ts st w reactor c p' :
    popCompletion reactor p w = Some (Some c, p', w) →
    step (mk_state p ts st w) (Collect reactor c) (mk_state p' ts st w)
| step_worker p ts1 t ts2 st w x t' p' w' :
    worker_step p w t x t' p' w' →
    step (mk_state p (ts1 ++ t :: ts2) st w) x (mk_state p' (ts1 ++ t' :: ts2) st w')
| step_spurious p ts1 r ts2 st w :
    step (mk_state p (ts1 ++ mk_thread Waiting r :: ts2) st w) Silent
         (mk_state p (ts1 ++ mk_thread Ready r :: ts2) st w)
| step_flag p ts w p' :
    stop_begin p w = Some (true, p', w) →
    step (mk_state p ts NotCalled w) Silent (mk_state p' ts Flagged w)
| step_notify_all p ts w :
    step (mk_state p ts Flagged w) Silent (mk_state p (wake <$> ts) Notified w)
| step_join p ts w p' :
    Forall (λ t, phase t = Exited) ts → stop_end p w = Some ((), p', w) →
    step (mk_state p ts Notified w) Silent (mk_state p' [] Joined w)
| step_other p ts st w c :
    step (mk_state p ts st w) Silent (mk_state p ts st ((c, respond w c) :: w)).

Inductive execution : State → list label → State → Prop :=
| execution_nil s : execution s [] s
| execution_snoc s xs s1 x s2 : execution s xs s1 → step s1 x s2 → execution s (xs ++ [x]) s2.

(** A pool that has just been constructed, with its workers. *)
Definition initial (s : State) : Prop :=
  jobs (pool s) = [] ∧ stopping (pool s) = false ∧ stopper s = NotCalled ∧
  workers (pool s) = len (threads s) ∧ Forall (λ t, phase t = Ready) (threads s) ∧
  Forall (λ c, completions c = []) (channels (pool s)).

(** ** Observations *)

Definition accepted (xs : list label) : list (Job C) :=
  concat ((λ x, match x with Accept j => [j] | _ => [] end) <$> xs).

Definition begun (xs : list label) : list (Job C) :=
  concat ((λ x, match x with Begin j => [j] | _ => [] end) <$> xs).

(** The completions put into, and taken out of, the channel with index [i]. *)
Definition delivered (i : nat) (xs : list label) : list C :=
  concat ((λ x, match x with Deliver r c => if Nat.eqb (Z.to_nat r) i then [c] else [] | _ => [] end) <$> xs).

Definition collected (i : nat) (xs : list label) : list C :=
  concat ((λ x, match x with Collect r c => if Nat.eqb (Z.to_nat r) i then [c] else [] | _ => [] end) <$> xs).

Definition waiting_in (i : nat) (p : WorkerPool C) : list C :=
  match channels p !! i with Some c => completions c | None => [] end.

Definition count (f : Phase → bool) (ts : list Thread) : nat := length (List.filter (λ t, f (phase t)) ts).

Definition is_ready (p : Phase) : bool := match p with Ready => true | _ => false end.
Definition is_waiting (p : Phase) : bool := match p with Waiting => true | _ => false end.
Definition is_exited (p : Phase) : bool := match p with Exited => true | _ => false end.

Lemma count_app f l k : count f (l ++ k) = (count f l + count f k)%nat.
Proof. unfold count. by rewrite List.filter_app, length_app. Qed.

Lemma count_cons f t ts : count f (t :: ts) = ((if f (phase t) then 1 else 0) + count f ts)%nat.
Proof. unfold count. cbn. by destruct (f (phase t)). Qed.

Lemma count_0 f ts : count f ts = 0%nat ↔ Forall (λ t, f (phase t) = false) ts.
Proof.
  induction ts as [|t ts IH]; [by split|]. rewrite count_cons, Forall_cons, <- IH.
  destruct (f (phase t)).
  - split; [lia|by intros [? _]].
  - split; [intros H; by split|by intros [_ H]].
Qed.

(** ** The invariant *)

Record consistent (s : State) : Prop := {
  in_awake : count is_waiting (threads s) = 0%nat ∨
    (length (jobs (pool s)) ≤ count is_ready (threads s))%nat;
  in_stopping : stopping (pool s) = negb (match stopper s with NotCalled => true | _ => false end);
  in_exited : count is_exited (threads s) ≠ 0%nat → stopping (pool s) = true ∧ jobs (pool s) = [];
  in_notified : stopper s = Notified → count is_waiting (threads s) = 0%nat;
  in_room : len (jobs (pool s)) ≤ MAX_QUEUED_JOBS;
  in_workers : stopper s ≠ Joined → workers (pool s) = len (threads s);
  in_threads : threads s = [] → jobs (pool s) = [];
  in_joined : stopper s = Joined → jobs (pool s) = [] ∧ threads s = []
}.

Lemma initial_consistent s : initial s → consistent s.
Proof.
  intros (Hj & Hst & Hs & Hw & Ht & _).
  assert (∀ f, f Ready = false → count f (threads s) = 0%nat) as H.
  { intros f Hf. apply count_0. eapply Forall_impl; [done|]. by intros t ->. }
  split; rewrite ?Hst, ?Hs, ?Hj; try done; [left; by apply H|intros Hx; by rewrite H in Hx].
Qed.

Lemma submit_true reactor (k : Work C) (p p' : WorkerPool C) w :
  submit reactor (Some k) p w = Some (true, p', w) →
  p' = p <| jobs := jobs p ++ [mk_job reactor k] |> ∧ stopping p = false ∧
  len (jobs p) < MAX_QUEUED_JOBS ∧ workers p ≠ 0 ∧ reactor < len (channels p).
Proof.
  unfold submit, bind, gets, mret, Prog_ret. cbn [id].
  destruct (Z.geb_spec reactor (len (channels p))) as [|Hr]; [by intros [=]|].
  destruct (stopping p) eqn:E; [by intros [=]|]. destruct (Z.eqb_spec (workers p) 0) as [|Hw]; [by intros [=]|].
  destruct (Z.geb_spec (len (jobs p)) MAX_QUEUED_JOBS) as [|Hl]; [by intros [=]|].
  intros [= <-]. split_and!; try done; lia.
Qed.

Lemma submit_false reactor (k : option (Work C)) (p p' : WorkerPool C) w :
  submit reactor k p w = Some (false, p', w) → p' = p.
Proof.
  unfold submit, bind, gets, mret, Prog_ret. destruct k; [|by intros [= <-]]. cbn [id].
  destruct (_ >=? _); [by intros [= <-]|]. destruct (_ || _); by intros [= <-].
Qed.

Lemma notify_counts ts ts' :
  notify_one ts ts' →
  count is_exited ts' = count is_exited ts ∧ length ts' = length ts ∧
  (count is_waiting ts = 0%nat ∧ ts' = ts ∨
   S (count is_waiting ts') = count is_waiting ts ∧ count is_ready ts' = S (count is_ready ts)).
Proof.
  destruct 1 as [ts1 r ts2|ts Hts].
  - rewrite !count_app, !count_cons, !length_app. cbn. split_and!; [lia|done|right]. lia.
  - split_and!; [done|done|left]. split; [|done]. apply count_0. eapply Forall_impl; [done|].
    intros t Ht. cbn in Ht. by destruct (phase t).
Qed.

Lemma wake_counts ts :
  count is_waiting (wake <$> ts) = 0%nat ∧ count is_exited (wake <$> ts) = count is_exited ts ∧
  length (wake <$> ts) = length ts.
Proof.
  rewrite length_fmap. split_and!; [| |done]; induction ts as [|t ts IH]; try done;
    rewrite fmap_cons, !count_cons, IH; unfold wake; by destruct (phase t) eqn:E; rewrite ?E.
Qed.

(** Publishing and collecting only touch a channel. *)
Lemma publish_eq fuel r (oc : option C) p w p' w' :
  publishCompletion fuel r oc p w = Some ((), p', w') →
  p' = match oc, channel p r with
       | Some c, Some _ =>
           p <| channels := alter (λ ch, ch <| completions := completions ch ++ [c] |>) (Z.to_nat r) (channels p) |>
       | _, _ => p
       end.
Proof.
  unfold publishCompletion, bind, gets, on_channel, modify.
  destruct (channel p r) as [ch|]; [|by destruct oc; intros [= <-]].
  destruct oc as [c|]; [|by intros [= <-]]. set (p1 := p <| channels := _ |>). generalize w. clearbody p1.
  induction fuel as [|fuel IH]; intros w0; cbn [announce]; [by intros [=]|]. unfold bind, sys.
  destruct (_ =? 8); [by intros [= <-]|]. destruct (_ && _); [apply IH|by intros [= <-]].
Qed.

Lemma collect_eq r c (p p' : WorkerPool C) w w' :
  popCompletion r p w = Some (Some c, p', w') →
  w' = w ∧ ∃ ch rest, channel p r = Some ch ∧ completions ch = c :: rest ∧
  p' = p <| channels := alter (λ ch, ch <| completions := rest |>) (Z.to_nat r) (channels p) |>.
Proof.
  unfold popCompletion, bind, gets, on_channel, modify. destruct (channel p r) as [ch|]; [|by intros [=]].
  destruct (completions ch) as [|c' rest] eqn:E; [by intros [=]|]. intros [= <- <- <-].
  split; [done|]. by exists ch, rest.
Qed.

Lemma channel_lookup (p : WorkerPool C) r ch : channel p r = Some ch → channels p !! Z.to_nat r = Some ch.
Proof. unfold channel. by destruct (_ >=? _). Qed.

Lemma next_job_spec (p : WorkerPool C) :
  match next_job p with
  | Sleep => stopping p = false ∧ jobs p = []
  | Exit => stopping p = true ∧ jobs p = []
  | Take job p' => ∃ rest, jobs p = job :: rest ∧ p' = p <| jobs := rest |>
  end.
Proof.
  unfold next_job. destruct (jobs p) as [|j rest]; cbn.
  - destruct (stopping p); done.
  - rewrite len_cons. rewrite (proj2 (Z.eqb_neq _ _)) by (pose proof (len_nonneg rest); lia).
    rewrite orb_true_r. by exists rest.
Qed.

(** A worker's step keeps the invariant. *)
Lemma worker_consistent p ts1 t ts2 st w x t' p' w' :
  consistent (mk_state p (ts1 ++ t :: ts2) st w) → worker_step p w t x t' p' w' →
  consistent (mk_state p' (ts1 ++ t' :: ts2) st w').
Proof.
  intros [Ha Hs He Hn Hr Hw Ht Hj] Hstep. cbn [pool threads stopper] in *.
  assert (∀ (l k : list Thread) y, l ++ y :: k ≠ []) as Hne by (by intros []).
  assert (∀ A (l k : list A) y z, len (l ++ y :: k) = len (l ++ z :: k)) as Hlen by (intros; len_lia).
  assert (∀ p1 : WorkerPool C, jobs p1 = jobs p → stopping p1 = stopping p → workers p1 = workers p →
    count is_waiting (ts1 ++ t' :: ts2) = count is_waiting (ts1 ++ t :: ts2) →
    (count is_ready (ts1 ++ t :: ts2) ≤ count is_ready (ts1 ++ t' :: ts2))%nat →
    count is_exited (ts1 ++ t' :: ts2) = count is_exited (ts1 ++ t :: ts2) →
    consistent (mk_state p1 (ts1 ++ t' :: ts2) st w')) as Hsame.
  { intros p1 Ej Es Ew Cw Cr Ce. split; cbn [pool threads stopper]; rewrite ?Ej, ?Es, ?Ew, ?Cw, ?Ce; try done.
    - destruct Ha as [Ha|Ha]; [by left|right; lia].
    - intros Hst. rewrite (Hlen _ _ _ t' t). by apply Hw.
    - by intros ?%Hne.
    - intros Hst. by destruct (Hj Hst) as [_ ?%Hne]. }
  destruct Hstep as [r Hnext|r Hnext|r job p' Hnext|r job oc r' w' Hrun|r reactor oc fuel p' w' Hpub].
  - pose proof (next_job_spec p) as Hp. rewrite Hnext in Hp. destruct Hp as [Hst Hempty].
    rewrite Hst in Hs. destruct st; try done.
    split; cbn [pool threads stopper]; rewrite ?Hst, ?Hempty; try done.
    + right. cbn. lia.
    + rewrite count_app, count_cons in He |- *. cbn in *. intros Hx. apply He in Hx as [? _]. congruence.
    + intros Hst'. rewrite (Hlen _ _ _ _ (mk_thread Ready r)). by apply Hw.
  - pose proof (next_job_spec p) as Hp. rewrite Hnext in Hp. destruct Hp as [Hst Hempty].
    split; cbn [pool threads stopper]; rewrite ?Hst, ?Hempty; try done.
    + right. cbn. lia.
    + by rewrite <- Hs, Hst.
    + intros Hst'. specialize (Hn Hst'). rewrite !count_app, !count_cons in *. cbn in *. lia.
    + intros Hst'. rewrite (Hlen _ _ _ _ (mk_thread Ready r)). by apply Hw.
    + intros Hst'. by destruct (Hj Hst') as [_ ?%Hne].
  - pose proof (next_job_spec p) as Hp. rewrite Hnext in Hp. destruct Hp as (rest & Hjobs & ->).
    rewrite Hjobs in *. split; cbn [pool threads stopper jobs stopping workers set_with]; try done.
    + rewrite !count_app, !count_cons in *. cbn in *. destruct Ha as [Ha|Ha]; [left; lia|right; lia].
    + rewrite !count_app, !count_cons in *. cbn in *. intros Hx. by destruct (He ltac:(lia)) as [_ ?].
    + intros Hst'. specialize (Hn Hst'). rewrite !count_app, !count_cons in *. cbn in *. lia.
    + rewrite len_cons in Hr. lia.
    + intros Hst'. rewrite (Hlen _ _ _ _ (mk_thread Ready r)). by apply Hw.
    + by intros ?%Hne.
    + intros Hst'. by destruct (Hj Hst').
  - apply Hsame; try done; rewrite !count_app, !count_cons; cbn; lia.
  - apply publish_eq in Hpub as ->. apply Hsame.
    1-3: by destruct oc as [c|], (channel p reactor).
    all: rewrite !count_app, !count_cons; cbn; lia.
Qed.

Lemma step_preserves s x s' : consistent s → step s x s' → consistent s'.
Proof.
  intros Hco Hstep. pose proof Hco as [Ha Hs He Hn Hr Hw Ht Hj].
  destruct Hstep as [p ts st w reactor k p' ts' Hsub Hnot|p ts st w reactor k p' Hsub
    |p ts st w reactor c p' Hpop|p ts1 t ts2 st w x t' p' w' Hwork|p ts1 r ts2 st w|p ts w p' Hflag|p ts w
    |p ts w p' Hall Hend|p ts st w c]; cbn [pool threads stopper] in *.
  - apply submit_true in Hsub as (-> & Hst & Hroom & Hnw & _).
    destruct (notify_counts _ _ Hnot) as (Ce & Cl & Cw).
    assert (stopper (mk_state p ts st w) = NotCalled) as Hst'.
    { rewrite Hst in Hs. by destruct st. }
    cbn in Hst'. subst st.
    split; cbn [pool threads stopper jobs stopping workers set_with]; rewrite ?Ce; try done.
    + rewrite length_app. cbn. destruct Cw as [[Cw ->]|[Cw Cr]]; [by left|]. right.
      destruct Ha as [Ha|Ha]; lia.
    + intros Hx. destruct (He Hx) as [Hx' _]. congruence.
    + rewrite len_app. change (len [_]) with 1. lia.
    + intros _. unfold len. rewrite Cl. by apply Hw.
    + intros ->. rewrite (Hw ltac:(done)) in Hnw. by destruct ts.
  - by apply submit_false in Hsub as ->.
  - apply collect_eq in Hpop as (_ & ch & rest & _ & _ & ->). by split.
  - by eapply worker_consistent.
  - split; cbn [pool threads stopper]; try done;
      rewrite ?count_app, ?count_cons in *; cbn [phase is_waiting is_ready is_exited] in *.
    + destruct Ha as [Ha|Ha]; [lia|right; lia].
    + intros Hx. apply He. lia.
    + intros Hx. specialize (Hn Hx). lia.
    + intros Hx. rewrite (Hw Hx). len_lia.
    + by destruct ts1.
    + intros Hx. by destruct (Hj Hx) as [_ ?%eq_sym%app_cons_not_nil].
  - unfold stop_begin, bind, gets, modify in Hflag. cbn [id] in Hflag.
    destruct (stopping p) eqn:Hst; [by injection Hflag|]. injection Hflag as <-.
    split; cbn [pool threads stopper jobs stopping workers set_with]; try done.
    + intros Hx. by destruct (He Hx).
    + intros _. by apply Hw.
  - destruct (wake_counts ts) as (Cw & Ce & Cl).
    split; cbn [pool threads stopper]; rewrite ?Cw, ?Ce; try done; [by left| |].
    + intros _. unfold len. rewrite Cl. by apply Hw.
    + intros Hx. apply Ht. by apply fmap_nil_inv in Hx.
  - unfold stop_end, modify in Hend. injection Hend as <-.
    split; cbn [pool threads stopper jobs stopping workers set_with]; try done. by left.
  - by split.
Qed.

(** ** First in, first out *)

Lemma accepted_app xs x : accepted (xs ++ [x]) = accepted xs ++ match x with Accept j => [j] | _ => [] end.
Proof. unfold accepted. rewrite fmap_app, concat_app. cbn. by rewrite app_nil_r. Qed.

Lemma begun_app xs x : begun (xs ++ [x]) = begun xs ++ match x with Begin j => [j] | _ => [] end.
Proof. unfold begun. rewrite fmap_app, concat_app. cbn. by rewrite app_nil_r. Qed.

Lemma delivered_app i xs x :
  delivered i (xs ++ [x]) =
  delivered i xs ++ match x with Deliver r c => if Nat.eqb (Z.to_nat r) i then [c] else [] | _ => [] end.
Proof. unfold delivered. rewrite fmap_app, concat_app. cbn. by rewrite app_nil_r. Qed.

Lemma collected_app i xs x :
  collected i (xs ++ [x]) =
  collected i xs ++ match x with Collect r c => if Nat.eqb (Z.to_nat r) i then [c] else [] | _ => [] end.
Proof. unfold collected. rewrite fmap_app, concat_app. cbn. by rewrite app_nil_r. Qed.

(** One step of the job queue and of a channel. *)
Lemma step_queue s x s' :
  consistent s → step s x s' →
  match x with
  | Accept j => jobs (pool s') = jobs (pool s) ++ [j]
  | Begin j => jobs (pool s) = j :: jobs (pool s')
  | _ => jobs (pool s') = jobs (pool s)
  end.
Proof.
  intros Hco Hstep. pose proof Hco as [Ha Hs He Hn Hr Hw Ht Hj].
  destruct Hstep as [p ts st w reactor k p' ts' Hsub Hnot|p ts st w reactor k p' Hsub
    |p ts st w reactor c p' Hpop|p ts1 t ts2 st w x t' p' w' Hwork|p ts1 r ts2 st w|p ts w p' Hflag|p ts w
    |p ts w p' Hall Hend|p ts st w c]; cbn [pool threads stopper] in *; try done.
  - by apply submit_true in Hsub as (-> & _).
  - by apply submit_false in Hsub as ->.
  - by apply collect_eq in Hpop as (_ & ch & rest & _ & _ & ->).
  - destruct Hwork as [r Hnext|r Hnext|r job p' Hnext|r job oc r' w' Hrun|r reactor oc fuel p' w' Hpub]; try done.
    + pose proof (next_job_spec p) as Hp. rewrite Hnext in Hp. by destruct Hp as (rest & -> & ->).
    + apply publish_eq in Hpub as ->. by destruct oc as [c|], (channel p reactor).
  - unfold stop_begin, bind, gets, modify in Hflag. cbn [id] in Hflag.
    destruct (stopping p); [by injection Hflag|]. by injection Hflag as <-.
  - unfold stop_end, modify in Hend. injection Hend as <-. cbn.
    destruct ts as [|t ts]; [by rewrite Ht|]. apply Forall_cons in Hall as [Hex _].
    destruct He as [_ ->]; [|done]. rewrite count_cons. by rewrite Hex.
Qed.

Lemma step_channel s x s' i :
  step s x s' → stopper s' ≠ Joined →
  match x with
  | Deliver r c => waiting_in i (pool s') =
      waiting_in i (pool s) ++ (if Nat.eqb (Z.to_nat r) i then [c] else [])
  | Collect r c => waiting_in i (pool s) =
      (if Nat.eqb (Z.to_nat r) i then [c] else []) ++ waiting_in i (pool s')
  | _ => waiting_in i (pool s') = waiting_in i (pool s)
  end.
Proof.
  intros Hstep Hst.
  destruct Hstep as [p ts st w reactor k p' ts' Hsub Hnot|p ts st w reactor k p' Hsub
    |p ts st w reactor c p' Hpop|p ts1 t ts2 st w x t' p' w' Hwork|p ts1 r ts2 st w|p ts w p' Hflag|p ts w
    |p ts w p' Hall Hend|p ts st w c]; cbn [pool threads stopper] in *; try done.
  - by apply submit_true in Hsub as (-> & _).
  - by apply submit_false in Hsub as ->.
  - apply collect_eq in Hpop as (_ & ch & rest & Hch%channel_lookup & Hc & ->). unfold waiting_in. cbn.
    rewrite list_lookup_alter. destruct (Nat.eqb_spec (Z.to_nat reactor) i) as [<-|Hi].
    + rewrite decide_True by done. by rewrite Hch, Hc.
    + by rewrite decide_False.
  - destruct Hwork as [r Hnext|r Hnext|r job p' Hnext|r job oc r' w' Hrun|r reactor oc fuel p' w' Hpub]; try done.
    + pose proof (next_job_spec p) as Hp. rewrite Hnext in Hp. by destruct Hp as (rest & _ & ->).
    + apply publish_eq in Hpub as ->. destruct oc as [c|]; [|done].
      destruct (channel p reactor) as [ch|] eqn:Hch; [|done]. apply channel_lookup in Hch.
      unfold waiting_in. cbn. rewrite list_lookup_alter.
      destruct (Nat.eqb_spec (Z.to_nat reactor) i) as [<-|Hi].
      * rewrite decide_True by done. by rewrite Hch.
      * rewrite decide_False by done. by rewrite app_nil_r.
  - unfold stop_begin, bind, gets, modify in Hflag. cbn [id] in Hflag.
    destruct (stopping p); [by injection Hflag|]. by injection Hflag as <-.
Qed.

Lemma execution_consistent s xs s' : initial s → execution s xs s' → consistent s'.
Proof.
  intros Hi. induction 1 as [s|s xs s1 x s2 _ IH Hx]; [by apply initial_consistent|].
  eapply step_preserves; [|done]. by apply IH.
Qed.

Lemma joined_last s x s' : step s x s' → stopper s' ≠ Joined → stopper s ≠ Joined.
Proof. by destruct 1. Qed.

Lemma execution_queue s xs s' : initial s → execution s xs s' → accepted xs = begun xs ++ jobs (pool s').
Proof.
  intros Hi Hex. induction Hex as [s|s xs s1 x s2 Hex IH Hx]; [by destruct Hi as (-> & _)|].
  pose proof (step_queue _ _ _ (execution_consistent _ _ _ Hi Hex) Hx) as Hs.
  rewrite accepted_app, begun_app, IH by done.
  destruct x; rewrite ?Hs, ?app_nil_r, <- ?app_assoc; done.
Qed.

(** C8: However the reactor, worker and stopping threads interleave, the pool is
    a bounded first-in first-out queue: the jobs begun, followed by those still
    queued, are the accepted ones in the order of their submission, so every job
    is begun at most once; the completions a reactor has collected, followed by
    those in its channel, are the ones delivered to it in order; the queue never
    exceeds its limit; and no wake-up is lost: a job only waits while every
    worker is awake or at least as many workers as there are queued jobs are on
    their way to the queue.  [stop] discards no accepted job. *)
Theorem pool_is_fifo s xs s' :
  initial s → execution s xs s' →
  accepted xs = begun xs ++ jobs (pool s') ∧
  (stopper s' ≠ Joined → ∀ i, delivered i xs = collected i xs ++ waiting_in i (pool s')) ∧
  len (jobs (pool s')) ≤ MAX_QUEUED_JOBS ∧
  (count is_waiting (threads s') = 0%nat ∨ (length (jobs (pool s')) ≤ count is_ready (threads s'))%nat) ∧
  (stopper s' = Joined → begun xs = accepted xs ∧ threads s' = []).
Proof.
  intros Hi Hex. pose proof (execution_consistent _ _ _ Hi Hex) as Hco.
  pose proof (execution_queue _ _ _ Hi Hex) as Hq.
  split_and!; [done| |apply (in_room _ Hco)|apply (in_awake _ Hco)|].
  - clear Hco Hq. induction Hex as [s|s xs s1 x s2 Hex IH Hx]; intros Hst i.
    { destruct Hi as (_ & _ & _ & _ & _ & Hc). unfold waiting_in. cbn.
      destruct (channels (pool s) !! i) as [ch|] eqn:E; [|done].
      by rewrite (Forall_lookup_1 _ _ _ _ Hc E). }
    pose proof (step_channel _ _ _ i Hx Hst) as Hs. specialize (IH Hi (joined_last _ _ _ Hx Hst) i).
    rewrite delivered_app, collected_app, IH.
    destruct x; rewrite ?Hs, ?app_nil_r, <- ?app_assoc; done.
  - intros Hst. destruct (in_joined _ Hco Hst) as [Hj Ht]. by rewrite Hq, Hj, app_nil_r.
Qed.

(** ** Progress *)

(** A step of some worker. *)
Inductive works : State → State → Prop :=
| works_step p ts1 t ts2 st w x t' p' w' :
    worker_step p w t x t' p' w' →
    works (mk_state p (ts1 ++ t :: ts2) st w) (mk_state p' (ts1 ++ t' :: ts2) st w').

Definition phase_weight (p : Phase) : nat :=
  match p with Ready => 1 | Waiting => 0 | Busy _ => 3 | Done _ _ => 2 | Exited => 0 end.

Definition weight (s : State) : nat :=
  3 * length (jobs (pool s)) + sum_list (phase_weight ∘ phase <$> threads s).

(** Every job that has been accepted comes back. *)
Definition jobs_total (s : State) : Prop :=
  Forall (λ j, total (work j)) (jobs (pool s)) ∧
  Forall (λ t, match phase t with Busy j => total (work j) | _ => True end) (threads s).

Lemma works_less s s' : works s s' → (weight s' < weight s)%nat.
Proof.
  destruct 1 as [p ts1 t ts2 st w x t' p' w' Hstep]. unfold weight. cbn [pool threads].
  rewrite !fmap_app, !fmap_cons, !sum_list_with_app.
  destruct Hstep as [r Hnext|r Hnext|r job p' Hnext|r job oc r' w' Hrun|r reactor oc fuel p' w' Hpub];
    cbn; try lia.
  - pose proof (next_job_spec p) as Hp. rewrite Hnext in Hp. destruct Hp as (rest & -> & ->). cbn. lia.
  - apply publish_eq in Hpub as ->. destruct oc as [c|], (channel p reactor); cbn; lia.
Qed.

Lemma works_consistent s s' : consistent s → works s s' → consistent s'.
Proof.
  intros Hco Hw. destruct Hw as [p ts1 t ts2 st w x t' p' w' Hstep]. by eapply worker_consistent.
Qed.

Lemma works_total s s' : jobs_total s → works s s' → jobs_total s'.
Proof.
  intros [Hj Ht] Hw. destruct Hw as [p ts1 t ts2 st w x t' p' w' Hstep]. cbn [pool threads] in *.
  apply Forall_app in Ht as [H1 H2]. apply Forall_cons in H2 as [H2 H3].
  destruct Hstep as [r Hnext|r Hnext|r job p' Hnext|r job oc r' w' Hrun|r reactor oc fuel p' w' Hpub].
  1,2,4: split; [done|by apply Forall_app; split; [|constructor]].
  - pose proof (next_job_spec p) as Hp. rewrite Hnext in Hp. destruct Hp as (rest & Hq & ->).
    rewrite Hq in Hj. apply Forall_cons in Hj as [Hj Hrest].
    split; [done|by apply Forall_app; split; [|constructor]].
  - apply publish_eq in Hpub as ->. split; [by destruct oc as [c|], (channel p reactor)|].
    by apply Forall_app; split; [|constructor].
Qed.

Lemma announce_returns n {P : Patient K n} fd fuel (p : WorkerPool C) w :
  (budget n w < fuel)%nat → ∃ w', announce fuel fd p w = Some ((), p, w').
Proof.
  revert w. induction fuel as [|fuel IH]; intros w Hf; [lia|]. cbn [announce]. unfold bind, sys.
  set (x := sys_write fd 1). destruct (ret (respond w x) =? 8); [by eexists|].
  destruct (_ && _) eqn:E; [|by eexists]. apply IH.
  pose proof (budget_interrupted n w x E). lia.
Qed.

Lemma publish_returns n {P : Patient K n} r (oc : option C) p w :
  ∃ fuel p' w', publishCompletion fuel r oc p w = Some ((), p', w').
Proof.
  unfold publishCompletion, bind, gets, on_channel, modify.
  destruct (channel p r) as [ch|], oc as [c|]; try (by exists 0%nat; do 2 eexists).
  set (p1 := p <| channels := _ |>).
  destruct (announce_returns n (event_fd ch) (S (budget n w)) p1 w) as [w' E]; [lia|].
  exists (S (budget n w)), p1, w'. exact E.
Qed.

(** Unless all workers wait or have left, one of them can move. *)
Lemma worker_moves n {P : Patient K n} s :
  jobs_total s →
  Forall (λ t, phase t = Waiting ∨ phase t = Exited) (threads s) ∨ ∃ s', works s s'.
Proof.
  intros [_ Ht]. destruct s as [p ts st w]. cbn [threads] in *.
  destruct (decide (Forall (λ t, is_waiting (phase t) || is_exited (phase t) = true) ts)) as [Hall|Hsome].
  { left. eapply Forall_impl; [done|]. intros t E. cbn in E.
    destruct (phase t); try done; [by left|by right]. }
  right. apply not_Forall_Exists in Hsome; [|apply _].
  apply Exists_exists in Hsome as (t & Hin & Hne). apply list_elem_of_split in Hin as (ts1 & ts2 & ->).
  apply Forall_app in Ht as [_ Ht]. apply Forall_cons in Ht as [Ht _].
  destruct t as [ph r]. cbn in Hne, Ht. destruct ph as [| |job|reactor oc|]; try done.
  - pose proof (next_job_spec p) as Hp. destruct (next_job p) as [| |job p'] eqn:E.
    + eexists. eapply works_step. by apply worker_sleeps.
    + eexists. eapply works_step. by apply worker_exits.
    + eexists. eapply works_step. by apply worker_takes.
  - destruct (Ht r w) as [[[oc r'] w'] E]. eexists. eapply works_step. by apply worker_runs.
  - destruct (publish_returns n reactor oc p w) as (fuel & p' & w' & E).
    eexists. eapply works_step. by eapply worker_publishes.
Qed.

(** C26: Left to themselves the workers finish: from any reachable state, after
    at most [weight] steps of workers they can take no more, and then the queue
    is empty and every worker waits for a job or has left; once [stop] has
    notified them, all of them have left, so that joining them cannot block.  So
    every accepted job is run, provided each job returns and no call is
    interrupted for ever. *)
Theorem pool_drains n {P : Patient K n} s0 xs s :
  initial s0 → execution s0 xs s → threads s ≠ [] → jobs_total s →
  (∀ k s', nsteps works k s s' → (k ≤ weight s)%nat) ∧
  ∃ s', rtc works s s' ∧ (∀ s2, ¬ works s' s2) ∧ jobs (pool s') = [] ∧
    Forall (λ t, phase t = Waiting ∨ phase t = Exited) (threads s') ∧
    (stopper s = Notified → Forall (λ t, phase t = Exited) (threads s')).
Proof.
  intros Hi Hex Hne Htot. pose proof (execution_consistent _ _ _ Hi Hex) as Hco. clear Hi Hex. split.
  - intros k. clear Hco Hne Htot. revert s. induction k as [|k IH]; intros s s' H; [lia|].
    inversion_clear H as [|? ? s1 ? H1 H2]. apply works_less in H1. apply IH in H2. lia.
  - remember (weight s) as k eqn:Hk. revert s Hk Hne Htot Hco.
    induction (lt_wf k) as [k _ IH]. intros s Hk Hne Htot Hco.
    destruct (worker_moves n s Htot) as [Hidle|[s1 H1]].
    + exists s. split; [done|].
      assert (∀ s2, ¬ works s s2) as Hstuck.
      { intros s2 H. destruct H as [p ts1 t ts2 st w x t' p' w' Hstep]. cbn [threads] in Hidle.
        apply Forall_app in Hidle as [_ Hidle]. apply Forall_cons in Hidle as [Ht _].
        destruct Hstep; cbn in Ht; by destruct Ht. }
      assert (count is_ready (threads s) = 0%nat) as Hr.
      { apply count_0. eapply Forall_impl; [done|]. intros t [E|E]; by rewrite E. }
      assert (count is_waiting (threads s) = 0%nat → Forall (λ t, phase t = Exited) (threads s)) as Hall.
      { intros Hw. apply count_0 in Hw. apply Forall_forall. intros t Hin.
        rewrite Forall_forall in Hw, Hidle. specialize (Hw t Hin). destruct (Hidle t Hin) as [E|E]; [|done].
        by rewrite E in Hw. }
      split_and!; [done| |done|].
      * destruct (in_awake _ Hco) as [Hw|Hj]; [|rewrite Hr in Hj; destruct (jobs (pool s)); [done|cbn in Hj; lia]].
        apply (in_exited _ Hco). specialize (Hall Hw). destruct (threads s) as [|t ts]; [done|].
        apply Forall_cons in Hall as [E _]. rewrite count_cons. by rewrite E.
      * intros Hst. apply Hall. by apply (in_notified _ Hco).
    + pose proof (works_less _ _ H1) as Hlt.
      destruct (IH (weight s1) ltac:(lia) s1 eq_refl) as (s' & Hs & Hrest).
      * destruct H1. cbn [threads] in *. by destruct ts1.
      * by eapply works_total.
      * by eapply works_consistent.
      * assert (stopper s1 = stopper s) as <- by by destruct H1.
        exists s'. split; [by eapply rtc_l|done].
Qed.

End Threads.

(** ** A pool with two workers and one reactor *)

Definition idle_client : RedisClient.RedisClient := RedisClient.construct (lit "redis") 6379.

Definition start_state : State (C := nat) :=
  mk_state (mk [] 2 [mk_channel 9 []] false) [mk_thread Ready idle_client; mk_thread Ready idle_client]
    NotCalled [].

(** A job that returns [n]. *)
Definition return_job (n : nat) : Work nat := mret (Some n).

Definition job_state (ts : list Thread) (q : list (Job nat)) (cs : list nat) (w : history) : State :=
  mk_state (mk q 2 [mk_channel 9 cs] false) ts NotCalled w.

Lemma start_initial : initial start_state.
Proof. repeat split; by repeat constructor. Qed.

(** One worker goes to sleep; a job is submitted, which wakes it; the other one
    takes the job, runs it and publishes; the reactor collects. *)
Lemma pool_is_fifo_witness :
  let K := demo_kernel [] in
  let job := mk_job 0 (return_job 5) in
  ∃ xs s', execution (K := K) start_state xs s' ∧
    accepted xs = [job] ∧ begun xs = [job] ∧ jobs (pool s') = [] ∧
    delivered 0 xs = [5%nat] ∧ waiting_in 0 (pool s') = [5%nat].
Proof.
  intros K job.
  assert (∃ w, execution (K := K) start_state [Silent; Accept job; Begin job; Silent; Deliver 0 5%nat]
    (job_state [mk_thread Ready idle_client; mk_thread Ready idle_client] [] [5%nat] w)) as [w Hex].
  { eexists. change [Silent; Accept job; Begin job; Silent; Deliver 0 5%nat] with
      ((((([] ++ [Silent]) ++ [Accept job]) ++ [Begin job]) ++ [Silent]) ++ [Deliver 0 5%nat]).
    eapply execution_snoc; [eapply execution_snoc; [eapply execution_snoc; [eapply execution_snoc;
      [eapply execution_snoc; [apply execution_nil|]|]|]|]|].
    - apply (step_worker _ []). by apply worker_sleeps.
    - eapply step_submit; [done|]. apply (notify_some []).
    - apply (step_worker _ [_] _ []). by apply worker_takes.
    - apply (step_worker _ [_] _ []). by apply worker_runs.
    - apply (step_worker _ [_] _ [] _ _ (Deliver 0 5%nat)).
      exact (worker_publishes (K := K) (mk [] 2 [mk_channel 9 []] false) [] idle_client 0 (Some 5%nat) 1
        (mk [] 2 [mk_channel 9 [5%nat]] false) [(sys_write 9 1, Answer 0 0 0 [] [] [])] eq_refl). }
  eexists _, _. split; [exact Hex|].
  destruct (pool_is_fifo (K := K) _ _ _ start_initial Hex) as (H1 & H2 & _).
  specialize (H2 ltac:(done) 0%nat). split; [exact H1|]. split; [done|]. split; [done|]. split; [exact H2|done].
Defined.

Lemma pool_drains_witness :
  let K := demo_kernel [] in
  ∃ s', rtc (works (K := K)) start_state s' ∧ jobs (pool s') = [] ∧
    Forall (λ t, phase t = Waiting ∨ phase t = Exited) (threads s').
Proof.
  intros K. destruct (pool_drains (K := K) 0 start_state [] start_state start_initial) as [_ H].
  - apply execution_nil.
  - done.
  - split; by repeat constructor.
  - destruct H as (s' & H1 & _ & H2 & H3 & _). by exists s'.
Defined.
