(* ===== verification/Tasks.v ===== *)
(** * The task manager

    [src/task/TaskManager.cpp]: each operation is a job for the worker pool that
    runs one Redis command and calls back with its outcome.  A callback is a
    function of the outcome; what it returns is the completion that the reactor
    will run. *)

From stdpp Require Import sorting.
From S2P Require Import Prelude.
From S2P Require Import Numerals.
From S2P Require Import Sys.
From S2P Require Import Progress.
From S2P Require Import Redis.
From S2P Require Import Pool.
Import RedisTask (RedisTask).

Module Task.

Record Task := mk { id : Z; title : bytes; completed : bool }.

#[global] Instance Task_eq_dec : EqDecision Task.
Proof. solve_decision. Defined.

Definition empty : Task := mk 0 [] false.

End Task.
Import Task (Task).

Module TaskManager.
Section TaskManager.
Context {K : Kernel} {C : Type}.

Definition TASK_SET_KEY : bytes := lit "tasks".
Definition NEXT_ID_KEY : bytes := lit "task:next_id".

Definition taskKey (id : Z) : bytes := lit "task:" ++ to_string id.

Definition GetAllCallback : Type := bool → list Task → C.
Definition CreateCallback : Type := bool → Task → C.
Definition UpdateCallback : Type := bool → Task → C.
Definition RemoveCallback : Type := bool → bool → C.

(** The order of [std::sort].  The identifiers come from a Redis set to which the
    program adds distinct numerals; among equal ones the unstable [std::sort]
    could leave another order than the stable sort below. *)
Definition by_id (first second : Task) : Prop := Task.id first ≤ Task.id second.

#[global] Instance by_id_dec first second : Decision (by_id first second).
Proof. unfold by_id. apply _. Defined.

Definition from_redis (t : RedisTask) : Task :=
  Task.mk (RedisTask.id t) (RedisTask.title t) (RedisTask.completed t).

Definition getAll_work (callback : GetAllCallback) : WorkerPool.Work C :=
  r ← RedisClient.getAllTasks TASK_SET_KEY [];
  let '(success, redis_tasks) := r in
  let result := if success then merge_sort by_id (from_redis <$> redis_tasks) else [] in
  mret (Some (callback success result)).

Definition getAll (reactor_id : Z) (callback : option GetAllCallback) : Prog (WorkerPool.WorkerPool C) bool :=
  match callback with
  | None => mret false
  | Some callback => WorkerPool.submit reactor_id (Some (getAll_work callback))
  end.

Definition create_work (title : bytes) (callback : CreateCallback) : WorkerPool.Work C :=
  r ← RedisClient.createTask NEXT_ID_KEY TASK_SET_KEY title 0;
  let '(success, id) := r in
  let result := if success then Task.mk id title false else Task.empty in
  mret (Some (callback success result)).

Definition create (reactor_id : Z) (title : bytes) (callback : option CreateCallback) :
    Prog (WorkerPool.WorkerPool C) bool :=
  match callback with
  | None => mret false
  | Some callback =>
      if len title =? 0 then mret false
      else WorkerPool.submit reactor_id (Some (create_work title callback))
  end.

Definition update_work (id : Z) (title : bytes) (completed : bool) (callback : UpdateCallback) :
    WorkerPool.Work C :=
  r ← RedisClient.updateTask (taskKey id) title completed [];
  let '(success, updated_title) := r in
  let result := if success then Task.mk id updated_title completed else Task.empty in
  mret (Some (callback success result)).

Definition update (reactor_id id : Z) (title : bytes) (completed : bool) (callback : option UpdateCallback) :
    Prog (WorkerPool.WorkerPool C) bool :=
  match callback with
  | None => mret false
  | Some callback => WorkerPool.submit reactor_id (Some (update_work id title completed callback))
  end.

Definition remove_work (id : Z) (callback : RemoveCallback) : WorkerPool.Work C :=
  r ← RedisClient.removeTask (taskKey id) TASK_SET_KEY (to_string id) false;
  let '(success, removed) := r in
  mret (Some (callback success removed)).

Definition remove (reactor_id id : Z) (callback : option RemoveCallback) : Prog (WorkerPool.WorkerPool C) bool :=
  match callback with
  | None => mret false
  | Some callback => WorkerPool.submit reactor_id (Some (remove_work id callback))
  end.

End TaskManager.
#[global] Arguments GetAllCallback : clear implicits.
#[global] Arguments CreateCallback : clear implicits.
#[global] Arguments UpdateCallback : clear implicits.
#[global] Arguments RemoveCallback : clear implicits.
End TaskManager.
