(* ===== verification/Handler.v ===== *)
(** * The request handlers

    [src/http/HttpHandler.cpp]: static files, the task API and the monitoring
    pages.  Requests for tasks are answered later, by a completion that the task
    manager makes out of the caller's callback; the lambdas of the source are the
    [*_response] functions here, composed with that callback. *)

From S2P Require Import Prelude.
From S2P Require Import Numerals.
From S2P Require Import Sys.
From S2P Require Import Request.
From S2P Require Import Response.
From S2P Require Import Router.
From S2P Require Import StaticFiles.
From S2P Require Import Stats.
From S2P Require Import Redis.
From S2P Require Import Pool.
From S2P Require Import Tasks.
Import HttpRequest (HttpRequest, method, target, getHeader).
Import HttpResponse (HttpResponse, setStatus, setBody, setContentType, setHeader, setConnection,
  setContentLength, setSendBody).
Import Task (Task).

Module HttpHandler.

Inductive HandleResult := Completed | Pending.

#[global] Instance HandleResult_eq_dec : EqDecision HandleResult.
Proof. solve_decision. Defined.

Definition setErrorResponse (status : Z) (reason message : bytes) (response : HttpResponse) : HttpResponse :=
  setContentLength (setConnection (lit "keep-alive") (setContentType (lit "text/plain")
    (setBody message (setStatus status reason response)))).

(** ** Texts *)

Fixpoint escapeJson (value : bytes) : bytes :=
  match value with
  | [] => []
  | c :: rest =>
      (if ceq c "\" then lit "\\"
       else if ceq c QUOTE then lit "\" ++ [QUOTE]
       else if ceq c LF then lit "\n"
       else if ceq c CR then lit "\r"
       else if ceq c HT then lit "\t"
       else [c]) ++ escapeJson rest
  end.

Definition hex_value (c : ascii) : Z := if isdigit c then code c - 48 else code (tolower c) - 97 + 10.

Fixpoint urlDecode (value : bytes) : bytes :=
  match value with
  | [] => []
  | c :: rest =>
      if ceq c "+" then SP :: urlDecode rest
      else if ceq c "%" then
        match rest with
        | first :: second :: rest' =>
            if isxdigit first && isxdigit second
            then chr (hex_value first * 16 + hex_value second) :: urlDecode rest'
            else c :: urlDecode rest
        | _ => c :: urlDecode rest
        end
      else c :: urlDecode rest
  end.

(** The loop of [getFormValue]; [fuel] bounds its turns, one per byte and one
    more is enough ([form_loop_spec]). *)
Fixpoint form_loop (fuel : nat) (body key : bytes) (start : Z) : bytes :=
  match fuel with
  | O => []
  | S fuel' =>
      if start <? len body then
        let end_ := match find_char body "&" start with Some e => e | None => len body end in
        let pair := substr body start (sub64 end_ start) in
        match find_char pair "=" 0 with
        | Some separator =>
            if beq (substr pair 0 separator) key then urlDecode (substr_from pair (separator + 1))
            else form_loop fuel' body key (end_ + 1)
        | None => form_loop fuel' body key (end_ + 1)
        end
      else []
  end.

Definition getFormValue (body key : bytes) : bytes := form_loop (S (length body)) body key 0.

(** The digits of [parseTaskId]. *)
Fixpoint id_digits (l : bytes) (id : Z) : option Z :=
  match l with
  | [] => Some id
  | c :: rest =>
      if negb (isdigit c) then None
      else
        let digit := code c - 48 in
        if id >? sub64 (U64 - 1) digit / 10 then None
        else id_digits rest (id * 10 + digit)
  end.

(** The parsed identifier, if [parseTaskId] returns true. *)
Definition parseTaskId (target : bytes) : option Z :=
  if negb (starts_with (lit "/tasks/") target) then None
  else
    let id_string := substr_from target 7 in
    if len id_string =? 0 then None else id_digits id_string 0.

(** ["key"]. *)
Definition quoted (l : bytes) : bytes := [QUOTE] ++ l ++ [QUOTE].

(** The string that follows ["key"] and a colon, as both handlers look for it. *)
Definition json_string (body key : bytes) : bytes :=
  match find body (quoted key) 0 with
  | None => []
  | Some key_position =>
      match find_char body ":" key_position with
      | None => []
      | Some colon_position =>
          match find_char body QUOTE (colon_position + 1) with
          | None => []
          | Some quote_start =>
              match find_char body QUOTE (quote_start + 1) with
              | None => []
              | Some quote_end =>
                  substr body (quote_start + 1) (sub64 (sub64 quote_end quote_start) 1)
              end
          end
      end
  end.

(** The word that follows ["completed"] and a colon. *)
Definition json_completed (body : bytes) : bytes :=
  match find body (quoted (lit "completed")) 0 with
  | None => []
  | Some key_position =>
      match find_char body ":" key_position with
      | None => []
      | Some colon_position =>
          let value := skip_while isspace (substr_from body (colon_position + 1)) in
          if beq (substr value 0 4) (lit "true") then lit "true"
          else if beq (substr value 0 5) (lit "false") then lit "false"
          else []
      end
  end.

Definition is_json (request : HttpRequest) : bool :=
  bool_decide (is_Some (find (getHeader request (lit "Content-Type")) (lit "application/json") 0)).

Definition field (key : string) (value : bytes) : bytes := quoted (lit key) ++ lit ":" ++ value.

Definition boolean (b : bool) : bytes := if b then lit "true" else lit "false".

Definition task_json (id : Z) (title completed : bytes) : bytes :=
  lit "{" ++ field "id" (to_string id) ++ lit "," ++ field "title" (quoted (escapeJson title)) ++ lit "," ++
  field "completed" completed ++ lit "}".

(** The loop over the tasks, with a comma after all but the last. *)
Fixpoint tasks_json (tasks : list Task) : bytes :=
  match tasks with
  | [] => []
  | t :: rest =>
      task_json (Task.id t) (Task.title t) (boolean (Task.completed t)) ++
      (match rest with [] => [] | _ => lit "," end) ++ tasks_json rest
  end.

(** ** Deferred responses *)

Definition json_response (status : Z) (reason body : bytes) : HttpResponse :=
  setContentLength (setConnection (lit "keep-alive") (setContentType (lit "application/json")
    (setBody body (setStatus status reason HttpResponse.construct)))).

Definition unavailable (message : bytes) : HttpResponse → HttpResponse :=
  setErrorResponse 503 (lit "Service Unavailable") message.

Definition get_tasks_response (success : bool) (tasks : list Task) : HttpResponse :=
  if negb success then unavailable (lit "Task storage unavailable") HttpResponse.construct
  else json_response 200 (lit "OK") (lit "[" ++ tasks_json tasks ++ lit "]").

Definition post_task_response (success : bool) (task : Task) : HttpResponse :=
  if negb success then unavailable (lit "Task storage unavailable") HttpResponse.construct
  else json_response 201 (lit "Created") (task_json (Task.id task) (Task.title task) (lit "false")).

Definition put_task_response (success : bool) (task : Task) : HttpResponse :=
  if negb success then setErrorResponse 404 (lit "Not Found") (lit "Task Not Found") HttpResponse.construct
  else json_response 200 (lit "OK")
         (task_json (Task.id task) (Task.title task) (boolean (Task.completed task))).

Definition delete_task_response (success removed : bool) : HttpResponse :=
  if negb success || negb removed
  then setErrorResponse 404 (lit "Not Found") (lit "Task Not Found") HttpResponse.construct
  else setContentLength (setConnection (lit "keep-alive") (setBody []
         (setStatus 204 (lit "No Content") HttpResponse.construct))).

(** ** Immediate responses *)

Definition handleGetHello (response : HttpResponse) : HttpResponse :=
  setContentLength (setConnection (lit "keep-alive") (setContentType (lit "text/plain")
    (setBody (lit "Hello from AORTA") (setStatus 200 (lit "OK") response)))).

Definition handleGetHealth (response : HttpResponse) : HttpResponse :=
  setContentLength (setConnection (lit "keep-alive") (setContentType (lit "text/plain")
    (setBody (lit "OK") (setStatus 200 (lit "OK") response)))).

Definition handleOptions (response : HttpResponse) : HttpResponse :=
  setContentLength (setHeader (lit "Allow") (lit "GET, HEAD, POST, PUT, DELETE, OPTIONS")
    (setConnection (lit "keep-alive") (setContentType (lit "text/plain")
      (setBody [] (setStatus 204 (lit "No Content") response))))).

Definition method_not_allowed (response : HttpResponse) : HttpResponse :=
  setSendBody false (setHeader (lit "Allow") (lit "GET, HEAD, POST, PUT, DELETE, OPTIONS")
    (setErrorResponse 405 (lit "Method Not Allowed") (lit "Method Not Allowed") response)).

Section HttpHandler.
Context {K : Kernel} {C : Type}.

(** The objects the handler shares with the rest of the server. *)
Record Shared := mk_shared { pool : WorkerPool.WorkerPool C; metrics : Metrics.Metrics }.

#[global] Instance eta_Shared : Eta Shared := fun s => mk_shared (pool s) (metrics s).

Abbreviation M := (Prog Shared).

(** [task_manager] is the reactor number of the task manager pointed to, if any. *)
Record HttpHandler := mk {
  router : @HttpRouter.routes Shared;
  public_directory : bytes;
  task_manager : option Z
}.

Definition ResponseCallback : Type := HttpResponse → C.

Definition in_pool {A} (m : Prog (WorkerPool.WorkerPool C) A) : M A :=
  zoom pool (λ p s, s <| pool := p |>) m.

Definition handleGetMetrics (response : HttpResponse) : M HttpResponse :=
  m ← gets metrics;
  mret (setContentLength (setConnection (lit "keep-alive")
    (setContentType (lit "text/plain; version=0.0.4")
      (setBody (Metrics.serialize m) (setStatus 200 (lit "OK") response))))).

Definition registerRoutes : @HttpRouter.routes Shared :=
  HttpRouter.get (lit "/tasks") (λ _ response, mret response)
    (HttpRouter.get (lit "/metrics") (λ _ response, handleGetMetrics response)
      (HttpRouter.get (lit "/health") (λ _ response, mret (handleGetHealth response))
        (HttpRouter.get (lit "/hello") (λ _ response, mret (handleGetHello response)) []))).

Definition construct (task_manager : option Z) : HttpHandler :=
  mk registerRoutes (lit "./public") task_manager.

(** The end of every task handler: a job that is not accepted is answered at
    once. *)
Definition deferred (submitted : M bool) (response : HttpResponse) : M (HandleResult * HttpResponse) :=
  accepted ← submitted;
  if negb accepted then mret (Completed, unavailable (lit "Task queue unavailable") response)
  else mret (Pending, response).

Definition no_storage (response : HttpResponse) : M (HandleResult * HttpResponse) :=
  mret (Completed, unavailable (lit "Task storage unavailable") response).

Definition bad_request (message : string) (response : HttpResponse) : M (HandleResult * HttpResponse) :=
  mret (Completed, setErrorResponse 400 (lit "Bad Request") (lit message) response).

Definition handleGetTasks (h : HttpHandler) (response : HttpResponse) (callback : ResponseCallback) :
    M (HandleResult * HttpResponse) :=
  match task_manager h with
  | None => no_storage response
  | Some reactor =>
      deferred (in_pool (TaskManager.getAll reactor
        (Some (λ success tasks, callback (get_tasks_response success tasks))))) response
  end.

Definition handlePostTask (h : HttpHandler) (request : HttpRequest) (response : HttpResponse)
    (callback : ResponseCallback) : M (HandleResult * HttpResponse) :=
  match task_manager h with
  | None => no_storage response
  | Some reactor =>
      let title :=
        if is_json request then json_string (HttpRequest.body request) (lit "title")
        else getFormValue (HttpRequest.body request) (lit "title") in
      if len title =? 0 then bad_request "Task title is required" response
      else deferred (in_pool (TaskManager.create reactor title
        (Some (λ success task, callback (post_task_response success task))))) response
  end.

Definition handlePutTask (h : HttpHandler) (request : HttpRequest) (response : HttpResponse)
    (callback : ResponseCallback) : M (HandleResult * HttpResponse) :=
  match task_manager h with
  | None => no_storage response
  | Some reactor =>
      match parseTaskId (target request) with
      | None => bad_request "Invalid task ID" response
      | Some id =>
          let body := HttpRequest.body request in
          let '(title, completed_value) :=
            if is_json request then (json_string body (lit "title"), json_completed body)
            else (getFormValue body (lit "title"), getFormValue body (lit "completed")) in
          if negb (beq completed_value (lit "true")) && negb (beq completed_value (lit "false"))
          then bad_request "completed must be true or false" response
          else
            let completed := beq completed_value (lit "true") in
            deferred (in_pool (TaskManager.update reactor id title completed
              (Some (λ success task, callback (put_task_response success task))))) response
      end
  end.

Definition handleDeleteTask (h : HttpHandler) (request : HttpRequest) (response : HttpResponse)
    (callback : ResponseCallback) : M (HandleResult * HttpResponse) :=
  match task_manager h with
  | None => no_storage response
  | Some reactor =>
      match parseTaskId (target request) with
      | None => bad_request "Invalid task ID" response
      | Some id =>
          deferred (in_pool (TaskManager.remove reactor id
            (Some (λ success removed, callback (delete_task_response success removed))))) response
      end
  end.

(** What is left of [handle] once the static files have been tried. *)
Definition dispatch (h : HttpHandler) (request : HttpRequest) (response : HttpResponse)
    (callback : ResponseCallback) : M (HandleResult * HttpResponse) :=
  let has_method m := beq (method request) (lit m) in
  let path := target request in
  if has_method "GET" && beq path (lit "/tasks") then handleGetTasks h response callback
  else if has_method "POST" && beq path (lit "/tasks") then handlePostTask h request response callback
  else if has_method "PUT" && starts_with (lit "/tasks/") path then handlePutTask h request response callback
  else if has_method "DELETE" && starts_with (lit "/tasks/") path then handleDeleteTask h request response callback
  else if has_method "OPTIONS" then mret (Completed, handleOptions response)
  else if has_method "HEAD" then
    let get_request := request <| method := lit "GET" |> in
    if beq path (lit "/tasks") || starts_with (lit "/tasks/") path
    then mret (Completed, method_not_allowed response)
    else
      routed ← HttpRouter.route (router h) get_request response;
      mret (Completed, setSendBody false routed.2)
  else
    routed ← HttpRouter.route (router h) request response;
    mret (Completed, routed.2).

Definition handle (h : HttpHandler) (request : HttpRequest) (response : HttpResponse)
    (callback : ResponseCallback) : M (HandleResult * HttpResponse) :=
  if beq (target request) (lit "/") || bool_decide (is_Some (find_char (target request) "." 0)) then
    static ← StaticFileHandler.handle (public_directory h) request response;
    let '(handled, response) := static in
    if handled then mret (Completed, response)
    else dispatch h request response callback
  else dispatch h request response callback.

End HttpHandler.
#[global] Arguments Shared : clear implicits.
#[global] Arguments HttpHandler : clear implicits.
#[global] Arguments ResponseCallback : clear implicits.
End HttpHandler.
Import HttpHandler.
