(* ===== verification/HandlerTheorems.v ===== *)
(** * What the handlers answer

    Every request gets exactly one well-formed answer, now or through a job; and
    the texts in it can be read back. *)

From S2P Require Import Prelude.
From S2P Require Import Numerals.
From S2P Require Import Sys.
From S2P Require Import Progress.
From S2P Require Import Request.
From S2P Require Import Response.
From S2P Require Import Router.
From S2P Require Import StaticFiles.
From S2P Require Import Stats.
From S2P Require Import Redis.
From S2P Require Import Pool.
From S2P Require Import Tasks.
From S2P Require Import Handler.
Import HttpRequest (HttpRequest, method, target, getHeader).
Import HttpResponse (HttpResponse, setStatus, setBody, setContentType, setHeader, setConnection,
  setContentLength, setSendBody, send_file, send_body, body).
Import Task (Task).
Import HttpHandler.

(** ** Well-formed answers *)

(** A response a client can read, as long as its body has a length at all. *)
Definition answerable (r : HttpResponse) : Prop := len (body r) < U64 → clean r ∧ framed r.

(** What [callback] is given for a task request: a body, never a file. *)
Definition deferred_answer (r : HttpResponse) : Prop :=
  answerable r ∧ send_file r = false ∧ send_body r = true.

Lemma text_answer code why ct message r :
  0 ≤ code < U64 → no_char CR why = true → no_char CR ct = true → clean r →
  answerable (setContentLength (setConnection (lit "keep-alive") (setContentType ct
    (setBody message (setStatus code why r))))).
Proof.
  intros Hc Hw Ht Hr Hl. pose proof (len_nonneg message).
  assert (len message < U64) as Hlen by exact Hl.
  split; [apply setContentLength_clean|apply setContentLength_framed]; try (unfold payload_len; cbn; lia).
  auto 10 with aorta.
Qed.

Lemma error_answer code why message r :
  0 ≤ code < U64 → no_char CR why = true → clean r → answerable (setErrorResponse code why message r).
Proof. intros. by apply text_answer. Qed.

Lemma answerable_suppressed r : answerable r → answerable (setSendBody false r).
Proof. intros H Hl. destruct (H Hl). auto with aorta. Qed.

Lemma get_tasks_answer success tasks : deferred_answer (get_tasks_response success tasks).
Proof.
  unfold get_tasks_response. destruct success; cbn [negb]; (split; [|done]);
    [apply text_answer|apply error_answer]; auto with aorta.
Qed.

Lemma post_task_answer success task : deferred_answer (post_task_response success task).
Proof.
  unfold post_task_response. destruct success; cbn [negb]; (split; [|done]);
    [apply text_answer|apply error_answer]; auto with aorta.
Qed.

Lemma put_task_answer success task : deferred_answer (put_task_response success task).
Proof.
  unfold put_task_response. destruct success; cbn [negb]; (split; [|done]);
    [apply text_answer|apply error_answer]; auto with aorta.
Qed.

Lemma delete_task_answer success removed : deferred_answer (delete_task_response success removed).
Proof.
  unfold delete_task_response. destruct (_ || _); (split; [|done]).
  - apply error_answer; auto with aorta.
  - intros _. split; [apply setContentLength_clean|apply setContentLength_framed]; try done.
    auto 10 with aorta.
Qed.

Lemma options_answer r : clean r → answerable (handleOptions r).
Proof.
  intros Hr _. unfold handleOptions.
  split; [apply setContentLength_clean|apply setContentLength_framed]; try done.
  apply setHeader_clean; [done|]. auto 10 with aorta.
Qed.

Lemma method_not_allowed_answer r : clean r → answerable (method_not_allowed r).
Proof.
  intros Hr. unfold method_not_allowed. apply answerable_suppressed. intros Hl.
  destruct (error_answer 405 (lit "Method Not Allowed") (lit "Method Not Allowed") r) as [H1 H2];
    auto with aorta.
  split; [by apply setHeader_clean|by apply setHeader_framed].
Qed.

(** ** Jobs *)

(** A job that comes back with [callback] applied to an answer. *)
Definition answering {K : Kernel} {C} (callback : HttpResponse → C) (work : WorkerPool.Work C) : Prop :=
  total work ∧
  ∀ client w oc client' w', work client w = Some (oc, client', w') →
    ∃ r, oc = Some (callback r) ∧ deferred_answer r.

Section Jobs.
Context {K : Kernel} {C : Type} (callback : HttpResponse → C).

Lemma drop_context_total : total RedisClient.drop_context.
Proof. unfold RedisClient.drop_context. total_run. Qed.

Lemma ensureConnected_total : total RedisClient.ensureConnected.
Proof.
  pose proof drop_context_total. assert (total RedisClient.connect) by (unfold RedisClient.connect; total_run).
  unfold RedisClient.ensureConnected. total_run.
Qed.

Lemma request_total {A} args (fail : A) read : total (RedisClient.request args fail read).
Proof. pose proof ensureConnected_total. unfold RedisClient.request. total_run. Qed.

Lemma answering_bind {A} (m : Prog RedisClient.RedisClient A) k :
  total m → (∀ a, ∃ r, k a = mret (Some (callback r)) ∧ deferred_answer r) →
  answering callback (bind m k).
Proof.
  intros Hm Hk. split.
  - apply total_bind; [done|]. intros a. destruct (Hk a) as (r & -> & _). apply total_ret.
  - intros client w oc client' w'. unfold bind. destruct (m client w) as [[[a c1] w1]|]; [|done].
    destruct (Hk a) as (r & -> & Hr). intros [= <- <- <-]. by exists r.
Qed.

Lemma getAll_answering :
  answering callback (TaskManager.getAll_work (λ success tasks, callback (get_tasks_response success tasks))).
Proof.
  apply answering_bind; [apply request_total|]. intros [success tasks].
  eexists. split; [done|apply get_tasks_answer].
Qed.

Lemma create_answering title :
  answering callback (TaskManager.create_work title (λ success task, callback (post_task_response success task))).
Proof.
  apply answering_bind; [apply request_total|]. intros [success id].
  eexists. split; [done|apply post_task_answer].
Qed.

Lemma update_answering id title completed :
  answering callback
    (TaskManager.update_work id title completed (λ success task, callback (put_task_response success task))).
Proof.
  apply answering_bind; [apply request_total|]. intros [success updated].
  eexists. split; [done|apply put_task_answer].
Qed.

Lemma remove_answering id :
  answering callback
    (TaskManager.remove_work id (λ success removed, callback (delete_task_response success removed))).
Proof.
  apply answering_bind; [apply request_total|]. intros [success removed].
  eexists. split; [done|apply delete_task_answer].
Qed.

(** ** The outcome of a request *)

(** Either the response is complete and the pool untouched, or one job has been
    added that will answer. *)
Definition outcome (tm : option Z) (s : Shared C) (res : HandleResult) (r : HttpResponse) (s' : Shared C) : Prop :=
  metrics s' = metrics s ∧
  match res with
  | Completed => answerable r ∧ pool s' = pool s
  | Pending => ∃ reactor work, tm = Some reactor ∧ answering callback work ∧
      pool s' = pool s <| WorkerPool.jobs := WorkerPool.jobs (pool s) ++ [WorkerPool.mk_job reactor work] |>
  end.

(** Only the file system is looked at. *)
Definition looks (e : event) : Prop := ∃ path, e.1 = sys_stat path.

Definition answered (tm : option Z) (m : Prog (Shared C) (HandleResult * HttpResponse)) : Prop :=
  ∀ s w, ∃ res r s' l, m s w = Some (res, r, s', l ++ w) ∧ outcome tm s res r s' ∧ Forall looks l.

Lemma answered_now tm r : answerable r → answered tm (mret (Completed, r)).
Proof. intros H s w. exists Completed, r, s, []. by split_and!. Qed.

Lemma submit_outcome reactor (work : WorkerPool.Work C) (p : WorkerPool.WorkerPool C) w :
  WorkerPool.submit reactor (Some work) p w = Some (false, p, w) ∨
  WorkerPool.submit reactor (Some work) p w =
    Some (true, p <| WorkerPool.jobs := WorkerPool.jobs p ++ [WorkerPool.mk_job reactor work] |>, w).
Proof.
  unfold WorkerPool.submit, bind, gets, modify. cbn [id].
  destruct (_ >=? _); [by left|]. destruct (_ || _); [by left|by right].
Qed.

Lemma answered_deferred reactor (work : WorkerPool.Work C) r :
  clean r → answering callback work →
  answered (Some reactor) (deferred (in_pool (WorkerPool.submit reactor (Some work))) r).
Proof.
  intros Hr Hw s w. unfold deferred, in_pool, bind, zoom.
  destruct (submit_outcome reactor work (pool s) w) as [-> | ->]; cbn [negb].
  - eexists _, _, _, []. split; [done|]. split; [|done]. split; [by destruct s|].
    split; [apply error_answer; auto with aorta|by destruct s].
  - eexists _, _, _, []. split; [done|]. split; [|done]. split; [by destruct s|]. by exists reactor, work.
Qed.

Lemma answered_refused tm code why message r :
  0 ≤ code < U64 → no_char CR why = true → clean r →
  answered tm (mret (Completed, setErrorResponse code why message r)).
Proof. intros. apply answered_now. by apply error_answer. Qed.

(** The router is never asked for the list of tasks, so it runs one of the three
    monitoring handlers or none; the answer is well-formed and nothing else
    changes. *)
Lemma route_answered tm req r s w :
  clean r → beq (method req) (lit "GET") && beq (target req) (lit "/tasks") = false →
  ∃ b r', HttpRouter.route (router (construct (C := C) tm)) req r s w = Some (b, r', s, w) ∧
    answerable r'.
Proof.
  intros Hr Ht. rewrite route_first.
  destruct (List.find _ _) as [rt|] eqn:E.
  - apply List.find_some in E as [Hin Hm]. unfold matches in Hm. cbn in Hin.
    destruct Hin as [<-|[<-|[<-|[<-|[]]]]]; cbn -[lit setStatus setBody Metrics.serialize];
      unfold bind, mret, Prog_ret, gets, handleGetMetrics;
      try (eexists true, _; (split; [done|]); by apply text_answer).
    exfalso. apply andb_true_iff in Hm as [H1 H2]. unfold beq in *.
    apply bool_decide_eq_true in H1, H2. cbn in H1, H2. by rewrite <- H1, <- H2 in Ht.
  - assert (answerable (HttpRouter.not_found r) ∧ answerable (HttpRouter.not_allowed r)) as [H404 H405].
    { split; [by apply text_answer|]. intros _.
      split; [apply setContentLength_clean|apply setContentLength_framed]; try done.
      apply setConnection_clean; [done|]. apply setHeader_clean; [done|]. auto 10 with aorta. }
    destruct (existsb _ _); by eexists false, _.
Qed.

(** A static file is answered at once. *)
Lemma static_answered dir req r (s : Shared C) w :
  clean r → ∃ b r' l, StaticFileHandler.handle dir req r s w = Some (b, r', s, l ++ w) ∧
    Forall looks l ∧ if b then answerable r' else r' = r.
Proof.
  intros Hr. rewrite StaticFiles.handle_outcome. cbv zeta.
  assert (∀ code why, 0 ≤ code < U64 → no_char CR why = true → len why < U64 →
    answerable (StaticFileHandler.refuse code why r)) as H.
  { intros code why Hc Hw Hl _. split; [by apply refuse_clean|by apply refuse_framed]. }
  destruct (_ && _); [by eexists false, _, []|].
  destruct (negb _); [eexists true, _, []; (split_and!; [done..|]); by apply H|].
  set (e := (sys_stat _, respond w _) : event). assert (Forall looks [e]) as Hl by (apply Forall_singleton; by eexists).
  destruct (_ || _); [eexists true, _, [e]; (split_and!; [done..|]); by apply H|].
  destruct (_ >? _); [eexists true, _, [e]; (split_and!; [done..|]); by apply H|].
  eexists true, _, [e]. split_and!; [done..|]. intros _.
  edestruct serve_well_formed as (Hc & Hf & _); [|done|split; [exact Hc|exact Hf]].
  by apply Z.mod_pos_bound.
Qed.

Lemma dispatch_answered tm req r : clean r → answered tm (dispatch (construct tm) req r callback).
Proof.
  intros Hr. unfold dispatch.
  pose proof (λ tm code why message, answered_refused tm code why message r) as Hrefused.
  destruct (beq (method req) (lit "GET") && beq (target req) (lit "/tasks")) eqn:Eget.
  { unfold handleGetTasks. destruct tm as [reactor|]; [|by apply Hrefused].
    apply answered_deferred; [done|apply getAll_answering]. }
  destruct (beq _ (lit "POST") && _).
  { unfold handlePostTask. destruct tm as [reactor|]; [|by apply Hrefused]. cbn [task_manager construct].
    unfold TaskManager.create. destruct (len _ =? 0); [by apply Hrefused|].
    apply answered_deferred; [done|apply create_answering]. }
  destruct (beq _ (lit "PUT") && _).
  { unfold handlePutTask. destruct tm as [reactor|]; [|by apply Hrefused]. cbn [task_manager construct].
    destruct (parseTaskId _); [|by apply Hrefused].
    destruct (if is_json req then _ else _) as [title completed].
    destruct (negb _ && _); [by apply Hrefused|].
    apply answered_deferred; [done|apply update_answering]. }
  destruct (beq _ (lit "DELETE") && _).
  { unfold handleDeleteTask. destruct tm as [reactor|]; [|by apply Hrefused]. cbn [task_manager construct].
    destruct (parseTaskId _); [|by apply Hrefused].
    apply answered_deferred; [done|apply remove_answering]. }
  destruct (beq _ (lit "OPTIONS")); [apply answered_now, options_answer; done|].
  destruct (beq _ (lit "HEAD")).
  - destruct (beq _ _ || _) eqn:Ep; [by apply answered_now, method_not_allowed_answer|].
    apply orb_false_iff in Ep as [Ep _]. intros s w.
    destruct (route_answered tm (req <| method := lit "GET" |>) r s w) as (b & r' & E & Ha); [done| |].
    { cbn -[lit]. by rewrite Ep, andb_false_r. }
    unfold bind. rewrite E. by apply answered_now, answerable_suppressed.
  - intros s w. destruct (route_answered tm req r s w) as (b & r' & E & Ha); [done..|].
    unfold bind. rewrite E. by apply answered_now.
Qed.

Lemma handle_answered tm req : answered tm (handle (construct tm) req HttpResponse.construct callback).
Proof.
  unfold handle. pose proof construct_clean as Hr. destruct (_ || _); [|by apply dispatch_answered].
  intros s w. destruct (static_answered (public_directory (construct (C := C) tm)) req _ s w Hr)
    as (b & r' & l & E & Hl & Hb).
  unfold bind. rewrite E. destruct b.
  - exists Completed, r', s, l. by split_and!.
  - subst r'. destruct (dispatch_answered tm req _ Hr s (l ++ w)) as (res & r & s' & l' & E' & Ho & Hl').
    exists res, r, s', (l' ++ l). rewrite <- app_assoc. split_and!; [done..|]. by apply Forall_app.
Qed.

(** C9: Every request is answered exactly once.  [handle] returns; when it says
    [Completed] the response is well-formed and no job was submitted, and when it
    says [Pending] exactly one job was appended to the pool, in the name of the
    task manager's reactor, which itself returns whatever Redis does and then completes with the caller's callback applied to
    one well-formed response.  Nothing else of the shared state changes, and
    the only system calls are looks at the file system. *)
Theorem handle_answers tm req s w :
  ∃ res r s' l, handle (construct tm) req HttpResponse.construct callback s w = Some (res, r, s', l ++ w) ∧
    outcome tm s res r s' ∧ Forall looks l.
Proof. apply handle_answered. Qed.
End Jobs.
