(* ===== verification/HandlerTexts.v ===== *)
(** * The texts of the handlers, read back

    Identifiers in targets, urlencoded forms and the task lists in JSON: each
    parser against the text that spells its result. *)

From S2P Require Import Prelude.
From S2P Require Import Numerals.
From S2P Require Import Sys.
From S2P Require Import Response.
From S2P Require Import Tasks.
From S2P Require Import Handler.
Import Task (Task).
Import HttpHandler.

(** ** Identifiers *)

Lemma decimal_from_lower acc l : 0 ≤ acc → forallb isdigit l = true → acc ≤ decimal_from acc l.
Proof.
  revert acc. induction l as [|c l IH]; intros acc Ha Hl; cbn; [lia|].
  cbn in Hl. apply andb_true_iff in Hl as [Hc Hl]. unfold isdigit, between in Hc. bool_prop.
  etransitivity; [|apply IH; [lia|done]]. lia.
Qed.

Lemma id_digits_iff l id n :
  0 ≤ id < U64 →
  id_digits l id = Some n ↔ forallb isdigit l = true ∧ decimal_from id l = n ∧ n < U64.
Proof.
  revert id. induction l as [|c l IH]; intros id Hid; cbn [id_digits forallb].
  { unfold decimal_from. cbn. split; [intros [= <-]|by intros (_ & <- & _)].
    by destruct Hid. }
  destruct (isdigit c) eqn:Ec; cbn [negb andb]; [|by split; [|intros []]].
  unfold isdigit, between in Ec. bool_prop.
  rewrite sub64_small by (unfold U64 in *; lia).
  change (decimal_from id (c :: l)) with (decimal_from (id * 10 + (code c - 48)) l).
  destruct (id >? _) eqn:Eo; bool_prop.
  - split; [done|]. intros (Hl & <- & Hn).
    pose proof (decimal_from_lower (id * 10 + (code c - 48)) l ltac:(lia) Hl). unfold U64 in *. div_lia.
  - apply IH. unfold U64 in *. div_lia.
Qed.

Lemma parseTaskId_iff t n :
  parseTaskId t = Some n ↔
  ∃ ds, t = lit "/tasks/" ++ ds ∧ ds ≠ [] ∧ forallb isdigit ds = true ∧ decimal ds = n ∧ n < U64.
Proof.
  unfold parseTaskId. destruct (starts_with _ t) eqn:E; cbn [negb].
  - apply starts_with_split in E as [ds ->].
    change (substr_from (lit "/tasks/" ++ ds) 7) with ds.
    destruct (Z.eqb_spec (len ds) 0) as [El|El].
    + apply len_0 in El as ->. split; [done|].
      intros (ds & Ed & Hne & _). by apply (app_inv_head (lit "/tasks/")) in Ed as <-.
    + rewrite id_digits_iff by done. split.
      * intros (Hd & Hv & Hn). exists ds. split_and!; try done. by intros ->.
      * intros (ds' & Ed & _ & H). by apply (app_inv_head (lit "/tasks/")) in Ed as ->.
  - split; [done|]. intros (ds & -> & _). by rewrite starts_with_self in E.
Qed.

(** C37: A target names a task exactly when it is [/tasks/] followed by a
    non-empty decimal numeral below 2^64, and then the identifier is that
    number; no multiplication of the parser wraps around.  Every identifier is
    named by the target that spells it. *)
Theorem parseTaskId_exact t n :
  (parseTaskId t = Some n ↔
   ∃ ds, t = lit "/tasks/" ++ ds ∧ ds ≠ [] ∧ forallb isdigit ds = true ∧ decimal ds = n ∧ n < U64) ∧
  (0 ≤ n < U64 → parseTaskId (lit "/tasks/" ++ to_string n) = Some n).
Proof.
  split; [apply parseTaskId_iff|]. intros Hn. apply parseTaskId_iff.
  destruct (to_string_spec n Hn) as (Hne & Hd & Hv). exists (to_string n). split_and!; done || lia.
Qed.

Lemma parseTaskId_exact_witness :
  parseTaskId (lit "/tasks/18446744073709551615") = Some (U64 - 1) ∧
  parseTaskId (lit "/tasks/18446744073709551616") = None.
Proof.
  split; [|by vm_compute].
  pose proof (proj2 (parseTaskId_exact [] (U64 - 1)) ltac:(done)) as H. by vm_compute in H |- *.
Defined.

(** ** Forms *)

(** A text either has no separator or one behind its first piece. *)
Lemma split_on_cases sep l :
  (no_char sep l = true ∧ split_on sep l = [l]) ∨
  ∃ mid post, l = mid ++ [sep] ++ post ∧ no_char sep mid = true ∧
    split_on sep l = mid :: split_on sep post.
Proof.
  induction l as [|c l IH]; [by left|]. cbn [split_on]. destruct (ceq c sep) eqn:E.
  - right. exists [], l. unfold ceq in E. by apply bool_decide_eq_true in E as ->.
  - destruct IH as [[Hn ->]|(mid & post & -> & Hm & ->)].
    + left. unfold no_char in *. cbn. by rewrite Hn, ceq_sym, E.
    + right. exists (c :: mid), post. unfold no_char in *. cbn. by rewrite Hm, ceq_sym, E.
Qed.

Definition names (key pair : bytes) : bool :=
  match find_char pair "=" 0 with Some i => beq (substr pair 0 i) key | None => false end.

Definition value_of (pair : bytes) : bytes :=
  match find_char pair "=" 0 with Some i => urlDecode (substr_from pair (i + 1)) | None => [] end.

(** The loop looks the key up among the pieces between ampersands. *)
Lemma form_loop_spec fuel pre rest key :
  len (pre ++ rest) + 1 < U64 → (length rest < fuel)%nat →
  form_loop fuel (pre ++ rest) key (len pre) =
  match List.find (names key) (split_on "&" rest) with Some p => value_of p | None => [] end.
Proof.
  revert pre rest. induction fuel as [|fuel IH]; intros pre rest Hl Hf; [lia|].
  rewrite len_app in Hl. pose proof (len_nonneg pre). pose proof (len_nonneg rest).
  cbn [form_loop]. rewrite len_app. destruct (Z.ltb_spec (len pre) (len pre + len rest)).
  2:{ assert (rest = []) as -> by (apply len_0; lia). done. }
  destruct (split_on_cases "&" rest) as [[Hn Es]|(mid & post & -> & Hm & Es)]; rewrite Es.
  - rewrite find_char_none by done. rewrite sub64_small by lia.
    replace (len pre + len rest - len pre) with (len rest) by lia.
    assert (substr (pre ++ rest) (len pre) (len rest) = rest) as ->.
    { rewrite <- (app_nil_r rest) at 1. apply substr_middle. }
    assert (form_loop fuel (pre ++ rest) key (len pre + len rest + 1) = []) as Hend.
    { destruct fuel; [done|]. cbn [form_loop]. rewrite len_app.
      by rewrite (proj2 (Z.ltb_ge _ _)) by lia. }
    cbn [List.find]. unfold names at 1, value_of.
    rewrite Hend. destruct (find_char rest "=" 0) as [i|] eqn:Ei; [|done].
    destruct (beq _ _); [by rewrite Ei|done].
  - rewrite find_char_after by done. pose proof (len_nonneg mid). pose proof (len_nonneg post).
    rewrite !len_app in *. change (len ["&"%char]) with 1 in *.
    rewrite sub64_small by lia. replace (len pre + len mid - len pre) with (len mid) by lia.
    rewrite substr_middle.
    assert (form_loop fuel (pre ++ mid ++ ["&"%char] ++ post) key (len pre + len mid + 1) =
      match List.find (names key) (split_on "&" post) with Some p => value_of p | None => [] end) as Hnext.
    { replace (pre ++ mid ++ ["&"%char] ++ post) with ((pre ++ mid ++ ["&"%char]) ++ post)
        by (by rewrite <- !app_assoc).
      replace (len pre + len mid + 1) with (len (pre ++ mid ++ ["&"%char])) by (rewrite !len_app; change (len ["&"%char]) with 1; lia).
      apply IH.
      - rewrite !len_app. change (len ["&"%char]) with 1. lia.
      - rewrite !length_app in Hf. cbn in Hf. lia. }
    cbn [List.find]. unfold names at 1, value_of.
    destruct (find_char mid "=" 0) as [i|] eqn:Ei; [|done].
    destruct (beq _ _); [by rewrite Ei|done].
Qed.

Lemma getFormValue_spec body key :
  len body + 1 < U64 →
  getFormValue body key =
  match List.find (names key) (split_on "&" body) with Some p => value_of p | None => [] end.
Proof. intros. apply (form_loop_spec (S (length body)) [] body key); [done|lia]. Qed.

(** What a browser sends for a field. *)
Definition hex_digit (n : Z) : ascii := chr (if n <? 10 then 48 + n else 55 + n).

Definition encode_char (c : ascii) : bytes :=
  if isalnum c then [c]
  else if ceq c SP then lit "+"
  else "%"%char :: [hex_digit (code c / 16); hex_digit (code c mod 16)].

Definition urlEncode (l : bytes) : bytes := concat (encode_char <$> l).

Definition render_field (f : bytes * bytes) : bytes := f.1 ++ lit "=" ++ urlEncode f.2.

Fixpoint render_form (fields : list (bytes * bytes)) : bytes :=
  match fields with
  | [] => []
  | [f] => render_field f
  | f :: rest => render_field f ++ lit "&" ++ render_form rest
  end.

Lemma decode_char c k : urlDecode (encode_char c ++ k) = c :: urlDecode k.
Proof. destruct c as [[] [] [] [] [] [] [] []]; reflexivity. Qed.

Lemma encode_char_plain c : no_char "&" (encode_char c) = true.
Proof. destruct c as [[] [] [] [] [] [] [] []]; reflexivity. Qed.

Lemma urlDecode_encode l : urlDecode (urlEncode l) = l.
Proof.
  unfold urlEncode. induction l as [|c l IH]; [done|]. rewrite fmap_cons. cbn [concat].
  by rewrite decode_char, IH.
Qed.

Lemma urlEncode_plain l : no_char "&" (urlEncode l) = true.
Proof.
  unfold urlEncode. induction l as [|c l IH]; [done|]. rewrite fmap_cons. cbn [concat].
  by rewrite no_char_app, encode_char_plain, IH.
Qed.

Definition plain_key (f : bytes * bytes) : Prop := no_char "&" f.1 = true ∧ no_char "=" f.1 = true.

Lemma split_on_none sep l : no_char sep l = true → split_on sep l = [l].
Proof.
  intros H. destruct (split_on_cases sep l) as [[_ E]|(mid & post & -> & _)]; [done|].
  rewrite !no_char_app in H. unfold no_char at 2 in H. cbn in H.
  rewrite ceq_refl, andb_false_r in H. done.
Qed.

Lemma split_on_app sep l k : no_char sep l = true → split_on sep (l ++ [sep] ++ k) = l :: split_on sep k.
Proof.
  unfold no_char. induction l as [|c l IH]; cbn; [by rewrite ceq_refl|].
  intros [Hc Hl]%andb_true_iff. apply negb_true_iff in Hc.
  rewrite ceq_sym, Hc. by rewrite (IH Hl : split_on sep (l ++ sep :: k) = _).
Qed.

Lemma split_form fields :
  Forall plain_key fields → fields ≠ [] → split_on "&" (render_form fields) = render_field <$> fields.
Proof.
  intros Hf. induction Hf as [|f fields [Hk _] _ IH]; intros Hne; [done|].
  assert (no_char "&" (render_field f) = true) as Hp.
  { unfold render_field. by rewrite !no_char_app, Hk, urlEncode_plain. }
  destruct fields as [|g fields]; [by apply split_on_none|].
  change (render_form (f :: g :: fields)) with (render_field f ++ ["&"%char] ++ render_form (g :: fields)).
  rewrite split_on_app by done. by rewrite IH.
Qed.

Lemma field_read f key :
  plain_key f → names key (render_field f) = beq f.1 key ∧ value_of (render_field f) = f.2.
Proof.
  intros [_ Hk]. unfold names, value_of, render_field. change (lit "=") with ["="%char].
  rewrite find_char_at by done. split.
  - by rewrite (substr_middle [] f.1 _ : substr (f.1 ++ _) 0 (len f.1) = f.1).
  - unfold substr_from. rewrite app_assoc.
    replace (len f.1 + 1) with (len (f.1 ++ ["="%char])) by (by rewrite len_app).
    by rewrite len_to_nat, drop_app_length, urlDecode_encode.
Qed.

(** C36: Round trip of forms: in a form that a client encodes, whatever bytes the
    values have, [getFormValue] reads the value of the first field with the
    given name, and the empty text when there is none. *)
Theorem form_value_roundtrip fields key :
  Forall plain_key fields → len (render_form fields) + 1 < U64 →
  getFormValue (render_form fields) key =
  match List.find (λ f, beq f.1 key) fields with Some f => f.2 | None => [] end.
Proof.
  intros Hf Hl. rewrite getFormValue_spec by done.
  destruct fields as [|f fields]; [done|]. rewrite split_form by done. clear Hl.
  induction Hf as [|g fs Hg Hf IH]; [done|]. rewrite fmap_cons. cbn [List.find].
  destruct (field_read g key Hg) as [-> Hv]. by destruct (beq g.1 key).
Qed.

Lemma form_value_roundtrip_witness :
  getFormValue (lit "completed=false&title=50%25%26more+x") (lit "title") = lit "50%&more x".
Proof.
  refine (eq_trans _ (form_value_roundtrip
    [(lit "completed", lit "false"); (lit "title", lit "50%&more x")] (lit "title") _ _)).
  - by vm_compute.
  - by repeat constructor.
  - by vm_compute.
Defined.

(** ** Task lists *)

(** A client's reader of the task list; each part returns what it has left.  It is
    a strict reader of JSON (RFC 8259): a text is UTF-8, and in a string a byte
    below 32 has to be escaped.  (The escape [\u], which the server does not
    write, is left out.) *)
Definition expect (pat l : bytes) : option bytes :=
  if starts_with pat l then Some (drop (length pat) l) else None.

Definition read_number (l : bytes) : option (Z * bytes) :=
  match digit_run l with
  | [] => None
  | ds => Some (decimal ds, drop (length ds) l)
  end.

Definition unescape (c : ascii) : option ascii :=
  if ceq c "\" || ceq c QUOTE || ceq c "/" then Some c
  else if ceq c "b" then Some (chr 8)
  else if ceq c "f" then Some (chr 12)
  else if ceq c "n" then Some LF
  else if ceq c "r" then Some CR
  else if ceq c "t" then Some HT
  else None.

Definition control (c : ascii) : bool := code c <? 32.

(** The inside of a string, up to its closing quote. *)
Fixpoint read_text (l : bytes) : option (bytes * bytes) :=
  match l with
  | [] => None
  | c :: rest =>
      if ceq c QUOTE then Some ([], rest)
      else if ceq c "\" then
        match rest with
        | e :: rest' =>
            match unescape e, read_text rest' with
            | Some d, Some (s, k) => Some (d :: s, k)
            | _, _ => None
            end
        | [] => None
        end
      else if control c then None
      else
        match read_text rest with
        | Some (s, k) => Some (c :: s, k)
        | None => None
        end
  end.

(** UTF-8 (RFC 3629): no overlong form, no surrogate, nothing above U+10FFFF. *)
Definition within (low high : Z) (c : ascii) : bool := (low <=? code c) && (code c <=? high).

Fixpoint utf8 (l : bytes) : bool :=
  match l with
  | [] => true
  | c :: rest =>
      if code c <? 128 then utf8 rest
      else
        match rest with
        | [] => false
        | c1 :: rest1 =>
            if within 194 223 c then within 128 191 c1 && utf8 rest1
            else
              match rest1 with
              | [] => false
              | c2 :: rest2 =>
                  if within 224 239 c then
                    within (if code c =? 224 then 160 else 128) (if code c =? 237 then 159 else 191) c1
                    && within 128 191 c2 && utf8 rest2
                  else
                    match rest2 with
                    | [] => false
                    | c3 :: rest3 =>
                        within 240 244 c
                        && within (if code c =? 240 then 144 else 128) (if code c =? 244 then 143 else 191) c1
                        && within 128 191 c2 && within 128 191 c3 && utf8 rest3
                    end
              end
        end
  end.

Definition read_string (l : bytes) : option (bytes * bytes) :=
  read_text l ≫= λ '(s, k), if utf8 s then Some (s, k) else None.

Definition read_boolean (l : bytes) : option (bool * bytes) :=
  match expect (lit "true") l with
  | Some k => Some (true, k)
  | None => expect (lit "false") l ≫= λ k, Some (false, k)
  end.

Definition read_task (l : bytes) : option (Task * bytes) :=
  expect (lit "{" ++ quoted (lit "id") ++ lit ":") l ≫= λ l,
  read_number l ≫= λ '(id, l),
  expect (lit "," ++ quoted (lit "title") ++ lit ":" ++ [QUOTE]) l ≫= λ l,
  read_string l ≫= λ '(title, l),
  expect (lit "," ++ quoted (lit "completed") ++ lit ":") l ≫= λ l,
  read_boolean l ≫= λ '(completed, l),
  expect (lit "}") l ≫= λ l,
  Some (Task.mk id title completed, l).

(** The elements up to the closing bracket; every turn consumes a task. *)
Fixpoint read_elements (fuel : nat) (l : bytes) : option (list Task * bytes) :=
  match fuel with
  | O => None
  | S fuel' =>
      read_task l ≫= λ '(t, l),
      match expect (lit ",") l with
      | Some l => read_elements fuel' l ≫= λ '(ts, k), Some (t :: ts, k)
      | None => expect (lit "]") l ≫= λ k, Some ([t], k)
      end
  end.

Definition read_list (l : bytes) : option (list Task * bytes) :=
  expect (lit "[") l ≫= λ l,
  match expect (lit "]") l with
  | Some k => Some ([], k)
  | None => read_elements (length l) l
  end.

Lemma expect_app pat k : expect pat (pat ++ k) = Some k.
Proof. unfold expect. by rewrite starts_with_self, drop_app_length. Qed.

Lemma read_number_app n k :
  0 ≤ n < U64 → match k with c :: _ => isdigit c | [] => false end = false →
  read_number (to_string n ++ k) = Some (n, k).
Proof.
  intros Hn Hk. destruct (to_string_spec n Hn) as (Hne & Hd & Hv).
  unfold read_number. rewrite digit_run_app by done.
  destruct (to_string n) as [|c l] eqn:E; [done|]. rewrite <- E, Hv in *. by rewrite drop_app_length.
Qed.

(** A byte that [escapeJson] makes fit for a string, and a title that is read. *)
Definition escapable (c : ascii) : bool := negb (control c) || ceq c LF || ceq c CR || ceq c HT.

Definition readable (title : bytes) : bool := forallb escapable title && utf8 title.

Lemma read_escaped c k :
  read_text (escapeJson [c] ++ k) =
  if escapable c then match read_text k with Some (s, k') => Some (c :: s, k') | None => None end else None.
Proof. destruct c as [[] [] [] [] [] [] [] []]; reflexivity. Qed.

Lemma read_text_escape title k :
  read_text (escapeJson title ++ QUOTE :: k) = if forallb escapable title then Some (title, k) else None.
Proof.
  induction title as [|c title IH]; [done|].
  assert (escapeJson (c :: title) = escapeJson [c] ++ escapeJson title) as ->.
  { cbn [escapeJson]. by rewrite app_nil_r. }
  rewrite <- app_assoc, read_escaped, IH. cbn [forallb]. destruct (escapable c); [|done].
  by destruct (forallb escapable title).
Qed.

Lemma read_string_escape title k :
  read_string (escapeJson title ++ QUOTE :: k) = if readable title then Some (title, k) else None.
Proof.
  unfold read_string, readable. rewrite read_text_escape. by destruct (forallb escapable title).
Qed.

Lemma read_boolean_app b k : read_boolean (boolean b ++ k) = Some (b, k).
Proof. by destruct b. Qed.

(** A task grouped the way the reader takes it apart. *)
Lemma task_json_shape id title completed k :
  task_json id title completed ++ k =
  (lit "{" ++ quoted (lit "id") ++ lit ":") ++ to_string id ++
  (lit "," ++ quoted (lit "title") ++ lit ":" ++ [QUOTE]) ++ escapeJson title ++ QUOTE ::
  (lit "," ++ quoted (lit "completed") ++ lit ":") ++ completed ++ lit "}" ++ k.
Proof. unfold task_json, field, quoted. by rewrite <- !app_assoc. Qed.

Lemma read_task_app t k :
  0 ≤ Task.id t < U64 →
  read_task (task_json (Task.id t) (Task.title t) (boolean (Task.completed t)) ++ k) =
  if readable (Task.title t) then Some (t, k) else None.
Proof.
  intros Hid. rewrite task_json_shape. unfold read_task.
  rewrite expect_app. cbn [mbind option_bind]. rewrite read_number_app by done.
  cbn [mbind option_bind]. rewrite expect_app. cbn [mbind option_bind]. rewrite read_string_escape.
  destruct (readable (Task.title t)); [|done].
  cbn [mbind option_bind]. rewrite expect_app. cbn [mbind option_bind]. rewrite read_boolean_app.
  cbn [mbind option_bind]. rewrite expect_app. by destruct t.
Qed.

Definition all_readable (tasks : list Task) : bool := forallb (λ t, readable (Task.title t)) tasks.

Lemma read_elements_app fuel t tasks k :
  Forall (λ t, 0 ≤ Task.id t < U64) (t :: tasks) → (length tasks < fuel)%nat →
  read_elements fuel (tasks_json (t :: tasks) ++ lit "]" ++ k) =
  if all_readable (t :: tasks) then Some (t :: tasks, k) else None.
Proof.
  revert t tasks. induction fuel as [|fuel IH]; intros t tasks [Ht Hts]%Forall_cons Hf; [lia|].
  cbn [tasks_json read_elements]. rewrite <- !app_assoc. rewrite read_task_app by done.
  unfold all_readable. cbn [forallb]. destruct (readable (Task.title t)); [|done].
  cbn [mbind option_bind andb]. destruct tasks as [|u tasks]; [done|].
  rewrite expect_app. rewrite IH by (done || (cbn in Hf; lia)). unfold all_readable.
  by destruct (forallb _ (u :: tasks)).
Qed.

(** C35: Round trip of task lists: a strict JSON reader gets from the body of
    [GET /tasks] the tasks it was made from, in order, whatever their titles
    hold - quotes, backslashes, line ends, tabs, any UTF-8 text: no title can end
    its string, add a field or add a task.  The one exception is a title that is
    not UTF-8 or has a control byte other than line feed, carriage return and tab:
    [escapeJson] leaves it as it is, and one such title makes the reader refuse
    the whole list. *)
Theorem tasks_json_roundtrip tasks rest :
  Forall (λ t, 0 ≤ Task.id t < U64) tasks →
  read_list (HttpResponse.body (get_tasks_response true tasks) ++ rest) =
  if all_readable tasks then Some (tasks, rest) else None.
Proof.
  intros Ht. change (HttpResponse.body _) with (lit "[" ++ tasks_json tasks ++ lit "]").
  unfold read_list. rewrite <- !app_assoc, expect_app. cbn [mbind option_bind].
  destruct tasks as [|t tasks]; [done|].
  assert (expect (lit "]") (tasks_json (t :: tasks) ++ lit "]" ++ rest) = None) as -> by done.
  apply read_elements_app; [done|]. rewrite length_app.
  enough (length (t :: tasks) ≤ length (tasks_json (t :: tasks)))%nat by (cbn in *; lia).
  clear Ht. induction (t :: tasks) as [|u l IH]; [done|]. cbn [tasks_json]. rewrite !length_app.
  unfold task_json at 1. rewrite length_app. cbn -[lit tasks_json field]. cbn [length lit String.list_ascii_of_string]. lia.
Qed.

(** Two titles that need escaping, one of them in UTF-8, and one that cannot be
    read, with a backspace. *)
Definition awkward : Task := Task.mk 7 [QUOTE; LF; chr 195; chr 164] true.
Definition unreadable : Task := Task.mk 8 [chr 8] false.

Lemma tasks_json_roundtrip_witness :
  read_list (lit "[" ++ task_json 7 [QUOTE; LF; chr 195; chr 164] (lit "true") ++ lit "]") = Some ([awkward], []) ∧
  read_list (lit "[" ++ tasks_json [awkward; unreadable] ++ lit "]") = None.
Proof.
  split.
  - refine (tasks_json_roundtrip [awkward] [] _). by repeat constructor.
  - refine (tasks_json_roundtrip [awkward; unreadable] [] _). by repeat constructor.
Defined.
