(* ===== verification/React.v ===== *)
(** * The reactor

    [src/server/Reactor.cpp]: one thread's event loop over its HTTP connections.
    The lambda that answers a deferred request later is the record of the
    variables it captures and the response it is given, [Completion]; running it
    is [completeAsyncResponse].  Times are in nanoseconds. *)

From S2P Require Import Prelude.
From S2P Require Import Numerals.
From S2P Require Import Sys.
From S2P Require Import Progress.
From S2P Require Import Epoll.
From S2P Require Import Socket.
From S2P Require Import TimerFd.
From S2P Require Import Request.
From S2P Require Import Response.
From S2P Require Import Stats.
From S2P Require Import Parser.
From S2P Require Import Conn.
From S2P Require Import Pool.
From S2P Require Import Handler.
Import HttpRequest (HttpRequest).
Import HttpResponse (HttpResponse).
Import Metrics (Metrics).
Import Connection (Connection).
Import HttpHandler (Shared, mk_shared, metrics, HttpHandler, HandleResult, Completed, Pending).

Module Reactor.

Definition TIMER_INTERVAL_SECONDS : Z := 1.
Definition REQUEST_TIMEOUT_SECONDS : Z := 10.
Definition KEEP_ALIVE_TIMEOUT_SECONDS : Z := 30.

Definition seconds (n : Z) : Z := n * 1000000000.

Record ConnectionState := mk_state {
  deadline : Z;
  request_start : Z;
  generation : Z;
  request_in_flight : bool;
  redis_pending : bool;
  current_events : Z
}.

#[global] Instance eta_ConnectionState : Eta ConnectionState := fun s =>
  mk_state (deadline s) (request_start s) (generation s) (request_in_flight s) (redis_pending s)
    (current_events s).

(** A call of [completeAsyncResponse] with its arguments. *)
Record Completion := mk_completion {
  client : Z;
  issued : Z;
  closing : bool;
  answer : HttpResponse
}.

(** [shared] holds the worker pool and the metrics, which other threads use too;
    [shutdown_requested] is the global variable of the server. *)
Record Reactor := mk {
  id : Z;
  shared : Shared Completion;
  http_handler : HttpHandler Completion;
  listen_socket : Z;
  epoll : Z;
  timer : Z;
  completion_fd : Z;
  next_connection_generation : Z;
  connections : gmap Z Connection;
  connection_states : gmap Z ConnectionState;
  shutdown_requested : bool
}.

#[global] Instance eta_Reactor : Eta Reactor := fun s =>
  mk (id s) (shared s) (http_handler s) (listen_socket s) (epoll s) (timer s) (completion_fd s)
    (next_connection_generation s) (connections s) (connection_states s) (shutdown_requested s).

Section Reactor.
Context {K : Kernel} {T : Traversal Connection} {TS : Traversal ConnectionState}.
Abbreviation M := (Prog Reactor).

(** The members as their own operations see them. *)
Definition on_shared {A} (m : Prog (Shared Completion) A) : M A :=
  zoom shared (λ x s, s <| shared := x |>) m.

Definition on_pool {A} (m : Prog (WorkerPool.WorkerPool Completion) A) : M A :=
  on_shared (HttpHandler.in_pool m).

Definition metric (f : Metrics → Metrics) : M () :=
  on_shared (modify (λ x, x <| metrics := f (metrics x) |>)).

Definition on_listener {A} (m : Prog Z A) : M A :=
  zoom listen_socket (λ fd s, s <| listen_socket := fd |>) m.

Definition on_epoll {A} (m : Prog Z A) : M A := zoom epoll (λ fd s, s <| epoll := fd |>) m.

Definition on_timer {A} (m : Prog Z A) : M A := zoom timer (λ fd s, s <| timer := fd |>) m.

(** A member function called through a reference to a connection, and an
    assignment through a reference to a state.  A reference whose entry has been
    erased has no meaning: the program is stuck. *)
Definition on_connection {A} (fd : Z) (m : Prog Connection A) : M A := λ s w,
  match connections s !! fd with
  | Some c =>
      match m c w with
      | Some (a, c', w') => Some (a, s <| connections := <[fd := c']> (connections s) |>, w')
      | None => None
      end
  | None => None
  end.

Definition on_state (fd : Z) (f : ConnectionState → ConnectionState) : M () := λ s w,
  match connection_states s !! fd with
  | Some st => Some ((), s <| connection_states := <[fd := f st]> (connection_states s) |>, w)
  | None => None
  end.

Definition state_of (fd : Z) : M ConnectionState := λ s w,
  match connection_states s !! fd with
  | Some st => Some (st, s, w)
  | None => None
  end.

Definition now : M Z :=
  a ← sys sys_now;
  mret (ret a).

(** The destructor of a connection that is no longer in the table. *)
Definition destroy (c : Connection) : M () := λ s w,
  match Connection.destruct c w with
  | Some (_, _, w') => Some ((), s, w')
  | None => None
  end.

(** The constructor, after those of the members that own descriptors; its
    [completion_fd] is a copy of the pool's. *)
Definition construct (id : Z) (shared : Shared Completion) (listen_socket epoll timer : Z) : Reactor :=
  mk id shared (HttpHandler.construct (Some id)) listen_socket epoll timer
    (WorkerPool.getCompletionFd id (HttpHandler.pool shared)) 0 ∅ ∅ false.

(** ** Connections *)

(** [connections[fd] = std::make_unique<Connection>(...)], which destroys a
    connection that was there before. *)
Definition assign_connection (fd : Z) : M () :=
  old ← gets (λ s, connections s !! fd);
  modify (λ s, s <| connections := <[fd := Connection.construct fd (id s)]> (connections s) |>) ;;
  match old with
  | Some c => destroy c
  | None => mret ()
  end.

(** The body of the loop of [handleAccept] for an accepted client. *)
Definition accept_client (client_fd : Z) : M () :=
  nonblocking ← Socket.setNonBlocking client_fd;
  if negb nonblocking then sys (sys_close client_fd) ;; mret ()
  else
    nodelay ← Socket.setNoDelay client_fd;
    if negb nodelay then sys (sys_close client_fd) ;; mret ()
    else
      added ← Epoll.add client_fd (Z.lor EPOLLIN EPOLLRDHUP);
      if negb added then sys (sys_close client_fd) ;; mret ()
      else
        modify (λ s, s <| next_connection_generation := add64 (next_connection_generation s) 1 |>) ;;
        generation ← gets next_connection_generation;
        assign_connection client_fd ;;
        metric Metrics.incrementActiveConnections ;;
        t ← now;
        modify (λ s, s <| connection_states :=
          <[client_fd := mk_state (t + seconds REQUEST_TIMEOUT_SECONDS) 0 generation false false
                           (Z.lor EPOLLIN EPOLLRDHUP)]> (connection_states s) |>).

Fixpoint handleAccept (fuel : nat) : M () :=
  match fuel with
  | O => exhausted
  | S fuel' =>
      listen_fd ← gets listen_socket;
      a ← sys (sys_accept listen_fd);
      if ret a =? -1 then
        if (errno a =? EAGAIN) || (errno a =? EWOULDBLOCK) then mret ()
        else if errno a =? EINTR then handleAccept fuel'
        else mret ()
      else
        accept_client (ret a) ;;
        handleAccept fuel'
  end.

Definition removeConnection (fd : Z) : M () :=
  found ← gets (λ s, connections s !! fd);
  match found with
  | None => mret ()
  | Some c =>
      Epoll.remove fd ;;
      modify (λ s, s <| connections := delete fd (connections s) |>) ;;
      destroy c ;;
      modify (λ s, s <| connection_states := delete fd (connection_states s) |>) ;;
      metric Metrics.decrementActiveConnections
  end.

Definition updateEvents (fd events : Z) : M () :=
  found ← gets (λ s, connection_states s !! fd);
  match found with
  | None => mret ()
  | Some state =>
      if current_events state =? events then mret ()
      else
        modified ← Epoll.modify fd events;
        if negb modified then metric Metrics.incrementErrors ;; removeConnection fd
        else on_state fd (λ st, st <| current_events := events |>)
  end.

Definition refreshDeadline (fd timeout_seconds : Z) : M () :=
  found ← gets (λ s, connection_states s !! fd);
  match found with
  | None => mret ()
  | Some _ =>
      t ← now;
      on_state fd (λ st, st <| deadline := t + seconds timeout_seconds |>)
  end.

Definition removeExpiredConnections : M () :=
  t ← now;
  states ← gets connection_states;
  let expired_fds := map fst (List.filter (λ e, deadline e.2 <=? t) (traverse states)) in
  for_each expired_fds (λ fd,
    found ← gets (λ s, connections s !! fd);
    match found with
    | None => mret ()
    | Some _ => removeConnection fd
    end).

Definition handleTimer : M () :=
  on_timer TimerFd.consume ;;
  removeExpiredConnections.

(** ** Responses *)

(** [metrics.incrementErrors(); removeConnection(fd);] *)
Definition fail (fd : Z) : M () :=
  metric Metrics.incrementErrors ;;
  removeConnection fd.

(** The latency of the request in flight, if one is. *)
Definition record_latency (fd : Z) : M () :=
  state ← state_of fd;
  if request_in_flight state then
    t ← now;
    metric (Metrics.recordLatency (((t - request_start state) ÷ 1000) mod U64)) ;;
    on_state fd (λ st, st <| request_in_flight := false |>)
  else mret ().

Definition handleWrite (fuel : nat) (fd : Z) : M () :=
  found ← gets (λ s, connections s !! fd);
  match found with
  | None => mret ()
  | Some connection =>
      if negb (Connection.hasPendingOutput connection) then mret ()
      else
        result ← on_connection fd (Connection.write fuel);
        match result with
        | Connection.WriteError => fail fd
        | Connection.WriteWouldBlock => updateEvents fd (Z.lor (Z.lor EPOLLIN EPOLLOUT) EPOLLRDHUP)
        | Connection.WriteComplete =>
            metric Metrics.incrementResponses ;;
            close ← on_connection fd (gets Connection.shouldCloseAfterWrite);
            if close then removeConnection fd
            else updateEvents fd (Z.lor EPOLLIN EPOLLRDHUP)
        end
  end.

Definition isGenerationCurrent (state : ConnectionState) (g : Z) : bool := generation state =? g.

Definition completeAsyncResponse (fuel : nat) (c : Completion) : M () :=
  let fd := client c in
  found ← gets (λ s, connections s !! fd);
  match found with
  | None => mret ()
  | Some _ =>
      found ← gets (λ s, connection_states s !! fd);
      match found with
      | None => mret ()
      | Some state =>
          if negb (isGenerationCurrent state (issued c)) then mret ()
          else if negb (redis_pending state) then mret ()
          else
            record_latency fd ;;
            on_state fd (λ st, st <| redis_pending := false |>) ;;
            (if closing c then on_connection fd (Connection.setCloseAfterWrite true) else mret ()) ;;
            let response :=
              if closing c then HttpResponse.setConnection (lit "close") (answer c) else answer c in
            if HttpResponse.hasFile response then fail fd
            else
              queued ← on_connection fd (Connection.queueResponse (HttpResponse.serialize response));
              if negb queued then fail fd
              else
                refreshDeadline fd KEEP_ALIVE_TIMEOUT_SECONDS ;;
                handleWrite fuel fd
      end
  end.

(** The loop of [handleCompletions]. *)
Fixpoint run_completions (fuel : nat) : M () :=
  match fuel with
  | O => exhausted
  | S fuel' =>
      reactor ← gets id;
      completion ← on_pool (WorkerPool.popCompletion reactor);
      match completion with
      | None => mret ()
      | Some c =>
          completeAsyncResponse fuel' c ;;
          run_completions fuel'
      end
  end.

Definition handleCompletions (fuel : nat) : M () :=
  reactor ← gets id;
  on_pool (WorkerPool.consumeCompletionEvent fuel reactor) ;;
  run_completions fuel.

(** ** Requests *)

(** How a turn of a loop ends: with [continue], [break] or [return]. *)
Inductive flow := Continue | Break | Return.

(** What happens to a request that has been parsed. *)
Definition serve_request (fd : Z) : M flow :=
  request ← on_connection fd (gets Connection.getRequest);
  t ← now;
  on_state fd (λ st, st <| request_start := t |> <| request_in_flight := true |>) ;;
  metric Metrics.incrementRequests ;;
  let close_after_write := HttpRequest.hasHeaderToken request (lit "Connection") (lit "close") in
  state ← state_of fd;
  h ← gets http_handler;
  handled ← on_shared (HttpHandler.handle h request HttpResponse.construct
                         (mk_completion fd (generation state) close_after_write));
  let '(result, response) := handled in
  if bool_decide (result = Pending) then
    on_connection fd Connection.consumeParsedBytes ;;
    on_connection fd Connection.resetParser ;;
    on_state fd (λ st, st <| redis_pending := true |>) ;;
    refreshDeadline fd REQUEST_TIMEOUT_SECONDS ;;
    updateEvents fd EPOLLRDHUP ;;
    mret Return
  else
    record_latency fd ;;
    (if close_after_write then on_connection fd (Connection.setCloseAfterWrite true) else mret ()) ;;
    let response :=
      if close_after_write then HttpResponse.setConnection (lit "close") response else response in
    queued ← on_connection fd (Connection.queueResponse (HttpResponse.serialize response));
    if negb queued then fail fd ;; mret Return
    else
      queued ← (if HttpResponse.hasFile response && (HttpResponse.getFileSize response >? 0)
                   && (HttpResponse.getFileSize response <=? 16 * 1024 * 1024)
                then on_connection fd (Connection.queueFile (HttpResponse.getFilePath response)
                                         (HttpResponse.getFileSize response))
                else mret true);
      if negb queued then fail fd ;; mret Return
      else
        on_connection fd Connection.consumeParsedBytes ;;
        on_connection fd Connection.resetParser ;;
        refreshDeadline fd KEEP_ALIVE_TIMEOUT_SECONDS ;;
        close ← on_connection fd (gets Connection.shouldCloseAfterWrite);
        mret (if close then Break else Continue).

(** The inner loop of [handleClient], over the requests in the buffer. *)
Fixpoint serve_requests (fuel : nat) (fd : Z) : M flow :=
  match fuel with
  | O => exhausted
  | S fuel' =>
      parse_result ← on_connection fd Connection.parseRequest;
      match parse_result with
      | HttpParser.NeedMoreData => on_connection fd Connection.consumeParsedBytes ;; mret Break
      | HttpParser.Complete =>
          next ← serve_request fd;
          match next with
          | Continue => serve_requests fuel' fd
          | _ => mret next
          end
      | _ => fail fd ;; mret Return
      end
  end.

(** The outer loop, over what the socket has received. *)
Fixpoint serve_input (fuel : nat) (fd : Z) : M flow :=
  match fuel with
  | O => exhausted
  | S fuel' =>
      result ← on_connection fd (Connection.read fuel');
      match result with
      | Connection.Disconnected => removeConnection fd ;; mret Return
      | Connection.ReadError | Connection.BufferFull => fail fd ;; mret Return
      | Connection.ReadWouldBlock => mret Break
      | Connection.DataReceived =>
          refreshDeadline fd REQUEST_TIMEOUT_SECONDS ;;
          next ← serve_requests fuel' fd;
          match next with
          | Return => mret Return
          | _ =>
              close ← on_connection fd (gets Connection.shouldCloseAfterWrite);
              if close then mret Break else serve_input fuel' fd
          end
      end
  end.

Definition handleClient (fuel : nat) (fd : Z) : M () :=
  found ← gets (λ s, connections s !! fd);
  match found with
  | None => mret ()
  | Some _ =>
      found ← gets (λ s, connection_states s !! fd);
      match found with
      | None => removeConnection fd
      | Some state =>
          if redis_pending state then mret ()
          else
            next ← serve_input fuel fd;
            match next with
            | Return => mret ()
            | _ =>
                found ← gets (λ s, connections s !! fd);
                match found with
                | None => mret ()
                | Some connection =>
                    if Connection.hasPendingOutput connection then handleWrite fuel fd else mret ()
                end
            end
      end
  end.

(** ** Events *)

Definition has_connection (fd : Z) : M bool := gets (λ s, bool_decide (is_Some (connections s !! fd))).

Definition handleEvent (fuel : nat) (event : Z * Z) : M () :=
  let '(fd, events) := event in
  s ← gets (λ s, s);
  if fd =? listen_socket s then handleAccept fuel
  else if fd =? timer s then handleTimer
  else if fd =? completion_fd s then handleCompletions fuel
  else if has events EPOLLERR then fail fd
  else if has events EPOLLHUP then removeConnection fd
  else
    (if has events EPOLLIN then handleClient fuel fd else mret ()) ;;
    open ← has_connection fd;
    if negb open then mret ()
    else
      (if has events EPOLLOUT then handleWrite fuel fd else mret ()) ;;
      found ← gets (λ s, connections s !! fd);
      match found with
      | None => mret ()
      | Some connection =>
          if has events EPOLLRDHUP && negb (Connection.hasPendingOutput connection)
          then removeConnection fd else mret ()
      end.

(** What other threads have done to the shared objects while this one waited. *)
Context (others : history → Shared Completion → Shared Completion).

Definition interference : M () := λ s w, Some ((), s <| shared := others w (shared s) |>, w).

(** The body of the loop of [run]; [false] is its [break]. *)
Definition turn (fuel : nat) : M bool :=
  a ← Epoll.wait 1024 (-1);
  interference ;;
  if ret a =? -1 then mret (errno a =? EINTR)
  else for_each (take (Z.to_nat (ret a)) (ready a)) (handleEvent fuel) ;; mret true.

(** The server's signal handler. *)
Definition handleSignal (s : Reactor) (signal : Z) : Reactor :=
  if (signal =? SIGINT) || (signal =? SIGTERM) then s <| shutdown_requested := true |> else s.

(** [shutdown_requested], after the handlers of the signals delivered. *)
Definition shutting_down : M bool :=
  a ← sys sys_signals;
  modify (λ s, fold_left handleSignal (map fst (ready a)) s) ;;
  gets shutdown_requested.

Fixpoint loop (turns fuel : nat) : M () :=
  match turns with
  | O => exhausted
  | S turns' =>
      stop ← shutting_down;
      if stop then mret ()
      else
        go ← turn fuel;
        if go then loop turns' fuel else mret ()
  end.

Definition run (turns fuel : nat) (port : Z) : M () :=
  listening ← on_listener (Socket.bindAndListen port);
  if negb listening then mret ()
  else
    listen_fd ← gets listen_socket;
    added ← Epoll.add listen_fd EPOLLIN;
    if negb added then mret ()
    else
      started ← on_timer (TimerFd.start TIMER_INTERVAL_SECONDS);
      if negb started then mret ()
      else
        timer_fd ← gets timer;
        added ← Epoll.add timer_fd EPOLLIN;
        if negb added then mret ()
        else
          completion ← gets completion_fd;
          if completion =? -1 then mret ()
          else
            added ← Epoll.add completion EPOLLIN;
            if negb added then mret ()
            else loop turns fuel.

Definition getMetrics (s : Reactor) : Metrics := metrics (shared s).

(** The destructor: the members are destroyed in reverse order of declaration. *)
Definition destruct : M () :=
  cs ← gets connections;
  modify (λ s, s <| connection_states := ∅ |> <| connections := ∅ |>) ;;
  for_each (traverse cs) (λ e, destroy e.2) ;;
  on_timer TimerFd.destruct ;;
  on_epoll Epoll.destruct ;;
  on_listener Socket.destruct.

End Reactor.
End Reactor.
