(* ===== verification/ReactConn.v ===== *)
(** * A connection's operations, totally

    What the reactor relies on when it calls a member function of a connection:
    that the call returns, what it leaves of the connection, which descriptors it
    holds afterwards and that it does not touch any epoll instance. *)

From S2P Require Import Prelude.
From S2P Require Import Sys.
From S2P Require Import Progress.
From S2P Require Import Total.
From S2P Require Import Request.
From S2P Require Import Response.
From S2P Require Import Parser.
From S2P Require Import ParserInv.
From S2P Require Import ParserStream.
From S2P Require Import Conn.
From S2P Require Import ConnFlow.
Import Connection.

(** Calls that neither register descriptors nor wait. *)
Definition plain (c : call) : Prop :=
  match c with sys_epoll_ctl _ _ _ | sys_epoll_wait _ _ => False | _ => True end.

#[export] Hint Extern 0 (plain _) => exact I : makes.

(** Descriptors are C integers. *)
Class IntFds (K : Kernel) : Prop :=
  int_fd w c fd : opened (c, respond w c) = Some fd → fd < 2 ^ 31.

(** How often data has been received since the program last waited; between two
    waits that is no more than [m] times. *)
Definition delivers (c : call) (a : answer) : bool :=
  match c with sys_recv _ _ _ | sys_read _ _ => 0 <? ret a | _ => false end.

Fixpoint deliveries (w : history) : nat :=
  match w with
  | [] => 0
  | (c, a) :: w' =>
      match c with
      | sys_epoll_wait _ _ => 0
      | _ => if delivers c a then S (deliveries w') else deliveries w'
      end
  end.

Class Paced (K : Kernel) (m : nat) : Prop :=
  paced w c : (m ≤ deliveries w)%nat → delivers c (respond w c) = false.

Lemma deliveries_plain l w : Forall (λ e, plain e.1) l → (deliveries w ≤ deliveries (l ++ w))%nat.
Proof.
  induction 1 as [|[c a] l Hc _ IH]; [done|]. cbn in *. destruct c; try done; by destruct (delivers _ _); lia || lia.
Qed.

(** The receive side of a connection. *)
Definition input_ok (c : Connection) : Prop := ParserInv.wf (parser c) (len (receive_buffer c)).

(** The part of a connection that concerns its output is unchanged. *)
Definition same_output (c c' : Connection) : Prop :=
  output_queue c' = output_queue c ∧ output_queue_size c' = output_queue_size c.

(** From [c] to [c'], with a frame [G] of other descriptors. *)
Record moved (G : gset Z) (c : Connection) (w : history) (c' : Connection) (w' : history) : Prop := {
  mv_wf : ConnFlow.wf c';
  mv_fd : fd c' = fd c;
  mv_frame : G ## files c';
  mv_holds : holds_fds (G ∪ files c') w';
  mv_calls : ∃ l, w' = l ++ w ∧ Forall (λ e, plain e.1) l
}.

Section Operations.
Context {K : Kernel} {FK : FreshFds K} {HK : Honest K}.
Implicit Types (c : Connection) (w : history) (G : gset Z).

Lemma moved_quiet G c w c' w' :
  ConnFlow.wf c → G ## files c → holds_fds (G ∪ files c) w →
  ConnFlow.wf c' → fd c' = fd c → output_queue c' = output_queue c →
  (∃ l, w' = l ++ w ∧ Forall (λ e, plain e.1) l ∧ Forall (λ e, neutral e.1 = true) l) →
  moved G c w c' w'.
Proof.
  intros Hwf Hd Hw Hwf' Hfd Hq (l & -> & Hp & Hn).
  assert (files c' = files c) as Hf by (unfold files; by rewrite Hq).
  split; [done|done|by rewrite Hf| |by exists l]. rewrite Hf. eapply holds_quiet; [|exact Hw]. by exists l.
Qed.

Lemma moved_refl G c w : ConnFlow.wf c → G ## files c → holds_fds (G ∪ files c) w → moved G c w c w.
Proof. intros. apply moved_quiet; try done. by exists []. Qed.

(** Changes of the receive side or of the flag only. *)
Lemma moved_pure G c w c' :
  ConnFlow.wf c → G ## files c → holds_fds (G ∪ files c) w →
  fd c' = fd c → same_output c c' → len (receive_buffer c') ≤ MAX_RECEIVE_BUFFER →
  moved G c w c' w.
Proof.
  intros Hwf Hd Hw Hfd [Hq Hs] Hr. apply moved_quiet; try done; [|by exists []].
  destruct Hwf as [He Hf Ht Hl _]. split; rewrite ?Hq, ?Hs; done.
Qed.

(** ** Reading and writing *)

Section Transfer.
Context (n : nat) {P : Patient K n}.

Lemma read_runs G c w :
  ConnFlow.wf c → input_ok c → G ## files c → holds_fds (G ∪ files c) w →
  runs read (λ r c' w', moved G c w c' w' ∧ input_ok c' ∧ same_output c c' ∧
    close_after_write c' = close_after_write c ∧
    (r = DataReceived → ∃ e w1, w' = e :: w1 ∧ delivers e.1 e.2 = true ∧
      e.2 = respond w1 e.1 ∧ (deliveries w ≤ deliveries w1)%nat)) c w.
Proof.
  intros Hwf Hin Hd Hw.
  assert (∃ b, b = budget n w) as [b Hb] by by eexists.
  revert w Hb Hw. induction b as [b IH] using lt_wf_ind. intros w -> Hw. apply runs_turn. cbn [read].
  runs_step. runs_step. pose proof (wf_receive _ Hwf) as Hlen. unfold MAX_RECEIVE_BUFFER in *.
  destruct (Z.geb_spec (len (receive_buffer c)) (64 * 1024)).
  { apply runs_ret. split; [by apply moved_refl|]. by split_and!. }
  rewrite sub64_small by (pose proof (len_nonneg (receive_buffer c)); unfold U64; lia).
  cbv zeta. runs_step. runs_step.
  set (count := if 64 * 1024 - len (receive_buffer c) >? 4096 then 4096 else 64 * 1024 - len (receive_buffer c)).
  assert (0 < count ≤ 64 * 1024 - len (receive_buffer c)) as Hcount.
  { unfold count. destruct (_ >? _) eqn:E; bool_prop; lia. }
  runs_step. runs_step. set (x := sys_recv (fd c) count false).
  pose proof (HK w x) as Hhon. cbn in Hhon. set (a := respond w x) in *.
  destruct (Z.gtb_spec (ret a) 0) as [Hr|Hr].
  { runs_step. runs_step. apply runs_ret. destruct Hhon as (_ & Hle & Hlen').
    set (c' := c <| receive_buffer := receive_buffer c ++ Sys.data a |>).
    assert (len (receive_buffer c') ≤ 64 * 1024) as Hmax by (cbn; rewrite len_app; lia).
    split; [|split; [|split; [done|split; [done|]]]].
    - apply moved_quiet; try done; [|exists [(x, a)]; split; [done|]; by split; constructor].
      destruct Hwf. by split.
    - unfold input_ok in *. cbn in *. apply (wf_grow _ _ _ Hin); rewrite ?len_app in *; unfold U64; lia.
    - intros _. exists (x, a), w. split_and!; [done| |done|done]. cbn. apply Z.ltb_lt. lia. }
  destruct (Z.eqb_spec (ret a) 0).
  { apply runs_ret. split; [|by split_and!]. apply moved_quiet; try done.
    exists [(x, a)]. split; [done|]. by split; constructor. }
  assert (ret a = -1) as Hm1 by lia.
  destruct (Z.eqb_spec (errno a) EINTR) as [He|He].
  { eapply runs_mono; [|apply (IH (budget n ((x, a) :: w))); [| done|]].
    - cbn. intros r c' w' (Hm & ? & ? & ? & Hdel). split; [|split_and!; try done].
      + destruct Hm as [? ? ? ? (l & -> & Hl)]. split; try done. exists (l ++ [(x, a)]).
        split; [by rewrite <- app_assoc|]. apply Forall_app. split; [done|]. by constructor.
      + intros Hr'. destruct (Hdel Hr') as (e & w1 & -> & ? & ? & Hle). exists e, w1. split_and!; try done.
        etransitivity; [|exact Hle]. by apply (deliveries_plain [(x, a)]); constructor.
    - apply (budget_interrupted n w x). change (interrupted a = true). unfold interrupted.
      by rewrite Hm1, He.
    - by apply holds_neutral. }
  assert (moved G c w c ((x, a) :: w)).
  { apply moved_quiet; try done. exists [(x, a)]. split; [done|]. by split; constructor. }
  destruct (_ || _); apply runs_ret; (split; [done|by split_and!]).
Qed.

Lemma makes_closeOutputFile {S} o : makes plain (closeOutputFile (S := S) o).
Proof. unfold closeOutputFile. makes_run. Qed.

Lemma makes_pop_front size : makes plain (pop_front size).
Proof. unfold pop_front. makes_run. Qed.

Lemma makes_advance k : makes plain (advance k).
Proof. unfold advance. makes_run. Qed.

Lemma makes_write fuel : makes plain (write fuel).
Proof.
  induction fuel as [|fuel IH]; cbn [write]; [apply makes_exhausted|].
  makes_run; auto using makes_closeOutputFile, makes_pop_front, makes_advance; done.
Qed.

Lemma write_runs G c w :
  ConnFlow.wf c → G ## files c → holds_fds (G ∪ files c) w →
  runs write (λ r c' w', moved G c w c' w' ∧
    parser c' = parser c ∧ receive_buffer c' = receive_buffer c ∧
    close_after_write c' = close_after_write c ∧ ∃ l, w' = l ++ w ∧ written c r l c') c w.
Proof.
  intros Hwf Hd Hw. destruct (write_loop n (S (work n c w)) c w Hwf) as (r & l & c' & E & Hwr); [lia|].
  exists (S (work n c w)), r, c', (l ++ w). split; [done|].
  pose proof (proj1 Hwr) as Hpg. pose proof Hpg as [_ Hrest Hwf' Hfiles]. destruct (Hfiles G w Hd Hw) as [Hd' Hw'].
  split; [split; try done|].
  - by rewrite Hrest.
  - destruct (makes_write _ _ _ _ _ _ (E _ (le_n _))) as (k & Ek & Hk). by exists k.
  - rewrite Hrest at 1 2 3. split_and!; try done. by exists l.
Qed.

End Transfer.

(** ** Queueing *)

Lemma queueResponse_runs G b c w :
  ConnFlow.wf c → G ## files c → holds_fds (G ∪ files c) w → 0 < len b →
  runs (λ _, queueResponse b) (λ r c' w', w' = w ∧ moved G c w c' w ∧
    parser c' = parser c ∧ receive_buffer c' = receive_buffer c ∧
    close_after_write c' = close_after_write c ∧
    if r then output_queue c' = output_queue c ++ [mk_output Memory b 0 (-1) 0] ∧
      output_queue_size c' = output_queue_size c + len b
    else c' = c ∧ MAX_OUTPUT_QUEUE_SIZE < output_queue_size c + len b) c w.
Proof.
  intros Hwf Hd Hw Hb. unfold queueResponse. runs_step. runs_step. rewrite !Z.gtb_ltb.
  pose proof (total_size_nonneg _ (wf_entries _ Hwf)) as H0. rewrite <- (wf_total _ Hwf) in H0.
  destruct (Z.ltb_spec MAX_OUTPUT_QUEUE_SIZE (len b)).
  { apply runs_ret. split_and!; try done; [by apply moved_refl|lia]. }
  destruct (Z.ltb_spec MAX_OUTPUT_QUEUE_SIZE (output_queue_size c + len b)).
  { apply runs_ret. split_and!; try done. by apply moved_refl. }
  unfold push_back. runs_run. split_and!; try done. set (o := mk_output Memory b 0 (-1) 0).
  change (moved G c w (pushed o (entry_size o) c) w).
  assert (files (pushed o (entry_size o) c) = files c) as Hf.
  { rewrite pushed_files. cbn. by rewrite union_empty_r_L. }
  split; rewrite ?Hf; try done; [|by exists []].
  apply pushed_wf; [done|split; [cbn; lia|done]|done|by constructor].
Qed.

Lemma queueFile_runs G path size c w :
  ConnFlow.wf c → G ## files c → holds_fds (G ∪ files c) w → 0 ≤ size →
  runs (λ _, queueFile path size) (λ r c' w', moved G c w c' w' ∧
    parser c' = parser c ∧ receive_buffer c' = receive_buffer c ∧
    close_after_write c' = close_after_write c ∧
    output_queue_size c ≤ output_queue_size c' ∧
    if r then ∃ fd, output_queue c' = output_queue c ++ [mk_output File [] 0 fd size]
    else c' = c) c w.
Proof.
  intros Hwf Hd Hw Hsize. unfold queueFile. runs_step. runs_step. rewrite !Z.gtb_ltb.
  destruct (Z.ltb_spec MAX_OUTPUT_QUEUE_SIZE size).
  { apply runs_ret. split_and!; try done. by apply moved_refl. }
  destruct (Z.ltb_spec MAX_OUTPUT_QUEUE_SIZE (output_queue_size c + size)).
  { apply runs_ret. split_and!; try done. by apply moved_refl. }
  runs_step. runs_step. set (x := sys_open _). pose proof (FK w x) as Hfresh. set (a := respond w x) in *.
  destruct (Z.eqb_spec (ret a) (-1)) as [Ha|Ha].
  { apply runs_ret. split_and!; try done. split; try done; [|exists [(x, a)]; split; [done|by constructor]].
    apply holds_open_failed; [|done|done]. cbn. by rewrite Ha. }
  assert (opened (x, a) = Some (ret a)) as Hop by (cbn; by rewrite (proj2 (Z.eqb_neq _ _))).
  destruct (Hfresh _ Hop) as [_ Hnew]. destruct Hw as [Hopen Honce]. rewrite Hopen in Hnew.
  unfold push_back. runs_run. split_and!; try done; [|cbn; lia|by eexists].
  set (o := mk_output File [] 0 (ret a) size). change (moved G c w (pushed o (entry_size o) c) ((x, a) :: w)).
  assert ((ret a ∉ G) ∧ ret a ∉ files c) as [HG Hf] by set_solver.
  assert (files (pushed o (entry_size o) c) = files c ∪ {[ret a]}) as Hfiles.
  { rewrite pushed_files. cbn. by rewrite union_empty_r_L. }
  split; rewrite ?Hfiles; try done.
  - apply pushed_wf; [done|split; [cbn; lia|done]|done|by apply Forall_singleton].
  - clear - Hd HG. set_solver.
  - replace (G ∪ (files c ∪ {[ret a]})) with ({[ret a]} ∪ (G ∪ files c)) by (clear; set_solver).
    by apply holds_open.
  - exists [(x, a)]. split; [done|by constructor].
Qed.

(** ** Requests *)

Lemma parseRequest_runs G c w :
  ConnFlow.wf c → input_ok c → G ## files c → holds_fds (G ∪ files c) w →
  runs (λ _, parseRequest) (λ r c' w', w' = w ∧ moved G c w c' w ∧ same_output c c' ∧
    receive_buffer c' = receive_buffer c ∧ close_after_write c' = close_after_write c ∧
    HttpParser.parse (parser c) (receive_buffer c) = Some (r, parser c') ∧
    (failure r = false → input_ok c')) c w.
Proof.
  intros Hwf Hin Hd Hw. unfold input_ok in Hin.
  destruct (parse_loop_total (S (length (receive_buffer c))) (parser c) (receive_buffer c) Hin) as (r & q & E).
  { pose proof (ParserInv.wf_cursor _ _ Hin). len_lia. }
  eapply (runs_exact _ _ _ _ r (c <| parser := q |>) w).
  { intros _. unfold parseRequest, HttpParser.parse. by rewrite E. }
  split_and!; try done.
  - apply moved_pure; try done. apply (wf_receive _ Hwf).
  - intros Hr. unfold input_ok. cbn. by apply (parse_sound _ _ _ _ Hin E Hr).
Qed.

Lemma consume_runs G c w :
  ConnFlow.wf c → input_ok c → G ## files c → holds_fds (G ∪ files c) w →
  runs (λ _, consumeParsedBytes) (λ r c' w', w' = w ∧ moved G c w c' w ∧ same_output c c' ∧
    close_after_write c' = close_after_write c ∧ input_ok c' ∧
    receive_buffer c' = drop (Z.to_nat (HttpParser.getConsumedBytes (parser c))) (receive_buffer c)) c w.
Proof.
  intros Hwf Hin Hd Hw. unfold input_ok in Hin. pose proof (ParserInv.wf_cursor _ _ Hin) as Hcur.
  pose proof (wf_receive _ Hwf) as Hlen.
  pose proof (wf_rewind (HttpParser.cursor (parser c)) _ _ Hin) as Hre.
  assert (rewind (HttpParser.cursor (parser c)) (parser c) = (parser c <| HttpParser.cursor := 0 |>)) as Erew.
  { unfold rewind. f_equal. by rewrite Z.sub_diag. }
  rewrite Erew in Hre. specialize (Hre ltac:(lia)).
  unfold consumeParsedBytes, HttpParser.consumeParsedBytes. runs_step. runs_step. runs_step. runs_step.
  set (q := (parser c <| HttpParser.cursor := 0 |>)) in *.
  assert (∀ buf, len buf ≤ MAX_RECEIVE_BUFFER → moved G c w (c <| parser := q |> <| receive_buffer := buf |>) w) as Hm.
  { intros buf Hbuf. apply moved_pure; done. }
  unfold HttpParser.getConsumedBytes.
  destruct (Z.eqb_spec (HttpParser.cursor (parser c)) 0) as [E0|E0].
  { apply runs_ret. rewrite E0 in *. rewrite drop_0 in *. split_and!; try done.
    apply moved_pure; done. }
  runs_step. runs_step. cbn [receive_buffer set_with].
  destruct (Z.geb_spec (HttpParser.cursor (parser c)) (len (receive_buffer c))) as [Hge|Hge].
  - runs_run. rewrite drop_ge in * by len_lia.
    split_and!; try done. apply Hm. done.
  - runs_run. split_and!; try done. apply Hm. unfold substr_from. cbn.
    rewrite len_drop; lia.
Qed.

Lemma reset_runs G c w :
  ConnFlow.wf c → input_ok c → G ## files c → holds_fds (G ∪ files c) w →
  runs (λ _, resetParser) (λ _ c' w', w' = w ∧ moved G c w c' w ∧ same_output c c' ∧
    close_after_write c' = close_after_write c ∧ receive_buffer c' = receive_buffer c ∧ input_ok c') c w.
Proof.
  intros Hwf Hin Hd Hw. unfold resetParser. runs_run. split_and!; try done.
  - apply moved_pure; try done. apply (wf_receive _ Hwf).
  - unfold input_ok. cbn. apply wf_init. pose proof (len_nonneg (receive_buffer c)).
    pose proof (wf_receive _ Hwf). unfold MAX_RECEIVE_BUFFER, U64 in *. lia.
Qed.

Lemma setClose_runs G b c w :
  ConnFlow.wf c → G ## files c → holds_fds (G ∪ files c) w →
  runs (λ _, setCloseAfterWrite b) (λ _ c' w', w' = w ∧ moved G c w c' w ∧ c' = c <| close_after_write := b |>) c w.
Proof.
  intros Hwf Hd Hw. unfold setCloseAfterWrite. runs_run. split_and!; try done.
  apply moved_pure; try done. apply (wf_receive _ Hwf).
Qed.

(** The destructor closes the connection's files, then its socket. *)
Lemma close_files_runs {S} G (q : list OutputBuffer) (s : S) w :
  Forall entry_ok q → NoDup (queue_files q) → G ## list_to_set (queue_files q) →
  holds_fds (G ∪ list_to_set (queue_files q)) w →
  runs (λ _, for_each q closeOutputFile) (λ _ s' w', s' = s ∧ holds_fds G w') s w.
Proof.
  revert w. induction q as [|o q IH]; intros w He Hnd Hd Hw; cbn [for_each].
  { apply runs_ret. cbn in Hw. by rewrite union_empty_r_L in Hw. }
  apply Forall_cons in He as [[_ Ho] He]. unfold queue_files in *. rewrite fmap_cons in *. cbn [concat] in *.
  unfold entry_files in Hnd at 1, Hd at 1, Hw at 1. unfold closeOutputFile at 1.
  destruct (type o).
  - rewrite Ho, Z.eqb_refl. cbn [negb]. runs_step. runs_step. by apply IH.
  - rewrite (proj2 (Z.eqb_neq _ _)) by done. cbn [negb]. runs_step. runs_step. runs_step. runs_step.
    cbn [app list_to_set] in *. apply NoDup_cons in Hnd as [Hnin Hnd].
    apply IH; [done|done|clear - Hd; set_solver|].
    apply (holds_close _ (file_fd o)) with (a := respond w (sys_close (file_fd o))) in Hw;
      [|apply elem_of_union_r, elem_of_union_l, elem_of_singleton; done].
    revert Hw. set (X := list_to_set (concat (entry_files <$> q)) : gset Z) in *.
    assert (file_fd o ∉ X) as HX by (unfold X; by rewrite elem_of_list_to_set).
    replace ((G ∪ ({[file_fd o]} ∪ X)) ∖ {[file_fd o]}) with (G ∪ X); [done|].
    clearbody X. clear - Hd HX. set_solver.
Qed.

Lemma makes_destruct : makes plain destruct.
Proof. unfold destruct. makes_run. apply makes_closeOutputFile. Qed.

Lemma destruct_runs G c w :
  ConnFlow.wf c → fd c ≠ -1 → fd c ∉ G → G ∪ {[ fd c ]} ## files c →
  holds_fds (G ∪ {[ fd c ]} ∪ files c) w →
  ∃ c' w', destruct c w = Some ((), c', w') ∧ holds_fds G w' ∧
    ∃ l, w' = l ++ w ∧ Forall (λ e, plain e.1) l.
Proof.
  intros Hwf Hfd HG Hd Hw.
  assert (runs (λ _, destruct) (λ _ _ w', holds_fds G w') c w) as (N & [] & c' & w' & E & Hw').
  { unfold destruct. runs_step. runs_step. runs_step.
    eapply runs_mono; [|apply (close_files_runs (G ∪ {[fd c]}));
      [apply (wf_entries _ Hwf)|apply (wf_files _ Hwf)|exact Hd|exact Hw]].
    intros [] ? w1 [-> Hw1]. runs_step. runs_step. rewrite (proj2 (Z.eqb_neq _ _)) by done. cbn [negb].
    runs_run. apply (holds_close _ (fd c)) with (a := respond w1 (sys_close (fd c))) in Hw1; [|set_solver].
    by replace ((G ∪ {[fd c]}) ∖ {[fd c]}) with G in Hw1 by (clear - HG; set_solver). }
  specialize (E N (le_n N)). exists c', w'. split; [done|]. split; [done|].
  by apply (makes_destruct _ _ _ _ _ E).
Qed.

End Operations.
