(* ===== verification/ReactInv.v ===== *)
(** * The reactor's invariant

    The two tables agree, the connection count of the metrics includes every
    connection, the open descriptors are exactly those of the connections and of
    the files they are sending, and every connection is registered with epoll for
    the events it waits for. *)

From S2P Require Import Prelude.
From S2P Require Import Numerals.
From S2P Require Import Sys.
From S2P Require Import Progress.
From S2P Require Import Total.
From S2P Require Import Epoll.
From S2P Require Import Socket.
From S2P Require Import TimerFd.
From S2P Require Import Request.
From S2P Require Import Response.
From S2P Require Import Stats.
From S2P Require Import Parser.
From S2P Require Import ParserInv.
From S2P Require Import Conn.
From S2P Require Import ConnFlow.
From S2P Require Import Pool.
From S2P Require Import Handler.
From S2P Require Import HandlerTheorems.
From S2P Require Import React.
From S2P Require Import ReactConn.
Import Metrics (Metrics, active_connections).
Import Connection (Connection, output_queue, hasPendingOutput).
Import HttpHandler (Shared, pool, metrics).
Import Reactor.

(** ** Descriptors *)

Definition held_by (e : Z * Connection) : list Z := e.1 :: queue_files (output_queue e.2).

(** The descriptors of a table of connections. *)
Definition held (m : gmap Z Connection) : list Z := concat (held_by <$> map_to_list m).

Lemma held_perm m m' : map_to_list m ≡ₚ m' → held m ≡ₚ concat (held_by <$> m').
Proof. unfold held. intros E. by rewrite E. Qed.

Lemma held_insert m fd c :
  m !! fd = None → held (<[fd := c]> m) ≡ₚ fd :: queue_files (output_queue c) ++ held m.
Proof. intros H. by rewrite (held_perm _ _ (map_to_list_insert m fd c H)). Qed.

Lemma held_delete m fd c :
  m !! fd = Some c → held m ≡ₚ fd :: queue_files (output_queue c) ++ held (delete fd m).
Proof.
  intros H. rewrite <- (insert_delete_id m fd c H) at 1. apply held_insert. apply lookup_delete_eq.
Qed.

Definition owns (F : gset Z) (m : gmap Z Connection) (w : history) : Prop :=
  NoDup (held m) ∧ F ## list_to_set (held m) ∧ holds_fds (F ∪ list_to_set (held m)) w.

(** The descriptors outside of the connection on [fd], in a table without it. *)
Definition frame (F : gset Z) (fd : Z) (m : gmap Z Connection) : gset Z := F ∪ {[ fd ]} ∪ list_to_set (held m).

Record parted (F : gset Z) (fd : Z) (c : Connection) (m : gmap Z Connection) (w : history) : Prop := {
  pt_fd : fd ∉ F;
  pt_rest : fd ∉ held m;
  pt_nodup : NoDup (held m);
  pt_files : NoDup (queue_files (output_queue c));
  pt_disjoint : F ## list_to_set (held m);
  pt_frame : frame F fd m ## files c;
  pt_holds : holds_fds (frame F fd m ∪ files c) w
}.

Lemma owns_parted F m fd c w l :
  l ≡ₚ fd :: queue_files (output_queue c) ++ held m →
  NoDup l ∧ F ## list_to_set l ∧ holds_fds (F ∪ list_to_set l) w ↔ parted F fd c m w.
Proof.
  intros E. assert (list_to_set (C := gset Z) l = {[ fd ]} ∪ (files c ∪ list_to_set (held m))) as ->.
  { rewrite (list_to_set_perm_L _ _ E). cbn [list_to_set]. by rewrite list_to_set_app_L. }
  rewrite E, NoDup_cons, NoDup_app, not_elem_of_app.
  assert (frame F fd m ∪ files c = F ∪ ({[ fd ]} ∪ (files c ∪ list_to_set (held m)))) as Ew.
  { unfold frame. clear. set_solver. }
  unfold files in *. split.
  - intros (((H1 & H2) & H3 & H4 & H5) & H6 & H7). split; try done.
    + clear - H6. set_solver.
    + clear - H6. set_solver.
    + unfold frame, files. intros x Hx1 Hx2. rewrite elem_of_list_to_set in Hx2.
      rewrite !elem_of_union, elem_of_singleton, elem_of_list_to_set in Hx1.
      destruct Hx1 as [[Hx1|Hx1]|Hx1]; [|by subst|by apply (H4 x)].
      apply (H6 x Hx1). rewrite !elem_of_union, elem_of_list_to_set. auto.
    + unfold files. by rewrite Ew.
  - intros [H1 H2 H3 H4 H5 H6 H7]. unfold files in H6, H7. rewrite Ew in H7. unfold frame in H6.
    assert (∀ x, x ∈ queue_files (output_queue c) → (x ∉ F) ∧ x ≠ fd ∧ x ∉ held m) as H.
    { intros x Hx. rewrite <- (elem_of_list_to_set (C := gset Z)) in Hx.
      split_and!; intros Hc; apply (H6 x); try done;
        rewrite !elem_of_union, elem_of_singleton, elem_of_list_to_set; auto. }
    split_and!; try done.
    + intros Hin. by apply H in Hin as (_ & ? & _).
    + intros x Hx. by apply H.
    + intros x Hx1. rewrite !elem_of_union, elem_of_singleton, !elem_of_list_to_set.
      intros [->|[Hx|Hx]]; [done|by apply H in Hx as (? & _)|].
      apply (H5 x Hx1). by rewrite elem_of_list_to_set.
Qed.

Lemma owns_focus F m fd c w : m !! fd = Some c → owns F m w ↔ parted F fd c (delete fd m) w.
Proof. intros H. unfold owns. apply owns_parted. by apply held_delete. Qed.

Lemma owns_insert F m fd c w : m !! fd = None → owns F (<[fd := c]> m) w ↔ parted F fd c m w.
Proof. intros H. unfold owns. apply owns_parted. by apply held_insert. Qed.

(** ** Registered events *)

(** What the program last asked epoll to watch on a descriptor. *)
Fixpoint registered (fd : Z) (w : history) : option Z :=
  match w with
  | [] => None
  | (c, a) :: w' =>
      match c with
      | sys_epoll_ctl op fd' events =>
          if (fd' =? fd) && negb (ret a =? -1) then
            if op =? EPOLL_CTL_DEL then None else Some events
          else registered fd w'
      | _ => registered fd w'
      end
  end.

Lemma registered_plain fd l w : Forall (λ e, plain e.1) l → registered fd (l ++ w) = registered fd w.
Proof. induction 1 as [|[c a] l Hc _ IH]; [done|]. cbn in *. by destruct c. Qed.

(** What a connection waits for: input always, room for output when some is
    queued. *)
Definition wanted_events (c : Connection) : Z :=
  if hasPendingOutput c then Z.lor (Z.lor EPOLLIN EPOLLOUT) EPOLLRDHUP else Z.lor EPOLLIN EPOLLRDHUP.

(** A connection between two events. *)
Definition settled (c : Connection) (st : ConnectionState) : Prop :=
  input_ok c ∧ (redis_pending st = false → current_events st = wanted_events c).

(** ** The invariant

    [F] are the descriptors of others, [k] is the number of connections of the
    other reactors, [I] is what is known of the history since the last wait, [p]
    the state of the pool, and [X] holds the connection that is being worked on. *)
Record inv (F : gset Z) (k : Z) (I : history → Prop) (p : WorkerPool.WorkerPool Completion) (X : gset Z)
    (s : Reactor) (w : history) : Prop := {
  inv_pool : pool (shared s) = p;
  inv_handler : http_handler s = HttpHandler.construct (Some (id s));
  inv_tables : dom (connections s) = dom (connection_states s);
  inv_each : map_Forall (λ fd c, Connection.fd c = fd ∧ ConnFlow.wf c ∧ 0 ≤ fd < 2 ^ 31) (connections s);
  inv_active : active_connections (metrics (shared s)) = Z.of_nat (size (connections s)) + k;
  inv_owns : owns F (connections s) w;
  inv_registered : ∀ fd st, connection_states s !! fd = Some st → registered fd w = Some (current_events st);
  inv_settled : ∀ fd c st, fd ∉ X → connections s !! fd = Some c → connection_states s !! fd = Some st →
    settled c st;
  inv_since : I w
}.

Definition steady (c : call) : Prop := match c with sys_epoll_wait _ _ => False | _ => True end.

Definition lasting (I : history → Prop) : Prop := ∀ c a w, steady c → I w → I ((c, a) :: w).

Lemma lasting_plain I l w : lasting I → Forall (λ e, plain e.1) l → I w → I (l ++ w).
Proof. intros HI. induction 1 as [|[c a] l Hc _ IH]; [done|]. intros Hw. apply HI; [by destruct c|auto]. Qed.

(** The reference to a connection and its state. *)
Definition at_fd (fd : Z) (c : Connection) (st : ConnectionState) (s : Reactor) : Prop :=
  connections s !! fd = Some c ∧ connection_states s !! fd = Some st.

Lemma size_bounded {A} (m : gmap Z A) : (∀ fd, fd ∈ dom m → 0 ≤ fd < 2 ^ 31) → Z.of_nat (size m) ≤ 2 ^ 31.
Proof.
  intros H. rewrite <- size_dom. assert (0 ≤ 2 ^ 31) as H0 by lia. revert H H0.
  generalize (2 ^ 31). intros b H H0.
  assert (dom m ⊆ list_to_set (seqZ 0 b)) as Hsub.
  { intros x Hx. rewrite elem_of_list_to_set. apply elem_of_seqZ. apply H in Hx. lia. }
  apply subseteq_size in Hsub. rewrite size_list_to_set in Hsub by apply NoDup_seqZ.
  rewrite length_seqZ in Hsub. lia.
Qed.

Section Basics.
Context (F : gset Z) (k : Z) (I : history → Prop).
Implicit Types (s : Reactor) (w : history) (X : gset Z).
Abbreviation inv := (inv F k I).

Lemma inv_weaken p X Y s w : X ⊆ Y → inv p X s w → inv p Y s w.
Proof. intros HX [? ? ? ? ? ? ? Hs ?]. split; try done. intros fd c st Hfd. apply Hs. set_solver. Qed.

(** A connection that has settled, or is gone, needs no exception. *)
Lemma inv_close p fd s w :
  inv p {[ fd ]} s w → (∀ c st, at_fd fd c st s → settled c st) → inv p ∅ s w.
Proof.
  intros [? ? ? ? ? ? ? Hs ?] H. split; try done. intros fd' c st _ Hc Hst.
  destruct (decide (fd' = fd)) as [->|Hne]; [by apply H|]. apply (Hs fd'); set_solver.
Qed.

Lemma inv_gone p X fd s w : X ⊆ {[ fd ]} → connections s !! fd = None → inv p X s w → inv p ∅ s w.
Proof.
  intros HX Hfd H. apply (inv_close p fd); [by eapply inv_weaken|]. intros c st [Hc _]. congruence.
Qed.

Lemma at_none p X fd s w : inv p X s w → connections s !! fd = None ↔ connection_states s !! fd = None.
Proof. intros H. by rewrite <- !not_elem_of_dom, (inv_tables _ _ _ _ _ _ _ H). Qed.

Lemma at_some p X fd s w c : inv p X s w → connections s !! fd = Some c → ∃ st, at_fd fd c st s.
Proof.
  intros H Hc. assert (is_Some (connection_states s !! fd)) as [st Hst].
  { apply elem_of_dom. rewrite <- (inv_tables _ _ _ _ _ _ _ H). by apply elem_of_dom_2 in Hc. }
  by exists st.
Qed.

End Basics.

Section Invariant.
Context {K : Kernel} {FK : FreshFds K} {HK : Honest K} {HI : IntFds K}.
Context {T : Traversal Connection} {TS : Traversal ConnectionState}.
Context (F : gset Z) (k : Z) (Hk : 0 ≤ k < 2 ^ 63) (I : history → Prop) (Hlast : lasting I).
Implicit Types (s : Reactor) (w : history) (X : gset Z).
Abbreviation inv := (inv F k I).

Lemma inv_calls p X s w l :
  Forall (λ e, neutral e.1 = true) l → Forall (λ e, plain e.1) l → inv p X s w → inv p X s (l ++ w).
Proof.
  intros Hn Hp [? ? ? ? ? (Ho1 & Ho2 & Ho3) Hr Hs HI9]. split; try done; [..|by apply lasting_plain].
  - split_and!; try done. eapply holds_quiet; [|exact Ho3]. by exists l.
  - intros fd st Hst. rewrite registered_plain by done. by apply Hr.
Qed.

Lemma inv_call p X s w c a : neutral c = true → plain c → inv p X s w → inv p X s ((c, a) :: w).
Proof. intros. apply (inv_calls p X s w [(c, a)]); [by constructor..|done]. Qed.

(** ** Steps inside a connection *)

Lemma on_connection_runs {A} (m : nat → Prog Connection A) (Q : A → Connection → history → Prop) p X fd c st s w :
  inv p X s w → fd ∈ X → at_fd fd c st s →
  (∀ G, ConnFlow.wf c → G ## files c → holds_fds (G ∪ files c) w →
     runs m (λ a c' w', moved G c w c' w' ∧ Q a c' w') c w) →
  runs (λ fuel, on_connection fd (m fuel))
    (λ a s' w', ∃ c', inv p X s' w' ∧ at_fd fd c' st s' ∧ Q a c' w') s w.
Proof.
  intros [H1 H2 H3 H4 H5 H6 H7 H8 H9] HX [Hc Hst] Hm. destruct (H4 fd c Hc) as (Hfd & Hwf & Hrange).
  apply (owns_focus F _ _ _ w Hc) in H6. destruct H6 as [P1 P2 P3 P4 P5 P6 P7].
  destruct (Hm _ Hwf P6 P7) as (N & a & c' & w' & E & [M1 M2 M3 M4 (l & -> & Ml)] & HQ).
  exists N, a, (s <| connections := <[fd := c']> (connections s) |>), (l ++ w). split.
  { intros fuel Hf. unfold on_connection. by rewrite Hc, E. }
  exists c'. split; [|split; [split; [apply lookup_insert_eq|done]|done]].
  split; cbn [connections connection_states shared http_handler id set_with]; try done; [..|by apply lasting_plain].
  - rewrite dom_insert_lookup_L by by eexists. done.
  - apply map_Forall_insert_2; [|done]. by rewrite M2.
  - cbn. by rewrite map_size_insert, Hc.
  - apply (owns_focus F _ fd c'); [apply lookup_insert_eq|]. rewrite delete_insert_eq.
    split; try done. apply (wf_files _ M1).
  - intros fd' st' Hst'. rewrite registered_plain by done. by apply H7.
  - intros fd' c1 st1 Hfd'. cbn. rewrite lookup_insert_ne by set_solver. by apply H8.
Qed.

Lemma on_state_runs p X fd f c st s w (Q : () → Reactor → history → Prop) :
  inv p X s w → fd ∈ X → at_fd fd c st s → current_events (f st) = current_events st →
  (∀ s', inv p X s' w → at_fd fd c (f st) s' → id s' = id s → Q () s' w) →
  runs (λ _, on_state fd f) Q s w.
Proof.
  intros [H1 H2 H3 H4 H5 H6 H7 H8 H9] HX [Hc Hst] Hf HQ.
  apply (runs_exact _ _ _ _ () (s <| connection_states := <[fd := f st]> (connection_states s) |>) w).
  { intros _. unfold on_state. by rewrite Hst. }
  apply HQ; [|split; [done|apply lookup_insert_eq]|done].
  split; cbn; try done.
  - rewrite dom_insert_lookup_L by by eexists. done.
  - intros fd' st'. destruct (decide (fd' = fd)) as [->|Hne].
    + rewrite lookup_insert_eq. intros [= <-]. rewrite Hf. by apply H7.
    + rewrite lookup_insert_ne by done. apply H7.
  - intros fd' c1 st1 Hfd'. rewrite lookup_insert_ne by set_solver. by apply H8.
Qed.

Lemma state_of_runs fd c st s w (Q : ConnectionState → Reactor → history → Prop) :
  at_fd fd c st s → Q st s w → runs (λ _, state_of fd) Q s w.
Proof.
  intros [_ Hst] HQ. apply (runs_exact _ _ _ _ st s w); [|done]. intros _. unfold state_of. by rewrite Hst.
Qed.

(** The rest of the reactor as a connection's code sees it. *)
Definition same_tables s s' : Prop :=
  connections s' = connections s ∧ connection_states s' = connection_states s ∧ id s' = id s.

Lemma at_same fd c st s s' : same_tables s s' → at_fd fd c st s → at_fd fd c st s'.
Proof. intros (H1 & H2 & _). unfold at_fd. by rewrite H1, H2. Qed.

Lemma metric_runs p X f s w (Q : () → Reactor → history → Prop) :
  inv p X s w → (∀ m, active_connections (f m) = active_connections m) →
  (∀ s', inv p X s' w → same_tables s s' → Q () s' w) → runs (λ _, metric f) Q s w.
Proof.
  intros [H1 H2 H3 H4 H5 H6 H7 H8 H9] Hf HQ. unfold metric, on_shared. runs_run.
  apply HQ; [|done]. split; cbn; try done. by rewrite Hf.
Qed.

Lemma now_runs p X s w (Q : Z → Reactor → history → Prop) :
  inv p X s w → (∀ t w', inv p X s w' → (w' = (sys_now, respond w sys_now) :: w) → Q t s w') → runs (λ _, now) Q s w.
Proof. intros H HQ. unfold now. runs_run. apply HQ; [|done]. by apply inv_call. Qed.

(** Calls that move no data, and calls that tell a connection is of no more use. *)
Definition idle (c : call) : Prop := match c with sys_now | sys_epoll_ctl _ _ _ => True | _ => False end.

Definition later w w' : Prop := ∃ l, w' = l ++ w ∧ Forall (λ e : event, idle e.1) l.

Definition refused (e : event) : Prop :=
  ret e.2 ≤ 0 ∧ match e.1 with sys_epoll_ctl _ _ _ => True | c => transmits c end.

Definition broken (l : history) : Prop := Exists refused l.

Lemma later_refl w : later w w.
Proof. by exists []. Qed.

Lemma later_now w a : later w ((sys_now, a) :: w).
Proof. exists [(sys_now, a)]. split; [done|]. by constructor. Qed.

Lemma later_trans w w1 w2 : later w w1 → later w1 w2 → later w w2.
Proof. intros (l & -> & Hl) (l2 & -> & Hl2). exists (l2 ++ l). split; [by rewrite app_assoc|]. by apply Forall_app. Qed.

Lemma idle_progress c l : ConnFlow.wf c → Forall (λ e : event, idle e.1) l → progress c l c.
Proof.
  intros Hwf Hl. apply progress_same; [done|..].
  - induction Hl as [|[x a] l Hx _ IH]; [done|]. cbn. rewrite IH. by destruct x.
  - eapply Forall_impl; [exact Hl|]. intros [x a] Hx. by destruct x.
Qed.

(** ** Removing a connection *)

Lemma app_cons_assoc {A} (l : list A) x m : l ++ x :: m = (l ++ [x]) ++ m.
Proof. by rewrite <- app_assoc. Qed.

Lemma registered_remove fd fd' a w :
  fd' ≠ fd → registered fd' ((sys_epoll_ctl EPOLL_CTL_DEL fd 0, a) :: w) = registered fd' w.
Proof. intros H. cbn. by rewrite (proj2 (Z.eqb_neq _ _)) by done. Qed.

Lemma destroy_runs G c s w (Q : () → Reactor → history → Prop) :
  ConnFlow.wf c → Connection.fd c ≠ -1 → Connection.fd c ∉ G → G ∪ {[ Connection.fd c ]} ## files c →
  holds_fds (G ∪ {[ Connection.fd c ]} ∪ files c) w →
  (∀ l, Forall (λ e, plain e.1) l → holds_fds G (l ++ w) → Q () s (l ++ w)) →
  runs (λ _, destroy c) Q s w.
Proof.
  intros H1 H2 H3 H4 H5 HQ. destruct (destruct_runs G c w) as (c' & w' & E & Hw & l & -> & Hl); [done..|].
  apply (runs_exact _ _ _ _ () s (l ++ w)); [|by apply HQ]. intros _. unfold destroy. by rewrite E.
Qed.

Lemma removeConnection_runs p X fd s w (Q : () → Reactor → history → Prop) :
  inv p X s w → X ⊆ {[ fd ]} →
  (∀ s' l, inv p ∅ s' (l ++ w) → connections s' = delete fd (connections s) → Q () s' (l ++ w)) →
  runs (λ _, removeConnection fd) Q s w.
Proof.
  intros H HX HQ. unfold removeConnection. runs_step. runs_step.
  destruct (connections s !! fd) as [c|] eqn:Hc.
  2:{ apply runs_ret. apply (HQ s []); [by eapply inv_gone|]. by rewrite delete_id. }
  pose proof H as [H1 H2 H3 H4 H5 H6 H7 H8 H9]. destruct (H4 fd c Hc) as (Hfd & Hwf & Hrange).
  apply (owns_focus F _ _ _ w Hc) in H6. destruct H6 as [P1 P2 P3 P4 P5 P6 P7].
  unfold Epoll.remove. runs_step. runs_step. runs_step. apply runs_ret. runs_step. runs_step. runs_step.
  set (e := sys_epoll_ctl EPOLL_CTL_DEL fd 0). set (a := respond w e).
  apply (destroy_runs (F ∪ list_to_set (held (delete fd (connections s))))); rewrite ?Hfd; try done.
  - lia.
  - by rewrite not_elem_of_union, elem_of_list_to_set.
  - unfold frame in P6. revert P6.
    generalize (list_to_set (held (delete fd (connections s))) : gset Z). intros R.
    by replace (F ∪ {[fd]} ∪ R) with (F ∪ R ∪ {[fd]}) by (clear; set_solver).
  - unfold frame in P7. apply (holds_neutral _ e a) in P7; [|done]. revert P7.
    generalize (list_to_set (held (delete fd (connections s))) : gset Z). intros R.
    by replace (F ∪ {[fd]} ∪ R ∪ files c) with (F ∪ R ∪ {[fd]} ∪ files c) by (clear; set_solver).
  - intros l Hl Hw. runs_step. runs_step. unfold metric, on_shared. runs_step. runs_step.
    rewrite app_cons_assoc. apply HQ; [|done]. rewrite <- app_cons_assoc.
    split; cbn; try done; [..|by apply lasting_plain, Hlast].
    + by rewrite !dom_delete_L, H3.
    + by apply map_Forall_delete.
    + unfold Metrics.decrementActiveConnections. rewrite H5.
      assert (size (connections s) ≠ 0)%nat as Hne.
      { intros E. apply map_size_empty_inv in E. by rewrite E, lookup_empty in Hc. }
      rewrite map_size_delete, Hc.
      destruct (Z.gtb_spec (Z.of_nat (size (connections s)) + k) 0); cbn; lia.
    + intros fd' st. rewrite lookup_delete_Some. intros [Hne Hst].
      rewrite registered_plain by done. unfold e. rewrite registered_remove by done. by apply H7.
    + intros fd' c' st _. rewrite !lookup_delete_Some. intros [Hne Hc'] [_ Hst]. apply (H8 fd'); try done.
      set_solver.
Qed.

Lemma fail_runs p X fd s w (Q : () → Reactor → history → Prop) :
  inv p X s w → X ⊆ {[ fd ]} →
  (∀ s' l, inv p ∅ s' (l ++ w) → connections s' = delete fd (connections s) → Q () s' (l ++ w)) →
  runs (λ _, fail fd) Q s w.
Proof.
  intros H HX HQ. unfold fail. runs_step. eapply metric_runs; [exact H|done|].
  intros s' H' [Hs _]. eapply removeConnection_runs; [exact H'|done|]. rewrite Hs. apply HQ.
Qed.

(** ** Events and deadlines *)

Lemma refreshDeadline_runs p X fd t c st s w (Q : () → Reactor → history → Prop) :
  inv p X s w → fd ∈ X → at_fd fd c st s →
  (∀ s' w' d, inv p X s' w' → later w w' → at_fd fd c (st <| deadline := d |>) s' → Q () s' w') →
  runs (λ _, refreshDeadline fd t) Q s w.
Proof.
  intros H HX Hat HQ. unfold refreshDeadline. runs_step. runs_step. rewrite (proj2 Hat). runs_step.
  eapply now_runs; [exact H|]. intros t0 w' H' Hw'. eapply on_state_runs; try done. intros s' Hs' Hat' _. eapply HQ; [done| |done].
  rewrite Hw'. by apply later_now.
Qed.

(** The connection has only been watched for other events. *)
Definition unmoved (fd : Z) (c : Connection) (st : ConnectionState) s' (c' : Connection) (l : history) : Prop :=
  c' = c ∧ Forall (λ e, idle e.1) l ∧
  ∃ st', connection_states s' !! fd = Some st' ∧ redis_pending st' = redis_pending st ∧
    generation st' = generation st.

Lemma updateEvents_runs p fd events c st s w (Q : () → Reactor → history → Prop) :
  inv p {[ fd ]} s w → at_fd fd c st s → input_ok c →
  (redis_pending st = false → events = wanted_events c) →
  (∀ s' l, inv p ∅ s' (l ++ w) →
     match connections s' !! fd with Some c' => unmoved fd c st s' c' l | None => broken l end →
     Q () s' (l ++ w)) →
  runs (λ _, updateEvents fd events) Q s w.
Proof.
  intros H Hat Hin Hev HQ. unfold updateEvents. runs_step. runs_step. rewrite (proj2 Hat).
  destruct (Z.eqb_spec (current_events st) events) as [He|He].
  { apply runs_ret. apply (HQ s []); [|rewrite (proj1 Hat); split_and!; [done..|]; exists st; by split; [apply Hat|]]. apply (inv_close F k I _ fd); [done|]. intros c' st' [Hc' Hst'].
    destruct Hat as [Hc Hst]. simplify_eq. split; [done|]. done. }
  unfold Epoll.modify. runs_step. runs_step. runs_step. apply runs_ret.
  set (e := sys_epoll_ctl EPOLL_CTL_MOD fd events). set (a := respond w e).
  destruct H as [H1 H2 H3 H4 H5 (Ho1 & Ho2 & Ho3) H7 H8 H9]. destruct Hat as [Hc Hst].
  destruct (Z.eqb_spec (ret a) (-1)) as [Ha|Ha]; cbn [negb].
  - assert (inv p {[ fd ]} s ((e, a) :: w)) as H.
    { split; try done; [..|by apply Hlast].
      - split_and!; try done. by apply holds_neutral.
      - intros fd' st' Hst'. cbn. rewrite Ha. cbn [Z.eqb negb]. rewrite andb_false_r. by apply H7. }
    runs_step. eapply metric_runs; [exact H|done|]. intros s' H' _.
    eapply removeConnection_runs; [exact H'|done|]. intros s2 l Hi2 Hs2. rewrite app_cons_assoc in *. apply HQ; [done|].
    rewrite Hs2, lookup_delete_eq. apply Exists_app. right. constructor. split; [|done]. cbn. lia.
  - apply (runs_exact _ _ _ _ ()
      (s <| connection_states := <[fd := st <| current_events := events |>]> (connection_states s) |>) ((e, a) :: w)).
    { intros _. unfold on_state. by rewrite Hst. }
    apply (HQ _ [(e, a)]); [|cbn; rewrite Hc; split_and!; [done|by constructor|eexists; cbn; by rewrite lookup_insert_eq]]. split; cbn; try done; [..|by apply Hlast].
    + rewrite dom_insert_lookup_L by by eexists. done.
    + split_and!; try done. by apply holds_neutral.
    + intros fd' st'. rewrite (proj2 (Z.eqb_neq (ret a) (-1))) by done. cbn [negb].
      rewrite andb_true_r. destruct (Z.eqb_spec fd fd') as [<-|Hne].
      * rewrite lookup_insert_eq. by intros [= <-].
      * rewrite lookup_insert_ne by done. apply H7.
    + intros fd' c' st' _ Hc'. destruct (decide (fd = fd')) as [<-|Hne].
      * rewrite lookup_insert_eq. intros [= <-]. simplify_eq. split; [done|]. cbn. by intros ?%Hev.
      * rewrite lookup_insert_ne by done. apply (H8 fd'); [set_solver|done].
Qed.

Lemma recordLatency_active us m : active_connections (Metrics.recordLatency us m) = active_connections m.
Proof. unfold Metrics.recordLatency, Metrics.add_to_bucket. by case_match. Qed.

Lemma record_latency_runs p X fd c st s w (Q : () → Reactor → history → Prop) :
  inv p X s w → fd ∈ X → at_fd fd c st s →
  (∀ s' w' b, inv p X s' w' → later w w' → at_fd fd c (st <| request_in_flight := b |>) s' → Q () s' w') →
  runs (λ _, record_latency fd) Q s w.
Proof.
  intros H HX Hat HQ. unfold record_latency. runs_step. eapply state_of_runs; [exact Hat|].
  destruct (request_in_flight st) eqn:E.
  - runs_step. eapply now_runs; [exact H|]. intros t w' H' Hw'. runs_step.
    eapply metric_runs; [exact H'| |].
    { apply recordLatency_active. }
    intros s' Hs' Hsame. eapply on_state_runs; [exact Hs'|done|by eapply at_same|done|].
    intros s2 ? ? _. eapply HQ; [done| |done]. rewrite Hw'. by apply later_now.
  - apply runs_ret. apply (HQ s w false); [done|apply later_refl|]. destruct Hat. split; [done|]. destruct st. cbn in *. by subst.
Qed.

(** ** Writing *)

Lemma pending_queue c : hasPendingOutput c = false ↔ output_queue c = [].
Proof. unfold hasPendingOutput. by destruct (output_queue c). Qed.

Section Writing.
Context (n : nat) {P : Patient K n}.

(** What a flush has done to the connection: [write] has moved a part of its
    queue, or it is gone because it was to be closed or a call failed. *)
Definition flushed (fd : Z) (c : Connection) (st : ConnectionState) w s' w' : Prop :=
  ∃ l, w' = l ++ w ∧
    match connections s' !! fd with
    | Some c' => progress c l c' ∧
        ∃ st', connection_states s' !! fd = Some st' ∧ redis_pending st' = redis_pending st ∧
          generation st' = generation st
    | None => Connection.close_after_write c = true ∨ broken l
    end.

(** Behind a [write]: the connection stays as it is or is removed. *)
Lemma flushed_after fd c st w l c1 s' l' :
  progress c l c1 →
  match connections s' !! fd with
  | Some c' => unmoved fd c1 st s' c' l'
  | None => Connection.close_after_write c = true ∨ broken (l' ++ l)
  end → flushed fd c st w s' (l' ++ l ++ w).
Proof.
  intros Hp H. exists (l' ++ l). split; [by rewrite app_assoc|].
  destruct (connections s' !! fd) as [c'|]; [|done]. destruct H as (-> & Hl & Hst). split; [|done].
  eapply progress_trans; [exact Hp|]. apply idle_progress; [apply (pg_wf _ _ _ Hp)|done].
Qed.

(** After a flush the connection has settled or is gone. *)
Lemma flush_runs p fd c st s w (Q : () → Reactor → history → Prop) :
  inv p {[ fd ]} s w → at_fd fd c st s → input_ok c → hasPendingOutput c = true →
  (∀ s' w', inv p ∅ s' w' → flushed fd c st w s' w' → Q () s' w') →
  runs (λ fuel, handleWrite fuel fd) Q s w.
Proof.
  intros H Hat Hin Hpend HQ. unfold handleWrite. runs_step. runs_step. rewrite (proj1 Hat), Hpend. cbn [negb].
  runs_step. eapply runs_mono; [|eapply (on_connection_runs Connection.write
    (λ r c' w', input_ok c' ∧ ∃ l, w' = l ++ w ∧ written c r l c')); [exact H|by apply elem_of_singleton|exact Hat|]].
  2:{ intros G Hwf HG Hw. eapply runs_mono; [|by apply (write_runs n G)].
      cbn. intros r c' w' (Hm & Hp & Hb & _ & Hl). split; [done|]. split; [|done].
      unfold input_ok. by rewrite Hp, Hb. }
  cbn. intros r s1 w1 (c1 & H1 & Hat1 & Hin1 & l & -> & Hpg & Hr & Hstop).
  assert (∀ s' l', inv p ∅ s' (l' ++ l ++ w) → connections s' = delete fd (connections s1) →
    Connection.close_after_write c = true ∨ broken l → Q () s' (l' ++ l ++ w)) as Hgone.
  { intros s' l' H' Hs' Hwhy. apply HQ; [done|]. eapply flushed_after; [exact Hpg|].
    rewrite Hs', lookup_delete_eq. destruct Hwhy as [?|?]; [by left|right]. apply Exists_app. by right. }
  assert (∀ s' l', inv p ∅ s' (l' ++ l ++ w) →
    match connections s' !! fd with Some c' => unmoved fd c1 st s' c' l' | None => broken l' end →
    Q () s' (l' ++ l ++ w)) as Hstays.
  { intros s' l' H' Hs'. apply HQ; [done|]. eapply flushed_after; [exact Hpg|].
    destruct (connections s' !! fd); [done|]. right. apply Exists_app. by left. }
  destruct r.
  - runs_step. eapply metric_runs; [exact H1|done|]. intros s2 H2 Hsame. pose proof (at_same _ _ _ _ _ Hsame Hat1) as Hat2.
    runs_step. eapply runs_mono; [|eapply (on_connection_runs (λ _, gets Connection.shouldCloseAfterWrite)
      (λ b c' w', b = Connection.close_after_write c1 ∧ c' = c1 ∧ w' = l ++ w));
      [exact H2|by apply elem_of_singleton|exact Hat2|]].
    2:{ intros G Hwf HG Hw. runs_run. split; [by apply moved_refl|done]. }
    cbn. intros b s3 w3 (? & H3 & Hat3 & Hb & -> & ->). destruct b.
    + eapply removeConnection_runs; [exact H3|done|]. intros s4 l4 H4 Hs4. apply HQ; [done|].
      eapply flushed_after; [exact Hpg|]. rewrite Hs4, lookup_delete_eq. left. by rewrite (pg_rest _ _ _ Hpg) in Hb.
    + eapply updateEvents_runs; [exact H3|exact Hat3|done| |exact Hstays].
      intros _. unfold wanted_events. by rewrite (proj2 (pending_queue c1) (proj1 Hr eq_refl)).
  - eapply updateEvents_runs; [exact H1|exact Hat1|done| |exact Hstays].
    intros _. unfold wanted_events. destruct (hasPendingOutput c1) eqn:E; [done|].
    apply pending_queue in E. by apply Hr in E.
  - eapply fail_runs; [exact H1|done|]. intros s' l' H' Hs'. apply Hgone; [done|done|].
    right. destruct Hstop as (e & l2 & -> & Htr & Hret). constructor. split; [lia|]. by destruct e.1.
Qed.

Lemma handleWrite_runs p fd s w (Q : () → Reactor → history → Prop) :
  inv p ∅ s w → (∀ s' w', inv p ∅ s' w' → Q () s' w') → runs (λ fuel, handleWrite fuel fd) Q s w.
Proof.
  intros H HQ. destruct (connections s !! fd) as [c|] eqn:Hc.
  2:{ unfold handleWrite. runs_step. runs_step. rewrite Hc. apply runs_ret. by apply HQ. }
  destruct (at_some _ _ _ _ _ _ _ _ _ H Hc) as [st Hat].
  destruct (hasPendingOutput c) eqn:E.
  - eapply (flush_runs p fd c st); try done; [eapply inv_weaken; [|exact H]; set_solver| |intros s' w' H' _; by apply HQ].
    by apply (inv_settled _ _ _ _ _ _ _ H fd c st); [set_solver|apply Hat..].
  - unfold handleWrite. runs_step. runs_step. rewrite Hc, E. apply runs_ret. by apply HQ.
Qed.
End Writing.

End Invariant.
