(* ===== verification/ReactLoop.v ===== *)
(** * The reactor's handlers

    Every handler of the reactor returns and keeps the invariant. *)

From S2P Require Import Prelude.
From S2P Require Import Numerals.
From S2P Require Import Sys.
From S2P Require Import Progress.
From S2P Require Import Total.
From S2P Require Import Epoll.
From S2P Require Import Socket.
From S2P Require Import TimerFd.
From S2P Require Import Request.
From S2P Require Import Response.
From S2P Require Import Stats.
From S2P Require Import Parser.
From S2P Require Import ParserInv.
From S2P Require Import Conn.
From S2P Require Import ConnFlow.
From S2P Require Import Pool.
From S2P Require Import Handler.
From S2P Require Import HandlerTheorems.
From S2P Require Import React.
From S2P Require Import ReactConn.
From S2P Require Import ReactInv.
Import HttpResponse (HttpResponse, serialize).
Import Metrics (Metrics, active_connections).
Import Connection (Connection, output_queue, output_queue_size, hasPendingOutput).
Import HttpHandler (Shared, pool, metrics, Completed, Pending).
Import Reactor.

(** ** Serving requests *)

Lemma serialize_nonempty r : 0 < len (serialize r).
Proof.
  unfold serialize. rewrite len_app. pose proof (len_nonneg (HttpResponse.version r)).
  change (lit " " ++ ?x) with (" "%char :: x). rewrite len_cons.
  match goal with |- context [1 + len ?l] => pose proof (len_nonneg l) end. lia.
Qed.

(** A connection that is not waiting for Redis, while its input is served. *)
Definition working (c : Connection) (st : ConnectionState) : Prop :=
  input_ok c ∧ redis_pending st = false ∧
  (hasPendingOutput c = false → current_events st = Z.lor EPOLLIN EPOLLRDHUP).

Lemma working_output c c' st : working c st → same_output c c' → input_ok c' → working c' st.
Proof.
  intros (_ & Hp & He) [Hq _] Hin. split_and!; try done. intros Ho. apply He. unfold hasPendingOutput in *.
  by rewrite <- Hq.
Qed.

(** The connection that waits for a completion. *)
Definition awaited (s : Reactor) (c : Completion) : option Connection :=
  match connections s !! client c, connection_states s !! client c with
  | Some conn, Some st => if isGenerationCurrent st (issued c) && redis_pending st then Some conn else None
  | _, _ => None
  end.

(** The response as it is sent. *)
Definition response_of (c : Completion) : HttpResponse :=
  if closing c then HttpResponse.setConnection (lit "close") (answer c) else answer c.

(** A request of the client [fd] has been handed to the pool as one job of this
    reactor; whatever the job's answer is, the connection awaits it or is gone. *)
Definition handed_over (fd : Z) (c : Connection) (st : ConnectionState) (closes : bool) {K : Kernel}
    (s s' : Reactor) : Prop :=
  ∃ work, answering (mk_completion fd (generation st) closes) work ∧
    pool (shared s') = pool (shared s) <| WorkerPool.jobs :=
      WorkerPool.jobs (pool (shared s)) ++ [WorkerPool.mk_job (id s) work] |> ∧
    (connections s' !! fd = None ∨
     ∃ c', same_output c c' ∧ ∀ r, awaited s' (mk_completion fd (generation st) closes r) = Some c').

Section Loop.
Context {K : Kernel} {FK : FreshFds K} {HK : Honest K} {HI : IntFds K} (n : nat) {P : Patient K n}.
Context {T : Traversal Connection} {TS : Traversal ConnectionState}.
Context (F : gset Z) (k : Z) (Hk : 0 ≤ k < 2 ^ 63) (I : history → Prop) (Hlast : lasting I).
Implicit Types (s : Reactor) (w : history) (X : gset Z).
Abbreviation inv := (inv F k I).

(** Reading a member of a connection changes nothing. *)
Lemma on_gets_runs {A} (f : Connection → A) fd c st s w (Q : A → Reactor → history → Prop) :
  at_fd fd c st s → Q (f c) s w → runs (λ _, on_connection fd (gets f)) Q s w.
Proof.
  intros [Hc _] HQ. apply (runs_exact _ _ _ _ (f c) s w); [|done]. intros _. unfold on_connection, gets.
  rewrite Hc, insert_id by done. by destruct s.
Qed.

(** [consumeParsedBytes] and [resetParser] behind a request. *)
Lemma next_request_runs p X fd c st s w (m : nat → Prog Reactor flow) Q :
  inv p X s w → fd ∈ X → at_fd fd c st s → input_ok c →
  (∀ s' c', inv p X s' w → at_fd fd c' st s' → input_ok c' → same_output c c' → runs m Q s' w) →
  runs (λ fuel, on_connection fd Connection.consumeParsedBytes ;; on_connection fd Connection.resetParser ;; m fuel) Q s w.
Proof.
  intros H HX Hat Hin HQ. runs_step. eapply runs_mono; [|eapply (on_connection_runs F k Hk I Hlast (λ _, Connection.consumeParsedBytes)
    (λ _ c' w', w' = w ∧ same_output c c' ∧ input_ok c')); [exact H|done|exact Hat|]].
  2:{ intros G Hwf HG Hw. eapply runs_mono; [|by apply consume_runs].
      cbn. by intros r c' w' (-> & Hm & Hs & _ & Hin' & _). }
  cbn. intros _ s1 w1 (c1 & H1 & Hat1 & -> & Hs1 & Hin1). runs_step.
  eapply runs_mono; [|eapply (on_connection_runs F k Hk I Hlast (λ _, Connection.resetParser)
    (λ _ c' w', w' = w ∧ same_output c1 c' ∧ input_ok c')); [exact H1|done|exact Hat1|]].
  2:{ intros G Hwf HG Hw. eapply runs_mono; [|by apply reset_runs].
      cbn. by intros r c' w' (-> & Hm & Hs & _ & _ & Hin'). }
  cbn. intros _ s2 w2 (c2 & H2 & Hat2 & -> & Hs2 & Hin2). eapply HQ; try done.
  destruct Hs1 as [E1 E2], Hs2 as [E3 E4]. split; congruence.
Qed.

(** Setting the flag when the request asks for it. *)
Lemma set_close_runs (b : bool) p X fd c st s w (Q : () → Reactor → history → Prop) :
  inv p X s w → fd ∈ X → at_fd fd c st s →
  (∀ s' c', inv p X s' w → at_fd fd c' st s' → Connection.parser c' = Connection.parser c →
     Connection.receive_buffer c' = Connection.receive_buffer c → same_output c c' →
     Connection.close_after_write c' = b || Connection.close_after_write c → Q () s' w) →
  runs (λ _, if b then on_connection fd (Connection.setCloseAfterWrite true) else mret ()) Q s w.
Proof.
  intros H HX Hat HQ. destruct b; [|apply runs_ret; by eapply HQ].
  eapply runs_mono; [|eapply (on_connection_runs F k Hk I Hlast (λ _, Connection.setCloseAfterWrite true)
    (λ _ c' w', w' = w ∧ c' = c <| Connection.close_after_write := true |>)); [exact H|done|exact Hat|]].
  - cbn. intros [] s' w' (c' & H' & Hat' & -> & ->). by eapply HQ.
  - intros G Hwf HG Hw. eapply runs_mono; [|by apply setClose_runs]. cbn. by intros _ c' w' (-> & Hm & ->).
Qed.

(** Queueing a response: accepted, with the queue grown, or not. *)
Lemma queue_response_runs b p X fd c st s w (Q : bool → Reactor → history → Prop) :
  inv p X s w → fd ∈ X → at_fd fd c st s → 0 < len b →
  (∀ s' c', inv p X s' w → at_fd fd c' st s' → Connection.parser c' = Connection.parser c →
     Connection.receive_buffer c' = Connection.receive_buffer c →
     Connection.close_after_write c' = Connection.close_after_write c →
     output_queue c' = output_queue c ++ [Connection.mk_output Connection.Memory b 0 (-1) 0] →
     output_queue_size c < output_queue_size c' → Q true s' w) →
  (∀ s', inv p X s' w → Connection.MAX_OUTPUT_QUEUE_SIZE < output_queue_size c + len b → Q false s' w) →
  runs (λ _, on_connection fd (Connection.queueResponse b)) Q s w.
Proof.
  intros H HX Hat Hb Hyes Hno. eapply runs_mono; [|eapply (on_connection_runs F k Hk I Hlast (λ _, Connection.queueResponse b)
    (λ r c' w', w' = w ∧ Connection.parser c' = Connection.parser c ∧
       Connection.receive_buffer c' = Connection.receive_buffer c ∧
       Connection.close_after_write c' = Connection.close_after_write c ∧
       if r then output_queue c' = output_queue c ++ [Connection.mk_output Connection.Memory b 0 (-1) 0] ∧
         output_queue_size c < output_queue_size c'
       else Connection.MAX_OUTPUT_QUEUE_SIZE < output_queue_size c + len b));
    [exact H|done|exact Hat|]].
  - cbn. intros [] s' w' (c' & H' & Hat' & -> & Hp & Hr & Hc & Hq); [|by apply Hno].
    destruct Hq. by eapply Hyes.
  - intros G Hwf HG Hw. eapply runs_mono; [|by apply queueResponse_runs].
    cbn. intros r c' w' (-> & Hm & Hp & Hr & Hc & Hq). split; [done|]. split_and!; try done. destruct r; [|by destruct Hq].
    destruct Hq as [Hq Hs]. split; [done|lia].
Qed.

Lemma queue_file_runs path size p X fd c st s w (Q : bool → Reactor → history → Prop) :
  inv p X s w → fd ∈ X → at_fd fd c st s → 0 ≤ size →
  (∀ s' c' w', inv p X s' w' → at_fd fd c' st s' → Connection.parser c' = Connection.parser c →
     Connection.receive_buffer c' = Connection.receive_buffer c → hasPendingOutput c' = true →
     output_queue_size c ≤ output_queue_size c' → Q true s' w') →
  (∀ s' w', inv p X s' w' → Q false s' w') →
  runs (λ _, on_connection fd (Connection.queueFile path size)) Q s w.
Proof.
  intros H HX Hat Hb Hyes Hno. eapply runs_mono; [|eapply (on_connection_runs F k Hk I Hlast (λ _, Connection.queueFile path size)
    (λ r c' w', Connection.parser c' = Connection.parser c ∧
       Connection.receive_buffer c' = Connection.receive_buffer c ∧ output_queue_size c ≤ output_queue_size c' ∧
       (r = true → hasPendingOutput c' = true)));
    [exact H|done|exact Hat|]].
  - cbn. intros [] s' w' (c' & H' & Hat' & Hp & Hr & Hs & Hq); [|by eapply Hno]. eapply Hyes; try done. by apply Hq.
  - intros G Hwf HG Hw. eapply runs_mono; [|by apply queueFile_runs].
    cbn. intros r c' w' (Hm & Hp & Hr & _ & Hs & Hq). split_and!; try done. intros ->.
    destruct Hq as [f Hq]. unfold hasPendingOutput. rewrite Hq. by destruct (output_queue c).
Qed.

(** The request handlers. *)
Lemma handle_runs p X fd c st s w req cb (Q : HttpHandler.HandleResult * HttpResponse → Reactor → history → Prop) :
  inv p X s w → at_fd fd c st s →
  (∀ res r s' w' p', inv p' X s' w' → at_fd fd c st s' →
     match res with
     | Completed => p' = p
     | Pending => ∃ work, answering cb work ∧
         p' = p <| WorkerPool.jobs := WorkerPool.jobs p ++ [WorkerPool.mk_job (id s) work] |>
     end → Q (res, r) s' w') →
  runs (λ _, on_shared (HttpHandler.handle (http_handler s) req HttpResponse.construct cb)) Q s w.
Proof.
  intros H Hat HQ. destruct H as [H1 H2 H3 H4 H5 H6 H7 H8 H9].
  destruct (handle_answered cb (Some (id s)) req (shared s) w) as (res & r & x & l & E & [Hm Hres] & Hl).
  apply (runs_exact _ _ _ _ (res, r) (s <| shared := x |>) (l ++ w)).
  { intros _. unfold on_shared, zoom. by rewrite H2, E. }
  apply (HQ res r _ _ (pool x)); [|done|].
  - apply inv_calls; [done|..].
    + eapply Forall_impl; [exact Hl|]. by intros e [path ->].
    + eapply Forall_impl; [exact Hl|]. by intros e [path ->].
    + split; cbn; try done. by rewrite Hm.
  - destruct res; [destruct Hres as [_ ->]; done|].
    destruct Hres as (reactor & work & [= <-] & Hwork & ->). exists work. by rewrite H1.
Qed.

(** What a turn over a request achieves: [Return] leaves the reactor settled,
    otherwise the connection is still there and more output is queued. *)
Definition served p (fd : Z) (size : Z) (r : flow) (s : Reactor) (w : history) : Prop :=
  match r with
  | Return => inv p ∅ s w
  | _ => ∃ c st, inv p {[ fd ]} s w ∧ at_fd fd c st s ∧ working c st ∧ size < output_queue_size c
  end.

Lemma fail_return p X fd size s w :
  inv p X s w → X ⊆ {[ fd ]} → runs (λ _, fail fd ;; mret Return) (served p fd size) s w.
Proof.
  intros H HX. runs_step. eapply fail_runs; [done|done|exact H|done|]. intros s' w' H' _. by apply runs_ret.
Qed.

Lemma pending_runs p fd c st s w size :
  inv p {[ fd ]} s w → at_fd fd c st s → input_ok c →
  runs (λ _, on_state fd (λ st, st <| redis_pending := true |>) ;;
    refreshDeadline fd REQUEST_TIMEOUT_SECONDS ;; updateEvents fd EPOLLRDHUP ;; mret Return)
    (λ r s' w', served p fd size r s' w' ∧ r = Return ∧
       (connections s' !! fd = None ∨
        ∀ closes a, awaited s' (mk_completion fd (generation st) closes a) = Some c)) s w.
Proof.
  intros H Hat Hin. pose proof (elem_of_singleton_2 (C := gset Z) fd fd eq_refl) as Hfd.
  runs_step. eapply on_state_runs; [done|done|exact H|done|exact Hat|done|]. intros s1 H1 Hat1 _.
  runs_step. eapply refreshDeadline_runs; [done|done|exact H1|done|exact Hat1|]. intros s2 w2 d H2 _ Hat2.
  runs_step. eapply updateEvents_runs; [done|done|exact H2|exact Hat2|done|done|].
  intros s3 l3 H3 Hs3. apply runs_ret. split_and!; [done..|].
  destruct (connections s3 !! fd) as [c3|] eqn:Hc; [right|by left]. intros closes a.
  destruct Hs3 as (-> & _ & st3 & Hst3 & Hp & Hg). unfold awaited, isGenerationCurrent. cbn. rewrite Hc, Hst3, Hp, Hg.
  cbn. by rewrite Z.eqb_refl.
Qed.

(** The end of a request that has been answered at once. *)
Lemma answered_runs p fd c st size s w :
  inv p {[ fd ]} s w → at_fd fd c st s → input_ok c → redis_pending st = false →
  hasPendingOutput c = true → size < output_queue_size c →
  runs (λ _, on_connection fd Connection.consumeParsedBytes ;; on_connection fd Connection.resetParser ;;
    refreshDeadline fd KEEP_ALIVE_TIMEOUT_SECONDS ;;
    close ← on_connection fd (gets Connection.shouldCloseAfterWrite);
    mret (if close then Break else Continue)) (served p fd size) s w.
Proof.
  intros H Hat Hin Hpend Hout Hsize. pose proof (elem_of_singleton_2 (C := gset Z) fd fd eq_refl) as Hfd.
  eapply next_request_runs; [exact H|done|exact Hat|done|].
  intros s1 c1 H1 Hat1 Hin1 [Hq1 Hs1].
  runs_step. eapply refreshDeadline_runs; [done|done|exact H1|done|exact Hat1|]. intros s2 w2 d H2 _ Hat2.
  runs_step. eapply on_gets_runs; [exact Hat2|]. apply runs_ret.
  assert (hasPendingOutput c1 = true) as Ho by (unfold hasPendingOutput in *; by rewrite Hq1).
  destruct (Connection.shouldCloseAfterWrite c1); exists c1, (st <| deadline := d |>);
    (split_and!; [done|done| |lia]); split_and!; try done; by rewrite Ho.
Qed.

(** What has become of a request: answered, or handed over to the pool. *)
Definition decided p (fd : Z) (c : Connection) (st : ConnectionState) s (r : flow) s' w' : Prop :=
  served p fd (output_queue_size c) r s' w' ∨
  ∃ p', served p' fd (output_queue_size c) r s' w' ∧ r = Return ∧
    handed_over fd c st
      (HttpRequest.hasHeaderToken (Connection.getRequest c) (lit "Connection") (lit "close")) s s'.

Lemma serve_request_runs p fd c st s w :
  inv p {[ fd ]} s w → at_fd fd c st s → working c st →
  runs (λ _, serve_request fd) (decided p fd c st s) s w.
Proof.
  intros H Hat (Hin & Hpend & Hev). pose proof (elem_of_singleton_2 (C := gset Z) fd fd eq_refl) as Hfd.
  pose proof (inv_pool _ _ _ _ _ _ _ H) as Hpool.
  unfold serve_request. runs_step. eapply on_gets_runs; [exact Hat|].
  runs_step. eapply now_runs; [done|exact H|]. intros t w0 H0 _. clear w H.
  runs_step. eapply on_state_runs; [done|done|exact H0|done|exact Hat|done|]. clear H0 Hat. intros s0 H Hat Hid0.
  runs_step. eapply metric_runs; [exact H|done|]. intros s1 H1 Hsame. pose proof (at_same _ _ _ _ _ Hsame Hat) as Hat1.
  assert (id s1 = id s) as Hid by (destruct Hsame as (_ & _ & ->); done).
  clear s0 H Hat Hsame Hid0. cbv zeta. runs_step. eapply state_of_runs; [exact Hat1|]. runs_step. runs_step.
  runs_step. eapply handle_runs; [exact H1|exact Hat1|]. clear w0 H1 Hat1. intros res r s2 w p' H Hat Hp.
  case_bool_decide as Hres.
  { subst res. destruct Hp as (work & Hwork & Hp). rewrite Hid in Hp.
    eapply next_request_runs; [exact H|done|exact Hat|done|]. intros s3 c3 H3 Hat3 Hin3 Hsame3.
    eapply runs_mono; [|by eapply pending_runs]. intros r' s4 w4 (Hs & -> & Hw). right. exists p'.
    split_and!; [done|done|]. exists work. split_and!; [done| |].
    - rewrite Hpool. rewrite <- Hp. apply (inv_pool _ _ _ _ _ _ _ Hs).
    - destruct Hw as [?|Hw]; [by left|right]. exists c3. split; [done|]. intros a. apply Hw. }
  destruct res; [|done]. subst p'. clear Hres Hid.
  eapply (runs_mono _ (served p fd (output_queue_size c))); [by left|].
  runs_step. eapply record_latency_runs; [done|done|exact H|done|exact Hat|].
  intros s3 w3 b H3 _ Hat3. clear s2 w H Hat.
  runs_step. eapply set_close_runs; [exact H3|done|exact Hat3|]. clear s3 H3 Hat3. intros s3 c1 H Hat Hp1 Hr1 [_ Hs1] _.
  generalize (if HttpRequest.hasHeaderToken (Connection.getRequest c) (lit "Connection") (lit "close")
    then HttpResponse.setConnection (lit "close") r else r). intros response. runs_step.
  eapply queue_response_runs; [exact H|done|exact Hat|apply serialize_nonempty| |].
  2:{ intros s4 H4 _. by eapply fail_return. }
  clear s3 H Hat. intros s3 c2 H Hat Hp2 Hr2 _ Hq2 Hs2. cbn [negb]. runs_step.
  assert (hasPendingOutput c2 = true) as Hpend2 by (unfold hasPendingOutput; rewrite Hq2; by destruct (output_queue c1)).
  destruct (_ && _) eqn:Hfile.
  - bool_prop. eapply queue_file_runs; [exact H|done|exact Hat|lia| |].
    + intros s4 c4 w4 H4 Hat4 Hp4 Hr4 Ho4 Hs4. eapply answered_runs; [exact H4|exact Hat4| |exact Hpend|done|lia].
      unfold input_ok. by rewrite Hp4, Hr4, Hp2, Hr2, Hp1, Hr1.
    + intros s4 w4 H4. by eapply fail_return.
  - apply runs_ret. eapply answered_runs; [exact H|exact Hat| |exact Hpend|done|lia].
    unfold input_ok. by rewrite Hp2, Hr2, Hp1, Hr1.
Qed.

(** What a loop over the requests or over the input achieves. *)
Definition worked (fd : Z) (r : flow) (s : Reactor) (w : history) : Prop :=
  match r with
  | Return => ∃ p, inv p ∅ s w
  | _ => ∃ p c st, inv p {[ fd ]} s w ∧ at_fd fd c st s ∧ working c st
  end.

Lemma fail_worked p X fd s w :
  inv p X s w → X ⊆ {[ fd ]} → runs (λ _, fail fd ;; mret Return) (worked fd) s w.
Proof.
  intros H HX. eapply runs_mono; [|by apply (fail_return p X fd 0)].
  intros [] s' w'; cbn; [..|by exists p]; intros (c & st & ? & ? & ? & _); by exists p, c, st.
Qed.

Lemma at_size p X fd c st s w :
  inv p X s w → at_fd fd c st s → 0 ≤ output_queue_size c ≤ Connection.MAX_OUTPUT_QUEUE_SIZE.
Proof.
  intros H [Hc _]. destruct (inv_each _ _ _ _ _ _ _ H fd c Hc) as (_ & Hwf & _). split.
  - rewrite (wf_total _ Hwf). apply total_size_nonneg, (wf_entries _ Hwf).
  - apply (wf_limit _ Hwf).
Qed.

(** Every request that is answered at once takes room in the output queue. *)
Lemma serve_requests_runs p fd c st s w :
  inv p {[ fd ]} s w → at_fd fd c st s → working c st →
  runs (λ fuel, serve_requests fuel fd) (worked fd) s w.
Proof.
  assert (∃ b, Connection.MAX_OUTPUT_QUEUE_SIZE - output_queue_size c < Z.of_nat b) as [b Hb].
  { exists (S (Z.to_nat (Connection.MAX_OUTPUT_QUEUE_SIZE - output_queue_size c))). lia. }
  pose proof (elem_of_singleton_2 (C := gset Z) fd fd eq_refl) as Hfd.
  revert p c st s w Hb. induction b as [|b IH]; intros p c st s w Hb H Hat Hw.
  { pose proof (at_size _ _ _ _ _ _ _ H Hat). lia. }
  apply runs_turn. cbn [serve_requests]. runs_step.
  eapply runs_mono; [|eapply (on_connection_runs F k Hk I Hlast (λ _, Connection.parseRequest)
    (λ r c' w', w' = w ∧ same_output c c' ∧ (failure r = false → input_ok c'))); [exact H|done|exact Hat|]].
  2:{ intros G Hwf HG Hw'. eapply runs_mono; [|apply parseRequest_runs; [done|apply Hw|exact HG|exact Hw']].
      cbn. by intros r c' w' (-> & Hm & Hs & _ & _ & _ & Hin). }
  cbn. intros r s1 w1 (c1 & H1 & Hat1 & -> & Hs1 & Hin1).
  destruct r; try (by eapply fail_worked).
  - specialize (Hin1 eq_refl). runs_step.
    eapply runs_mono; [|eapply (on_connection_runs F k Hk I Hlast (λ _, Connection.consumeParsedBytes)
      (λ _ c' w', w' = w ∧ same_output c1 c' ∧ input_ok c')); [exact H1|done|exact Hat1|]].
    2:{ intros G Hwf HG Hw'. eapply runs_mono; [|by apply consume_runs].
        cbn. by intros r c' w' (-> & Hm & Hs & _ & Hin' & _). }
    cbn. intros _ s2 w2 (c2 & H2 & Hat2 & -> & Hs2 & Hin2). apply runs_ret. exists p, c2, st.
    split_and!; try done. by eapply working_output, Hin2; [eapply working_output|].
  - specialize (Hin1 eq_refl). pose proof (working_output _ _ _ Hw Hs1 Hin1) as Hw1. runs_step.
    eapply runs_mono; [|by apply (serve_request_runs p fd c1 st)].
    intros r2 s2 w2 Hdecided. assert (∃ p2, served p2 fd (output_queue_size c1) r2 s2 w2) as [p2 Hserved].
    { destruct Hdecided as [?|(p2 & ? & _)]; by eexists. }
    destruct r2; cbn in Hserved.
    + destruct Hserved as (c2 & st2 & H2 & Hat2 & Hw2 & Hs2). destruct Hs1 as [_ Es1].
      apply (IH p2 c2 st2); [lia|done..].
    + destruct Hserved as (c2 & st2 & H2 & Hat2 & Hw2 & Hs2). apply runs_ret. by exists p2, c2, st2.
    + apply runs_ret. by exists p2.
Qed.

End Loop.

(** ** Input, completions and clients *)

Lemma inv_shift F k (I I' : history → Prop) p X s w : inv F k I p X s w → I' w → inv F k I' p X s w.
Proof. intros [? ? ? ? ? ? ? ? ?] ?. by split. Qed.

(** What is known of the history, and that a count has reached [d]. *)
Definition counting (J : history → Prop) (f : history → nat) (d : nat) (w : history) : Prop := (d ≤ f w)%nat ∧ J w.

Lemma lasting_deliveries J d : lasting J → lasting (counting J deliveries d).
Proof.
  intros HJ c a w Hc [Hd Hw]. split; [|by apply HJ]. cbn. destruct c; try done; destruct (delivers _ _); lia.
Qed.

Lemma lasting_accepted J d : lasting J → lasting (counting J Sys.accepted d).
Proof.
  intros HJ c a w Hc [Hd Hw]. split; [|by apply HJ]. cbn. destruct c; try done. destruct (_ =? _); lia.
Qed.

Lemma inv_uncount F k J f d p X s w : inv F k (counting J f d) p X s w → inv F k J p X s w.
Proof. intros H. eapply inv_shift; [exact H|]. by apply (inv_since _ _ _ _ _ _ _ H). Qed.

Lemma inv_count F k J f p X s w : inv F k J p X s w → inv F k (counting J f 0) p X s w.
Proof. intros H. eapply inv_shift; [exact H|]. split; [apply Nat.le_0_l|apply (inv_since _ _ _ _ _ _ _ H)]. Qed.

Lemma worked_uncount F k J f d fd r s w : worked F k (counting J f d) fd r s w → worked F k J fd r s w.
Proof.
  destruct r; cbn; [intros (p & c & st & H & Hr).. | intros [p H]]; apply inv_uncount in H; by eauto 10.
Qed.

Section Handlers.
Context {K : Kernel} {FK : FreshFds K} {HK : Honest K} {HI : IntFds K}.
Context (n : nat) {P : Patient K n} (m : nat) {Q : Paced K m} (b : nat) {B : Backlog K b}.
Context {T : Traversal Connection} {TS : Traversal ConnectionState}.
Context (F : gset Z) (k : Z) (Hk : 0 ≤ k < 2 ^ 63) (J : history → Prop) (HJ : lasting J).
Implicit Types (s : Reactor) (w : history) (X : gset Z).

Lemma serve_input_runs d p fd c st s w :
  inv F k (counting J deliveries d) p {[ fd ]} s w → at_fd fd c st s → working c st →
  runs (λ fuel, serve_input fuel fd) (worked F k J fd) s w.
Proof.
  assert (∃ x, x = m - d)%nat as [x Hx] by by eexists.
  pose proof (elem_of_singleton_2 (C := gset Z) fd fd eq_refl) as Hfd.
  revert d Hx p c st s w. induction x as [x IH] using lt_wf_ind. intros d -> p c st s w H Hat Hw.
  apply runs_turn. cbn [serve_input]. runs_step.
  eapply runs_mono; [|eapply (on_connection_runs F k Hk _ (lasting_deliveries J d HJ) Connection.read
    (λ r c' w', input_ok c' ∧ same_output c c' ∧
      (r = Connection.DataReceived → (d < m)%nat ∧ counting J deliveries (S d) w'))); [exact H|done|exact Hat|]].
  2:{ intros G Hwf HG Hw'. eapply runs_mono; [|apply (read_runs n G c w); [done|apply Hw|exact HG|exact Hw']].
      cbn. intros r c' w' (Hm & Hin & Hs & _ & Hdel). split; [done|]. split_and!; [done..|]. intros Hr.
      destruct (Hdel Hr) as ([cl a] & w1 & -> & He & Ha & Hle). cbn in He, Ha.
      pose proof (inv_since _ _ _ _ _ _ _ H) as [Hd HJw].
      assert (deliveries w1 < m)%nat.
      { destruct (decide (m ≤ deliveries w1)%nat) as [Hge|]; [|lia].
        pose proof (paced w1 cl Hge) as Hno. rewrite <- Ha in Hno. congruence. }
      split; [lia|].
      split; [cbn; rewrite He; destruct cl; try done; lia|]. destruct Hm as [_ _ _ _ (l & El & Hl)].
      rewrite El.       by apply lasting_plain. }
  cbn. intros r s1 w1 (c1 & H1 & Hat1 & Hin1 & Hs1 & Hdel).
  pose proof (working_output _ _ _ Hw Hs1 Hin1) as Hw1.
  destruct r.
  - destruct (Hdel eq_refl) as [Hlt Hd1]. runs_step.
    eapply refreshDeadline_runs; [exact Hk|by apply lasting_deliveries|
      eapply inv_shift; [exact H1|exact Hd1]|done|exact Hat1|]. intros s2 w2 t H2 _ Hat2.
    runs_step. eapply runs_mono; [|eapply serve_requests_runs; [exact Hk|by apply lasting_deliveries|exact H2|exact Hat2|done]].
    assert (∀ p c st s w, inv F k (counting J deliveries (S d)) p {[fd]} s w → at_fd fd c st s → working c st →
      runs (λ fuel, close ← on_connection fd (gets Connection.shouldCloseAfterWrite);
        if close then mret Break else serve_input fuel fd) (worked F k J fd) s w) as Hnext.
    { clear - FK HK HI HJ IH Hlt Hfd Hk Q. intros p c st s w H Hat Hw. runs_step.
      eapply on_gets_runs; [exact Hat|].
      destruct (Connection.shouldCloseAfterWrite c).
      - apply runs_ret. exists p, c, st. split_and!; [by eapply inv_uncount|done|done].
      - eapply IH; [|done|exact H|exact Hat|done]. lia. }
    cbn. intros [] s3 w3 Hworked; cbn in Hworked.
    + destruct Hworked as (? & ? & ? & H3 & Hat3 & Hw3). by eapply Hnext.
    + destruct Hworked as (? & ? & ? & H3 & Hat3 & Hw3). by eapply Hnext.
    + apply runs_ret. by apply (worked_uncount F k J _ _ fd Return) in Hworked.
  - runs_step. eapply removeConnection_runs; [exact Hk|by apply lasting_deliveries|exact H1|done|].
    intros s2 w2 H2 _. apply runs_ret. exists p. by eapply inv_uncount.
  - eapply runs_mono; [|eapply fail_worked; [exact Hk|by apply lasting_deliveries|exact H1|done]].
    intros r s2 w2. apply worked_uncount.
  - eapply runs_mono; [|eapply fail_worked; [exact Hk|by apply lasting_deliveries|exact H1|done]].
    intros r s2 w2. apply worked_uncount.
  - apply runs_ret. exists p, c1, st. split_and!; [by eapply inv_uncount|done|done].
Qed.

Abbreviation done_ := (λ (_ : ()) s w, ∃ p, inv F k J p ∅ s w).

Lemma inv_enter p fd c st s w :
  inv F k J p ∅ s w → at_fd fd c st s → redis_pending st = false →
  inv F k J p {[ fd ]} s w ∧ working c st.
Proof using Type.
  intros H Hat Hp. split; [eapply inv_weaken; [|exact H]; apply empty_subseteq|].
  destruct (inv_settled _ _ _ _ _ _ _ H fd c st) as [Hin He]; [apply not_elem_of_empty|apply Hat..|].
  split_and!; [done..|]. intros Ho. rewrite He by done. unfold wanted_events. by rewrite Ho.
Qed.

Lemma working_settled c st : working c st → hasPendingOutput c = false → settled c st.
Proof. intros (Hin & Hp & He) Ho. split; [done|]. intros _. rewrite He by done. unfold wanted_events. by rewrite Ho. Qed.

Lemma handleClient_runs p fd s w : inv F k J p ∅ s w → runs (λ fuel, handleClient fuel fd) done_ s w.
Proof.
  intros H. unfold handleClient. runs_step. runs_step.
  destruct (connections s !! fd) as [c|] eqn:Hc; [|apply runs_ret; by exists p].
  destruct (at_some _ _ _ _ _ _ _ _ _ H Hc) as [st Hat]. runs_step. runs_step. rewrite (proj2 Hat).
  destruct (redis_pending st) eqn:Hp; [apply runs_ret; by exists p|].
  destruct (inv_enter p fd c st s w H Hat Hp) as [H1 Hw]. runs_step.
  eapply runs_mono; [|eapply (serve_input_runs 0); [by apply inv_count|exact Hat|exact Hw]].
  assert (∀ p c st s w, inv F k J p {[ fd ]} s w → at_fd fd c st s → working c st →
    runs (λ fuel, found ← gets (λ s, connections s !! fd);
      match found with
      | None => mret ()
      | Some connection => if hasPendingOutput connection then handleWrite fuel fd else mret ()
      end) done_ s w) as Hend.
  { clear - FK HK HI HJ P Hk. intros p c st s w H Hat Hw. runs_step. runs_step. rewrite (proj1 Hat).
    destruct (hasPendingOutput c) eqn:Ho.
    - eapply (flush_runs F k Hk _ HJ n); [exact H|exact Hat|apply Hw|done|]. intros s' w' H' _. by exists p.
    - apply runs_ret. exists p. apply (inv_close _ _ _ _ fd); [done|]. intros c' st' [Hc' Hst'].
      destruct Hat as [Hc Hst]. simplify_eq. by apply working_settled. }
  cbn. intros [] s2 w2 Hworked; cbn in Hworked; [..|by apply runs_ret];
    destruct Hworked as (? & ? & ? & H2 & Hat2 & Hw2); by eapply Hend.
Qed.

(** ** Deferred responses *)

(** [conn] with the response behind what it had to send. *)
Definition responded (c : Completion) (conn q : Connection) : Prop :=
  output_queue q =
    output_queue conn ++ [Connection.mk_output Connection.Memory (serialize (response_of c)) 0 (-1) 0] ∧
  Connection.fd q = client c ∧
  Connection.parser q = Connection.parser conn ∧ Connection.receive_buffer q = Connection.receive_buffer conn ∧
  Connection.close_after_write q = closing c || Connection.close_after_write conn.

Definition completed (c : Completion) s w s' w' : Prop :=
  match awaited s c with
  | None => s' = s ∧ w' = w
  | Some conn => ∃ l, w' = l ++ w ∧
      match connections s' !! client c with
      | Some conn' => awaited s' c = None ∧ ∃ q, responded c conn q ∧ progress q l conn'
      | None =>
          HttpResponse.hasFile (response_of c) = true ∨
          Connection.MAX_OUTPUT_QUEUE_SIZE < output_queue_size conn + len (serialize (response_of c)) ∨
          closing c = true ∨ Connection.close_after_write conn = true ∨ broken l
      end
  end.

Lemma completeAsyncResponse_runs p c s w (R : () → Reactor → history → Prop) :
  inv F k J p ∅ s w → (∀ s' w', inv F k J p ∅ s' w' → completed c s w s' w' → R () s' w') →
  runs (λ fuel, completeAsyncResponse fuel c) R s w.
Proof using FK HK HI P Hk HJ.
  intros H HR. unfold completeAsyncResponse, completed, awaited in *. set (fd := client c) in *.
  pose proof (elem_of_singleton_2 (C := gset Z) fd fd eq_refl) as Hfd. runs_step. runs_step.
  destruct (connections s !! fd) as [c0|] eqn:Hc; [|apply runs_ret; by apply HR].
  destruct (at_some _ _ _ _ _ _ _ _ _ H Hc) as [st Hat]. runs_step. runs_step. rewrite (proj2 Hat) in *.
  destruct (isGenerationCurrent st (issued c)); cbn [negb andb] in *; [|apply runs_ret; by apply HR].
  destruct (redis_pending st) eqn:Hp; cbn [negb] in *; [|apply runs_ret; by apply HR].
  destruct (inv_settled _ _ _ _ _ _ _ H fd c0 st) as [Hin _]; [apply not_elem_of_empty|apply Hat..|].
  destruct (inv_each _ _ _ _ _ _ _ H fd c0 Hc) as (Hfd0 & _).
  apply (inv_weaken F k J p ∅ {[ fd ]}) in H; [|apply empty_subseteq]. clear Hc Hp.
  runs_step. eapply record_latency_runs; [exact Hk|done|exact H|done|exact Hat|].
  intros s1 w1 b1 H1 Hw1 Hat1. clear H Hat. 
  runs_step. eapply on_state_runs; [exact Hk|done|exact H1|done|exact Hat1|done|].
  clear H1 Hat1. intros s2 H1 Hat1 _. clear s1. rename s2 into s1.
  runs_step. eapply set_close_runs; [exact Hk|done|exact H1|done|exact Hat1|].
  clear s1 H1 Hat1. intros s1 c1 H1 Hat1 Hp1 Hr1 [Ho1 Hs1] Hc1.
  cbv zeta. change (if closing c then HttpResponse.setConnection (lit "close") (answer c) else answer c)
    with (response_of c) in *.
  assert (∀ s' l, inv F k J p ∅ s' (l ++ w1) → connections s' !! fd = None →
    HttpResponse.hasFile (response_of c) = true ∨
    Connection.MAX_OUTPUT_QUEUE_SIZE < output_queue_size c0 + len (serialize (response_of c)) → R () s' (l ++ w1)) as Hgone.
  { intros s' l H' Hs' Hwhy. apply HR; [done|]. destruct Hw1 as (l1 & -> & _). exists (l ++ l1).
    split; [by rewrite app_assoc|]. rewrite Hs'. tauto. }
  destruct (HttpResponse.hasFile (response_of c)).
  { eapply fail_runs; [exact Hk|done|exact H1|done|]. intros s' l H' Hs'.
    apply Hgone; [done|by rewrite Hs', lookup_delete_eq|by left]. }
  runs_step. eapply queue_response_runs; [exact Hk|done|exact H1|done|exact Hat1|apply serialize_nonempty| |].
  2:{ intros s' H' Hlimit. cbn [negb]. eapply fail_runs; [exact Hk|done|exact H'|done|]. intros s2 l H2 Hs2.
    apply Hgone; [done|by rewrite Hs2, lookup_delete_eq|right]. unfold fd in *. by rewrite <- Hs1. }
  clear s1 H1 Hat1 Hgone. intros s1 c2 H1 Hat1 Hp2 Hr2 Hc2 Hq2 _. cbn [negb].
  runs_step. eapply refreshDeadline_runs; [exact Hk|done|exact H1|done|exact Hat1|].
  intros s2 w2 t H2 Hw2 Hat2.
  destruct (inv_each _ _ _ _ _ _ _ H2 fd c2 (proj1 Hat2)) as (Hfd2 & Hwf2 & _). pose proof (later_trans _ _ _ Hw1 Hw2) as (l2 & -> & Hl2).
  eapply (flush_runs F k Hk _ HJ n); [exact H2|exact Hat2| | |].
  - unfold input_ok. by rewrite Hp2, Hr2, Hp1, Hr1.
  - unfold hasPendingOutput. rewrite Hq2. by destruct (output_queue c1).
  - intros s3 w3 H3 (l3 & -> & Hs3). apply HR; [done|]. exists (l3 ++ l2). split; [by rewrite app_assoc|].
    destruct (connections s3 !! fd) as [c3|].
    + destruct Hs3 as (Hs3 & st3 & -> & Hst3 & _). cbn in Hst3. rewrite Hst3, andb_false_r.
      split; [done|]. exists c2. split.
      * unfold responded. rewrite Hq2, Ho1, Hp2, Hp1, Hr2, Hr1, Hc2, Hc1. by split_and!.
      * eapply progress_trans; [|exact Hs3]. by apply idle_progress.
    + rewrite Hc2, Hc1 in Hs3. destruct (closing c); [tauto|]. destruct Hs3 as [?|Hs3]; [tauto|].
      do 4 right. apply Exists_app. by left.
Qed.

(** Operations of the pool do not touch the connections. *)
Lemma on_pool_runs {A} (prog : nat → Prog (WorkerPool.WorkerPool Completion) A)
    (R : A → WorkerPool.WorkerPool Completion → Prop) (S : A → Reactor → history → Prop) p s w :
  inv F k J p ∅ s w →
  runs prog (λ a p' w', R a p' ∧ ∃ l, w' = l ++ w ∧ Forall (λ e, neutral e.1 = true) l ∧ Forall (λ e, plain e.1) l) p w →
  (∀ a p' s' w', inv F k J p' ∅ s' w' → id s' = id s → R a p' → S a s' w') →
  runs (λ fuel, on_pool (prog fuel)) S s w.
Proof.
  intros [H1 H2 H3 H4 H5 H6 H7 H8 H9] Hm HS. unfold on_pool, on_shared, HttpHandler.in_pool. runs_step. runs_step.
  rewrite H1. eapply runs_mono; [|exact Hm]. cbn. intros a p' w' (HR & l & -> & Hn & Hp).
  eapply HS; [|done|exact HR]. by apply inv_calls; [done..|].
Qed.

Lemma drain_event_runs fd (p : WorkerPool.WorkerPool Completion) w :
  runs (λ fuel, WorkerPool.drain_event fuel fd) (λ _ p' w', p' = p ∧
    ∃ l, w' = l ++ w ∧ Forall (λ e, neutral e.1 = true) l ∧ Forall (λ e, plain e.1) l) p w.
Proof.
  assert (∃ x, x = ((m - deliveries w) * S n + budget n w)%nat) as [x Hx] by by eexists.
  revert w Hx. induction x as [x IH] using lt_wf_ind. intros w ->.
  apply runs_turn. cbn [WorkerPool.drain_event]. runs_step. runs_step.
  set (e := sys_read fd 8). set (a := respond w e).
  pose proof (budget_le n w) as Hb. pose proof (budget_le n ((e, a) :: w)) as Hb'.
  assert (∀ y, y = ((m - deliveries ((e, a) :: w)) * S n + budget n ((e, a) :: w))%nat →
    (y < (m - deliveries w) * S n + budget n w)%nat →
    runs (λ fuel, WorkerPool.drain_event fuel fd) (λ _ p' w', p' = p ∧
      ∃ l, w' = l ++ w ∧ Forall (λ e, neutral e.1 = true) l ∧ Forall (λ e, plain e.1) l) p ((e, a) :: w)) as Hnext.
  { intros y Hy Hlt. eapply runs_mono; [|by apply (IH y)]. cbn. intros _ p' w' (-> & l & -> & Hn & Hp).
    split; [done|]. exists (l ++ [(e, a)]). rewrite <- app_assoc. split; [done|].
    split; apply Forall_app; (split; [done|by constructor]). }
  assert (∃ l, (e, a) :: w = l ++ w ∧ Forall (λ e, neutral e.1 = true) l ∧ Forall (λ e, plain e.1) l) as Hstop.
  { exists [(e, a)]. split; [done|]. by split; constructor. }
  destruct (Z.eqb_spec (ret a) 8) as [H8|H8].
  { eapply Hnext; [done|]. assert (deliveries ((e, a) :: w) = S (deliveries w)) as ->.
    { cbn. by rewrite H8. }
    destruct (decide (m ≤ deliveries w)%nat) as [Hge|]; [|nia].
    pose proof (paced w e Hge) as Hno. change (respond w e) with a in Hno. cbn in Hno. by rewrite H8 in Hno. }
  destruct (_ && (_ || _)); [by apply runs_ret|].
  destruct ((ret a =? -1) && (errno a =? EINTR)) eqn:Ei; [|by apply runs_ret].
  eapply Hnext; [done|]. pose proof (budget_interrupted n w e Ei) as Hlt. change (respond w e) with a in Hlt.
  assert (deliveries w ≤ deliveries ((e, a) :: w))%nat by (apply (deliveries_plain [(e, a)]); by constructor). nia.
Qed.

(** The completions in all channels. *)
Definition waiting (l : list (WorkerPool.CompletionChannel Completion)) : nat :=
  foldr Nat.add 0%nat ((λ c, length (WorkerPool.completions c)) <$> l).

Lemma waiting_pop (l : list (WorkerPool.CompletionChannel Completion)) i c x rest :
  l !! i = Some c → WorkerPool.completions c = x :: rest →
  (waiting (alter (λ c, c <| WorkerPool.completions := rest |>) i l) < waiting l)%nat.
Proof.
  unfold waiting. revert i. induction l as [|d l IH]; intros [|i] Hi Hx; try done; cbn in Hi |- *.
  - simplify_eq. rewrite Hx. cbn. lia.
  - specialize (IH i Hi Hx). cbn in IH. lia.
Qed.

Lemma popCompletion_runs reactor (p : WorkerPool.WorkerPool Completion) w :
  runs (λ _, WorkerPool.popCompletion reactor) (λ a p' w', (a ≠ None → (waiting (WorkerPool.channels p') < waiting (WorkerPool.channels p))%nat) ∧
    ∃ l, w' = l ++ w ∧ Forall (λ e, neutral e.1 = true) l ∧ Forall (λ e, plain e.1) l) p w.
Proof.
  assert (∃ l : history, w = l ++ w ∧ Forall (λ e, neutral e.1 = true) l ∧ Forall (λ e, plain e.1) l) as Hno.
  { by exists []. }
  unfold WorkerPool.popCompletion. runs_step. runs_step.
  destruct (WorkerPool.channel p reactor) as [c|] eqn:Hc; [|by apply runs_ret].
  destruct (WorkerPool.completions c) as [|x rest] eqn:Hx; [by apply runs_ret|].
  unfold WorkerPool.on_channel. runs_run. split; [|done]. intros _.
  unfold WorkerPool.channel in Hc. destruct (_ >=? _); [done|]. by eapply waiting_pop.
Qed.

Lemma run_completions_runs p s w : inv F k J p ∅ s w → runs (λ fuel, run_completions fuel) done_ s w.
Proof.
  assert (∃ x, x = waiting (WorkerPool.channels p)) as [x Hx] by by eexists.
  revert p s w Hx. induction x as [x IH] using lt_wf_ind. intros p s w -> H.
  apply runs_turn. cbn [run_completions]. runs_step. runs_step. runs_step.
  eapply (on_pool_runs (λ _, WorkerPool.popCompletion (id s))); [exact H|apply popCompletion_runs|].
  cbn. intros [c|] p' s' w' H' Hid Hlt; [|apply runs_ret; by exists p']. specialize (Hlt ltac:(done)).
  runs_step. eapply completeAsyncResponse_runs; [exact H'|]. intros s2 w2 H2 _.
  by eapply IH.
Qed.

Lemma handleCompletions_runs p s w : inv F k J p ∅ s w → runs (λ fuel, handleCompletions fuel) done_ s w.
Proof.
  intros H. unfold handleCompletions. runs_step. runs_step. runs_step.
  eapply (on_pool_runs (λ fuel, WorkerPool.consumeCompletionEvent fuel (id s)) (λ _ _, True)); [exact H| |].
  2:{ intros _ p' s' w' H' _. by apply run_completions_runs in H'. }
  assert (∃ l : history, w = l ++ w ∧ Forall (λ e, neutral e.1 = true) l ∧ Forall (λ e, plain e.1) l) as Hno.
  { by exists []. }
  unfold WorkerPool.consumeCompletionEvent. runs_step. runs_step.
  destruct (WorkerPool.channel p (id s)) as [c|]; [|by apply runs_ret].
  destruct (_ =? -1); [by apply runs_ret|]. eapply runs_mono; [|apply drain_event_runs].
  cbn. by intros _ p' w' [-> Hl].
Qed.

(** ** The timer *)

Lemma handleTimer_runs p s w : inv F k J p ∅ s w → runs (λ _, handleTimer) done_ s w.
Proof.
  intros H. unfold handleTimer. runs_step.
  assert (∀ w, inv F k J p ∅ s w → runs (λ _, removeExpiredConnections) done_ s w) as Hexp.
  { clear w H. intros w H. unfold removeExpiredConnections. runs_step. eapply now_runs; [done|exact H|].
    intros t w' H' _. runs_step. runs_step. set (fds := map fst _).
    eapply runs_mono; [|apply (runs_for_each (λ s w, inv F k J p ∅ s w)); [|exact H']].
    { cbv beta. intros _ s2 w2 H2. by exists p. }
    intros fd s2 w2 _ H2. cbv beta. runs_step. runs_step.
    destruct (connections s2 !! fd); [|by apply runs_ret].
    eapply removeConnection_runs; [exact Hk|done|exact H2|set_solver|]. by intros s3 w3 H3 _. }
  unfold on_timer, TimerFd.consume. runs_step. runs_step. runs_step.
  assert (s <| timer := timer s |> = s) as Es by by destruct s.
  destruct (Datatypes.id (timer s) =? -1).
  - apply runs_ret. rewrite Es. by apply Hexp.
  - runs_step. runs_step. apply runs_ret. rewrite Es. apply Hexp. by apply inv_call.
Qed.

(** ** New clients *)

(** A descriptor that has been opened but is not in the table yet belongs to the
    frame. *)
Lemma inv_accept I p s w l :
  inv F k I p ∅ s w →
  let a := respond w (sys_accept l) in
  ret a ≠ -1 → (I ((sys_accept l, a) :: w) : Prop) →
  (ret a ∉ F) ∧ connections s !! ret a = None ∧ 0 ≤ ret a < 2 ^ 31 ∧
  inv ({[ ret a ]} ∪ F) k I p ∅ s ((sys_accept l, a) :: w).
Proof.
  intros [H1 H2 H3 H4 H5 (Ho1 & Ho2 & Ho3) H7 H8 H9] a Ha HIw.
  assert (opened (sys_accept l, a) = Some (ret a)) as Hop by (cbn; by rewrite (proj2 (Z.eqb_neq _ _))).
  destruct (FK w _ _ Hop) as [Hpos Hnew]. pose proof (HI w _ _ Hop) as Hint.
  destruct Ho3 as [Hopen Honce]. rewrite Hopen in Hnew. apply not_elem_of_union in Hnew as [HnF Hnh].
  rewrite elem_of_list_to_set in Hnh.
  assert (connections s !! ret a = None) as Hnone.
  { destruct (connections s !! ret a) as [c|] eqn:E; [|done]. exfalso. apply Hnh.
    rewrite (held_delete _ _ _ E). by left. }
  split_and!; try done. split; try done. split_and!; [done| |].
  - intros x Hx1 Hx2. apply elem_of_union in Hx1 as [->%elem_of_singleton|Hx1]; [|by apply (Ho2 x)].
    by rewrite elem_of_list_to_set in Hx2.
  - replace ({[ret a]} ∪ F ∪ list_to_set (held (connections s))) with
      ({[ret a]} ∪ (F ∪ list_to_set (held (connections s)))) by (clear; set_solver).
    by apply holds_open.
Qed.

Lemma inv_refuse I p fd s w a :
  lasting I → (fd ∉ F) → connections s !! fd = None → inv ({[ fd ]} ∪ F) k I p ∅ s w →
  inv F k I p ∅ s ((sys_close fd, a) :: w).
Proof.
  intros HL HF Hnone [H1 H2 H3 H4 H5 (Ho1 & Ho2 & Ho3) H7 H8 H9]. split; try done; [|by apply HL].
  split_and!; [done|clear - Ho2; set_solver|].
  apply (holds_close _ fd a) in Ho3; [|clear; set_solver].
  replace (({[fd]} ∪ F ∪ list_to_set (held (connections s))) ∖ {[fd]}) with
    (F ∪ list_to_set (held (connections s))) in Ho3; [done|].
  clear - HF Ho2. set_solver.
Qed.

Lemma inv_admit I p fd s w st g :
  lasting I → (fd ∉ F) → 0 ≤ fd < 2 ^ 31 → connections s !! fd = None → inv ({[ fd ]} ∪ F) k I p ∅ s w →
  registered fd w = Some (current_events st) → current_events st = Z.lor EPOLLIN EPOLLRDHUP →
  inv F k I p ∅ (s <| next_connection_generation := g |>
    <| connections := <[fd := Connection.construct fd (id s)]> (connections s) |>
    <| shared := shared s <| metrics := Metrics.incrementActiveConnections (metrics (shared s)) |> |>
    <| connection_states := <[fd := st]> (connection_states s) |>) w.
Proof.
  intros HL HF Hrange Hnone [H1 H2 H3 H4 H5 (Ho1 & Ho2 & Ho3) H7 H8 H9] Hreg Hev.
  assert (Z.of_nat (size (connections s)) ≤ 2 ^ 31) as Hsize.
  { apply size_bounded. intros x [c Hx]%elem_of_dom. by apply (H4 x c). }
  assert (input_ok (Connection.construct fd (id s))) as Hin by (apply wf_init; done).
  split; cbn -[Z.lor]; try done.
  - by rewrite !dom_insert_L, H3.
  - apply map_Forall_insert_2; [|done]. split_and!; [done| |lia|lia].
    split; cbn; try done; by constructor.
  - rewrite map_size_insert, Hnone. unfold add64. rewrite H5. rewrite Z.mod_small; unfold U64; lia.
  - apply (owns_insert F _ fd); [done|]. split; cbn; try done.
    + intros Hin'. apply (Ho2 fd); [set_solver|]. by rewrite elem_of_list_to_set.
    + constructor.
    + clear - Ho2. set_solver.
    + unfold files, frame. cbn. rewrite union_empty_r_L.
      by replace (F ∪ {[fd]} ∪ list_to_set (held (connections s))) with
        ({[fd]} ∪ F ∪ list_to_set (held (connections s))) by (clear; set_solver).
  - intros fd' st'. destruct (decide (fd' = fd)) as [->|Hne].
    + rewrite lookup_insert_eq. by intros [= <-].
    + rewrite lookup_insert_ne by done. apply H7.
  - intros fd' c' st' _. destruct (decide (fd' = fd)) as [->|Hne].
    + rewrite !lookup_insert_eq. intros [= <-] [= <-]. by split.
    + rewrite !lookup_insert_ne by done. by apply (H8 fd').
Qed.

Lemma accept_client_runs I p fd s w :
  lasting I → (fd ∉ F) → 0 ≤ fd < 2 ^ 31 → connections s !! fd = None → inv ({[ fd ]} ∪ F) k I p ∅ s w →
  runs (λ _, accept_client fd) (λ _ s' w', inv F k I p ∅ s' w') s w.
Proof.
  intros HL HF Hrange Hnone H. unfold accept_client.
  assert (∀ w, inv ({[ fd ]} ∪ F) k I p ∅ s w → runs (λ _, sys (sys_close fd) ;; mret ())
    (λ _ s' w', inv F k I p ∅ s' w') s w) as Hrefuse.
  { clear w H. intros w H. runs_run. by apply inv_refuse. }
  runs_step. eapply runs_mono; [|apply (runs_total (Socket.setNonBlocking fd)
    (λ _ s' w', s' = s ∧ inv ({[ fd ]} ∪ F) k I p ∅ s' w'))].
  2:{ unfold Socket.setNonBlocking. cbv zeta. unfold returns, bind, sys. destruct (_ =? _); by eexists. }
  2:{ unfold Socket.setNonBlocking. cbv zeta. wp_run; (split; [done|]); by repeat apply inv_call. }
  cbn. intros b1 s1 w1 [-> H1]. destruct b1; cbn [negb]; [|by apply Hrefuse].
  unfold Socket.setNoDelay. runs_step. runs_step. runs_step. apply runs_ret.
  apply (inv_call _ _ _ HL _ _ _ _ (sys_setsockopt fd TCP_NODELAY) (respond w1 (sys_setsockopt fd TCP_NODELAY))) in H1; [|done..].
  destruct (negb (negb _)); [by apply Hrefuse|]. revert H1. generalize ((sys_setsockopt fd TCP_NODELAY, respond w1 (sys_setsockopt fd TCP_NODELAY)) :: w1).
  clear w1 w H. intros w2 H1.
  unfold Epoll.add. runs_step. runs_step. runs_step. apply runs_ret.
  set (e := sys_epoll_ctl EPOLL_CTL_ADD fd (Z.lor EPOLLIN EPOLLRDHUP)). set (a := respond w2 e).
  assert (inv ({[ fd ]} ∪ F) k I p ∅ s ((e, a) :: w2)) as H2.
  { destruct H1 as [H1 H2 H3 H4 H5 (Ho1 & Ho2 & Ho3) H7 H8 H9]. split; try done; [..|by apply HL].
    - split_and!; try done. by apply holds_neutral.
    - intros fd' st Hst. cbn [registered e]. destruct (Z.eqb_spec fd fd') as [<-|]; [|by apply H7].
      exfalso. apply elem_of_dom_2 in Hst. rewrite <- H3 in Hst. by apply elem_of_dom in Hst as [? ?]; congruence. }
  destruct (Z.eqb_spec (ret a) (-1)) as [Ha|Ha]; cbn [negb]; [by apply Hrefuse|].
  unfold assign_connection, metric, on_shared, now. runs_step. runs_step. runs_step. runs_step. runs_step.
  runs_step. runs_step. cbn [connections set_with]. rewrite Hnone. runs_run.
  apply (inv_call _ _ _ HL _ _ _ _ sys_now (respond ((e, a) :: w2) sys_now)) in H2; [|done..].
  apply (inv_admit I p fd s _ (mk_state _ 0 _ false false (Z.lor EPOLLIN EPOLLRDHUP)) _); try done.
  cbn. rewrite Z.eqb_refl. by rewrite (proj2 (Z.eqb_neq _ _)) by done.
Qed.

Lemma handleAccept_runs d p s w :
  inv F k (counting J Sys.accepted d) p ∅ s w → runs (λ fuel, handleAccept fuel) done_ s w.
Proof.
  assert (∃ x, x = ((b - d) * S n + budget n w)%nat) as [x Hx] by by eexists.
  revert d p s w Hx. induction x as [x IH] using lt_wf_ind. intros d p s w -> H.
  apply runs_turn. cbn [handleAccept]. runs_step. runs_step. runs_step. runs_step.
  set (e := sys_accept (listen_socket s)). set (a := respond w e).
  pose proof (budget_le n w) as Hb. pose proof (budget_le n ((e, a) :: w)) as Hb'.
  pose proof (inv_since _ _ _ _ _ _ _ H) as [Hd HJw].
  destruct (Z.eqb_spec (ret a) (-1)) as [Ha|Ha].
  - assert (inv F k (counting J Sys.accepted d) p ∅ s ((e, a) :: w)) as H1.
    { pose proof (lasting_accepted J d HJ) as HL. destruct H as [H1 H2 H3 H4 H5 (Ho1 & Ho2 & Ho3) H7 H8 H9].
      split; try done; [|by apply HL]. split_and!; try done. apply holds_open_failed; [|done|done].
      cbn. by rewrite Ha. }
    assert (done_ () s ((e, a) :: w)) as Hstop by (exists p; by eapply inv_uncount).
    destruct (_ || _); [by apply runs_ret|]. destruct (errno a =? EINTR) eqn:Ei; [|by apply runs_ret].
    eapply IH; [|done|exact H1]. assert (interrupted (respond w e) = true) as Hi.
    { change (respond w e) with a. unfold interrupted. by rewrite Ha, Ei. }
    pose proof (budget_interrupted n w e Hi) as Hlt. change (respond w e) with a in Hlt. lia.
  - assert (d < b)%nat as Hdb.
    { destruct (decide (b ≤ Sys.accepted w)%nat) as [Hge|]; [|lia]. by pose proof (backlog w (listen_socket s) Hge). }
    assert (counting J Sys.accepted (S d) ((e, a) :: w)) as Hd1.
    { split; [|by apply HJ]. cbn. rewrite (proj2 (Z.eqb_neq (ret a) (-1))) by done. lia. }
    destruct (inv_accept J p s w (listen_socket s)) as (HF & Hnone & Hrange & H1);
      [by eapply inv_uncount|done|by apply HJ|].
    change (respond w (sys_accept (listen_socket s))) with a in *. fold e in H1.
    runs_step. eapply runs_mono; [|eapply (accept_client_runs (counting J Sys.accepted (S d)));
      [by apply lasting_accepted|exact HF|exact Hrange|exact Hnone|by eapply inv_shift]].
    cbn. intros _ s2 w2 H2. eapply IH; [|done|exact H2]. pose proof (budget_le n w2). nia.
Qed.

(** ** Events *)

Lemma handleEvent_runs p e s w :
  inv F k J p ∅ s w → runs (λ fuel, handleEvent fuel e) done_ s w.
Proof.
  intros H. destruct e as [fd events]. unfold handleEvent. runs_step. runs_step.
  destruct (fd =? listen_socket s).
  { eapply (handleAccept_runs 0). by apply inv_count. }
  destruct (fd =? timer s); [by eapply handleTimer_runs|].
  destruct (fd =? completion_fd s); [by eapply handleCompletions_runs|].
  destruct (has events EPOLLERR).
  { eapply fail_runs; [exact Hk|done|exact H|set_solver|]. intros s1 w1 H1 _. by exists p. }
  destruct (has events EPOLLHUP).
  { eapply removeConnection_runs; [exact Hk|done|exact H|set_solver|]. intros s1 w1 H1 _. by exists p. }
  runs_step. apply runs_mono with (Q := done_).
  2:{ destruct (has events EPOLLIN); [by eapply handleClient_runs|apply runs_ret; by exists p]. }
  clear p s w H. intros _ s w [p H]. unfold has_connection. runs_step. runs_step.
  destruct (negb _); [apply runs_ret; by exists p|].
  runs_step. apply runs_mono with (Q := done_).
  2:{ destruct (has events EPOLLOUT); [|apply runs_ret; by exists p].
      eapply (handleWrite_runs F k Hk _ HJ n); [exact H|]. intros s' w' H'. by exists p. }
  clear p s w H. intros _ s w [p H]. runs_step. runs_step.
  destruct (connections s !! fd); [|apply runs_ret; by exists p].
  destruct (_ && _); [|apply runs_ret; by exists p].
  eapply removeConnection_runs; [exact Hk|done|exact H|set_solver|]. intros s1 w1 H1 _. by exists p.
Qed.

End Handlers.
