(* ===== verification/ReactTheorems.v ===== *)
(** * Properties of the reactor

    Every event leaves the tables, the count and the descriptors consistent and
    every connection watched; a run of the reactor ends after a signal and leaves
    nothing open; deferred responses go to the connection that asked for them. *)

From S2P Require Import Prelude.
From S2P Require Import Numerals.
From S2P Require Import Sys.
From S2P Require Import Progress.
From S2P Require Import Total.
From S2P Require Import Epoll.
From S2P Require Import Socket.
From S2P Require Import TimerFd.
From S2P Require Import Request.
From S2P Require Import Response.
From S2P Require Import Stats.
From S2P Require Import Parser.
From S2P Require Import ParserInv.
From S2P Require Import ParserStream.
From S2P Require Import Conn.
From S2P Require Import ConnFlow.
From S2P Require Import Pool.
From S2P Require Import Handler.
From S2P Require Import HandlerTheorems.
From S2P Require Import React.
From S2P Require Import ReactConn.
From S2P Require Import ReactInv.
From S2P Require Import ReactLoop.
Import HttpResponse (HttpResponse, serialize).
Import Metrics (Metrics, active_connections).
Import Connection (Connection, output_queue, output_queue_size, hasPendingOutput).
Import HttpHandler (Shared, pool, metrics, Completed, Pending).
Import Reactor.

(** ** The reactor's own members *)

Definition members (s : Reactor) : Z * Z * Z * Z * Z :=
  (id s, listen_socket s, epoll s, timer s, completion_fd s).

Section Members.
Context {K : Kernel} {T : Traversal Connection} {TS : Traversal ConnectionState}.
Abbreviation stays := (leaves members).

Lemma stays_on_connection {A} fd (m : Prog Connection A) : stays (on_connection fd m).
Proof.
  intros s w a s' w'. unfold on_connection. destruct (connections s !! fd) as [c|]; [|done].
  destruct (m c w) as [[[b c'] w1]|]; [|done]. by intros [= <- <- <-].
Qed.

Lemma stays_on_state fd f : stays (on_state fd f).
Proof. intros s w a s' w'. unfold on_state. case_match; [|done]. by intros [= <- <- <-]. Qed.

Lemma stays_state_of fd : stays (state_of fd).
Proof. intros s w a s' w'. unfold state_of. case_match; [|done]. by intros [= <- <- <-]. Qed.

Lemma stays_destroy c : stays (destroy c).
Proof. intros s w a s' w'. unfold destroy. case_match; [|done]. case_match. case_match. by intros [= <- <- <-]. Qed.

Lemma stays_consume : stays (on_timer TimerFd.consume).
Proof.
  intros s w a s' w'. unfold on_timer, zoom, TimerFd.consume, bind, gets. destruct (_ =? -1); by intros [= <- <- <-].
Qed.

#[local] Hint Resolve stays_on_connection stays_on_state stays_state_of stays_destroy stays_consume : leaves.

Lemma stays_metric f : stays (metric f).
Proof. unfold metric, on_shared. leaves_run. Qed.

Lemma stays_now : stays now.
Proof. unfold now. leaves_run. Qed.

Lemma stays_on_shared {A} (m : Prog (Shared Completion) A) : stays (on_shared m).
Proof. unfold on_shared. leaves_run. Qed.

#[local] Hint Resolve stays_metric stays_now stays_on_shared : leaves.

Lemma stays_removeConnection fd : stays (removeConnection fd).
Proof. unfold removeConnection, Epoll.remove. leaves_run. Qed.
#[local] Hint Resolve stays_removeConnection : leaves.

Lemma stays_updateEvents fd events : stays (updateEvents fd events).
Proof. unfold updateEvents, Epoll.modify. leaves_run. Qed.

Lemma stays_refreshDeadline fd t : stays (refreshDeadline fd t).
Proof. unfold refreshDeadline. leaves_run. Qed.

Lemma stays_record_latency fd : stays (record_latency fd).
Proof. unfold record_latency. leaves_run. Qed.

Lemma stays_fail fd : stays (fail fd).
Proof. unfold fail. leaves_run. Qed.
#[local] Hint Resolve stays_updateEvents stays_refreshDeadline stays_record_latency stays_fail : leaves.

Lemma stays_handleWrite fuel fd : stays (handleWrite fuel fd).
Proof. unfold handleWrite. leaves_run. Qed.
#[local] Hint Resolve stays_handleWrite : leaves.

Lemma stays_completeAsyncResponse fuel c : stays (completeAsyncResponse fuel c).
Proof. unfold completeAsyncResponse. leaves_run. Qed.
#[local] Hint Resolve stays_completeAsyncResponse : leaves.

Lemma stays_handleCompletions fuel : stays (handleCompletions fuel).
Proof.
  unfold handleCompletions, on_pool. apply leaves_bind; [apply leaves_gets|intros i].
  apply leaves_bind; [auto with leaves|intros _]. generalize fuel. clear.
  induction fuel as [|fuel IH]; cbn [run_completions]; [apply leaves_exhausted|]. unfold on_pool. leaves_run.
Qed.

Lemma stays_accept_client fd : stays (accept_client fd).
Proof. unfold accept_client, Socket.setNonBlocking, Socket.setNoDelay, Epoll.add, assign_connection. leaves_run. Qed.
#[local] Hint Resolve stays_accept_client : leaves.

Lemma stays_handleAccept fuel : stays (handleAccept fuel).
Proof. induction fuel as [|fuel IH]; cbn [handleAccept]; [apply leaves_exhausted|]. leaves_run. Qed.

Lemma stays_serve_request fd : stays (serve_request fd).
Proof. unfold serve_request. leaves_run. Qed.
#[local] Hint Resolve stays_serve_request : leaves.

Lemma stays_serve_requests fuel fd : stays (serve_requests fuel fd).
Proof. induction fuel as [|fuel IH]; cbn [serve_requests]; [apply leaves_exhausted|]. leaves_run. Qed.
#[local] Hint Resolve stays_serve_requests : leaves.

Lemma stays_handleClient fuel fd : stays (handleClient fuel fd).
Proof.
  assert (∀ fuel, stays (serve_input fuel fd)) as H.
  { clear fuel. induction fuel as [|fuel IH]; cbn [serve_input]; [apply leaves_exhausted|]. leaves_run. }
  unfold handleClient. leaves_run.
Qed.
#[local] Hint Resolve stays_handleClient stays_handleCompletions stays_handleAccept : leaves.

Lemma stays_handleEvent fuel e : stays (handleEvent fuel e).
Proof. unfold handleEvent, handleTimer, removeExpiredConnections, has_connection. leaves_run. Qed.

End Members.

(** ** The other connections *)

Definition elsewhere (fd : Z) (s : Reactor) : gmap Z Connection * gmap Z ConnectionState :=
  (delete fd (connections s), delete fd (connection_states s)).

Section Elsewhere.
Context {K : Kernel} (fd : Z).
Abbreviation aside := (leaves (elsewhere fd)).

Lemma aside_on_connection {A} (m : Prog Connection A) : aside (on_connection fd m).
Proof.
  intros s w a s' w'. unfold on_connection. destruct (connections s !! fd) as [c|]; [|done].
  destruct (m c w) as [[[b c'] w1]|]; [|done]. intros [= <- <- <-]. unfold elsewhere. cbn.
  by rewrite delete_insert_eq.
Qed.

Lemma aside_on_state f : aside (on_state fd f).
Proof.
  intros s w a s' w'. unfold on_state. case_match; [|done]. intros [= <- <- <-].
  unfold elsewhere. cbn. by rewrite delete_insert_eq.
Qed.

Lemma aside_state_of : aside (state_of fd).
Proof. intros s w a s' w'. unfold state_of. case_match; [|done]. by intros [= <- <- <-]. Qed.

Lemma aside_destroy c : aside (destroy c).
Proof. intros s w a s' w'. unfold destroy. case_match; [|done]. case_match. case_match. by intros [= <- <- <-]. Qed.

#[local] Hint Resolve aside_on_connection aside_on_state aside_state_of aside_destroy : leaves.

Lemma aside_metric f : aside (metric f).
Proof. unfold metric, on_shared. leaves_run. Qed.

Lemma aside_now : aside now.
Proof. unfold now. leaves_run. Qed.
#[local] Hint Resolve aside_metric aside_now : leaves.

Lemma aside_removeConnection : aside (removeConnection fd).
Proof.
  unfold removeConnection, Epoll.remove.
  repeat (cbv beta zeta; first [progress leaves_step | apply leaves_modify; intros s; unfold elsewhere; cbn;
    by rewrite delete_delete_eq | solve [auto with leaves]]).
Qed.
#[local] Hint Resolve aside_removeConnection : leaves.

Lemma aside_fail : aside (fail fd).
Proof. unfold fail. leaves_run. Qed.

Lemma aside_updateEvents events : aside (updateEvents fd events).
Proof. unfold updateEvents, Epoll.modify. leaves_run. Qed.

Lemma aside_refreshDeadline seconds : aside (refreshDeadline fd seconds).
Proof. unfold refreshDeadline. leaves_run. Qed.

Lemma aside_record_latency : aside (record_latency fd).
Proof. unfold record_latency. leaves_run. Qed.
#[local] Hint Resolve aside_fail aside_updateEvents aside_refreshDeadline aside_record_latency : leaves.

Lemma aside_handleWrite fuel : aside (handleWrite fuel fd).
Proof. unfold handleWrite. leaves_run. Qed.

End Elsewhere.
#[local] Hint Resolve aside_on_connection aside_on_state aside_fail aside_refreshDeadline aside_record_latency
  aside_handleWrite : leaves.

Lemma aside_completeAsyncResponse {K : Kernel} fuel c : leaves (elsewhere (client c)) (completeAsyncResponse fuel c).
Proof. unfold completeAsyncResponse. leaves_run. Qed.

(** ** Events and turns *)

Definition anything (_ : history) : Prop := True.

(** The invariant between two events, whatever is in the pool. *)
Definition consistent (F : gset Z) (k : Z) (s : Reactor) (w : history) : Prop :=
  ∃ p, inv F k anything p ∅ s w.

(** Other threads count their own connections only. *)
Definition counts (c : Z) (x : Shared Completion) : Prop :=
  ∃ k, 0 ≤ k < 2 ^ 63 ∧ active_connections (metrics x) = c + k.

Definition tolerant (others : history → Shared Completion → Shared Completion) : Prop :=
  ∀ w x c, 0 ≤ c → counts c x → counts c (others w x).

Definition looked (d : nat) (w : history) : Prop := (d ≤ polls w)%nat.

Lemma looked_lasting d : lasting (looked d).
Proof. intros c a w _ Hw. unfold looked in *. cbn. destruct c; try done; lia. Qed.

Section Running.
Context {K : Kernel} {FK : FreshFds K} {HK : Honest K} {HI : IntFds K}.
Context (n : nat) {P : Patient K n} (m : nat) {Q : Paced K m} (b : nat) {B : Backlog K b} (t : nat) {HT : Terminated K t}.
Context {T : Traversal Connection} {TS : Traversal ConnectionState}.
Context (others : history → Shared Completion → Shared Completion) (Hothers : tolerant others).
Context (F : gset Z).
Abbreviation stays := (leaves members).
Implicit Types (s : Reactor) (w : history).

(** The invariant when the other reactors' connections are not known. *)
Definition sound (J : history → Prop) s w : Prop := ∃ k p, 0 ≤ k < 2 ^ 63 ∧ inv F k J p ∅ s w.

Lemma sound_wait J s w a :
  (∀ w, J w → J ((sys_epoll_wait 1024 (-1), a) :: w)) →
  sound J s w → sound J s ((sys_epoll_wait 1024 (-1), a) :: w).
Proof.
  intros HJ (k & p & Hk & [H1 H2 H3 H4 H5 (Ho1 & Ho2 & Ho3) H7 H8 H9]). exists k, p. split; [done|].
  split; try done; [|by apply HJ]. split_and!; try done. by apply holds_neutral.
Qed.

Lemma sound_others J s w w' : sound J s w → sound J (s <| shared := others w' (shared s) |>) w.
Proof.
  intros (k & p & Hk & [H1 H2 H3 H4 H5 H6 H7 H8 H9]).
  destruct (Hothers w' (shared s) (Z.of_nat (size (connections s)))) as (k' & Hk' & E); [lia|by exists k|].
  exists k', (pool (others w' (shared s))). split; [done|]. by split.
Qed.

Lemma sound_event J fuel_event s w :
  lasting J → sound J s w → runs (λ fuel, handleEvent fuel fuel_event) (λ _, sound J) s w.
Proof.
  intros HJ (k & p & Hk & H). eapply runs_mono; [|by apply (handleEvent_runs n m b F k Hk J HJ p)].
  intros _ s' w' [p' H']. by exists k, p'.
Qed.

Lemma turn_runs d s w : sound (looked d) s w → runs (λ fuel, turn others fuel) (λ _, sound (looked d)) s w.
Proof.
  intros H. unfold turn, Epoll.wait. runs_step. runs_step.
  set (a := respond w _). apply (sound_wait _ _ _ a) in H; [|done].
  runs_step. unfold interference at 1.
  apply (runs_exact _ _ _ _ () (s <| shared := others ((sys_epoll_wait 1024 (-1), a) :: w) (shared s) |>)
    ((sys_epoll_wait 1024 (-1), a) :: w)); [done|].
  apply (sound_others _ _ _ ((sys_epoll_wait 1024 (-1), a) :: w)) in H.
  destruct (ret a =? -1); [by apply runs_ret|]. runs_step.
  eapply runs_mono; [|apply (runs_for_each (λ s w, sound (looked d) s w)); [|exact H]].
  - cbv beta. intros _ s' w' H'. by apply runs_ret.
  - intros e s' w' _ H'. cbv beta. by apply sound_event; [apply looked_lasting|].
Qed.

(** ** Shutting down *)

Lemma signals_fold l s : ∃ c, fold_left handleSignal l s = (s <| shutdown_requested := c |>) ∧
  (SIGTERM ∈ l → c = true) ∧ (shutdown_requested s = true → c = true).
Proof.
  revert s. induction l as [|x l IH]; intros s; cbn.
  { exists (shutdown_requested s). split_and!; [by destruct s|by intros ?%elem_of_nil|done]. }
  destruct (IH (handleSignal s x)) as (c & -> & H1 & H2). exists c.
  unfold handleSignal in *. split_and!.
  - by destruct (_ || _); destruct s.
  - intros [<-|Hin]%elem_of_cons; [by apply H2|by apply H1].
  - intros Hs. apply H2. by destruct (_ || _).
Qed.

Lemma sound_signals J s w c : sound J s w → sound J (s <| shutdown_requested := c |>) w.
Proof. intros (k & p & Hk & [H1 H2 H3 H4 H5 H6 H7 H8 H9]). exists k, p. split; [done|]. by split. Qed.

Lemma shutting_down_runs d s w :
  sound (looked d) s w →
  runs (λ _, shutting_down) (λ stop s' w', sound (looked (S d)) s' w' ∧ ((t ≤ d)%nat → stop = true)) s w.
Proof.
  intros H. unfold shutting_down. runs_step. runs_step. runs_step. runs_step. runs_step.
  set (a := respond w sys_signals).
  destruct (signals_fold (map fst (Sys.ready a)) s) as (c & -> & Hc & _). split.
  - apply sound_signals. destruct H as (k & p & Hk & H). exists k, p. split; [done|].
    assert (looked d w) as Hd by apply (inv_since _ _ _ _ _ _ _ H).
    apply (inv_call F k _ (looked_lasting d) p ∅ s w sys_signals a) in H; [|done..].
    eapply inv_shift; [exact H|]. unfold looked in *. cbn. lia.
  - intros Ht. apply Hc. destruct H as (k & p & _ & H).
    pose proof (inv_since _ _ _ _ _ _ _ H) as Hd. unfold looked in Hd.
    pose proof (terminated w ltac:(lia)) as Hin. apply list_elem_of_In, in_map_iff.
    exists (SIGTERM, 0). split; [done|]. by apply list_elem_of_In.
Qed.

Lemma loop_runs turns d s w :
  (t - d < turns)%nat → sound (looked d) s w →
  runs (λ fuel, loop others turns fuel) (λ _, sound anything) s w.
Proof.
  revert d s w. induction turns as [|turns IH]; intros d s w Hd H; [lia|]. cbn [loop]. runs_step.
  eapply runs_mono; [|by apply shutting_down_runs]. cbn. intros stop s1 w1 [H1 Hstop].
  assert (∀ s w, sound (looked (S d)) s w → sound anything s w) as Hany.
  { intros s2 w2 (k & p & Hk & H2). exists k, p. split; [done|]. by eapply inv_shift. }
  destruct stop; [by apply runs_ret, Hany|].
  assert (d < t)%nat by (destruct (decide (t ≤ d)%nat) as [Hle|]; [by specialize (Hstop Hle)|lia]).
  runs_step. eapply runs_mono; [|by apply turn_runs]. cbn. intros [] s2 w2 H2; [|by apply runs_ret, Hany].
  apply (IH (S d)); [lia|done].
Qed.

(** ** Starting *)

(** A member function that makes calls and leaves its object as it is. *)
Definition probing {A} (m : Prog Z A) : Prop :=
  ∀ z w, ∃ a l, m z w = Some (a, z, l ++ w) ∧ Forall (λ e, neutral e.1 = true) l ∧ Forall (λ e, steady e.1) l.

Lemma probing_bindAndListen port : probing (Socket.bindAndListen port).
Proof.
  intros z w. unfold Socket.bindAndListen, bind, gets, sys. cbn.
  destruct (z =? -1); [by exists false, []|]. set (a := respond w _).
  destruct (ret a =? -1); [by eexists false, [_]; split_and!; [done|constructor..]|].
  eexists _, [_; _]. split_and!; [done|repeat constructor..].
Qed.

Lemma probing_start seconds : probing (TimerFd.start seconds).
Proof.
  intros z w. unfold TimerFd.start, bind, gets, sys. cbn. destruct (_ || _); [by exists false, []|].
  eexists _, [_]. split_and!; [done|repeat constructor..].
Qed.

(** Nothing is registered for a connection before there is one. *)
Lemma sound_start l s w :
  connections s = ∅ → Forall (λ e, neutral e.1 = true) l → Forall (λ e, steady e.1) l →
  sound anything s w → sound anything s (l ++ w).
Proof.
  intros Hc Hn Hs (k & p & Hk & [H1 H2 H3 H4 H5 (Ho1 & Ho2 & Ho3) H7 H8 H9]). exists k, p. split; [done|].
  assert (connection_states s = ∅) as Hst by (apply dom_empty_inv_L; by rewrite <- H3, Hc, dom_empty_L).
  split; try done.
  - split_and!; try done. eapply holds_quiet; [|exact Ho3]. by exists l.
  - intros fd st. by rewrite Hst, lookup_empty.
Qed.

Lemma member_runs {A} get set (prog : Prog Z A) s w (R : A → Reactor → history → Prop) :
  probing prog → connections s = ∅ → set (get s) s = s → sound anything s w →
  (∀ a w', sound anything s w' → R a s w') → runs (λ _, zoom get set prog) R s w.
Proof.
  intros Hp Hc Hset H HR. destruct (Hp (get s) w) as (a & l & E & Hn & Hs).
  apply (runs_exact _ _ _ _ a s (l ++ w)); [|by apply HR, sound_start]. intros _. unfold zoom. by rewrite E, Hset.
Qed.

Lemma add_runs fd events s w (R : bool → Reactor → history → Prop) :
  connections s = ∅ → sound anything s w → (∀ r w', sound anything s w' → R r s w') →
  runs (λ _, Epoll.add fd events) R s w.
Proof.
  intros Hc H HR. unfold Epoll.add. runs_run. apply HR.
  apply (sound_start [(_, _)]); [done|by constructor..|done].
Qed.

Lemma run_runs turns port s w :
  connections s = ∅ → sound anything s w → (t < turns)%nat →
  runs (λ fuel, run others turns fuel port) (λ _, sound anything) s w.
Proof.
  intros Hc H Ht. unfold run, on_listener, on_timer.
  runs_step. eapply member_runs; [apply probing_bindAndListen|done|by destruct s|exact H|].
  clear w H. intros listening w H. destruct (negb listening); [by apply runs_ret|].
  runs_step. runs_step. runs_step. eapply add_runs; [done|exact H|]. clear w H. intros added w H.
  destruct (negb added); [by apply runs_ret|].
  runs_step. eapply member_runs; [apply probing_start|done|by destruct s|exact H|].
  clear w H. intros started w H. destruct (negb started); [by apply runs_ret|].
  runs_step. runs_step. runs_step. eapply add_runs; [done|exact H|]. clear w H. intros added' w H.
  destruct (negb added'); [by apply runs_ret|].
  runs_step. runs_step. destruct (_ =? -1); [by apply runs_ret|].
  runs_step. eapply add_runs; [done|exact H|]. clear w H. intros added'' w H.
  destruct (negb added''); [by apply runs_ret|].
  apply (loop_runs turns 0); [lia|]. destruct H as (k & p & Hk & H). exists k, p. split; [done|].
  eapply inv_shift; [exact H|apply Nat.le_0_l].
Qed.

Lemma stays_member {A} get set (prog : Prog Z A) :
  probing prog → (∀ s, members (set (get s) s) = members s) → stays (zoom get set prog).
Proof.
  intros Hp Hset s w a s' w'. unfold zoom. destruct (Hp (get s) w) as (a0 & l & -> & _).
  intros [= <- <- <-]. apply Hset.
Qed.

Lemma stays_interference : stays (interference others).
Proof. by intros s w a s' w' [= <- <- <-]. Qed.

#[local] Hint Resolve stays_interference stays_handleEvent : leaves.

Lemma stays_loop turns fuel : stays (loop others turns fuel).
Proof.
  induction turns as [|turns IH]; cbn [loop]; [apply leaves_exhausted|].
  unfold shutting_down, turn, Epoll.wait. leaves_run. apply leaves_modify. intros s.
  by destruct (signals_fold (map fst (Sys.ready a)) s) as (c & -> & _).
Qed.
#[local] Hint Resolve stays_loop : leaves.

Lemma stays_run turns fuel port : stays (run others turns fuel port).
Proof.
  unfold run, on_listener, on_timer, Epoll.add. repeat (cbv beta zeta; first
    [ apply stays_member; [first [apply probing_bindAndListen | apply probing_start]|done] | leaves_step ]);
    auto with leaves.
Qed.

End Running.

(** ** The destructor *)

Section Lifecycle.
Context {K : Kernel} {FK : FreshFds K} {HK : Honest K} {HI : IntFds K}.
Context {T : Traversal Connection} {TS : Traversal ConnectionState}.
Implicit Types (s : Reactor) (w : history).

Lemma destroy_each G (l : list (Z * Connection)) s w :
  Forall (λ e, Connection.fd e.2 = e.1 ∧ ConnFlow.wf e.2 ∧ 0 ≤ e.1 < 2 ^ 31) l →
  NoDup (concat (held_by <$> l)) → G ## list_to_set (concat (held_by <$> l)) →
  holds_fds (G ∪ list_to_set (concat (held_by <$> l))) w →
  runs (λ _, for_each l (λ e, destroy e.2)) (λ _ s' w', s' = s ∧ holds_fds G w') s w.
Proof.
  revert w. induction l as [|[fd c] l IH]; intros w Hl Hnd Hd Hw; cbn [for_each].
  { apply runs_ret. cbn in Hw. by rewrite union_empty_r_L in Hw. }
  apply Forall_cons in Hl as [(Hfd & Hwf & Hrange) Hl]. cbn in Hfd, Hwf, Hrange. rewrite fmap_cons in *. cbn [concat] in *.
  change (held_by (fd, c)) with (fd :: queue_files (output_queue c)) in *. cbn [fst snd app list_to_set] in *. rewrite list_to_set_app_L in *.
  apply NoDup_cons in Hnd as [Hnin (Hndf & Hdis & Hnd)%NoDup_app]. apply not_elem_of_app in Hnin as [Hnf Hnr].
  assert (∀ x, x ∈ files c → x ∉ (list_to_set (concat (held_by <$> l)) : gset Z)) as Hdis'.
  { intros x Hx. unfold files in Hx. rewrite elem_of_list_to_set in *. by apply Hdis. }
  change (list_to_set (queue_files (output_queue c))) with (files c) in *.
  assert (fd ∉ files c) as Hnf' by (unfold files; by rewrite elem_of_list_to_set).
  assert (fd ∉ (list_to_set (concat (held_by <$> l)) : gset Z)) as Hnr' by by rewrite elem_of_list_to_set.
  set (R := list_to_set (concat (held_by <$> l)) : gset Z) in *.
  runs_step. apply (destroy_runs (G ∪ R) c); try done; rewrite ?Hfd.
  - lia.
  - clear - Hd Hnr'. set_solver.
  - clear - Hd Hnf' Hdis'. set_solver.
  - by replace (G ∪ R ∪ {[fd]} ∪ files c) with (G ∪ ({[fd]} ∪ (files c ∪ R))) by (clear; set_solver).
  - intros l' _ Hw'. apply IH; [done|done|clear - Hd; set_solver|done].
Qed.

Lemma member_destruct_runs fd (G : gset Z) (prog : Prog Z ()) get set s w :
  prog = (fd ← gets Datatypes.id; if negb (fd =? -1) then sys (sys_close fd) ;; mret () else mret ()) →
  get s = fd → fd ≠ -1 → fd ∉ G → holds_fds ({[ fd ]} ∪ G) w →
  runs (λ _, zoom get set prog) (λ _ s' w', s' = set fd s ∧ holds_fds G w') s w.
Proof.
  intros -> Hget Hne HG Hw. eapply (runs_exact _ _ _ _ () (set fd s)).
  { intros _. unfold zoom, bind, gets, sys, Datatypes.id. rewrite Hget.
    by rewrite (proj2 (Z.eqb_neq _ _)) by done. }
  split; [done|]. apply (holds_close _ fd (respond w (sys_close fd))) in Hw; [|set_solver].
  by replace (({[fd]} ∪ G) ∖ {[fd]}) with G in Hw by (clear - HG; set_solver).
Qed.

Lemma destruct_reactor_runs F l e tm s w :
  sound (F ∪ {[ l; e; tm ]}) anything s w → (listen_socket s, epoll s, timer s) = (l, e, tm) →
  NoDup [l; e; tm; -1] → F ## {[ l; e; tm ]} →
  runs (λ _, destruct) (λ _ _ w', holds_fds F w') s w.
Proof.
  intros (k & p & Hk & H) Hm Hnd HF. injection Hm as Hl He Htm.
  destruct H as [_ _ _ H4 _ (Ho1 & Ho2 & Ho3) _ _ _]. unfold destruct.
  runs_step. runs_step. runs_step. runs_step. runs_step.
  assert (held (connections s) ≡ₚ concat (held_by <$> traverse (connections s))) as Eh.
  { apply held_perm. symmetry. apply traverse_perm. }
  eapply runs_mono; [|apply (destroy_each (F ∪ {[ l; e; tm ]}))].
  2:{ apply Forall_forall. intros [fd c] Hin. apply traverse_lookup in Hin. by apply (H4 fd c). }
  2:{ by rewrite <- Eh. }
  2:{ by rewrite <- (list_to_set_perm_L _ _ Eh). }
  2:{ by rewrite <- (list_to_set_perm_L _ _ Eh). }
  cbn. intros _ s1 w1 [-> Hw1].
  rewrite !NoDup_cons, !not_elem_of_cons in Hnd. destruct Hnd as ((? & ? & ? & _) & (? & ? & _) & (? & _) & _).
  runs_step. eapply runs_mono; [|apply (member_destruct_runs tm (F ∪ {[ l; e ]})); try done].
  3:{ by replace ({[tm]} ∪ (F ∪ {[l; e]})) with (F ∪ {[l; e; tm]}) by (clear; set_solver). }
  2:{ clear - HF H0 H1 H2 H. set_solver. }
  cbn. intros _ s2 w2 [-> Hw2].
  runs_step. eapply runs_mono; [|apply (member_destruct_runs e (F ∪ {[ l ]})); try done].
  3:{ by replace ({[e]} ∪ (F ∪ {[l]})) with (F ∪ {[l; e]}) by (clear; set_solver). }
  2:{ clear - HF H0 H1 H2 H. set_solver. }
  cbn. intros _ s3 w3 [-> Hw3].
  eapply runs_mono; [|apply (member_destruct_runs l F); try done].
  3:{ by rewrite (union_comm_L {[l]}). }
  2:{ clear - HF. set_solver. }
  cbn. by intros _ s4 w4 [_ Hw4].
Qed.

End Lifecycle.

(** ** The theorems *)

Lemma construct_sound F i (x : Shared Completion) l e tm w :
  counts 0 x → F ## {[ l; e; tm ]} → holds_fds (F ∪ {[ l; e; tm ]}) w →
  sound (F ∪ {[ l; e; tm ]}) anything (construct i x l e tm) w.
Proof.
  intros (k & Hk & Hc) HF Hw. exists k, (pool x). split; [done|]. split; try done; cbn.
  assert (held ∅ = []) as E by (unfold held; by rewrite map_to_list_empty).
  unfold owns. rewrite E. cbn [list_to_set]. by split_and!; [constructor|apply disjoint_empty_r|rewrite union_empty_r_L].
Qed.

(** What has become of a deferred response when [l] are the calls made. *)
Definition delivered (c : Completion) s (w : history) s' (w' : history) : Prop :=
  match awaited s c with
  | None => s' = s ∧ w' = w
  | Some conn => awaited s' c = None ∧ ∃ l, w' = l ++ w ∧
      match connections s' !! client c with
      | Some conn' =>
          ConnFlow.stream conn ++ (ConnFlow.Byte <$> serialize (response_of c)) =
            (ConnFlow.wanted <$> ConnFlow.wire (client c) l) ++ ConnFlow.stream conn' ∧
          Connection.parser conn' = Connection.parser conn ∧
          Connection.receive_buffer conn' = Connection.receive_buffer conn ∧
          Connection.close_after_write conn' = closing c || Connection.close_after_write conn
      | None =>
          HttpResponse.hasFile (response_of c) = true ∨
          Connection.MAX_OUTPUT_QUEUE_SIZE < output_queue_size conn + len (serialize (response_of c)) ∨
          closing c = true ∨ Connection.close_after_write conn = true ∨ broken l
      end
  end.

Lemma completed_delivered c s w s' w' : completed c s w s' w' → delivered c s w s' w'.
Proof.
  unfold completed, delivered. destruct (awaited s c) as [conn|]; [|done]. intros (l & -> & H).
  unfold awaited at 1. destruct (connections s' !! client c) as [conn'|] eqn:Hc.
  - unfold awaited in H. rewrite Hc in H. destruct H as (Hno & q & (Hq & Hfd & Hp & Hr & Hcl) & Hpg).
    split; [done|]. exists l. split; [done|]. destruct Hpg as [He Hrest _ _].
    apply ConnFlow.emits_items in He. rewrite !ConnFlow.items_segments, Hfd in He.
    split; [|by rewrite Hrest; cbn]. rewrite <- He. unfold ConnFlow.stream at 1 2.
    rewrite Hq, fmap_app, concat_app. cbn -[serialize]. by rewrite app_nil_r.
  - split; [done|]. by exists l.
Qed.

Section Theorems.
Context {K : Kernel} {FK : FreshFds K} {HK : Honest K} {HI : IntFds K}.
Context (n : nat) {P : Patient K n} (m : nat) {Q : Paced K m} (b : nat) {B : Backlog K b} (t : nat) {HT : Terminated K t}.
Context {T : Traversal Connection} {TS : Traversal ConnectionState}.

(** C1: Every event of the reactor - a client to accept, data, room for output,
    an error, a hang-up, the timer or a completion - is handled to the end and
    leaves the reactor consistent: both tables list the same connections, each
    well-formed and under its own descriptor; the shared count is this reactor's
    connections and the [k] of the others; epoll watches each connection for
    exactly what its state records, and for input and, iff output waits, for room,
    unless it waits for Redis; and the open descriptors are [F], the connections
    and the files they are sending, none of them closed twice. *)
Theorem event_keeps_connections F k event s w :
  0 ≤ k < 2 ^ 63 → consistent F k s w →
  ∃ N s' w', (∀ fuel, (N ≤ fuel)%nat → handleEvent fuel event s w = Some ((), s', w')) ∧
    consistent F k s' w' ∧ members s' = members s.
Proof.
  intros Hk [p H].
  pose proof (handleEvent_runs n m b F k Hk anything ltac:(done) p event s w H) as Hr.
  apply (runs_leaves members) in Hr as (N & [] & s' & w' & E & H' & Hm); [|intros; apply stays_handleEvent].
  by exists N, s', w'.
Qed.

(** C10: A reactor that is told to stop stops and cleans up: from its construction,
    whatever its clients, the kernel and the other threads do, [run] returns by the
    turn in which SIGTERM is seen - also when a step of its start fails - and after
    the destructor exactly the descriptors [F] that were not the reactor's are
    open, every connection and file closed once. *)
Theorem reactor_lifecycle others F i (shared : Shared Completion) l e tm port turns w :
  tolerant others → counts 0 shared →
  NoDup [l; e; tm; -1] → F ## {[ l; e; tm ]} → holds_fds (F ∪ {[ l; e; tm ]}) w → (t < turns)%nat →
  ∃ N s' w', (∀ fuel, (N ≤ fuel)%nat →
      (run others turns fuel port ;; destruct) (construct i shared l e tm) w = Some ((), s', w')) ∧
    holds_fds F w'.
Proof.
  intros Ho Hc Hnd HF Hw Ht. set (s := construct i shared l e tm).
  assert (runs (λ fuel, run others turns fuel port ;; destruct) (λ _ _ w', holds_fds F w') s w) as Hr.
  2:{ destruct Hr as (N & [] & s' & w' & E & H'). by exists N, s', w'. }
  runs_step. eapply runs_mono; [|apply (runs_leaves members); [intros; apply stays_run|]].
  2:{ apply (run_runs n m b t others Ho (F ∪ {[ l; e; tm ]})); [done|by apply construct_sound|done]. }
  cbn. intros [] s' w' [H' Hm]. by apply (destruct_reactor_runs F l e tm); [|by injection Hm as _ -> -> ->|..].
Qed.

(** C5: The response to a deferred request is delivered safely.  If the connection
    is gone, is another one under the same descriptor, or awaits nothing, nothing
    happens at all.  Otherwise the request is awaited no longer and either the
    bytes put on the wire, followed by those still queued, are what was queued
    before followed by the response, once and in order, or the connection has been
    removed, for one of five reasons: a response with a file, a full queue, a close
    that was asked for by the request or before, a call that failed.  What has been
    received behind the request is not looked at, and no other connection changes. *)
Theorem completion_delivery F k c s w :
  0 ≤ k < 2 ^ 63 → consistent F k s w →
  ∃ N s' w', (∀ fuel, (N ≤ fuel)%nat → completeAsyncResponse fuel c s w = Some ((), s', w')) ∧
    consistent F k s' w' ∧ delivered c s w s' w' ∧ elsewhere (client c) s' = elsewhere (client c) s.
Proof.
  intros Hk [p H].
  assert (runs (λ fuel, completeAsyncResponse fuel c) (λ _ s' w', consistent F k s' w' ∧ delivered c s w s' w') s w) as Hr.
  { apply (completeAsyncResponse_runs n F k Hk anything ltac:(done) p); [done|].
    intros s' w' H' Hd. split; [by exists p|by apply completed_delivered]. }
  apply (runs_leaves (elsewhere (client c))) in Hr as (N & [] & s' & w' & E & [H' Hd] & He);
    [|intros; apply aside_completeAsyncResponse].
  by exists N, s', w'.
Qed.


End Theorems.

(** A kernel with a file of five bytes under every name and a client that has
    sent one request. *)
Definition with_file (text : bytes) : Kernel := λ w c,
  match c with
  | sys_stat _ => MkAnswer 0 0 5 [] [] [] true nullptr
  | sys_open _ => Answer 8 0 0 [] [] []
  | sys_recv _ _ _ => if (deliveries w =? 0)%nat then demo_kernel text w c else Answer (-1) EAGAIN 0 [] [] []
  | _ => demo_kernel text w c
  end.

Definition head_text : bytes :=
  lit "HEAD /a.txt HTTP/1.1" ++ [CR; LF] ++ lit "Host: a" ++ [CR; LF; CR; LF].

(** What a single reactor shares with an idle pool, and one client on
    descriptor 7. *)
Definition one_pool : Shared Completion :=
  HttpHandler.mk_shared (WorkerPool.mk [] 1 [WorkerPool.mk_channel 6 []] false) Metrics.construct.

Definition one_client : Reactor :=
  construct 0 one_pool 4 3 5 <| connections := {[ 7 := Connection.construct 7 0 ]} |>
    <| connection_states := {[ 7 := mk_state 10 0 1 false false (Z.lor EPOLLIN EPOLLRDHUP) ]} |>.

(** A HEAD request for a static file is answered with the header fields and
    then with the file: the reactor asks whether the response has a file, not
    whether its body is to be sent.  A client that reads as HTTP prescribes takes
    the file for its next response. *)
Theorem head_request_sends_file :
  (λ r, ConnFlow.wire 7 r.2) <$> @handleClient (with_file head_text) 30 7 one_client [] =
  Some ((ConnFlow.Byte <$>
      lit "HTTP/1.1 200 OK" ++ [CR; LF] ++ lit "Content-Type: text/plain" ++ [CR; LF] ++
      lit "Connection: keep-alive" ++ [CR; LF] ++ lit "Content-Length: 5" ++ [CR; LF; CR; LF]) ++
    (ConnFlow.FileByte 8 <$> seqZ 0 5)).
Proof. by vm_compute. Qed.

(** ** Witnesses *)

Section Witnesses.

(** A kernel on which one client connects and sends a request, and SIGTERM
    arrives with the third look at the signals. *)
Definition request_text : bytes :=
  lit "GET /missing HTTP/1.1" ++ [CR; LF] ++ lit "Host: a" ++ [CR; LF; CR; LF].

#[local] Instance scripted : Kernel := λ w c,
  let refuse := Answer (-1) EAGAIN 0 [] [] [] in
  match c with
  | sys_signals => Answer 0 0 0 [] [] (if (3 <=? polls w)%nat then [(SIGTERM, 0)] else [])
  | sys_accept _ =>
      if bool_decide (7 ∈ open_fds w) || negb (Sys.accepted w =? 0)%nat then refuse
      else Answer 7 0 0 [] [] []
  | sys_recv _ _ _ => if (deliveries w =? 0)%nat then demo_kernel request_text w c else refuse
  | sys_epoll_wait _ _ =>
      match polls w with
      | 1%nat => Answer 1 0 0 [] [] [(4, EPOLLIN)]
      | 2%nat => Answer 1 0 0 [] [] [(7, EPOLLIN)]
      | _ => Answer 0 0 0 [] [] []
      end
  | sys_open _ | sys_read _ _ | sys_socket | sys_epoll_create | sys_timerfd_create | sys_eventfd => refuse
  | _ => demo_kernel request_text w c
  end.

#[local] Instance scripted_fresh : FreshFds scripted.
Proof.
  intros w c fd Ho. destruct c; try done; unfold opened, respond, scripted in Ho; cbn [fst snd] in Ho.
  case_bool_decide as Hin; [done|]. destruct (negb _); [done|]. cbn in Ho. by injection Ho as <-.
Qed.

#[local] Instance scripted_int : IntFds scripted.
Proof.
  intros w c fd Ho. destruct c; try done; unfold opened, respond, scripted in Ho; cbn [fst snd] in Ho.
  destruct (_ || _); [done|]. cbn in Ho. by injection Ho as <-.
Qed.

#[local] Instance scripted_honest : Honest scripted.
Proof.
  intros w c. pose proof (demo_honest request_text w c) as H. destruct c; try done.
  unfold respond, scripted. destruct (deliveries w =? 0)%nat; [exact H|]. cbn. lia.
Qed.

#[local] Instance scripted_patient : Patient scripted 0.
Proof.
  intros w c _. pose proof (demo_patient request_text w c ltac:(lia)) as H. unfold respond, scripted in *.
  destruct c; try done; unfold respond in H; cbn -[demo_kernel]; by repeat case_match.
Qed.

#[local] Instance scripted_paced : Paced scripted 1.
Proof.
  intros w c Hw. destruct c; try done. unfold respond, scripted.
  by rewrite (proj2 (Nat.eqb_neq _ _)) by lia.
Qed.

#[local] Instance scripted_backlog : Backlog scripted 1.
Proof.
  intros w fd Hw. unfold respond, scripted. rewrite (proj2 (Nat.eqb_neq _ _)) by lia.
  by rewrite orb_true_r.
Qed.

#[local] Instance scripted_terminated : Terminated scripted 3.
Proof.
  intros w Hw. unfold respond, scripted. cbn -[polls Nat.leb]. rewrite (proj2 (Nat.leb_le _ _)) by done. by left.
Qed.

(** Descriptors 3 to 6: epoll, the listener, the timer and the pool's event. *)
Definition prepared : history :=
  [(sys_timerfd_create, Answer 5 0 0 [] [] []); (sys_socket, Answer 4 0 0 [] [] []);
   (sys_epoll_create, Answer 3 0 0 [] [] []); (sys_eventfd, Answer 6 0 0 [] [] [])].

Lemma one_pool_counts : counts 0 one_pool.
Proof. by exists 0. Qed.

Lemma prepared_holds : holds_fds ({[ 6 ]} ∪ {[ 4; 3; 5 ]}) prepared.
Proof. split; [|done]. cbn. set_solver. Qed.

Lemma own_disjoint : ({[ 6 ]} : gset Z) ## {[ 4; 3; 5 ]}.
Proof. set_solver. Qed.

Definition idle_reactor : Reactor := construct 0 one_pool 4 3 5.

Lemma event_keeps_connections_witness :
  consistent ({[ 6 ]} ∪ {[ 4; 3; 5 ]}) 0 idle_reactor prepared ∧
  ∃ N s' w', (∀ fuel, (N ≤ fuel)%nat → handleEvent fuel (4, EPOLLIN) idle_reactor prepared = Some ((), s', w')) ∧
    consistent ({[ 6 ]} ∪ {[ 4; 3; 5 ]}) 0 s' w' ∧ members s' = members idle_reactor.
Proof.
  assert (consistent ({[ 6 ]} ∪ {[ 4; 3; 5 ]}) 0 idle_reactor prepared) as H.
  { destruct (construct_sound {[ 6 ]} 0 one_pool 4 3 5 prepared one_pool_counts own_disjoint prepared_holds)
      as (k & p & Hk & H).
    pose proof (inv_active _ _ _ _ _ _ _ H) as Ha. cbn in Ha. rewrite map_size_empty in Ha.
    replace k with 0 in H by lia. by exists p. }
  split; [exact H|]. by apply (event_keeps_connections 0 1 1 _ 0).
Defined.

Lemma reactor_lifecycle_witness :
  ∃ N s' w', (∀ fuel, (N ≤ fuel)%nat →
      (run (λ _ x, x) 4 fuel 8080 ;; destruct) idle_reactor prepared = Some ((), s', w')) ∧
    holds_fds {[ 6 ]} w'.
Proof.
  apply (reactor_lifecycle 0 1 1 3 (λ _ x, x) {[ 6 ]} 0 one_pool 4 3 5 8080 4 prepared).
  - by intros w x c _ Hc.
  - exact one_pool_counts.
  - by apply (bool_decide_unpack _).
  - exact own_disjoint.
  - exact prepared_holds.
  - lia.
Defined.

(** A reactor with one connection, on descriptor 7, watched for [events]. *)
Definition with_client (c : Connection) (st : ConnectionState) : Reactor :=
  idle_reactor <| connections := {[ 7 := c ]} |> <| connection_states := {[ 7 := st ]} |>
    <| shared := one_pool <| metrics := Metrics.incrementActiveConnections Metrics.construct |> |>.

Definition watching (events : Z) : history :=
  (sys_epoll_ctl EPOLL_CTL_ADD 7 events, Answer 0 0 0 [] [] []) ::
  (sys_accept 4, Answer 7 0 0 [] [] []) :: prepared.

Lemma with_client_consistent c st :
  Connection.fd c = 7 → ConnFlow.wf c → output_queue c = [] → settled c st →
  consistent ({[ 6 ]} ∪ {[ 4; 3; 5 ]}) 0 (with_client c st) (watching (current_events st)).
Proof.
  intros Hfd Hwf Hq Hs. eexists. split; try done.
  - cbn. intros fd x. rewrite lookup_singleton_Some. intros [<- <-]. by split_and!.
  - cbn. apply (owns_insert _ ∅); [done|]. assert (held ∅ = []) as E by (unfold held; by rewrite map_to_list_empty).
    split; unfold frame, files; rewrite ?E, ?Hq; cbn [list_to_set queue_files fmap list_fmap concat];
      try (constructor || set_solver).
    + cbn. set_solver.
    + done.
  - cbn. intros fd x. rewrite lookup_singleton_Some. by intros [<- <-].
  - cbn. intros fd x y _. rewrite !lookup_singleton_Some. by intros [<- <-] [_ <-].
Qed.

(** A connection that waits for its response. *)
Definition silent_client : Connection := Connection.construct 7 0.
Definition waiting_state : ConnectionState := mk_state 10 0 1 true true EPOLLRDHUP.

Definition late_answer : Completion := mk_completion 7 1 false (HttpResponse.setBody (lit "[]") HttpResponse.construct).

Lemma completion_delivery_witness :
  let s := with_client silent_client waiting_state in
  let w := watching EPOLLRDHUP in
  awaited s late_answer = Some silent_client ∧
  ∃ N s' w', (∀ fuel, (N ≤ fuel)%nat → completeAsyncResponse fuel late_answer s w = Some ((), s', w')) ∧
    consistent ({[ 6 ]} ∪ {[ 4; 3; 5 ]}) 0 s' w' ∧ delivered late_answer s w s' w' ∧ elsewhere 7 s' = elsewhere 7 s.
Proof.
  cbv zeta. split; [by vm_compute|]. apply (completion_delivery 0 _ 0); [done|].
  apply (with_client_consistent silent_client waiting_state); [done| |done|].
  - split; cbn; try done; constructor.
  - split; [|done]. by apply ParserInv.wf_init.
Defined.





End Witnesses.
