(* ===== verification/ReactAges.v ===== *)
(** * The generations of connections

    Descriptors are used again, generations are not: whatever the reactor goes
    through, a connection that is gone never comes back under its generation, so
    that a completion issued for it is never taken for one of a later client. *)

From S2P Require Import Prelude Numerals Sys Total Epoll Socket TimerFd.
From S2P Require Import Request Response Stats Parser Conn Pool Handler HandlerTheorems React ReactTheorems.
Import HttpResponse (HttpResponse).
Import Metrics (Metrics).
Import Connection (Connection).
Import Reactor.

(** How many clients have been accepted in all. *)
Fixpoint arrivals (w : history) : nat :=
  match w with
  | [] => 0
  | (c, a) :: w' =>
      match c with
      | sys_accept _ => if ret a =? -1 then arrivals w' else S (arrivals w')
      | _ => arrivals w'
      end
  end.

Lemma arrivals_app l w : (arrivals w ≤ arrivals (l ++ w))%nat.
Proof. induction l as [|[c a] l IH]; [done|]. cbn. destruct c; try done. destruct (_ =? _); lia. Qed.

(** The server's own handler, and a counter that is not negative. *)
Definition regular (s : Reactor) : Prop :=
  0 ≤ next_connection_generation s ∧ ∃ i, http_handler s = HttpHandler.construct i.

(** No connection has a generation that has not been issued yet. *)
Definition timely (s : Reactor) : Prop :=
  ∀ fd st, connection_states s !! fd = Some st → generation st ≤ next_connection_generation s.

(** The states of [s'] are those of [s] or carry a generation issued since. *)
Definition younger (s s' : Reactor) : Prop :=
  ∀ fd st', connection_states s' !! fd = Some st' →
    next_connection_generation s < generation st' ≤ next_connection_generation s' ∨
    ∃ st, connection_states s !! fd = Some st ∧ generation st = generation st'.

(** From [s] and [w] to [s'] and [w'] the counter has advanced by no more than the
    number of clients accepted and [j], unless it has wrapped around. *)
Definition ages (j : Z) (s : Reactor) (w : history) (s' : Reactor) (w' : history) : Prop :=
  regular s →
  regular s' ∧ (∃ l, w' = l ++ w) ∧
  let bound := next_connection_generation s + (Z.of_nat (arrivals w') - Z.of_nat (arrivals w)) + j in
  (bound < U64 → next_connection_generation s ≤ next_connection_generation s' ≤ bound ∧ younger s s').

Lemma ages_trans j s w s1 w1 s2 w2 :
  0 ≤ j → ages 0 s w s1 w1 → ages j s1 w1 s2 w2 → ages j s w s2 w2.
Proof.
  intros Hj H1 H2 Hr. destruct (H1 Hr) as (Hr1 & [l1 ->] & Ha1). destruct (H2 Hr1) as (Hr2 & [l2 ->] & Ha2).
  split; [done|]. split; [exists (l2 ++ l1); by rewrite app_assoc|]. cbv zeta in *.
  pose proof (arrivals_app l1 w). pose proof (arrivals_app l2 (l1 ++ w)). intros Hb.
  destruct Ha1 as [Hn1 Hy1]; [lia|]. destruct Ha2 as [Hn2 Hy2]; [lia|]. split; [lia|].
  intros fd st2 E2. destruct (Hy2 _ _ E2) as [|(st1 & E1 & Hg)]; [left; lia|].
  rewrite <- Hg. destruct (Hy1 _ _ E1) as [|?]; [left; lia|by right].
Qed.

(** A step that accepts nobody and issues no generation. *)
Lemma ages_quiet s s' w l :
  next_connection_generation s' = next_connection_generation s → http_handler s' = http_handler s →
  (∀ fd st', connection_states s' !! fd = Some st' →
     ∃ st, connection_states s !! fd = Some st ∧ generation st = generation st') →
  ages 0 s w s' (l ++ w).
Proof.
  intros Hn Hh Hy [H0 Hi]. split; [unfold regular; rewrite Hn, Hh; by split|].
  split; [by eexists|]. cbv zeta. rewrite Hn. pose proof (arrivals_app l w). intros _.
  split; [lia|]. intros fd st' E. right. by apply Hy.
Qed.

(** ** Programs *)

Definition aging {A} (m : Prog Reactor A) : Prop :=
  ∀ s w a s' w', m s w = Some (a, s', w') → ages 0 s w s' w'.

Section Rules.
Context {K : Kernel}.

Lemma ages_same s w l : ages 0 s w s (l ++ w).
Proof. apply ages_quiet; [done..|]. intros fd st E. by exists st. Qed.

Lemma aging_ret {A} (a : A) : aging (mret a).
Proof. intros s w b s' w' [= <- <- <-]. apply (ages_same s w []). Qed.

Lemma aging_gets {A} (f : Reactor → A) : aging (gets f).
Proof. intros s w b s' w' [= <- <- <-]. apply (ages_same s w []). Qed.

Lemma aging_exhausted {A} : aging (@exhausted Reactor A).
Proof. by intros s w a s' w'. Qed.

Lemma aging_grows {A} (m : Prog Reactor A) :
  grows m → (∀ s w a s' w', m s w = Some (a, s', w') →
    next_connection_generation s' = next_connection_generation s ∧ http_handler s' = http_handler s ∧
    ∀ fd st', connection_states s' !! fd = Some st' →
      ∃ st, connection_states s !! fd = Some st ∧ generation st = generation st') → aging m.
Proof.
  intros Hm Hs s w a s' w' E. destruct (Hm _ _ _ _ _ E) as (l & -> & _).
  destruct (Hs _ _ _ _ _ E) as (H1 & H2 & H3). by apply ages_quiet.
Qed.

Lemma aging_sys c : aging (sys c).
Proof. intros s w b s' w' [= <- <- <-]. apply (ages_same s w [_]). Qed.

Lemma aging_bind {A B} (m : Prog Reactor A) (f : A → Prog Reactor B) :
  aging m → (∀ a, aging (f a)) → aging (bind m f).
Proof.
  intros Hm Hf s w b s2 w2. unfold bind. destruct (m s w) as [[[a s1] w1]|] eqn:E; [|done].
  intros E2. eapply ages_trans; [done|by eapply Hm|by eapply Hf].
Qed.

Lemma aging_for_each {X} (l : list X) (body : X → Prog Reactor ()) :
  (∀ x, aging (body x)) → aging (for_each l body).
Proof.
  intros Hb. induction l as [|x l IH]; cbn; [apply aging_ret|]. apply aging_bind; [done|]. by intros [].
Qed.

Lemma aging_modify f :
  (∀ s, next_connection_generation (f s) = next_connection_generation s ∧ http_handler (f s) = http_handler s ∧
    ∀ fd st', connection_states (f s) !! fd = Some st' →
      ∃ st, connection_states s !! fd = Some st ∧ generation st = generation st') → aging (modify f).
Proof. intros Hf. apply aging_grows; [auto with makes|]. intros s w a s' w' [= <- <- <-]. apply Hf. Qed.

Lemma aging_zoom {T A} get set (m : Prog T A) :
  grows m → (∀ x s, (next_connection_generation (set x s), http_handler (set x s), connection_states (set x s)) =
    (next_connection_generation s, http_handler s, connection_states s)) → aging (zoom get set m).
Proof.
  intros Hm Hs. apply aging_grows; [by apply makes_zoom|]. intros s w a s' w'. unfold zoom.
  destruct (m (get s) w) as [[[b x] w1]|]; [|done]. intros [= <- <- <-].
  specialize (Hs x s). injection Hs as -> -> ->. split_and!; [done..|]. intros fd st E. by exists st.
Qed.

(** What asks for the handler may rely on it being the server's own. *)
Lemma aging_handler {B} (f : HttpHandler.HttpHandler Completion → Prog Reactor B) :
  (∀ i, aging (f (HttpHandler.construct i))) → aging (bind (gets http_handler) f).
Proof.
  intros Hf s w b s' w' E Hr. destruct (Hr) as [_ [i Hi]]. unfold bind, gets in E. rewrite Hi in E.
  exact (Hf i s w b s' w' E Hr).
Qed.

Lemma aging_on_connection {A} fd (m : Prog Connection A) : grows m → aging (on_connection fd m).
Proof.
  intros Hm s w a s' w'. unfold on_connection. destruct (connections s !! fd) as [c|]; [|done].
  destruct (m c w) as [[[b c'] w1]|] eqn:E; [|done]. intros [= <- <- <-].
  destruct (Hm _ _ _ _ _ E) as (l & -> & _). apply ages_quiet; [done..|]. intros fd' st E'. by exists st.
Qed.

Lemma aging_on_state fd f : (∀ st, generation (f st) = generation st) → aging (on_state fd f).
Proof.
  intros Hf s w a s' w'. unfold on_state. destruct (connection_states s !! fd) as [st|] eqn:E; [|done].
  intros [= <- <- <-]. apply (ages_quiet s _ w []); [done..|]. cbn. intros fd' st'.
  rewrite lookup_insert_Some. intros [[<- <-]|[_ E']]; [by exists st|by exists st'].
Qed.

Lemma aging_state_of fd : aging (state_of fd).
Proof. intros s w a s' w'. unfold state_of. case_match; [|done]. intros [= <- <- <-]. apply (ages_same s w []). Qed.

End Rules.

Create HintDb aging.
#[export] Hint Resolve aging_ret aging_gets aging_exhausted aging_sys aging_state_of : aging.

Ltac aging_step :=
  lazymatch goal with
  | |- aging (bind (gets http_handler) _) => apply aging_handler; intros ?
  | |- aging (bind _ _) => apply aging_bind; [|intros ?]
  | |- aging (for_each _ _) => apply aging_for_each; intros ?
  | |- aging (zoom _ _ _) => apply aging_zoom; [makes_run|done]
  | |- aging (on_connection _ _) => apply aging_on_connection; makes_run
  | |- aging (on_state _ _) => apply aging_on_state; done
  | |- aging (if ?b then _ else _) => destruct b
  | |- aging (match ?x with _ => _ end) => destruct x
  end.
Ltac aging_run := repeat (cbv beta zeta; aging_step); cbv beta; auto with aging.

(** ** What the members call *)

Section Members.
Context {K : Kernel}.

Lemma grows_closeOutputFile {S} o : grows (Connection.closeOutputFile (S := S) o).
Proof. unfold Connection.closeOutputFile. makes_run. Qed.
#[local] Hint Resolve grows_closeOutputFile : makes.

Lemma grows_destruct : grows Connection.destruct.
Proof. unfold Connection.destruct. makes_run. Qed.

Lemma grows_read fuel : grows (Connection.read fuel).
Proof. induction fuel as [|fuel IH]; cbn [Connection.read]; makes_run. Qed.

Lemma grows_write fuel : grows (Connection.write fuel).
Proof.
  induction fuel as [|fuel IH]; cbn [Connection.write]; [makes_run|].
  unfold Connection.pop_front, Connection.advance. makes_run.
Qed.

Lemma grows_consumeParsedBytes : grows Connection.consumeParsedBytes.
Proof. unfold Connection.consumeParsedBytes. makes_run. Qed.

Lemma grows_parseRequest : grows Connection.parseRequest.
Proof.
  intros c w a c' w'. unfold Connection.parseRequest. destruct (HttpParser.parse _ _) as [[r p]|]; [|done].
  intros [= <- <- <-]. by exists [].
Qed.

Lemma grows_resetParser : grows Connection.resetParser.
Proof. apply makes_modify. Qed.

Lemma grows_setCloseAfterWrite b : grows (Connection.setCloseAfterWrite b).
Proof. apply makes_modify. Qed.

Lemma grows_queueResponse r : grows (Connection.queueResponse r).
Proof. unfold Connection.queueResponse, Connection.push_back. makes_run. Qed.

Lemma grows_queueFile path size : grows (Connection.queueFile path size).
Proof. unfold Connection.queueFile, Connection.push_back. makes_run. Qed.

Lemma grows_popCompletion i : grows (WorkerPool.popCompletion (Completion := Completion) i).
Proof. unfold WorkerPool.popCompletion, WorkerPool.on_channel. makes_run. Qed.

Lemma grows_consumeEvent fuel i : grows (WorkerPool.consumeCompletionEvent (Completion := Completion) fuel i).
Proof.
  assert (∀ fd, grows (WorkerPool.drain_event (Completion := Completion) fuel fd)).
  { intros fd. induction fuel as [|fuel IH]; cbn [WorkerPool.drain_event]; makes_run. }
  unfold WorkerPool.consumeCompletionEvent. makes_run.
Qed.

Lemma grows_consume : grows TimerFd.consume.
Proof. unfold TimerFd.consume. makes_run. Qed.

Lemma grows_handle i request (callback : HttpHandler.ResponseCallback Completion) :
  grows (HttpHandler.handle (HttpHandler.construct i) request HttpResponse.construct callback).
Proof.
  intros s w a s' w' E. destruct (handle_answered callback i request s w) as (res & r & s1 & l & E1 & _).
  rewrite E1 in E. injection E as <- <- <-. exists l. split; [done|]. by apply Forall_true.
Qed.

End Members.
#[export] Hint Resolve grows_destruct grows_read grows_write grows_consumeParsedBytes grows_parseRequest
  grows_resetParser grows_setCloseAfterWrite grows_queueResponse grows_queueFile grows_popCompletion
  grows_consumeEvent grows_consume grows_handle : makes.

(** ** The reactor *)

Section Reactor.
Context {K : Kernel} {T : Traversal Connection} {TS : Traversal ConnectionState}.

Lemma aging_destroy c : aging (destroy c).
Proof.
  apply aging_grows.
  - intros s w a s' w'. unfold destroy. destruct (Connection.destruct c w) as [[[a0 c'] w1]|] eqn:E; [|done].
    intros [= <- <- <-]. by apply (grows_destruct c w a0 c' w1).
  - intros s w a s' w'. unfold destroy. destruct (Connection.destruct c w) as [[[a0 c'] w1]|]; [|done].
    intros [= <- <- <-]. split_and!; [done..|]. intros fd st E. by exists st.
Qed.

Lemma aging_metric f : aging (metric f).
Proof. unfold metric, on_shared. aging_run. Qed.

Lemma aging_now : aging now.
Proof. unfold now. aging_run. Qed.

Lemma aging_tables f :
  (∀ s, next_connection_generation (f s) = next_connection_generation s ∧ http_handler (f s) = http_handler s ∧
    connection_states (f s) = connection_states s) → aging (modify f).
Proof.
  intros Hf. apply aging_modify. intros s. destruct (Hf s) as (-> & -> & ->). split_and!; [done..|].
  intros fd st E. by exists st.
Qed.

Lemma aging_add fd events : aging (Epoll.add fd events).
Proof. unfold Epoll.add. aging_run. Qed.

Lemma aging_remove fd : aging (Epoll.remove fd).
Proof. unfold Epoll.remove. aging_run. Qed.

Lemma aging_epoll_modify fd events : aging (Epoll.modify fd events).
Proof. unfold Epoll.modify. aging_run. Qed.
#[local] Hint Resolve aging_destroy aging_metric aging_now aging_add aging_remove aging_epoll_modify : aging.

Lemma aging_removeConnection fd : aging (removeConnection fd).
Proof.
  unfold removeConnection. aging_run; [by apply aging_tables|]. apply aging_modify. intros s.
  split_and!; [done..|]. intros fd' st. cbn. intros [_ E]%lookup_delete_Some. by exists st.
Qed.
#[local] Hint Resolve aging_removeConnection : aging.

Lemma aging_fail fd : aging (fail fd).
Proof. unfold fail. aging_run. Qed.

Lemma aging_updateEvents fd events : aging (updateEvents fd events).
Proof. unfold updateEvents. aging_run. Qed.

Lemma aging_refreshDeadline fd t : aging (refreshDeadline fd t).
Proof. unfold refreshDeadline. aging_run. Qed.

Lemma aging_record_latency fd : aging (record_latency fd).
Proof. unfold record_latency. aging_run. Qed.
#[local] Hint Resolve aging_fail aging_updateEvents aging_refreshDeadline aging_record_latency : aging.

Lemma aging_handleWrite fuel fd : aging (handleWrite fuel fd).
Proof. unfold handleWrite. aging_run. Qed.
#[local] Hint Resolve aging_handleWrite : aging.

Lemma aging_completeAsyncResponse fuel c : aging (completeAsyncResponse fuel c).
Proof. unfold completeAsyncResponse. aging_run. Qed.
#[local] Hint Resolve aging_completeAsyncResponse : aging.

Lemma aging_handleCompletions fuel : aging (handleCompletions fuel).
Proof.
  assert (∀ n, aging (run_completions n)) as Hrun.
  { induction n as [|n IH]; cbn [run_completions]; [aging_run|]. unfold on_pool, on_shared, HttpHandler.in_pool.
    aging_run. }
  unfold handleCompletions, on_pool, on_shared, HttpHandler.in_pool. aging_run.
Qed.

Lemma aging_serve_request fd : aging (serve_request fd).
Proof. unfold serve_request, on_shared. aging_run. Qed.
#[local] Hint Resolve aging_serve_request : aging.

Lemma aging_serve_requests fuel fd : aging (serve_requests fuel fd).
Proof. induction fuel as [|fuel IH]; cbn [serve_requests]; aging_run. Qed.
#[local] Hint Resolve aging_serve_requests : aging.

Lemma aging_handleClient fuel fd : aging (handleClient fuel fd).
Proof.
  assert (∀ n, aging (serve_input n fd)) as Hin by (induction n as [|n IH]; cbn [serve_input]; aging_run).
  unfold handleClient. aging_run.
Qed.

(** Accepting a client issues one generation. *)
Definition admit_client (client_fd : Z) : Prog Reactor () :=
  modify (λ s, s <| next_connection_generation := add64 (next_connection_generation s) 1 |>) ;;
  generation ← gets next_connection_generation;
  assign_connection client_fd ;;
  metric Metrics.incrementActiveConnections ;;
  t ← now;
  modify (λ s, s <| connection_states :=
    <[client_fd := mk_state (t + seconds REQUEST_TIMEOUT_SECONDS) 0 generation false false
                     (Z.lor EPOLLIN EPOLLRDHUP)]> (connection_states s) |>).

Lemma admit_client_ages fd s w s' w' : admit_client fd s w = Some ((), s', w') → ages 1 s w s' w'.
Proof.
  unfold admit_client. set (s1 := s <| next_connection_generation := add64 (next_connection_generation s) 1 |>).
  unfold bind at 1, modify at 1. fold s1. unfold bind at 1, gets at 1.
  set (rest := assign_connection fd ;; metric Metrics.incrementActiveConnections ;; now).
  assert (aging rest) as Hrest.
  { unfold rest, assign_connection. aging_run. by apply aging_tables. }
  intros E [H0 Hi]. assert (∃ t s3, rest s1 w = Some (t, s3, w') ∧ s' = s3 <| connection_states :=
    <[fd := mk_state (t + seconds REQUEST_TIMEOUT_SECONDS) 0 (next_connection_generation s1) false false
              (Z.lor EPOLLIN EPOLLRDHUP)]> (connection_states s3) |>) as (t & s3 & E3 & ->).
  { revert E. unfold rest, bind. destruct (assign_connection fd s1 w) as [[[[] s2] w2]|]; [|done].
    destruct (metric _ s2 w2) as [[[[] s4] w4]|]; [|done].
    destruct (now s4 w4) as [[[t s3] w3]|]; [|done]. intros [= <- <-]. by exists t, s3. }
  assert (regular s1) as Hr1 by (split; [by apply Z.mod_pos_bound|done]).
  destruct (Hrest _ _ _ _ _ E3 Hr1) as (Hr3 & Hl & Ha). split; [exact Hr3|]. split; [done|].
  cbv zeta in *. change (next_connection_generation (set_with _ s3)) with (next_connection_generation s3).
  destruct Hl as [l ->]. pose proof (arrivals_app l w). intros Hb.
  assert (next_connection_generation s1 = next_connection_generation s + 1) as Hn.
  { apply Z.mod_small. lia. }
  destruct Ha as [Hn3 Hy]; [lia|]. split; [lia|]. intros fd' st'. cbn [connection_states set_with].
  change (next_connection_generation (set_with _ s3)) with (next_connection_generation s3).
  rewrite lookup_insert_Some. intros [[<- <-]|[_ E']]; [left; cbn [generation]; lia|].
  destruct (Hy _ _ E') as [|Hst]; [left; lia|by right].
Qed.

Lemma ages_accept fd a s w s' w' :
  ret a ≠ -1 → ages 1 s ((sys_accept fd, a) :: w) s' w' → ages 0 s w s' w'.
Proof.
  intros Ha H Hr. destruct (H Hr) as (Hr' & [l ->] & Hn). split; [done|]. split.
  { exists (l ++ [(sys_accept fd, a)]). by rewrite <- app_assoc. }
  cbv zeta in *. assert (arrivals ((sys_accept fd, a) :: w) = S (arrivals w)) as E.
  { cbn. by rewrite (proj2 (Z.eqb_neq _ _)). }
  rewrite E in Hn. intros Hb. destruct Hn as [Hn Hy]; [lia|]. split; [lia|done].
Qed.

Lemma ages_weaken s w s' w' : ages 0 s w s' w' → ages 1 s w s' w'.
Proof.
  intros H Hr. destruct (H Hr) as (Hr' & Hl & Hn). split; [done|]. split; [done|]. cbv zeta in *.
  intros Hb. destruct Hn as [Hn Hy]; [lia|]. split; [lia|done].
Qed.

Lemma accept_client_ages fd s w s' w' : accept_client fd s w = Some ((), s', w') → ages 1 s w s' w'.
Proof.
  assert (∀ A (m : Prog Reactor A) (f : A → Prog Reactor ()), aging m →
    (∀ a s w s' w', f a s w = Some ((), s', w') → ages 1 s w s' w') →
    ∀ s w s' w', bind m f s w = Some ((), s', w') → ages 1 s w s' w') as Hbind.
  { intros A m f Hm Hf s0 w0 s2 w2. unfold bind. destruct (m s0 w0) as [[[a s1] w1]|] eqn:E; [|done].
    intros E2. eapply ages_trans; [done|by eapply Hm|by eapply Hf]. }
  assert (∀ s w s' w', (sys (sys_close fd) ;; mret ()) s w = Some ((), s', w') → ages 1 s w s' w') as Hclose.
  { intros s0 w0 s1 w1 E. apply ages_weaken. revert E. assert (aging (sys (sys_close fd) ;; mret ())) as H by aging_run.
    apply H. }
  revert s w s' w'. unfold accept_client.
  apply Hbind; [unfold Socket.setNonBlocking; aging_run|intros []; [|exact Hclose]].
  apply Hbind; [unfold Socket.setNoDelay; aging_run|intros []; [|exact Hclose]].
  apply Hbind; [apply aging_add|intros []; [|exact Hclose]]. exact (admit_client_ages fd).
Qed.

Lemma aging_handleAccept fuel : aging (handleAccept fuel).
Proof.
  induction fuel as [|fuel IH]; cbn [handleAccept]; [aging_run|].
  apply aging_bind; [aging_run|]. intros listen_fd s w [] s2 w2. unfold bind at 1, sys.
  set (a := respond w (sys_accept listen_fd)). destruct (Z.eqb_spec (ret a) (-1)) as [_|Ha].
  - intros E. apply (ages_trans 0 s w s ((sys_accept listen_fd, a) :: w)); [done|apply (ages_same s w [_])|].
    revert E. match goal with |- ?m _ _ = _ → _ => assert (aging m) as H by aging_run end. apply H.
  - unfold bind. destruct (accept_client (ret a) s _) as [[[[] s1] w1]|] eqn:E; [|done]. intros E2.
    eapply ages_trans; [done|eapply ages_accept; [exact Ha|by apply accept_client_ages in E]|by eapply IH].
Qed.
#[local] Hint Resolve aging_handleClient aging_handleAccept aging_handleCompletions : aging.

Lemma aging_handleEvent fuel e : aging (handleEvent fuel e).
Proof.
  unfold handleEvent, handleTimer, removeExpiredConnections, has_connection, on_timer. aging_run.
Qed.
#[local] Hint Resolve aging_handleEvent : aging.

Context (others : history → HttpHandler.Shared Completion → HttpHandler.Shared Completion).

Lemma aging_turn fuel : aging (turn others fuel).
Proof.
  assert (aging (interference others)).
  { intros s w a s' w' [= <- <- <-]. apply (ages_quiet s _ w []); [done..|]. intros fd st E. by exists st. }
  unfold turn, Epoll.wait. aging_run.
Qed.

Lemma aging_shutting_down : aging shutting_down.
Proof.
  unfold shutting_down. aging_run. apply aging_tables. intros s. generalize (map fst (ready a)) as l.
  intros l. revert s. induction l as [|x l IH]; intros s; cbn; [done|].
  destruct (IH (handleSignal s x)) as (-> & -> & ->). unfold handleSignal. by destruct (_ || _).
Qed.

(** A step of the event loop: a look at the signals or a turn. *)
Inductive stepped : Reactor * history → Reactor * history → Prop :=
| stepped_look s w stop s' w' : shutting_down s w = Some (stop, s', w') → stepped (s, w) (s', w')
| stepped_turn fuel s w go s' w' : turn others fuel s w = Some (go, s', w') → stepped (s, w) (s', w').

Lemma stepped_ages x y : rtc stepped x y → ages 0 x.1 x.2 y.1 y.2.
Proof.
  induction 1 as [[s w]|x y z Hxy _ IH]; [apply (ages_same s w [])|].
  eapply ages_trans; [done| |exact IH].
  destruct Hxy as [s w stop s' w' E|fuel s w go s' w' E]; [by apply aging_shutting_down in E|by apply aging_turn in E].
Qed.

(** ** Late completions *)

(** The connection that the completion [c] was issued for is there. *)
Definition addressed (s : Reactor) (c : Completion) : bool :=
  match connection_states s !! client c with
  | Some st => isGenerationCurrent st (issued c)
  | None => false
  end.

(** C6: A late answer never reaches another client.  Once the connection that a
    completion was issued for is gone, the completion does nothing, for ever:
    however long the reactor goes on and whoever gets the descriptor next, until
    2^64 clients have been accepted. *)
Theorem late_completion_ignored s w s1 w1 s2 w2 c fuel :
  regular s → timely s → addressed s c = true →
  rtc stepped (s, w) (s1, w1) → addressed s1 c = false → rtc stepped (s1, w1) (s2, w2) →
  next_connection_generation s + (Z.of_nat (arrivals w2) - Z.of_nat (arrivals w)) < U64 →
  addressed s2 c = false ∧ completeAsyncResponse fuel c s2 w2 = Some ((), s2, w2).
Proof.
  intros Hr Ht Hs H01 Hs1 H12 Hb.
  destruct (stepped_ages _ _ H01 Hr) as (Hr1 & [l1 E1] & Ha1). cbn in Ha1, E1.
  destruct (stepped_ages _ _ H12 Hr1) as (_ & [l2 E2] & Ha2). cbn in Ha2, E2. subst w1 w2.
  pose proof (arrivals_app l1 w). pose proof (arrivals_app l2 (l1 ++ w)).
  destruct Ha1 as [Hn1 _]; [lia|]. destruct Ha2 as [Hn2 Hy2]; [lia|].
  assert (issued c ≤ next_connection_generation s) as Hc.
  { unfold addressed in Hs. destruct (connection_states s !! client c) as [st|] eqn:E; [|done].
    apply Z.eqb_eq in Hs as <-. by eapply Ht. }
  assert (addressed s2 c = false) as Hs2.
  { unfold addressed in *. destruct (connection_states s2 !! client c) as [st2|] eqn:E; [|done].
    apply Z.eqb_neq. intros Hg. destruct (Hy2 _ _ E) as [Hlt|(st & E0 & Hg0)]; [lia|].
    rewrite E0 in Hs1. apply Z.eqb_neq in Hs1. by rewrite Hg0 in Hs1. }
  split; [done|]. unfold addressed in Hs2. unfold completeAsyncResponse, bind, gets.
  destruct (connections s2 !! client c); [|done].
  destruct (connection_states s2 !! client c) as [st|]; [|done]. by rewrite Hs2.
Qed.

End Reactor.

(** ** Witness *)

Section Witness.

(** A kernel on which the client on descriptor 7 hangs up, and another client is
    given the same descriptor. *)
#[local] Instance reusing : Kernel := λ w c,
  match c with
  | sys_accept _ => if bool_decide (7 ∈ open_fds w) then Answer (-1) EAGAIN 0 [] [] [] else Answer 7 0 0 [] [] []
  | sys_epoll_wait _ _ =>
      Answer 1 0 0 [] [] [if bool_decide (7 ∈ open_fds w) then (7, EPOLLHUP) else (4, EPOLLIN)]
  | _ => demo_kernel [] w c
  end.

Definition first_client : Reactor :=
  with_client silent_client waiting_state <| next_connection_generation := 1 |>.

(** A turn with the state and history that it leaves. *)
Definition after_turn (s : Reactor) (w : history) : option (Reactor * history) :=
  (λ r, (r.1.2, r.2)) <$> turn (λ _ x, x) 5 s w.

Lemma after_turn_stepped s w s' w' : after_turn s w = Some (s', w') → stepped (λ _ x, x) (s, w) (s', w').
Proof.
  unfold after_turn. destruct (turn _ 5 s w) as [[[go s1] w1]|] eqn:E; [|done]. intros [= <- <-].
  by eapply stepped_turn.
Qed.

Lemma late_completion_ignored_witness :
  let w := watching EPOLLRDHUP in
  match after_turn first_client w with
  | Some (s1, w1) =>
      match after_turn s1 w1 with
      | Some (s2, w2) =>
          connection_states s1 !! 7 = None ∧ generation <$> connection_states s2 !! 7 = Some 2 ∧
          addressed s2 late_answer = false ∧ completeAsyncResponse 0 late_answer s2 w2 = Some ((), s2, w2)
      | None => False
      end
  | None => False
  end.
Proof.
  cbv zeta.
  assert ((λ r, connection_states r.1 !! 7) <$> after_turn first_client (watching EPOLLRDHUP) = Some None) as H1
    by by vm_compute.
  assert ((λ r, (generation <$> connection_states r.1 !! 7, arrivals r.2)) <$>
    (after_turn first_client (watching EPOLLRDHUP) ≫= λ r, after_turn r.1 r.2) = Some (Some 2, 2%nat)) as H2
    by by vm_compute.
  destruct (after_turn first_client _) as [[s1 w1]|] eqn:E1; [|done]. cbn [mbind option_bind fst snd] in H2.
  destruct (after_turn s1 w1) as [[s2 w2]|] eqn:E2; [|done]. injection H1 as H1. injection H2 as H2 Hw.
  split; [done|]. split; [done|].
  apply (late_completion_ignored (λ _ x, x) first_client (watching EPOLLRDHUP) s1 w1 s2 w2 late_answer 0).
  - split; [done|]. by exists (Some 0).
  - intros fd st. cbn. rewrite lookup_singleton_Some. by intros [_ <-].
  - by vm_compute.
  - apply rtc_once. by apply after_turn_stepped.
  - unfold addressed. cbn [client late_answer]. by rewrite H1.
  - apply rtc_once. by apply after_turn_stepped.
  - rewrite Hw. done.
Defined.

End Witness.
