(* ===== verification/Main.v ===== *)
(** * Start-up

    [src/server/Server.cpp] and the main programs: how many threads there are,
    which port is used, and the creation of the reactors.  The threads themselves
    are not modelled here: what they do to each other is the parameter [others]
    of the reactor's loop. *)

From S2P Require Import Prelude.
From S2P Require Import Numerals.
From S2P Require Import Sys.
From S2P Require Import Total.
From S2P Require Import Epoll.
From S2P Require Import Socket.
From S2P Require Import TimerFd.
From S2P Require Import Stats.
From S2P Require Import Pool.
From S2P Require Import Handler.
From S2P Require Import HandlerTexts.
From S2P Require Import React.
Import HttpHandler (Shared, mk_shared, pool, metrics).
Import Reactor (Reactor, Completion).

(** [std::atoi]; without digits the value is 0, and a value out of range has no
    meaning. *)
Definition atoi (l : bytes) : option Z :=
  match strto l with
  | None => Some 0
  | Some _ => stoi l
  end.

(** A conversion to [int]. *)
Definition to_int (n : Z) : Z := (n + 2 ^ 31) mod 2 ^ 32 - 2 ^ 31.

Module Server.

Record Server := mk {
  reactor_count : Z;
  port : Z;
  shared : Shared Completion;
  reactors : list Reactor
}.

#[global] Instance eta_Server : Eta Server :=
  fun s => mk (reactor_count s) (port s) (shared s) (reactors s).

Section Server.
Context {K : Kernel}.
Abbreviation M := (Prog Server).


Definition loadThreadCount {S} (name : bytes) (fallback : Z) : Prog S Z :=
  a ← sys (sys_getenv name);
  if ret a =? -1 then mret fallback
  else
    match stoull (data a) with
    | Some count => mret (if count =? 0 then fallback else count)
    | None => mret fallback
    end.







End Server.

(** The argument of the main program. *)
Inductive command := Usage | InvalidPort | Serve (port : Z).

(** [None] for an argument whose value [std::atoi] cannot represent. *)
Definition main (arguments : list bytes) : option command :=
  match arguments with
  | [] => Some (Serve 8080)
  | [argument] =>
      match atoi argument with
      | Some port => Some (if (port <=? 0) || (port >? 65535) then InvalidPort else Serve port)
      | None => None
      end
  | _ => Some Usage
  end.

End Server.

(** The main program of the load balancer: the number of its threads. *)
Module LoadBalancers.

Definition reactor_count (hardware : Z) (environment : option bytes) : Z :=
  let reactor_count :=
    match environment with
    | Some text => match stoull text with Some n => n | None => 0 end
    | None => 0
    end in
  let reactor_count :=
    if reactor_count =? 0 then if hardware =? 0 then 1 else hardware else reactor_count in
  Z.max 1 reactor_count.

(** Each thread's balancer is told its number and how many there are. *)
Definition arguments (reactor_count : Z) : list (Z * Z) :=
  (λ i, (to_int i, to_int reactor_count)) <$> seqZ 0 reactor_count.

End LoadBalancers.

(** ** Facts *)

Import Server.

Lemma to_int_small n : - 2 ^ 31 ≤ n < 2 ^ 31 → to_int n = n.
Proof. intros H. unfold to_int. rewrite Z.mod_small by lia. lia. Qed.


(** ** Descriptors taken at start-up *)






Section Holding.
Context {K : Kernel} {FK : FreshFds K} (F : gset Z).
Implicit Types (l : list Z) (w : history).
















(** ** The pool's channels *)





(** ** The constructor *)




End Holding.




(** A count that is a multiple of 2^32 passes [loadThreadCount] and leaves a
    server without reactors. *)
Lemma oversized_count_runs_nothing {K : Kernel} hardware s w :
  (∀ w, respond w (sys_getenv (lit "AORTA_REACTORS")) = Answer 0 0 0 (lit "4294967296") [] []) →
  wp (loadThreadCount (lit "AORTA_REACTORS") hardware) (λ count _ _, to_int count = 0) (s : Server) w.
Proof. intros H. unfold loadThreadCount. apply wp_bind, wp_sys. rewrite H. by vm_compute. Qed.
