(* ===== verification/Shutdown.v ===== *)
(** * The server's threads

    [Server::start] once the reactors have been created: a thread per reactor, the
    main thread that waits for the shutdown flag, joins them and stops the worker
    pool, and the pool's own threads.  A reactor's thread is seen through what it
    does to the pool, until its [run] has returned; that [run] returns after a
    signal is shown for the reactor on its own. *)

From S2P Require Import Prelude Sys Progress Redis Pool PoolThreads.
Import WorkerPool.

Section Shutdown.
Context {K : Kernel} {C : Type} (reactor_count : nat).
Abbreviation Pool := (PoolThreads.State (C := C)).
Abbreviation Action := (PoolThreads.label (C := C)).

(** Where the main thread is: starting the threads, in the [while] loop, about to
    join the thread with index [k], in [worker_pool->stop()], or behind it. *)
Inductive Main := Spawning | Polling | Joining (k : nat) | Stopping | Returned.

(** [running] tells for each thread started whether its [run] has still to return. *)
Record System := mk_system {
  flag : bool;
  main : Main;
  running : list bool;
  workers : Pool
}.

(** What the thread of reactor [i] does to the pool. *)
Inductive reactor_step (i : Z) : Pool → Action → Pool → Prop :=
| reactor_submits p ts st w k p' ts' :
    submit i (Some k) p w = Some (true, p', w) → notify_one ts ts' →
    reactor_step i (mk_state p ts st w) (Accept (mk_job i k)) (mk_state p' ts' st w)
| reactor_refused p ts st w k p' :
    submit i k p w = Some (false, p', w) →
    reactor_step i (mk_state p ts st w) Silent (mk_state p' ts st w)
| reactor_collects p ts st w c p' :
    popCompletion i p w = Some (Some c, p', w) →
    reactor_step i (mk_state p ts st w) (Collect i c) (mk_state p' ts st w)
| reactor_calls p ts st w c :
    reactor_step i (mk_state p ts st w) Silent (mk_state p ts st ((c, respond w c) :: w)).

(** [WorkerPool::stop] in the main thread. *)
Inductive stop_step : Pool → Pool → Prop :=
| stop_flags p ts w p' :
    stop_begin p w = Some (true, p', w) →
    stop_step (mk_state p ts NotCalled w) (mk_state p' ts Flagged w)
| stop_notifies p ts w :
    stop_step (mk_state p ts Flagged w) (mk_state p (wake <$> ts) Notified w)
| stop_joins p ts w p' :
    Forall (λ t, phase t = Exited) ts → stop_end p w = Some ((), p', w) →
    stop_step (mk_state p ts Notified w) (mk_state p' [] Joined w).

Inductive main_step : System → System → Prop :=
| main_spawns f rs ws :
    (length rs < reactor_count)%nat →
    main_step (mk_system f Spawning rs ws) (mk_system f Spawning (rs ++ [true]) ws)
| main_spawned f rs ws :
    length rs = reactor_count → main_step (mk_system f Spawning rs ws) (mk_system f Polling rs ws)
| main_wakes rs ws : main_step (mk_system true Polling rs ws) (mk_system true (Joining 0) rs ws)
| main_joins f k rs ws :
    rs !! k = Some false → main_step (mk_system f (Joining k) rs ws) (mk_system f (Joining (S k)) rs ws)
| main_joined f rs ws :
    main_step (mk_system f (Joining (length rs)) rs ws) (mk_system f Stopping rs ws)
| main_stops f rs ws ws' :
    stop_step ws ws' → main_step (mk_system f Stopping rs ws) (mk_system f Stopping rs ws')
| main_returns f rs ws :
    stopper ws = Joined → main_step (mk_system f Stopping rs ws) (mk_system f Returned rs ws).

Inductive step : System → Action → System → Prop :=
| step_signal f m rs ws : step (mk_system f m rs ws) Silent (mk_system true m rs ws)
| step_main s s' : main_step s s' → step s Silent s'
| step_reactor f m rs ws i x ws' :
    rs !! i = Some true → reactor_step (Z.of_nat i) ws x ws' →
    step (mk_system f m rs ws) x (mk_system f m rs ws')
| step_returns f m rs ws i :
    rs !! i = Some true → step (mk_system f m rs ws) Silent (mk_system f m (<[i := false]> rs) ws)
| step_worker f m rs p ts1 t ts2 st w x t' p' w' :
    worker_step p w t x t' p' w' →
    step (mk_system f m rs (mk_state p (ts1 ++ t :: ts2) st w)) x
         (mk_system f m rs (mk_state p' (ts1 ++ t' :: ts2) st w'))
| step_spurious f m rs p ts1 r ts2 st w :
    step (mk_system f m rs (mk_state p (ts1 ++ mk_thread Waiting r :: ts2) st w)) Silent
         (mk_system f m rs (mk_state p (ts1 ++ mk_thread Ready r :: ts2) st w)).

Inductive runs_to : System → list Action → System → Prop :=
| runs_nil s : runs_to s [] s
| runs_snoc s xs s1 x s2 : runs_to s xs s1 → step s1 x s2 → runs_to s (xs ++ [x]) s2.

(** Before the first thread is started. *)
Definition started (s : System) : Prop :=
  main s = Spawning ∧ running s = [] ∧ PoolThreads.initial (workers s).

(** ** The pool's view *)

Lemma stop_step_pool ws ws' : stop_step ws ws' → PoolThreads.step ws Silent ws'.
Proof. destruct 1; by constructor. Qed.

(** Every step is one of the pool's threads, or does not concern the pool. *)
Lemma step_pool s x s' :
  step s x s' → PoolThreads.step (workers s) x (workers s') ∨ x = Silent ∧ workers s' = workers s.
Proof.
  destruct 1 as [|s s' H|f m rs ws i x ws' _ H|f m rs ws i H|f m rs p ts1 t ts2 st w x t' p' w' H|]; cbn [workers].
  - by right.
  - destruct H; try by right. left. by apply stop_step_pool.
  - left. by destruct H; econstructor.
  - by right.
  - left. by apply PoolThreads.step_worker.
  - left. apply PoolThreads.step_spurious.
Qed.

Lemma accepted_silent xs : accepted (C := C) (xs ++ [Silent]) = accepted xs.
Proof. by rewrite accepted_app, app_nil_r. Qed.

(** A run of the server is, for the pool, one of its executions. *)
Lemma runs_pool s xs s' :
  runs_to s xs s' → ∃ ys, execution (workers s) ys (workers s') ∧ accepted ys = accepted xs ∧ begun ys = begun xs.
Proof.
  induction 1 as [s|s xs s1 x s2 _ (ys & Hex & Ha & Hb) Hstep]; [exists []; split; [constructor|done]|].
  destruct (step_pool _ _ _ Hstep) as [Hp|[-> ->]].
  - exists (ys ++ [x]). split; [by eapply execution_snoc|]. by rewrite !accepted_app, !begun_app, Ha, Hb.
  - exists ys. by rewrite accepted_app, begun_app, !app_nil_r.
Qed.

(** ** The order of shutting down *)

Definition orderly (s : System) : Prop :=
  (length (running s) ≤ reactor_count)%nat ∧
  match main s with
  | Spawning => stopper (workers s) = NotCalled
  | Polling => length (running s) = reactor_count ∧ stopper (workers s) = NotCalled
  | Joining k =>
      length (running s) = reactor_count ∧ stopper (workers s) = NotCalled ∧ flag s = true ∧
      ∀ i, (i < k)%nat → running s !! i = Some false
  | Stopping =>
      length (running s) = reactor_count ∧ flag s = true ∧ Forall (λ r, r = false) (running s)
  | Returned =>
      length (running s) = reactor_count ∧ flag s = true ∧ Forall (λ r, r = false) (running s) ∧
      stopper (workers s) = Joined
  end.

Lemma main_step_orderly s s' : orderly s → main_step s s' → orderly s'.
Proof.
  intros [Hl Hm] H. destruct H as [f rs ws Hlt|f rs ws Heq|rs ws|f k rs ws Hk|f rs ws|f rs ws ws' Hs|f rs ws Hs];
    unfold orderly in *; cbn [main running workers flag] in *.
  - split; [rewrite length_app; cbn; lia|done].
  - done.
  - destruct Hm as [H1 H2]. split_and!; [done..|]. intros i Hi. lia.
  - destruct Hm as (H1 & H2 & H3 & H4). split_and!; [done..|]. intros i Hi.
    destruct (decide (i = k)) as [->|]; [done|]. apply H4. lia.
  - destruct Hm as (H1 & H2 & H3 & H4). split_and!; [done..|]. apply Forall_lookup. intros i r Hr.
    pose proof (lookup_lt_Some _ _ _ Hr) as Hi. rewrite (H4 i Hi) in Hr. by injection Hr.
  - done.
  - destruct Hm as (H1 & H2 & H3). by split_and!.
Qed.

(** Steps of other threads leave the stopping thread where it is. *)
Lemma reactor_stopper i ws x ws' : reactor_step i ws x ws' → stopper ws' = stopper ws.
Proof. by destruct 1. Qed.

Lemma all_returned (rs : list bool) i : Forall (λ r, r = false) rs → rs !! i ≠ Some true.
Proof. intros H E. by specialize (Forall_lookup_1 _ _ _ _ H E). Qed.

Lemma step_orderly s x s' : orderly s → step s x s' → orderly s'.
Proof.
  intros Ho H. destruct H as [f m rs ws|s s' H|f m rs ws i x ws' Hi H|f m rs ws i Hi|f m rs p ts1 t ts2 st w x t' p' w' H|].
  - unfold orderly in *. destruct m; cbn in *; naive_solver.
  - by eapply main_step_orderly.
  - unfold orderly in *. cbn [main running workers flag] in *. by rewrite (reactor_stopper _ _ _ _ H).
  - unfold orderly in *. cbn [main running workers flag] in *. rewrite length_insert. destruct Ho as [Hl Hm].
    split; [done|]. destruct m as [| |k| |]; try done.
    + destruct Hm as (H1 & H2 & H3 & H4). split_and!; [done..|]. intros j Hj. specialize (H4 j Hj).
      rewrite list_lookup_insert_ne; [done|]. intros ->. congruence.
    + destruct Hm as (H1 & H2 & H3). exfalso. by eapply all_returned.
    + destruct Hm as (H1 & H2 & H3 & H4). exfalso. by eapply all_returned.
  - exact Ho.
  - exact Ho.
Qed.

Lemma started_orderly s : started s → orderly s.
Proof.
  intros (Hm & Hr & _ & _ & Hs & _). unfold orderly. rewrite Hm, Hr. split; [apply Nat.le_0_l|done].
Qed.

Lemma runs_orderly s xs s' : started s → runs_to s xs s' → orderly s' ∧ PoolThreads.consistent (workers s').
Proof.
  intros Hs H. split.
  - induction H as [s|s xs s1 x s2 _ IH Hx]; [by apply started_orderly|]. eapply step_orderly; [by apply IH|done].
  - destruct (runs_pool _ _ _ H) as (ys & Hex & _). destruct Hs as (_ & _ & Hi). by eapply execution_consistent.
Qed.

(** ** Winding down *)

(** What is left when the reactors serve nobody any more: [run] returns, the
    workers go on, and the main thread. *)
Inductive winds : System → System → Prop :=
| winds_main s s' : main_step s s' → winds s s'
| winds_returns f m rs ws i :
    rs !! i = Some true → winds (mk_system f m rs ws) (mk_system f m (<[i := false]> rs) ws)
| winds_worker f m rs ws ws' : works ws ws' → winds (mk_system f m rs ws) (mk_system f m rs ws').

Lemma winds_step s s' : winds s s' → ∃ x, step s x s'.
Proof.
  destruct 1 as [s s' H|f m rs ws i H|f m rs ws ws' H].
  - exists Silent. by apply step_main.
  - exists Silent. by apply step_returns.
  - destruct H. eexists. by apply step_worker.
Qed.

Definition main_weight (s : System) : nat :=
  let n := length (threads (workers s)) in
  match main s with
  | Spawning => 2 * (reactor_count - length (running s)) + reactor_count + 8 + n
  | Polling => length (running s) + 7 + n
  | Joining k => (length (running s) - k) + 6 + n
  | Stopping =>
      match stopper (workers s) with NotCalled => 5 + n | Flagged => 4 + n | Notified => 2 | Joined => 1 end
  | Returned => 0
  end.

Definition going (rs : list bool) : nat := length (List.filter Datatypes.id rs).

Definition load (s : System) : nat := main_weight s + going (running s) + weight (workers s).

Lemma going_app rs rs' : going (rs ++ rs') = (going rs + going rs')%nat.
Proof. unfold going. by rewrite List.filter_app, length_app. Qed.

Lemma going_returns rs i : rs !! i = Some true → S (going (<[i := false]> rs)) = going rs.
Proof.
  intros H. rewrite <- (take_drop_middle _ _ _ H) at 2. rewrite insert_take_drop by by apply lookup_lt_Some in H.
  rewrite !going_app. unfold going. cbn. lia.
Qed.

Lemma works_same (ws ws' : Pool) : works ws ws' → stopper ws' = stopper ws ∧ length (threads ws') = length (threads ws).
Proof. destruct 1. cbn. by rewrite !length_app. Qed.

Lemma wake_weight (ts : list (Thread (C := C))) : (sum_list (phase_weight ∘ phase <$> (wake <$> ts)) ≤
  sum_list (phase_weight ∘ phase <$> ts) + length ts)%nat.
Proof.
  induction ts as [|t ts IH]; [done|]. cbn.
  enough (phase_weight (phase (wake t)) ≤ S (phase_weight (phase t)))%nat by lia.
  unfold wake. destruct (phase t) eqn:E; rewrite ?E; cbn; lia.
Qed.

Lemma stop_begin_eq (p p' : WorkerPool C) w : stop_begin p w = Some (true, p', w) → jobs p' = jobs p.
Proof. unfold stop_begin, bind, gets, modify. cbn [id]. destruct (stopping p); [by intros [=]|by intros [= <-]]. Qed.

Lemma winds_less s s' : winds s s' → (load s' < load s)%nat.
Proof.
  destruct 1 as [s s' H|f m rs ws i H|f m rs ws ws' H]; unfold load.
  - destruct H as [f rs ws Hlt|f rs ws Heq|rs ws|f k rs ws Hk|f rs ws|f rs ws ws' Hs|f rs ws Hs];
      unfold main_weight; cbn [main running workers].
    + rewrite going_app, length_app. cbn. lia.
    + rewrite Heq. lia.
    + lia.
    + apply lookup_lt_Some in Hk. lia.
    + destruct (stopper ws); lia.
    + destruct Hs as [p ts w p' Hb|p ts w|p ts w p' He Hj]; unfold weight; cbn [stopper threads pool].
      * rewrite (stop_begin_eq _ _ _ Hb). lia.
      * pose proof (wake_weight ts). lia.
      * injection Hj as <-. cbn. lia.
    + rewrite Hs. lia.
  - apply going_returns in H. unfold main_weight. cbn [main running workers]. rewrite length_insert. lia.
  - pose proof (works_less _ _ H). destruct (works_same _ _ H) as [E1 E2].
    unfold main_weight. cbn [main running workers]. rewrite E1, E2. lia.
Qed.

Lemma stop_total (ws ws' : Pool) : jobs_total ws → stop_step ws ws' → jobs_total ws'.
Proof.
  intros [Hj Ht] H. destruct H as [p ts w p' Hb|p ts w|p ts w p' He Hend]; cbn [pool threads] in *.
  - split; cbn [pool threads]; [by rewrite (stop_begin_eq _ _ _ Hb)|done].
  - split; [done|]. cbn [threads]. apply Forall_fmap. eapply Forall_impl; [exact Ht|].
    intros t. unfold wake. cbn. by destruct (phase t) eqn:E; rewrite ?E.
  - injection Hend as <-. split; [constructor|constructor].
Qed.

Lemma winds_total s s' : jobs_total (workers s) → winds s s' → jobs_total (workers s').
Proof.
  intros Ht. destruct 1 as [s s' H|f m rs ws i H|f m rs ws ws' H]; [|done|by eapply works_total].
  destruct H; try done. by eapply stop_total.
Qed.

Lemma winds_flag s s' : winds s s' → flag s' = flag s.
Proof. destruct 1 as [s s' H| |]; [by destruct H|done..]. Qed.

(** As long as the main thread has not returned, there is a step to take. *)
Lemma winds_on n {P : Patient K n} s :
  orderly s → PoolThreads.consistent (workers s) → jobs_total (workers s) → flag s = true →
  main s = Returned ∨ ∃ s', winds s s'.
Proof.
  intros [Hl Ho] Hco Ht Hf. destruct s as [f m rs ws]. cbn [main running workers flag] in *. subst f.
  assert (∀ i, (i < length rs)%nat → rs !! i = Some false ∨ rs !! i = Some true) as Hrs.
  { intros i [r E]%lookup_lt_is_Some. rewrite E. destruct r; [by right|by left]. }
  destruct m as [| |k| |]; [..|by left]; right.
  - destruct (decide (length rs < reactor_count)%nat) as [Hlt|Hge].
    + eexists. by apply winds_main, main_spawns.
    + eexists. apply winds_main, main_spawned. lia.
  - eexists. apply winds_main, main_wakes.
  - destruct Ho as (H1 & _ & _ & Hk). destruct (decide (k < length rs)%nat) as [Hlt|Hge].
    + destruct (Hrs k Hlt) as [E|E].
      * eexists. by apply winds_main, main_joins.
      * eexists. by apply winds_returns.
    + assert (k = length rs) as ->; [|eexists; apply winds_main, main_joined].
      destruct (decide (length rs < k)%nat) as [Hlt|]; [|lia].
      specialize (Hk _ Hlt). apply lookup_lt_Some in Hk. lia.
  - destruct ws as [p ts st w]. pose proof (in_stopping _ Hco) as Hst. pose proof (in_notified _ Hco) as Hn.
    cbn [pool threads stopper] in *. destruct st.
    + eexists. apply winds_main, main_stops, (stop_flags p ts w). unfold stop_begin, bind, gets, modify.
      cbn [id]. by rewrite Hst.
    + eexists. apply winds_main, main_stops, stop_notifies.
    + destruct (worker_moves n _ Ht) as [Hidle|[ws' H]]; [|eexists; by apply winds_worker].
      eexists. apply winds_main, main_stops, stop_joins; [|done]. cbn [threads] in Hidle.
      specialize (Hn eq_refl). apply count_0 in Hn. rewrite Forall_forall in *. intros t Hin.
      specialize (Hn t Hin). destruct (Hidle t Hin) as [E|E]; [|done]. by rewrite E in Hn.
    + eexists. by apply winds_main, main_returns.
Qed.

Lemma winds_runs s0 xs s s' : runs_to s0 xs s → rtc winds s s' → ∃ ys, runs_to s0 ys s'.
Proof.
  intros H Hw. revert xs H. induction Hw as [s|s s1 s' Hw _ IH]; intros xs H; [by eexists|].
  apply winds_step in Hw as [x Hx]. eapply IH. by eapply runs_snoc.
Qed.

(** C11: The server shuts down in order and to the end, however its threads
    interleave.  Nobody stops the worker pool before a signal has come and the run
    of every reactor has returned, so that no reactor's job is refused because the
    pool is stopping; when the main thread has returned every accepted job has
    been begun, none is left and the workers are gone.  And after a signal, with
    jobs that return, winding down ends after a bounded number of steps, never
    before the main thread has returned: no join blocks for ever. *)
Theorem shutdown_completes n {P : Patient K n} s0 xs s :
  started s0 → runs_to s0 xs s →
  (stopping (pool (workers s)) = true →
     flag s = true ∧ length (running s) = reactor_count ∧ Forall (λ r, r = false) (running s)) ∧
  (main s = Returned → begun xs = accepted xs ∧ jobs (pool (workers s)) = [] ∧ threads (workers s) = []) ∧
  (flag s = true → jobs_total (workers s) →
     (∀ k s', nsteps winds k s s' → (k ≤ load s)%nat) ∧
     ∀ s', rtc winds s s' → (∀ s2, ¬ winds s' s2) → main s' = Returned).
Proof.
  intros Hs H. destruct (runs_orderly _ _ _ Hs H) as [Ho Hco]. split_and!.
  - rewrite (in_stopping _ Hco). unfold orderly in Ho. destruct (main s); destruct Ho as [Hl Ho].
    + by rewrite Ho.
    + destruct Ho as [_ Ho]. by rewrite Ho.
    + destruct Ho as (_ & Ho & _). by rewrite Ho.
    + intros _. by destruct Ho as (H1 & H2 & H3).
    + intros _. by destruct Ho as (H1 & H2 & H3 & _).
  - intros Hm. unfold orderly in Ho. rewrite Hm in Ho. destruct Ho as (_ & _ & _ & _ & Hj).
    destruct (in_joined _ Hco Hj) as [Hjobs Hth]. split; [|done].
    destruct (runs_pool _ _ _ H) as (ys & Hex & <- & <-). destruct Hs as (_ & _ & Hi).
    by rewrite (execution_queue _ _ _ Hi Hex), Hjobs, app_nil_r.
  - intros Hf Ht. split.
    + intros k. clear. revert s. induction k as [|k IH]; intros s s' H; [lia|].
      inversion_clear H as [|? ? s1 ? H1 H2]. apply winds_less in H1. apply IH in H2. lia.
    + intros s' Hw Hstuck. destruct (winds_runs _ _ _ _ H Hw) as [ys Hys].
      destruct (runs_orderly _ _ _ Hs Hys) as [Ho' Hco'].
      assert (flag s' = true ∧ jobs_total (workers s')) as [Hf' Ht'].
      { clear - Hw Hf Ht. induction Hw as [s|s s1 s' Hw _ IH]; [done|]. apply IH.
        - by rewrite (winds_flag _ _ Hw).
        - by eapply winds_total. }
      destruct (winds_on n s' Ho' Hco' Ht' Hf') as [|[s2 H2]]; [done|]. by destruct (Hstuck s2).
Qed.

End Shutdown.

(** ** A server with one reactor and two workers

    The reactor's thread is started, a job is submitted, a signal comes. *)

Definition before : System := mk_system false Spawning [] start_state.

Definition signalled : System :=
  mk_system true Polling [true]
    (mk_state (mk [mk_job 0 (return_job 5)] 2 [mk_channel 9 []] false)
      [mk_thread Ready idle_client; mk_thread Ready idle_client] NotCalled []).

Lemma shutdown_completes_witness :
  let K := demo_kernel [] in
  ∃ xs, runs_to (K := K) 1 before xs signalled ∧
    accepted xs = [mk_job 0 (return_job 5)] ∧
    (∀ k s', nsteps (winds (K := K) 1) k signalled s' → (k ≤ load 1 signalled)%nat) ∧
    ∀ s', rtc (winds (K := K) 1) signalled s' → (∀ s2, ¬ winds 1 s' s2) → main s' = Returned.
Proof.
  intros K. assert (started before) as Hs by (split; [done|]; split; [done|exact start_initial]).
  assert (runs_to (K := K) 1 before [Silent; Silent; Accept (mk_job 0 (return_job 5)); Silent] signalled) as H.
  { change [Silent; Silent; Accept (mk_job 0 (return_job 5)); Silent]
      with (((([] ++ [Silent]) ++ [Silent]) ++ [Accept (mk_job 0 (return_job 5))]) ++ [Silent] : list (label (C := nat))).
    eapply runs_snoc; [eapply runs_snoc; [eapply runs_snoc; [eapply runs_snoc; [apply runs_nil|]|]|]|apply step_signal].
    - apply step_main, main_spawns. by apply Nat.lt_0_succ.
    - by apply step_main, main_spawned.
    - eapply (step_reactor _ _ _ _ _ 0); [done|]. eapply reactor_submits; [done|]. apply notify_none. by repeat constructor. }
  eexists. split; [exact H|]. split; [done|].
  apply (shutdown_completes (K := K) 1 0 _ _ _ Hs H); [done|].
  split; [constructor; [apply total_ret|constructor]|by repeat constructor].
Defined.
