(* ===== verification/Backends.v ===== *)
(** * Backends

    [include/lb/Backend.hpp], [src/lb/BackendPool.cpp] and
    [src/lb/BackendConfig.cpp]: the servers behind the load balancer, the vector
    that holds them and the file they are read from. *)

From S2P Require Import Prelude Numerals.

Module Backend.

(** The counters are [std::size_t]; [consecutive_failures] and [port] are [int]. *)
Record Backend := mk {
  host : bytes;
  port : Z;
  healthy : bool;
  consecutive_failures : Z;
  connection_count : Z;
  total_connections : Z;
  failed_connections : Z;
  failovers : Z
}.

#[global] Instance eta_Backend : Eta Backend := fun b =>
  mk (host b) (port b) (healthy b) (consecutive_failures b) (connection_count b)
    (total_connections b) (failed_connections b) (failovers b).

#[global] Instance Backend_eq_dec : EqDecision Backend.
Proof. solve_decision. Defined.

(** The aggregate initialiser [{host, port, true, 0, 0}]. *)
Definition fresh (host : bytes) (port : Z) : Backend := mk host port true 0 0 0 0 0.

End Backend.

Module BackendPool.
Import Backend (Backend, healthy).

(** The member [backends]; an index is a [std::size_t] below its length. *)
Abbreviation BackendPool := (list Backend).

Definition addBackend (pool : BackendPool) (b : Backend) : BackendPool := pool ++ [b].

Definition size (pool : BackendPool) : nat := length pool.

(** [backends.at(index)]; [None] is the exception [std::out_of_range]. *)
Definition getBackend (pool : BackendPool) (index : nat) : option Backend := pool !! index.

(** Assigning through the reference that the other overload returns. *)
Definition setBackend (pool : BackendPool) (index : nat) (f : Backend → Backend)
    : option BackendPool :=
  match pool !! index with
  | Some _ => Some (alter f index pool)
  | None => None
  end.

Fixpoint count_healthy (backends : list Backend) (count : nat) : nat :=
  match backends with
  | [] => count
  | b :: rest => count_healthy rest (if healthy b then S count else count)
  end.

Definition healthyCount (pool : BackendPool) : nat := count_healthy pool 0.

Definition hasHealthyBackend (pool : BackendPool) : bool := (0 <? healthyCount pool)%nat.

Definition reset (pool : BackendPool) : BackendPool := [].

Definition getBackends (pool : BackendPool) : list Backend := pool.

End BackendPool.

Module BackendConfig.
Import Backend (Backend, fresh).

(** The lines [std::getline] delivers: what follows the last newline is a line
    only when it is not empty. *)
Fixpoint getlines (l current : bytes) : list bytes :=
  match l with
  | [] => match current with [] => [] | _ => [current] end
  | c :: l' => if ceq c LF then current :: getlines l' [] else getlines l' (current ++ [c])
  end.

Definition load_line (backends : list Backend) (line : bytes) : list Backend :=
  match line with
  | [] => backends
  | c :: _ =>
      if ceq c "#" then backends
      else match find_char line ":" 0 with
      | None => backends
      | Some colon =>
          let host := substr line 0 colon in
          let port_string := substr_from line (colon + 1) in
          match port_string with
          | [] => backends
          | _ =>
              match stoi port_string with
              | None => backends
              | Some port =>
                  if (port <=? 0) || (port >? 65535) then backends
                  else backends ++ [fresh host port]
              end
          end
      end
  end.

(** [content] is what the file at [path] holds, [None] when it cannot be
    opened. *)
Definition load (content : option bytes) : list Backend :=
  match content with
  | None => []
  | Some text => fold_left load_line (getlines text []) []
  end.

End BackendConfig.

(** * Properties *)

Section Facts.
Import Backend BackendPool BackendConfig.

Lemma count_healthy_spec l n : count_healthy l n = (length (List.filter healthy l) + n)%nat.
Proof.
  revert n. induction l as [|b l IH]; intros n; cbn; [done|].
  rewrite IH. destruct (healthy b); cbn; lia.
Qed.

Lemma alter_out_of_range (pool : BackendPool) i f : pool !! i = None → alter f i pool = pool.
Proof.
  intros E. apply list_eq. intros j. rewrite list_lookup_alter. case_decide; [subst; by rewrite E|done].
Qed.

Lemma hasHealthyBackend_spec pool :
  hasHealthyBackend pool = true ↔ ∃ i b, pool !! i = Some b ∧ healthy b = true.
Proof.
  unfold hasHealthyBackend, healthyCount. rewrite Nat.ltb_lt, count_healthy_spec. split.
  - destruct (List.filter healthy pool) as [|b l] eqn:E; cbn; [lia|]. intros _.
    assert (In b (List.filter healthy pool)) as Hin by (rewrite E; by left).
    apply filter_In in Hin as [Hin Hb]. apply list_elem_of_In, list_elem_of_lookup in Hin as [i Hi].
    by exists i, b.
  - intros (i & b & Hi & Hb).
    assert (In b (List.filter healthy pool)) as Hin.
    { apply filter_In. split; [|done]. by eapply list_elem_of_In, list_elem_of_lookup_2. }
    destruct (List.filter healthy pool); cbn in *; [done|lia].
Qed.

Lemma load_line_invariant (P : Backend → Prop) backends line :
  (∀ h p, 1 ≤ p ≤ 65535 → P (fresh h p)) → Forall P backends → Forall P (load_line backends line).
Proof.
  intros Hf HP. unfold load_line. repeat (break_match; try done). bool_prop.
  apply Forall_app. split; [done|]. repeat constructor. apply Hf. lia.
Qed.

(** The line that describes a backend. *)
Definition render_backend (b : Backend) : bytes := host b ++ (":"%char :: to_string (port b)) ++ [LF].

Definition writable_host (h : bytes) : Prop :=
  ((":"%char) ∉ h) ∧ (LF ∉ h) ∧ match h with c :: _ => c ≠ ("#"%char) | [] => True end.

Lemma getlines_line line rest current :
  LF ∉ line → getlines (line ++ [LF] ++ rest) current = (current ++ line) :: getlines rest [].
Proof.
  revert current. induction line as [|c line IH]; intros current Hl; cbn.
  - by rewrite app_nil_r.
  - apply not_elem_of_cons in Hl as [Hc Hl].
    unfold ceq. rewrite bool_decide_false by congruence. rewrite IH by done.
    by rewrite <- app_assoc.
Qed.

Lemma find_char_first h c rest : c ∉ h → find_char (h ++ [c] ++ rest) c 0 = Some (len h).
Proof.
  intros Hc. apply (find_sep h [c] rest); [done|]. intros n Hn.
  apply lookup_lt_is_Some in Hn as [d Hd]. rewrite (drop_S _ _ _ Hd). cbn.
  unfold ceq. rewrite bool_decide_false; [done|]. intros ->. by apply Hc, (list_elem_of_lookup_2 _ _ _ Hd).
Qed.

Lemma load_line_render backends h p :
  writable_host h → 1 ≤ p ≤ 65535 →
  load_line backends (h ++ ":"%char :: to_string p) = backends ++ [fresh h p].
Proof.
  intros (Hcolon & _ & Hhash) Hp.
  destruct (to_string_spec p) as (Hne & _); [unfold U64; lia|].
  assert (substr (h ++ ":"%char :: to_string p) 0 (len h) = h) as Hsub.
  { unfold substr. rewrite len_to_nat. cbn. apply take_app_length. }
  assert (substr_from (h ++ ":"%char :: to_string p) (len h + 1) = to_string p) as Hport.
  { unfold substr_from. pose proof (len_nonneg h).
    rewrite Z2Nat.inj_add, len_to_nat, <- drop_drop, drop_app_length by lia. done. }
  pose proof (find_char_first h ":" (to_string p) Hcolon) as F.
  assert (stoi (to_string p) = Some p) as Hstoi.
  { rewrite <- (app_nil_r (to_string p)). apply stoi_to_string; [lia|done]. }
  set (line := h ++ _) in *. unfold load_line.
  assert (∃ c t, line = c :: t ∧ c ≠ "#"%char) as (c & t & El & Hc).
  { subst line. destruct h as [|c h]; cbn; by eauto. }
  rewrite F, Hsub, Hport, Hstoi, El. unfold ceq. rewrite bool_decide_false by done.
  destruct (to_string p); [done|]. rewrite Z.gtb_ltb.
  rewrite (proj2 (Z.leb_gt _ _)), (proj2 (Z.ltb_ge _ _)) by lia. done.
Qed.

Lemma load_fresh content :
  Forall (λ b, b = fresh (host b) (port b) ∧ 1 ≤ port b ≤ 65535) (load content).
Proof.
  destruct content as [text|]; [|constructor]. unfold load.
  assert (Forall (λ b, b = fresh (host b) (port b) ∧ 1 ≤ port b ≤ 65535) []) as H0 by constructor.
  revert H0. generalize (@nil Backend). induction (getlines text []) as [|line lines IH];
    intros backends HP; cbn; [done|].
  apply IH, load_line_invariant; [|done]. by intros h p.
Qed.

(** Reading a backends file yields only usable backends: the port is a TCP
    port and the backend starts healthy, with every counter at zero. *)
Theorem load_usable content b :
  b ∈ load content → b = fresh (host b) (port b) ∧ 1 ≤ port b ≤ 65535.
Proof. pose proof (load_fresh content) as HF. rewrite Forall_forall in HF. apply HF. Qed.

(** Round trip: a file that lists backends one per line as [host:port] is
    read back as those backends, in the same order. *)
Theorem load_render backends :
  Forall (λ b, writable_host (host b) ∧ 1 ≤ port b ≤ 65535) backends →
  load (Some (concat (render_backend <$> backends))) = (λ b, fresh (host b) (port b)) <$> backends.
Proof.
  intros HF. cbn. change (fresh <$> _) with ([] ++ (fresh <$> [])).
  assert (∀ acc, fold_left load_line (getlines (concat (render_backend <$> backends)) []) acc =
    acc ++ ((λ b, fresh (host b) (port b)) <$> backends)) as HG; [|apply HG].
  induction HF as [|b bs [Hh Hp] _ IH]; intros acc; cbn; [by rewrite app_nil_r|].
  unfold render_backend at 1. rewrite (app_assoc (host b)), <- app_assoc, getlines_line; cbn.
  - rewrite load_line_render, IH, <- app_assoc by done. done.
  - destruct Hh as (_ & Hlf & _). rewrite elem_of_app, elem_of_cons. intros [?|[?|Hin]]; [done|done|].
    revert Hin. apply to_string_no_char; [unfold U64; lia|done].
Qed.

Lemma load_usable_witness :
  let b := fresh (lit "10.0.0.1") 8080 in b = fresh (host b) (port b) ∧ 1 ≤ port b ≤ 65535.
Proof.
  apply (load_usable (Some (lit "10.0.0.1:8080"))). vm_compute. by left.
Defined.

Lemma load_render_witness :
  let bs := [fresh (lit "a") 1; fresh (lit "b") 65535] in
  load (Some (concat (render_backend <$> bs))) = bs.
Proof.
  apply (load_render [fresh (lit "a") 1; fresh (lit "b") 65535]).
  repeat constructor; try done; by apply (bool_decide_unpack _).
Defined.

End Facts.
