(* ===== verification/Ring.v ===== *)
(** * The consistent-hash ring

    [include/lb/ConsistentHash.hpp] and [src/lb/ConsistentHash.cpp]: the ring of
    virtual nodes, the walk that picks a healthy backend, and the theorems that
    make the hashing consistent. *)

From S2P Require Import Prelude Numerals Backends.
Import Backend BackendPool.

Module ConsistentHash.

Definition VIRTUAL_NODES_PER_BACKEND : nat := 128.

Definition FNV_OFFSET : Z := 14695981039346656037.
Definition FNV_PRIME : Z := 1099511628211.

(** 64-bit FNV-1a; the product wraps modulo 2^64. *)
Definition hash (key : bytes) : Z :=
  fold_left (λ value byte, (Z.lxor value (code byte) * FNV_PRIME) mod U64) key FNV_OFFSET.

Definition backendKey (b : Backend) : bytes := host b ++ lit ":" ++ int_to_string (port b).

Definition virtual_key (b : Backend) (virtual_node : nat) : bytes :=
  backendKey b ++ lit "#" ++ to_string (Z.of_nat virtual_node).

(** [std::map<uint64_t, size_t>]: the entries in the order of their keys. *)
Definition ring := list (Z * nat).

(** [ring.emplace]: an existing key keeps its value. *)
Fixpoint emplace (r : ring) (key : Z) (index : nat) : ring :=
  match r with
  | [] => [(key, index)]
  | (k, i) :: rest =>
      if key <? k then (key, index) :: r
      else if key =? k then r
      else (k, i) :: emplace rest key index
  end.

Definition add_virtual_nodes (b : Backend) (backend_index : nat) (r : ring) : ring :=
  fold_left (λ r virtual_node, emplace r (hash (virtual_key b virtual_node)) backend_index)
    (seq 0 VIRTUAL_NODES_PER_BACKEND) r.

Fixpoint build_from (pool : BackendPool) (backend_index : nat) (r : ring) : ring :=
  match pool with
  | [] => r
  | b :: rest => build_from rest (S backend_index) (add_virtual_nodes b backend_index r)
  end.

(** [build] clears the ring first. *)
Definition build (pool : BackendPool) : ring := build_from pool 0 [].

(** An iterator is the position of its entry; [end()] is the length. *)
Fixpoint lower_bound (r : ring) (h : Z) : nat :=
  match r with
  | [] => 0
  | (k, _) :: rest => if h <=? k then 0 else S (lower_bound rest h)
  end.

(** [backend_index < pool.size() && pool.getBackend(backend_index).healthy] *)
Definition usable (pool : BackendPool) (backend_index : nat) : bool :=
  match getBackend pool backend_index with
  | Some b => healthy b
  | None => false
  end.

(** The wrap-around [if(iterator == ring.end()) iterator = ring.begin()]. *)
Definition wrap (r : ring) (iterator : nat) : nat :=
  if (iterator =? length r)%nat then 0%nat else iterator.

(** The [do ... while] loop; [None] when the fuel runs out. *)
Fixpoint walk (fuel : nat) (r : ring) (pool : BackendPool) (start iterator : nat)
    : option (option nat) :=
  match fuel with
  | O => None
  | S fuel' =>
      match r !! iterator with
      | None => None
      | Some (_, backend_index) =>
          if usable pool backend_index then Some (Some backend_index)
          else
            let iterator := wrap r (S iterator) in
            if (iterator =? start)%nat then Some None
            else walk fuel' r pool start iterator
      end
  end.

(** One turn per entry is enough ([getBackend_clockwise]). *)
Definition getBackend (r : ring) (client_key : bytes) (pool : BackendPool) : option (option nat) :=
  if (length r =? 0)%nat || (size pool =? 0)%nat then Some None
  else
    let client_hash := hash client_key in
    let iterator := wrap r (lower_bound r client_hash) in
    walk (length r) r pool iterator iterator.

Definition clear (r : ring) : ring := [].

Definition ring_size (r : ring) : nat := length r.

End ConsistentHash.
Import ConsistentHash.

(** ** Specification *)

(** Keys strictly increase, as in any [std::map]. *)
Inductive ordered : ring → Prop :=
| ordered_nil : ordered []
| ordered_cons k i r : Forall (λ e, k < e.1) r → ordered r → ordered ((k, i) :: r).

(** The entries met when walking the ring clockwise from [h]. *)
Definition clockwise (h : Z) (r : ring) : ring :=
  List.filter (λ e, h <=? e.1) r ++ List.filter (λ e, e.1 <? h) r.

Fixpoint first_usable (pool : BackendPool) (r : ring) : option nat :=
  match r with
  | [] => None
  | (_, i) :: rest => if usable pool i then Some i else first_usable pool rest
  end.

(** The point [k] belongs to backend [i]: one of its virtual nodes hashes there
    and none of an earlier backend's does. *)
Definition hits (b : Backend) (k : Z) : Prop :=
  ∃ v, (v < VIRTUAL_NODES_PER_BACKEND)%nat ∧ hash (virtual_key b v) = k.

Definition owns (pool : BackendPool) (i : nat) (k : Z) : Prop :=
  (∃ b, pool !! i = Some b ∧ hits b k) ∧
  ∀ j b, (j < i)%nat → pool !! j = Some b → ¬ hits b k.

(** Two views of the same servers, whose health may differ. *)
Definition same_servers (p q : BackendPool) : Prop :=
  (λ b, (host b, port b)) <$> p = (λ b, (host b, port b)) <$> q.

(** ** The walk *)

Lemma filter_all {A} (f : A → bool) l : Forall (λ x, f x = true) l → List.filter f l = l.
Proof. induction 1 as [|x l Hx _ IH]; cbn; [done|]. by rewrite Hx, IH. Qed.

Lemma filter_none {A} (f : A → bool) l : Forall (λ x, f x = false) l → List.filter f l = [].
Proof. induction 1 as [|x l Hx _ IH]; cbn; [done|]. by rewrite Hx, IH. Qed.

Lemma lower_bound_splits r h :
  ordered r →
  (lower_bound r h ≤ length r)%nat ∧
  drop (lower_bound r h) r ++ take (lower_bound r h) r = clockwise h r.
Proof.
  intros Ho. assert ((lower_bound r h ≤ length r)%nat ∧
    drop (lower_bound r h) r = List.filter (λ e, h <=? e.1) r ∧
    take (lower_bound r h) r = List.filter (λ e, e.1 <? h) r) as (Hl & -> & ->); [|done].
  induction Ho as [|k i r Hk _ (Hl & Hd & Ht)]; cbn; [done|].
  destruct (Z.leb_spec h k) as [Hh|Hh]; cbn.
  - rewrite (proj2 (Z.ltb_ge _ _)) by lia. split_and!; [lia| |].
    + f_equal. symmetry. apply filter_all. eapply Forall_impl; [exact Hk|].
      cbn. intros e He. apply Z.leb_le. lia.
    + symmetry. apply filter_none. eapply Forall_impl; [exact Hk|].
      cbn. intros e He. apply Z.ltb_ge. lia.
  - rewrite (proj2 (Z.ltb_lt _ _)) by lia. split_and!; [lia|done|by f_equal].
Qed.

(** The position reached [k] steps after [start]. *)
Definition turned (r : ring) (start k : nat) : nat :=
  (if start + k <? length r then start + k else start + k - length r)%nat.

Lemma lookup_turned r start k :
  (start < length r)%nat → (k < length r)%nat →
  (drop start r ++ take start r) !! k = r !! turned r start k.
Proof.
  intros Hs Hk. unfold turned. destruct (Nat.ltb_spec (start + k) (length r)) as [H|H].
  - rewrite lookup_app_l by (rewrite length_drop; lia). by rewrite lookup_drop.
  - rewrite lookup_app_r, length_drop by (rewrite length_drop; lia).
    rewrite lookup_take_lt by lia. f_equal. lia.
Qed.

Lemma wrap_turned r start k :
  (start < length r)%nat → (k < length r)%nat →
  wrap r (S (turned r start k)) = if (S k =? length r)%nat then start else turned r start (S k).
Proof.
  intros Hs Hk. unfold wrap, turned.
  repeat match goal with
  | |- context [(?a <? ?b)%nat] => destruct (Nat.ltb_spec a b)
  | |- context [(?a =? ?b)%nat] => destruct (Nat.eqb_spec a b)
  end; lia.
Qed.

Lemma walk_spec pool r start m k fuel :
  (start < length r)%nat → (m + k = length r)%nat → (0 < m)%nat → (m ≤ fuel)%nat →
  walk fuel r pool start (turned r start k) =
  Some (first_usable pool (drop k (drop start r ++ take start r))).
Proof.
  intros Hs. revert k fuel. induction m as [|m IH]; intros k fuel Hmk Hm Hf; [lia|].
  destruct fuel as [|fuel]; [lia|]. cbn [walk].
  rewrite <- lookup_turned by lia.
  destruct (lookup_lt_is_Some_2 (drop start r ++ take start r) k) as [[key i] He].
  { rewrite length_app, length_drop, length_take. lia. }
  rewrite He, (drop_S _ _ _ He). cbn [first_usable]. destruct (usable pool i); [done|].
  cbv zeta. rewrite wrap_turned by lia. destruct (Nat.eqb_spec (S k) (length r)) as [E|E].
  - rewrite Nat.eqb_refl. rewrite drop_ge; [done|].
    rewrite length_app, length_drop, length_take. lia.
  - destruct (Nat.eqb_spec (turned r start (S k)) start) as [E'|_]; [|apply IH; lia].
    exfalso. unfold turned in E'. destruct (Nat.ltb_spec (start + S k) (length r)); lia.
Qed.

Lemma first_usable_app pool r s :
  first_usable pool (r ++ s) =
  match first_usable pool r with Some i => Some i | None => first_usable pool s end.
Proof. induction r as [|[k i] r IH]; cbn; [done|]. by destruct (usable pool i). Qed.

Lemma first_usable_Some pool r i :
  first_usable pool r = Some i → usable pool i = true ∧ ∃ k, (k, i) ∈ r.
Proof.
  induction r as [|[k j] r IH]; cbn; [done|]. destruct (usable pool j) eqn:E.
  - intros [= ->]. split; [done|]. exists k. by left.
  - intros H. destruct (IH H) as (? & k' & ?). split; [done|]. exists k'. by right.
Qed.

Lemma first_usable_None pool r k i : first_usable pool r = None → (k, i) ∈ r → usable pool i = false.
Proof.
  induction r as [|[k' j] r IH]; cbn; intros H Hin; [by apply elem_of_nil in Hin|].
  destruct (usable pool j) eqn:E; [done|].
  apply elem_of_cons in Hin as [[= -> ->]|Hin]; [done|by apply IH].
Qed.

Lemma elem_of_clockwise h r e : e ∈ clockwise h r ↔ e ∈ r.
Proof.
  unfold clockwise. rewrite elem_of_app, !list_elem_of_In, !filter_In.
  destruct (Z.leb_spec h e.1), (Z.ltb_spec e.1 h); try lia; naive_solver.
Qed.

Lemma usable_lookup pool i : usable pool i = true ↔ ∃ b, pool !! i = Some b ∧ healthy b = true.
Proof. unfold usable, BackendPool.getBackend. destruct (pool !! i); naive_solver. Qed.

Lemma getBackend_eq r key pool :
  ordered r → getBackend r key pool = Some (first_usable pool (clockwise (hash key) r)).
Proof.
  intros Ho. unfold getBackend. destruct (Nat.eqb_spec (length r) 0) as [E|E].
  { apply nil_length_inv in E as ->. done. }
  cbn [orb]. destruct (Nat.eqb_spec (size pool) 0) as [E'|E'].
  { apply nil_length_inv in E' as ->. destruct (first_usable _ _) as [i|] eqn:F; [|done].
    apply first_usable_Some in F as [F _]. by apply usable_lookup in F as (b & ? & _). }
  cbv zeta. destruct (lower_bound_splits r (hash key) Ho) as [Hl <-].
  set (lb := lower_bound r (hash key)) in *.
  assert (wrap r lb < length r)%nat as Hw.
  { unfold wrap. destruct (Nat.eqb_spec lb (length r)); lia. }
  assert (turned r (wrap r lb) 0 = wrap r lb) as Ht.
  { unfold turned. rewrite Nat.add_0_r. apply Nat.ltb_lt in Hw. by rewrite Hw. }
  rewrite <- Ht at 2. rewrite (walk_spec pool r _ (length r)) by lia. rewrite drop_0.
  unfold wrap. destruct (Nat.eqb_spec lb (length r)) as [->|]; [|done].
  by rewrite drop_0, take_0, app_nil_r, drop_all, take_ge.
Qed.

(** ** Building *)

Lemma emplace_elem r key i e :
  e ∈ emplace r key i → e = (key, i) ∨ e ∈ r.
Proof.
  induction r as [|[k j] r IH]; cbn.
  - intros ->%list_elem_of_singleton. by left.
  - destruct (key <? k); [by intros [->|?]%elem_of_cons; [left|right]|].
    destruct (key =? k); [by right|].
    intros [->|[->|?]%IH]%elem_of_cons; [right; by left|by left|right; by right].
Qed.

Lemma emplace_ordered r key i : ordered r → ordered (emplace r key i).
Proof.
  induction 1 as [|k j r Hk Ho IH]; cbn; [by repeat constructor|].
  destruct (Z.ltb_spec key k) as [H|H].
  { constructor; [|by constructor]. constructor; [done|].
    eapply Forall_impl; [exact Hk|]. cbn. intros. lia. }
  destruct (Z.eqb_spec key k) as [E|E]; [by constructor|]. constructor; [|done].
  apply Forall_forall. intros e [->|He]%emplace_elem; [cbn; lia|].
  rewrite Forall_forall in Hk. by apply Hk.
Qed.

(** What [emplace] does, for the keys of the ring as a whole. *)
Lemma emplace_spec r key i k j :
  ordered r →
  (k, j) ∈ emplace r key i ↔ (k, j) ∈ r ∨ (k = key ∧ j = i ∧ ∀ l, (key, l) ∉ r).
Proof.
  induction 1 as [|k' j' r Hk Ho IH]; cbn.
  { rewrite list_elem_of_singleton. split.
    - intros [= -> ->]. right. split_and!; [done..|]. by intros l ?%elem_of_nil.
    - intros [?%elem_of_nil|(-> & -> & _)]; done. }
  rewrite Forall_forall in Hk.
  assert (key ≤ k' → ∀ l, (key, l) ∉ r) as Hlow by (intros Hle l Hin; apply Hk in Hin; cbn in Hin; lia).
  destruct (Z.ltb_spec key k') as [H|H]; [|destruct (Z.eqb_spec key k') as [->|E]].
  - rewrite elem_of_cons. split; [|intros [?|(-> & -> & _)]; [by right|by left]].
    intros [[= -> ->]|?]; [|by left]. right. split_and!; [done..|].
    intros l [[= -> _]|Hin]%elem_of_cons; [lia|]. apply (Hlow ltac:(lia) _ Hin).
  - split; [by left|]. intros [?|(-> & -> & Hn)]; [done|]. destruct (Hn j'). by left.
  - rewrite !elem_of_cons, IH. split.
    + intros [?|[?|(-> & -> & Hn)]]; [left; by left|left; by right|].
      right. split_and!; [done..|]. intros l [[= -> _]|Hin]%elem_of_cons; [done|by apply (Hn l)].
    + intros [[?|?]|(-> & -> & Hn)]; [by left|right; by left|]. right. right.
      split_and!; [done..|]. intros l Hin. apply (Hn l). by right.
Qed.

Lemma add_virtual_nodes_spec b i r n :
  let r' := fold_left (λ r v, emplace r (hash (virtual_key b v)) i) (seq 0 n) r in
  ordered r →
  ordered r' ∧
  ∀ k j, (k, j) ∈ r' ↔ (k, j) ∈ r ∨
    (j = i ∧ (∃ v, (v < n)%nat ∧ hash (virtual_key b v) = k) ∧ ∀ l, (k, l) ∉ r).
Proof.
  cbv zeta. intros Ho. induction n as [|n [IHo IH]].
  { split; [done|]. intros k j. cbn. split; [by left|]. intros [?|(_ & (v & ? & _) & _)]; [done|lia]. }
  rewrite seq_S, fold_left_app. cbn [fold_left Nat.add]. set (r' := fold_left _ (seq 0 n) r) in *.
  split; [by apply emplace_ordered|]. intros k j. rewrite emplace_spec, IH by done. split.
  - intros [[?|(-> & (v & Hv & <-) & Hn)]|(-> & -> & Hn)]; [by left| |].
    + right. split_and!; [done| |done]. exists v. split; [lia|done].
    + right. split_and!; [done| |].
      * exists n. split; [lia|done].
      * intros l Hl. apply (Hn l), IH. by left.
  - intros [?|(-> & (v & Hv & <-) & Hn)]; [left; by left|].
    destruct (decide (Exists (λ w, hash (virtual_key b w) = hash (virtual_key b v)) (seq 0 n)))
      as [Hw|Hw]; rewrite Exists_exists in Hw.
    + destruct Hw as (w & Hw%elem_of_seq & E). left. right. split_and!; [done| |done].
      exists w. split; [lia|done].
    + assert (∀ w, (w < n)%nat → hash (virtual_key b w) ≠ hash (virtual_key b v)) as Hw'.
      { intros w Hlt E. apply Hw. exists w. split; [apply elem_of_seq; lia|done]. }
      right. assert (v = n) as ->.
      { destruct (decide (v = n)) as [|Hvn]; [done|]. destruct (Hw' v); [lia|done]. }
      split_and!; [done..|]. intros l [Hl|(_ & (w & Hlt & E) & _)]%IH; [by apply (Hn l)|by apply (Hw' w)].
Qed.

Lemma build_from_spec pool n r :
  ordered r →
  let r' := build_from pool n r in
  ordered r' ∧
  ∀ k j, (k, j) ∈ r' ↔ (k, j) ∈ r ∨
    ∃ i, (j = n + i)%nat ∧ owns pool i k ∧ ∀ l, (k, l) ∉ r.
Proof.
  cbv zeta. revert n r. induction pool as [|b pool IH]; intros n r Ho; cbn [build_from].
  { split; [done|]. intros k j. split; [by left|]. intros [?|(i & _ & ((b & Hb & _) & _) & _)]; done. }
  destruct (add_virtual_nodes_spec b n r VIRTUAL_NODES_PER_BACKEND Ho) as [Ho1 H1].
  fold (add_virtual_nodes b n r) in Ho1, H1.
  destruct (IH (S n) _ Ho1) as [Ho2 H2]. split; [done|]. intros k j. rewrite H2, H1. clear H2. split.
  - intros [[?|(-> & Hv & Hn)]|(i & -> & [[b' [Hb' Hh]] Hfirst] & Hn)]; [by left| |].
    + right. exists 0%nat. split_and!; [lia| |done]. split; [by exists b|]. intros; lia.
    + right. exists (S i). split_and!; [lia| |intros l Hl; apply (Hn l), H1; by left].
      split; [by exists b'|]. intros [|i'] b0 Hlt Hb0; [|apply (Hfirst i'); [lia|done]].
      cbn in Hb0. injection Hb0 as <-. intros Hb. apply (Hn n), H1. right. split_and!; [done..|].
      intros l Hl. apply (Hn l), H1. by left.
  - intros [?|(i & -> & [[b' [Hb' Hh]] Hfirst] & Hn)]; [left; by left|].
    destruct i as [|i]; cbn in Hb'.
    + injection Hb' as <-. left. right. split_and!; [lia|done..].
    + right. exists i. split_and!; [lia| |].
      * split; [by exists b'|]. intros i' b0 Hlt Hb0. apply (Hfirst (S i')); [lia|done].
      * intros l [Hl|(-> & Hb & _)]%H1; [by apply (Hn l)|]. apply (Hfirst 0%nat b); [lia|done..].
Qed.

Lemma build_spec pool :
  ordered (build pool) ∧ ∀ k i, (k, i) ∈ build pool ↔ owns pool i k.
Proof.
  destruct (build_from_spec pool 0 [] ordered_nil) as [Ho H]. split; [done|].
  intros k i. unfold build. rewrite H. split.
  - intros [?%elem_of_nil|(j & -> & ? & _)]; done.
  - intros ?. right. exists i. split_and!; [done..|]. by intros l ?%elem_of_nil.
Qed.

(** The ring depends on the servers' addresses, not on their health. *)
Lemma same_servers_lookup p q i b :
  same_servers p q → p !! i = Some b →
  ∃ c, q !! i = Some c ∧ host c = host b ∧ port c = port b.
Proof.
  intros E H. apply (f_equal (.!! i)) in E. rewrite !list_lookup_fmap, H in E. cbn in E. destruct (q !! i) as [c|]; [|done]. injection E as Hh Hp. by exists c.
Qed.

#[global] Instance same_servers_equivalence : Equivalence same_servers.
Proof.
  unfold same_servers. split; [done|intros p q E; by symmetry|intros p q r E F; by rewrite E].
Qed.

Lemma virtual_key_congr b c v : host b = host c → port b = port c → virtual_key b v = virtual_key c v.
Proof. intros Hh Hp. unfold virtual_key, backendKey. by rewrite Hh, Hp. Qed.

#[global] Instance build_proper : Proper (same_servers ==> eq) build.
Proof.
  intros p q E. unfold build. generalize 0%nat, (@nil (Z * nat)). revert q E.
  induction p as [|b p IH]; intros [|c q] E n r; try done.
  unfold same_servers in E. cbn in E. injection E as Hh Hp E. cbn [build_from].
  rewrite (IH q E). f_equal. unfold add_virtual_nodes. generalize r.
  induction (seq 0 VIRTUAL_NODES_PER_BACKEND) as [|v l IHl]; intros r'; cbn [fold_left]; [done|].
  by rewrite (virtual_key_congr b c) by done.
Qed.

(** ** Properties *)

(** C27: [getBackend] always terminates and picks the first usable backend met
    clockwise from the client's hash: among the points at or after it, then
    around the ring; and no backend exactly when no point's backend is usable. *)
Theorem getBackend_clockwise pool view key :
  getBackend (build pool) key view =
    Some (first_usable view (clockwise (hash key) (build pool))) ∧
  (getBackend (build pool) key view = Some None ↔
   ∀ i k, owns pool i k → usable view i = false).
Proof.
  destruct (build_spec pool) as [Ho Hb]. rewrite getBackend_eq by done. split; [done|]. split.
  - intros [= H] i k Hi. apply (first_usable_None _ _ k _ H), elem_of_clockwise, Hb, Hi.
  - intros H. f_equal. destruct (first_usable _ _) as [i|] eqn:E; [|done].
    apply first_usable_Some in E as (Hu & k & Hk). apply elem_of_clockwise, Hb in Hk.
    rewrite (H i k Hk) in Hu. done.
Qed.

(** C28: A client is never sent to a dead server while a live one has a place on
    the ring: if a healthy backend's first virtual node collides with none of an
    earlier backend's, every client gets some backend and it is healthy. *)
Theorem getBackend_available pool view key i b c :
  pool !! i = Some b → view !! i = Some c → healthy c = true →
  (∀ j b', (j < i)%nat → pool !! j = Some b' → ¬ hits b' (hash (virtual_key b 0))) →
  ∃ n d, getBackend (build pool) key view = Some (Some n) ∧ view !! n = Some d ∧ healthy d = true.
Proof.
  intros Hb Hc Hh Hfirst. destruct (build_spec pool) as [Ho Hspec].
  rewrite getBackend_eq by done.
  assert (owns pool i (hash (virtual_key b 0))) as Hown.
  { split; [|done]. exists b. split; [done|]. exists 0%nat. split; [unfold VIRTUAL_NODES_PER_BACKEND; lia|done]. }
  destruct (first_usable view _) as [n|] eqn:E.
  - apply first_usable_Some in E as [Hu _]. apply usable_lookup in Hu as (d & Hd & ?).
    by exists n, d.
  - assert (usable view i = false) as Hu.
    { eapply first_usable_None; [exact E|]. apply elem_of_clockwise, Hspec, Hown. }
    assert (usable view i = true); [|congruence]. apply usable_lookup. by exists c.
Qed.

Lemma first_usable_change p q j r :
  (∀ i, i ≠ j → usable p i = usable q i) →
  first_usable p r = first_usable q r ∨ first_usable p r = Some j ∨ first_usable q r = Some j.
Proof.
  intros H. induction r as [|[k i] r IH]; cbn; [by left|].
  destruct (decide (i = j)) as [->|Hij].
  - destruct (usable p j), (usable q j); auto.
  - rewrite (H i Hij). by destruct (usable q i); [left|].
Qed.

(** C29: Consistency: when the health of one server changes, the only clients
    that move are those that leave it or come to it. *)
Theorem health_change_moves_few pool p q j key :
  (∀ i, i ≠ j → p !! i = q !! i) →
  getBackend (build pool) key p = getBackend (build pool) key q ∨
  getBackend (build pool) key p = Some (Some j) ∨
  getBackend (build pool) key q = Some (Some j).
Proof.
  intros H. destruct (build_spec pool) as [Ho _]. rewrite !getBackend_eq by done.
  destruct (first_usable_change p q j (clockwise (hash key) (build pool))) as [E|[E|E]].
  - intros i Hi. unfold usable, BackendPool.getBackend. by rewrite H.
  - left. by rewrite E.
  - right. left. by rewrite E.
  - right. right. by rewrite E.
Qed.

(** Building the ring loses nothing but collisions: the ring holds exactly
    the points of the backends' virtual nodes, each once and in order, a point
    shared by several backends staying with the first of them. *)
Theorem build_points pool k i :
  ordered (build pool) ∧ ((k, i) ∈ build pool ↔ owns pool i k).
Proof. destruct (build_spec pool) as [Ho H]. by split. Qed.

(** ** Witnesses *)

Definition example_pool : BackendPool := [fresh (lit "10.0.0.1") 8081; fresh (lit "10.0.0.2") 8082].

Lemma getBackend_available_witness :
  ∃ n d, getBackend (build example_pool) (lit "client") example_pool = Some (Some n) ∧
    example_pool !! n = Some d ∧ healthy d = true.
Proof.
  apply (getBackend_available example_pool example_pool (lit "client") 0
    (fresh (lit "10.0.0.1") 8081) (fresh (lit "10.0.0.1") 8081)); try done. intros; lia.
Defined.

Lemma health_change_moves_few_witness :
  let down := <[1%nat := fresh (lit "10.0.0.2") 8082 <| healthy := false |>]> example_pool in
  getBackend (build example_pool) (lit "client") example_pool =
    getBackend (build example_pool) (lit "client") down ∨
  getBackend (build example_pool) (lit "client") example_pool = Some (Some 1%nat) ∨
  getBackend (build example_pool) (lit "client") down = Some (Some 1%nat).
Proof.
  apply health_change_moves_few. intros i Hi. rewrite list_lookup_insert_ne by lia. done.
Defined.
