(* ===== verification/Counts.v ===== *)
(** * Counting in maps

    How many entries of a finite map satisfy a test, and how the number changes
    when an entry does. *)

From S2P Require Import Prelude.

Definition count {A} (f : A → bool) (m : gmap Z A) : Z :=
  map_fold (λ _ x n, Z.b2z (f x) + n) 0 m.

Section Count.
Context {A : Type} (f : A → bool).
Implicit Types (m : gmap Z A).

Lemma count_empty : count f ∅ = 0.
Proof. apply map_fold_empty. Qed.

Lemma count_insert m k x : m !! k = None → count f (<[k := x]> m) = Z.b2z (f x) + count f m.
Proof. intros. unfold count. rewrite map_fold_insert_L; [done| |done]. intros. lia. Qed.

Lemma count_delete m k x : m !! k = Some x → count f m = Z.b2z (f x) + count f (delete k m).
Proof.
  intros Hk. rewrite <- (count_insert _ k) by apply lookup_delete_eq. by rewrite insert_delete_id.
Qed.

Lemma count_replace m k x y :
  m !! k = Some x → count f (<[k := y]> m) = count f m - Z.b2z (f x) + Z.b2z (f y).
Proof.
  intros Hk. rewrite (count_delete m k x) by done.
  rewrite <- insert_delete_eq, count_insert by apply lookup_delete_eq. lia.
Qed.

Lemma count_nonneg m : 0 ≤ count f m.
Proof.
  induction m as [|k x m Hk IH] using map_ind; [by rewrite count_empty|].
  rewrite count_insert by done. destruct (f x); cbn; lia.
Qed.

Lemma count_le_size m : count f m ≤ Z.of_nat (base.size m).
Proof.
  induction m as [|k x m Hk IH] using map_ind; [by rewrite count_empty|].
  rewrite count_insert, map_size_insert_None by done. destruct (f x); cbn [Z.b2z]; lia.
Qed.

Lemma count_pos m k x : m !! k = Some x → f x = true → 1 ≤ count f m.
Proof.
  intros Hk Hf. rewrite (count_delete m k x), Hf by done. pose proof (count_nonneg (delete k m)). cbn. lia.
Qed.
End Count.

Lemma count_ext {A} (f g : A → bool) (m : gmap Z A) :
  (∀ x, f x = g x) → count f m = count g m.
Proof.
  intros H. induction m as [|k x m Hk IH] using map_ind; [done|].
  by rewrite !count_insert, H, IH by done.
Qed.

Lemma alter_as_insert {A} (g : A → A) (m : gmap Z A) k x :
  m !! k = Some x → alter g k m = <[k := g x]> m.
Proof.
  intros Hk. apply map_eq. intros j. destruct (decide (j = k)) as [->|Hj].
  - by rewrite lookup_alter_eq, Hk, lookup_insert_eq.
  - by rewrite lookup_alter_ne, lookup_insert_ne by done.
Qed.

Lemma alter_missing {A} (g : A → A) (m : gmap Z A) k : m !! k = None → alter g k m = m.
Proof.
  intros Hk. apply map_eq. intros j. destruct (decide (j = k)) as [->|Hj].
  - by rewrite lookup_alter_eq, Hk.
  - by rewrite lookup_alter_ne by done.
Qed.

Lemma delete_altered {A} (g : A → A) (m : gmap Z A) k : delete k (alter g k m) = delete k m.
Proof.
  apply map_eq. intros j. destruct (decide (j = k)) as [->|Hj].
  - by rewrite !lookup_delete_eq.
  - by rewrite !lookup_delete_ne, lookup_alter_ne by done.
Qed.

(** An invariant of all entries after one of them changes. *)
Lemma map_Forall_alter {A} (P : Z → A → Prop) (g : A → A) (m : gmap Z A) k :
  map_Forall P m → (∀ x, m !! k = Some x → P k x → P k (g x)) → map_Forall P (alter g k m).
Proof.
  intros Hm Hg j y Hj. destruct (decide (j = k)) as [->|Hjk].
  - rewrite lookup_alter_eq in Hj. destruct (m !! k) as [x|] eqn:E; [|done].
    cbn in Hj. injection Hj as <-. apply Hg; [done|]. by apply Hm.
  - rewrite lookup_alter_ne in Hj by done. by apply Hm.
Qed.

Lemma count_alter {A} (f : A → bool) (g : A → A) (m : gmap Z A) k :
  (∀ x, m !! k = Some x → f (g x) = f x) → count f (alter g k m) = count f m.
Proof.
  intros Hf. destruct (m !! k) as [x|] eqn:E.
  - rewrite (alter_as_insert g m k x), (count_replace f m k x), Hf by done. lia.
  - by rewrite alter_missing.
Qed.

(** ** Sizes *)

Lemma size_altered {A} (g : A → A) (m : gmap Z A) k : base.size (alter g k m) = base.size m.
Proof. by rewrite <- !(size_dom (D := gset Z)), dom_alter_L. Qed.

Lemma size_deleted {A} (m : gmap Z A) k : (base.size (delete k m) ≤ base.size m)%nat.
Proof. rewrite map_size_delete. destruct (m !! k); cbn; lia. Qed.

Lemma size_deleted_lt {A} (m : gmap Z A) k x n :
  m !! k = Some x → (base.size m ≤ n)%nat → (base.size (delete k m) < n)%nat.
Proof.
  intros Hk Hn. rewrite map_size_delete, Hk.
  assert (base.size m ≠ 0%nat) by (apply (map_size_ne_0_lookup_2 m k); by exists x). lia.
Qed.

Lemma size_replaced {A} (m : gmap Z A) k y x : m !! k = Some x → base.size (<[k := y]> m) = base.size m.
Proof. intros Hk. by apply map_size_insert_Some. Qed.
