(* ===== verification/Health.v ===== *)
(** * The health checker

    [include/lb/HealthChecker.hpp] and [src/lb/HealthChecker.cpp]: one
    non-blocking HTTP probe per backend, driven by the load balancer's event
    loop. *)

From S2P Require Import Prelude Numerals Backends Sys Epoll Socket TimerFd.
Import Backend BackendPool.

Module HealthChecker.

(** Milliseconds, and the clock's nanoseconds. *)
Definition CONNECT_TIMEOUT_MS : Z := 500.
Definition RESPONSE_TIMEOUT_MS : Z := 500.
Definition MAX_RESPONSE_SIZE : Z := 4096.
Definition milliseconds (n : Z) : Z := n * 1000000.

Inductive State := Connecting | Writing | Reading.

#[global] Instance State_eq_dec : EqDecision State.
Proof. solve_decision. Defined.

Record Check := mk_Check {
  fd : Z;
  backend_index : nat;
  state : State;
  request : bytes;
  write_offset : Z;
  response : bytes;
  deadline : Z
}.

#[global] Instance eta_Check : Eta Check := fun c =>
  mk_Check (fd c) (backend_index c) (state c) (request c) (write_offset c) (response c)
    (deadline c).

(** The checker with the pool it points to: [backend_pool] says whether the
    pointer is set, [pool] is the load balancer's pool, which it shares. *)
Record HealthChecker := mk {
  checks : gmap Z Check;
  backend_pool : bool;
  pool : BackendPool
}.

#[global] Instance eta_HealthChecker : Eta HealthChecker := fun h =>
  mk (checks h) (backend_pool h) (pool h).

Section Checker.
Context {K : Kernel} {T : Traversal Check}.
Abbreviation M := (Prog HealthChecker).

Definition handles (fd : Z) : M bool := gets (λ h, bool_decide (is_Some (checks h !! fd))).

Definition active : M bool := gets (λ h, negb (bool_decide (checks h = ∅))).

Definition now : M Z :=
  a ← sys sys_now;
  mret (ret a).

(** Assignments through a reference to a backend or to a check. *)
Definition on_backend (index : nat) (f : Backend → Backend) : M () :=
  modify (λ h, match setBackend (pool h) index f with
               | Some p => h <| pool := p |>
               | None => h
               end).

Definition on_check (key : Z) (f : Check → Check) : M () :=
  modify (λ h, h <| checks := alter f key (checks h) |>).

(** The three statements every failure path runs on its backend.  The counter is
    an [int]; with a probe every five seconds it would take 340 years of failures
    to overflow it, which is not modelled. *)
Definition count_failure (b : Backend) : Backend :=
  let b := b <| consecutive_failures := consecutive_failures b + 1 |> in
  if consecutive_failures b >=? 2 then b <| healthy := false |> else b.

Definition count_success (b : Backend) : Backend :=
  b <| healthy := true |> <| consecutive_failures := 0 |>.

(** [backend_pool != nullptr && check.backend_index < backend_pool->size()] *)
Definition has_backend (h : HealthChecker) (c : Check) : bool :=
  backend_pool h && (backend_index c <? size (pool h))%nat.

(** [epoll.remove(fd); close(fd); checks.erase(it);] *)
Definition drop_check (key : Z) : M () :=
  Epoll.remove key ;;
  sys (sys_close key) ;;
  modify (λ h, h <| checks := delete key (checks h) |>).

Definition finishCheck (key : Z) (is_healthy : bool) : M () :=
  it ← gets (λ h, checks h !! key);
  match it with
  | None => mret ()
  | Some check =>
      known ← gets (λ h, has_backend h check);
      (if known
       then on_backend (backend_index check) (if is_healthy then count_success else count_failure)
       else mret ()) ;;
      drop_check key
  end.

Definition failCheck (key : Z) : M () :=
  it ← gets (λ h, checks h !! key);
  match it with
  | None => mret ()
  | Some check =>
      known ← gets (λ h, has_backend h check);
      (if known then on_backend (backend_index check) count_failure else mret ()) ;;
      drop_check key
  end.

(** The handlers take the check by reference: [key] is its place in the map. *)
Definition handleConnect (key : Z) (check : Check) : M () :=
  a ← sys (sys_getsockopt_error (fd check));
  if (ret a =? -1) || negb (value a =? 0) then failCheck (fd check)
  else
    on_check key (λ c, c <| state := Writing |>) ;;
    t ← now;
    on_check key (λ c, c <| deadline := t + milliseconds RESPONSE_TIMEOUT_MS |>).

(** [check] is the check as it is now; each turn of the [while] loop sends what
    is left of the request. *)
Fixpoint handleWrite (fuel : nat) (key : Z) (check : Check) : M () :=
  match fuel with
  | O => exhausted
  | S fuel' =>
      if write_offset check <? len (request check) then
        a ← sys (sys_send (fd check) (substr_from (request check) (write_offset check)));
        if ret a >? 0 then
          let f := λ c, c <| write_offset := write_offset c + ret a |> in
          on_check key f ;; handleWrite fuel' key (f check)
        else if (ret a =? -1) && (errno a =? EINTR) then handleWrite fuel' key check
        else if (ret a =? -1) && ((errno a =? EAGAIN) || (errno a =? EWOULDBLOCK)) then mret ()
        else failCheck (fd check)
      else
        on_check key (λ c, c <| state := Reading |>) ;;
        t ← now;
        on_check key (λ c, c <| deadline := t + milliseconds RESPONSE_TIMEOUT_MS |>)
  end.

Fixpoint handleRead (fuel : nat) (key : Z) (check : Check) : M () :=
  match fuel with
  | O => exhausted
  | S fuel' =>
      if len (response check) <? MAX_RESPONSE_SIZE then
        let remaining := sub64 MAX_RESPONSE_SIZE (len (response check)) in
        a ← sys (sys_recv (fd check) (Z.min 1024 remaining) false);
        if ret a >? 0 then
          let f := λ c, c <| response := response c ++ take (Z.to_nat (ret a)) (data a) |> in
          on_check key f ;;
          match find (response (f check)) (lit "HTTP/1.1 200 OK") 0 with
          | Some _ => finishCheck (fd check) true
          | None => handleRead fuel' key (f check)
          end
        else if ret a =? 0 then finishCheck (fd check) false
        else if errno a =? EINTR then handleRead fuel' key check
        else if (errno a =? EAGAIN) || (errno a =? EWOULDBLOCK) then mret ()
        else failCheck (fd check)
      else failCheck (fd check)
  end.

(** Runs [body] on the check [key], when it is there and [guard] holds of it;
    the result says whether the check is still there. *)
Definition stage (key : Z) (guard : Check → bool) (body : Check → M ()) : M bool :=
  it ← gets (λ h, checks h !! key);
  match it with
  | None => mret false
  | Some check => (if guard check then body check else mret ()) ;; handles key
  end.

Definition in_state (s : State) (c : Check) : bool := bool_decide (state c = s).

Definition handleEvent (fuel : nat) (key events : Z) : M () :=
  connected ← stage key (λ c, in_state Connecting c && has events EPOLLOUT) (handleConnect key);
  if negb connected then mret ()
  else
    written ← stage key (λ c, in_state Writing c && has events EPOLLOUT) (handleWrite fuel key);
    if negb written then mret ()
    else
      alive ← stage key (λ c, in_state Reading c && has events EPOLLIN) (handleRead fuel key);
      if negb alive then mret ()
      else if has events (Z.lor EPOLLERR EPOLLHUP) then failCheck key
      else mret ().

(** The end of the loop's body in [start]: watch the descriptor and store the
    check; [emplace] keeps an entry that is already there. *)
Definition add_check (fd : Z) (check : Check) (index : nat) : M () :=
  added ← Epoll.add fd (Z.lor (Z.lor (Z.lor EPOLLIN EPOLLOUT) EPOLLERR) EPOLLHUP);
  if negb added then sys (sys_close fd) ;; on_backend index count_failure
  else modify (λ h, match checks h !! fd with
                    | Some _ => h
                    | None => h <| checks := <[fd := check]> (checks h) |>
                    end).

(** One turn of the loop in [start]. *)
Definition start_check (index : nat) : M () :=
  b ← gets (λ h, getBackend (pool h) index);
  match b with
  | None => mret ()
  | Some backend =>
      r ← sys (sys_getaddrinfo (host backend) (int_to_string (port backend)));
      match addresses r with
      | [] => on_backend index count_failure
      | address :: _ =>
          if negb (ret r =? 0) then on_backend index count_failure
          else
            s ← sys sys_socket;
            let fd := ret s in
            if fd =? -1 then on_backend index count_failure
            else
              t ← now;
              let check := mk_Check fd index Connecting
                (lit "GET /health HTTP/1.1" ++ CRLF ++ lit "Host: " ++ host backend ++ CRLF ++
                 lit "Connection: close" ++ CRLF ++ CRLF)
                0 [] (t + milliseconds CONNECT_TIMEOUT_MS) in
              c ← sys (sys_connect fd address);
              if ret c =? 0 then
                t' ← now;
                add_check fd (check <| state := Writing |>
                  <| deadline := t' + milliseconds RESPONSE_TIMEOUT_MS |>) index
              else if errno c =? EINPROGRESS then add_check fd check index
              else sys (sys_close fd) ;; on_backend index count_failure
      end
  end.

Definition start : M () :=
  busy ← active;
  if busy then mret ()
  else
    modify (λ h, h <| backend_pool := true |>) ;;
    n ← gets (λ h, size (pool h));
    for_each (seq 0 n) start_check.

Definition nextTimeoutMs : M Z :=
  cs ← gets checks;
  match traverse cs with
  | [] => mret (-1)
  | (_, first) :: _ =>
      t ← now;
      let earliest := fold_left (λ e c, Z.min e (deadline c.2)) (traverse cs) (deadline first) in
      if earliest <=? t then mret 0
      else mret (Z.quot (earliest - t) (milliseconds 1))
  end.

Definition expire : M () :=
  t ← now;
  cs ← gets checks;
  for_each (List.filter (λ c, deadline c.2 <=? t) (traverse cs)) (λ c, failCheck c.1).

Definition cancelAll : M () :=
  cs ← gets checks;
  for_each (traverse cs) (λ c, Epoll.remove c.1 ;; sys (sys_close c.1) ;; mret ()) ;;
  modify (λ h, h <| checks := ∅ |>).

(** The destructor. *)
Definition destruct : M () :=
  cs ← gets checks;
  for_each (traverse cs) (λ c, sys (sys_close c.1) ;; mret ()) ;;
  modify (λ h, h <| checks := ∅ |>).

End Checker.
End HealthChecker.

(** ** Specification *)

Section Facts.
Import HealthChecker.
Context {K : Kernel} {T : Traversal Check}.
Implicit Types (h : HealthChecker) (c : Check) (w : history) (k : Z).

(** The verdict of a finished probe on its backend. *)
Definition verdict (ok : bool) (c : Check) (h : HealthChecker) : HealthChecker :=
  if has_backend h c
  then h <| pool := alter (if ok then count_success else count_failure) (backend_index c) (pool h) |>
  else h.

Definition settle (ok : bool) (k : Z) (c : Check) (h : HealthChecker) : HealthChecker :=
  let h := verdict ok c h in h <| checks := delete k (checks h) |>.

(** The check [k] replaced. *)
Definition put (k : Z) (c : Check) (h : HealthChecker) : HealthChecker :=
  h <| checks := <[k := c]> (checks h) |>.

(** What a call receives on the descriptor [k]. *)
Definition incoming (k : Z) (e : event) : bytes :=
  match e.1 with
  | sys_recv fd _ false =>
      if (fd =? k) && (ret e.2 >? 0) then take (Z.to_nat (ret e.2)) (data e.2) else []
  | _ => []
  end.

(** What has been received on the descriptor [k] since it was last opened. *)
Fixpoint heard (k : Z) (w : history) : bytes :=
  match w with
  | [] => []
  | e :: w' => if bool_decide (opened e = Some k) then [] else heard k w' ++ incoming k e
  end.

(** The text contains a 200 status line. *)
Definition passes (text : bytes) : bool := bool_decide (is_Some (find text (lit "HTTP/1.1 200 OK") 0)).

(** Neutral calls that receive [more] on [k] and nothing on other descriptors. *)
Definition hears (k : Z) (more : bytes) (w w' : history) : Prop :=
  quiet w w' ∧ heard k w' = heard k w ++ more ∧ ∀ j, j ≠ k → heard j w' = heard j w.

Definition silent (k : Z) : history → history → Prop := hears k [].

(** The check [c] goes on as [c']: what has been received on its descriptor was
    added to its response, and no 200 status line has come up. *)
Record goes_on (k : Z) (c : Check) (w : history) (c' : Check) (w' : history) : Prop := {
  on_fd : fd c' = fd c;
  on_index : backend_index c' = backend_index c;
  on_request : request c' = request c;
  on_offset : write_offset c ≤ write_offset c';
  on_heard : ∃ more, response c' = response c ++ more ∧ hears k more w w';
  on_passes : passes (response c) = false → passes (response c') = false
}.

(** What one event may do to the check [c] it is for: keep it, with no effect on
    any backend; or end it with exactly one verdict, releasing its descriptor.
    The verdict is a success exactly when what has been received contains a 200
    status line. *)
Inductive handled (k : Z) (c : Check) (h : HealthChecker) (w : history)
    : HealthChecker → history → Prop :=
| kept c' w' : goes_on k c w c' w' → handled k c h w (put k c' h) w'
| passed more w' :
    hears k more w w' → passes (response c ++ more) = true →
    handled k c h w (settle true k c h) (released k w')
| failed more w' :
    hears k more w w' → (passes (response c) = false → passes (response c ++ more) = false) →
    handled k c h w (settle false k c h) (released k w').

(** The health flag agrees with the counter; [HealthLog] relates both to the
    outcomes of the probes. *)
Definition steady (b : Backend) : Prop :=
  0 ≤ consecutive_failures b ∧ healthy b = (consecutive_failures b <? 2).

(** The checker keeps each check under its own descriptor. *)
Definition keyed (h : HealthChecker) : Prop := map_Forall (λ k c, fd c = k) (checks h).

(** [F] are the descriptors the rest of the program holds. *)
Definition checker_fds (F : gset Z) (h : HealthChecker) (w : history) : Prop :=
  F ## dom (checks h) ∧ holds_fds (F ∪ dom (checks h)) w ∧ keyed h.

(** ** Single operations *)

Lemma on_backend_eq i f h w :
  on_backend i f h w = Some ((), h <| pool := alter f i (pool h) |>, w).
Proof.
  unfold on_backend, modify, setBackend. do 3 f_equal. destruct (pool h !! i) as [b|] eqn:E; [done|].
  rewrite alter_out_of_range by done. by destruct h.
Qed.

Lemma drop_check_eq k h w :
  drop_check k h w = Some ((), h <| checks := delete k (checks h) |>, released k w).
Proof. done. Qed.

Lemma settle_checks ok k c h : checks (settle ok k c h) = delete k (checks h).
Proof. unfold settle, verdict. by destruct (has_backend h c). Qed.

Lemma finishCheck_eq k ok c h w :
  checks h !! k = Some c → finishCheck k ok h w = Some ((), settle ok k c h, released k w).
Proof.
  intros Hc. unfold finishCheck, bind, gets. rewrite Hc. unfold settle, verdict.
  destruct (has_backend h c); [by rewrite on_backend_eq, drop_check_eq|done].
Qed.

Lemma failCheck_eq k c h w :
  checks h !! k = Some c → failCheck k h w = Some ((), settle false k c h, released k w).
Proof. apply (finishCheck_eq k false). Qed.

Lemma put_put k c c' h : put k c' (put k c h) = put k c' h.
Proof. unfold put, set_with. cbn. by rewrite insert_insert_eq. Qed.

(** Ending a check forgets how it was changed before. *)
Lemma settle_insert ok k c c' h :
  backend_index c' = backend_index c →
  settle ok k c' (put k c' h) = settle ok k c h.
Proof.
  intros E. unfold settle, verdict, has_backend, put. cbn. rewrite E.
  destruct (_ && _); unfold set_with; cbn; by rewrite delete_insert_eq.
Qed.

Lemma hears_trans k m1 m2 w w1 w2 : hears k m1 w w1 → hears k m2 w1 w2 → hears k (m1 ++ m2) w w2.
Proof.
  intros (A1 & A2 & A3) (B1 & B2 & B3). split_and!; [by etransitivity| |].
  - by rewrite B2, A2, app_assoc.
  - intros j Hj. by rewrite B3, A3.
Qed.

Lemma silent_refl k w : silent k w w.
Proof. split_and!; [done|by rewrite app_nil_r|done]. Qed.

Lemma heard_neutral k w call a :
  neutral call = true → heard k ((call, a) :: w) = heard k w ++ incoming k (call, a).
Proof. by destruct call. Qed.

Lemma hears_call k w call a :
  neutral call = true → (∀ j, j ≠ k → incoming j (call, a) = []) →
  hears k (incoming k (call, a)) w ((call, a) :: w).
Proof.
  intros Hn Hi. split_and!; [by apply quiet_call|by apply heard_neutral|].
  intros j Hj. by rewrite heard_neutral, Hi, app_nil_r.
Qed.

Lemma silent_call k w call a :
  neutral call = true → (∀ j, incoming j (call, a) = []) → silent k w ((call, a) :: w).
Proof.
  intros Hn Hi. unfold silent. rewrite <- (Hi k). apply hears_call; [done|]. intros j _. apply Hi.
Qed.

(** A check whose text stays as it is. *)
Lemma goes_on_silent k c c' w w' :
  fd c' = fd c → backend_index c' = backend_index c → request c' = request c → response c' = response c →
  write_offset c ≤ write_offset c' → silent k w w' → goes_on k c w c' w'.
Proof.
  intros Hf Hb Hq Hr Ho Hs. split; try done; [|by rewrite Hr].
  exists []. by rewrite Hr, app_nil_r.
Qed.

Lemma goes_on_trans k c w c1 w1 c2 w2 :
  goes_on k c w c1 w1 → goes_on k c1 w1 c2 w2 → goes_on k c w c2 w2.
Proof.
  intros [A1 A2 A3 A4 (m1 & A5 & A6) A7] [B1 B2 B3 B4 (m2 & B5 & B6) B7].
  split; [congruence..|lia| |by auto].
  exists (m1 ++ m2). split; [by rewrite B5, A5, <- app_assoc|by eapply hears_trans].
Qed.

Lemma handled_trans k c c1 h w w1 h2 w2 :
  goes_on k c w c1 w1 → handled k c1 (put k c1 h) w1 h2 w2 → handled k c h w h2 w2.
Proof.
  intros Hon Hh. destruct Hh as [c' w' Hon'|more w' Hh Hp|more w' Hh Hp].
  - rewrite put_put. apply kept. by eapply goes_on_trans.
  - destruct Hon as [_ A2 _ _ (m1 & A5 & A6) _]. rewrite (settle_insert _ k c) by done.
    rewrite A5, <- app_assoc in Hp. eapply passed; [by eapply hears_trans|done].
  - destruct Hon as [_ A2 _ _ (m1 & A5 & A6) A7]. rewrite (settle_insert _ k c) by done.
    apply (failed _ _ _ _ (m1 ++ more)); [by eapply hears_trans|].
    intros H. rewrite app_assoc, <- A5. auto.
Qed.

Lemma on_check_eq k f c h w :
  checks h !! k = Some c → on_check k f h w = Some ((), put k (f c) h, w).
Proof.
  intros Hc. unfold on_check, modify, put. do 3 f_equal. unfold set_with. cbn. f_equal.
  apply map_eq. intros j. destruct (decide (j = k)) as [->|Hj].
  - by rewrite lookup_alter_eq, Hc, lookup_insert_eq.
  - by rewrite lookup_alter_ne, lookup_insert_ne by done.
Qed.

Lemma wp_on_check k f c Q h w :
  checks h !! k = Some c → Q () (put k (f c) h) w → wp (on_check k f) Q h w.
Proof. intros Hc HQ. unfold wp. by rewrite (on_check_eq k f c). Qed.

Lemma wp_now (Q : Z → HealthChecker → history → Prop) h w :
  Q (ret (respond w sys_now)) h ((sys_now, respond w sys_now) :: w) → wp now Q h w.
Proof. done. Qed.

Lemma put_same k c h : checks h !! k = Some c → put k c h = h.
Proof. intros Hc. unfold put, set_with. rewrite insert_id by done. by destruct h. Qed.

Lemma put_lookup k c h : checks (put k c h) !! k = Some c.
Proof. apply lookup_insert_eq. Qed.

Lemma handled_refl k c h w w' :
  checks h !! k = Some c → silent k w w' → handled k c h w h w'.
Proof. intros Hc Hs. rewrite <- (put_same k c h) at 2 by done. by apply kept, goes_on_silent. Qed.

Lemma handled_later k c h w w1 h' w' :
  checks h !! k = Some c → silent k w w1 → handled k c h w1 h' w' → handled k c h w h' w'.
Proof.
  intros Hc Hs Hh. apply (handled_trans k c c h w w1 h' w'); [by apply goes_on_silent|by rewrite put_same].
Qed.

Lemma wp_failCheck k c h w w1 :
  checks h !! k = Some c → silent k w w1 → wp (failCheck k) (λ _ h' w', handled k c h w h' w') h w1.
Proof.
  intros Hc Hs. unfold wp. rewrite (failCheck_eq k c) by done.
  by apply (failed _ _ _ _ []); rewrite ?app_nil_r.
Qed.

(** ** The handlers *)

(** The two ways a check moves to its next state. *)
Lemma next_state_spec k st n c h w :
  checks h !! k = Some c →
  wp (on_check k (λ c, c <| state := st |>) ;; t ← now;
      on_check k (λ c, c <| deadline := t + n |>))
    (λ _ h' w', handled k c h w h' w') h w.
Proof.
  intros Hc. wp_step. apply (wp_on_check k _ c); [done|]. wp_step. apply wp_now.
  eapply wp_on_check; [apply put_lookup|]. rewrite put_put.
  apply kept, goes_on_silent; try done. by apply silent_call.
Qed.

Lemma handleConnect_spec k c h w :
  checks h !! k = Some c → fd c = k →
  wp (handleConnect k c) (λ _ h' w', handled k c h w h' w') h w.
Proof.
  intros Hc <-. unfold handleConnect. wp_step. apply wp_sys. set (a := respond _ _).
  assert (silent (fd c) w ((sys_getsockopt_error (fd c), a) :: w)) as Hq by by apply silent_call.
  wp_step.
  - by eapply wp_failCheck.
  - eapply wp_mono; [|by apply next_state_spec]. intros [] h' w' Hh.
    by eapply handled_later.
Qed.

Lemma handleWrite_spec fuel k c h w :
  checks h !! k = Some c → fd c = k →
  wp (handleWrite fuel k c) (λ _ h' w', handled k c h w h' w') h w.
Proof.
  revert c h w. induction fuel as [|fuel IH]; intros c h w Hc Hk; subst k; [done|]. cbn [handleWrite].
  wp_step; [|by apply next_state_spec]. wp_step. apply wp_sys. set (a := respond _ _).
  match goal with |- wp _ _ _ ?w' => assert (silent (fd c) w w') as Hq by by apply silent_call end.
  wp_step; [|wp_step; [|wp_step]].
  - cbv zeta. wp_step. apply (wp_on_check _ _ c); [done|].
    eapply wp_mono; [|by apply IH; [apply put_lookup|]]. intros [] h' w' Hh.
    eapply handled_trans; [|exact Hh]. apply goes_on_silent; try done. cbn. bool_prop. lia.
  - eapply wp_mono; [|by apply IH]. intros [] h' w' Hh.
    by eapply handled_later.
  - apply wp_ret. by apply handled_refl.
  - by eapply wp_failCheck.
Qed.

Lemma handleRead_spec fuel k c h w :
  checks h !! k = Some c → fd c = k →
  wp (handleRead fuel k c) (λ _ h' w', handled k c h w h' w') h w.
Proof.
  revert c h w. induction fuel as [|fuel IH]; intros c h w Hc Hk; subst k; [done|]. cbn [handleRead].
  wp_step; [|by apply (wp_failCheck _ c); [|apply silent_refl]]. cbv zeta. wp_step. apply wp_sys. set (a := respond _ _).
  match goal with |- wp _ _ _ (?e :: _) =>
    assert (hears (fd c) (incoming (fd c) e) w (e :: w)) as Hh end.
  { apply hears_call; [done|]. intros j Hj. unfold incoming. cbn. by rewrite (proj2 (Z.eqb_neq _ _)). }
  match goal with |- wp _ _ _ ?w' => set (w1 := w') in * end.
  unfold incoming in Hh. cbn [fst snd] in Hh. rewrite Z.eqb_refl, andb_true_l in Hh. wp_step.
  - set (f := λ c0 : Check, _). wp_step. apply (wp_on_check _ f c); [done|].
    destruct (find _ _ _) as [i|] eqn:E.
    + unfold wp. rewrite (finishCheck_eq _ true (f c)) by apply put_lookup.
      rewrite (settle_insert _ _ c) by done. eapply passed; [exact Hh|].
      apply bool_decide_eq_true. by exists i.
    + eapply wp_mono; [|apply IH; [apply put_lookup|done]]. intros [] h' w' Hhd.
      eapply handled_trans; [|exact Hhd]. split; try done; [by eexists|].
      intros _. apply bool_decide_eq_false. intros [i Hfind]. by rewrite E in Hfind.
  - wp_step; [|wp_step; [|wp_step]].
    + unfold wp. rewrite (finishCheck_eq _ false c) by done.
      by apply (failed _ _ _ _ []); rewrite ?app_nil_r.
    + eapply wp_mono; [|by apply IH]. intros [] h' w' Hhd. by eapply handled_later.
    + apply wp_ret. by apply handled_refl.
    + by eapply wp_failCheck.
Qed.

Lemma handles_eq k h w :
  handles k h w = Some (bool_decide (is_Some (checks h !! k)), h, w).
Proof. done. Qed.

Lemma handled_alive k c h w h' w' :
  handled k c h w h' w' → is_Some (checks h' !! k) → ∃ c', goes_on k c w c' w' ∧ h' = put k c' h.
Proof.
  intros [c' w1 Hon|more w1 Hh Hp|more w1 Hh Hp] Hs; [by exists c'|..];
    rewrite settle_checks, lookup_delete_eq in Hs; by apply is_Some_None in Hs.
Qed.

(** A stage of [handleEvent] continues only with the check still there. *)
Lemma stage_spec k c guard body Q h w :
  checks h !! k = Some c →
  wp (body c) (λ _ h' w', handled k c h w h' w') h w →
  (∀ h' w', handled k c h w h' w' → Q false h' w') →
  (∀ c' w', goes_on k c w c' w' → Q true (put k c' h) w') →
  wp (stage k guard body) Q h w.
Proof.
  intros Hc Hbody Hfalse Htrue. unfold stage. wp_step. apply wp_gets. rewrite Hc. wp_step.
  assert (∀ h' w', handled k c h w h' w' →
    wp (handles k) Q h' w') as Hend.
  { intros h' w' Hh. unfold wp. rewrite handles_eq. case_bool_decide as Hs.
    - destruct (handled_alive _ _ _ _ _ _ Hh Hs) as (c' & Hon & ->). by apply Htrue.
    - by apply Hfalse. }
  wp_step.
  - eapply wp_mono; [|exact Hbody]. intros [] h' w'. apply Hend.
  - apply wp_ret, Hend. by apply handled_refl, silent_refl.
Qed.

Lemma handleEvent_spec fuel k events c h w :
  checks h !! k = Some c → fd c = k →
  wp (handleEvent fuel k events) (λ _ h' w', handled k c h w h' w') h w.
Proof.
  intros Hc Hk. unfold handleEvent. wp_step.
  apply (stage_spec k c _ _ _ h w); [done|by apply handleConnect_spec| |].
  { intros h' w' Hh. by apply wp_ret. }
  intros c1 w1 Hon1. assert (fd c1 = k) as Hk1 by by rewrite (on_fd _ _ _ _ _ Hon1).
  cbn [negb]. wp_step. apply (stage_spec k c1 _ _ _ _ w1); [apply put_lookup| | |].
  { by apply handleWrite_spec; [apply put_lookup|]. }
  { intros h' w' Hh. apply wp_ret. by eapply handled_trans. }
  intros c2 w2 Hon2. rewrite put_put. cbn [negb]. wp_step.
  pose proof (goes_on_trans _ _ _ _ _ _ _ Hon1 Hon2) as Hon.
  assert (fd c2 = k) as Hk2 by by rewrite (on_fd _ _ _ _ _ Hon).
  apply (stage_spec k c2 _ _ _ _ w2); [apply put_lookup| | |].
  { by apply handleRead_spec; [apply put_lookup|]. }
  { intros h' w' Hh. apply wp_ret. by eapply handled_trans. }
  intros c3 w3 Hon3. rewrite put_put. cbn [negb].
  pose proof (goes_on_trans _ _ _ _ _ _ _ Hon Hon3) as Honward.
  wp_step; [|by apply wp_ret, kept].
  eapply wp_mono; [|apply (wp_failCheck k c3); [apply put_lookup|apply silent_refl]].
  intros [] h' w' Hh. by eapply handled_trans.
Qed.

(** ** Invariants *)

(** [L] are the connection counts of the backends, which the checker leaves
    alone. *)
Record inv (F : gset Z) (L : list Z) (h : HealthChecker) (w : history) : Prop := {
  inv_fds : checker_fds F h w;
  inv_pool : Forall steady (pool h) ∧ connection_count <$> pool h = L;
  inv_offsets : map_Forall (λ _ c, 0 ≤ write_offset c) (checks h)
}.

Lemma steady_failure b : steady b → steady (count_failure b).
Proof.
  intros [H0 Hh]. unfold count_failure. cbv zeta. cbn. rewrite Z.geb_leb.
  destruct (Z.leb_spec 2 (consecutive_failures b + 1)); unfold steady; cbn; (split; [lia|]).
  - symmetry. apply Z.ltb_ge. lia.
  - rewrite Hh, !(proj2 (Z.ltb_lt _ _)) by lia. done.
Qed.

Lemma steady_success b : steady b → steady (count_success b).
Proof. by split. Qed.

Lemma verdict_pool ok c h :
  pool (verdict ok c h) = pool h ∨
  pool (verdict ok c h) = alter (if ok then count_success else count_failure) (backend_index c) (pool h).
Proof. unfold verdict. destruct (has_backend h c); [by right|by left]. Qed.

Lemma verdict_count (ok : bool) b :
  connection_count ((if ok then count_success else count_failure) b) = connection_count b.
Proof. destruct ok; [done|]. unfold count_failure. cbv zeta. by case_match. Qed.

Lemma steady_alter (p : BackendPool) L i (ok : bool) :
  Forall steady p ∧ connection_count <$> p = L →
  let p' := alter (if ok then count_success else count_failure) i p in
  Forall steady p' ∧ connection_count <$> p' = L.
Proof.
  intros [Hp <-]. split.
  - apply Forall_alter; [done|]. intros b _ Hb.
    destruct ok; [by apply steady_success|by apply steady_failure].
  - apply list_eq. intros j. rewrite !list_lookup_fmap, list_lookup_alter. case_decide as E; [subst j|done].
    destruct (p !! i); cbn; [|done]. by rewrite verdict_count.
Qed.

Lemma settle_inv F L ok k c h w w1 :
  inv F L h w → checks h !! k = Some c → quiet w w1 → inv F L (settle ok k c h) (released k w1).
Proof.
  intros [(HF & Hw & Hk) Hs Ho] Hc Hq.
  assert (k ∈ dom (checks h)) as Hd by by apply elem_of_dom_2 in Hc.
  split.
  - unfold checker_fds, keyed. rewrite settle_checks, dom_delete_L. split_and!; [set_solver| |].
    + replace (F ∪ _) with ((F ∪ dom (checks h)) ∖ {[k]}).
      { apply holds_released; [set_solver|by eapply holds_quiet]. }
      generalize dependent (dom (checks h)). intros. set_solver.
    + by apply map_Forall_delete.
  - change (pool (settle ok k c h)) with (pool (verdict ok c h)).
    destruct (verdict_pool ok c h) as [->| ->]; [done|by apply steady_alter].
  - rewrite settle_checks. by apply map_Forall_delete.
Qed.

Lemma handled_inv F L k c h w h' w' :
  inv F L h w → checks h !! k = Some c → handled k c h w h' w' → inv F L h' w'.
Proof.
  intros Hi Hc [c' w1 [Hf Hb Hreq Hoff (more & _ & Hq & _) _]|more w1 (Hq & _) _|more w1 (Hq & _) _];
    [|by eapply settle_inv..].
  destruct Hi as [(HF & Hw & Hk) Hs Ho]. split; [|done|].
  - unfold checker_fds, keyed. cbn.
    assert (dom (<[k:=c']> (checks h)) = dom (checks h)) as ->.
    { apply elem_of_dom_2 in Hc. rewrite dom_insert_L. set_solver. }
    split_and!; [done|by eapply holds_quiet|].
    apply map_Forall_insert_2; [|done]. specialize (Hk _ _ Hc). cbn in Hk. congruence.
  - cbn. apply map_Forall_insert_2; [|done]. specialize (Ho _ _ Hc). cbn in Ho. lia.
Qed.

Lemma handleEvent_inv F L fuel k events h w :
  inv F L h w → wp (handleEvent fuel k events) (λ _, inv F L) h w.
Proof.
  intros Hi. destruct (checks h !! k) as [c|] eqn:Hc.
  - destruct (inv_fds _ _ _ _ Hi) as (_ & _ & Hk). specialize (Hk _ _ Hc). cbn in Hk.
    eapply wp_mono; [|by apply (handleEvent_spec fuel k events c)].
    intros [] h' w' Hh. by eapply handled_inv.
  - unfold wp, handleEvent, stage, bind, gets. rewrite Hc. cbn. done.
Qed.

Lemma failCheck_inv F L k h w : inv F L h w → wp (failCheck k) (λ _, inv F L) h w.
Proof.
  intros Hi. destruct (checks h !! k) as [c|] eqn:Hc.
  - unfold wp. rewrite (failCheck_eq k c) by done. by apply (settle_inv F L false k c h w w).
  - unfold wp, failCheck, bind, gets. by rewrite Hc.
Qed.

Lemma inv_quiet F L h w w' : inv F L h w → quiet w w' → inv F L h w'.
Proof. intros [(? & Hw & ?) ? ?] Hq. split; [|done..]. split_and!; [done| |done]. by eapply holds_quiet. Qed.

Lemma expire_inv F L h w : inv F L h w → wp expire (λ _, inv F L) h w.
Proof.
  intros Hi. unfold expire. wp_step. apply wp_now. wp_step. apply wp_gets.
  apply wp_for_each.
  - intros [k c] h' w' _ Hi'. by apply failCheck_inv.
  - eapply inv_quiet; [done|]. by apply quiet_call.
Qed.

(** The invariant survives a failure that is counted without a check. *)
Lemma on_backend_inv F L i h w : inv F L h w → wp (on_backend i count_failure) (λ _, inv F L) h w.
Proof.
  intros [Hf Hs Ho]. unfold wp. rewrite on_backend_eq. split; [done| |done].
  by apply (steady_alter _ L i false).
Qed.

(** ** Starting probes *)

(** What starting the probe of backend [i] does: a new check for it, with nothing
    received yet, or a failure counted at once. *)
Inductive started (i : nat) (h : HealthChecker) : HealthChecker → Prop :=
| probing k c :
    checks h !! k = None → backend_index c = i → response c = [] → started i h (put k c h)
| refused : started i h (h <| pool := alter count_failure i (pool h) |>).

Lemma holds_closed F fd a w :
  fd ∉ F → holds_fds ({[ fd ]} ∪ F) w → holds_fds F ((sys_close fd, a) :: w).
Proof.
  intros Hfd Hw. replace F with (({[ fd ]} ∪ F) ∖ {[ fd ]}) by set_solver.
  apply holds_close; [set_solver|done].
Qed.

Lemma inv_put F L k c h w :
  inv F L h w → k ∉ F → k ∉ dom (checks h) → fd c = k → 0 ≤ write_offset c →
  ∀ w', holds_fds ({[ k ]} ∪ (F ∪ dom (checks h))) w' → inv F L (put k c h) w'.
Proof.
  intros [(HF & _ & Hk) Hs Ho] HkF Hkd Hf Hoff w' Hw. split; [|done|].
  - unfold checker_fds, keyed. cbn. rewrite dom_insert_L. split_and!; [set_solver| |].
    + by replace (F ∪ ({[k]} ∪ dom (checks h))) with ({[k]} ∪ (F ∪ dom (checks h))) by set_solver.
    + by apply map_Forall_insert_2.
  - cbn. by apply map_Forall_insert_2.
Qed.

Lemma add_check_spec F L k c i h w w' :
  inv F L h w → k ∉ F → k ∉ dom (checks h) → fd c = k → backend_index c = i → response c = [] →
  0 ≤ write_offset c → holds_fds ({[ k ]} ∪ (F ∪ dom (checks h))) w' →
  wp (add_check k c i) (λ _ h' w', inv F L h' w' ∧ started i h h') h w'.
Proof.
  intros Hi HkF Hkd Hf Hb Hr Hoff Hw. unfold add_check, Epoll.add. wp_step. wp_step. apply wp_sys.
  apply wp_ret. assert (k ∉ F ∪ dom (checks h)) as Hk by set_solver. wp_step.
  - wp_step. apply wp_sys. unfold wp. rewrite on_backend_eq. split; [|constructor].
    destruct Hi as [(HF & _ & Hkey) Hs Ho]. split; [|by apply (steady_alter _ L i false)|done].
    split_and!; [done| |done]. apply holds_closed; [done|]. by apply holds_neutral.
  - apply wp_modify. pose proof Hkd as Hnone. apply not_elem_of_dom in Hnone. rewrite Hnone.
    split; [|by apply (probing _ _ k c)]. by apply (inv_put F L k c h w); [..|apply holds_neutral].
Qed.

Lemma start_check_spec {FK : FreshFds K} F L i h w :
  inv F L h w → wp (start_check i)
    (λ _ h' w', inv F L h' w' ∧ ((i < size (pool h))%nat → started i h h') ∧
       ((size (pool h) ≤ i)%nat → h' = h)) h w.
Proof.
  intros Hi. unfold start_check. wp_step. apply wp_gets. unfold BackendPool.getBackend.
  destruct (pool h !! i) as [b|] eqn:Hb.
  2:{ apply wp_ret. apply lookup_ge_None in Hb. split_and!; [done|unfold size; lia|done]. }
  assert (i < size (pool h))%nat as Hlt by by eapply lookup_lt_Some.
  match goal with |- wp ?m _ _ _ =>
    assert (wp m (λ _ h' w', inv F L h' w' ∧ started i h h') h w) as Hmain end.
  2:{ eapply wp_mono; [|exact Hmain]. intros [] h' w' [? ?]. split_and!; [done..|lia]. }
  assert (∀ w', quiet w w' → wp (on_backend i count_failure) (λ _ h' w', inv F L h' w' ∧ started i h h') h w')
    as Hfail.
  { intros w' Hq. pose proof (on_backend_inv F L i h w' (inv_quiet _ _ _ _ _ Hi Hq)) as H.
    unfold wp in *. rewrite on_backend_eq in *. split; [done|constructor]. }
  wp_step. apply wp_sys. set (r := respond _ _).
  match goal with |- wp _ _ _ ?w' => assert (quiet w w') as Hq by by apply quiet_call end.
  destruct (addresses r) as [|address rest]; [by apply Hfail|].
  destruct (ret r =? 0); [|by apply Hfail]. cbn [negb]. wp_step. apply wp_sys.
  set (s := respond _ _). set (w1 := (_, r) :: w) in *. cbv zeta.
  destruct (inv_fds _ _ _ _ Hi) as (HF & Hw & Hk).
  assert (holds_fds (F ∪ dom (checks h)) w1) as Hw1 by by eapply holds_quiet.
  destruct (Z.eqb_spec (ret s) (-1)) as [E|E].
  { assert (holds_fds (F ∪ dom (checks h)) ((sys_socket, s) :: w1)) as Hw2.
    { apply holds_open_failed; [|done..]. unfold opened. cbn. by rewrite E. }
    unfold wp. rewrite on_backend_eq. split; [|constructor]. destruct Hi as [_ Hs Ho].
    split; [|by apply (steady_alter _ L i false)|done]. by split_and!. }
  assert (opened (sys_socket, s) = Some (ret s)) as Hopen.
  { unfold opened. cbn. by rewrite (proj2 (Z.eqb_neq _ _)). }
  pose proof (FK w1 sys_socket _ Hopen) as [Hnn Hfresh].
  rewrite (proj1 Hw1) in Hfresh. apply not_elem_of_union in Hfresh as [HsF Hsd].
  pose proof (holds_open _ _ _ _ _ Hopen Hw1) as Hw2.
  wp_step. apply wp_now. wp_step. apply wp_sys. set (a := respond _ _).
  match goal with |- wp _ _ _ ?w' => assert (holds_fds ({[ret s]} ∪ (F ∪ dom (checks h))) w') as Hw3
    by (repeat (apply holds_neutral; [done|]); exact Hw2) end.
  wp_step; [|wp_step].
  - wp_step. apply wp_now. eapply add_check_spec; try done. by apply holds_neutral.
  - by eapply add_check_spec.
  - wp_step. apply wp_sys. unfold wp. rewrite on_backend_eq. split; [|constructor].
    destruct Hi as [_ Hs Ho]. split; [|by apply (steady_alter _ L i false)|done]. split_and!; [done| |done].
    apply holds_closed; [set_solver|done].
Qed.

Definition no_check (i : nat) (h : HealthChecker) : Prop :=
  ∀ k c, checks h !! k = Some c → backend_index c ≠ i.

(** Backend [i], [b] before the round, is being probed or has failed at once. *)
Definition covered (i : nat) (b : Backend) (h : HealthChecker) : Prop :=
  (pool h !! i = Some b ∧ ∃ k c, checks h !! k = Some c ∧ backend_index c = i) ∨
  (pool h !! i = Some (count_failure b) ∧ no_check i h).

(** The round after the backends below [m]. *)
Definition progress (m : nat) (p : BackendPool) (h : HealthChecker) : Prop :=
  size (pool h) = size p ∧ backend_pool h = true ∧
  map_Forall (λ _ c, response c = [] ∧ (backend_index c < m)%nat) (checks h) ∧
  ∀ i b, p !! i = Some b →
    ((i < m)%nat → covered i b h) ∧ ((m ≤ i)%nat → pool h !! i = Some b ∧ no_check i h).

Lemma started_progress m p h h' :
  progress m p h → started m h h' → progress (S m) p h'.
Proof.
  intros (Hsize & Ha & Hnew & Hp) Hs.
  assert (size (pool h') = size p ∧ backend_pool h' = true ∧
    map_Forall (λ _ c, response c = [] ∧ (backend_index c < S m)%nat) (checks h')) as (Hs1 & Hs2 & Hs3).
  { assert (map_Forall (λ _ c, response c = [] ∧ (backend_index c < S m)%nat) (checks h)) as Hnew'.
    { intros k c Hk. destruct (Hnew k c Hk). split; [done|lia]. }
    destruct Hs as [k c Hk Hc Hr|]; (split; [cbn; unfold size; by rewrite ?length_alter|]);
      (split; [done|]); [|done]. cbn. apply map_Forall_insert_2; [|done]. split; [done|lia]. }
  split; [done|]. split; [done|]. split; [done|].
  destruct Hs as [k c Hk Hc _|]; intros i b Hb; destruct (Hp i b Hb) as [Hlt Hge]; unfold covered, no_check, put in *; cbn in *.
  - split.
    + intros Hi. destruct (decide (i = m)) as [->|Him].
      { left. split; [by apply Hge|]. exists k, c. by rewrite lookup_insert_eq. }
      destruct (Hlt ltac:(lia)) as [(HpI & k' & c' & Hk' & Hc')|(HpI & Hno)]; [left|right].
      * split; [done|]. exists k', c'. by rewrite lookup_insert_ne by congruence.
      * split; [done|]. intros k' c' [(<- & <-)|[_ H]]%lookup_insert_Some; [lia|by eapply Hno].
    + intros Hi. destruct (Hge ltac:(lia)) as [HpI Hno]. split; [done|].
      intros k' c' [(<- & <-)|[_ H]]%lookup_insert_Some; [lia|by eapply Hno].
  - split; intros Hi.
    + destruct (decide (i = m)) as [->|Him].
      { destruct (Hge ltac:(lia)) as [HpI Hno]. right. split; [|done].
        by rewrite list_lookup_alter_eq, HpI. }
      rewrite list_lookup_alter_ne by done. apply Hlt. lia.
    + rewrite list_lookup_alter_ne by lia. apply Hge. lia.
Qed.

Lemma start_spec {FK : FreshFds K} F L h w :
  inv F L h w → wp start
    (λ _ h' w', inv F L h' w' ∧ (checks h = ∅ → progress (size (pool h)) (pool h) h')) h w.
Proof.
  intros Hi. unfold start. wp_step. apply wp_gets. case_bool_decide as He; cbn [negb].
  2:{ by apply wp_ret. }
  wp_step. apply wp_modify. wp_step. apply wp_gets. cbn.
  set (h1 := h <| backend_pool := true |>). set (n := size (pool h)).
  assert (progress 0 (pool h) h1) as H0.
  { split; [done|]. split; [done|]. split; [cbn; rewrite He; apply map_Forall_empty|].
    intros i b Hb. split; [lia|]. intros _. split; [done|].
    intros k c Hc. cbn in Hc. rewrite He, lookup_empty in Hc. done. }
  assert (inv F L h1 w) as Hi1 by by destruct Hi.
  eapply wp_mono; [|apply (wp_for_seq (λ m h' w', inv F L h' w' ∧ progress m (pool h) h') _ 0 n)];
    [by intros [] h' w' [? ?]| |done].
  intros m h' w' Hm [Hi' Hp]. eapply wp_mono; [|by apply (start_check_spec F L)].
  intros [] h2 w2 (Hi2 & Hs & _). split; [done|]. eapply started_progress; [done|].
  apply Hs. destruct Hp as [-> _]. lia.
Qed.

Lemma cancelAll_spec F L h w :
  inv F L h w → wp cancelAll (λ _ h' w', checks h' = ∅ ∧ pool h' = pool h ∧ holds_fds F w') h w.
Proof.
  intros [(HF & Hw & _) _ _]. unfold cancelAll. wp_step. apply wp_gets. wp_step.
  destruct (traverse_keys (checks h)) as [Hnd Hdom].
  eapply wp_mono; [|apply (wp_close_each fst (λ h', pool h' = pool h) F)]; try done.
  - by rewrite Hdom.
  - intros [k c] G h' w' _ HG Hp HwG. wp_step. unfold Epoll.remove. wp_step. apply wp_sys.
    apply wp_ret. wp_step. apply wp_sys. apply wp_ret. split; [done|].
    apply holds_close; [done|]. by apply holds_neutral.
  - by rewrite Hdom.
Qed.

(** ** Expiry *)

Definition expired (t : Z) (c : Z * Check) : bool := deadline c.2 <=? t.

Definition failures (i : nat) (l : list (Z * Check)) : nat :=
  length (List.filter (λ c : Z * Check, (backend_index c.2 =? i)%nat) l).

Lemma settle_failed_lookup k c h i :
  backend_pool h = true →
  pool (settle false k c h) !! i =
  (if (backend_index c =? i)%nat then count_failure <$> pool h !! i else pool h !! i).
Proof.
  intros Ha. change (pool (settle false k c h)) with (pool (verdict false c h)).
  assert (pool (verdict false c h) = alter count_failure (backend_index c) (pool h)) as ->.
  { unfold verdict, has_backend. rewrite Ha, andb_true_l.
    destruct (Nat.ltb_spec (backend_index c) (size (pool h))) as [Hi|Hi]; [done|].
    symmetry. apply alter_out_of_range, lookup_ge_None. done. }
  destruct (Nat.eqb_spec (backend_index c) i) as [<-|Hi].
  - apply list_lookup_alter_eq.
  - by apply list_lookup_alter_ne.
Qed.

Lemma fail_all_spec (l : list (Z * Check)) h w :
  NoDup (fst <$> l) → (∀ k c, (k, c) ∈ l → checks h !! k = Some c) → backend_pool h = true →
  ∃ h' w', for_each l (λ e, failCheck e.1) h w = Some ((), h', w') ∧
    backend_pool h' = true ∧
    (∀ k, checks h' !! k = if decide (k ∈ fst <$> l) then None else checks h !! k) ∧
    (∀ i, pool h' !! i = Nat.iter (failures i l) count_failure <$> pool h !! i).
Proof.
  revert h w. induction l as [|[k c] l IH]; intros h w Hnd Hl Ha.
  { exists h, w. split_and!; [done..|]. intros i. cbn. by destruct (pool h !! i). }
  rewrite fmap_cons in *. cbn [fst] in *. apply NoDup_cons in Hnd as [Hk Hnd].
  assert (checks h !! k = Some c) as Hc by (apply Hl; by left).
  destruct (IH (settle false k c h) (released k w)) as (h' & w' & E & Ha' & Hch & Hp); [done| | |].
  - intros k' c' Hin. rewrite settle_checks, lookup_delete_ne; [apply Hl; by right|].
    intros <-. apply Hk. apply list_elem_of_fmap. by exists (k, c').
  - unfold settle, verdict. by destruct (has_backend h c).
  - exists h', w'. split_and!.
    + cbn [for_each]. unfold bind. by rewrite (failCheck_eq k c).
    + done.
    + intros j. rewrite Hch, settle_checks. destruct (decide (j = k)) as [->|Hj].
      * rewrite lookup_delete_eq, (decide_True (P := k ∈ k :: _)) by by left.
        by destruct (decide _).
      * rewrite lookup_delete_ne by done. repeat case_decide; try done; set_solver.
    + intros i. rewrite Hp, settle_failed_lookup by done. unfold failures. cbn [List.filter snd].
      destruct (_ =? i)%nat; [|done]. destruct (pool h !! i) as [b|]; [|done].
      cbn [fmap option_fmap option_map length]. by rewrite Nat.iter_succ_r.
Qed.

(** The overdue checks, in the order [expire] meets them. *)
Definition overdue (t : Z) (h : HealthChecker) : list (Z * Check) :=
  List.filter (expired t) (traverse (checks h)).

Lemma overdue_lookup t k c h : (k, c) ∈ overdue t h ↔ checks h !! k = Some c ∧ deadline c ≤ t.
Proof.
  unfold overdue. rewrite list_elem_of_In, filter_In, <- list_elem_of_In, traverse_lookup.
  unfold expired. cbn. by rewrite Z.leb_le.
Qed.

Lemma overdue_keys t h : NoDup (fst <$> overdue t h).
Proof.
  destruct (traverse_keys (checks h)) as [Hnd _]. unfold overdue.
  induction (traverse (checks h)) as [|[k c] l IH]; cbn in *; [done|].
  apply NoDup_cons in Hnd as [Hk Hnd]. destruct (expired _ _); [|by apply IH]. cbn.
  apply NoDup_cons. split; [|by apply IH]. intros Hin. apply Hk.
  apply list_elem_of_fmap in Hin as (e & -> & He). apply list_elem_of_fmap. exists e.
  split; [done|]. apply list_elem_of_In. by apply list_elem_of_In, filter_In in He as [? _].
Qed.

Lemma expire_spec h w :
  backend_pool h = true →
  let t := ret (respond w sys_now) in
  ∃ h' w', expire h w = Some ((), h', w') ∧ backend_pool h' = true ∧
    (∀ k c, checks h' !! k = Some c ↔ checks h !! k = Some c ∧ t < deadline c) ∧
    (∀ i, pool h' !! i = Nat.iter (failures i (overdue t h)) count_failure <$> pool h !! i).
Proof.
  intros Ha t.
  destruct (fail_all_spec (overdue t h) h ((sys_now, respond w sys_now) :: w))
    as (h' & w' & E & Ha' & Hch & Hp); [apply overdue_keys| |done|].
  { intros k c Hin. by apply overdue_lookup in Hin as [? _]. }
  exists h', w'. split; [done|]. split; [done|]. split; [|done]. intros k c. rewrite Hch.
  destruct (decide (k ∈ fst <$> overdue t h)) as [Hin|Hin].
  - apply list_elem_of_fmap in Hin as ([k' c'] & -> & [Hc' Hd]%overdue_lookup). cbn.
    split; [done|]. intros [Hc Hlt]. rewrite Hc' in Hc. injection Hc as ->. lia.
  - split; [|by intros []]. intros Hc. split; [done|].
    destruct (Z.le_gt_cases (deadline c) t) as [Hd|]; [|lia]. exfalso. apply Hin.
    apply list_elem_of_fmap. exists (k, c). split; [done|]. by apply overdue_lookup.
Qed.

(** ** Termination *)

Lemma handleWrite_returns n {P : Patient K n} fuel k c h w :
  checks h !! k = Some c → fd c = k →
  (Z.to_nat (len (request c) - write_offset c) * (n + 1) + budget n w < fuel)%nat →
  returns (handleWrite fuel k c) h w.
Proof.
  revert c h w. induction fuel as [|fuel IH]; intros c h w Hc Hk Hf; subst k;
    [by apply Nat.nlt_0_r in Hf|]. cbn [handleWrite].
  destruct (Z.ltb_spec (write_offset c) (len (request c))) as [Hlt|Hge].
  2:{ unfold returns, bind, now, bind, sys. by eexists. }
  apply returns_sys. set (a := respond _ _). rewrite Z.gtb_ltb. destruct (Z.ltb_spec 0 (ret a)) as [Hr|Hr].
  - apply returns_bind; [by eexists|]. eapply wp_on_check; [done|]. apply IH; [apply put_lookup|done|].
    cbn. pose proof (budget_le n ((sys_send (fd c) (substr_from (request c) (write_offset c)), a) :: w)).
    assert (Z.to_nat (len (request c) - (write_offset c + ret a)) <
      Z.to_nat (len (request c) - write_offset c))%nat by lia. nia.
  - destruct (_ && (errno a =? EINTR)) eqn:E.
    + apply IH; [done..|]. eapply Nat.lt_le_trans; [|apply Nat.lt_succ_r, Hf].
      apply Nat.add_lt_mono_l. by apply budget_interrupted.
    + destruct (_ && (_ || _)); [by eexists|]. unfold returns. rewrite (failCheck_eq _ c) by done. by eexists.
Qed.

Lemma handleRead_returns n {P : Patient K n} {HK : Honest K} fuel k c h w :
  checks h !! k = Some c → fd c = k →
  (Z.to_nat (MAX_RESPONSE_SIZE - len (response c)) * (n + 1) + budget n w < fuel)%nat →
  returns (handleRead fuel k c) h w.
Proof.
  revert c h w. induction fuel as [|fuel IH]; intros c h w Hc Hk Hf; subst k;
    [by apply Nat.nlt_0_r in Hf|]. cbn [handleRead].
  assert (∀ k b c h w, checks h !! k = Some c → returns (finishCheck k b) h w) as Hfin.
  { intros k b c0 h0 w0 Hc0. unfold returns. rewrite (finishCheck_eq _ b c0) by done. by eexists. }
  destruct (Z.ltb_spec (len (response c)) MAX_RESPONSE_SIZE) as [Hlt|Hge]; [|by apply (Hfin _ false _ _ _ Hc)].
  cbv zeta. apply returns_sys. match goal with |- context [respond w ?x] => set (call := x) end.
  pose proof (HK w call) as Hhonest. set (a := respond w call) in *. rewrite Z.gtb_ltb.
  destruct (Z.ltb_spec 0 (ret a)) as [Hr|Hr].
  - apply returns_bind; [by eexists|]. eapply wp_on_check; [done|].
    set (c1 := set_with _ _). destruct (find _ _ _); [apply (Hfin _ true _ _ _ (put_lookup _ c1 h))|].
    apply IH; [apply put_lookup|done|]. destruct Hhonest as (_ & _ & Hdata). specialize (Hdata Hr).
    assert (len (response c1) = len (response c) + ret a) as ->.
    { subst c1. cbn. rewrite len_app, take_ge by len_lia. by rewrite Hdata. }
    pose proof (budget_le n ((call, a) :: w)).
    assert (Z.to_nat (MAX_RESPONSE_SIZE - (len (response c) + ret a)) <
      Z.to_nat (MAX_RESPONSE_SIZE - len (response c)))%nat by lia. nia.
  - destruct (Z.eqb_spec (ret a) 0) as [E0|E0]; [by apply (Hfin _ false _ _ _ Hc)|].
    destruct (errno a =? EINTR) eqn:E; [|destruct (_ || _); [by eexists|by apply (Hfin _ false _ _ _ Hc)]].
    apply IH; [done..|]. eapply Nat.lt_le_trans; [|apply Nat.lt_succ_r, Hf].
    apply Nat.add_lt_mono_l, budget_interrupted; [done|]. fold a. unfold interrupted. rewrite E.
    destruct Hhonest as [Hlow _]. apply andb_true_iff. split; [|done]. apply Z.eqb_eq. lia.
Qed.

Lemma handleConnect_returns k c h w :
  checks h !! k = Some c → fd c = k → returns (handleConnect k c) h w.
Proof.
  intros Hc <-. unfold handleConnect. apply returns_sys. destruct (_ || _).
  - unfold returns. rewrite (failCheck_eq _ c) by done. by eexists.
  - unfold returns, bind, now, bind, sys. by eexists.
Qed.

Lemma stage_returns k c guard body h w :
  checks h !! k = Some c → returns (body c) h w → returns (stage k guard body) h w.
Proof.
  intros Hc Hb. unfold stage. apply returns_gets. rewrite Hc.
  apply returns_bind; [destruct (guard c); [done|by eexists]|].
  unfold wp. destruct (_ h w) as [[[? ?] ?]|]; [by eexists|done].
Qed.

(** Fuel for one event: every byte that can be sent or received takes a turn,
    and between two of them the kernel may interrupt up to [n] calls. *)
Definition event_fuel (n : nat) (c : Check) : nat :=
  S (Z.to_nat (Z.max (len (request c)) MAX_RESPONSE_SIZE) * (n + 1) + n).

Lemma handleEvent_returns n {P : Patient K n} {HK : Honest K} k events c h w :
  checks h !! k = Some c → fd c = k → 0 ≤ write_offset c →
  returns (handleEvent (event_fuel n c) k events) h w.
Proof.
  intros Hc Hk Hoff. unfold handleEvent.
  apply returns_bind; [eapply stage_returns; [done|by apply handleConnect_returns]|].
  apply (stage_spec k c _ _ _ h w); [done|by apply handleConnect_spec| |].
  { intros h' w' Hh. by eexists. }
  intros c1 w1 Hon1. pose proof Hon1 as [Hf1 _ He1 Ho1 _ _]. cbn [negb].
  apply returns_bind.
  { eapply stage_returns; [apply put_lookup|].
    apply (handleWrite_returns n); [apply put_lookup|congruence|].
    rewrite He1. unfold event_fuel. pose proof (budget_le n w1).
    assert (Z.to_nat (len (request c) - write_offset c1) ≤
      Z.to_nat (Z.max (len (request c)) MAX_RESPONSE_SIZE))%nat by lia. nia. }
  apply (stage_spec k c1 _ _ _ _ w1); [apply put_lookup| | |].
  { apply handleWrite_spec; [apply put_lookup|congruence]. }
  { intros h' w' Hh. by eexists. }
  intros c2 w2 [Hf2 _ _ _ _ _]. rewrite put_put. cbn [negb].
  apply returns_bind.
  { eapply stage_returns; [apply put_lookup|].
    apply (handleRead_returns n); [apply put_lookup|congruence|].
    unfold event_fuel. pose proof (budget_le n w2). pose proof (len_nonneg (response c2)).
    assert (Z.to_nat (MAX_RESPONSE_SIZE - len (response c2)) ≤
      Z.to_nat (Z.max (len (request c)) MAX_RESPONSE_SIZE))%nat by lia. nia. }
  apply (stage_spec k c2 _ _ _ _ w2); [apply put_lookup| | |].
  { apply handleRead_spec; [apply put_lookup|congruence]. }
  { intros h' w' Hh. by eexists. }
  intros c3 w3 Hon3. rewrite put_put. cbn [negb].
  destruct (has _ _); [|by eexists]. unfold returns.
  rewrite (failCheck_eq _ c3) by apply put_lookup. by eexists.
Qed.

(** ** Properties *)

(** C22: An event for a probe is always handled to the end, and then either the
    probe goes on and no backend was touched, or it is over: its descriptor has
    been removed from epoll and closed, and its backend has received exactly one
    verdict, a success exactly when the text received contains a 200 status
    line. *)
Theorem handleEvent_verdict n (P : Patient K n) (HK : Honest K) k events c h w :
  checks h !! k = Some c → fd c = k → 0 ≤ write_offset c →
  ∃ h' w', handleEvent (event_fuel n c) k events h w = Some ((), h', w') ∧ handled k c h w h' w'.
Proof.
  intros Hc Hk Ho. destruct (handleEvent_returns n k events c h w Hc Hk Ho) as [[[[] h'] w'] E].
  exists h', w'. split; [done|]. pose proof (handleEvent_spec (event_fuel n c) k events c h w Hc Hk) as Hs.
  unfold wp in Hs. by rewrite E in Hs.
Qed.

(** C23: The checker leaks no descriptor and closes none twice: whatever it does,
    the open descriptors are those of the rest of the program and one per
    check, and after [cancelAll] none of the checker's is left. *)
Theorem checker_descriptors (FK : FreshFds K) F L fuel k events h w :
  inv F L h w →
  let keeps (m : Prog HealthChecker ()) := wp m (λ _ h' w', checker_fds F h' w') h w in
  keeps start ∧ keeps (handleEvent fuel k events) ∧ keeps expire ∧
  wp cancelAll (λ _ h' w', checks h' = ∅ ∧ holds_fds F w') h w.
Proof.
  intros Hi keeps. subst keeps. cbv beta. split_and!.
  - eapply wp_mono; [|by eapply start_spec]. intros ? h' w' [H _]. apply H.
  - eapply wp_mono; [|by eapply handleEvent_inv]. intros ? h' w' H. apply H.
  - eapply wp_mono; [|by eapply expire_inv]. intros ? h' w' H. apply H.
  - eapply wp_mono; [|by eapply cancelAll_spec]. intros ? h' w' (? & _ & ?). done.
Qed.

(** A round of probes covers every backend exactly once: after [start] on an
    idle checker each backend is either being probed, its health unchanged, or
    has been given one failure, because no connection could be started. *)
Theorem start_covers_all (FK : FreshFds K) F L h w i b :
  inv F L h w → checks h = ∅ → pool h !! i = Some b →
  wp start (λ _ h' _, covered i b h') h w.
Proof.
  intros Hi He Hb. eapply wp_mono; [|by apply (start_spec F L)].
  intros [] h' w' [_ Hp]. destruct (Hp He) as (_ & _ & _ & Hc). destruct (Hc i b Hb) as [Hlt _].
  apply Hlt. by eapply lookup_lt_Some.
Qed.

(** [expire] ends exactly the overdue probes: those whose deadline has
    passed are removed, each giving its backend one failure, and all others and
    their backends stay as they are. *)
Theorem expire_exact h w :
  backend_pool h = true →
  let t := ret (respond w sys_now) in
  ∃ h' w', expire h w = Some ((), h', w') ∧
    (∀ k c, checks h' !! k = Some c ↔ checks h !! k = Some c ∧ t < deadline c) ∧
    (∀ i, pool h' !! i = Nat.iter (failures i (overdue t h)) count_failure <$> pool h !! i).
Proof. intros Ha t. destruct (expire_spec h w Ha) as (h' & w' & E & _ & H). by exists h', w'. Qed.

End Facts.

(** ** Witnesses *)

Section Witnesses.
Import HealthChecker.

Local Instance demo : Kernel := demo_kernel (lit "HTTP/1.1 200 OK").

Definition idle : HealthChecker := mk ∅ false [fresh (lit "10.0.0.1") 8081].

Definition probe : Check := mk_Check 7 0 Writing (lit "GET") 0 [] 500.

Definition probing_one : HealthChecker := mk {[ 7 := probe ]} true [fresh (lit "10.0.0.1") 8081].

(** A history that leaves descriptor 7 open. *)
Definition opened_7 : history := [(sys_socket, Answer 7 0 0 [] [] [])].

Lemma idle_inv : inv ∅ [0] idle [].
Proof. split; [split_and!; [done|done|done]|by repeat constructor|done]. Qed.

Lemma probing_inv : inv ∅ [0] probing_one opened_7.
Proof.
  split; [|by repeat constructor|].
  - split_and!; [done| |].
    + split; [|done]. cbn. rewrite dom_singleton_L. set_solver.
    + by apply map_Forall_singleton.
  - by apply map_Forall_singleton.
Qed.

Lemma handleEvent_verdict_witness :
  ∃ h' w', handleEvent (event_fuel 0 probe) 7 (EPOLLIN + EPOLLOUT) probing_one opened_7 =
    Some ((), h', w') ∧ handled 7 probe probing_one opened_7 h' w'.
Proof. by apply (handleEvent_verdict 0 _ _ 7 _ probe). Defined.

Lemma checker_descriptors_witness :
  wp cancelAll (λ _ h' w', checks h' = ∅ ∧ holds_fds ∅ w') probing_one opened_7.
Proof. apply (checker_descriptors _ ∅ [0] 0 0 0 probing_one opened_7 probing_inv). Defined.

Lemma start_covers_all_witness :
  wp start (λ _ h' _, covered 0 (fresh (lit "10.0.0.1") 8081) h') idle [].
Proof. by apply (start_covers_all _ ∅ [0] idle [] 0 _ idle_inv). Defined.

Lemma expire_exact_witness :
  ∃ h' w', expire probing_one opened_7 = Some ((), h', w') ∧
    (∀ k c, checks h' !! k = Some c ↔ checks probing_one !! k = Some c ∧ 0 < deadline c).
Proof.
  destruct (expire_exact probing_one opened_7 eq_refl) as (h' & w' & E & H & _). by exists h', w'.
Defined.

End Witnesses.
