(* ===== verification/HealthLog.v ===== *)
(** * The health checker against its log of probe outcomes

    [src/lb/HealthChecker.cpp], seen from outside: which probes an operation of
    the checker has concluded, and how, can be told from the checks it no longer
    holds and from what their sockets have received, without looking at the
    backends.  This file proves that the health of every backend is the verdict
    of that log. *)

From S2P Require Import Prelude Backends Sys Epoll Health.
Import Backend BackendPool HealthChecker.

(** ** The specification *)

(** The outcomes of concluded probes, the latest first: the backend and whether
    it passed. *)
Abbreviation outcomes := (list (nat * bool)).

Definition outcomes_of (i : nat) (log : outcomes) : list bool :=
  snd <$> List.filter (λ e : nat * bool, (e.1 =? i)%nat) log.

(** A backend is unhealthy exactly when its last two probes have failed. *)
Definition judged (l : list bool) : bool :=
  match l with
  | false :: false :: _ => false
  | _ => true
  end.

(** The failures since the last success. *)
Fixpoint misses (l : list bool) : Z :=
  match l with
  | false :: l' => 1 + misses l'
  | _ => 0
  end.

Inductive operation :=
| Start
| Event (fuel : nat) (fd events : Z)
| Expire
| CancelAll.

Section Log.
Context {K : Kernel} {T : Traversal Check}.
Implicit Types (h : HealthChecker) (c : Check) (w : history) (k : Z).

Definition execute (op : operation) : Prog HealthChecker () :=
  match op with
  | Start => start
  | Event fuel fd events => handleEvent fuel fd events
  | Expire => expire
  | CancelAll => cancelAll
  end.

Definition has_check (i : nat) (h : HealthChecker) : bool :=
  existsb (λ e, (backend_index e.2 =? i)%nat) (traverse (checks h)).

(** The probes an operation has concluded.  A probe ended by an event has passed
    when the bytes received on its socket contain a 200 status line; one whose
    deadline has passed has failed, and so has one for which a round of probes
    has set up no check. *)
Definition concluded (op : operation) (h : HealthChecker) (w : history)
    (h' : HealthChecker) (w' : history) : outcomes :=
  match op with
  | Start =>
      if bool_decide (checks h = ∅)
      then (λ i, (i, false)) <$> List.filter (λ i, negb (has_check i h')) (seq 0 (size (pool h)))
      else []
  | Event _ fd _ =>
      match checks h !! fd, checks h' !! fd with
      | Some c, None => [(backend_index c, passes (heard fd w'))]
      | _, _ => []
      end
  | Expire => (λ e, (backend_index e.2, false)) <$> overdue (ret (respond w sys_now)) h
  | CancelAll => []
  end.

(** What the rest of the load balancer may do between two operations: it leaves
    the checks and the health of the backends alone, receives nothing on the
    checker's sockets and does not close them. *)
Record elsewhere (h : HealthChecker) (w : history) (h' : HealthChecker) (w' : history) : Prop := {
  same_checks : checks h' = checks h;
  same_pointer : backend_pool h' = backend_pool h;
  same_health : (λ b, (healthy b, consecutive_failures b)) <$> pool h' =
                (λ b, (healthy b, consecutive_failures b)) <$> pool h;
  same_sockets : ∃ F, checker_fds F h' w';
  same_texts : ∀ k c, checks h !! k = Some c → heard k w' = heard k w
}.

(** The histories of a checker with the log of their outcomes. *)
Inductive logged (h0 : HealthChecker) (w0 : history) : outcomes → HealthChecker → history → Prop :=
| log_start : logged h0 w0 [] h0 w0
| log_operation op log h w h' w' :
    logged h0 w0 log h w → execute op h w = Some ((), h', w') →
    logged h0 w0 (concluded op h w h' w' ++ log) h' w'
| log_elsewhere log h w h' w' :
    logged h0 w0 log h w → elsewhere h w h' w' → logged h0 w0 log h' w'.

(** ** Counting *)

Definition tallied (b : Backend) (l : list bool) : Prop :=
  healthy b = judged l ∧ consecutive_failures b = misses l.

Lemma misses_nonneg l : 0 ≤ misses l.
Proof. induction l as [|[] l IH]; cbn; lia. Qed.

Lemma judged_failure l : judged (false :: l) = (misses (false :: l) <? 2).
Proof.
  destruct l as [|[] l]; [done..|]. cbn. symmetry. apply Z.ltb_ge. pose proof (misses_nonneg l). lia.
Qed.

Lemma tallied_failure b l : tallied b l → tallied (count_failure b) (false :: l).
Proof.
  intros [Hh Hf]. unfold tallied. rewrite judged_failure.
  cbn [misses]. rewrite <- Hf. unfold count_failure. cbv zeta. cbn. rewrite Z.geb_leb.
  destruct (Z.leb_spec 2 (consecutive_failures b + 1)) as [Hge|Hlt]; cbn; (split; [|lia]).
  - symmetry. apply Z.ltb_ge. lia.
  - rewrite (proj2 (Z.ltb_lt _ _)) by lia. rewrite Hh. rewrite Hf in Hlt. clear - Hlt.
    destruct l as [|[] [|[] l]]; try done. cbn in Hlt. pose proof (misses_nonneg l). lia.
Qed.

Lemma tallied_failures n b l : tallied b l → tallied (Nat.iter n count_failure b) (replicate n false ++ l).
Proof. intros Hb. induction n as [|n IH]; [done|]. by apply tallied_failure. Qed.

Lemma tallied_success b l : tallied (count_success b) (true :: l).
Proof. done. Qed.

Lemma outcomes_of_app i l1 l2 : outcomes_of i (l1 ++ l2) = outcomes_of i l1 ++ outcomes_of i l2.
Proof. unfold outcomes_of. by rewrite List.filter_app, fmap_app. Qed.

Lemma outcomes_of_failures i (l : list (Z * Check)) :
  outcomes_of i ((λ e, (backend_index e.2, false)) <$> l) = replicate (failures i l) false.
Proof.
  unfold outcomes_of, failures. induction l as [|e l IH]; [done|]. cbn.
  destruct (_ =? i)%nat; [|done]. cbn. by f_equal.
Qed.

Lemma outcomes_of_refused i (f : nat → bool) m n :
  outcomes_of i ((λ j, (j, false)) <$> List.filter f (seq m n)) =
  if (m <=? i)%nat && (i <? m + n)%nat && f i then [false] else [].
Proof.
  revert m. induction n as [|n IH]; intros m.
  { destruct (Nat.leb_spec m i), (Nat.ltb_spec i (m + 0)); [lia|done..]. }
  cbn [seq List.filter].
  assert (outcomes_of i ((λ j, (j, false)) <$> (if f m then m :: List.filter f (seq (S m) n)
    else List.filter f (seq (S m) n))) =
    (if (m =? i)%nat && f m then [false] else []) ++
    outcomes_of i ((λ j, (j, false)) <$> List.filter f (seq (S m) n))) as ->.
  { destruct (f m); rewrite ?andb_true_r, ?andb_false_r; [|done]. unfold outcomes_of. cbn.
    by destruct (m =? i)%nat. }
  rewrite IH. destruct (Nat.eqb_spec m i) as [->|Hmi].
  - rewrite (proj2 (Nat.leb_gt (S i) i)), (proj2 (Nat.leb_le i i)), (proj2 (Nat.ltb_lt i (i + S n))) by lia.
    cbn. by destruct (f i).
  - rewrite andb_false_l, app_nil_l, Nat.add_succ_comm.
    assert ((S m <=? i)%nat = (m <=? i)%nat) as ->; [|done]. apply eq_true_iff_eq. rewrite !Nat.leb_le. lia.
Qed.

(** ** What the checks have received *)

(** Each check holds the bytes received on its socket. *)
Definition texts (h : HealthChecker) (w : history) : Prop :=
  map_Forall (λ k c, response c = heard k w) (checks h).

(** A call that receives nothing. *)
Definition deaf (call : call) : bool :=
  match call with
  | sys_recv _ _ false => false
  | _ => true
  end.

Lemma heard_deaf k call a w :
  deaf call = true → opened (call, a) ≠ Some k → heard k ((call, a) :: w) = heard k w.
Proof.
  intros Hd Ho. cbn [heard]. rewrite bool_decide_eq_false_2 by done. unfold incoming.
  destruct call; try (cbn [fst]; apply app_nil_r). by destruct peek; [apply app_nil_r|].
Qed.

Lemma texts_deaf h call a w :
  deaf call = true → (∀ k, opened (call, a) = Some k → k ∉ dom (checks h)) →
  texts h w → texts h ((call, a) :: w).
Proof.
  intros Hd Ho Ht k c Hk. rewrite heard_deaf; [by apply Ht|done|]. intros E. apply (Ho k E).
  by apply elem_of_dom_2 in Hk.
Qed.

Lemma texts_neutral h call a w :
  neutral call = true → deaf call = true → texts h w → texts h ((call, a) :: w).
Proof. intros Hn Hd. apply texts_deaf; [done|]. by destruct call. Qed.

Lemma texts_close h fd a w : texts h w → texts h ((sys_close fd, a) :: w).
Proof. by apply texts_deaf. Qed.

Lemma texts_settle ok k c h w : texts h w → texts (settle ok k c h) (released k w).
Proof.
  intros Ht. apply texts_close, texts_neutral; [done..|]. unfold texts. rewrite settle_checks.
  by apply map_Forall_delete.
Qed.

Lemma texts_failCheck k h w : texts h w → wp (failCheck k) (λ _, texts) h w.
Proof.
  intros Ht. destruct (checks h !! k) as [c|] eqn:Hc.
  - unfold wp. rewrite (failCheck_eq k c) by done. by apply texts_settle.
  - unfold wp, failCheck, bind, gets. by rewrite Hc.
Qed.

Lemma texts_expire h w : texts h w → wp expire (λ _, texts) h w.
Proof.
  intros Ht. unfold expire. wp_step. apply wp_now. wp_step. apply wp_gets.
  apply wp_for_each; [|by apply texts_neutral]. intros [k c] h' w' _. apply texts_failCheck.
Qed.

Lemma texts_on_backend i f h w : texts h w → wp (on_backend i f) (λ _, texts) h w.
Proof. intros Ht. unfold wp. by rewrite on_backend_eq. Qed.

Lemma texts_add_check k c i h w :
  response c = [] → heard k w = [] → texts h w → wp (add_check k c i) (λ _, texts) h w.
Proof.
  intros Hr Hh Ht. unfold add_check, Epoll.add. wp_step. wp_step. apply wp_sys. set (a := respond _ _).
  apply wp_ret. wp_step.
  - wp_step. apply wp_sys, texts_on_backend. by apply texts_close, texts_neutral.
  - apply wp_modify.
    assert (texts h ((sys_epoll_ctl EPOLL_CTL_ADD k
      (Z.lor (Z.lor (Z.lor EPOLLIN EPOLLOUT) EPOLLERR) EPOLLHUP), a) :: w)) as Ht' by by apply texts_neutral.
    destruct (checks h !! k) eqn:E; [done|]. apply map_Forall_insert_2; [|done].
    rewrite heard_deaf by done. by rewrite Hh.
Qed.

(** A new descriptor has received nothing. *)
Lemma texts_start_check {FK : FreshFds K} F i h w :
  checker_fds F h w → texts h w → wp (start_check i) (λ _, texts) h w.
Proof.
  intros (_ & Hw & _) Ht. unfold start_check. wp_step. apply wp_gets.
  destruct (BackendPool.getBackend _ _) as [b|]; [|by apply wp_ret]. wp_step. apply wp_sys.
  set (r := respond _ _). set (w1 := (_, r) :: w).
  assert (texts h w1) as Ht1 by by apply texts_neutral.
  assert (∀ w', texts h w' → wp (on_backend i count_failure) (λ _, texts) h w') as Hfail.
  { intros w'. apply texts_on_backend. }
  destruct (addresses r) as [|address rest]; [by apply Hfail|].
  destruct (ret r =? 0); [|by apply Hfail]. cbn [negb]. wp_step. apply wp_sys.
  set (s := respond _ _). cbv zeta.
  assert (texts h ((sys_socket, s) :: w1)) as Ht2.
  { apply texts_deaf; [done| |done]. intros k Ho. apply FK in Ho as [_ Hfresh].
    assert (holds_fds (F ∪ dom (checks h)) w1) as [Hw1 _] by by apply holds_neutral.
    rewrite Hw1 in Hfresh. set_solver. }
  destruct (Z.eqb_spec (ret s) (-1)) as [E|E]; [by apply Hfail|].
  assert (heard (ret s) ((sys_socket, s) :: w1) = []) as Hh.
  { cbn [heard]. rewrite bool_decide_eq_true_2; [done|]. unfold opened. cbn.
    by rewrite (proj2 (Z.eqb_neq _ _)). }
  wp_step. apply wp_now. wp_step. apply wp_sys. set (a := respond _ _).
  match goal with |- wp _ _ _ ?w' => assert (texts h w' ∧ heard (ret s) w' = []) as [Ht3 Hh3] end.
  { split; [do 2 (apply texts_neutral; [done..|]); done|do 2 rewrite heard_deaf by done; done]. }
  wp_step; [|wp_step].
  - wp_step. apply wp_now. apply texts_add_check; [done|by rewrite heard_deaf|by apply texts_neutral].
  - by apply texts_add_check.
  - wp_step. apply wp_sys, Hfail. by apply texts_close.
Qed.

Lemma wp_both {A} (m : Prog HealthChecker A) Q R h w :
  wp m Q h w → wp m R h w → wp m (λ a h' w', Q a h' w' ∧ R a h' w') h w.
Proof. unfold wp. destruct (m h w) as [[[a h'] w']|]; auto. Qed.

Lemma texts_start {FK : FreshFds K} F L h w :
  inv F L h w → texts h w → wp start (λ _, texts) h w.
Proof.
  intros Hi Ht. unfold start. wp_step. apply wp_gets. case_bool_decide; cbn [negb]; [|by apply wp_ret].
  wp_step. apply wp_modify. wp_step. apply wp_gets.
  eapply wp_mono; [|apply (wp_for_each (λ h' w', inv F L h' w' ∧ texts h' w'))]; [by intros [] h' w' []| |].
  - intros i h' w' _ [Hi' Ht']. apply wp_both.
    + eapply wp_mono; [|by apply (start_check_spec F L)]. by intros [] h2 w2 [? _].
    + apply (texts_start_check F); [apply Hi'|done].
  - split; [by destruct Hi|done].
Qed.

(** ** The invariant *)

(** A check that could still pass, of a backend of the pool. *)
Definition open_check (h : HealthChecker) (c : Check) : Prop :=
  backend_pool h = true ∧ (backend_index c < size (pool h))%nat ∧ passes (response c) = false.

Record tracks (log : outcomes) (h : HealthChecker) (w : history) : Prop := {
  tracks_inv : ∃ F L, inv F L h w;
  tracks_texts : texts h w;
  tracks_checks : map_Forall (λ _ c, open_check h c) (checks h);
  tracks_health : ∀ i b, pool h !! i = Some b → tallied b (outcomes_of i log)
}.

Lemma has_check_false i h : has_check i h = false ↔ no_check i h.
Proof.
  unfold has_check, no_check. split.
  - intros Hf k c Hc Hi. apply not_true_iff_false in Hf. apply Hf, existsb_exists. exists (k, c).
    split; [by apply list_elem_of_In, traverse_lookup|by apply Nat.eqb_eq].
  - intros Hn. apply not_true_iff_false. intros ([k c] & Hin & Hi)%existsb_exists.
    apply list_elem_of_In, traverse_lookup in Hin. apply Nat.eqb_eq in Hi. by apply (Hn k c).
Qed.

Lemma settle_lookup ok k c h i :
  open_check h c →
  pool (settle ok k c h) !! i =
  (if (backend_index c =? i)%nat then (if ok then count_success else count_failure) <$> pool h !! i
   else pool h !! i).
Proof.
  intros (Ha & Hi & _). change (pool (settle ok k c h)) with (pool (verdict ok c h)).
  unfold verdict, has_backend. rewrite Ha, (proj2 (Nat.ltb_lt _ _)) by done. cbn.
  destruct (Nat.eqb_spec (backend_index c) i) as [<-|Hne].
  - apply list_lookup_alter_eq.
  - by apply list_lookup_alter_ne.
Qed.

Lemma open_settle ok k c c' h : open_check h c' → open_check (settle ok k c h) c'.
Proof.
  intros (Ha & Hi & Hp). unfold open_check, settle, verdict.
  destruct (has_backend h c); cbn; [|done]. unfold size in *. by rewrite length_alter.
Qed.

Lemma event_tracks fuel k events log h w :
  tracks log h w →
  wp (handleEvent fuel k events)
    (λ _ h' w', tracks (concluded (Event fuel k events) h w h' w' ++ log) h' w') h w.
Proof.
  intros Ht. destruct (checks h !! k) as [c|] eqn:Hc.
  2:{ unfold wp, handleEvent, stage, bind, gets. rewrite Hc. cbn. by rewrite Hc. }
  pose proof Ht as [(F & L & Hi) Htext Hopen Htally].
  destruct (inv_fds _ _ _ _ Hi) as (_ & _ & Hkey). specialize (Hkey _ _ Hc). cbn in Hkey.
  pose proof (Hopen _ _ Hc) as Hoc. pose proof (Htext _ _ Hc) as Htc. cbn in Hoc, Htc.
  eapply wp_mono; [|by apply (handleEvent_spec fuel k events c)].
  intros [] h' w' Hh. pose proof (handled_inv _ _ _ _ _ _ _ _ Hi Hc Hh) as Hi'.
  assert (∀ ok more w1, hears k more w w1 → passes (response c ++ more) = ok →
    inv F L (settle ok k c h) (released k w1) →
    tracks (concluded (Event fuel k events) h w (settle ok k c h) (released k w1) ++ log)
      (settle ok k c h) (released k w1)) as Hend.
  { intros ok more w1 (_ & Hk & Hothers) Hp Hinv. split; [by eauto| | |].
    - intros j cj. rewrite settle_checks. intros [Hj Hcj]%lookup_delete_Some. unfold released. cbv zeta.
      do 2 rewrite heard_deaf by done. rewrite Hothers by done. by apply Htext.
    - rewrite settle_checks. apply map_Forall_delete. intros j cj Hcj. by apply open_settle, (Hopen j).
    - intros i b. rewrite settle_lookup by done. cbn [concluded]. rewrite Hc, settle_checks, lookup_delete_eq.
      unfold released. cbv zeta. do 2 rewrite heard_deaf by done. rewrite Hk, <- Htc, Hp.
      rewrite outcomes_of_app. unfold outcomes_of at 1. cbn [List.filter fst].
      destruct (_ =? i)%nat; [|by apply Htally]. intros (b0 & Hb0 & ->)%fmap_Some. cbn.
      destruct ok; [by apply tallied_success|by apply tallied_failure, Htally]. }
  destruct Hh as [c' w1 [_ Hidx _ _ (more & Hr & _ & Hk & Hothers) Hpass]|more w1 Hh Hp|more w1 Hh Hp].
  - assert (concluded (Event fuel k events) h w (put k c' h) w1 = []) as ->.
    { cbn. by rewrite Hc, lookup_insert_eq. }
    split; [by eauto| | |done].
    + intros j cj Hcj. change (<[k := c']> (checks h) !! j = Some cj) in Hcj.
      apply lookup_insert_Some in Hcj as [(<- & <-)|[Hj Hcj]]; [by rewrite Hr, Hk, Htc|].
      rewrite Hothers by done. by apply Htext.
    + apply map_Forall_insert_2; [|done]. destruct Hoc as (Ha & Hlt & Hpc). split_and!; [done| |auto].
      by rewrite Hidx.
  - by apply (Hend true more).
  - apply (Hend false more); [done| |done]. apply Hp, Hoc.
Qed.

Lemma expire_tracks log h w :
  tracks log h w → wp expire (λ _ h' w', tracks (concluded Expire h w h' w' ++ log) h' w') h w.
Proof.
  intros [(F & L & Hi) Htext Hopen Htally]. set (t := ret (respond w sys_now)).
  assert (wp expire (λ _ h' w', (∀ k c, checks h' !! k = Some c → checks h !! k = Some c ∧ open_check h' c) ∧
    ∀ i, pool h' !! i = Nat.iter (failures i (overdue t h)) count_failure <$> pool h !! i) h w) as He.
  { destruct (decide (checks h = ∅)) as [E|E].
    - assert (traverse (checks h) = []) as Hnil.
      { rewrite E. apply Permutation_nil. by rewrite traverse_perm, map_to_list_empty. }
      unfold wp, expire, bind, now, bind, sys, gets, overdue. cbn. rewrite Hnil. cbn.
      split; [by rewrite E|]. intros i. by destruct (pool h !! i).
    - apply map_choose in E as (k0 & c0 & Hc0). destruct (Hopen _ _ Hc0) as (Ha & _).
      destruct (expire_spec h w Ha) as (h' & w' & E & Ha' & Hch & Hp).
      unfold wp. rewrite E. split; [|done]. intros k c [Hc _]%Hch. split; [done|].
      destruct (Hopen _ _ Hc) as (_ & Hlt & Hpc). split_and!; [done| |done].
      apply lookup_lt_is_Some. rewrite Hp. by apply fmap_is_Some, lookup_lt_is_Some. }
  eapply wp_mono; [|apply wp_both; [exact He|apply wp_both; [by eapply expire_inv|by apply texts_expire]]].
  intros [] h' w' ([Hch Hp] & Hi' & Ht'). split; [by eauto|done| |].
  - intros k c Hc. by apply Hch in Hc as [_ ?].
  - intros i b. rewrite Hp. intros (b0 & Hb0 & ->)%fmap_Some. cbn [concluded]. fold t.
    rewrite outcomes_of_app, outcomes_of_failures. by apply tallied_failures, Htally.
Qed.

Lemma start_tracks {FK : FreshFds K} log h w :
  tracks log h w → wp start (λ _ h' w', tracks (concluded Start h w h' w' ++ log) h' w') h w.
Proof.
  intros Ht. pose proof Ht as [(F & L & Hi) Htext Hopen Htally].
  destruct (decide (checks h = ∅)) as [E|E].
  2:{ unfold start. wp_step. apply wp_gets. rewrite bool_decide_eq_false_2 by done. apply wp_ret.
      cbn. by rewrite bool_decide_eq_false_2. }
  eapply wp_mono; [|apply wp_both; [by apply (start_spec F L)|by apply (texts_start F L)]].
  intros [] h' w' [[Hi' Hp] Ht']. destruct (Hp E) as (Hsize & Ha & Hnew & Hcov).
  split; [by eauto|done| |].
  - intros k c Hc. destruct (Hnew k c Hc) as [Hr Hlt]. split_and!; [done|by rewrite Hsize|]. by rewrite Hr.
  - intros i b' Hb'. cbn [concluded]. rewrite bool_decide_eq_true_2 by done.
    rewrite outcomes_of_app, outcomes_of_refused. rewrite Nat.add_0_l.
    assert (i < size (pool h))%nat as Hlt by (rewrite <- Hsize; by eapply lookup_lt_Some).
    destruct (lookup_lt_is_Some_2 _ _ Hlt) as [b Hb]. rewrite (proj2 (Nat.ltb_lt _ _)) by done.
    destruct (Hcov i b Hb) as [Hc _]. destruct (Hc Hlt) as [(Hb2 & k & c & Hk & Hidx)|[Hb2 Hno]].
    + assert (has_check i h' = true) as ->.
      { apply not_false_iff_true. intros Hf%has_check_false. by apply (Hf k c). }
      rewrite Hb2 in Hb'. injection Hb' as <-. by apply Htally.
    + apply has_check_false in Hno as ->. rewrite Hb2 in Hb'. injection Hb' as <-.
      by apply tallied_failure, Htally.
Qed.

Lemma cancelAll_tracks log h w :
  tracks log h w → wp cancelAll (λ _ h' w', tracks log h' w') h w.
Proof.
  intros [(F & L & Hi) Htext Hopen Htally].
  eapply wp_mono; [|by apply (cancelAll_spec F L)]. intros [] h' w' (E & Hp & Hw).
  split; rewrite ?Hp; try done.
  - exists F, L. split; [|by rewrite Hp; apply Hi|by rewrite E].
    unfold checker_fds, keyed. rewrite E, dom_empty_L, union_empty_r_L. split_and!; [set_solver|done|done].
  - unfold texts. by rewrite E.
  - by rewrite E.
Qed.

Lemma elsewhere_tracks log h w h' w' : tracks log h w → elsewhere h w h' w' → tracks log h' w'.
Proof.
  intros [(F & L & Hi) Htext Hopen Htally] [Hc Ha Hp (F' & Hfds) Hk].
  assert (∀ i b', pool h' !! i = Some b' →
    ∃ b, pool h !! i = Some b ∧ healthy b' = healthy b ∧ consecutive_failures b' = consecutive_failures b)
    as Hback.
  { intros i b' Hb'. apply (f_equal (.!! i)) in Hp. rewrite !list_lookup_fmap, Hb' in Hp.
    destruct (pool h !! i) as [b|]; [|done]. exists b. cbn in Hp. injection Hp as -> ->. done. }
  split.
  - exists F', (connection_count <$> pool h'). split; [done| |by rewrite Hc; apply Hi]. split; [|done].
    apply Forall_lookup. intros i b' (b & Hb & H1 & H2)%Hback. unfold steady. rewrite H1, H2.
    destruct (inv_pool _ _ _ _ Hi) as [Hs _]. by apply (Forall_lookup_1 _ _ i b) in Hs.
  - unfold texts. rewrite Hc. intros k c Hkc. rewrite (Hk k c) by done. by apply Htext.
  - rewrite Hc. intros k c Hkc. destruct (Hopen k c Hkc) as (? & Hlt & ?). split_and!; [congruence| |done].
    apply (f_equal length) in Hp. rewrite !length_fmap in Hp. unfold size in *. by rewrite Hp.
  - intros i b' (b & Hb & H1 & H2)%Hback. unfold tallied. rewrite H1, H2. by apply Htally.
Qed.

Lemma logged_tracks {FK : FreshFds K} h0 w0 log h w :
  tracks [] h0 w0 → logged h0 w0 log h w → tracks log h w.
Proof.
  intros H0 Hl. induction Hl as [|op log h w h' w' Hl IH E|log h w h' w' Hl IH He]; [done| |].
  - assert (wp (execute op) (λ _ h' w', tracks (concluded op h w h' w' ++ log) h' w') h w) as Hw.
    { destruct op; [by apply start_tracks|by apply event_tracks|by apply expire_tracks|].
      exact (cancelAll_tracks log h w IH). }
    unfold wp in Hw. by rewrite E in Hw.
  - by eapply elsewhere_tracks.
Qed.

(** ** Properties *)

(** C21: A backend is unhealthy exactly when its last two probes have failed.  The
    outcomes of the probes are told without the checker's counters: a probe ended
    by an event has passed when what its socket has received since it was opened
    contains a 200 status line, and it has failed when it ends otherwise, when its
    deadline has passed, or when no connection for it could be started.  From a
    checker without probes over healthy backends, after any sequence of [start],
    [handleEvent], [expire], [cancelAll] and steps of the rest of the program,
    every backend's health is the verdict of its own outcomes, and its counter the
    failures since its last success. *)
Theorem health_follows_probes (FK : FreshFds K) F h0 w0 log h w i b :
  checks h0 = ∅ → Forall (λ b, healthy b = true ∧ consecutive_failures b = 0) (pool h0) →
  checker_fds F h0 w0 → logged h0 w0 log h w → pool h !! i = Some b →
  healthy b = judged (outcomes_of i log) ∧ consecutive_failures b = misses (outcomes_of i log).
Proof.
  intros He Hp Hfds Hl Hb. assert (tracks [] h0 w0) as H0.
  { split.
    - exists F, (connection_count <$> pool h0). split; [done| |by rewrite He]. split; [|done].
      eapply Forall_impl; [exact Hp|]. intros b0 [Hh Hf]. unfold steady. by rewrite Hh, Hf.
    - unfold texts. by rewrite He.
    - by rewrite He.
    - intros j b0 Hb0. by apply (Forall_lookup_1 _ _ j b0) in Hp. }
  by apply (tracks_health _ _ _ (logged_tracks h0 w0 log h w H0 Hl)).
Qed.

(** A sequence of operations, with its log. *)
Fixpoint replay (ops : list operation) (log : outcomes) (h : HealthChecker) (w : history)
    : option (outcomes * HealthChecker * history) :=
  match ops with
  | [] => Some (log, h, w)
  | op :: ops' =>
      match execute op h w with
      | Some (_, h', w') => replay ops' (concluded op h w h' w' ++ log) h' w'
      | None => None
      end
  end.

Lemma replay_logged h0 w0 ops log h w r :
  logged h0 w0 log h w → replay ops log h w = Some r → logged h0 w0 r.1.1 r.1.2 r.2.
Proof.
  revert log h w. induction ops as [|op ops IH]; intros log h w Hl; cbn [replay].
  - by intros [= <-].
  - destruct (execute op h w) as [[[[] h'] w']|] eqn:E; [|done].
    apply IH. by apply log_operation.
Qed.

End Log.

(** ** Witnesses *)

Section Witnesses.

(** Servers that hang up without an answer, and servers that answer. *)
Local Instance mute : Kernel := demo_kernel [].

Definition round : list operation := [Start; Event 100 0 (EPOLLIN + EPOLLOUT)].

(** One failed probe leaves the backend healthy, two do not. *)
Lemma health_follows_probes_witness :
  ∃ h w b, logged idle [] [(0%nat, false); (0%nat, false)] h w ∧ pool h !! 0%nat = Some b ∧
    healthy b = false.
Proof.
  assert ((λ r, (r.1.1, length (pool r.1.2))) <$> replay (round ++ round) [] idle [] =
    Some ([(0%nat, false); (0%nat, false)], 1%nat)) as E by by vm_compute.
  apply fmap_Some in E as ([[log h] w] & E & [= El Ep]).
  pose proof (replay_logged idle [] _ _ _ _ _ (log_start idle []) E) as Hl. cbn in Hl, El, Ep. subst log.
  destruct (pool h !! 0%nat) as [b|] eqn:Hb; [|by apply lookup_ge_None in Hb; lia].
  exists h, w, b. split; [done|]. split; [done|].
  refine (proj1 (health_follows_probes _ ∅ idle [] _ h w 0 b _ _ _ Hl Hb)); [done|by repeat constructor|].
  apply idle_inv.
Defined.

Example one_failure_stays_healthy :
  (λ r, (r.1.1, healthy <$> pool r.1.2)) <$> replay round [] idle [] = Some ([(0%nat, false)], [true]).
Proof. by vm_compute. Qed.

Example two_failures_and_a_success :
  (λ r, (r.1.1, healthy <$> pool r.1.2)) <$>
    (replay (round ++ round) [] idle [] ≫= λ r, replay (K := demo_kernel (lit "HTTP/1.1 200 OK"))
       round r.1.1 r.1.2 r.2) =
  Some ([(0%nat, true); (0%nat, false); (0%nat, false)], [true]).
Proof. by vm_compute. Qed.

End Witnesses.
