(* ===== verification/LbText.v ===== *)
(** * Load-balancer metrics

    [src/lb/LbMetrics.cpp]: the text served for [GET /metrics]. *)

From S2P Require Import Prelude Numerals Backends.
Import Backend BackendPool.

Module LbMetrics.

Definition NL : bytes := [LF].

(** The two comment lines that open a family of samples. *)
Definition heading (name help kind : bytes) : bytes :=
  lit "# HELP " ++ name ++ lit " " ++ help ++ NL ++
  lit "# TYPE " ++ name ++ lit " " ++ kind ++ NL.

Definition single (name help : bytes) (n : Z) : bytes :=
  heading name help (lit "gauge") ++ name ++ lit " " ++ to_string n ++ NL ++ NL.

(** One loop over the pool: a labelled sample per backend. *)
Definition sample (name : bytes) (field : Backend → Z) (b : Backend) : bytes :=
  name ++ lit "{backend=" ++ [QUOTE] ++ host b ++ [QUOTE] ++ lit ",port=" ++ [QUOTE] ++
  int_to_string (port b) ++ [QUOTE] ++ lit "} " ++ to_string (field b) ++ NL.

Definition per_backend (name help kind : bytes) (field : Backend → Z) (pool : BackendPool) : bytes :=
  heading name help kind ++ concat (sample name field <$> pool).

Definition render (pool : BackendPool) (active_connections : Z) : bytes :=
  single (lit "aorta_lb_active_connections")
    (lit "Number of active client TCP connections at the load balancer.") active_connections ++
  single (lit "aorta_lb_healthy_backends") (lit "Number of healthy backend servers.")
    (Z.of_nat (healthyCount pool)) ++
  single (lit "aorta_lb_total_backends") (lit "Total number of configured backend servers.")
    (Z.of_nat (size pool)) ++
  per_backend (lit "aorta_lb_backend_healthy")
    (lit "Whether a backend is healthy (1) or unhealthy (0).") (lit "gauge")
    (λ b, if healthy b then 1 else 0) pool ++ NL ++
  per_backend (lit "aorta_lb_backend_connections")
    (lit "Current active connections to a backend.") (lit "gauge") connection_count pool ++ NL ++
  per_backend (lit "aorta_lb_backend_total_connections")
    (lit "Total connections handled by a backend.") (lit "counter") total_connections pool ++ NL ++
  per_backend (lit "aorta_lb_backend_failed_connections")
    (lit "Total failed backend connections.") (lit "counter") failed_connections pool ++ NL ++
  per_backend (lit "aorta_lb_backend_failovers") (lit "Total backend failovers.") (lit "counter")
    failovers pool.

End LbMetrics.
