(* ===== verification/Balancer.v ===== *)
(** * The load balancer

    [include/lb/LoadBalancer.hpp] and [src/lb/LoadBalancer.cpp]: one reactor of
    the layer-4 proxy, its connection table and its event loop. *)

From S2P Require Import Prelude Numerals Sys Epoll Socket TimerFd Backends Ring Health LbText.
Import Backend BackendPool.

Module LoadBalancer.
Import HealthChecker (Check).

Definition LISTEN_PORT : Z := 9000.
Definition HEALTH_CHECK_INTERVAL : Z := 5.
Definition MAX_BUFFER_SIZE : Z := 8 * 1024 * 1024.
Definition MAX_CONNECTIONS : nat := Z.to_nat 100000.

Inductive RoutingMode := RoundRobin | ConsistentHash.

#[global] Instance RoutingMode_eq_dec : EqDecision RoutingMode.
Proof. solve_decision. Defined.

Record ConnectionPair := mk_pair {
  client_fd : Z;
  backend_fd : Z;
  current_client_events : Z;
  current_backend_events : Z;
  backend_connecting : bool;
  client_read_closed : bool;
  backend_read_closed : bool;
  client_write_closed : bool;
  backend_write_closed : bool;
  closing : bool;
  metrics_connection : bool;
  backend_index : nat;
  client_ip : bytes;
  client_to_backend : bytes;
  backend_to_client : bytes;
  client_to_backend_offset : Z;
  backend_to_client_offset : Z
}.

#[global] Instance eta_ConnectionPair : Eta ConnectionPair := fun c =>
  mk_pair (client_fd c) (backend_fd c) (current_client_events c) (current_backend_events c)
    (backend_connecting c) (client_read_closed c) (backend_read_closed c)
    (client_write_closed c) (backend_write_closed c) (closing c) (metrics_connection c)
    (backend_index c) (client_ip c) (client_to_backend c) (backend_to_client c)
    (client_to_backend_offset c) (backend_to_client_offset c).

Definition new_pair (fd : Z) : ConnectionPair :=
  mk_pair fd (-1) 0 0 false false false false false false false 0 [] [] [] 0 0.

(** [checks] and [checker_pool] are the members of [health_checker]; its third
    part, the pool it points to, is [backend_pool].  [routes] is the member
    [backend_to_client]. *)
Record LoadBalancer := mk {
  reactor_id : Z;
  reactor_count : Z;
  routing_mode : RoutingMode;
  next_backend_index : nat;
  backend_pool : BackendPool;
  consistent_hash : ConsistentHash.ring;
  checks : gmap Z Check;
  checker_pool : bool;
  listen_socket : Z;
  health_timer : Z;
  connections : gmap Z ConnectionPair;
  routes : gmap Z Z;
  shutdown_requested : bool
}.

#[global] Instance eta_LoadBalancer : Eta LoadBalancer := fun s =>
  mk (reactor_id s) (reactor_count s) (routing_mode s) (next_backend_index s) (backend_pool s)
    (consistent_hash s) (checks s) (checker_pool s) (listen_socket s) (health_timer s)
    (connections s) (routes s) (shutdown_requested s).

Definition handleSignal (s : LoadBalancer) (signal : Z) : LoadBalancer :=
  if (signal =? SIGINT) || (signal =? SIGTERM) then s <| shutdown_requested := true |> else s.

(** [environment] is the value of [AORTA_LB_ROUTING], if set. *)
Definition loadRoutingMode (environment : option bytes) : RoutingMode :=
  match environment with
  | None => RoundRobin
  | Some mode =>
      if beq mode (lit "consistent_hash") || beq mode (lit "consistent-hash") || beq mode (lit "hash")
      then ConsistentHash else RoundRobin
  end.

(** The constructor; [config] is the content of [config/backends.conf], and the
    two members that own descriptors have been constructed before. *)
Definition construct (reactor_id reactor_count : Z) (environment config : option bytes)
    (listen_socket health_timer : Z) : LoadBalancer :=
  let pool := fold_left addBackend (BackendConfig.load config) [] in
  mk reactor_id reactor_count (loadRoutingMode environment) 0 pool (ConsistentHash.build pool)
    ∅ false listen_socket health_timer ∅ ∅ false.

(** ** Choosing a backend *)

Section Balancer.
Context {K : Kernel} {TC : Traversal Check} {TP : Traversal ConnectionPair}.
Abbreviation M := (Prog LoadBalancer).

Fixpoint round_robin (attempts count : nat) : M nat :=
  match attempts with
  | O => mret count
  | S attempts' =>
      next ← gets next_backend_index;
      let index := (next mod count)%nat in
      modify (λ s, s <| next_backend_index := ((next_backend_index s + 1) mod count)%nat |>) ;;
      b ← gets (λ s, getBackend (backend_pool s) index);
      if match b with Some backend => healthy backend | None => false end then mret index
      else round_robin attempts' count
  end.

Definition selectRoundRobinBackend : M nat :=
  count ← gets (λ s, size (backend_pool s));
  if (count =? 0)%nat then mret 0%nat else round_robin count count.

Definition selectBackend (client_ip : bytes) : M (option nat) :=
  up ← gets (λ s, hasHealthyBackend (backend_pool s));
  if negb up then mret None
  else
    mode ← gets routing_mode;
    match mode with
    | RoundRobin =>
        index ← selectRoundRobinBackend;
        n ← gets (λ s, size (backend_pool s));
        if (n <=? index)%nat then mret None else mret (Some index)
    | ConsistentHash =>
        r ← gets (λ s, ConsistentHash.getBackend (consistent_hash s) client_ip (backend_pool s));
        match r with
        | None => exhausted
        | Some choice => mret choice
        end
    end.

(** ** Tables *)

Definition find_connection (key : Z) : M (option ConnectionPair) :=
  gets (λ s, connections s !! key).

(** Assignments through a reference to a connection or to a backend. *)
Definition on_connection (key : Z) (f : ConnectionPair → ConnectionPair) : M () :=
  modify (λ s, s <| connections := alter f key (connections s) |>).

Definition on_backend (index : nat) (f : Backend → Backend) : M () :=
  modify (λ s, match setBackend (backend_pool s) index f with
               | Some p => s <| backend_pool := p |>
               | None => s
               end).

(** [if(backend.connection_count > 0) backend.connection_count--;] *)
Definition release_slot (b : Backend) : Backend :=
  if connection_count b >? 0 then b <| connection_count := connection_count b - 1 |> else b.

(** Runs [body] on the connection [key]; [missing] is returned if there is none. *)
Definition with_connection {A} (key : Z) (missing : A) (body : ConnectionPair → M A) : M A :=
  c ← find_connection key;
  match c with
  | None => mret missing
  | Some connection => body connection
  end.

Definition closeConnection (key : Z) : M () :=
  with_connection key () (λ connection,
    if closing connection then mret ()
    else
      on_connection key (λ c, c <| closing := true |>) ;;
      Epoll.remove (client_fd connection) ;;
      (if negb (backend_fd connection =? -1) then
         Epoll.remove (backend_fd connection) ;;
         modify (λ s, s <| routes := delete (backend_fd connection) (routes s) |>) ;;
         on_backend (backend_index connection) release_slot ;;
         sys (sys_close (backend_fd connection)) ;;
         on_connection key (λ c, c <| backend_fd := -1 |>)
       else mret ()) ;;
      sys (sys_close (client_fd connection)) ;;
      modify (λ s, s <| connections := delete key (connections s) |>)).

(** ** Connecting *)

(** One address: a descriptor that is connected or connecting, or the next
    address ([None]). *)
Definition try_address (address : bytes) : M (option (Z * bool)) :=
  a ← sys sys_socket;
  let fd := ret a in
  if fd =? -1 then mret None
  else
    nodelay ← Socket.setNoDelay fd;
    if negb nodelay then sys (sys_close fd) ;; mret None
    else
      r ← sys (sys_connect fd address);
      if ret r =? 0 then mret (Some (fd, false))
      else if errno r =? EINPROGRESS then mret (Some (fd, true))
      else sys (sys_close fd) ;; mret None.

(** The descriptor, [-1] when no address could be used, and [connecting]. *)
Definition connectToBackend (backend : Backend) : M (Z * bool) :=
  a ← sys (sys_getaddrinfo (host backend) (int_to_string (port backend)));
  if negb (ret a =? 0) then mret (-1, false)
  else
    r ← for_until (addresses a) try_address;
    mret (match r with Some found => found | None => (-1, false) end).

Definition relay_events (connecting : bool) : Z :=
  let backend_events := Z.lor (Z.lor EPOLLRDHUP EPOLLERR) EPOLLHUP in
  if connecting then Z.lor backend_events EPOLLOUT else Z.lor backend_events EPOLLIN.

(** The end of an attempt, in [connectClientToBackend] and in
    [failoverConnection]: connect to backend [index] and watch the descriptor;
    [undo] is what the function does to the connection when epoll refuses it. *)
Definition attach (key : Z) (index : nat) (undo : ConnectionPair → ConnectionPair) : M bool :=
  b ← gets (λ s, getBackend (backend_pool s) index);
  match b with
  | None => mret false
  | Some backend =>
      found ← connectToBackend backend;
      let fd := found.1 in
      let connecting := found.2 in
      if fd =? -1 then
        on_backend index (λ b, b <| failed_connections := add64 (failed_connections b) 1 |>) ;;
        mret false
      else
        on_connection key (λ c, c <| backend_fd := fd |> <| backend_index := index |>
          <| backend_connecting := connecting |>) ;;
        on_backend index (λ b, b <| connection_count := add64 (connection_count b) 1 |>
          <| total_connections := add64 (total_connections b) 1 |>) ;;
        added ← Epoll.add fd (relay_events connecting);
        if negb added then
          on_backend index release_slot ;;
          sys (sys_close fd) ;;
          on_connection key undo ;;
          mret false
        else
          on_connection key (λ c, c <| current_backend_events := relay_events connecting |>) ;;
          modify (λ s, s <| routes := <[fd := key]> (routes s) |>) ;;
          mret true
  end.

(** The search for a backend that was not tried, in consistent-hash mode. *)
Fixpoint untried (pool : BackendPool) (attempted : list bool) (candidate : nat) : option nat :=
  match pool, attempted with
  | backend :: pool', tried :: attempted' =>
      if negb tried && healthy backend then Some candidate
      else untried pool' attempted' (S candidate)
  | _, _ => None
  end.

(** The choice at the top of the loop; [None] is its [break]. *)
Definition choose_index (attempt count initial : nat) (attempted : list bool) : M (option nat) :=
  mode ← gets routing_mode;
  if (attempt =? 0)%nat then mret (Some initial)
  else if bool_decide (mode = RoundRobin) then
    next ← selectRoundRobinBackend;
    if (count <=? next)%nat then mret None else mret (Some next)
  else gets (λ s, untried (backend_pool s) attempted 0).

Fixpoint connect_attempts (left attempt count initial : nat) (attempted : list bool) (key : Z)
    : M bool :=
  match left with
  | O => mret false
  | S left' =>
      choice ← choose_index attempt count initial attempted;
      match choice with
      | None => mret false
      | Some index =>
          let continue attempted := connect_attempts left' (S attempt) count initial attempted key in
          match attempted !! index with
          | None | Some true => continue attempted
          | Some false =>
              let attempted := <[index := true]> attempted in
              b ← gets (λ s, getBackend (backend_pool s) index);
              if negb (match b with Some backend => healthy backend | None => false end)
              then continue attempted
              else
                connected ← attach key index (λ c, c <| backend_fd := -1 |>);
                if connected then mret true else continue attempted
          end
      end
  end.

Definition connectClientToBackend (key : Z) : M bool :=
  up ← gets (λ s, hasHealthyBackend (backend_pool s));
  if negb up then mret false
  else
    with_connection key false (λ connection,
      initial_backend ← selectBackend (client_ip connection);
      match initial_backend with
      | None => mret false
      | Some initial =>
          count ← gets (λ s, size (backend_pool s));
          connect_attempts count 0 count initial (replicate count false) key
      end).

(** One attempt of the failover loop: [Some true] is its [return true]. *)
Definition failover_attempt (key : Z) (failed start_index count attempt : nat) : M (option bool) :=
  let index := ((start_index + attempt) mod count)%nat in
  if (index =? failed)%nat then mret None
  else
    b ← gets (λ s, getBackend (backend_pool s) index);
    if negb (match b with Some backend => healthy backend | None => false end) then mret None
    else
      connected ← attach key index
        (λ c, c <| backend_fd := -1 |> <| backend_connecting := false |> <| current_backend_events := 0 |>);
      if connected then
        on_backend index (λ b, b <| failovers := add64 (failovers b) 1 |>) ;;
        mret (Some true)
      else mret None.

(** The first half of [failoverConnection]: let the failed backend go. *)
Definition detach (key : Z) (connection : ConnectionPair) (failed : nat) : M () :=
  let old_backend_fd := backend_fd connection in
  if negb (old_backend_fd =? -1) then
    Epoll.remove old_backend_fd ;;
    modify (λ s, s <| routes := delete old_backend_fd (routes s) |>) ;;
    on_backend failed (λ b,
      let b := release_slot b in b <| failed_connections := add64 (failed_connections b) 1 |>) ;;
    sys (sys_close old_backend_fd) ;;
    on_connection key (λ c, c <| backend_fd := -1 |> <| backend_connecting := false |>
      <| current_backend_events := 0 |>)
  else mret ().

Definition failoverConnection (key : Z) (failed : nat) : M bool :=
  with_connection key false (λ connection,
    detach key connection failed ;;
    count ← gets (λ s, size (backend_pool s));
    if (count =? 0)%nat then closeConnection key ;; mret false
    else
      r ← for_until (seq 0 count)
            (failover_attempt key failed ((failed + 1) mod count)%nat count);
      match r with
      | Some found => mret found
      | None => closeConnection key ;; mret false
      end).

(** ** Moving bytes

    The buffer and the offset that [forwardData] and [flushData] take by
    reference are those of one direction of one connection. *)
Inductive Direction := ToBackend | ToClient.

#[global] Instance Direction_eq_dec : EqDecision Direction.
Proof. solve_decision. Defined.

Definition buffer (d : Direction) (c : ConnectionPair) : bytes :=
  match d with ToBackend => client_to_backend c | ToClient => backend_to_client c end.

Definition offset (d : Direction) (c : ConnectionPair) : Z :=
  match d with ToBackend => client_to_backend_offset c | ToClient => backend_to_client_offset c end.

Definition set_buffer (d : Direction) (b : bytes) (o : Z) (c : ConnectionPair) : ConnectionPair :=
  match d with
  | ToBackend => c <| client_to_backend := b |> <| client_to_backend_offset := o |>
  | ToClient => c <| backend_to_client := b |> <| backend_to_client_offset := o |>
  end.

(** [closeConnection] of the connection that owns [fd]. *)
Definition close_owner (fd : Z) : M () :=
  backend_it ← gets (λ s, routes s !! fd);
  match backend_it with
  | Some key => closeConnection key
  | None => closeConnection fd
  end.

(** The branch for an error of [recv]. *)
Definition close_reader (source_fd : Z) : M () :=
  backend_it ← gets (λ s, routes s !! source_fd);
  match backend_it with
  | Some key => with_connection key () (λ connection, closeConnection (client_fd connection))
  | None => closeConnection source_fd
  end.

(** The branch for [recv() == 0]. *)
Definition mark_read_closed (source_fd : Z) : M () :=
  backend_it ← gets (λ s, routes s !! source_fd);
  match backend_it with
  | Some key => on_connection key (λ c, c <| backend_read_closed := true |>)
  | None => on_connection source_fd (λ c, c <| client_read_closed := true |>)
  end.

Fixpoint forwardData (fuel : nat) (source_fd key : Z) (d : Direction) (drain : bool) : M bool :=
  match fuel with
  | O => exhausted
  | S fuel' =>
      with_connection key false (λ connection,
        let pending_bytes := sub64 (len (buffer d connection)) (offset d connection) in
        a ← sys (sys_recv source_fd (64 * 1024) false);
        if ret a >? 0 then
          if pending_bytes + ret a >? MAX_BUFFER_SIZE then close_owner source_fd ;; mret false
          else
            on_connection key (λ c,
              let c := if offset d c =? len (buffer d c) then set_buffer d [] 0 c else c in
              set_buffer d (buffer d c ++ take (Z.to_nat (ret a)) (data a)) (offset d c) c) ;;
            if negb drain then mret true else forwardData fuel' source_fd key d drain
        else if ret a =? 0 then mark_read_closed source_fd ;; mret true
        else if errno a =? EINTR then
          if drain then forwardData fuel' source_fd key d drain else mret true
        else if (errno a =? EAGAIN) || (errno a =? EWOULDBLOCK) then mret true
        else close_reader source_fd ;; mret false)
  end.

Fixpoint flushData (fuel : nat) (destination_fd key : Z) (d : Direction) : M () :=
  match fuel with
  | O => exhausted
  | S fuel' =>
      with_connection key () (λ connection,
        if offset d connection <? len (buffer d connection) then
          a ← sys (sys_send destination_fd (substr_from (buffer d connection) (offset d connection)));
          if ret a >? 0 then
            on_connection key (λ c, set_buffer d (buffer d c) (offset d c + ret a) c) ;;
            flushData fuel' destination_fd key d
          else if (ret a =? -1) && ((errno a =? EAGAIN) || (errno a =? EWOULDBLOCK)) then mret ()
          else if (ret a =? -1) && (errno a =? EINTR) then flushData fuel' destination_fd key d
          else close_owner destination_fd
        else mret ())
  end.

(** [if(events != current) if(epoll.modify(fd, events)) current = events;] *)
Definition watch (fd events current : Z) (store : M ()) : M () :=
  if negb (events =? current) then
    modified ← Epoll.modify fd events;
    if modified then store else mret ()
  else mret ().

Definition set_client_events (key events : Z) : M () :=
  on_connection key (λ c, c <| current_client_events := events |>).

Definition set_backend_events (key events : Z) : M () :=
  on_connection key (λ c, c <| current_backend_events := events |>).

Definition BASE_EVENTS : Z := Z.lor (Z.lor EPOLLRDHUP EPOLLERR) EPOLLHUP.

Definition updateWriteInterest (fd : Z) (enabled : bool) : M () :=
  backend_it ← gets (λ s, routes s !! fd);
  match backend_it with
  | Some key =>
      with_connection key () (λ connection,
        let events :=
          if backend_connecting connection then Z.lor BASE_EVENTS EPOLLOUT
          else if negb (backend_read_closed connection) then Z.lor BASE_EVENTS EPOLLIN
          else BASE_EVENTS in
        let events := if enabled then Z.lor events EPOLLOUT else events in
        watch fd events (current_backend_events connection) (set_backend_events key events))
  | None =>
      with_connection fd () (λ connection,
        let events :=
          if negb (client_read_closed connection) then Z.lor BASE_EVENTS EPOLLIN else BASE_EVENTS in
        let events := if enabled then Z.lor events EPOLLOUT else events in
        watch fd events (current_client_events connection) (set_client_events fd events))
  end.

(** ** Accepting *)

(** [inet_ntop] of an IPv4 address, given as a 32-bit number. *)
Definition inet_ntop (address : Z) : bytes :=
  let octet n := to_string (Z.shiftr address n mod 256) in
  octet 24 ++ lit "." ++ octet 16 ++ lit "." ++ octet 8 ++ lit "." ++ octet 0.

Definition accept_client (fd address : Z) : M () :=
  Socket.setNoDelay fd ;;
  full ← gets (λ s, MAX_CONNECTIONS <=? base.size (connections s))%nat;
  if full then sys (sys_close fd) ;; mret ()
  else
    let client_events := Z.lor (Z.lor (Z.lor EPOLLIN EPOLLRDHUP) EPOLLERR) EPOLLHUP in
    let connection := new_pair fd <| current_client_events := client_events |>
      <| client_ip := inet_ntop address |> in
    modify (λ s, match connections s !! fd with
                 | Some _ => s
                 | None => s <| connections := <[fd := connection]> (connections s) |>
                 end) ;;
    added ← Epoll.add fd client_events;
    if negb added then
      modify (λ s, s <| connections := delete fd (connections s) |>) ;;
      sys (sys_close fd) ;; mret ()
    else mret ().

Fixpoint handleAccept (fuel : nat) : M () :=
  match fuel with
  | O => exhausted
  | S fuel' =>
      listener ← gets listen_socket;
      a ← sys (sys_accept listener);
      if ret a =? -1 then
        if (errno a =? EAGAIN) || (errno a =? EWOULDBLOCK) then mret ()
        else if errno a =? EINTR then handleAccept fuel'
        else mret ()
      else accept_client (ret a) (value a) ;; handleAccept fuel'
  end.

(** ** One event of a relayed connection

    The parts of the loop body in [start] that follow the look-up of the
    descriptor, in the order they are run; a [bool] result says whether the body
    goes on or reached a [continue]. *)

Definition METRICS_PREFIX : bytes := lit "GET /metrics ".

(** The peek that tells a metrics request from traffic to relay. *)
Definition classify (key : Z) (current : ConnectionPair) : M bool :=
  let relay :=
    with_connection key false (λ c,
      if metrics_connection c then mret true
      else
        connected ← connectClientToBackend (client_fd c);
        if connected then mret true
        else closeConnection (client_fd c) ;; mret false) in
  a ← sys (sys_recv (client_fd current) 1024 true);
  if ret a >? 0 then
    let request := take (Z.to_nat (ret a)) (data a) in
    if (ret a <? len METRICS_PREFIX) && beq (take (Z.to_nat (ret a)) METRICS_PREFIX) request
    then mret false
    else
      (if (ret a >=? len METRICS_PREFIX) && starts_with METRICS_PREFIX request
       then on_connection key (λ c, c <| metrics_connection := true |>)
       else mret ()) ;;
      relay
  else if (ret a =? -1) && negb (errno a =? EINTR) && negb (errno a =? EAGAIN)
          && negb (errno a =? EWOULDBLOCK)
  then closeConnection (client_fd current) ;; mret false
  else relay.

Definition metrics_response (body : bytes) : bytes :=
  lit "HTTP/1.1 200 OK" ++ CRLF ++
  lit "Content-Type: text/plain; charset=utf-8" ++ CRLF ++
  lit "Content-Length: " ++ to_string (len body) ++ CRLF ++
  lit "Connection: close" ++ CRLF ++ CRLF ++ body.

Definition serve_metrics (key : Z) (current : ConnectionPair) : M () :=
  a ← sys (sys_recv (client_fd current) (4096 - 1) false);
  if ret a <=? 0 then closeConnection (client_fd current)
  else
    let request := take (Z.to_nat (ret a)) (data a) in
    if starts_with METRICS_PREFIX request then
      body ← gets (λ s, LbMetrics.render (backend_pool s) (Z.of_nat (base.size (connections s))));
      on_connection key (λ c, c <| backend_to_client := metrics_response body |>
        <| backend_to_client_offset := 0 |> <| client_read_closed := true |>) ;;
      let client_events := Z.lor (Z.lor (Z.lor EPOLLOUT EPOLLERR) EPOLLHUP) EPOLLRDHUP in
      watch (client_fd current) client_events (current_client_events current)
        (set_client_events key client_events)
    else closeConnection (client_fd current).

(** [event_flags & EPOLLIN] on a client's descriptor. *)
Definition client_readable (fuel : nat) (key : Z) (current : ConnectionPair) : M bool :=
  go ← (if negb (metrics_connection current) && (backend_fd current =? -1)
        then classify key current else mret true);
  if negb go then mret false
  else
    with_connection key false (λ current,
      if metrics_connection current then serve_metrics key current ;; mret false
      else forwardData fuel (client_fd current) key ToBackend false).

Definition read_event (fuel : nat) (key flags : Z) (is_backend_fd : bool) : M bool :=
  with_connection key false (λ current,
    if has flags EPOLLIN then
      if is_backend_fd then forwardData fuel (backend_fd current) key ToClient false
      else client_readable fuel key current
    else mret true).

(** The peer will send no more: take what is left. *)
Definition drain_event (fuel : nat) (key flags : Z) (is_backend_fd : bool) : M bool :=
  let hangup := has flags (Z.lor EPOLLRDHUP EPOLLHUP) in
  with_connection key false (λ current,
    if hangup && negb is_backend_fd && negb (metrics_connection current)
    then forwardData fuel (client_fd current) key ToBackend true
    else if hangup && is_backend_fd
    then forwardData fuel (backend_fd current) key ToClient true
    else mret true).

(** The backend's connection is established, or has failed. *)
Definition connect_event (key flags : Z) (is_backend_fd : bool) : M bool :=
  with_connection key false (λ updated,
    if is_backend_fd && backend_connecting updated && has flags EPOLLOUT then
      a ← sys (sys_getsockopt_error (backend_fd updated));
      if (ret a =? -1) || negb (value a =? 0)
      then failoverConnection (client_fd updated) (backend_index updated) ;; mret false
      else on_connection key (λ c, c <| backend_connecting := false |>) ;; mret true
    else mret true).

Definition write_event (fuel : nat) (key : Z) : M () :=
  with_connection key () (λ ready,
    if negb (backend_fd ready =? -1) && negb (backend_connecting ready)
       && (offset ToBackend ready <? len (buffer ToBackend ready))
    then flushData fuel (backend_fd ready) key ToBackend else mret ()) ;;
  with_connection key () (λ response,
    if offset ToClient response <? len (buffer ToClient response)
    then flushData fuel (client_fd response) key ToClient else mret ()).

Definition recycle (d : Direction) (c : ConnectionPair) : ConnectionPair :=
  if offset d c =? len (buffer d c) then set_buffer d [] 0 c else c.

Definition is_empty (d : Direction) (c : ConnectionPair) : bool := len (buffer d c) =? 0.

(** The half-closes that follow from what has been read and written. *)
Definition shutdown_event (key : Z) (after_io : ConnectionPair) : M () :=
  (if client_read_closed after_io && negb (backend_write_closed after_io)
      && is_empty ToBackend after_io && negb (backend_fd after_io =? -1)
      && negb (backend_connecting after_io)
   then sys (sys_shutdown (backend_fd after_io)) ;;
        on_connection key (λ c, c <| backend_write_closed := true |>)
   else mret ()) ;;
  (if backend_read_closed after_io && negb (client_write_closed after_io)
      && is_empty ToClient after_io
   then sys (sys_shutdown (client_fd after_io)) ;;
        on_connection key (λ c, c <| client_write_closed := true |>)
   else mret ()).

Definition wanted_backend_events (c : ConnectionPair) : Z :=
  let backend_events := BASE_EVENTS in
  let backend_events :=
    if negb (backend_read_closed c) then Z.lor backend_events EPOLLIN else backend_events in
  if backend_connecting c || (offset ToBackend c <? len (buffer ToBackend c))
  then Z.lor backend_events EPOLLOUT else backend_events.

Definition wanted_client_events (c : ConnectionPair) : Z :=
  let client_events := BASE_EVENTS in
  let client_events :=
    if negb (client_read_closed c) then Z.lor client_events EPOLLIN else client_events in
  if offset ToClient c <? len (buffer ToClient c)
  then Z.lor client_events EPOLLOUT else client_events.

(** The rest of the body: close what is finished, watch what is pending. *)
Definition after_event (key : Z) : M () :=
  with_connection key () (λ _,
    on_connection key (λ c, recycle ToClient (recycle ToBackend c)) ;;
    with_connection key () (λ after_io,
      if client_read_closed after_io && (backend_fd after_io =? -1)
         && is_empty ToBackend after_io && negb (metrics_connection after_io)
      then closeConnection (client_fd after_io)
      else
        shutdown_event key after_io ;;
        if metrics_connection after_io && is_empty ToClient after_io
        then closeConnection (client_fd after_io)
        else if client_read_closed after_io && backend_read_closed after_io
                && is_empty ToBackend after_io && is_empty ToClient after_io
        then closeConnection (client_fd after_io)
        else
          (if negb (backend_fd after_io =? -1)
           then watch (backend_fd after_io) (wanted_backend_events after_io)
                  (current_backend_events after_io)
                  (set_backend_events key (wanted_backend_events after_io))
           else mret ()) ;;
          watch (client_fd after_io) (wanted_client_events after_io)
            (current_client_events after_io)
            (set_client_events key (wanted_client_events after_io)))).

Definition relay_event (fuel : nat) (fd flags : Z) : M () :=
  backend_mapping ← gets (λ s, routes s !! fd);
  let is_backend_fd := match backend_mapping with Some _ => true | None => false end in
  let key := match backend_mapping with Some key => key | None => fd end in
  with_connection key () (λ connection,
    let abandon :=
      if is_backend_fd && backend_connecting connection
      then failoverConnection (client_fd connection) (backend_index connection) ;; mret ()
      else closeConnection (client_fd connection) in
    if has flags EPOLLERR then abandon
    else if has flags EPOLLHUP && negb (has flags EPOLLIN) then abandon
    else
      go ← read_event fuel key flags is_backend_fd;
      if negb go then mret ()
      else
        go ← drain_event fuel key flags is_backend_fd;
        if negb go then mret ()
        else
          go ← connect_event key flags is_backend_fd;
          if negb go then mret ()
          else write_event fuel key ;; after_event key).

(** ** The event loop *)

(** The members of the health checker, as its own operations see them. *)
Definition checker_of (s : LoadBalancer) : HealthChecker.HealthChecker :=
  HealthChecker.mk (checks s) (checker_pool s) (backend_pool s).

Definition with_checker (h : HealthChecker.HealthChecker) (s : LoadBalancer) : LoadBalancer :=
  s <| checks := HealthChecker.checks h |> <| checker_pool := HealthChecker.backend_pool h |>
    <| backend_pool := HealthChecker.pool h |>.

Definition checker {A} (m : Prog HealthChecker.HealthChecker A) : M A :=
  zoom checker_of with_checker m.

(** A member that owns one descriptor. *)
Definition timer {A} (m : Prog Z A) : M A :=
  zoom health_timer (λ fd s, s <| health_timer := fd |>) m.

Definition listener {A} (m : Prog Z A) : M A :=
  zoom listen_socket (λ fd s, s <| listen_socket := fd |>) m.

Definition handleHealthCheck : M () :=
  timer TimerFd.consume ;; checker HealthChecker.start.

Definition handleHealthEvent (fuel : nat) (fd events : Z) : M () :=
  checker (HealthChecker.handleEvent fuel fd events).

(** The body of the [for] loop over the events. *)
Definition handle_event (fuel : nat) (e : Z * Z) : M () :=
  let '(fd, event_flags) := e in
  accepting ← gets (λ s, fd =? listen_socket s);
  if accepting then handleAccept fuel
  else
    ticking ← gets (λ s, fd =? health_timer s);
    if ticking then handleHealthCheck
    else
      probing ← checker (HealthChecker.handles fd);
      if probing then handleHealthEvent fuel fd event_flags
      else relay_event fuel fd event_flags.

(** The body of the [while] loop; [false] is its [break]. *)
Definition turn (fuel : nat) : M bool :=
  checker HealthChecker.expire ;;
  health_timeout ← checker HealthChecker.nextTimeoutMs;
  let timeout := if health_timeout >=? 0 then Z.min 1000 health_timeout else 1000 in
  a ← Epoll.wait 1024 timeout;
  if ret a =? -1 then mret (errno a =? EINTR)
  else for_each (take (Z.to_nat (ret a)) (ready a)) (handle_event fuel) ;; mret true.

(** [shutdown_requested.load()], after the handlers of the signals delivered. *)
Definition shutting_down : M bool :=
  a ← sys sys_signals;
  modify (λ s, fold_left handleSignal (map fst (ready a)) s) ;;
  gets shutdown_requested.

Fixpoint loop (turns fuel : nat) : M () :=
  match turns with
  | O => exhausted
  | S turns' =>
      stop ← shutting_down;
      if stop then mret ()
      else
        go ← turn fuel;
        if go then loop turns' fuel else mret ()
  end.

Definition close_pair (e : Z * ConnectionPair) : M () :=
  let '(fd, connection) := e in
  Epoll.remove fd ;;
  (if negb (backend_fd connection =? -1) then
     Epoll.remove (backend_fd connection) ;;
     on_backend (backend_index connection) release_slot ;;
     sys (sys_close (backend_fd connection)) ;; mret ()
   else mret ()) ;;
  sys (sys_close fd) ;; mret ().

Definition closeAllConnections : M () :=
  cs ← gets connections;
  for_each (traverse cs) close_pair ;;
  modify (λ s, s <| connections := ∅ |> <| routes := ∅ |>).

Definition start (turns fuel : nat) : M () :=
  listening ← listener (Socket.bindAndListen LISTEN_PORT);
  if negb listening then mret ()
  else
    listen_fd ← gets listen_socket;
    added ← Epoll.add listen_fd EPOLLIN;
    if negb added then mret ()
    else
      started ← timer (TimerFd.start HEALTH_CHECK_INTERVAL);
      if negb started then mret ()
      else
        timer_fd ← gets health_timer;
        added ← Epoll.add timer_fd EPOLLIN;
        if negb added then mret ()
        else
          loop turns fuel ;;
          closeAllConnections ;;
          checker HealthChecker.cancelAll.

End Balancer.
End LoadBalancer.
