(* ===== verification/BalancerInv.v ===== *)
(** * The load balancer's tables

    The invariant that ties the connection table, the route table, the
    backends' connection counts and the open descriptors together, and the lemma
    that each operation of [LoadBalancer] preserves it. *)

From S2P Require Import Prelude Counts Numerals Sys Epoll Socket TimerFd Backends Ring Health LbText Balancer.
Import Backend BackendPool LoadBalancer.

(** ** Definitions *)

Definition relays (c : ConnectionPair) : bool := negb (backend_fd c =? -1).

Definition on_index (i : nat) (c : ConnectionPair) : bool := relays c && (backend_index c =? i)%nat.

(** The connections relayed to backend [i]. *)
Definition load (i : nat) (s : LoadBalancer) : Z := count (on_index i) (connections s).

Definition offsets_ok (c : ConnectionPair) : Prop := ∀ d, 0 ≤ offset d c ≤ len (buffer d c).

(** The descriptors of the rest of the program ([F]) and of the connections. *)
Definition held (F : gset Z) (s : LoadBalancer) : gset Z := F ∪ dom (connections s) ∪ dom (routes s).

Record tables (F : gset Z) (s : LoadBalancer) (w : history) : Prop := {
  t_keys : map_Forall (λ k c, client_fd c = k ∧ closing c = false) (connections s);
  t_routes : ∀ b k, routes s !! b = Some k ↔
    b ≠ -1 ∧ ∃ c, connections s !! k = Some c ∧ backend_fd c = b;
  t_index : map_Forall (λ _ c, relays c = true → (backend_index c < size (backend_pool s))%nat)
    (connections s);
  t_load : ∀ i b, backend_pool s !! i = Some b → connection_count b = load i s;
  t_offsets : map_Forall (λ _ c, offsets_ok c) (connections s);
  t_apart : F ## dom (connections s) ∧ F ## dom (routes s) ∧ dom (connections s) ## dom (routes s);
  t_checker : inv (held F s) (connection_count <$> backend_pool s) (checker_of s) w;
  t_limits : ordered (consistent_hash s) ∧ (base.size (connections s) ≤ MAX_CONNECTIONS)%nat
}.

(** The connection [key] is there and has no backend. *)
Definition unrouted (key : Z) (s : LoadBalancer) : Prop :=
  ∃ c, connections s !! key = Some c ∧ backend_fd c = -1.

(** An update of a connection that leaves its identity and its route alone. *)
Definition soft (f : ConnectionPair → ConnectionPair) (c : ConnectionPair) : Prop :=
  client_fd (f c) = client_fd c ∧ closing (f c) = closing c ∧ backend_fd (f c) = backend_fd c ∧
  backend_index (f c) = backend_index c ∧ (offsets_ok c → offsets_ok (f c)).

(** An update of a backend's statistics. *)
Definition statistic (f : Backend → Backend) (b : Backend) : Prop :=
  connection_count (f b) = connection_count b ∧ healthy (f b) = healthy b ∧
  consecutive_failures (f b) = consecutive_failures b.

(** ** Updates that keep the tables *)

(** Names the state of the goal by a convertible term. *)
Ltac state_is st := match goal with |- tables ?F _ ?w => change (tables F st w) end.

Section Tables.
Context {K : Kernel} {TC : Traversal HealthChecker.Check} {TP : Traversal ConnectionPair}.
Implicit Types (s : LoadBalancer) (w : history) (c : ConnectionPair) (F : gset Z).

Lemma tables_quiet F s w w' : tables F s w → quiet w w' → tables F s w'.
Proof. intros [] Hq. split; try done. by eapply inv_quiet. Qed.

Lemma on_index_soft f i c : soft f c → on_index i (f c) = on_index i c.
Proof. intros (_ & _ & Hb & Hi & _). unfold on_index, relays. by rewrite Hb, Hi. Qed.

Lemma dom_altered {A} (f : A → A) (m : gmap Z A) k : dom (alter f k m) = dom m.
Proof. apply dom_alter_L. Qed.

Lemma tables_soft F s w key f :
  (∀ c, connections s !! key = Some c → soft f c) → tables F s w →
  tables F (s <| connections := alter f key (connections s) |>) w.
Proof.
  intros Hf [H1 H2 H3 H4 H5 H6 H7 H8]. split; cbn.
  - apply map_Forall_alter; [done|]. intros c Hc [? ?]. destruct (Hf c Hc) as (-> & -> & _). done.
  - intros b k. rewrite H2. f_equiv. destruct (decide (k = key)) as [->|Hk].
    + rewrite lookup_alter_eq. destruct (connections s !! key) as [c|]; cbn; [|naive_solver].
      destruct (Hf c eq_refl) as (_ & _ & Hb & _). split; intros (? & [= <-] & <-); eauto.
    + by rewrite lookup_alter_ne.
  - apply map_Forall_alter; [done|]. intros c Hkc Hc. unfold relays.
    destruct (Hf c Hkc) as (_ & _ & -> & -> & _). done.
  - intros i b Hb. rewrite (H4 i b Hb). unfold load. cbn. symmetry. apply count_alter.
    intros c Hc. by apply on_index_soft, Hf.
  - apply map_Forall_alter; [done|]. intros c Hkc Hc. by apply Hf.
  - by rewrite dom_altered.
  - unfold held in *. cbn. rewrite dom_altered. exact H7.
  - by rewrite size_altered.
Qed.

Lemma tables_statistic F s w i f :
  (∀ b, backend_pool s !! i = Some b → statistic f b) → tables F s w →
  tables F (s <| backend_pool := alter f i (backend_pool s) |>) w.
Proof.
  intros Hf [H1 H2 H3 H4 H5 H6 H7 H8].
  assert (connection_count <$> alter f i (backend_pool s) = connection_count <$> backend_pool s) as Hc.
  { apply list_eq. intros j. rewrite !list_lookup_fmap, list_lookup_alter. case_decide; [subst|done].
    destruct (backend_pool s !! j) as [b|] eqn:E; cbn; [|done]. by rewrite (proj1 (Hf b eq_refl)). }
  split; cbn; try done.
  - unfold size. by rewrite length_alter.
  - intros j b Hb. assert ((connection_count <$> alter f i (backend_pool s)) !! j = Some (connection_count b)) as Hl.
    { by rewrite list_lookup_fmap, Hb. }
    rewrite Hc, list_lookup_fmap in Hl. destruct (backend_pool s !! j) as [b'|] eqn:E; [|done].
    cbn in Hl. injection Hl as <-. by apply H4.
  - destruct H7 as [Hi [Hs HL] Ho]. split; [done| |done]. cbn in *. split; [|done].
    apply Forall_alter; [done|]. intros b E [H0 Hb]. unfold steady.
    destruct (Hf b E) as (_ & -> & ->). done.
Qed.

Lemma backend_update_eq i f s w :
  on_backend i f s w = Some ((), s <| backend_pool := alter f i (backend_pool s) |>, w).
Proof.
  unfold on_backend, modify, setBackend. do 3 f_equal.
  destruct (backend_pool s !! i) as [b|] eqn:E; [done|].
  rewrite alter_out_of_range by done. by destruct s.
Qed.

Lemma wp_on_backend i f (Q : () → LoadBalancer → history → Prop) s w :
  Q () (s <| backend_pool := alter f i (backend_pool s) |>) w → wp (on_backend i f) Q s w.
Proof. intros HQ. unfold wp. by rewrite backend_update_eq. Qed.

Lemma wp_on_connection key f (Q : () → LoadBalancer → history → Prop) s w :
  Q () (s <| connections := alter f key (connections s) |>) w → wp (on_connection key f) Q s w.
Proof. done. Qed.

Lemma wp_with_connection {A} key (missing : A) body Q s w :
  (connections s !! key = None → Q missing s w) →
  (∀ c, connections s !! key = Some c → wp (body c) Q s w) →
  wp (with_connection key missing body) Q s w.
Proof.
  intros H1 H2. unfold with_connection, find_connection. wp_step. apply wp_gets.
  destruct (connections s !! key) as [c|]; [by apply H2|]. apply wp_ret. by apply H1.
Qed.

Lemma wp_remove fd (Q : bool → LoadBalancer → history → Prop) s w :
  (∀ b, Q b s ((sys_epoll_ctl EPOLL_CTL_DEL fd 0, respond w (sys_epoll_ctl EPOLL_CTL_DEL fd 0)) :: w)) →
  wp (Epoll.remove fd) Q s w.
Proof. intros HQ. unfold Epoll.remove. wp_step. apply wp_sys, wp_ret, HQ. Qed.

(** ** Closing *)

(** The checker's invariant when descriptors have gone and counts have changed. *)
Lemma inv_shrink G G' L L' h h' w w' :
  inv G L h w → G' ⊆ G → HealthChecker.checks h' = HealthChecker.checks h →
  Forall steady (HealthChecker.pool h') → connection_count <$> HealthChecker.pool h' = L' →
  holds_fds (G' ∪ dom (HealthChecker.checks h)) w' → inv G' L' h' w'.
Proof.
  intros [(HG & _ & Hk) _ Ho] Hsub Hch Hs HL Hw.
  split; [unfold checker_fds, keyed; rewrite Hch|by split|by rewrite Hch].
  split_and!; [set_solver|done..].
Qed.

Lemma load_pos s key c : connections s !! key = Some c → relays c = true → 1 ≤ load (backend_index c) s.
Proof.
  intros Hc Hr. eapply count_pos; [exact Hc|]. unfold on_index. by rewrite Hr, Nat.eqb_refl.
Qed.

(** The counts after a relayed connection has let its backend go. *)
Lemma released_load F s w key c i b :
  tables F s w → connections s !! key = Some c → relays c = true →
  alter release_slot (backend_index c) (backend_pool s) !! i = Some b →
  connection_count b = load i s - Z.b2z (on_index i c).
Proof.
  intros Ht Hc Hr Hb. rewrite list_lookup_alter in Hb. unfold on_index. rewrite Hr, andb_true_l.
  destruct (decide (backend_index c = i)) as [<-|Hi].
  - destruct (backend_pool s !! backend_index c) as [b0|] eqn:E; [|done]. cbn in Hb. injection Hb as <-.
    pose proof (t_load _ _ _ Ht _ _ E) as Hl. pose proof (load_pos s key c Hc Hr).
    rewrite Nat.eqb_refl. unfold release_slot. rewrite Z.gtb_ltb, (proj2 (Z.ltb_lt _ _)) by lia.
    cbn. lia.
  - rewrite (proj2 (Nat.eqb_neq _ _)) by done. rewrite (t_load _ _ _ Ht _ _ Hb). cbn. lia.
Qed.

Lemma steady_released (p : BackendPool) i :
  Forall steady p → Forall steady (alter release_slot i p).
Proof.
  intros Hp. apply Forall_alter; [done|]. intros b _ [H0 Hb]. unfold release_slot.
  by destruct (_ >? 0).
Qed.

(** The state after [closeConnection] of the connection [c]. *)
Definition closed (key : Z) (c : ConnectionPair) (s : LoadBalancer) : LoadBalancer :=
  let s' := if relays c
            then s <| backend_pool := alter release_slot (backend_index c) (backend_pool s) |>
                   <| routes := delete (backend_fd c) (routes s) |>
            else s in
  s' <| connections := delete key (connections s) |>.

Lemma routes_of F s w key c :
  tables F s w → connections s !! key = Some c → relays c = true → routes s !! backend_fd c = Some key.
Proof.
  intros Ht Hc Hr. apply (t_routes _ _ _ Ht). split; [|by exists c].
  unfold relays in Hr. by apply negb_true_iff, Z.eqb_neq in Hr.
Qed.

Lemma count_closed F s w key c i :
  tables F s w → connections s !! key = Some c →
  load i (closed key c s) = load i s - Z.b2z (on_index i c).
Proof.
  intros Ht Hc. unfold load at 2. rewrite (count_delete (on_index i) (connections s) key c) by done.
  unfold load, closed. destruct (relays c); cbn; lia.
Qed.

(** [F'] may keep the client's descriptor. *)
Lemma tables_closed F F' s w w' key c :
  tables F s w → connections s !! key = Some c → F ⊆ F' → F' ⊆ {[ key ]} ∪ F →
  holds_fds (held F' (closed key c s) ∪ dom (checks s)) w' → tables F' (closed key c s) w'.
Proof.
  intros Ht Hc HF1 HF2 Hw. pose proof Ht as [H1 H2 H3 H4 H5 (A1 & A2 & A3) H7 H8].
  assert (connections (closed key c s) = delete key (connections s)) as Ec by (unfold closed; by destruct (relays c)).
  assert (checks (closed key c s) = checks s) as Eh by (unfold closed; by destruct (relays c)).
  assert (routes (closed key c s) ⊆ routes s) as Er.
  { unfold closed. destruct (relays c); cbn; [apply delete_subseteq|done]. }
  assert (dom (routes (closed key c s)) ⊆ dom (routes s)) as Dr by by apply subseteq_dom.
  assert (Forall steady (backend_pool (closed key c s))) as Hsteady.
  { destruct H7 as [_ [Hs _] _]. unfold closed.
    destruct (relays c); cbn; [by apply steady_released|done]. }
  split; rewrite ?Ec.
  - by apply map_Forall_delete.
  - intros b k. unfold closed. destruct (relays c) eqn:Hr; cbn.
    + pose proof (routes_of _ _ _ _ _ Ht Hc Hr) as Hrt. rewrite lookup_delete_Some, H2.
      setoid_rewrite lookup_delete_Some. split.
      * intros (Hb & Hn & c' & Hc' & <-). split; [done|]. exists c'. split; [|done]. split; [|done].
        intros <-. rewrite Hc in Hc'. by injection Hc' as <-.
      * intros (Hn & c' & [Hk Hc'] & <-). split_and!; [|done|by exists c'].
        intros E. apply Hk. assert (routes s !! backend_fd c' = Some k) as Hk' by (apply H2; by eauto).
        rewrite <- E, Hrt in Hk'. by injection Hk'.
    + rewrite H2. setoid_rewrite lookup_delete_Some. unfold relays in Hr.
      apply negb_false_iff, Z.eqb_eq in Hr. split.
      * intros (Hn & c' & Hc' & <-). split; [done|]. exists c'. split; [|done]. split; [|done].
        intros <-. rewrite Hc in Hc'. injection Hc' as <-. done.
      * intros (Hn & c' & [Hk Hc'] & <-). split; [done|]. by exists c'.
  - apply map_Forall_delete. unfold closed. destruct (relays c); cbn; [|done].
    unfold size. by rewrite length_alter.
  - intros i b Hb. rewrite (count_closed F s w) by done. unfold closed in Hb.
    destruct (relays c) eqn:Hr; cbn in Hb.
    + by eapply released_load.
    + rewrite (H4 _ _ Hb). unfold on_index. rewrite Hr. cbn. lia.
  - by apply map_Forall_delete.
  - apply elem_of_dom_2 in Hc. rewrite dom_delete_L. clear - A1 A2 A3 Dr HF2 Hc. set_solver.
  - eapply inv_shrink; [exact H7| |done|done|done|done].
    apply elem_of_dom_2 in Hc. unfold held. rewrite Ec, dom_delete_L. clear - Dr HF2 Hc. set_solver.
  - destruct H8 as [Hring Hsize]. split; [unfold closed; by destruct (relays c)|].
    etransitivity; [|exact Hsize]. apply size_deleted.
Qed.

Lemma tables_holds F s w : tables F s w → holds_fds (held F s ∪ dom (checks s)) w.
Proof. intros Ht. destruct (t_checker _ _ _ Ht) as [(_ & Hw & _) _ _]. exact Hw. Qed.

Lemma tables_checks_apart F s w : tables F s w → held F s ## dom (checks s).
Proof. intros Ht. destruct (t_checker _ _ _ Ht) as [(HF & _) _ _]. exact HF. Qed.

Lemma closeConnection_wp F s w key :
  tables F s w →
  wp (closeConnection key) (λ _ s' w', tables F s' w' ∧
    (connections s !! key = None → s' = s) ∧
    (∀ c, connections s !! key = Some c → s' = closed key c s)) s w.
Proof.
  intros Ht. apply wp_with_connection.
  { intros Hn. split; [done|]. split; [done|]. intros c Hc. by rewrite Hn in Hc. }
  intros c Hc. destruct (t_keys _ _ _ Ht _ _ Hc) as [Hk Hcl]. rewrite Hcl.
  pose proof (tables_holds _ _ _ Ht) as Hw. pose proof (t_apart _ _ _ Ht) as (A1 & A2 & A3).
  pose proof (tables_checks_apart _ _ _ Ht) as A4. unfold held in *.
  assert (key ∈ dom (connections s)) as Hd by by eapply elem_of_dom_2.
  assert (∀ s' w', s' = closed key c s → holds_fds (held F (closed key c s) ∪ dom (checks s)) w' →
    tables F s' w' ∧ (connections s !! key = None → s' = s) ∧
    (∀ c', connections s !! key = Some c' → s' = closed key c' s)) as Hend.
  { intros s' w' -> Hw'. split; [by apply (tables_closed F F s w); [..|apply union_subseteq_r|]|]. split; [by rewrite Hc|].
    intros c' Hc'. rewrite Hc in Hc'. by injection Hc' as <-. }
  wp_step. apply wp_on_connection. wp_step. apply wp_remove. intros _. rewrite Hk.
  wp_step. change (negb (backend_fd c =? -1)) with (relays c).
  unfold closed in Hend. destruct (relays c) eqn:Hr.
  - pose proof (routes_of _ _ _ _ _ Ht Hc Hr) as Hrt.
    assert (backend_fd c ∈ dom (routes s)) as Hb by by eapply elem_of_dom_2.
    wp_step. apply wp_remove. intros _. wp_step. apply wp_modify. wp_step. apply wp_on_backend.
    wp_step. apply wp_sys. apply wp_on_connection. wp_step. apply wp_sys. apply wp_modify.
    apply Hend; [unfold set_with; cbn; by rewrite !delete_altered|].
    unfold held. cbn. rewrite !dom_delete_L.
    match goal with |- holds_fds ?G _ => replace G with
      (((F ∪ dom (connections s) ∪ dom (routes s) ∪ dom (checks s)) ∖ {[backend_fd c]}) ∖ {[key]}) end.
    + apply holds_close; [clear - Hd Hb A3; set_solver|]. apply holds_close; [clear - Hb; set_solver|].
      by repeat (apply holds_neutral; [done|]).
    + generalize dependent (dom (connections s)). generalize dependent (dom (routes s)).
      generalize dependent (dom (checks s)). clear. intros. set_solver.
  - wp_step. wp_step. apply wp_sys. apply wp_modify.
    apply Hend; [unfold set_with; cbn; by rewrite !delete_altered|].
    unfold held. cbn. rewrite !dom_delete_L.
    match goal with |- holds_fds ?G _ => replace G with
      ((F ∪ dom (connections s) ∪ dom (routes s) ∪ dom (checks s)) ∖ {[key]}) end.
    + apply holds_close; [clear - Hd; set_solver|]. by repeat (apply holds_neutral; [done|]).
    + generalize dependent (dom (connections s)). generalize dependent (dom (routes s)).
      generalize dependent (dom (checks s)). clear. intros. set_solver.
Qed.

Lemma closeConnection_tables F s w key :
  tables F s w → wp (closeConnection key) (λ _ s' w', tables F s' w') s w.
Proof. intros Ht. eapply wp_mono; [|by apply (closeConnection_wp F)]. by intros [] s' w' (? & _). Qed.

(** Only the open descriptors of the history matter. *)
Lemma tables_history F s w w' :
  tables F s w → holds_fds (held F s ∪ dom (checks s)) w' → tables F s w'.
Proof. intros [? ? ? ? ? ? [(?&?&?) ? ?] ?] Hw. by split. Qed.

(** ** Attaching *)

(** What an attempt to route the connection [key] leaves alone: the other
    connections, the traffic and the flags of this one, and the backends'
    health. *)
Definition traffic (c : ConnectionPair) :=
  (client_fd c, client_to_backend c, backend_to_client c, client_to_backend_offset c,
   backend_to_client_offset c, client_read_closed c, metrics_connection c, client_ip c).

Record rerouted (key : Z) (s s' : LoadBalancer) : Prop := {
  rr_others k : k ≠ key → connections s' !! k = connections s !! k;
  rr_traffic : traffic <$> connections s' !! key = traffic <$> connections s !! key;
  rr_health : healthy <$> backend_pool s' = healthy <$> backend_pool s
}.

#[global] Instance rerouted_preorder key : PreOrder (rerouted key).
Proof.
  split; [by split|]. intros s1 s2 s3 [A1 A2 A3] [B1 B2 B3].
  split; [intros k Hk; by rewrite B1, A1|congruence..].
Qed.

Lemma tables_replace F s w key c c' :
  tables F s w → connections s !! key = Some c → backend_fd c = -1 →
  client_fd c' = key → closing c' = false → backend_fd c' = -1 → offsets_ok c' →
  tables F (s <| connections := <[key := c']> (connections s) |>) w.
Proof.
  intros [H1 H2 H3 H4 H5 H6 H7 H8] Hc Hb Hk Hcl Hb' Hoff.
  assert (dom (<[key:=c']> (connections s)) = dom (connections s)) as Hdom.
  { apply elem_of_dom_2 in Hc. rewrite dom_insert_L. set_solver. }
  split; cbn; try rewrite Hdom; try done.
  - by apply map_Forall_insert_2.
  - intros b k. rewrite H2. split; intros (Hn & x & Hx & <-); (split; [done|]); exists x; (split; [|done]).
    + rewrite lookup_insert_ne; [done|]. intros <-. congruence.
    + apply lookup_insert_Some in Hx as [(<- & <-)|[_ Hx]]; [congruence|done].
  - apply map_Forall_insert_2; [|done]. unfold relays. by rewrite Hb'.
  - intros i b Hi. rewrite (H4 i b Hi). unfold load. cbn.
    rewrite (count_replace _ _ key c c') by done. unfold on_index, relays. rewrite Hb, Hb'. cbn. lia.
  - by apply map_Forall_insert_2.
  - unfold held in *. cbn. by rewrite Hdom.
  - by rewrite (size_replaced _ _ _ c).
Qed.

(** A backend's count does not wrap around: there are few connections. *)
Lemma load_counts F s w i : tables F s w → add64 (load i s) 1 = load i s + 1.
Proof.
  intros Ht. pose proof (count_nonneg (on_index i) (connections s)) as H0.
  pose proof (count_le_size (on_index i) (connections s)) as Hle. fold (load i s) in *.
  assert (Z.of_nat (base.size (connections s)) ≤ 100000) as Hmax.
  { change 100000 with (Z.of_nat MAX_CONNECTIONS). apply inj_le, Ht. }
  apply Z.mod_small. unfold U64. lia.
Qed.

(** [connection_count++; total_connections++;] *)
Definition occupy (b : Backend) : Backend :=
  b <| connection_count := add64 (connection_count b) 1 |> <| total_connections := add64 (total_connections b) 1 |>.

Lemma tables_attach F s w w' key c c' fd index :
  tables F s w → connections s !! key = Some c → backend_fd c = -1 →
  (index < size (backend_pool s))%nat → fd ≠ -1 → fd ∉ held F s ∪ dom (checks s) →
  client_fd c' = key → closing c' = false → backend_fd c' = fd → backend_index c' = index →
  offsets_ok c' → holds_fds ({[ fd ]} ∪ (held F s ∪ dom (checks s))) w' →
  tables F (s <| connections := <[key := c']> (connections s) |>
              <| backend_pool := alter occupy index (backend_pool s) |>
              <| routes := <[fd := key]> (routes s) |>) w'.
Proof.
  intros Ht Hc Hb Hlt Hfd Hfresh Hk Hcl Hb' Hi Hoff Hw. pose proof (λ i, load_counts F s w i Ht) as Hadd.
  destruct Ht as [H1 H2 H3 H4 H5 (A1 & A2 & A3) H7 H8]. unfold held in Hfresh.
  assert (dom (<[key:=c']> (connections s)) = dom (connections s)) as Hdom.
  { apply elem_of_dom_2 in Hc. rewrite dom_insert_L. set_solver. }
  assert (routes s !! fd = None) as Hnone by (apply not_elem_of_dom; set_solver).
  assert (relays c' = true) as Hr.
  { unfold relays. rewrite Hb'. by apply negb_true_iff, Z.eqb_neq. }
  split; cbn; rewrite ?Hdom, ?dom_insert_L.
  - by apply map_Forall_insert_2.
  - intros b k. rewrite lookup_insert_Some, H2. split.
    + intros [(<- & <-)|(Hne & Hn & x & Hx & <-)].
      * split; [done|]. exists c'. by rewrite lookup_insert_eq.
      * split; [done|]. exists x. split; [|done]. rewrite lookup_insert_ne; [done|]. intros <-. congruence.
    + intros (Hn & x & Hx & <-). apply lookup_insert_Some in Hx as [(<- & <-)|[Hkk Hx]]; [left; by split|].
      right. split; [|split; [done|by exists x]]. intros E. rewrite E in Hnone.
      assert (routes s !! backend_fd x = Some k) as Hroute by (apply H2; by eauto). congruence.
  - unfold size. rewrite length_alter. apply map_Forall_insert_2; [|done]. intros _. by rewrite Hi.
  - intros i b Hib. unfold load. cbn. rewrite (count_replace _ _ key c c') by done.
    assert (relays c = false) as Hrc by (unfold relays; by rewrite Hb).
    unfold on_index at 2 3. rewrite Hr, Hrc, Hi. cbn [andb Z.b2z].
    rewrite list_lookup_alter in Hib. destruct (decide (index = i)) as [<-|Hne].
    + destruct (backend_pool s !! index) as [b0|] eqn:E; [|done]. cbn in Hib. injection Hib as <-.
      rewrite Nat.eqb_refl. cbn. rewrite (H4 _ _ E), Hadd. unfold load. lia.
    + rewrite (proj2 (Nat.eqb_neq _ _)) by done. cbn. rewrite (H4 _ _ Hib). unfold load. lia.
  - by apply map_Forall_insert_2.
  - clear - A1 A2 A3 Hfresh. set_solver.
  - destruct H7 as [(B1 & _ & B3) [B4 B5] B6]. split; cbn in *.
    + unfold checker_fds, keyed, held. cbn. rewrite Hdom, dom_insert_L.
      unfold held in B1. split; [clear - B1 Hfresh; set_solver|]. split; [|done].
      match goal with |- holds_fds ?G _ => replace G with
        ({[fd]} ∪ (held F s ∪ dom (checks s))); [done|] end. unfold held. clear. set_solver.
    + split; [|done]. apply Forall_alter; [done|]. by intros b _ [? ?].
    + done.
  - by rewrite (size_replaced _ _ _ c).
Qed.

(** ** Connecting *)

(** The result of an attempt to connect, for a program that holds [G]. *)
Definition connected_fd (G : gset Z) (s : LoadBalancer) (fd : Z) (s' : LoadBalancer) (w' : history) : Prop :=
  s' = s ∧ (fd ∉ G) ∧ fd ≠ -1 ∧ holds_fds ({[ fd ]} ∪ G) w'.

Lemma try_address_spec {FK : FreshFds K} G address s w :
  holds_fds G w →
  wp (try_address address) (λ r s' w',
    match r with
    | None => s' = s ∧ holds_fds G w'
    | Some found => connected_fd G s found.1 s' w'
    end) s w.
Proof.
  intros Hw. unfold try_address. wp_step. apply wp_sys. set (a := respond _ _). cbv zeta.
  destruct (Z.eqb_spec (ret a) (-1)) as [E|E].
  { apply wp_ret. split; [done|]. apply holds_open_failed; [|done..]. unfold opened. cbn. by rewrite E. }
  assert (opened (sys_socket, a) = Some (ret a)) as Ho.
  { unfold opened. cbn. by rewrite (proj2 (Z.eqb_neq _ _)). }
  pose proof (FK w sys_socket _ Ho) as [_ Hfresh]. rewrite (proj1 Hw) in Hfresh.
  pose proof (holds_open _ _ _ _ _ Ho Hw) as Hw1.
  unfold Socket.setNoDelay. wp_step. wp_step. apply wp_sys, wp_ret. wp_step.
  { wp_step. apply wp_sys, wp_ret. split; [done|]. apply holds_closed; [done|]. by apply holds_neutral. }
  wp_step. apply wp_sys. wp_step; [|wp_step].
  - apply wp_ret. split_and!; [done..|]. by repeat (apply holds_neutral; [done|]).
  - apply wp_ret. split_and!; [done..|]. by repeat (apply holds_neutral; [done|]).
  - wp_step. apply wp_sys, wp_ret. split; [done|]. apply holds_closed; [done|].
    by repeat (apply holds_neutral; [done|]).
Qed.

Lemma connectToBackend_spec {FK : FreshFds K} G b s w :
  holds_fds G w →
  wp (connectToBackend b) (λ r s' w',
    if r.1 =? -1 then s' = s ∧ holds_fds G w' else connected_fd G s r.1 s' w') s w.
Proof.
  intros Hw. unfold connectToBackend. wp_step. apply wp_sys. set (a := respond _ _).
  match goal with |- wp _ _ _ ?w' => assert (holds_fds G w') as Hw1 by by apply holds_neutral end.
  wp_step; [by apply wp_ret|]. wp_step.
  apply (wp_for_until (λ s' w', s' = s ∧ holds_fds G w')).
  - intros address s' w' _ [-> Hw']. eapply wp_mono; [|by apply (try_address_spec G)].
    intros [[fd b']|] s2 w2 H; [|done]. apply wp_ret. destruct H as (-> & Hfd & Hne & H). cbn in *.
    by rewrite (proj2 (Z.eqb_neq _ _)).
  - intros s' w' [-> Hw']. by apply wp_ret.
  - done.
Qed.

(** What [undo] does to a connection whose descriptor epoll refused. *)
Definition undoing (f : ConnectionPair → ConnectionPair) : Prop := ∀ c,
  client_fd (f c) = client_fd c ∧ closing (f c) = closing c ∧ backend_fd (f c) = -1 ∧
  (offsets_ok c → offsets_ok (f c)) ∧ traffic (f c) = traffic c.

Definition routed (key : Z) (index : nat) (s : LoadBalancer) : Prop :=
  ∃ c, connections s !! key = Some c ∧ relays c = true ∧ backend_index c = index.

Lemma healthy_alter (p : BackendPool) i f :
  (∀ b, healthy (f b) = healthy b) → healthy <$> alter f i p = healthy <$> p.
Proof.
  intros Hf. apply list_eq. intros j. rewrite !list_lookup_fmap, list_lookup_alter.
  case_decide; [subst|done]. destruct (p !! j); cbn; [|done]. by rewrite Hf.
Qed.

Lemma alter_alter (p : BackendPool) i f g : alter f i (alter g i p) = alter (f ∘ g) i p.
Proof.
  apply list_eq. intros j. rewrite !list_lookup_alter. repeat case_decide; try done.
  by destruct (p !! i).
Qed.

Lemma attach_spec {FK : FreshFds K} F key index undo s w :
  tables F s w → unrouted key s → undoing undo →
  wp (attach key index undo) (λ r s' w', tables F s' w' ∧ rerouted key s s' ∧
    if r then routed key index s' else unrouted key s') s w.
Proof.
  intros Ht (c & Hc & Hb) Hundo. unfold attach. wp_step. apply wp_gets.
  unfold BackendPool.getBackend. destruct (backend_pool s !! index) as [b|] eqn:Eb.
  2:{ apply wp_ret. split_and!; [done..|by exists c]. }
  pose proof (tables_holds _ _ _ Ht) as Hw. destruct (t_keys _ _ _ Ht _ _ Hc) as [Hk Hcl].
  pose proof (t_offsets _ _ _ Ht _ _ Hc) as Hoff. cbn in Hoff.
  wp_step. eapply wp_mono; [|by apply (connectToBackend_spec (held F s ∪ dom (checks s)))].
  intros [fd connecting] s1 w1 H. cbn [fst snd] in H. cbv zeta. cbn [fst snd].
  destruct (Z.eqb_spec fd (-1)) as [E|E].
  { destruct H as [-> Hw1]. wp_step. apply wp_on_backend, wp_ret. split_and!.
    - apply tables_statistic; [done|]. by eapply tables_history.
    - split; [done..|]. cbn. by apply healthy_alter.
    - by exists c. }
  destruct H as (-> & Hfd & _ & Hw1).
  wp_step. apply wp_on_connection. wp_step. apply wp_on_backend. wp_step.
  unfold Epoll.add. wp_step. apply wp_sys, wp_ret.
  rewrite (alter_as_insert _ (connections s) key c) by done.
  set (c1 := c <| backend_fd := fd |> <| backend_index := index |> <| backend_connecting := connecting |>).
  fold occupy. change (λ b0 : Backend, _) with occupy.
  wp_step.
  - wp_step. apply wp_on_backend. wp_step. apply wp_sys. wp_step. apply wp_on_connection, wp_ret.
    cbn. rewrite alter_alter, (alter_as_insert _ _ key c1), insert_insert_eq by apply lookup_insert_eq.
    destruct (Hundo c1) as (U1 & U2 & U3 & U4 & U5). split_and!.
    + set (s1 := s <| connections := <[key := undo c1]> (connections s) |>).
      state_is (s1 <| backend_pool := alter (release_slot ∘ occupy) index (backend_pool s1) |>).
      apply tables_statistic.
      { intros b0 Hb0. cbn in Hb0. pose proof (t_load _ _ _ Ht _ _ Hb0) as Hl.
        pose proof (count_nonneg (on_index index) (connections s)) as Hn. fold (load index s) in Hn.
        unfold statistic, release_slot, compose, occupy. cbn.
        rewrite Hl, (load_counts _ _ _ _ Ht), Z.gtb_ltb, (proj2 (Z.ltb_lt _ _)) by lia.
        cbn. split_and!; [lia|done..]. }
      eapply tables_replace;
        [|exact Hc|done|rewrite U1; exact Hk|rewrite U2; exact Hcl|done|by apply U4].
      eapply tables_history; [done|]. apply holds_closed; [done|]. by apply holds_neutral.
    + split; cbn.
      * intros k Hne. by rewrite lookup_insert_ne.
      * rewrite lookup_insert_eq, Hc. cbn. by rewrite U5.
      * apply healthy_alter. intros b0. unfold release_slot, occupy, compose. cbn. by destruct (_ >? 0).
    + exists (undo c1). cbn. by rewrite lookup_insert_eq.
  - wp_step. apply wp_on_connection. wp_step. apply wp_modify, wp_ret. cbn.
    rewrite (alter_as_insert _ _ key c1), insert_insert_eq by apply lookup_insert_eq. split_and!.
    + state_is (s <| connections := <[key := c1 <| current_backend_events := relay_events connecting |>]>
          (connections s) |> <| backend_pool := alter occupy index (backend_pool s) |>
          <| routes := <[fd := key]> (routes s) |>).
      apply (tables_attach F s w _ key c); try done; [by eapply lookup_lt_Some|by apply holds_neutral].
    + split; cbn.
      * intros k Hne. by rewrite lookup_insert_ne.
      * by rewrite lookup_insert_eq, Hc.
      * by apply healthy_alter.
    + eexists. cbn. rewrite lookup_insert_eq. split; [done|]. split; [|done].
      unfold relays. cbn. by apply negb_true_iff, Z.eqb_neq.
Qed.

(** ** New connections *)

(** A descriptor that has just been opened belongs to the rest of the program. *)
Lemma tables_adopt F s w w' fd :
  tables F s w → fd ∉ held F s ∪ dom (checks s) →
  holds_fds ({[ fd ]} ∪ (held F s ∪ dom (checks s))) w' → tables ({[ fd ]} ∪ F) s w'.
Proof.
  intros [H1 H2 H3 H4 H5 (A1 & A2 & A3) [(B1 & _ & B3) B4 B5] H8] Hfd Hw. unfold held in *.
  split; try done; [clear - A1 A2 A3 Hfd; set_solver|]. split; [|done|done]. unfold held.
  split; [cbn in *; clear - B1 Hfd; set_solver|]. split; [|done].
  match goal with |- holds_fds ?G _ => replace G with
    ({[fd]} ∪ (F ∪ dom (connections s) ∪ dom (routes s) ∪ dom (checks s))); [done|] end.
  cbn. clear. set_solver.
Qed.

(** It becomes the descriptor of a connection without a backend. *)
Lemma tables_insert F s w key c :
  tables ({[ key ]} ∪ F) s w → key ∉ F → client_fd c = key → closing c = false →
  backend_fd c = -1 → offsets_ok c → (base.size (connections s) < MAX_CONNECTIONS)%nat →
  tables F (s <| connections := <[key := c]> (connections s) |>) w.
Proof.
  intros [H1 H2 H3 H4 H5 (A1 & A2 & A3) H7 H8] HF Hk Hcl Hb Hoff Hsize.
  assert (connections s !! key = None) as Hnone by (apply not_elem_of_dom; set_solver).
  assert (relays c = false) as Hr by (unfold relays; by rewrite Hb).
  split; cbn; rewrite ?dom_insert_L.
  - by apply map_Forall_insert_2.
  - intros b k. rewrite H2. split; intros (Hn & x & Hx & <-); (split; [done|]); exists x; (split; [|done]).
    + rewrite lookup_insert_ne; [done|]. intros <-. congruence.
    + apply lookup_insert_Some in Hx as [(<- & <-)|[_ Hx]]; [congruence|done].
  - apply map_Forall_insert_2; [|done]. by rewrite Hr.
  - intros i b Hi. rewrite (H4 i b Hi). unfold load. cbn. rewrite count_insert by done.
    unfold on_index at 2. by rewrite Hr.
  - by apply map_Forall_insert_2.
  - clear - A1 A2 A3 HF. set_solver.
  - destruct H7 as [B1 B2 B3]. split; [|done|done]. unfold checker_fds in *. unfold held in *. cbn.
    rewrite dom_insert_L. replace (F ∪ ({[key]} ∪ dom (connections s)) ∪ dom (routes s))
      with ({[key]} ∪ F ∪ dom (connections s) ∪ dom (routes s)) by (clear; set_solver). done.
  - split; [apply H8|]. rewrite map_size_insert_None by done. lia.
Qed.

(** ** Failing over *)

Definition count_failed (b : Backend) : Backend :=
  b <| failed_connections := add64 (failed_connections b) 1 |>.

Lemma detach_spec F s w key c :
  tables F s w → connections s !! key = Some c →
  wp (detach key c (backend_index c)) (λ _ s' w', tables F s' w' ∧ rerouted key s s' ∧ unrouted key s') s w.
Proof.
  intros Ht Hc. unfold detach. cbv zeta. change (negb (backend_fd c =? -1)) with (relays c).
  destruct (relays c) eqn:Hr.
  2:{ apply wp_ret. split_and!; [done..|]. exists c. split; [done|]. unfold relays in Hr. lia. }
  pose proof (routes_of _ _ _ _ _ Ht Hc Hr) as Hrt. apply elem_of_dom_2 in Hrt.
  pose proof (elem_of_dom_2 _ _ _ Hc) as Hd. destruct (t_keys _ _ _ Ht _ _ Hc) as [Hk Hcl].
  pose proof (tables_holds _ _ _ Ht) as Hw. pose proof (t_apart _ _ _ Ht) as (A1 & A2 & A3).
  pose proof (tables_checks_apart _ _ _ Ht) as A4. unfold held in *.
  wp_step. apply wp_remove. intros _. wp_step. apply wp_modify. wp_step. apply wp_on_backend.
  wp_step. apply wp_sys. apply wp_on_connection. cbn.
  rewrite (alter_as_insert _ (connections s) key c) by done.
  set (c' := c <| backend_fd := -1 |> <| backend_connecting := false |> <| current_backend_events := 0 |>).
  split_and!.
  - set (s0 := closed key c s). set (s1 := s0 <| connections := <[key := c']> (connections s0) |>).
    assert (tables F (s1 <| backend_pool := alter count_failed (backend_index c) (backend_pool s1) |>)
      ((sys_close (backend_fd c), respond ((sys_epoll_ctl EPOLL_CTL_DEL (backend_fd c) 0,
         respond w (sys_epoll_ctl EPOLL_CTL_DEL (backend_fd c) 0)) :: w) (sys_close (backend_fd c)))
       :: (sys_epoll_ctl EPOLL_CTL_DEL (backend_fd c) 0,
         respond w (sys_epoll_ctl EPOLL_CTL_DEL (backend_fd c) 0)) :: w)) as Hgoal.
    { apply tables_statistic; [done|]. apply tables_insert;
        [|set_solver|done..|by apply (t_offsets _ _ _ Ht _ _ Hc)|by eapply size_deleted_lt, Ht].
      apply (tables_closed F _ s w); [done..|set_solver|set_solver|].
      unfold held, closed. rewrite Hr. cbn. rewrite !dom_delete_L.
      match goal with |- holds_fds ?G _ => replace G with
        ((F ∪ dom (connections s) ∪ dom (routes s) ∪ dom (checks s)) ∖ {[backend_fd c]}) end.
      + apply holds_close; [clear - Hrt; set_solver|]. by apply holds_neutral.
      + generalize dependent (dom (connections s)). generalize dependent (dom (routes s)).
        generalize dependent (dom (checks s)). clear. intros. set_unfold. intros x.
        destruct (decide (x = key)); naive_solver. }
    subst s1 s0. unfold closed in Hgoal. rewrite Hr in Hgoal. cbn in Hgoal.
    rewrite insert_delete_eq, alter_alter in Hgoal. exact Hgoal.
  - split; cbn.
    + intros k Hne. by rewrite lookup_insert_ne.
    + by rewrite lookup_insert_eq, Hc.
    + apply healthy_alter. intros b. unfold release_slot. by destruct (_ >? 0).
  - exists c'. cbn. by rewrite lookup_insert_eq.
Qed.

Lemma rerouted_lookup key s s' k :
  rerouted key s s' → connections s !! k = None → k ≠ key → connections s' !! k = None.
Proof. intros [Ho _ _] Hk Hne. by rewrite Ho. Qed.

Lemma rerouted_backend key s s' i b :
  rerouted key s s' → backend_pool s' !! i = Some b →
  ∃ b0, backend_pool s !! i = Some b0 ∧ healthy b0 = healthy b.
Proof.
  intros [_ _ Hh] Hb. apply (f_equal (.!! i)) in Hh. rewrite !list_lookup_fmap, Hb in Hh.
  destruct (backend_pool s !! i) as [b0|]; [|done]. cbn in Hh. injection Hh as Hh. by exists b0.
Qed.

(** A backend that was healthy when the search began. *)
Definition live (s : LoadBalancer) (i : nat) : Prop :=
  ∃ b, backend_pool s !! i = Some b ∧ healthy b = true.

Lemma rerouted_live key s s' i : rerouted key s s' → live s' i → live s i.
Proof.
  intros Hr (b & Hb & Hh). destruct (rerouted_backend _ _ _ _ _ Hr Hb) as (b0 & Hb0 & E).
  exists b0. split; [done|congruence].
Qed.

Lemma live_test s i (b : option Backend) :
  b = getBackend (backend_pool s) i →
  match b with Some backend => healthy backend | None => false end = true ↔ live s i.
Proof.
  intros ->. unfold live, BackendPool.getBackend. destruct (backend_pool s !! i); naive_solver.
Qed.

Lemma failover_attempt_spec {FK : FreshFds K} F key failed start_index count attempt s w :
  tables F s w → unrouted key s →
  wp (failover_attempt key failed start_index count attempt) (λ r s' w', tables F s' w' ∧
    rerouted key s s' ∧
    match r with
    | Some found => found = true ∧ ∃ i, i ≠ failed ∧ live s i ∧ routed key i s'
    | None => unrouted key s'
    end) s w.
Proof.
  intros Ht Hu. unfold failover_attempt. cbv zeta. set (index := (_ mod count)%nat).
  destruct (Nat.eqb_spec index failed) as [E|E]; [by apply wp_ret|].
  wp_step. apply wp_gets. destruct (match _ with Some _ => _ | None => _ end) eqn:Hh; [|by apply wp_ret].
  apply (live_test s index) in Hh; [|done]. cbn [negb]. wp_step.
  eapply wp_mono; [|by apply (attach_spec F)]. intros r s1 w1 (Ht1 & Hr1 & Hend). destruct r; cbv beta.
  - wp_step. apply wp_on_backend, wp_ret. split; [by apply tables_statistic|]. split.
    + etransitivity; [exact Hr1|]. split; [done..|]. cbn. by apply healthy_alter.
    + split; [done|]. exists index. by split_and!.
  - by apply wp_ret.
Qed.

Lemma failoverConnection_spec {FK : FreshFds K} F s w key c :
  tables F s w → connections s !! key = Some c →
  wp (failoverConnection key (backend_index c)) (λ r s' w', tables F s' w' ∧
    if r then rerouted key s s' ∧ ∃ i, i ≠ backend_index c ∧ live s i ∧ routed key i s'
    else connections s' = delete key (connections s)) s w.
Proof.
  intros Ht Hc. apply wp_with_connection; [by rewrite Hc|]. intros c0 Hc0.
  rewrite Hc in Hc0. injection Hc0 as <-. wp_step.
  eapply wp_mono; [|by apply (detach_spec F)]. intros [] s1 w1 (Ht1 & Hr1 & Hu1).
  assert (∀ s2 w2, tables F s2 w2 → rerouted key s s2 → unrouted key s2 →
    wp (closeConnection key ;; mret false) (λ r s' w', tables F s' w' ∧
      if r then rerouted key s s' ∧ ∃ i, i ≠ backend_index c ∧ live s i ∧ routed key i s'
      else connections s' = delete key (connections s)) s2 w2) as Hclose.
  { intros s2 w2 Ht2 Hr2 (c2 & Hc2 & _). wp_step. eapply wp_mono; [|by apply (closeConnection_wp F)].
    intros [] s3 w3 (Ht3 & _ & Heq). apply wp_ret. split; [done|]. rewrite (Heq _ Hc2).
    apply map_eq. intros k. unfold closed. destruct (relays c2); cbn;
      (destruct (decide (k = key)) as [->|Hk];
       [by rewrite !lookup_delete_eq|rewrite !lookup_delete_ne by done; by apply Hr2]). }
  wp_step. apply wp_gets. set (count := size (backend_pool s1)).
  destruct (count =? 0)%nat; [by apply Hclose|]. wp_step.
  apply (wp_for_until (λ s' w', tables F s' w' ∧ rerouted key s s' ∧ unrouted key s')); [| |done].
  - intros attempt s2 w2 _ (Ht2 & Hr2 & Hu2).
    eapply wp_mono; [|by apply (failover_attempt_spec F)].
    intros [found|] s3 w3 (Ht3 & Hr3 & Hend).
    + destruct Hend as (-> & i & Hi & Hl & Hrt). apply wp_ret. split; [done|].
      split; [by etransitivity|]. exists i. split_and!; [done| |done]. by eapply rerouted_live.
    + split_and!; [done| |done]. by etransitivity.
  - intros s2 w2 (Ht2 & Hr2 & Hu2). by apply Hclose.
Qed.

(** ** Choosing a backend *)

(** The [j]-th backend after the next one in turn. *)
Definition in_turn (s : LoadBalancer) (j : nat) : nat :=
  ((next_backend_index s + j) mod size (backend_pool s))%nat.

Definition advanced (n : nat) (s : LoadBalancer) : LoadBalancer := s <| next_backend_index := n |>.

(** The first live backend in turn, among the next [attempts]. *)
Inductive chosen (s : LoadBalancer) (attempts : nat) : nat → LoadBalancer → Prop :=
| turn_found j :
    (j < attempts)%nat → live s (in_turn s j) → (∀ i, (i < j)%nat → ¬ live s (in_turn s i)) →
    chosen s attempts (in_turn s j) (advanced ((in_turn s j + 1) mod size (backend_pool s))%nat s)
| turn_none n :
    (∀ i, (i < attempts)%nat → ¬ live s (in_turn s i)) →
    chosen s attempts (size (backend_pool s)) (advanced n s).

Lemma in_turn_next s n j :
  n = ((next_backend_index s + 1) mod size (backend_pool s))%nat →
  in_turn (advanced n s) j = in_turn s (S j).
Proof.
  intros ->. unfold in_turn. cbn. rewrite Nat.Div0.add_mod_idemp_l. f_equal. lia.
Qed.

Lemma round_robin_spec attempts s w :
  (0 < size (backend_pool s))%nat →
  wp (round_robin attempts (size (backend_pool s))) (λ r s' w', w' = w ∧ chosen s attempts r s') s w.
Proof.
  revert s w. induction attempts as [|attempts IH]; intros s w Hc; cbn [round_robin].
  { apply wp_ret. split; [done|]. pose proof (turn_none s 0 (next_backend_index s)) as Hn.
    replace (advanced (next_backend_index s) s) with s in Hn by by destruct s. apply Hn. lia. }
  wp_step. apply wp_gets. cbv zeta. wp_step. apply wp_modify. wp_step. apply wp_gets.
  set (n := ((next_backend_index s + 1) mod size (backend_pool s))%nat). fold (advanced n s).
  assert ((next_backend_index s mod size (backend_pool s))%nat = in_turn s 0) as ->.
  { unfold in_turn. by rewrite Nat.add_0_r. }
  destruct (match _ with Some _ => _ | None => _ end) eqn:Hh.
  - apply (live_test s (in_turn s 0)) in Hh; [|done]. apply wp_ret. split; [done|].
    replace n with ((in_turn s 0 + 1) mod size (backend_pool s))%nat.
    + apply turn_found; [lia|done|lia].
    + unfold in_turn. by rewrite Nat.add_0_r, Nat.Div0.add_mod_idemp_l.
  - assert (¬ live s (in_turn s 0)) as Hdead.
    { intros Hl. apply (live_test s _ _ eq_refl) in Hl. cbn in Hh, Hl. congruence. }
    eapply wp_mono; [|by apply (IH (advanced n s))]. intros r s' w' [-> Hch]. split; [done|].
    assert (∀ i, live (advanced n s) i ↔ live s i) as Hlive by done.
    destruct Hch as [j Hj Hl Hbefore|m Hnone].
    + rewrite !in_turn_next in * by done. cbn. change (advanced ?m (advanced n s)) with (advanced m s).
      apply (turn_found s (S attempts) (S j)); [lia|by apply Hlive|].
      intros [|i] Hi; [done|]. specialize (Hbefore i ltac:(lia)). by rewrite in_turn_next in Hbefore.
    + apply (turn_none s (S attempts) m). intros [|i] Hi; [done|]. specialize (Hnone i ltac:(lia)).
      by rewrite in_turn_next in Hnone.
Qed.

Lemma tables_advanced F s w n : tables F s w → tables F (advanced n s) w.
Proof. by intros []. Qed.

Lemma rerouted_advanced key s n : rerouted key s (advanced n s).
Proof. by split. Qed.

Lemma chosen_advanced s attempts r s' : chosen s attempts r s' → ∃ n, s' = advanced n s.
Proof. intros []; by eexists. Qed.

Lemma selectRoundRobin_spec s w :
  wp selectRoundRobinBackend (λ r s' w', w' = w ∧ (∃ n, s' = advanced n s) ∧
    ((0 < size (backend_pool s))%nat → chosen s (size (backend_pool s)) r s')) s w.
Proof.
  unfold selectRoundRobinBackend. wp_step. apply wp_gets.
  destruct (Nat.eqb_spec (size (backend_pool s)) 0) as [E|E].
  - apply wp_ret. split_and!; [done| |lia]. exists (next_backend_index s). by destruct s.
  - eapply wp_mono; [|apply round_robin_spec; lia]. intros r s' w' [-> Hch].
    split_and!; [done|by eapply chosen_advanced|done].
Qed.

Lemma selectBackend_spec ip s w :
  wp (selectBackend ip) (λ r s' w', w' = w ∧ ∃ n, s' = advanced n s) s w.
Proof.
  assert (w = w ∧ ∃ n, s = advanced n s) as Hsame.
  { split; [done|]. exists (next_backend_index s). by destruct s. }
  unfold selectBackend. wp_step. apply wp_gets. wp_step; [by apply wp_ret|].
  wp_step. apply wp_gets. destruct (routing_mode s).
  - wp_step. eapply wp_mono; [|by apply selectRoundRobin_spec].
    intros r s' w' (-> & Hn & _). wp_step. apply wp_gets. by wp_step; apply wp_ret.
  - wp_step. apply wp_gets. wp_step; [by apply wp_ret|done].
Qed.

Lemma choose_index_spec attempt count initial attempted s w :
  wp (choose_index attempt count initial attempted) (λ r s' w', w' = w ∧ ∃ n, s' = advanced n s) s w.
Proof.
  assert (w = w ∧ ∃ n, s = advanced n s) as Hsame.
  { split; [done|]. exists (next_backend_index s). by destruct s. }
  unfold choose_index. wp_step. apply wp_gets. wp_step; [by apply wp_ret|].
  wp_step; [|by apply wp_gets]. wp_step. eapply wp_mono; [|by apply selectRoundRobin_spec].
  intros r s' w' (-> & Hn & _). by wp_step; apply wp_ret.
Qed.

(** ** Connecting a client *)

Lemma unrouted_advanced key n s : unrouted key s → unrouted key (advanced n s).
Proof. done. Qed.

Lemma connect_attempts_spec {FK : FreshFds K} F left attempt count initial attempted key s w :
  tables F s w → unrouted key s →
  wp (connect_attempts left attempt count initial attempted key) (λ r s' w', tables F s' w' ∧
    rerouted key s s' ∧ if r then ∃ i, live s i ∧ routed key i s' else unrouted key s') s w.
Proof.
  revert attempt attempted s w. induction left as [|left IH]; intros attempt attempted s w Ht Hu;
    cbn [connect_attempts]; [by apply wp_ret|].
  wp_step. eapply wp_mono; [|by apply choose_index_spec]. intros choice s1 w1 (-> & n & ->).
  destruct choice as [index|].
  2:{ apply wp_ret. split_and!; [by apply tables_advanced|by apply rerouted_advanced|done]. }
  cbv zeta. set (s1 := advanced n s).
  assert (∀ attempted s2 w2, tables F s2 w2 → rerouted key s s2 → unrouted key s2 →
    wp (connect_attempts left (S attempt) count initial attempted key) (λ r s' w', tables F s' w' ∧
      rerouted key s s' ∧ if r then ∃ i, live s i ∧ routed key i s' else unrouted key s') s2 w2) as Hnext.
  { intros att s2 w2 Ht2 Hr2 Hu2. eapply wp_mono; [|by apply IH]. intros r s3 w3 (Ht3 & Hr3 & Hend).
    split; [done|]. split; [by etransitivity|]. destruct r; [|done]. destruct Hend as (i & Hl & Hi).
    exists i. split; [by eapply rerouted_live|done]. }
  assert (tables F s1 w) as Ht1 by by apply tables_advanced.
  assert (rerouted key s s1) as Hr1 by apply rerouted_advanced.
  destruct (attempted !! index) as [[]|]; [by apply Hnext| |by apply Hnext].
  wp_step. apply wp_gets. destruct (match _ with Some _ => _ | None => _ end) eqn:Hh; [|by apply Hnext].
  apply (live_test s1 index) in Hh; [|done]. cbn [negb]. wp_step.
  eapply wp_mono; [|by apply (attach_spec F)]. intros r s2 w2 (Ht2 & Hr2 & Hend). destruct r.
  - apply wp_ret. split; [done|]. split; [by etransitivity|]. by exists index.
  - apply Hnext; [done|by etransitivity|done].
Qed.

Lemma connectClientToBackend_spec {FK : FreshFds K} F key s w :
  tables F s w → (∀ c, connections s !! key = Some c → backend_fd c = -1) →
  wp (connectClientToBackend key) (λ r s' w', tables F s' w' ∧ rerouted key s s' ∧
    (r = true → ∃ i, live s i ∧ routed key i s')) s w.
Proof.
  intros Ht Hu. unfold connectClientToBackend. wp_step. apply wp_gets. wp_step; [by apply wp_ret|].
  apply wp_with_connection; [done|]. intros c Hc. wp_step.
  eapply wp_mono; [|by apply selectBackend_spec]. intros choice s1 w1 (-> & n & ->).
  assert (tables F (advanced n s) w) as Ht1 by by apply tables_advanced.
  assert (rerouted key s (advanced n s)) as Hr1 by apply rerouted_advanced.
  destruct choice as [initial|]; [|by apply wp_ret]. wp_step. apply wp_gets.
  eapply wp_mono; [|apply (connect_attempts_spec F); [done|exists c; split; [done|by apply Hu]]].
  intros r s2 w2 (Ht2 & Hr2 & Hend). split; [done|]. split; [by etransitivity|].
  intros ->. exact Hend.
Qed.

(** ** Programs that keep the tables *)

Section Keeps.
Variable F : gset Z.

Definition keeps {A} (m : Prog LoadBalancer A) : Prop :=
  ∀ s w, tables F s w → wp m (λ _ s' w', tables F s' w') s w.

Lemma keeps_ret {A} (a : A) : keeps (mret a).
Proof. by intros s w Ht. Qed.

Lemma keeps_bind {A B} (m : Prog LoadBalancer A) (f : A → Prog LoadBalancer B) :
  keeps m → (∀ a, keeps (f a)) → keeps (bind m f).
Proof.
  intros Hm Hf s w Ht. apply wp_bind. eapply wp_mono; [|by apply Hm]. intros a s' w' Ht'. by apply Hf.
Qed.

Lemma keeps_gets {A} (f : LoadBalancer → A) : keeps (gets f).
Proof. by intros s w Ht. Qed.

Lemma keeps_sys (x : call) : neutral x = true → keeps (sys x).
Proof. intros Hx s w Ht. apply wp_sys. eapply tables_quiet; [done|]. by apply quiet_call. Qed.

Lemma keeps_exhausted {A} : keeps (exhausted (A := A)).
Proof. done. Qed.

Lemma keeps_on_connection key f : (∀ c, soft f c) → keeps (on_connection key f).
Proof. intros Hf s w Ht. apply wp_on_connection. by apply tables_soft. Qed.

Lemma keeps_with_connection {A} key (missing : A) body :
  (∀ c, keeps (body c)) → keeps (with_connection key missing body).
Proof. intros Hb s w Ht. apply wp_with_connection; [done|]. intros c _. by apply Hb. Qed.

Lemma keeps_closeConnection key : keeps (closeConnection key).
Proof. intros s w Ht. by apply closeConnection_tables. Qed.

Lemma keeps_modify fd events : keeps (Epoll.modify fd events).
Proof. apply keeps_bind; [by apply keeps_sys|]. intros a. apply keeps_ret. Qed.

Lemma keeps_failover {FK : FreshFds K} key c :
  ∀ s w, tables F s w → connections s !! key = Some c →
  wp (failoverConnection (client_fd c) (backend_index c)) (λ _ s' w', tables F s' w') s w.
Proof.
  intros s w Ht Hc. destruct (t_keys _ _ _ Ht _ _ Hc) as [-> _].
  eapply wp_mono; [|by apply (failoverConnection_spec F)]. by intros r s' w' [? _].
Qed.

End Keeps.

(** Proves [keeps] for the straight-line parts of a program. *)
Create HintDb keeps discriminated.
#[local] Hint Resolve keeps_ret keeps_gets keeps_exhausted keeps_closeConnection keeps_modify : keeps.
#[local] Hint Extern 1 (keeps _ (sys _)) => apply keeps_sys; reflexivity : keeps.

Ltac keeps_step :=
  lazymatch goal with
  | |- keeps _ (bind _ _) => apply keeps_bind; [|intros ?]
  | |- keeps _ (with_connection _ _ _) => apply keeps_with_connection; intros ?
  | |- keeps _ (if ?b then _ else _) => destruct b
  | |- keeps _ (match ?x with _ => _ end) => destruct x
  end.
Ltac keeps_run := repeat (cbv beta zeta; keeps_step); cbv beta; auto with keeps.

Lemma offset_set_buffer d d' b o c :
  offset d' (set_buffer d b o c) = (if bool_decide (d = d') then o else offset d' c) ∧
  buffer d' (set_buffer d b o c) = (if bool_decide (d = d') then b else buffer d' c).
Proof. by destruct d, d'. Qed.

Lemma soft_set_buffer d b o c :
  (offsets_ok c → 0 ≤ o ≤ len b) → soft (set_buffer d b o) c.
Proof.
  intros Hb. unfold soft. split_and!; [by destruct d..|]. intros Ho d'.
  destruct (offset_set_buffer d d' b o c) as [-> ->]. case_bool_decide; [by apply Hb|by apply Ho].
Qed.

(** The two statements that append received bytes. *)
Definition append_received (d : Direction) (x : bytes) (c : ConnectionPair) : ConnectionPair :=
  let c := if offset d c =? len (buffer d c) then set_buffer d [] 0 c else c in
  set_buffer d (buffer d c ++ x) (offset d c) c.

Lemma soft_compose f g c : soft g c → soft f (g c) → soft (λ c, f (g c)) c.
Proof. intros (A1 & A2 & A3 & A4 & A5) (B1 & B2 & B3 & B4 & B5). split_and!; congruence || auto. Qed.

Lemma soft_recycle d c : soft (recycle d) c.
Proof.
  unfold soft, recycle. destruct (offset d c =? len (buffer d c)); [|by split_and!].
  apply soft_set_buffer. intros _. unfold len. cbn. lia.
Qed.

Lemma soft_append_received d x c : soft (append_received d x) c.
Proof.
  change (append_received d x) with (λ c, (λ c, set_buffer d (buffer d c ++ x) (offset d c) c) (recycle d c)).
  apply (soft_compose (λ c, set_buffer d (buffer d c ++ x) (offset d c) c)); [apply soft_recycle|].
  apply soft_set_buffer. intros Ho. specialize (Ho d). rewrite len_app. pose proof (len_nonneg x). lia.
Qed.

Lemma keeps_close_owner F fd : keeps F (close_owner fd).
Proof. unfold close_owner. keeps_run. Qed.

Lemma keeps_close_reader F fd : keeps F (close_reader fd).
Proof. unfold close_reader. keeps_run. Qed.

Lemma keeps_mark_read_closed F fd : keeps F (mark_read_closed fd).
Proof. unfold mark_read_closed. keeps_run; by apply keeps_on_connection. Qed.
#[local] Hint Resolve keeps_close_owner keeps_close_reader keeps_mark_read_closed : keeps.

Lemma keeps_forwardData F fuel fd key d drain : keeps F (forwardData fuel fd key d drain).
Proof.
  induction fuel as [|fuel IH]; cbn [forwardData]; keeps_run.
  apply keeps_on_connection. intros x. apply soft_append_received.
Qed.

Lemma keeps_flushData {HK : Honest K} F fuel fd key d : keeps F (flushData fuel fd key d).
Proof.
  induction fuel as [|fuel IH]; cbn [flushData]; [apply keeps_exhausted|]. intros s w Ht.
  apply wp_with_connection; [done|]. intros c Hc. pose proof (t_offsets _ _ _ Ht _ _ Hc d) as Ho.
  cbv beta in Ho. destruct (Z.ltb_spec (offset d c) (len (buffer d c))); [|done]. wp_step. apply wp_sys.
  match goal with |- context [respond w ?x] => set (call := x) end.
  pose proof (HK w call) as Hh. cbn in Hh. set (a := respond w call) in *.
  assert (tables F s ((call, a) :: w)) as Ht1 by (eapply tables_quiet; [done|]; by apply quiet_call).
  unfold substr_from in Hh. rewrite len_drop in Hh by lia.
  wp_step; [|wp_step; [done|wp_step; [by apply IH|by apply keeps_close_owner]]].
  wp_step. apply wp_on_connection. apply IH, tables_soft; [|done]. intros c' Hc'. rewrite Hc in Hc'.
  injection Hc' as <-. apply soft_set_buffer. intros _. bool_prop. lia.
Qed.

(** ** Accepting *)

Lemma tables_release F s w a fd :
  tables ({[ fd ]} ∪ F) s w → fd ∉ F → tables F s ((sys_close fd, a) :: w).
Proof.
  intros [H1 H2 H3 H4 H5 (A1 & A2 & A3) [(B1 & B2 & B3) B4 B5] H8] Hfd. unfold held in *.
  split; try done; [clear - A1 A2 A3; set_solver|]. split; [|done|done]. unfold held.
  split; [clear - B1; set_solver|]. split; [|done].
  match goal with |- holds_fds ?G _ => replace G with
    (({[fd]} ∪ F ∪ dom (connections s) ∪ dom (routes s) ∪ dom (HealthChecker.checks (checker_of s)))
       ∖ {[fd]}) end.
  - apply holds_close; [clear; set_solver|done].
  - generalize dependent (dom (connections s)). generalize dependent (dom (routes s)).
    generalize dependent (dom (HealthChecker.checks (checker_of s))). clear - Hfd. intros.
    set_unfold. intros x. destruct (decide (x = fd)); naive_solver.
Qed.

Lemma accept_client_spec F s w fd address :
  tables ({[ fd ]} ∪ F) s w → fd ∉ F →
  wp (accept_client fd address) (λ _ s' w', tables F s' w') s w.
Proof.
  intros Ht Hfd. unfold accept_client, Socket.setNoDelay. wp_step. wp_step. apply wp_sys, wp_ret.
  match goal with |- wp _ _ _ ?w' => assert (tables ({[fd]} ∪ F) s w') as Ht1
    by (eapply tables_quiet; [done|]; by apply quiet_call) end.
  wp_step. apply wp_gets. destruct (Nat.leb_spec MAX_CONNECTIONS (base.size (connections s))) as [Hfull|Hfull].
  { wp_step. apply wp_sys, wp_ret. by apply tables_release. }
  cbv zeta. set (c := set_with _ _). wp_step. apply wp_modify.
  assert (connections s !! fd = None) as Hnone.
  { apply not_elem_of_dom. destruct (t_apart _ _ _ Ht) as (A & _). clear - A. set_solver. }
  rewrite Hnone. unfold Epoll.add. wp_step. wp_step. apply wp_sys, wp_ret.
  match goal with |- wp _ _ _ ?w' => assert (tables ({[fd]} ∪ F) s w') as Ht2
    by (eapply tables_quiet; [done|]; by apply quiet_call) end.
  wp_step.
  - wp_step. apply wp_modify. wp_step. apply wp_sys, wp_ret. cbn. rewrite delete_insert_id by done.
    match goal with |- tables _ _ ?w' => assert (tables F s w') as H by by apply tables_release end.
    by destruct s.
  - apply wp_ret. apply tables_insert; [done..| |done]. intros d. subst c. by destruct d.
Qed.

Lemma keeps_handleAccept {FK : FreshFds K} F fuel : keeps F (handleAccept fuel).
Proof.
  induction fuel as [|fuel IH]; cbn [handleAccept]; [apply keeps_exhausted|]. intros s w Ht.
  wp_step. apply wp_gets. wp_step. apply wp_sys. set (a := respond _ _).
  pose proof (tables_holds _ _ _ Ht) as Hw. destruct (Z.eqb_spec (ret a) (-1)) as [E|E].
  - assert (tables F s ((sys_accept (listen_socket s), a) :: w)) as Ht1.
    { eapply tables_history; [done|]. apply holds_open_failed; [|done..].
      unfold opened. cbn. by rewrite E. }
    wp_step; [done|]. wp_step; [by apply IH|done].
  - assert (opened (sys_accept (listen_socket s), a) = Some (ret a)) as Ho.
    { unfold opened. cbn. by rewrite (proj2 (Z.eqb_neq _ _)). }
    pose proof (FK w _ _ Ho) as [_ Hfresh]. rewrite (proj1 Hw) in Hfresh.
    wp_step. eapply wp_mono; [|apply (accept_client_spec F)].
    + intros [] s' w' Ht'. by apply IH.
    + eapply tables_adopt; [done..|]. by apply holds_open.
    + unfold held in Hfresh. clear - Hfresh. set_solver.
Qed.

(** ** One event *)

Lemma keeps_watch F fd events current store : keeps F store → keeps F (watch fd events current store).
Proof. intros Hs. unfold watch. keeps_run. Qed.

Lemma keeps_set_client_events F key events : keeps F (set_client_events key events).
Proof. by apply keeps_on_connection. Qed.

Lemma keeps_set_backend_events F key events : keeps F (set_backend_events key events).
Proof. by apply keeps_on_connection. Qed.
#[local] Hint Resolve keeps_forwardData keeps_flushData keeps_watch keeps_set_client_events
  keeps_set_backend_events : keeps.

Lemma keeps_updateWriteInterest F fd enabled : keeps F (updateWriteInterest fd enabled).
Proof. unfold updateWriteInterest. keeps_run. Qed.

Lemma keeps_serve_metrics F key c : keeps F (serve_metrics key c).
Proof.
  unfold serve_metrics. keeps_run. apply keeps_on_connection. intros x. unfold soft. split_and!; [done..|].
  intros Ho []; [exact (Ho ToBackend)|]. cbn. split; [lia|apply len_nonneg].
Qed.

(** Between its guard and the connection attempt, [classify] only peeks. *)
Lemma classify_spec {FK : FreshFds K} F key current s w :
  tables F s w → connections s !! key = Some current → backend_fd current = -1 →
  wp (classify key current) (λ _ s' w', tables F s' w') s w.
Proof.
  intros Ht Hc Hb. unfold classify. cbv zeta. set (relay := with_connection key false _).
  assert (∀ c w', tables F (s <| connections := <[key := c]> (connections s) |>) w' →
    backend_fd c = -1 →
    wp relay (λ _ s' w', tables F s' w') (s <| connections := <[key := c]> (connections s) |>) w') as Hrelay.
  { intros c w' Ht' Hbc. apply wp_with_connection; [done|]. intros c0 Hc0.
    destruct (t_keys _ _ _ Ht' _ _ Hc0) as [-> _].
    cbn in Hc0. rewrite lookup_insert_eq in Hc0. injection Hc0 as <-. wp_step; [done|].
    wp_step. eapply wp_mono; [|apply (connectClientToBackend_spec F); [done|]].
    - intros r s2 w2 (Ht2 & _). wp_step; [done|]. wp_step. eapply wp_mono; [|by apply closeConnection_tables].
      by intros [] s3 w3 Ht3.
    - intros c' Hc'. cbn in Hc'. rewrite lookup_insert_eq in Hc'. by injection Hc' as <-. }
  assert (∀ w', tables F s w' → wp relay (λ _ s' w', tables F s' w') s w') as Hsame.
  { intros w' Ht'. specialize (Hrelay current w'). rewrite insert_id in Hrelay by done.
    replace (s <| connections := connections s |>) with s in Hrelay by by destruct s.
    by apply Hrelay. }
  wp_step. apply wp_sys. set (a := respond _ _).
  match goal with |- wp _ _ _ ?w' => assert (tables F s w') as Ht1
    by (eapply tables_quiet; [done|]; by apply quiet_call) end.
  wp_step; [|wp_step].
  - wp_step; [done|]. wp_step. wp_step; [|by apply Hsame].
    apply wp_on_connection. rewrite (alter_as_insert _ _ key current) by done. apply Hrelay; [|done].
    rewrite <- (alter_as_insert _ (connections s) key current) by done.
    by apply tables_soft.
  - wp_step. eapply wp_mono; [|by apply closeConnection_tables]. by intros [] s' w' Ht'.
  - by apply Hsame.
Qed.

Lemma keeps_client_readable {FK : FreshFds K} F fuel key current s w :
  tables F s w → connections s !! key = Some current →
  wp (client_readable fuel key current) (λ _ s' w', tables F s' w') s w.
Proof.
  intros Ht Hc. unfold client_readable. wp_step.
  assert (∀ go : bool, keeps F (if negb go then mret false
    else with_connection key false (λ current, if metrics_connection current
      then serve_metrics key current ;; mret false
      else forwardData fuel (client_fd current) key ToBackend false))) as Hrest.
  { intros go. keeps_run. apply keeps_serve_metrics. }
  wp_step.
  - apply andb_true_iff in Heqb as [_ Hb]. apply Z.eqb_eq in Hb.
    eapply wp_mono; [|by apply (classify_spec F)]. intros go s' w' Ht'. by apply Hrest.
  - apply wp_ret. by apply Hrest.
Qed.

Lemma keeps_read_event {FK : FreshFds K} F fuel key flags b : keeps F (read_event fuel key flags b).
Proof.
  intros s w Ht. apply wp_with_connection; [done|]. intros c Hc. wp_step; [|done].
  wp_step; [by apply keeps_forwardData|]. by apply keeps_client_readable.
Qed.

Lemma keeps_drain_event F fuel key flags b : keeps F (drain_event fuel key flags b).
Proof. unfold drain_event. keeps_run. Qed.

Lemma keeps_connect_event {FK : FreshFds K} F key flags b : keeps F (connect_event key flags b).
Proof.
  intros s w Ht. apply wp_with_connection; [done|]. intros c Hc. wp_step; [|done].
  wp_step. apply wp_sys. match goal with |- wp _ _ _ ?w' => assert (tables F s w') as Ht1
    by (eapply tables_quiet; [done|]; by apply quiet_call) end.
  wp_step.
  - wp_step. eapply wp_mono; [|by apply (keeps_failover F key c)]. by intros r s' w' Ht'.
  - wp_step. apply wp_on_connection, wp_ret. by apply tables_soft.
Qed.

Lemma keeps_write_event {HK : Honest K} F fuel key : keeps F (write_event fuel key).
Proof. unfold write_event. keeps_run. Qed.

Lemma keeps_shutdown_event F key c : keeps F (shutdown_event key c).
Proof. unfold shutdown_event. keeps_run; by apply keeps_on_connection. Qed.

Lemma keeps_after_event F key : keeps F (after_event key).
Proof.
  unfold after_event. apply keeps_with_connection. intros _. apply keeps_bind.
  { apply keeps_on_connection. intros c. apply (soft_compose (recycle ToClient)); apply soft_recycle. }
  intros _. pose proof (keeps_shutdown_event F key). keeps_run.
Qed.

Lemma keeps_relay_event {FK : FreshFds K} {HK : Honest K} F fuel fd flags :
  keeps F (relay_event fuel fd flags).
Proof.
  intros s w Ht. unfold relay_event. wp_step. apply wp_gets. cbv zeta.
  set (is_backend_fd := match routes s !! fd with Some _ => true | None => false end).
  set (key := match routes s !! fd with Some key => key | None => fd end).
  apply wp_with_connection; [done|]. intros c Hc.
  assert (wp (if is_backend_fd && backend_connecting c
    then failoverConnection (client_fd c) (backend_index c) ;; mret ()
    else closeConnection (client_fd c)) (λ _ s' w', tables F s' w') s w) as Habandon.
  { wp_step; [|by apply closeConnection_tables]. wp_step.
    eapply wp_mono; [|by apply (keeps_failover F key c)]. by intros r s' w' Ht'. }
  wp_step; [exact Habandon|]. wp_step; [exact Habandon|]. clearbody is_backend_fd key.
  clear c Hc Habandon. revert s w Ht.
  pose proof (keeps_read_event F fuel key flags is_backend_fd).
  pose proof (keeps_drain_event F fuel key flags is_backend_fd).
  pose proof (keeps_connect_event F key flags is_backend_fd).
  pose proof (keeps_write_event F fuel key). pose proof (keeps_after_event F key).
  match goal with |- ∀ s w, tables F s w → wp ?m _ s w => change (keeps F m) end. keeps_run.
Qed.

(** ** The health checker inside the balancer *)

Lemma fmap_counts_length (p q : BackendPool) :
  connection_count <$> p = connection_count <$> q → size p = size q.
Proof. intros E. apply (f_equal length) in E. by rewrite !length_fmap in E. Qed.

Lemma tables_checker F s w h' w' :
  tables F s w → inv (held F s) (connection_count <$> backend_pool s) h' w' →
  tables F (with_checker h' s) w'.
Proof.
  intros [H1 H2 H3 H4 H5 H6 H7 H8] Hi. pose proof Hi as [_ [_ HL] _].
  pose proof (fmap_counts_length _ _ HL) as HS.
  split; cbn; try done.
  - intros k c Hc Hr. eapply Nat.lt_le_trans; [by eapply H3|]. by apply Nat.eq_le_incl.
  - intros i b Hb. apply (f_equal (.!! i)) in HL. rewrite !list_lookup_fmap, Hb in HL.
    destruct (backend_pool s !! i) as [b0|] eqn:E; [|done]. cbn in HL. injection HL as ->. by apply H4.
  - rewrite HL. by destruct h'.
Qed.

Lemma keeps_checker {A} F (m : Prog HealthChecker.HealthChecker A) :
  (∀ G L h w, inv G L h w → wp m (λ _ h' w', inv G L h' w') h w) → keeps F (checker m).
Proof.
  intros Hm s w Ht. apply wp_zoom. eapply wp_mono; [|apply Hm, (t_checker _ _ _ Ht)].
  intros a h' w' Hi. by eapply tables_checker.
Qed.

Lemma keeps_start {FK : FreshFds K} F : keeps F (checker HealthChecker.start).
Proof.
  apply keeps_checker. intros G L h w Hi. eapply wp_mono; [|by apply (start_spec G L)].
  by intros a h' w' [? _].
Qed.

Lemma keeps_health_event F fuel fd events : keeps F (handleHealthEvent fuel fd events).
Proof. apply keeps_checker. intros G L h w Hi. by apply handleEvent_inv. Qed.

Lemma keeps_expire F : keeps F (checker HealthChecker.expire).
Proof. apply keeps_checker. intros G L h w Hi. by apply expire_inv. Qed.

Lemma keeps_nextTimeout F : keeps F (checker HealthChecker.nextTimeoutMs).
Proof.
  apply keeps_checker. intros G L h w Hi. unfold HealthChecker.nextTimeoutMs. wp_step. apply wp_gets.
  destruct (traverse _) as [|[k c] l]; [by apply wp_ret|]. wp_step. apply wp_now. cbv zeta.
  assert (∀ w', quiet w w' → inv G L h w') as Hq by (intros w' ?; by eapply inv_quiet).
  wp_step; apply wp_ret, Hq; by apply quiet_call.
Qed.

Lemma keeps_handles F fd : keeps F (checker (HealthChecker.handles fd)).
Proof. apply keeps_checker. by intros G L h w Hi. Qed.

Lemma keeps_consume F : keeps F (timer TimerFd.consume).
Proof.
  intros s w Ht. apply wp_zoom. unfold TimerFd.consume. wp_step. apply wp_gets. wp_step.
  - apply wp_ret. by destruct Ht.
  - wp_step. apply wp_sys, wp_ret. assert (tables F s w) as Ht' by done.
    match goal with |- tables _ _ ?w' => assert (tables F s w') as H
      by (eapply tables_quiet; [done|]; by apply quiet_call) end. by destruct H.
Qed.

Lemma keeps_handle_event {FK : FreshFds K} {HK : Honest K} F fuel e : keeps F (handle_event fuel e).
Proof.
  destruct e as [fd flags]. unfold handle_event, handleHealthCheck.
  pose proof (keeps_handleAccept F fuel). pose proof (keeps_start F). pose proof (keeps_handles F fd).
  pose proof (keeps_health_event F fuel fd flags). pose proof (keeps_relay_event F fuel fd flags).
  pose proof (keeps_consume F). keeps_run.
Qed.

Lemma keeps_for_each {X} F (l : list X) body : (∀ x, keeps F (body x)) → keeps F (for_each l body).
Proof. intros Hb s w Ht. apply wp_for_each; [|done]. intros x s' w' _ Ht'. by apply Hb. Qed.

Lemma keeps_turn {FK : FreshFds K} {HK : Honest K} F fuel : keeps F (turn fuel).
Proof.
  unfold turn, Epoll.wait. pose proof (keeps_expire F). pose proof (keeps_nextTimeout F).
  keeps_run. apply keeps_for_each. intros e. apply keeps_handle_event.
Qed.

Lemma keeps_shutting_down F : keeps F shutting_down.
Proof.
  unfold shutting_down. apply keeps_bind; [auto with keeps|]. intros a.
  apply keeps_bind; [|auto with keeps]. intros s w Ht. apply wp_modify.
  assert (∀ s, tables F s w → tables F (fold_left handleSignal (map fst (ready a)) s) w) as H; [|by apply H].
  induction (map fst (ready a)) as [|n l IH]; intros s0 Ht0; cbn; [done|]. apply IH.
  unfold handleSignal. destruct (_ || _); [|done]. by destruct Ht0.
Qed.

Lemma keeps_loop {FK : FreshFds K} {HK : Honest K} F turns fuel : keeps F (loop turns fuel).
Proof.
  induction turns as [|turns IH]; cbn [loop]; [apply keeps_exhausted|].
  pose proof (keeps_shutting_down F). pose proof (keeps_turn F fuel). keeps_run.
Qed.

End Tables.
