(* ===== verification/BalancerTraffic.v ===== *)
(** * The traffic of the load balancer

    What [forwardData] and [flushData] do to the bytes of a connection: every
    buffer is a queue, filled by [recv] and emptied by [send]. *)

From S2P Require Import Prelude Numerals Sys Epoll Socket TimerFd Backends Ring Counts Health LbText Balancer BalancerInv.
Import Backend BackendPool LoadBalancer.

(** ** Bytes in a history *)

Fixpoint recv_bytes (fd : Z) (w : history) : bytes :=
  match w with
  | [] => []
  | (c, a) :: w' =>
      recv_bytes fd w' ++
      match c with
      | sys_recv fd' _ false => if fd' =? fd then take (Z.to_nat (ret a)) (data a) else []
      | _ => []
      end
  end.

Fixpoint sent_bytes (fd : Z) (w : history) : bytes :=
  match w with
  | [] => []
  | (c, a) :: w' =>
      sent_bytes fd w' ++
      match c with
      | sys_send fd' x => if fd' =? fd then take (Z.to_nat (ret a)) x else []
      | _ => []
      end
  end.

Lemma recv_bytes_app fd l w : recv_bytes fd (l ++ w) = recv_bytes fd w ++ recv_bytes fd l.
Proof.
  induction l as [|[c a] l IH]; cbn; [by rewrite app_nil_r|]. by rewrite IH, app_assoc.
Qed.

Lemma sent_bytes_app fd l w : sent_bytes fd (l ++ w) = sent_bytes fd w ++ sent_bytes fd l.
Proof.
  induction l as [|[c a] l IH]; cbn; [by rewrite app_nil_r|]. by rewrite IH, app_assoc.
Qed.

(** What has been received and not yet sent on. *)
Definition pending (d : Direction) (c : ConnectionPair) : bytes := substr_from (buffer d c) (offset d c).

(** The descriptor the bytes of a direction come from, and the one they go to. *)
Definition source (d : Direction) (c : ConnectionPair) : Z :=
  match d with ToBackend => client_fd c | ToClient => backend_fd c end.

Definition destination (d : Direction) (c : ConnectionPair) : Z :=
  match d with ToBackend => backend_fd c | ToClient => client_fd c end.

Definition source_ended (d : Direction) (c : ConnectionPair) : ConnectionPair :=
  match d with
  | ToBackend => c <| client_read_closed := true |>
  | ToClient => c <| backend_read_closed := true |>
  end.

(** All of a connection but the queue of one direction. *)
Definition apart_from (d : Direction) (c : ConnectionPair) : ConnectionPair := set_buffer d [] 0 c.

Section Traffic.
Context {K : Kernel} {TC : Traversal HealthChecker.Check} {TP : Traversal ConnectionPair}.
Implicit Types (s : LoadBalancer) (w l : history) (c : ConnectionPair) (F : gset Z).

Definition put (c : ConnectionPair) s : LoadBalancer :=
  s <| connections := <[client_fd c := c]> (connections s) |>.

(** A failed call, or one that would overfill the queue. *)
Definition gave_up (d : Direction) c (l : history) : Prop :=
  MAX_BUFFER_SIZE < len (pending d c) + len (recv_bytes (source d c) l) ∨
  ∃ x a l', l = (x, a) :: l' ∧ ret a < 0 ∧ errno a ≠ EINTR ∧ errno a ≠ EAGAIN.

(** The two ends of [forwardData], with the calls [l] it has made. *)
Inductive forwarded (d : Direction) s w c : bool → LoadBalancer → history → Prop :=
| forward_kept x a l c' :
    pending d c' = pending d c ++ recv_bytes (source d c) ((x, a) :: l) →
    len (pending d c') ≤ Z.max (len (pending d c)) MAX_BUFFER_SIZE →
    0 ≤ offset d c' ≤ len (buffer d c') →
    apart_from d c' = apart_from d (if ret a =? 0 then source_ended d c else c) →
    forwarded d s w c true (put c' s) ((x, a) :: l ++ w)
| forward_dropped l closing :
    gave_up d c l → forwarded d s w c false (closed (client_fd c) c s) (closing ++ l ++ w).

(** The two ends of [flushData]. *)
Inductive flushed (d : Direction) s w c : LoadBalancer → history → Prop :=
| flush_kept l o :
    pending d c = sent_bytes (destination d c) l ++ pending d (set_buffer d (buffer d c) o c) →
    offset d c ≤ o ≤ len (buffer d c) →
    (o = len (buffer d c) ∨ ∃ x a l', l = (x, a) :: l' ∧ ret a = -1 ∧ errno a = EAGAIN) →
    flushed d s w c (put (set_buffer d (buffer d c) o c) s) (l ++ w)
| flush_dropped x a l closing :
    ret a ≤ 0 → (ret a = -1 → errno a ≠ EINTR ∧ errno a ≠ EAGAIN) →
    flushed d s w c (closed (client_fd c) c s) (closing ++ (x, a) :: l ++ w).

(** ** Closing, as an equation *)

Lemma closeConnection_eq F s w c key :
  tables F s w → connections s !! key = Some c →
  ∃ l, closeConnection key s w = Some ((), closed key c s, l ++ w).
Proof.
  intros Ht Hc. pose proof (closeConnection_wp F s w key Ht) as Hwp. unfold wp in Hwp.
  assert (∃ s' l, closeConnection key s w = Some ((), s', l ++ w)) as (s' & l & E).
  { unfold closeConnection, with_connection, find_connection. unfold bind at 1, gets at 1. rewrite Hc.
    destruct (t_keys _ _ _ Ht _ _ Hc) as [_ Hcl]. rewrite Hcl.
    unfold Epoll.remove, on_connection, modify, sys, bind. destruct (negb (backend_fd c =? -1)).
    - cbn -[on_backend]. rewrite backend_update_eq. cbn.
      eexists _, [_; _; _; _]. done.
    - eexists _, [_; _]. done. }
  exists l. rewrite E in *. destruct Hwp as (_ & _ & Heq). by rewrite (Heq c Hc).
Qed.

Lemma closed_put key c c' s :
  client_fd c' = key → backend_fd c' = backend_fd c → backend_index c' = backend_index c →
  closed key c' (put c' s) = closed key c s.
Proof.
  intros Hk Hb Hi. unfold closed, relays, put. rewrite Hb, Hi, Hk. destruct (negb _); cbn.
  - by rewrite delete_insert_eq.
  - by rewrite delete_insert_eq.
Qed.

(** ** Closing by descriptor *)

Definition owns (fd : Z) c : Prop := fd = client_fd c ∨ relays c = true ∧ fd = backend_fd c.

Lemma owner_route F s w c key fd :
  tables F s w → connections s !! key = Some c → owns fd c →
  routes s !! fd = Some key ∨ routes s !! fd = None ∧ fd = key.
Proof.
  intros Ht Hc [->|[Hr ->]].
  - right. destruct (t_keys _ _ _ Ht _ _ Hc) as [-> _]. split; [|done]. apply not_elem_of_dom.
    destruct (t_apart _ _ _ Ht) as (_ & _ & A). apply elem_of_dom_2 in Hc. clear - A Hc. set_solver.
  - left. by eapply routes_of.
Qed.

Lemma close_owner_eq F s w c key fd :
  tables F s w → connections s !! key = Some c → owns fd c →
  ∃ l, close_owner fd s w = Some ((), closed key c s, l ++ w).
Proof.
  intros Ht Hc Ho. unfold close_owner, bind at 1, gets.
  destruct (owner_route _ _ _ _ _ _ Ht Hc Ho) as [->|[-> ->]]; by eapply closeConnection_eq.
Qed.

Lemma close_reader_eq F s w c key fd :
  tables F s w → connections s !! key = Some c → owns fd c →
  ∃ l, close_reader fd s w = Some ((), closed key c s, l ++ w).
Proof.
  intros Ht Hc Ho. unfold close_reader, bind at 1, gets.
  destruct (owner_route _ _ _ _ _ _ Ht Hc Ho) as [->|[-> ->]]; [|by eapply closeConnection_eq].
  unfold with_connection, find_connection, bind at 1, gets. rewrite Hc.
  destruct (t_keys _ _ _ Ht _ _ Hc) as [-> _]. by eapply closeConnection_eq.
Qed.

(** ** The queue *)

Lemma pending_len d c : offsets_ok c → len (pending d c) = len (buffer d c) - offset d c.
Proof. intros Ho. unfold pending, substr_from. apply len_drop, Ho. Qed.

Lemma pending_append d x c : offsets_ok c → pending d (append_received d x c) = pending d c ++ x.
Proof.
  intros Ho. specialize (Ho d). unfold pending, append_received, substr_from.
  destruct (Z.eqb_spec (offset d c) (len (buffer d c))) as [E|E].
  - rewrite E, len_to_nat, drop_all. by destruct d.
  - destruct (offset_set_buffer d d (buffer d c ++ x) (offset d c) c) as [-> ->].
    rewrite bool_decide_true by done. apply drop_app_le. len_lia.
Qed.

Lemma apart_append d x c : apart_from d (append_received d x c) = apart_from d c.
Proof. unfold append_received, apart_from. by destruct (_ =? _), d. Qed.

Lemma apart_ended d c c' : apart_from d c' = apart_from d c →
  apart_from d (source_ended d c') = apart_from d (source_ended d c).
Proof.
  intros E. assert (∀ c, apart_from d (source_ended d c) = source_ended d (apart_from d c)) as H
    by by destruct d. by rewrite !H, E.
Qed.

Lemma apart_identity d c c' : apart_from d c' = apart_from d c →
  client_fd c' = client_fd c ∧ backend_fd c' = backend_fd c ∧ backend_index c' = backend_index c ∧
  source d c' = source d c ∧ closing c' = closing c.
Proof.
  intros E. assert (∀ c, client_fd (apart_from d c) = client_fd c ∧ backend_fd (apart_from d c) = backend_fd c
    ∧ backend_index (apart_from d c) = backend_index c ∧ source d (apart_from d c) = source d c
    ∧ closing (apart_from d c) = closing c) as H by by destruct d.
  destruct (H c) as (<- & <- & <- & <- & <-). destruct (H c') as (<- & <- & <- & <- & <-). by rewrite E.
Qed.

Lemma put_twice c c' s : client_fd c' = client_fd c → put c' (put c s) = put c' s.
Proof. intros E. unfold put. rewrite E. cbn. unfold set_with. cbn. by rewrite insert_insert_eq. Qed.

Lemma on_connection_eq key f s w c :
  connections s !! key = Some c → client_fd (f c) = key →
  on_connection key f s w = Some ((), put (f c) s, w).
Proof. intros Hc E. unfold on_connection, modify, put. by rewrite E, (alter_as_insert _ _ _ c). Qed.

Lemma put_self s c : connections s !! client_fd c = Some c → put c s = s.
Proof. intros Hc. unfold put. rewrite insert_id by done. by destruct s. Qed.

Lemma ended_identity d (b : bool) c c' :
  apart_from d c' = apart_from d (if b then source_ended d c else c) →
  client_fd c' = client_fd c ∧ backend_fd c' = backend_fd c ∧ backend_index c' = backend_index c.
Proof. intros (-> & -> & -> & _)%apart_identity. by destruct b, d. Qed.

(** One more call before the rest of the loop. *)
Lemma forwarded_step d s w c c1 e r s' w' :
  pending d c1 = pending d c ++ recv_bytes (source d c) [e] →
  len (pending d c1) ≤ Z.max (len (pending d c)) MAX_BUFFER_SIZE →
  apart_from d c1 = apart_from d c →
  forwarded d (put c1 s) (e :: w) c1 r s' w' → forwarded d s w c r s' w'.
Proof.
  intros Hp Hlen Ha Hf. destruct (apart_identity _ _ _ Ha) as (I1 & I2 & I3 & I4 & _).
  assert (∀ l, pending d c1 ++ recv_bytes (source d c1) l = pending d c ++ recv_bytes (source d c) (l ++ [e])) as Hl.
  { intros l. by rewrite Hp, I4, recv_bytes_app, app_assoc. }
  assert (∀ l, (l ++ [e]) ++ w = l ++ e :: w) as Hw by (intros l; by rewrite <- app_assoc).
  destruct Hf as [x a l c' Hp' Hlen' Ho' Ha'|l closing Hg].
  - destruct (ended_identity _ _ _ _ Ha') as (J1 & _).
    rewrite put_twice by done. rewrite <- (Hw l). apply forward_kept; [by rewrite Hp', Hl|lia|done|].
    rewrite Ha'. destruct (ret a =? 0); [by apply apart_ended|done].
  - rewrite I1, (closed_put _ c c1) by done. rewrite <- (Hw l). apply forward_dropped.
    destruct Hg as [Hg|(x & a & l' & -> & H1 & H2 & H3)]; [left|right; by exists x, a, (l' ++ [e])].
    pose proof (f_equal len (Hl l)) as El. rewrite !len_app in El. lia.
Qed.

Lemma recv_failed fd x a : ret a ≤ 0 → recv_bytes fd [(x, a)] = [].
Proof.
  intros Hr. cbn. destruct x; try done. destruct peek; [done|]. destruct (_ =? _); [|done].
  by rewrite Z2Nat.nonpos.
Qed.

Lemma forwarded_none d s w c x a :
  connections s !! client_fd c = Some c → offsets_ok c → ret a < 0 →
  forwarded d s w c true s ((x, a) :: w).
Proof.
  intros Hc Ho Hr. pose proof (forward_kept d s w c x a [] c) as H. rewrite put_self in H by done.
  apply H; [by rewrite (recv_failed _ x a), app_nil_r by lia|lia|done|].
  by rewrite (proj2 (Z.eqb_neq _ _)) by lia.
Qed.

(** Fuel for [forwardData]: every byte the queue has room for takes a turn, and
    between two of them the kernel may interrupt up to [n] calls. *)
Definition room (d : Direction) c : nat := Z.to_nat (MAX_BUFFER_SIZE - len (pending d c)).

Definition forward_fuel (n : nat) (d : Direction) c : nat := S (room d c * (n + 1) + n).

Lemma mark_read_closed_eq F s w d c :
  tables F s w → connections s !! client_fd c = Some c → owns (source d c) c →
  (d = ToClient → relays c = true) →
  mark_read_closed (source d c) s w = Some ((), put (source_ended d c) s, w).
Proof.
  intros Ht Hc Ho Hd. unfold mark_read_closed, bind at 1, gets. destruct d; cbn [source].
  - pose proof (elem_of_dom_2 _ _ _ Hc). destruct (t_apart _ _ _ Ht) as (_ & _ & A).
    assert (routes s !! client_fd c = None) as ->.
    { apply not_elem_of_dom. clear - A H. set_solver. }
    by apply on_connection_eq.
  - rewrite (routes_of F s w _ c Ht Hc) by by apply Hd. by apply on_connection_eq.
Qed.

Lemma forwardData_loop F n {P : Patient K n} {HK : Honest K} d drain fuel s w c :
  tables F s w → connections s !! client_fd c = Some c → (d = ToClient → relays c = true) →
  len (pending d c) < U64 → (room d c * (n + 1) + budget n w < fuel)%nat →
  ∃ r s' w', forwardData fuel (source d c) (client_fd c) d drain s w = Some (r, s', w') ∧
    forwarded d s w c r s' w'.
Proof.
  revert s w c. induction fuel as [|fuel IH]; intros s w c Ht Hc Hd HU Hf; [by apply Nat.nlt_0_r in Hf|].
  pose proof (t_offsets _ _ _ Ht _ _ Hc) as Ho. cbv beta in Ho.
  assert (owns (source d c) c) as Hown by (destruct d; [by left|right; by split; [apply Hd|]]).
  cbn [forwardData]. unfold with_connection, find_connection, bind at 1, gets at 1. rewrite Hc.
  unfold sub64. rewrite <- (pending_len d c Ho), Z.mod_small by (pose proof (len_nonneg (pending d c)); lia).
  unfold bind at 1, sys at 1. set (x := sys_recv _ _ _). pose proof (HK w x) as (Hlow & _ & Hdata).
  set (a := respond w x) in *.
  assert (tables F s ((x, a) :: w)) as Ht1 by (eapply tables_quiet; [done|]; by apply quiet_call).
  set (y := take (Z.to_nat (ret a)) (data a)).
  assert (recv_bytes (source d c) [(x, a)] = y) as Hy by (cbn; by rewrite Z.eqb_refl).
  rewrite !Z.gtb_ltb. destruct (Z.ltb_spec 0 (ret a)) as [Hr|Hr].
  - assert (len y = ret a) as Hly by (subst y; specialize (Hdata Hr); apply len_take; lia).
    destruct (Z.ltb_spec MAX_BUFFER_SIZE (len (pending d c) + ret a)) as [Hmax|Hmax].
    { destruct (close_owner_eq F s ((x, a) :: w) c _ _ Ht1 Hc Hown) as [l E].
      unfold bind. rewrite E. eexists _, _, _. split; [done|].
      apply (forward_dropped d s w c [(x, a)]). left. rewrite Hy. lia. }
    set (c1 := append_received d y c).
    assert (pending d c1 = pending d c ++ y) as Hp1 by by apply pending_append.
    assert (apart_from d c1 = apart_from d c) as Ha1 by by apply apart_append.
    destruct (apart_identity _ _ _ Ha1) as (I1 & I2 & I3 & I4 & _).
    unfold bind at 1. fold y. change (on_connection _ _) with (on_connection (client_fd c) (append_received d y)).
    rewrite (on_connection_eq _ (append_received d y) s _ c) by done. fold c1.
    assert (len (pending d c1) = len (pending d c) + ret a) as Hl1 by (rewrite Hp1, len_app; lia).
    destruct drain; cbn [negb].
    + destruct (IH (put c1 s) ((x, a) :: w) c1) as (r & s' & w' & E & Hfw).
      * unfold put. rewrite I1, <- (alter_as_insert (append_received d y) _ _ c) by done.
        apply tables_soft; [|done]. intros c0 _. apply soft_append_received.
      * unfold put. cbn. by rewrite lookup_insert_eq.
      * unfold relays. by rewrite I2.
      * assert (MAX_BUFFER_SIZE < U64) by done. lia.
      * pose proof (budget_le n ((x, a) :: w)). unfold room in *. rewrite Hl1.
        assert (Z.to_nat (MAX_BUFFER_SIZE - (len (pending d c) + ret a)) <
          Z.to_nat (MAX_BUFFER_SIZE - len (pending d c)))%nat by lia. nia.
      * rewrite I1, I4 in E. exists r, s', w'. split; [done|].
        apply (forwarded_step d s w c c1 (x, a)); [exact (eq_trans Hp1 (f_equal (app _) (eq_sym Hy)))|lia|done|done].
    + eexists _, _, _. split; [done|]. apply (forward_kept d s w c x a []).
      * exact (eq_trans Hp1 (f_equal (app _) (eq_sym Hy))).
      * change (len (pending d c1) ≤ Z.max (len (pending d c)) MAX_BUFFER_SIZE). lia.
      * apply soft_append_received, Ho.
      * by rewrite (proj2 (Z.eqb_neq _ _)) by lia.
  - destruct (Z.eqb_spec (ret a) 0) as [E0|E0].
    { unfold bind. rewrite (mark_read_closed_eq F) by done. eexists _, _, _. split; [done|].
      apply (forward_kept d s w c x a []).
      * rewrite (recv_failed _ x a), app_nil_r by lia. by destruct d.
      * assert (pending d (source_ended d c) = pending d c) as -> by by destruct d. lia.
      * pose proof (Ho d). by destruct d.
      * by rewrite E0. }
    assert (ret a < 0) as Hneg by lia.
    destruct (Z.eqb_spec (errno a) EINTR) as [E1|E1].
    { destruct drain; [|by eexists _, _, _; split; [done|by apply forwarded_none]].
      destruct (IH s ((x, a) :: w) c) as (r & s' & w' & E & Hfw); try done.
      - eapply Nat.lt_le_trans; [|apply Nat.lt_succ_r, Hf]. apply Nat.add_lt_mono_l.
        apply budget_interrupted; [done|]. fold a. unfold interrupted. apply andb_true_iff.
        split; apply Z.eqb_eq; [lia|done].
      - exists r, s', w'. split; [done|].
        apply (forwarded_step d s w c c (x, a)); [by rewrite (recv_failed _ x a), app_nil_r by lia|lia|done|].
        by rewrite put_self. }
    destruct (Z.eqb_spec (errno a) EAGAIN) as [E2|E2]; cbn [orb].
    { eexists _, _, _. split; [done|by apply forwarded_none]. }
    destruct (Z.eqb_spec (errno a) EWOULDBLOCK) as [E3|E3]; [done|].
    destruct (close_reader_eq F s ((x, a) :: w) c _ _ Ht1 Hc Hown) as [l E].
    unfold bind. rewrite E. eexists _, _, _. split; [done|].
    apply (forward_dropped d s w c [(x, a)]). right. by exists x, a, [].
Qed.

(** ** Flushing *)

Definition flush_fuel (n : nat) (d : Direction) c : nat := S (Z.to_nat (len (pending d c)) * (n + 1) + n).

(** [offset += n]. *)
Definition skip (d : Direction) (n : Z) c : ConnectionPair := set_buffer d (buffer d c) (offset d c + n) c.

Lemma pending_skip d n c : 0 ≤ offset d c → 0 ≤ n → pending d (skip d n c) = drop (Z.to_nat n) (pending d c).
Proof.
  intros Ho Hn. unfold pending, skip, substr_from.
  destruct (offset_set_buffer d d (buffer d c) (offset d c + n) c) as [-> ->].
  rewrite !bool_decide_true by done. rewrite drop_drop. f_equal. lia.
Qed.

Lemma skip_identity d b o c :
  client_fd (set_buffer d b o c) = client_fd c ∧ backend_fd (set_buffer d b o c) = backend_fd c ∧
  backend_index (set_buffer d b o c) = backend_index c ∧
  destination d (set_buffer d b o c) = destination d c.
Proof. by destruct d. Qed.

Lemma set_buffer_twice d b o b' o' c : set_buffer d b' o' (set_buffer d b o c) = set_buffer d b' o' c.
Proof. by destruct d. Qed.

Lemma set_buffer_self d c : set_buffer d (buffer d c) (offset d c) c = c.
Proof. by destruct d, c. Qed.

(** One successful [send] before the rest of the loop. *)
Lemma flushed_step d s w c e n s' w' :
  0 ≤ n → offset d c + n ≤ len (buffer d c) → 0 ≤ offset d c →
  sent_bytes (destination d c) [e] = take (Z.to_nat n) (pending d c) →
  flushed d (put (skip d n c) s) (e :: w) (skip d n c) s' w' → flushed d s w c s' w'.
Proof.
  intros Hn Hle H0 He Hf. destruct (skip_identity d (buffer d c) (offset d c + n) c) as (I1 & I2 & I3 & I4).
  fold (skip d n c) in I1, I2, I3, I4.
  destruct (offset_set_buffer d d (buffer d c) (offset d c + n) c) as [Eo Eb]. fold (skip d n c) in Eo, Eb.
  rewrite bool_decide_true in Eo, Eb by done.
  assert (∀ l, (l ++ [e]) ++ w = l ++ e :: w) as Hw by (intros l; by rewrite <- app_assoc).
  destruct Hf as [l o Hp Ho Hend|x a l closing Hr Herr].
  - rewrite Eb in *. rewrite Eo, I4 in *. rewrite put_twice by by destruct d.
    unfold skip in Hp |- *. rewrite set_buffer_twice in *. rewrite <- (Hw l). apply flush_kept; [|lia|].
    + fold (skip d n c) in Hp. rewrite pending_skip in Hp by done.
      rewrite sent_bytes_app, He, <- app_assoc, <- Hp. by rewrite take_drop.
    + destruct Hend as [?|(x & a & l' & -> & ?)]; [by left|right]. by exists x, a, (l' ++ [e]).
  - rewrite I1, (closed_put _ c (skip d n c)) by done. rewrite <- (Hw l).
    by apply flush_dropped.
Qed.

Lemma flushData_loop F n {P : Patient K n} {HK : Honest K} d fuel s w c :
  tables F s w → connections s !! client_fd c = Some c → (d = ToBackend → relays c = true) →
  (Z.to_nat (len (pending d c)) * (n + 1) + budget n w < fuel)%nat →
  ∃ s' w', flushData fuel (destination d c) (client_fd c) d s w = Some ((), s', w') ∧
    flushed d s w c s' w'.
Proof.
  revert s w c. induction fuel as [|fuel IH]; intros s w c Ht Hc Hd Hf; [by apply Nat.nlt_0_r in Hf|].
  pose proof (t_offsets _ _ _ Ht _ _ Hc) as Hoff. cbv beta in Hoff. pose proof (Hoff d) as Ho.
  assert (owns (destination d c) c) as Hown by (destruct d; [right; by split; [apply Hd|]|by left]).
  cbn [flushData]. unfold with_connection, find_connection, bind at 1, gets at 1. rewrite Hc.
  assert (∀ l s', s' = s → (offset d c = len (buffer d c) ∨
      ∃ x a l', l = (x, a) :: l' ∧ ret a = -1 ∧ errno a = EAGAIN) →
    sent_bytes (destination d c) l = [] → flushed d s w c s' (l ++ w)) as Hstay.
  { intros l s' -> Hend Hl. pose proof (flush_kept d s w c l (offset d c)) as Hk.
    rewrite set_buffer_self, put_self in Hk by done. apply Hk; [by rewrite Hl|lia|done]. }
  destruct (Z.ltb_spec (offset d c) (len (buffer d c))) as [Hlt|Hge].
  2:{ eexists _, _. split; [done|]. apply (Hstay []); [done|left; lia|done]. }
  unfold bind at 1, sys at 1. set (x := sys_send _ _). pose proof (HK w x) as (Hlow & Hhigh).
  set (a := respond w x) in *.
  assert (tables F s ((x, a) :: w)) as Ht1 by (eapply tables_quiet; [done|]; by apply quiet_call).
  assert (sent_bytes (destination d c) [(x, a)] = take (Z.to_nat (ret a)) (pending d c)) as Hy.
  { cbn. by rewrite Z.eqb_refl. }
  change (ret a ≤ len (pending d c)) in Hhigh. rewrite pending_len in Hhigh by done.
  rewrite Z.gtb_ltb. destruct (Z.ltb_spec 0 (ret a)) as [Hr|Hr].
  - set (c1 := skip d (ret a) c). unfold bind at 1.
    change (on_connection _ _) with (on_connection (client_fd c) (skip d (ret a))).
    destruct (skip_identity d (buffer d c) (offset d c + ret a) c) as (I1 & I2 & I3 & I4).
    fold (skip d (ret a) c) c1 in I1, I2, I3, I4.
    rewrite (on_connection_eq _ (skip d (ret a)) s _ c) by done. fold c1.
    destruct (IH (put c1 s) ((x, a) :: w) c1) as (s' & w' & E & Hfl).
    + unfold put. rewrite I1, <- (alter_as_insert (skip d (ret a)) _ _ c) by done.
      apply tables_soft; [|done]. intros c0 Hc0. rewrite Hc in Hc0. injection Hc0 as <-.
      apply soft_set_buffer. lia.
    + unfold put. cbn. by rewrite lookup_insert_eq.
    + unfold relays. by rewrite I2.
    + pose proof (budget_le n ((x, a) :: w)). subst c1. rewrite pending_skip, len_drop by (rewrite ?pending_len by done; lia).
      rewrite pending_len in * by done.
      assert (Z.to_nat (len (buffer d c) - offset d c - ret a) < Z.to_nat (len (buffer d c) - offset d c))%nat by lia. nia.
    + rewrite I1, I4 in E. exists s', w'. split; [done|].
      eapply (flushed_step d s w c (x, a)); [| | |exact Hy|exact Hfl]; lia.
  - assert (sent_bytes (destination d c) [(x, a)] = []) as Hy0 by (etransitivity; [exact Hy|]; by rewrite Z2Nat.nonpos).
    change EWOULDBLOCK with EAGAIN. rewrite orb_diag.
    destruct (Z.eqb_spec (ret a) (-1)) as [E1|E1]; cbn [andb].
    + destruct (Z.eqb_spec (errno a) EAGAIN) as [E2|E2].
      { eexists _, _. split; [done|]. apply (Hstay [(x, a)]); [done|right; by exists x, a, []|done]. }
      destruct (Z.eqb_spec (errno a) EINTR) as [E3|E3].
      { destruct (IH s ((x, a) :: w) c) as (s' & w' & E & Hfl); try done.
        - eapply Nat.lt_le_trans; [|apply Nat.lt_succ_r, Hf]. apply Nat.add_lt_mono_l.
          apply budget_interrupted; [done|]. fold a. unfold interrupted. apply andb_true_iff.
          split; by apply Z.eqb_eq.
        - exists s', w'. split; [done|].
          assert (skip d 0 c = c) as E0 by (unfold skip; rewrite Z.add_0_r; apply set_buffer_self).
          eapply (flushed_step d s w c (x, a) 0); [lia|lia|lia|exact Hy0|]. by rewrite E0, put_self. }
      destruct (close_owner_eq F s ((x, a) :: w) c _ _ Ht1 Hc Hown) as [l E].
      rewrite E. eexists _, _. split; [done|]. by apply (flush_dropped d s w c x a [] l).
    + destruct (close_owner_eq F s ((x, a) :: w) c _ _ Ht1 Hc Hown) as [l E].
      rewrite E. eexists _, _. split; [done|]. by apply (flush_dropped d s w c x a [] l).
Qed.

End Traffic.

