(* ===== verification/BalancerProgress.v ===== *)
(** * The load balancer never hangs

    Every event is handled to its end, whatever the kernel answers, as long as it
    does not interrupt calls forever and does not deliver new connections without
    end. *)

From S2P Require Import Prelude Numerals Sys Progress Epoll Socket TimerFd Backends Ring Counts Health LbText Balancer.
From S2P Require Import BalancerInv BalancerTraffic.
Import Backend BackendPool LoadBalancer.

Section Progress.
Context {K : Kernel} {TC : Traversal HealthChecker.Check} {TP : Traversal ConnectionPair}.
Implicit Types (s : LoadBalancer) (w : history) (c : ConnectionPair) (F : gset Z).

(** ** Programs without loops *)

Lemma total_with_connection {A} key (missing : A) body :
  (∀ c, total (body c)) → total (with_connection key missing body).
Proof. intros Hb. unfold with_connection, find_connection. total_run. Qed.

Lemma total_on_backend i f : total (on_backend i f).
Proof. apply total_modify. Qed.

Lemma total_on_connection key f : total (on_connection key f).
Proof. apply total_modify. Qed.

Lemma total_remove {S} fd : total (S := S) (Epoll.remove fd).
Proof. unfold Epoll.remove. total_run. Qed.

Lemma total_add {S} fd events : total (S := S) (Epoll.add fd events).
Proof. unfold Epoll.add. total_run. Qed.

Lemma total_modify_events {S} fd events : total (S := S) (Epoll.modify fd events).
Proof. unfold Epoll.modify. total_run. Qed.
#[local] Hint Resolve total_on_backend total_on_connection total_remove total_add total_modify_events : total.

Lemma total_closeConnection key : total (closeConnection key).
Proof. apply total_with_connection. intros c. total_run. Qed.
#[local] Hint Resolve total_closeConnection : total.

Lemma total_try_address address : total (try_address address).
Proof. unfold try_address, Socket.setNoDelay. total_run. Qed.
#[local] Hint Resolve total_try_address : total.

Lemma total_attach key index undo : total (attach key index undo).
Proof. unfold attach, connectToBackend. total_run. Qed.
#[local] Hint Resolve total_attach : total.

Lemma total_failover key failed : total (failoverConnection key failed).
Proof.
  apply total_with_connection. intros c. unfold detach, failover_attempt. total_run.
Qed.
#[local] Hint Resolve total_failover : total.

Lemma total_round_robin attempts count : total (round_robin attempts count).
Proof. induction attempts as [|attempts IH]; cbn [round_robin]; total_run. Qed.

Lemma total_selectRoundRobin : total selectRoundRobinBackend.
Proof. unfold selectRoundRobinBackend. pose proof total_round_robin. total_run. Qed.
#[local] Hint Resolve total_selectRoundRobin : total.

Lemma total_connect_attempts left attempt count initial attempted key :
  total (connect_attempts left attempt count initial attempted key).
Proof.
  revert attempt attempted. induction left as [|left IH]; intros attempt attempted; cbn [connect_attempts];
    [total_run|]. unfold choose_index. total_run.
Qed.

(** The ring's walk ends: its keys are in order. *)
Lemma selectBackend_returns F ip s w : tables F s w → returns (selectBackend ip) s w.
Proof.
  intros Ht. unfold selectBackend. apply returns_gets. destruct (negb _); [by eexists|].
  apply returns_gets. destruct (routing_mode s).
  - revert s w Ht. intros s w _. revert s w. match goal with |- ∀ s w, returns ?m s w => change (total m) end.
    total_run.
  - apply returns_gets. destruct (t_limits _ _ _ Ht) as [Ho _].
    rewrite getBackend_eq by done. by eexists.
Qed.

Lemma connectClient_returns F key s w : tables F s w → returns (connectClientToBackend key) s w.
Proof.
  intros Ht. unfold connectClientToBackend. apply returns_gets. destruct (negb _); [by eexists|].
  unfold with_connection, find_connection. apply returns_gets. destruct (connections s !! key) as [c|]; [|by eexists].
  apply returns_bind; [by eapply selectBackend_returns|].
  eapply wp_mono; [|by apply selectBackend_spec]. intros choice s' w' _. revert s' w'.
  match goal with |- ∀ s w, returns ?m s w => change (total m) end.
  pose proof total_connect_attempts. total_run.
Qed.

Lemma total_watch fd events current store : total store → total (watch fd events current store).
Proof. intros Hs. unfold watch. total_run. Qed.

Lemma total_serve_metrics key c : total (serve_metrics key c).
Proof. unfold serve_metrics, set_client_events. total_run. apply total_watch. total_run. Qed.

Lemma total_connect_event key flags b : total (connect_event key flags b).
Proof. apply total_with_connection. intros c. total_run. Qed.

Lemma total_after_event key : total (after_event key).
Proof.
  assert (∀ c, total (shutdown_event key c)) as Hs by (intros c; unfold shutdown_event; total_run).
  apply total_with_connection. intros _. apply total_bind; [auto with total|]. intros _.
  apply total_with_connection. intros c. unfold set_client_events, set_backend_events. total_run;
    apply total_watch; auto with total.
Qed.

(** ** Loops *)

Lemma monotone_forwardData fd key d drain : monotone (λ fuel, forwardData fuel fd key d drain).
Proof.
  intros fuel. induction fuel as [|fuel IH]; intros s w r; [done|].
  cbv beta in *. remember (S fuel) as k eqn:Hk. rewrite Hk at 1. clear Hk. cbn [forwardData]. unfold with_connection, find_connection, bind, gets, sys, on_connection, modify.
  destruct (connections s !! key) as [c|]; [|done]. destruct (_ >? 0).
  - destruct (_ >? MAX_BUFFER_SIZE); [done|]. destruct (negb drain); [done|apply IH].
  - destruct (_ =? 0); [done|]. destruct (_ =? EINTR); [|done]. destruct drain; [apply IH|done].
Qed.

Lemma monotone_flushData fd key d : monotone (λ fuel, flushData fuel fd key d).
Proof.
  intros fuel. induction fuel as [|fuel IH]; intros s w r; [done|].
  cbv beta in *. remember (S fuel) as k eqn:Hk. rewrite Hk at 1. clear Hk. cbn [flushData]. unfold with_connection, find_connection, bind, gets, sys, on_connection, modify.
  destruct (connections s !! key) as [c|]; [|done]. destruct (_ <? _); [|done].
  destruct (_ >? 0); [apply IH|]. destruct (_ && _); [done|]. destruct (_ && _); [apply IH|done].
Qed.

Context (n : nat) {P : Patient K n}.

(** One turn of a loop: the measure goes down, or the call was interrupted. *)
Lemma budget_drops m m' w w' fuel :
  (m * (n + 1) + budget n w < S fuel)%nat → (m' < m)%nat → (m' * (n + 1) + budget n w' < fuel)%nat.
Proof. intros Hf Hm. pose proof (budget_le n w'). nia. Qed.

Lemma budget_retry m w x fuel :
  (m * (n + 1) + budget n w < S fuel)%nat → interrupted (respond w x) = true →
  (m * (n + 1) + budget n ((x, respond w x) :: w) < fuel)%nat.
Proof. intros Hf Hi. pose proof (budget_interrupted n w x Hi). lia. Qed.

(** [output_buffer.size() - offset], as the code computes it. *)
Definition queued (d : Direction) c : Z := sub64 (len (buffer d c)) (offset d c).

Lemma queued_append d x c :
  queued d c + len x ≤ MAX_BUFFER_SIZE → queued d (append_received d x c) = queued d c + len x.
Proof.
  assert (MAX_BUFFER_SIZE < U64) as HU by done. pose proof (len_nonneg x) as Hx. intros Hle.
  assert (0 ≤ queued d c) as H0 by by apply Z.mod_pos_bound.
  unfold queued, append_received in *. destruct (Z.eqb_spec (offset d c) (len (buffer d c))) as [E|E];
    match goal with |- context [set_buffer d ?b ?o ?c0] =>
      destruct (offset_set_buffer d d b o c0) as [-> ->] end; rewrite !bool_decide_true, len_app by done.
  - destruct (offset_set_buffer d d [] 0 c) as [-> ->]. rewrite !bool_decide_true by done.
    rewrite E in *. unfold sub64 in *. rewrite Z.sub_diag in *. change (0 mod U64) with 0 in *.
    change (len (@nil ascii)) with 0. rewrite Z.mod_small by lia. lia.
  - unfold sub64 in *. replace (len (buffer d c) + len x - offset d c)
      with (len (buffer d c) - offset d c + len x) by lia.
    rewrite <- Z.add_mod_idemp_l by done. apply Z.mod_small. lia.
Qed.

Lemma total_close_owner fd : total (close_owner fd).
Proof. unfold close_owner. total_run. Qed.

Lemma total_close_reader fd : total (close_reader fd).
Proof. unfold close_reader. total_run. apply total_with_connection. auto with total. Qed.

Lemma total_mark_read_closed fd : total (mark_read_closed fd).
Proof. unfold mark_read_closed. total_run. Qed.
#[local] Hint Resolve total_close_owner total_close_reader total_mark_read_closed : total.

Lemma forwardData_returns fd key d drain {HK : Honest K} fuel s w :
  (match connections s !! key with Some c => Z.to_nat (MAX_BUFFER_SIZE - queued d c) | None => 0 end
     * (n + 1) + budget n w < fuel)%nat → returns (forwardData fuel fd key d drain) s w.
Proof.
  revert s w. induction fuel as [|fuel IH]; intros s w Hf; [by apply Nat.nlt_0_r in Hf|].
  cbn [forwardData]. unfold with_connection, find_connection. apply returns_gets.
  destruct (connections s !! key) as [c|] eqn:Hc; [|by eexists]. cbv zeta.
  apply returns_sys. set (x := sys_recv _ _ _). pose proof (HK w x) as (Hlow & _ & Hdata).
  fold (queued d c). set (a := respond w x) in *. rewrite !Z.gtb_ltb.
  destruct (Z.ltb_spec 0 (ret a)) as [Hr|Hr].
  - specialize (Hdata Hr). assert (len (take (Z.to_nat (ret a)) (data a)) = ret a) as Hl by (apply len_take; lia).
    destruct (Z.ltb_spec MAX_BUFFER_SIZE (queued d c + ret a)) as [Hmax|Hmax].
    { apply total_bind; auto with total. }
    apply returns_modify. destruct (negb drain); [by eexists|]. apply IH. eapply budget_drops; [exact Hf|].
    cbn [connections set_with]. rewrite lookup_alter_eq, Hc.
    match goal with |- (match ?x with _ => _ end < _)%nat =>
      change x with (Some (append_received d (take (Z.to_nat (ret a)) (data a)) c)) end.
    cbv beta iota. rewrite queued_append by lia. lia.
  - destruct (Z.eqb_spec (ret a) 0) as [E0|E0]; [apply total_bind; auto with total|].
    destruct (Z.eqb_spec (errno a) EINTR) as [E|E].
    { destruct drain; [|by eexists]. apply IH. rewrite Hc. eapply budget_retry; [exact Hf|].
      fold a. unfold interrupted. rewrite E. apply andb_true_iff. split; [apply Z.eqb_eq; lia|done]. }
    destruct (_ || _); [by eexists|]. apply total_bind; auto with total.
Qed.

Lemma forwardData_settles fd key d drain {HK : Honest K} s w :
  settles (λ fuel, forwardData fuel fd key d drain) s w.
Proof.
  eapply settles_at; [apply monotone_forwardData|]. apply forwardData_returns; [done|]. apply Nat.lt_succ_diag_r.
Qed.

Lemma flushData_returns fd key d fuel s w :
  (match connections s !! key with Some c => Z.to_nat (len (buffer d c) - offset d c) | None => 0 end
     * (n + 1) + budget n w < fuel)%nat → returns (flushData fuel fd key d) s w.
Proof.
  revert s w. induction fuel as [|fuel IH]; intros s w Hf; [by apply Nat.nlt_0_r in Hf|].
  cbn [flushData]. unfold with_connection, find_connection. apply returns_gets.
  destruct (connections s !! key) as [c|] eqn:Hc; [|by eexists].
  destruct (Z.ltb_spec (offset d c) (len (buffer d c))) as [Hlt|Hlt]; [|by eexists].
  apply returns_sys. set (x := sys_send _ _). set (a := respond w x) in *. rewrite Z.gtb_ltb.
  destruct (Z.ltb_spec 0 (ret a)) as [Hr|Hr].
  - apply returns_modify. apply IH. eapply budget_drops; [exact Hf|].
    cbn [connections set_with]. rewrite lookup_alter_eq, Hc.
    match goal with |- (match ?x with _ => _ end < _)%nat => change x with (Some (skip d (ret a) c)) end.
    cbv beta iota. unfold skip. destruct (offset_set_buffer d d (buffer d c) (offset d c + ret a) c) as [-> ->].
    rewrite !bool_decide_true by done. lia.
  - destruct (_ && (_ || _)); [by eexists|]. destruct ((ret a =? -1) && (errno a =? EINTR)) eqn:E; [|apply total_close_owner].
    apply IH. rewrite Hc. by eapply budget_retry.
Qed.

Lemma flushData_settles fd key d s w : settles (λ fuel, flushData fuel fd key d) s w.
Proof.
  eapply settles_at; [apply monotone_flushData|]. apply flushData_returns. apply Nat.lt_succ_diag_r.
Qed.
(** ** Accepting *)

Lemma accept_client_accepted fd address s w :
  wp (accept_client fd address) (λ _ _ w', accepted w' = accepted w) s w.
Proof.
  unfold accept_client, Socket.setNoDelay, Epoll.add. wp_step. wp_step. apply wp_sys, wp_ret.
  wp_step. apply wp_gets. wp_step; [wp_step; by apply wp_sys, wp_ret|]. cbv zeta.
  wp_step. apply wp_modify. wp_step. wp_step. apply wp_sys, wp_ret.
  wp_step; [|by apply wp_ret]. wp_step. apply wp_modify. wp_step. by apply wp_sys, wp_ret.
Qed.

Lemma total_accept_client fd address : total (accept_client fd address).
Proof. unfold accept_client, Socket.setNoDelay. total_run. Qed.

Lemma monotone_handleAccept : monotone handleAccept.
Proof.
  intros fuel. induction fuel as [|fuel IH]; intros s w r; [done|].
  remember (S fuel) as k eqn:Hk. rewrite Hk at 1. clear Hk. cbn [handleAccept]. unfold bind, gets, sys.
  destruct (_ =? -1).
  - destruct (_ || _); [done|]. destruct (_ =? EINTR); [apply IH|done].
  - destruct (accept_client _ _ _ _) as [[[[] s'] w']|]; [apply IH|done].
Qed.

Lemma handleAccept_returns m {B : Backlog K m} fuel s w :
  ((m - accepted w) * (n + 1) + budget n w < fuel)%nat → returns (handleAccept fuel) s w.
Proof.
  revert s w. induction fuel as [|fuel IH]; intros s w Hf; [by apply Nat.nlt_0_r in Hf|].
  cbn [handleAccept]. apply returns_gets, returns_sys. set (x := sys_accept _).
  destruct (Z.eqb_spec (ret (respond w x)) (-1)) as [E|E].
  - destruct (_ || _); [by eexists|]. destruct (errno _ =? EINTR) eqn:E1; [|by eexists].
    apply IH. cbn [accepted x]. rewrite (proj2 (Z.eqb_eq _ _) E). apply budget_retry; [done|].
    unfold interrupted. by rewrite E, E1.
  - apply returns_bind; [apply total_accept_client|].
    eapply wp_mono; [|apply accept_client_accepted]. intros [] s' w' Ha. apply IH.
    eapply budget_drops; [exact Hf|]. rewrite Ha. cbn [accepted x]. rewrite (proj2 (Z.eqb_neq _ _) E).
    assert (¬ (m ≤ accepted w)%nat); [|lia]. intros Hm. by apply E, B.
Qed.

Lemma handleAccept_settles m {B : Backlog K m} s w : settles handleAccept s w.
Proof.
  eapply settles_at; [apply monotone_handleAccept|]. apply (handleAccept_returns m), Nat.lt_succ_diag_r.
Qed.
(** ** The health checker *)

Lemma monotone_handleWrite k (c : HealthChecker.Check) : monotone (λ fuel, HealthChecker.handleWrite fuel k c).
Proof.
  intros fuel. revert c. induction fuel as [|fuel IH]; intros c h w r; [done|].
  cbv beta in *. remember (S fuel) as f eqn:Hk. rewrite Hk at 1. clear Hk.
  cbn [HealthChecker.handleWrite]. unfold bind, sys, HealthChecker.on_check, modify.
  destruct (_ <? _); [|done]. destruct (_ >? 0); [apply IH|]. destruct (_ && _); [apply IH|done].
Qed.

Lemma monotone_handleRead k (c : HealthChecker.Check) : monotone (λ fuel, HealthChecker.handleRead fuel k c).
Proof.
  intros fuel. revert c. induction fuel as [|fuel IH]; intros c h w r; [done|].
  cbv beta in *. remember (S fuel) as f eqn:Hk. rewrite Hk at 1. clear Hk.
  cbn [HealthChecker.handleRead]. unfold bind, sys, HealthChecker.on_check, modify.
  destruct (_ <? _); [|done]. destruct (_ >? 0).
  - destruct (find _ _ _); [done|apply IH].
  - destruct (_ =? 0); [done|]. destruct (_ =? EINTR); [apply IH|done].
Qed.

Lemma monotone_stage k guard (body : nat → HealthChecker.Check → Prog HealthChecker.HealthChecker ()) :
  (∀ c : HealthChecker.Check, monotone (λ fuel, body fuel c)) → monotone (λ fuel, HealthChecker.stage k guard (body fuel)).
Proof.
  intros Hb fuel h w r. unfold HealthChecker.stage. unfold bind at 1 3, gets.
  destruct (HealthChecker.checks h !! k) as [c|]; [|done]. revert fuel h w r.
  apply (monotone_bind (λ fuel, if guard c then body fuel c else mret ()) (λ _ _, HealthChecker.handles k)).
  - destruct (guard c); [done|apply monotone_const].
  - intros _. apply monotone_const.
Qed.

Lemma monotone_handleEvent k events : monotone (λ fuel, HealthChecker.handleEvent fuel k events).
Proof.
  pose proof monotone_handleWrite. pose proof monotone_handleRead.
  unfold HealthChecker.handleEvent. repeat monotone_step; by apply monotone_stage.
Qed.

Lemma handleHealthEvent_settles {HK : Honest K} F fd events s w :
  tables F s w → settles (λ fuel, handleHealthEvent fuel fd events) s w.
Proof.
  intros Ht. apply settles_zoom. destruct (t_checker _ _ _ Ht) as [(_ & _ & Hk) _ Ho].
  destruct (HealthChecker.checks (checker_of s) !! fd) as [c|] eqn:Hc.
  - apply (settles_at _ (event_fuel n c)); [apply monotone_handleEvent|].
    apply (handleEvent_returns n); [done|by apply (Hk _ _ Hc)|by apply (Ho _ _ Hc)].
  - apply (settles_at _ 0); [apply monotone_handleEvent|]. unfold HealthChecker.handleEvent.
    unfold HealthChecker.stage at 1. unfold returns, bind, gets. rewrite Hc. by eexists.
Qed.

Lemma total_failCheck k : total (HealthChecker.failCheck k).
Proof. unfold HealthChecker.failCheck, HealthChecker.on_backend, HealthChecker.drop_check. total_run. Qed.
#[local] Hint Resolve total_failCheck : total.

Lemma total_expire : total HealthChecker.expire.
Proof. unfold HealthChecker.expire, HealthChecker.now. total_run. Qed.

Lemma total_nextTimeout : total HealthChecker.nextTimeoutMs.
Proof. unfold HealthChecker.nextTimeoutMs, HealthChecker.now. total_run. Qed.

Lemma total_checker_start : total HealthChecker.start.
Proof.
  unfold HealthChecker.start, HealthChecker.active, HealthChecker.start_check, HealthChecker.add_check,
    HealthChecker.on_backend, HealthChecker.now. total_run.
Qed.
(** ** Events *)

Lemma settles_with_connection {A} key (missing : A) (body : nat → ConnectionPair → Prog LoadBalancer A) s w :
  (∀ c, settles (λ fuel, body fuel c) s w) → settles (λ fuel, with_connection key missing (body fuel)) s w.
Proof.
  intros Hb. unfold with_connection, find_connection.
  settles_step (λ (r : option ConnectionPair) s' w', s' = s ∧ w' = w); [by apply settles_total; eexists|done|].
  intros [c|] s' w' [-> ->]; [apply Hb|]. apply settles_total. by eexists.
Qed.

Lemma settles_always {A} (m : Prog LoadBalancer A) s w : total m → settles (λ _, m) s w.
Proof. intros Hm. apply settles_total, Hm. Qed.

Lemma classify_returns F key current s w : tables F s w → returns (classify key current) s w.
Proof.
  intros Ht. unfold classify. apply returns_sys. set (a := respond _ _).
  assert (∀ s w, tables F s w → returns (with_connection key false (λ c,
      if metrics_connection c then mret true
      else bind (connectClientToBackend (client_fd c)) (λ connected : bool,
        if connected then mret true else closeConnection (client_fd c) ;; mret false))) s w) as Hrelay.
  { intros s0 w0 Ht0. unfold with_connection, find_connection. apply returns_gets.
    destruct (connections s0 !! key) as [c|]; [|by eexists]. destruct (metrics_connection c); [by eexists|].
    apply returns_bind; [by eapply connectClient_returns|]. unfold wp.
    destruct (connectClientToBackend _ _ _) as [[[connected s1] w1]|]; [|done].
    revert s1 w1. match goal with |- ∀ s w, returns ?m s w => change (total m) end. total_run. }
  assert (tables F s ((sys_recv (client_fd current) 1024 true, a) :: w)) as Ht1.
  { eapply tables_quiet; [done|]. by apply quiet_call. }
  cbv zeta. destruct (_ >? 0).
  - destruct (_ && _); [by eexists|]. destruct (_ && _); [|by apply Hrelay].
    apply returns_modify, Hrelay, tables_soft; [|done]. by intros c Hc.
  - destruct (_ && _); [|by apply Hrelay]. apply total_bind; auto with total.
Qed.

Lemma client_readable_settles {HK : Honest K} F key current s w :
  tables F s w → settles (λ fuel, client_readable fuel key current) s w.
Proof.
  intros Ht. unfold client_readable. settles_step (λ (_ : bool) (_ : LoadBalancer) (_ : history), True).
  - apply settles_total. destruct (_ && _); [by eapply classify_returns|by eexists].
  - intros _. unfold wp. by destruct (_ s w) as [[[? ?] ?]|].
  - intros go s' w' _. destruct (negb go); [by apply settles_always, total_ret|].
    apply settles_with_connection. intros c. destruct (metrics_connection c).
    + apply settles_always. pose proof total_serve_metrics. total_run.
    + by apply forwardData_settles.
Qed.

Lemma wp_any {A} (m : Prog LoadBalancer A) s w : wp m (λ _ _ _, True) s w.
Proof. unfold wp. by destruct (m s w) as [[[? ?] ?]|]. Qed.

Lemma read_event_settles {HK : Honest K} F key flags b s w :
  tables F s w → settles (λ fuel, read_event fuel key flags b) s w.
Proof.
  intros Ht. apply settles_with_connection. intros c. destruct (has _ _); [|by apply settles_always, total_ret].
  destruct b; [by apply forwardData_settles|by eapply client_readable_settles].
Qed.

Lemma drain_event_settles {HK : Honest K} key flags b s w :
  settles (λ fuel, drain_event fuel key flags b) s w.
Proof.
  apply settles_with_connection. intros c. destruct (_ && _); [by apply forwardData_settles|].
  destruct (_ && _); [by apply forwardData_settles|by apply settles_always, total_ret].
Qed.

Lemma write_event_settles key s w : settles (λ fuel, write_event fuel key) s w.
Proof.
  unfold write_event. settles_step (λ (_ : ()) (_ : LoadBalancer) (_ : history), True); [|intros; apply wp_any|].
  - apply settles_with_connection. intros c.
    destruct (_ && _); [apply flushData_settles|by apply settles_always, total_ret].
  - intros _ s' w' _. apply settles_with_connection. intros c.
    destruct (_ <? _); [apply flushData_settles|by apply settles_always, total_ret].
Qed.

Lemma relay_event_settles {HK : Honest K} F fd flags s w :
  tables F s w → settles (λ fuel, relay_event fuel fd flags) s w.
Proof.
  intros Ht. unfold relay_event. settles_step (λ (_ : option Z) s' w', tables F s' w').
  { by apply settles_total; eexists. } { by intros _. }
  intros mapping s1 w1 Ht1. apply settles_with_connection. intros c.
  assert (total (if match mapping with Some _ => true | None => false end && backend_connecting c
    then failoverConnection (client_fd c) (backend_index c) ;; mret ()
    else closeConnection (client_fd c))) as Habandon by total_run.
  destruct (has flags EPOLLERR); [by apply settles_always|].
  destruct (has flags EPOLLHUP && negb (has flags EPOLLIN)); [by apply settles_always|].
  settles_step (λ (_ : bool) (_ : LoadBalancer) (_ : history), True);
    [by eapply read_event_settles|intros; apply wp_any|].
  intros go s2 w2 _. destruct (negb go); [by apply settles_always, total_ret|].
  settles_step (λ (_ : bool) (_ : LoadBalancer) (_ : history), True);
    [by apply drain_event_settles|intros; apply wp_any|].
  intros go2 s3 w3 _. destruct (negb go2); [by apply settles_always, total_ret|].
  settles_step (λ (_ : bool) (_ : LoadBalancer) (_ : history), True);
    [by apply settles_always, total_connect_event|intros; apply wp_any|].
  intros go3 s4 w4 _. destruct (negb go3); [by apply settles_always, total_ret|].
  settles_step (λ (_ : ()) (_ : LoadBalancer) (_ : history), True);
    [by apply write_event_settles|intros; apply wp_any|].
  intros _ s5 w5 _. apply settles_always, total_after_event.
Qed.

Lemma handle_event_settles m {B : Backlog K m} {HK : Honest K} F e s w :
  tables F s w → settles (λ fuel, handle_event fuel e) s w.
Proof.
  intros Ht. destruct e as [fd flags]. unfold handle_event.
  settles_step (λ (_ : bool) s' w', tables F s' w'); [by apply settles_total; eexists|by intros _|].
  intros accepting s1 w1 Ht1. destruct accepting; [by apply (handleAccept_settles m)|].
  settles_step (λ (_ : bool) s' w', tables F s' w'); [by apply settles_total; eexists|by intros _|].
  intros ticking s2 w2 Ht2. destruct ticking.
  { apply settles_always. unfold handleHealthCheck, timer, checker, TimerFd.consume.
    pose proof total_checker_start. total_run. }
  settles_step (λ (_ : bool) s' w', tables F s' w').
  - apply settles_always. unfold checker, HealthChecker.handles. total_run.
  - intros _. by apply keeps_handles.
  - intros probing s3 w3 Ht3. destruct probing; [by eapply handleHealthEvent_settles|by eapply relay_event_settles].
Qed.

Lemma turn_settles m {B : Backlog K m} {HK : Honest K} {FK : FreshFds K} F s w :
  tables F s w → settles turn s w.
Proof.
  intros Ht. unfold turn.
  settles_step (λ (_ : ()) s' w', tables F s' w').
  { apply settles_always. pose proof total_expire. unfold checker. total_run. }
  { intros _. by apply keeps_expire. }
  intros _ s1 w1 Ht1. settles_step (λ (_ : Z) s' w', tables F s' w').
  { apply settles_always. pose proof total_nextTimeout. unfold checker. total_run. }
  { intros _. by apply keeps_nextTimeout. }
  intros timeout s2 w2 Ht2. cbv zeta. settles_step (λ (_ : answer) s' w', tables F s' w').
  { apply settles_always. apply total_sys. }
  { intros _. by apply keeps_sys. }
  intros a s3 w3 Ht3. destruct (ret a =? -1); [by apply settles_always, total_ret|].
  settles_step (λ (_ : ()) (_ : LoadBalancer) (_ : history), True);
    [|intros; apply wp_any|intros; by apply settles_always, total_ret].
  apply (settles_for_each (tables F)); [|done]. intros e s4 w4 Ht4. split; [by eapply (handle_event_settles m)|].
  intros fuel. by apply keeps_handle_event.
Qed.

End Progress.




