(* ===== verification/BalancerStop.v ===== *)
(** * The load balancer stops

    A termination signal is noticed on the next turn of the event loop, and every
    turn comes to an end: [start] returns. *)

From S2P Require Import Prelude Numerals Sys Progress Total Epoll Socket TimerFd Backends Ring Counts Health LbText Balancer.
From S2P Require Import BalancerInv BalancerTraffic BalancerProgress.
Import Backend BackendPool LoadBalancer.

(** ** The history only grows *)

Section Checker.
Import HealthChecker.
Context {K : Kernel} {T : Traversal Check}.

Lemma grows_now : grows now.
Proof. unfold now. makes_run. Qed.

Lemma grows_finishCheck key ok : grows (finishCheck key ok).
Proof. unfold finishCheck, on_backend, drop_check. makes_run. Qed.

Lemma grows_failCheck key : grows (failCheck key).
Proof. unfold failCheck, on_backend, drop_check. makes_run. Qed.
#[local] Hint Resolve grows_now grows_finishCheck grows_failCheck : makes.

Lemma grows_handleWrite fuel key check : grows (handleWrite fuel key check).
Proof.
  revert check. induction fuel as [|fuel IH]; intros check; cbn [handleWrite]; [auto with makes|].
  unfold now, on_check. makes_run.
Qed.

Lemma grows_handleRead fuel key check : grows (handleRead fuel key check).
Proof.
  revert check. induction fuel as [|fuel IH]; intros check; cbn [handleRead]; [auto with makes|].
  unfold on_check. makes_run.
Qed.

Lemma grows_stage key guard body : (∀ c, grows (body c)) → grows (stage key guard body).
Proof. intros Hb. unfold stage, handles. makes_run. Qed.

Lemma grows_handleEvent fuel key events : grows (handleEvent fuel key events).
Proof.
  pose proof grows_handleWrite. pose proof grows_handleRead.
  assert (∀ c, grows (handleConnect key c)) by (intros c; unfold handleConnect, on_check; makes_run).
  unfold handleEvent. makes_run; by apply grows_stage.
Qed.

Lemma grows_checker_start : grows start.
Proof. unfold start, active, start_check, add_check, on_backend. makes_run. Qed.

Lemma grows_nextTimeout : grows nextTimeoutMs.
Proof. unfold nextTimeoutMs. makes_run. Qed.

Lemma grows_expire : grows expire.
Proof. unfold expire. makes_run. Qed.

End Checker.

Section Grows.
Context {K : Kernel} {TC : Traversal HealthChecker.Check} {TP : Traversal ConnectionPair}.

Lemma grows_with_connection {A} key (missing : A) body :
  (∀ c, grows (body c)) → grows (with_connection key missing body).
Proof. intros Hb. unfold with_connection, find_connection. makes_run. Qed.

Lemma grows_on_backend i f : grows (on_backend i f).
Proof. apply makes_modify. Qed.

Lemma grows_on_connection key f : grows (on_connection key f).
Proof. apply makes_modify. Qed.

Lemma grows_watch fd events current store : grows store → grows (watch fd events current store).
Proof. intros Hs. unfold watch. makes_run. Qed.
#[local] Hint Resolve grows_with_connection grows_on_backend grows_on_connection grows_watch : makes.

Ltac grow :=
  makes_run;
  repeat lazymatch goal with
  | |- makes _ (with_connection _ _ _) => apply grows_with_connection; intros ?; makes_run
  | |- makes _ (watch _ _ _ _) => apply grows_watch; makes_run
  | |- True => exact I
  end.

Lemma grows_closeConnection key : grows (closeConnection key).
Proof. unfold closeConnection. grow. Qed.

Lemma grows_try_address address : grows (try_address address).
Proof. unfold try_address. grow. Qed.
#[local] Hint Resolve grows_closeConnection grows_try_address : makes.

Lemma grows_attach key index undo : grows (attach key index undo).
Proof. unfold attach, connectToBackend. grow. Qed.
#[local] Hint Resolve grows_attach : makes.

Lemma grows_failover key failed : grows (failoverConnection key failed).
Proof. unfold failoverConnection, detach, failover_attempt. grow. Qed.

Lemma grows_round_robin attempts count : grows (round_robin attempts count).
Proof. induction attempts as [|attempts IH]; cbn [round_robin]; grow. Qed.
#[local] Hint Resolve grows_failover grows_round_robin : makes.

Lemma grows_selectRoundRobin : grows selectRoundRobinBackend.
Proof. unfold selectRoundRobinBackend. grow. Qed.
#[local] Hint Resolve grows_selectRoundRobin : makes.

Lemma grows_connect_attempts left attempt count initial attempted key :
  grows (connect_attempts left attempt count initial attempted key).
Proof.
  revert attempt attempted. induction left as [|left IH]; intros attempt attempted; cbn [connect_attempts];
    [grow|]. unfold choose_index. grow.
Qed.
#[local] Hint Resolve grows_connect_attempts : makes.

Lemma grows_connectClient key : grows (connectClientToBackend key).
Proof. unfold connectClientToBackend, selectBackend. grow. Qed.

Lemma grows_forwardData fuel fd key d drain : grows (forwardData fuel fd key d drain).
Proof.
  induction fuel as [|fuel IH]; cbn [forwardData]; [auto with makes|].
  unfold close_reader, close_owner, mark_read_closed. grow.
Qed.

Lemma grows_flushData fuel fd key d : grows (flushData fuel fd key d).
Proof.
  induction fuel as [|fuel IH]; cbn [flushData]; [auto with makes|]. unfold close_owner. grow.
Qed.

Lemma grows_handleAccept fuel : grows (handleAccept fuel).
Proof.
  induction fuel as [|fuel IH]; cbn [handleAccept]; [auto with makes|].
  unfold accept_client. grow.
Qed.
#[local] Hint Resolve grows_connectClient grows_forwardData grows_flushData grows_handleAccept : makes.

Lemma grows_read_event fuel key flags b : grows (read_event fuel key flags b).
Proof. unfold read_event, client_readable, classify, serve_metrics, set_client_events. grow. Qed.

Lemma grows_after_event key : grows (after_event key).
Proof. unfold after_event, shutdown_event, set_client_events, set_backend_events. grow. Qed.
#[local] Hint Resolve grows_read_event grows_after_event : makes.

Lemma grows_relay_event fuel fd flags : grows (relay_event fuel fd flags).
Proof. unfold relay_event, drain_event, connect_event, write_event. grow. Qed.
#[local] Hint Resolve grows_relay_event : makes.

Lemma grows_turn fuel : grows (turn fuel).
Proof.
  pose proof grows_handleEvent. pose proof grows_checker_start.
  pose proof grows_nextTimeout. pose proof grows_expire.
  unfold turn, handle_event, handleHealthCheck, handleHealthEvent, checker, timer, TimerFd.consume,
    HealthChecker.handles, Epoll.wait. grow.
Qed.

End Grows.

(** ** Stopping *)

Section Members.
Context {K : Kernel}.

(** A member's operation that only makes neutral calls. *)
Lemma keeps_member {A} F get set (m : Prog Z A) :
  (∀ s w fd, tables F s w → tables F (set fd s) w) →
  (∀ x w, wp m (λ _ _ w', quiet w w') x w) → keeps F (zoom get set m).
Proof.
  intros Hset Hm s w Ht. apply wp_zoom. eapply wp_mono; [|apply Hm]. intros a x w' Hq.
  apply Hset. by eapply tables_quiet.
Qed.

Lemma keeps_listener F port : keeps F (listener (Socket.bindAndListen port)).
Proof.
  apply keeps_member; [by intros s w fd []|]. intros x w. unfold Socket.bindAndListen.
  wp_step. apply wp_gets. destruct (id x =? -1); [by apply wp_ret|]. wp_step. apply wp_sys.
  destruct (_ =? -1); [|wp_step; apply wp_sys]; apply wp_ret;
    repeat (apply quiet_call; [|done]); done.
Qed.

Lemma keeps_timer_start F n : keeps F (timer (TimerFd.start n)).
Proof.
  apply keeps_member; [by intros s w fd []|]. intros x w. unfold TimerFd.start.
  wp_step. apply wp_gets. destruct (_ || _)%bool; [by apply wp_ret|]. wp_step. apply wp_sys, wp_ret.
  by apply quiet_call.
Qed.

Lemma keeps_add F fd events : keeps F (Epoll.add fd events).
Proof. apply keeps_bind; [by apply keeps_sys|]. intros a. apply keeps_ret. Qed.

End Members.

Section Stop.
Context {K : Kernel} {TC : Traversal HealthChecker.Check} {TP : Traversal ConnectionPair}.
Context (n : nat) {P : Patient K n} (m : nat) {B : Backlog K m} (t : nat) {HT : Terminated K t}.
Context {FK : FreshFds K} {HK : Honest K} (F : gset Z).
Implicit Types (s : LoadBalancer) (w : history).

Lemma signals_shut_down l s :
  SIGTERM ∈ l ∨ shutdown_requested s = true → shutdown_requested (fold_left handleSignal l s) = true.
Proof.
  revert s. induction l as [|x l IH]; intros s; cbn.
  { by intros [?%elem_of_nil|?]. }
  intros [[<-|Hx]%elem_of_cons|Hs]; apply IH; [by right|by left|right].
  unfold handleSignal. by destruct (_ || _).
Qed.

(** The [d]-th look at the signals. *)
Lemma shutting_down_spec d s w :
  tables F s w → (d ≤ polls w)%nat →
  wp shutting_down (λ stop s' w', tables F s' w' ∧ (S d ≤ polls w')%nat ∧ ((t ≤ d)%nat → stop = true)) s w.
Proof.
  intros Ht Hd. pose proof (keeps_shutting_down F s w Ht) as Hk. revert Hk. unfold wp, shutting_down.
  unfold bind, sys, modify, gets. intros Hk. split_and!; [done|cbn; lia|]. intros Htd.
  apply signals_shut_down. left. apply list_elem_of_fmap. exists (SIGTERM, 0). split; [done|].
  apply terminated. lia.
Qed.

Lemma loop_settles turns d s w :
  (t - d < turns)%nat → (d ≤ polls w)%nat → tables F s w → settles (λ fuel, loop turns fuel) s w.
Proof.
  revert d s w. induction turns as [|turns IH]; intros d s w Hturns Hd Ht; [lia|]. cbn [loop].
  settles_step (λ (stop : bool) s' w', tables F s' w' ∧ (S d ≤ polls w')%nat ∧ ((t ≤ d)%nat → stop = true)).
  { apply settles_always. unfold shutting_down. total_run. }
  { intros _. by apply shutting_down_spec. }
  intros [] s1 w1 (Ht1 & Hd1 & Hstop); [by apply settles_always, total_ret|].
  assert (d < t)%nat by (destruct (decide (t ≤ d)%nat) as [Hle|]; [by specialize (Hstop Hle)|lia]).
  settles_step (λ (_ : bool) s' w', tables F s' w' ∧ (polls w1 ≤ polls w')%nat).
  { by apply (turn_settles n m F). }
  { intros fuel. apply grows_polls; [apply grows_turn|]. by apply keeps_turn. }
  intros [] s2 w2 [Ht2 Hd2]; [|by apply settles_always, total_ret]. apply (IH (S d)); [lia..|done].
Qed.

(** A step that cannot hang and is run for its effect on the tables. *)
Lemma settles_prelude {A C} (m0 : Prog LoadBalancer A) (f : nat → A → Prog LoadBalancer C) s w :
  total m0 → keeps F m0 → tables F s w →
  (∀ a s' w', tables F s' w' → settles (λ fuel, f fuel a) s' w') →
  settles (λ fuel, bind m0 (f fuel)) s w.
Proof.
  intros Hm Hk Ht Hf. apply (settles_bind (λ _, m0) f (λ _, tables F)); [by apply settles_always| |done].
  intros _. by apply Hk.
Qed.

Lemma start_settles turns s w :
  (t < turns)%nat → tables F s w → settles (λ fuel, start turns fuel) s w.
Proof.
  intros Hturns Ht. unfold start.
  apply settles_prelude; [|by apply keeps_listener|done|].
  { unfold listener, Socket.bindAndListen. total_run. }
  intros [] s1 w1 Ht1; [|by apply settles_always, total_ret]. cbn [negb].
  apply settles_prelude; [apply total_gets|apply keeps_gets|done|]. intros listen_fd s2 w2 Ht2.
  apply settles_prelude; [apply total_add|apply keeps_add|done|].
  intros [] s3 w3 Ht3; [|by apply settles_always, total_ret]. cbn [negb].
  apply settles_prelude; [|by apply keeps_timer_start|done|].
  { unfold timer, TimerFd.start. total_run. }
  intros [] s4 w4 Ht4; [|by apply settles_always, total_ret]. cbn [negb].
  apply settles_prelude; [apply total_gets|apply keeps_gets|done|]. intros timer_fd s5 w5 Ht5.
  apply settles_prelude; [apply total_add|apply keeps_add|done|].
  intros [] s6 w6 Ht6; [|by apply settles_always, total_ret]. cbn [negb].
  settles_step (λ (_ : ()) s' w', tables F s' w').
  { apply (loop_settles turns 0); [lia..|done]. }
  { intros fuel. by apply keeps_loop. }
  intros _ s7 w7 _. apply settles_always. unfold closeAllConnections, close_pair, checker, HealthChecker.cancelAll.
  pose proof (@total_remove). pose proof total_on_backend. total_run.
Qed.

End Stop.
