(* ===== verification/BalancerTheorems.v ===== *)
(** * Theorems about the load balancer *)

From S2P Require Import Prelude Numerals Sys Progress Epoll Socket TimerFd Backends Ring Counts Health LbText Balancer.
From S2P Require Import BalancerInv BalancerTraffic BalancerProgress BalancerStop.
Import Backend BackendPool LoadBalancer.

Section Balancer.
Context {K : Kernel} {TC : Traversal HealthChecker.Check} {TP : Traversal ConnectionPair}.
Implicit Types (s : LoadBalancer) (w : history) (c : ConnectionPair) (F : gset Z).

(** ** From the constructor to the end of the program *)

Lemma construct_tables F id n environment config l t w :
  holds_fds F w → tables F (construct id n environment config l t) w.
Proof.
  intros Hw. unfold construct.
  set (pool := fold_left _ _ _). assert (Forall (λ b, b = fresh (host b) (port b)) pool) as Hp.
  { subst pool. assert (Forall (λ b, b = fresh (host b) (port b)) []) as H0 by constructor.
    revert H0. generalize (@nil Backend). pose proof (load_fresh config) as Hl.
    induction Hl as [|b bs [Hb _] _ IH]; intros acc Ha; cbn; [done|].
    apply IH, Forall_app. split; [done|]. by repeat constructor. }
  rewrite Forall_forall in Hp.
  pose proof (dom_empty_L (M := gmap Z) (D := gset Z) (A := ConnectionPair)) as D1.
  pose proof (dom_empty_L (M := gmap Z) (D := gset Z) (A := Z)) as D2.
  pose proof (dom_empty_L (M := gmap Z) (D := gset Z) (A := HealthChecker.Check)) as D3.
  split; try done.
  - intros b k. cbn. rewrite lookup_empty. split; [done|]. intros (_ & c & Hc & _). by rewrite lookup_empty in Hc.
  - intros i b Hb. unfold load. cbn. rewrite count_empty.
    apply list_elem_of_lookup_2, Hp in Hb. by rewrite Hb.
  - split.
    + unfold checker_fds, keyed, held, checker_of, HealthChecker.checks, checks, connections, routes.
      rewrite D1, D2, D3.
      split_and!; [set_solver|by rewrite !union_empty_r_L|done].
    + split; [|done]. apply Forall_forall. intros b Hb%Hp. rewrite Hb. by split.
    + done.
  - split; [apply build_spec|]. apply Nat.le_0_l.
Qed.

(** The balancer as it would be had the loop of [closeAllConnections] removed
    the entries it has closed. *)
Definition remaining (m : gmap Z ConnectionPair) (r : gmap Z Z) (s : LoadBalancer) : LoadBalancer :=
  s <| connections := m |> <| routes := r |>.

Lemma close_pair_spec F fd c m r s w :
  tables F (remaining m r s) w → m !! fd = Some c →
  wp (close_pair (fd, c)) (λ _ s' w', ∃ r', tables F (remaining (delete fd m) r' s') w') s w.
Proof.
  intros Ht Hc. set (g := remaining m r s) in *.
  destruct (t_keys _ _ _ Ht _ _ Hc) as [Hk _].
  pose proof (tables_holds _ _ _ Ht) as Hw. pose proof (t_apart _ _ _ Ht) as (A1 & A2 & A3).
  pose proof (tables_checks_apart _ _ _ Ht) as A4. unfold held in Hw, A4. cbn in Hw, A1, A2, A3, A4.
  assert (fd ∈ dom m) as Hd by by eapply elem_of_dom_2.
  assert (∀ s' w', closed fd c g = remaining (delete fd m) (routes (closed fd c g)) s' →
    holds_fds (held F (closed fd c g) ∪ dom (checks s)) w' →
    ∃ r', tables F (remaining (delete fd m) r' s') w') as Hend.
  { intros s' w' E Hw'. exists (routes (closed fd c g)). rewrite <- E.
    by apply (tables_closed F F g w); [..|apply union_subseteq_r|]. }
  unfold close_pair. wp_step. apply wp_remove. intros _. wp_step.
  change (negb (backend_fd c =? -1)) with (relays c). unfold closed in Hend. destruct (relays c) eqn:Hr.
  - pose proof (routes_of F g w fd c Ht Hc Hr) as Hrt. cbn in Hrt.
    assert (backend_fd c ∈ dom r) as Hb by by eapply elem_of_dom_2.
    wp_step. apply wp_remove. intros _. wp_step. apply wp_on_backend.
    wp_step. apply wp_sys, wp_ret. wp_step. apply wp_sys, wp_ret. apply Hend; [done|].
    unfold held. cbn. rewrite !dom_delete_L.
    match goal with |- holds_fds ?G _ => replace G with
      (((F ∪ dom m ∪ dom r ∪ dom (checks s)) ∖ {[backend_fd c]}) ∖ {[fd]}) end.
    + apply holds_close; [clear - Hd Hb A3; set_solver|]. apply holds_close; [clear - Hb; set_solver|].
      by repeat (apply holds_neutral; [done|]).
    + generalize dependent (dom m). generalize dependent (dom r).
      generalize dependent (dom (checks s)). clear. intros. set_solver.
  - wp_step. wp_step. apply wp_sys, wp_ret. apply Hend; [done|].
    unfold held. cbn. rewrite !dom_delete_L.
    match goal with |- holds_fds ?G _ => replace G with
      ((F ∪ dom m ∪ dom r ∪ dom (checks s)) ∖ {[fd]}) end.
    + apply holds_close; [clear - Hd; set_solver|]. by repeat (apply holds_neutral; [done|]).
    + generalize dependent (dom m). generalize dependent (dom r).
      generalize dependent (dom (checks s)). clear. intros. set_solver.
Qed.

Lemma close_pairs_spec F (l : list (Z * ConnectionPair)) m r s w :
  tables F (remaining m r s) w → NoDup (fst <$> l) → (∀ k c, m !! k = Some c ↔ (k, c) ∈ l) →
  wp (for_each l close_pair) (λ _ s' w', ∃ r', tables F (remaining ∅ r' s') w') s w.
Proof.
  revert m r s w. induction l as [|[fd c] l IH]; intros m r s w Ht Hnd Hm; cbn [for_each].
  { apply wp_ret. exists r. replace ∅ with m; [done|]. apply map_empty. intros k.
    apply eq_None_not_Some. intros [c Hc%Hm]. by apply elem_of_nil in Hc. }
  apply NoDup_cons in Hnd as [Hfd Hnd]. wp_step.
  eapply wp_mono; [|apply (close_pair_spec F fd c m r); [done|apply Hm; by left]].
  intros [] s' w' [r' Ht']. eapply IH; [exact Ht'|done|]. intros k c'.
  rewrite lookup_delete_Some, Hm, elem_of_cons. split; [naive_solver|].
  intros Hin. split; [|by right]. intros <-. apply Hfd. apply list_elem_of_fmap. by exists (fd, c').
Qed.

Lemma tables_rest F s w :
  tables F s w → connections s = ∅ →
  routes s = ∅ ∧ Forall (λ b, connection_count b = 0) (backend_pool s).
Proof.
  intros Ht He. split.
  - apply map_empty. intros b. apply eq_None_not_Some. intros [k Hk].
    apply (t_routes _ _ _ Ht) in Hk as (_ & c & Hc & _). by rewrite He, lookup_empty in Hc.
  - apply Forall_lookup. intros i b Hb. rewrite (t_load _ _ _ Ht i b Hb). unfold load.
    rewrite He. apply count_empty.
Qed.

(** No connection, no route, no probe; the backends count no connection. *)
Definition at_rest (s : LoadBalancer) : Prop :=
  connections s = ∅ ∧ routes s = ∅ ∧ checks s = ∅ ∧
  Forall (λ b, connection_count b = 0) (backend_pool s).

Lemma closeAllConnections_spec F s w :
  tables F s w →
  wp closeAllConnections (λ _ s' w', connections s' = ∅ ∧ tables F s' w') s w.
Proof.
  intros Ht. unfold closeAllConnections. wp_step. apply wp_gets. wp_step.
  destruct (traverse_keys (connections s)) as [Hnd _].
  eapply wp_mono; [|eapply (close_pairs_spec F _ (connections s) (routes s))]; try done.
  - intros [] s' w' [r Ht']. apply wp_modify. split; [done|].
    change (set_with _ _) with (remaining ∅ ∅ s'). replace r with (∅ : gmap Z Z) in Ht'; [done|].
    symmetry. by apply (tables_rest F (remaining ∅ r s') w').
  - by destruct s.
  - intros k c. by rewrite traverse_lookup.
Qed.

Lemma run_spec {FK : FreshFds K} {HK : Honest K} F turns fuel s w :
  tables F s w → at_rest s →
  wp (start turns fuel) (λ _ s' w', at_rest s' ∧ holds_fds F w') s w.
Proof.
  intros Ht Hrest.
  assert (∀ s w, tables F s w → at_rest s → at_rest s ∧ holds_fds F w) as Hquit.
  { intros s0 w0 Ht0 Hr0. split; [done|]. pose proof (tables_holds _ _ _ Ht0) as Hw.
    destruct Hr0 as (E1 & E2 & E3 & _). unfold held in Hw.
    by rewrite E1, E2, E3, !dom_empty_L, !union_empty_r_L in Hw. }
  assert (∀ A (m : Prog LoadBalancer A) s w, keeps F m → (∀ a s' w', m s w = Some (a, s', w') →
    at_rest s → at_rest s') → tables F s w → at_rest s →
    wp m (λ _ s' w', tables F s' w' ∧ at_rest s') s w) as Hboth.
  { intros A m s0 w0 Hk Hr Ht0 Hr0. pose proof (Hk s0 w0 Ht0) as Hm. revert Hm. unfold wp.
    destruct (m s0 w0) as [[[a s1] w1]|] eqn:E; [|done]. intros Ht1. split; [done|by eapply Hr]. }
  unfold start. wp_step. eapply wp_mono.
  2:{ apply Hboth; [by apply keeps_listener| |done..]. intros a s' w' E. unfold listener, zoom in E.
      destruct (Socket.bindAndListen _ _ _) as [[[? ?] ?]|]; [|done]. by injection E as <- <- <-. }
  intros [] s1 w1 [Ht1 Hr1]; [|by apply wp_ret, Hquit]. cbn [negb]. wp_step. apply wp_gets. wp_step.
  eapply wp_mono; [|apply Hboth; [apply keeps_add| |done..]; by intros a s' w' [= <- <- <-]].
  intros [] s2 w2 [Ht2 Hr2]; [|by apply wp_ret, Hquit]. cbn [negb]. wp_step. eapply wp_mono.
  2:{ apply Hboth; [by apply keeps_timer_start| |done..]. intros a s' w' E. unfold timer, zoom in E.
      destruct (TimerFd.start _ _ _) as [[[? ?] ?]|]; [|done]. by injection E as <- <- <-. }
  intros [] s3 w3 [Ht3 Hr3]; [|by apply wp_ret, Hquit]. cbn [negb]. wp_step. apply wp_gets. wp_step.
  eapply wp_mono; [|apply Hboth; [apply keeps_add| |done..]; by intros a s' w' [= <- <- <-]].
  intros [] s4 w4 [Ht4 Hr4]; [|by apply wp_ret, Hquit]. cbn [negb]. wp_step.
  eapply wp_mono; [|by apply (keeps_loop F)]. intros [] s5 w5 Ht5. wp_step.
  eapply wp_mono; [|by apply (closeAllConnections_spec F)]. intros [] s6 w6 [He Ht6].
  destruct (tables_rest _ _ _ Ht6 He) as [Hr6 Hp6]. apply wp_zoom.
  eapply wp_mono; [|by apply (cancelAll_spec _ _ _ _ (t_checker _ _ _ Ht6))].
  intros [] h' w' (Hc & Hp & Hw). split.
  - split_and!; [done..|]. cbn. by rewrite Hp.
  - unfold held in Hw. by rewrite He, Hr6, !dom_empty_L, !union_empty_r_L in Hw.
Qed.

(** ** Fairness *)

(** [k] selections in a row. *)
Fixpoint select_times (k : nat) : Prog LoadBalancer (list nat) :=
  match k with
  | O => mret []
  | S k' => bind selectRoundRobinBackend (λ i, bind (select_times k') (λ l, mret (i :: l)))
  end.

Lemma round_robin_live s w attempts :
  live s (in_turn s 0) → (0 < attempts)%nat →
  round_robin attempts (size (backend_pool s)) s w =
    Some (in_turn s 0, advanced ((next_backend_index s + 1) mod size (backend_pool s))%nat s, w).
Proof.
  intros (b & Hb & Hh) Ha. destruct attempts as [|attempts]; [lia|]. cbn [round_robin].
  unfold bind, gets, modify. unfold in_turn in *. rewrite Nat.add_0_r in *.
  change (backend_pool (set_with _ s)) with (backend_pool s). unfold BackendPool.getBackend.
  by rewrite Hb, Hh.
Qed.

Lemma select_times_spec k s w :
  (∀ i, (i < size (backend_pool s))%nat → live s i) → (0 < size (backend_pool s))%nat →
  (next_backend_index s < size (backend_pool s))%nat →
  select_times k s w =
    Some (in_turn s <$> seq 0 k, advanced (in_turn s k) s, w).
Proof.
  intros Hlive Hpos. revert s w Hlive Hpos. induction k as [|k IH]; intros s w Hlive Hpos Hn.
  { cbn. unfold in_turn. rewrite Nat.add_0_r, Nat.mod_small by done. by destruct s. }
  cbn [select_times]. unfold bind, selectRoundRobinBackend, bind at 1, gets at 1.
  rewrite (proj2 (Nat.eqb_neq _ _)) by lia. rewrite round_robin_live; [|apply Hlive, Nat.mod_upper_bound; lia|done].
  set (n := ((next_backend_index s + 1) mod size (backend_pool s))%nat).
  rewrite (IH (advanced n s)); [|done..|apply Nat.mod_upper_bound; by apply Nat.neq_0_lt_0].
  change (advanced (in_turn (advanced n s) k) (advanced n s)) with (advanced (in_turn (advanced n s) k) s).
  rewrite in_turn_next by done. change (seq 0 (S k)) with (0%nat :: seq 1 k).
  rewrite <- (fmap_S_seq 0 k), fmap_cons. unfold mret, Prog_ret. do 4 f_equal.
  rewrite <- list_fmap_compose. apply list_fmap_ext. intros i j Hj. cbn. by rewrite in_turn_next.
Qed.

Lemma in_turn_perm s :
  (0 < size (backend_pool s))%nat →
  in_turn s <$> seq 0 (size (backend_pool s)) ≡ₚ seq 0 (size (backend_pool s)).
Proof.
  intros Hpos. apply submseteq_length_Permutation; [|by rewrite length_fmap].
  apply NoDup_submseteq.
  - apply NoDup_fmap_2_strong; [|apply NoDup_seq]. intros x y Hx%elem_of_seq Hy%elem_of_seq E.
    unfold in_turn in E. set (n := size (backend_pool s)) in *. set (i := next_backend_index s) in *.
    pose proof (Nat.div_mod_eq (i + x) n). pose proof (Nat.div_mod_eq (i + y) n).
    assert ((i + x) / n = (i + y) / n)%nat; nia.
  - intros x (j & -> & _)%list_elem_of_fmap. apply elem_of_seq. split; [lia|].
    apply Nat.mod_upper_bound. lia.
Qed.

(** ** Properties *)

(** C15: The balancer stops and cleans up after itself: from its constructor on,
    whatever the clients and the backends do, once a SIGTERM is delivered (by the
    [t]-th look at the signals, with more than [t] turns of the loop to run)
    [start] returns.  It leaves no connection, no route and no probe, every
    backend counts zero connections, and the open descriptors are exactly those
    that were open before, none having been closed twice. *)
Theorem start_cleans_up (FK : FreshFds K) (HK : Honest K) n m t (P : Patient K n) (B : Backlog K m)
    (HT : Terminated K t) F id count environment config listen timer_fd w turns :
  holds_fds F w → (t < turns)%nat →
  ∃ N s' w', at_rest s' ∧ holds_fds F w' ∧
    ∀ fuel, (N ≤ fuel)%nat →
      start turns fuel (construct id count environment config listen timer_fd) w = Some ((), s', w').
Proof.
  intros Hw Ht. pose proof (construct_tables F id count environment config listen timer_fd w Hw) as Hc.
  assert (at_rest (construct id count environment config listen timer_fd)) as Hrest.
  { split_and!; [done..|]. by apply (tables_rest F _ w). }
  destruct (settles_wp _ (λ _ s' w', at_rest s' ∧ holds_fds F w') _ w
    (start_settles n m t F turns _ w Ht Hc)) as (N & [] & s' & w' & [Hs' Hw'] & E).
  - intros fuel. by apply run_spec.
  - by exists N, s', w'.
Qed.

(** A turn of the event loop always comes to an end, with enough fuel for
    the bytes and clients at hand, and leaves the tables consistent: a descriptor
    is routed to a client exactly when it is the client's backend, each backend
    counts the clients it serves, and there are at most [MAX_CONNECTIONS]
    clients. *)
Theorem turn_completes (FK : FreshFds K) (HK : Honest K) n m (P : Patient K n) (B : Backlog K m) F s w :
  tables F s w →
  ∃ N go s' w', tables F s' w' ∧ ∀ fuel, (N ≤ fuel)%nat → turn fuel s w = Some (go, s', w').
Proof.
  intros Ht. apply (settles_wp _ (λ _, tables F)); [by apply (turn_settles n m F)|].
  intros fuel. by apply keeps_turn.
Qed.

(** C2: Every event, for whatever descriptor and with whatever flags, keeps the
    tables consistent. *)
Theorem event_keeps_tables (FK : FreshFds K) (HK : Honest K) F fuel e s w :
  tables F s w → wp (handle_event fuel e) (λ _ s' w', tables F s' w') s w.
Proof. intros Ht. by apply keeps_handle_event. Qed.

(** C16: When a backend fails, its client is moved or closed: [failoverConnection]
    returns [true] with the client routed to another backend that is healthy,
    its unsent bytes and every other connection untouched, or [false] with the
    connection closed. *)
Theorem failover_moves_or_closes (FK : FreshFds K) F s w key c :
  tables F s w → connections s !! key = Some c →
  ∃ r s' w', failoverConnection key (backend_index c) s w = Some (r, s', w') ∧ tables F s' w' ∧
    if r then rerouted key s s' ∧ ∃ i, i ≠ backend_index c ∧ live s i ∧ routed key i s'
    else connections s' = delete key (connections s).
Proof.
  intros Ht Hc. destruct (total_failover key (backend_index c) s w) as [[[r s'] w'] E].
  exists r, s', w'. split; [done|]. pose proof (failoverConnection_spec F s w key c Ht Hc) as Hwp.
  unfold wp in Hwp. by rewrite E in Hwp.
Qed.

(** C31: A new client is only ever connected to a healthy backend: when
    [connectClientToBackend] returns [true] the client is routed to a backend
    that is healthy, and in every case its traffic and all other connections are
    as before. *)
Theorem connect_routes_to_live (FK : FreshFds K) F s w key c :
  tables F s w → connections s !! key = Some c → backend_fd c = -1 →
  ∃ r s' w', connectClientToBackend key s w = Some (r, s', w') ∧ tables F s' w' ∧
    rerouted key s s' ∧ (r = true → ∃ i, live s i ∧ routed key i s').
Proof.
  intros Ht Hc Hb. destruct (connectClient_returns F key s w Ht) as [[[r s'] w'] E].
  exists r, s', w'. split; [done|].
  assert (∀ c, connections s !! key = Some c → backend_fd c = -1) as Hu by (intros c'; rewrite Hc; congruence).
  pose proof (connectClientToBackend_spec F key s w Ht Hu) as Hwp. unfold wp in Hwp. by rewrite E in Hwp.
Qed.

(** Round robin picks the first healthy backend in turn and moves the turn
    behind it, and reports no backend only when none is healthy. *)
Theorem round_robin_first_live s w :
  (0 < size (backend_pool s))%nat →
  ∃ r s', selectRoundRobinBackend s w = Some (r, s', w) ∧ chosen s (size (backend_pool s)) r s'.
Proof.
  intros Hpos. destruct (total_selectRoundRobin s w) as [[[r s'] w'] E].
  pose proof (selectRoundRobin_spec s w) as Hwp. unfold wp in Hwp. rewrite E in Hwp.
  destruct Hwp as (-> & _ & Hch). exists r, s'. split; [done|]. by apply Hch.
Qed.

(** C34: Round robin is fair: while all backends are healthy, as many selections
    in a row as there are backends pick each of them exactly once. *)
Theorem round_robin_fair s w :
  (∀ i, (i < size (backend_pool s))%nat → live s i) →
  (next_backend_index s < size (backend_pool s))%nat →
  ∃ l s', select_times (size (backend_pool s)) s w = Some (l, s', w) ∧
    l ≡ₚ seq 0 (size (backend_pool s)) ∧ next_backend_index s' = next_backend_index s.
Proof.
  intros Hlive Hn. eexists _, _. split; [apply select_times_spec; [done|lia|done]|].
  split; [apply in_turn_perm; lia|]. cbn. unfold in_turn.
  rewrite <- Nat.Div0.add_mod_idemp_r, Nat.Div0.mod_same, Nat.add_0_r. by apply Nat.mod_small.
Qed.

(** C32: [forwardData] takes what the peer sent and nothing else: it always
    returns, and either the bytes received were appended in order to the queue,
    which stays within [MAX_BUFFER_SIZE], the end of the stream was noted when it
    was seen, and nothing else about the connection or the balancer changed; or
    it gave up, on an error or a full queue, and the connection was closed. *)
Theorem forwardData_appends (HK : Honest K) n (P : Patient K n) F d drain s w c :
  tables F s w → connections s !! client_fd c = Some c → (d = ToClient → relays c = true) →
  len (pending d c) < U64 →
  ∃ r s' w', forwardData (forward_fuel n d c) (source d c) (client_fd c) d drain s w = Some (r, s', w') ∧
    forwarded d s w c r s' w'.
Proof.
  intros Ht Hc Hd HU. apply (forwardData_loop F n); try done. unfold forward_fuel.
  pose proof (budget_le n w). lia.
Qed.

(** C33: [flushData] sends the queue in order: it always returns, and either the
    bytes sent followed by the bytes still queued are the queue as it was, the
    rest being kept only because the peer takes no more now, and nothing else
    changed; or a call failed and the connection was closed. *)
Theorem flushData_sends (HK : Honest K) n (P : Patient K n) F d s w c :
  tables F s w → connections s !! client_fd c = Some c → (d = ToBackend → relays c = true) →
  ∃ s' w', flushData (flush_fuel n d c) (destination d c) (client_fd c) d s w = Some ((), s', w') ∧
    flushed d s w c s' w'.
Proof.
  intros Ht Hc Hd. apply (flushData_loop F n); try done. unfold flush_fuel.
  pose proof (budget_le n w). lia.
Qed.

(** C40: A new client whose first bytes are a part of ["GET /metrics "] gets
    nowhere: its event is over after peeking at them, even when the client has
    already hung up its side; nothing was read, closed or disarmed, so a
    level-triggered epoll reports the same event at once, again and again. *)
Theorem partial_metrics_request_spins fuel key flags s w c :
  connections s !! key = Some c → client_fd c = key → routes s !! key = None →
  backend_fd c = -1 → metrics_connection c = false →
  has flags EPOLLIN = true → has flags EPOLLERR = false →
  let peek := sys_recv key 1024 true in
  let a := respond w peek in
  0 < ret a < len METRICS_PREFIX → len (data a) = ret a →
  take (Z.to_nat (ret a)) METRICS_PREFIX = data a →
  relay_event fuel key flags s w = Some ((), s, (peek, a) :: w).
Proof.
  intros Hc Hk Hr Hb Hm Hin Herr peek a [Hpos Hlt] Hlen Hpre.
  unfold relay_event, bind at 1, gets. rewrite Hr. cbv beta iota.
  unfold with_connection at 1, find_connection, bind at 1, gets. rewrite Hc, Herr, Hin.
  rewrite andb_false_r. unfold read_event, bind at 1, with_connection at 1, find_connection, bind at 1, gets.
  rewrite Hc, Hin. unfold client_readable, bind at 1. rewrite Hm, Hb, Z.eqb_refl. cbn [negb andb].
  unfold classify, bind at 1, sys. rewrite Hk. fold peek. change (respond w peek) with a.
  assert (take (Z.to_nat (ret a)) (data a) = data a) as Hd by (apply take_ge; len_lia).
  rewrite Hd, Hpre, Z.gtb_ltb, !(proj2 (Z.ltb_lt _ _)) by done. unfold beq.
  by rewrite bool_decide_true.
Qed.

End Balancer.

(** ** Witnesses *)

Section Witnesses.

(** A kernel on which no client arrives and the second look at the signals finds
    SIGTERM. *)
#[local] Instance calm : Kernel := λ w c,
  match c with
  | sys_signals => Answer 0 0 0 [] [] (if (1 <=? polls w)%nat then [(SIGTERM, 0)] else [])
  | sys_accept _ => Answer (-1) EAGAIN 0 [] [] []
  | _ => demo_kernel (lit "GET") w c
  end.

#[local] Instance calm_fresh : FreshFds calm.
Proof. intros w c fd Ho. destruct c; try done; by apply (demo_fresh (lit "GET") w) in Ho. Qed.

#[local] Instance calm_honest : Honest calm.
Proof. intros w c. destruct c; try done; apply (demo_honest (lit "GET") w). Qed.

#[local] Instance calm_patient : Patient calm 0.
Proof. intros w c Hw. unfold interrupted. apply andb_false_iff. right. by destruct c. Qed.

#[local] Instance calm_backlog : Backlog calm 0.
Proof. done. Qed.

#[local] Instance calm_terminated : Terminated calm 1.
Proof.
  intros w Hw. unfold respond, calm. rewrite (proj2 (Nat.leb_le _ _)) by done. by left.
Qed.

(** Descriptors 3, 4 and 5: epoll, the listener and the timer. *)
Definition own_fds : gset Z := {[ 3; 4; 5 ]}.
Definition booted : history :=
  [(sys_timerfd_create, Answer 5 0 0 [] [] []); (sys_socket, Answer 4 0 0 [] [] []);
   (sys_epoll_create, Answer 3 0 0 [] [] [])].

Lemma booted_holds : holds_fds own_fds booted.
Proof. split; [|done]. unfold own_fds. cbn. set_solver. Qed.

Definition demo_config : bytes := lit "10.0.0.1:8081" ++ [LF] ++ lit "10.0.0.2:8082".

Definition idle_balancer : LoadBalancer := construct 0 1 None (Some demo_config) 4 5.

Lemma start_cleans_up_witness :
  ∃ N s' w', at_rest s' ∧ holds_fds own_fds w' ∧
    ∀ fuel, (N ≤ fuel)%nat → start 2 fuel idle_balancer booted = Some ((), s', w').
Proof. apply (start_cleans_up _ _ 0 0 1 _ _ _); [apply booted_holds|lia]. Defined.

Lemma turn_completes_witness :
  ∃ N go s' w', tables own_fds s' w' ∧ ∀ fuel, (N ≤ fuel)%nat → turn fuel idle_balancer booted = Some (go, s', w').
Proof.
  apply (turn_completes _ _ 0 0 _ _ own_fds). apply construct_tables, booted_holds.
Defined.

Lemma event_keeps_tables_witness :
  wp (handle_event 5 (4, EPOLLIN)) (λ _ s' w', tables own_fds s' w') idle_balancer booted.
Proof. apply (event_keeps_tables _ _). apply construct_tables, booted_holds. Defined.

(** A client on descriptor 7 with three bytes for its backend, on descriptor 8
    or not connected yet. *)
Definition client (backend : Z) : ConnectionPair :=
  new_pair 7 <| backend_fd := backend |> <| client_to_backend := lit "GET" |>.

Definition with_client (backend : Z) : LoadBalancer :=
  let first := fresh (lit "10.0.0.1") 8081 in
  let served := if backend =? -1 then first else first <| connection_count := 1 |> in
  mk 0 1 RoundRobin 0 [served; fresh (lit "10.0.0.2") 8082] [] ∅ false 4 5 {[ 7 := client backend ]}
    (if backend =? -1 then ∅ else {[ backend := 7 ]}) false.

Definition serving : history :=
  (sys_socket, Answer 8 0 0 [] [] []) :: (sys_accept 4, Answer 7 0 0 [] [] []) :: booted.

Definition waiting : history := (sys_accept 4, Answer 7 0 0 [] [] []) :: booted.

Lemma with_client_tables (b : Z) w :
  b = -1 ∧ w = waiting ∨ b = 8 ∧ w = serving → tables own_fds (with_client b) w.
Proof.
  intros Hb. assert (dom (connections (with_client b)) = {[7]}) as D1 by apply dom_singleton_L.
  assert (dom (routes (with_client b)) = if b =? -1 then ∅ else {[b]}) as D2.
  { unfold with_client. cbn. destruct (b =? -1); [apply dom_empty_L|apply dom_singleton_L]. }
  assert (∀ k c, connections (with_client b) !! k = Some c ↔ k = 7 ∧ c = client b) as Hc.
  { intros k c. unfold with_client. cbn. rewrite lookup_singleton_Some. naive_solver. }
  split.
  - intros k c [-> ->]%Hc. done.
  - intros f k. setoid_rewrite Hc. unfold with_client. cbn.
    destruct Hb as [[-> _]|[-> _]]; cbn; [rewrite lookup_empty|rewrite lookup_singleton_Some]; naive_solver.
  - intros k c [-> ->]%Hc. destruct Hb as [[-> _]|[-> _]]; cbn; lia.
  - intros i x. destruct Hb as [[-> _]|[-> _]]; destruct i as [|[|i]]; cbn; try done; by intros [= <-].
  - intros k c [-> ->]%Hc d. destruct Hb as [[-> _]|[-> _]]; by destruct d.
  - rewrite D1, D2. destruct Hb as [[-> _]|[-> _]]; cbn; unfold own_fds; set_solver.
  - split; [|split|done].
    + unfold checker_fds, held. change (dom (HealthChecker.checks _)) with (dom (∅ : gmap Z HealthChecker.Check)).
      rewrite D1, D2, dom_empty_L. split; [set_solver|]. split; [|done].
      destruct Hb as [[-> ->]|[-> ->]]; (split; [|done]); unfold own_fds; cbn; set_solver.
    + destruct Hb as [[-> _]|[-> _]]; by repeat constructor.
    + done.
  - split; [constructor|]. change (connections _) with ({[7 := client b]} : gmap Z ConnectionPair).
    rewrite map_size_singleton. change 1%nat with (Z.to_nat 1). by apply Z2Nat.inj_le.
Qed.

Lemma relaying_tables : tables own_fds (with_client 8) serving.
Proof. apply with_client_tables. by right. Qed.

Lemma waiting_tables : tables own_fds (with_client (-1)) waiting.
Proof. apply with_client_tables. by left. Qed.

Lemma failover_moves_or_closes_witness :
  ∃ r s' w', failoverConnection 7 0 (with_client 8) serving = Some (r, s', w') ∧ tables own_fds s' w' ∧
    if r then rerouted 7 (with_client 8) s' ∧ ∃ i, i ≠ 0%nat ∧ live (with_client 8) i ∧ routed 7 i s'
    else connections s' = delete 7 (connections (with_client 8)).
Proof. apply (failover_moves_or_closes _ own_fds _ _ 7 (client 8) relaying_tables). by vm_compute. Defined.

Lemma connect_routes_to_live_witness :
  ∃ r s' w', connectClientToBackend 7 (with_client (-1)) waiting = Some (r, s', w') ∧
    tables own_fds s' w' ∧ rerouted 7 (with_client (-1)) s' ∧
    (r = true → ∃ i, live (with_client (-1)) i ∧ routed 7 i s').
Proof. by apply (connect_routes_to_live _ own_fds _ _ 7 (client (-1)) waiting_tables). Defined.

Lemma round_robin_first_live_witness :
  ∃ r s', selectRoundRobinBackend (with_client 8) serving = Some (r, s', serving) ∧
    chosen (with_client 8) 2 r s'.
Proof. apply (round_robin_first_live (with_client 8) serving). cbn. lia. Defined.

Lemma round_robin_fair_witness :
  ∃ l s', select_times 2 (with_client 8) serving = Some (l, s', serving) ∧ l ≡ₚ [0; 1]%nat ∧
    next_backend_index s' = 0%nat.
Proof.
  apply (round_robin_fair (with_client 8) serving); [|cbn; lia].
  intros [|[|i]] Hi; [by eexists|by eexists|]. cbn in Hi. lia.
Defined.

Lemma forwardData_appends_witness :
  ∃ r s' w', forwardData (forward_fuel 0 ToClient (client 8)) 8 7 ToClient true (with_client 8) serving =
      Some (r, s', w') ∧ forwarded ToClient (with_client 8) serving (client 8) r s' w'.
Proof. by apply (forwardData_appends _ 0 _ own_fds ToClient true _ _ (client 8) relaying_tables). Defined.

Lemma flushData_sends_witness :
  ∃ s' w', flushData (flush_fuel 0 ToBackend (client 8)) 8 7 ToBackend (with_client 8) serving =
      Some ((), s', w') ∧ flushed ToBackend (with_client 8) serving (client 8) s' w'.
Proof. by apply (flushData_sends _ 0 _ own_fds ToBackend _ _ (client 8) relaying_tables). Defined.

Lemma partial_metrics_request_spins_witness :
  ∃ a, relay_event 1 7 (EPOLLIN + EPOLLRDHUP) (with_client (-1)) waiting =
    Some ((), with_client (-1), (sys_recv 7 1024 true, a) :: waiting).
Proof. eexists. by apply (partial_metrics_request_spins 1 7 _ (with_client (-1)) waiting (client (-1))). Defined.

End Witnesses.
